(* ===== verification/_CoqProject ===== *)
-Q . S2P
Prelude.v
Trace.v
Pmm.v
PmmRep.v
PmmBuddy.v
PmmPrim.v
PmmRuns.v
PmmAlloc.v
PmmSpec.v
PmmWorld.v
PmmRange.v
PmmProps.v
Pid.v
PidSpec.v
IdIndexSpec.v
Ring.v
Sched.v
SchedReady.v
SchedTimeout.v
SchedOverdue.v
Wait.v
WaitSpec.v
WaitWake.v
WaitPrims.v
Work.v
Kerror.v
Kva.v
KvaSort.v
KvaRep.v
KvaCoalesce.v
KvaProps.v
Paging.v
PagingRep.v
PagingSpec.v
PagingProps.v
PagingRange.v
PagingTeardown.v
AddrSpace.v
AddrSpacePlace.v
AddrSpacePages.v
AddrSpaceRegions.v
AddrSpaceProps.v
AddrSpaceHeap.v
AddrSpaceTeardown.v
Bytes.v
Crc.v
Buf.v
Elf.v
ElfProps.v
ElfFile.v
ElfPlan.v
ElfLoad.v
ElfTls.v
ElfStack.v
ElfArgs.v
ElfStackProps.v
FsError.v
Vibefs.v
VibefsCommit.v
VibefsOps.v
VibefsLayout.v
VibefsCodec.v
VibefsSort.v
VibefsDisk.v
VibefsVol.v
VibefsBlocks.v
VibefsTree.v
VibefsInodeTree.v
VibefsProtocol.v
VibefsFiles.v
VibefsMount.v
VibefsImage.v
VibefsDurable.v
VibefsSpace.v
VibefsNames.v
VibefsRename.v
VibefsCrash.v
VibefsMkfs.v
VibefsAtomic.v
VibefsNameProps.v
