(* ===== verification/Prelude.v ===== *)
(** * vibeOS portable kernel core: verification library

    vibeOS keeps the algorithmic part of its kernel in one crate without
    hardware access, src/crates/core; the kernel binary under src/src holds the
    locks, the boot code and the drivers and calls into it.  This library models
    memory management, process ids, the scheduler's queues, the user address
    spaces, the program loader and the vibefs file system of that crate, and
    proves what their callers rely on.

    ** The parts and how they meet

    The frame allocator (mm/pmm.rs) hands out physical frames.  Page tables
    (mm/paging.rs over the x86_64 format of arch/x86_64/paging.rs) take their
    table frames from it and map pages; an address space (proc/addr_space/mod.rs)
    is a root with a table of regions, whose page frames come from the same
    allocator.  The virtual address allocator (mm/kva.rs) gives the kernel
    ranges of addresses to map.  Process and thread ids come from a bitmap and
    are found through an index (proc/pid.rs).  The scheduler (sched/mod.rs) keeps
    a ready ring, a timeout queue and the overdue sweep; wait queues and the
    blocking primitives (sched/wait.rs) move threads between them; work rings
    (sched/work.rs) defer work from interrupts.  [execve] decodes an ELF file
    into an image and a plan of page runs for the new address space
    (proc/elf.rs), and lays its arguments out on the initial stack
    (proc/elf/stack.rs).  Errors reach callers as errnos (kerror.rs).

    vibefs (fs/vibefs) keeps a volume in memory (vol.rs): tables of inodes and
    names, reference counts, and the blocks taken and dropped since the last
    commit.  mkfs.rs formats a disk, [mount] and [commit] (commit.rs) read and
    write the volume as trees of checksummed blocks (layout.rs) below one of two
    superblocks, and the file operations (ops.rs) change the tables and write
    data to blocks that are free.  The disk is the trait [Disk].

    ** Files

    - [Prelude]: outcomes and monads, machine integers, weakest preconditions,
      the tactics and the lemmas the components share.  [Trace]: sequences of
      calls, lockstep and simulation.  [Ring]: ring buffers.
    - [Pmm] is the code of mm/pmm.rs over a memory of list nodes inside the free
      frames.  [PmmRep], [PmmBuddy], [PmmPrim], [PmmRuns] and [PmmAlloc] relate
      it to sets of free blocks, [PmmSpec] and [PmmWorld] to a client that
      allocates, writes its frames and frees, [PmmRange] treats the range
      helpers, [PmmProps] has the theorems.
    - [Pid] is proc/pid.rs; [PidSpec] the allocator, [IdIndexSpec] the index.
    - [Sched] is sched/mod.rs; [SchedReady], [SchedTimeout], [SchedOverdue].
    - [Wait] is sched/wait.rs; [WaitSpec] proves its lists against the class
      [WaitLinks], which the thread table implements; [WaitWake] composes it
      with the scheduler; [WaitPrims] treats the reader-writer lock and the
      channel.  [Work] is sched/work.rs with its theorem.
    - [Kerror] is kerror.rs.
    - [Kva] is mm/kva.rs; [KvaSort], [KvaRep], [KvaCoalesce], [KvaProps].
    - [Paging] is mm/paging.rs; [PagingRep] is the shape of a table tree,
      [PagingSpec] and [PagingProps] the refinement to a page map, [PagingRange]
      the sweep of a range and the ioremap window, [PagingTeardown] the walk that
      frees the user half.  The frame allocator is the
      class [FrameAlloc].
    - [AddrSpace] is proc/addr_space/mod.rs; [AddrSpacePlace] is mmap's choice of
      an address, [AddrSpacePages] who owns which frame, [AddrSpaceRegions] and
      [AddrSpaceProps] munmap and map_anon, [AddrSpaceHeap] the break and the
      check of user ranges, [AddrSpaceTeardown] the end of a space.
    - [Bytes]: slices, little-endian words and results.  [Elf] is proc/elf.rs;
      [ElfProps] is what an accepted image guarantees, [ElfFile] the files that
      are accepted, [ElfPlan] the load plan, [ElfLoad] loading into a target of
      the class [LoadTarget] whose promises are the class [LoadMemory], [ElfTls]
      the thread pointer.  [ElfStack] is proc/elf/stack.rs with exec_args of
      src/src/proc/user_init.rs; [ElfArgs] treats the argument block,
      [ElfStackProps] the initial stack.
    - [FsError] is fs/error.rs, with the monad of fallible operations.  [Crc] is
      the CRC-32 of block/part.rs with the errors it detects; [Buf] has blocks of
      bytes and their layouts.
    - [Vibefs] is vibefs's mod.rs, layout.rs, vol.rs and the memory disk of
      disk.rs, [VibefsCommit] commit.rs and mkfs.rs, [VibefsOps] ops.rs.
      [VibefsLayout], [VibefsBlocks] and [VibefsCodec] treat the formats,
      [VibefsSort] the collected and sorted tables, [VibefsDisk] the laws of a
      disk, the memory disk, and a device with faults and a write cache that a
      power loss drops or tears.  [VibefsVol], [VibefsTree] and [VibefsInodeTree]
      follow a commit's allocations and writes, [VibefsProtocol] the order of its
      requests.  [VibefsFiles] is the invariant of the tables, [VibefsMount] what
      mount reads, [VibefsImage] and [VibefsDurable] the image on disk,
      [VibefsCrash], [VibefsMkfs] and [VibefsAtomic] the theorems on power loss,
      formatting and commits, the last with runs of two limits of the code that
      its documentation records.  [VibefsSpace] treats allocation, drops and table
      slots, [VibefsNames] and [VibefsRename] the name operations,
      [VibefsNameProps] their theorems.

    State is explicit: a struct is a record, a function that changes it returns
    the changed record, in the state monad [M] where many calls are threaded.  A
    loop is a Fixpoint on a bound.  Raw memory is a finite map, and an access
    outside it is [Ub].

    ** What the theorems show

    - Frames: none is lost or handed out twice, every call returns, an
      allocation fails only when no block of the order is free, bad frees panic.
    - Ids: a carried id is not given again, ids come round in order, the index
      is a finite map.
    - Scheduler: the ready ring is a FIFO without repeats, the timeout queue a
      map by deadline, a tick wakes exactly what is due, the overdue sweep finds
      the smallest ids and reaches every overdue thread.
    - Waiting: the intrusive queues are FIFOs, a waiter is in one queue and
      timed as it asked, the lock excludes, channels and work rings are FIFOs.
    - Virtual addresses: live ranges are disjoint, a free always finds a node,
      the sort sorts.
    - Page tables: a root behaves as a map from addresses to pages under every
      sequence of calls, also when frames run out; a range sweep is exact.
    - Address spaces: munmap and map_anon change exactly what they name and lose
      no frame, placement finds the highest free range, heap growth commits,
      a user range is accepted exactly when it is mapped, and teardown frees
      what the user half held, each frame once.
    - Programs: an accepted image is confined to the user half, to its file and
      to the size cap, and every well-formed file is accepted; the load plan
      gives each page the permissions of the last segment covering it, and
      loading leaves exactly the image; the thread pointer is aligned and inside
      its mapping; the argument block is exact within its limits, and the
      initial stack reads back as the arguments.
    - vibefs: records and superblocks read back as written, and a short burst of
      changed bytes is refused; a formatted disk mounts; a commit is read back
      exactly, and with failing calls and power lost at any point mount finds the
      state before it or after it, never another.  The names are a map: lookup,
      create, unlink and rename change exactly the entries they name or refuse
      for a stated reason and change nothing, every file stays reachable from the
      root, and the blocks of the last commit stay as they are.

    ** Bounds

    A bound on a loop is never part of a claim: each theorem that an operation
    returns shows its bound is enough.  List walks are bounded by the nodes in
    memory, scans by the table's length, sweeps of addresses by one turn per
    page, placement by one turn per region, table walks by the four levels.
    Table sizes are parameters where the code has them as constants that may
    change, under the code's own const assertions.  vibefs's tables have the
    sizes of its constants.

    ** Not modelled

    Locks, atomics and interrupts: each component is the sequential code its
    callers run under a lock.  The hardware's accessed and dirty bits, the TLB
    (its flushes are recorded as events) and root switching.  The kernel binary's
    glue, with its implementation of the load target and its file reader;
    drivers, the other file systems and the VFS, vibefs's offline checker
    (fsck.rs) and its planted test bugs, the block layer but for the CRC, shell,
    console and diagnostics; user programs.  A superblock torn by a power loss is
    one that does not parse; other blocks may tear into anything.  The crash
    theorem starts from a volume whose last commit succeeded: after a failed one
    it does not hold, as [retry_loses_commit] shows.  Of vibefs, read, write and truncate
    are definitions without theorems of their own.  Heap allocation inside the modelled code: a
    table it allocates is a list of the length asked for, and the buffer of an
    argument block grows or not as an argument of the call says. *)

From stdpp Require Import base gmap list numbers strings sets sorting.

Local Open Scope Z_scope.

(** ** Outcomes

    Both Cargo profiles of the kernel set [overflow-checks = true]
    (src/Cargo.toml), so an arithmetic overflow, a shift by the width or more, an
    index past an array and a failed [assert!] all panic.  [Ub] marks an access
    through a raw pointer to a cell the modelled memory does not hold, and [NoFuel]
    a loop that used up the bound the model gives it.  A theorem that an
    operation returns [Ret] excludes all three. *)
Inductive panic :=
  | PAssert (msg : string)
  | POverflow
  | PIndex.

Inductive outcome (A : Type) :=
  | Ret (a : A)
  | Panic (p : panic)
  | Ub
  | NoFuel.
Arguments Ret {A} a.
Arguments Panic {A} p.
Arguments Ub {A}.
Arguments NoFuel {A}.

Definition obind {A B} (o : outcome A) (k : A → outcome B) : outcome B :=
  match o with
  | Ret a => k a
  | Panic p => Panic p
  | Ub => Ub
  | NoFuel => NoFuel
  end.

(** A computation over a component's state [S]. *)
Definition M (S A : Type) : Type := S → outcome (A * S).

Definition ret {S A} (a : A) : M S A := λ s, Ret (a, s).
Definition bind {S A B} (m : M S A) (k : A → M S B) : M S B :=
  λ s, obind (m s) (λ '(a, s'), k a s').
Definition get {S} : M S S := λ s, Ret (s, s).
Definition put {S} (s : S) : M S unit := λ _, Ret (tt, s).
Definition modify {S} (f : S → S) : M S unit := λ s, Ret (tt, f s).
Definition gets {S A} (f : S → A) : M S A := λ s, Ret (f s, s).
Definition lift {S A} (o : outcome A) : M S A := λ s, obind o (λ a, Ret (a, s)).
Definition no_fuel {S A} : M S A := λ _, NoFuel.
Definition assert {S} (b : bool) (msg : string) : M S unit :=
  if b then ret tt else lift (Panic (PAssert msg)).

Declare Scope kernel_scope.
Delimit Scope kernel_scope with K.
Notation "x <- m ;; k" := (bind m (λ x, k))
  (at level 20, m at level 99, k at level 200, right associativity) : kernel_scope.
Notation "' pat <- m ;; k" := (bind m (λ x, match x with pat => k end))
  (at level 20, pat pattern, m at level 99, k at level 200, right associativity) : kernel_scope.
Notation "m ;; k" := (bind m (λ _, k))
  (at level 100, k at level 200, right associativity) : kernel_scope.
Notation "x <~ o ;; k" := (obind o (λ x, k))
  (at level 20, o at level 99, k at level 200, right associativity) : kernel_scope.
Global Open Scope kernel_scope.

(** ** Machine integers

    An unsigned integer of width [w] is a [Z] in [[0, 2^w)]. *)
Definition in_width (w x : Z) : Prop := 0 ≤ x < 2 ^ w.
Abbreviation u8 := (in_width 8).
Abbreviation u16 := (in_width 16).
Abbreviation u32 := (in_width 32).
Abbreviation u64 := (in_width 64).
Abbreviation usize := (in_width 64).

Definition wrap (w x : Z) : Z := x mod 2 ^ w.

(** [a + b], [a - b], [a * b], [a << n] with the overflow check on. *)
Definition checked (w x : Z) : outcome Z :=
  if (0 <=? x) && (x <? 2 ^ w) then Ret x else Panic POverflow.
Definition addc (w a b : Z) : outcome Z := checked w (a + b).
Definition subc (w a b : Z) : outcome Z := checked w (a - b).
Definition mulc (w a b : Z) : outcome Z := checked w (a * b).
Definition shlc (w a n : Z) : outcome Z :=
  if (0 <=? n) && (n <? w) then Ret (wrap w (Z.shiftl a n)) else Panic POverflow.

(** [a % n], which panics for zero. *)
Definition remc (a n : Z) : outcome Z :=
  if n =? 0 then Panic (PAssert "attempt to calculate the remainder with a divisor of zero")
  else Ret (a mod n).

(** [assert!] outside the state monad. *)
Definition oassert (b : bool) (msg : string) : outcome unit :=
  if b then Ret tt else Panic (PAssert msg).

(** [checked_add], [saturating_add], [saturating_sub], [wrapping_add]. *)
Definition checked_add (w a b : Z) : option Z :=
  if a + b <? 2 ^ w then Some (a + b) else None.
Definition saturating_add (w a b : Z) : Z := Z.min (a + b) (2 ^ w - 1).
Definition saturating_sub (a b : Z) : Z := Z.max 0 (a - b).
Definition wrapping_add (w a b : Z) : Z := wrap w (a + b).
Definition wrapping_sub (w a b : Z) : Z := wrap w (a - b).

(** [!x]. *)
Definition notw (w x : Z) : Z := 2 ^ w - 1 - x.

(** [x.trailing_zeros()], the width for zero; [x.ilog2()], which panics on zero. *)
Definition trailing_zeros (w x : Z) : Z :=
  if x =? 0 then w else Z.log2 (Z.land x (- x)).
Definition ilog2 (x : Z) : outcome Z :=
  if 0 <? x then Ret (Z.log2 x) else Panic (PAssert "argument of integer logarithm must be positive").
Definition is_power_of_two (x : Z) : bool := (0 <? x) && (x =? 2 ^ Z.log2 x).
Definition next_power_of_two (w x : Z) : outcome Z :=
  checked w (if x <=? 1 then 1 else 2 ^ Z.log2_up x).

(** Array reads and writes by a [usize] index: past the end, a panic. *)
Definition index {A} (l : list A) (i : Z) : outcome A :=
  match l !! Z.to_nat i with
  | Some x => if 0 <=? i then Ret x else Panic PIndex
  | None => Panic PIndex
  end.
Definition store {A} (l : list A) (i : Z) (x : A) : outcome (list A) :=
  if (0 <=? i) && (i <? Z.of_nat (length l)) then Ret (<[Z.to_nat i := x]> l)
  else Panic PIndex.
(** [l.get(i)]. *)
Definition get_at {A} (l : list A) (i : Z) : option A :=
  if 0 <=? i then l !! Z.to_nat i else None.

(** ** Weakest preconditions

    [wp m s Q]: run from [s], [m] returns (no panic, no undefined behaviour,
    within its fuel) a value and a state that satisfy [Q]. *)
Definition owp {A} (o : outcome A) (Q : A → Prop) : Prop :=
  match o with Ret a => Q a | _ => False end.
Definition wp {S A} (m : M S A) (s : S) (Q : A → S → Prop) : Prop :=
  match m s with Ret (a, s') => Q a s' | _ => False end.

Section wp_rules.
Context {S : Type}.
Implicit Types s : S.

Lemma wp_run {A} (m : M S A) s Q :
  wp m s Q ↔ ∃ a s', m s = Ret (a, s') ∧ Q a s'.
Proof.
  unfold wp. destruct (m s) as [[a s']| | |]; naive_solver.
Qed.

(** What a run that is known to return has established. *)
Lemma wp_ran {A} (m : M S A) s Q a s' : wp m s Q → m s = Ret (a, s') → Q a s'.
Proof. unfold wp. intros H Hm. by rewrite Hm in H. Qed.

Lemma owp_run {A} (o : outcome A) (Q : A → Prop) :
  owp o Q ↔ ∃ a, o = Ret a ∧ Q a.
Proof. unfold owp. destruct o; naive_solver. Qed.

Lemma wp_ret {A} (a : A) s (Q : A → S → Prop) : Q a s → wp (ret a) s Q.
Proof. done. Qed.

Lemma wp_bind {A B} (m : M S A) (k : A → M S B) s Q :
  wp m s (λ a s', wp (k a) s' Q) → wp (bind m k) s Q.
Proof. unfold wp, bind. destruct (m s) as [[a s']| | |]; naive_solver. Qed.

Lemma wp_bind_iff {A B} (m : M S A) (k : A → M S B) s Q :
  wp (bind m k) s Q ↔ wp m s (λ a s', wp (k a) s' Q).
Proof. unfold wp, bind. by destruct (m s) as [[a s']| | |]. Qed.

Lemma wp_mono {A} (m : M S A) s (P Q : A → S → Prop) :
  wp m s P → (∀ a s', P a s' → Q a s') → wp m s Q.
Proof. unfold wp. destruct (m s) as [[a s']| | |]; naive_solver. Qed.

Lemma wp_get s (Q : S → S → Prop) : Q s s → wp get s Q.
Proof. done. Qed.

Lemma wp_gets {A} (f : S → A) s (Q : A → S → Prop) : Q (f s) s → wp (gets f) s Q.
Proof. done. Qed.

Lemma wp_modify f s (Q : unit → S → Prop) : Q tt (f s) → wp (modify f) s Q.
Proof. done. Qed.

Lemma wp_put s0 s (Q : unit → S → Prop) : Q tt s0 → wp (put s0) s Q.
Proof. done. Qed.

Lemma wp_lift {A} (o : outcome A) s (Q : A → S → Prop) :
  owp o (λ a, Q a s) → wp (lift o) s Q.
Proof. unfold wp, lift. by destruct o. Qed.

Lemma wp_assert (b : bool) msg s (Q : unit → S → Prop) :
  b = true → Q tt s → wp (assert b msg) s Q.
Proof. by intros ->. Qed.

Lemma wp_if {A} (b : bool) (m1 m2 : M S A) s Q :
  (b = true → wp m1 s Q) → (b = false → wp m2 s Q) → wp (if b then m1 else m2) s Q.
Proof. destruct b; auto. Qed.
End wp_rules.

Lemma owp_ret {A} (a : A) (Q : A → Prop) : Q a → owp (Ret a) Q.
Proof. done. Qed.

Lemma owp_eq {A} (o : outcome A) (v : A) : owp o (λ a, a = v) → o = Ret v.
Proof. destruct o; naive_solver. Qed.

Lemma owp_bind {A B} (o : outcome A) (k : A → outcome B) Q :
  owp o (λ a, owp (k a) Q) → owp (obind o k) Q.
Proof. by destruct o. Qed.

Lemma owp_mono {A} (o : outcome A) (P Q : A → Prop) :
  owp o P → (∀ a, P a → Q a) → owp o Q.
Proof. destruct o; naive_solver. Qed.

(** ** Arithmetic in range *)
Lemma owp_checked w x (Q : Z → Prop) : in_width w x → Q x → owp (checked w x) Q.
Proof.
  intros [??] HQ. unfold checked.
  by rewrite (proj2 (Z.leb_le 0 x)), (proj2 (Z.ltb_lt x _)).
Qed.

Lemma owp_addc w a b (Q : Z → Prop) : in_width w (a + b) → Q (a + b) → owp (addc w a b) Q.
Proof. apply owp_checked. Qed.

Lemma owp_subc w a b (Q : Z → Prop) : in_width w (a - b) → Q (a - b) → owp (subc w a b) Q.
Proof. apply owp_checked. Qed.

Lemma owp_mulc w a b (Q : Z → Prop) : in_width w (a * b) → Q (a * b) → owp (mulc w a b) Q.
Proof. apply owp_checked. Qed.

Lemma owp_shlc w a n (Q : Z → Prop) :
  0 ≤ n < w → 0 ≤ a * 2 ^ n < 2 ^ w → Q (a * 2 ^ n) → owp (shlc w a n) Q.
Proof.
  intros Hn Ha HQ. unfold shlc.
  rewrite (proj2 (Z.leb_le 0 n)), (proj2 (Z.ltb_lt n w)) by lia. simpl.
  unfold wrap. by rewrite Z.shiftl_mul_pow2, Z.mod_small by lia.
Qed.

Lemma owp_remc a n (Q : Z → Prop) : n ≠ 0 → Q (a mod n) → owp (remc a n) Q.
Proof. intros Hn HQ. unfold remc. by rewrite (proj2 (Z.eqb_neq n 0)). Qed.

Lemma owp_oassert (b : bool) msg (Q : unit → Prop) : b = true → Q tt → owp (oassert b msg) Q.
Proof. by intros ->. Qed.

(** An outcome known to return steps to its value. *)
Lemma owp_known {A} (o : outcome A) (v : A) (Q : A → Prop) : o = Ret v → Q v → owp o Q.
Proof. by intros ->. Qed.

Lemma owp_index {A} (l : list A) i (x : A) (Q : A → Prop) :
  0 ≤ i → l !! Z.to_nat i = Some x → Q x → owp (index l i) Q.
Proof. intros Hi Hl HQ. unfold index. rewrite Hl. by rewrite (proj2 (Z.leb_le 0 i)). Qed.

Lemma owp_store {A} (l : list A) i (x : A) (Q : list A → Prop) :
  0 ≤ i < Z.of_nat (length l) → Q (<[Z.to_nat i := x]> l) → owp (store l i x) Q.
Proof.
  intros Hi HQ. unfold store.
  by rewrite (proj2 (Z.leb_le 0 i)), (proj2 (Z.ltb_lt i _)) by lia.
Qed.

(** The same facts as equations, to rewrite with. *)
Lemma addc_ret w a b : in_width w (a + b) → addc w a b = Ret (a + b).
Proof. intros. by apply owp_eq, owp_addc. Qed.

Lemma subc_ret w a b : in_width w (a - b) → subc w a b = Ret (a - b).
Proof. intros. by apply owp_eq, owp_subc. Qed.

Lemma mulc_ret w a b : in_width w (a * b) → mulc w a b = Ret (a * b).
Proof. intros. by apply owp_eq, owp_mulc. Qed.

(** ** Arrays *)
Definition zlen {A} (l : list A) : Z := Z.of_nat (length l).

Create HintDb zlen.
#[export] Hint Rewrite @length_app @length_cons @length_nil @length_replicate @length_insert
  @length_take @length_drop @length_reverse @length_fmap @length_seq : zlen.

(** Linear arithmetic over the lengths of lists. *)
Ltac zlia := unfold zlen, in_width in *; autorewrite with zlen in *; simpl length in *; lia.

Lemma index_ret {A} (l : list A) i x : 0 ≤ i → l !! Z.to_nat i = Some x → index l i = Ret x.
Proof. intros. by eapply owp_eq, owp_index. Qed.

Lemma store_ret {A} (l : list A) i x : 0 ≤ i < zlen l → store l i x = Ret (<[Z.to_nat i := x]> l).
Proof. intros. by apply owp_eq, owp_store. Qed.

Lemma index_mid {A} (l1 l2 : list A) x i : i = zlen l1 → index (l1 ++ x :: l2) i = Ret x.
Proof. intros ->. apply index_ret; [zlia|]. unfold zlen. rewrite Nat2Z.id. by apply list_lookup_middle. Qed.

Lemma store_mid {A} (l1 l2 : list A) x y i :
  i = zlen l1 → store (l1 ++ x :: l2) i y = Ret (l1 ++ y :: l2).
Proof.
  intros ->. rewrite store_ret by zlia. f_equal. unfold zlen. rewrite Nat2Z.id.
  by rewrite insert_app_r_alt, Nat.sub_diag by lia.
Qed.

Lemma zlen_nil_inv {A} (l : list A) : zlen l = 0 → l = [].
Proof. destruct l; [done|zlia]. Qed.

(** A list of at least [i + 1] elements, opened at [i]. *)
Lemma list_open {A} (l : list A) i :
  0 ≤ i < zlen l → ∃ l1 x l2, l = l1 ++ x :: l2 ∧ zlen l1 = i.
Proof.
  intros Hi. destruct (lookup_lt_is_Some_2 l (Z.to_nat i)) as [x Hx]; [zlia|].
  exists (take (Z.to_nat i) l), x, (drop (S (Z.to_nat i)) l). split; [by rewrite take_drop_middle|zlia].
Qed.

Lemma filter_ext_in {A} (P Q : A → Prop) `{!∀ x, Decision (P x), !∀ x, Decision (Q x)} (l : list A) :
  (∀ x, x ∈ l → P x ↔ Q x) → filter P l = filter Q l.
Proof.
  induction l as [|x l IH]; intros HPQ; [done|]. rewrite !filter_cons, IH by (intros; apply HPQ; set_solver).
  pose proof (HPQ x ltac:(set_solver)). repeat case_decide; naive_solver.
Qed.

Lemma filter_all {A} (P : A → Prop) `{!∀ x, Decision (P x)} (l : list A) :
  (∀ x, x ∈ l → P x) → filter P l = l.
Proof.
  induction l as [|x l IH]; intros HP; [done|]. rewrite filter_cons_True, IH by set_solver. done.
Qed.

Lemma filter_none {A} (P : A → Prop) `{!∀ x, Decision (P x)} (l : list A) :
  (∀ x, x ∈ l → ¬ P x) → filter P l = [].
Proof.
  induction l as [|x l IH]; intros HP; [done|]. rewrite filter_cons_False, IH by set_solver. done.
Qed.

(** One step of symbolic execution; side conditions that are not closed by
    [lia] are left to the caller. *)
Ltac wp_step :=
  lazymatch goal with
  | |- wp (bind _ _) _ _ => apply wp_bind
  | |- wp (ret _) _ _ => apply wp_ret
  | |- wp (lift _) _ _ => apply wp_lift
  | |- wp get _ _ => apply wp_get
  | |- wp (gets _) _ _ => apply wp_gets
  | |- wp (put _) _ _ => apply wp_put
  | |- wp (modify _) _ _ => apply wp_modify
  | |- wp (assert _ _) _ _ => apply wp_assert
  | |- owp (Ret _) _ => apply owp_ret
  | |- owp (obind _ _) _ => apply owp_bind
  | |- owp (addc _ _ _) _ => apply owp_addc
  | |- owp (subc _ _ _) _ => apply owp_subc
  | |- owp (mulc _ _ _) _ => apply owp_mulc
  | |- owp (remc _ _) _ => apply owp_remc
  | |- owp (oassert _ _) _ => apply owp_oassert
  end.

(** ** Powers of two and bit masks *)

(** [lia] with [/] and [mod] by constants. *)
Ltac dlia := Z.to_euclidean_division_equations; lia.

Lemma pow2_pos n : 0 ≤ n → 0 < 2 ^ n.
Proof. intros. by apply Z.pow_pos_nonneg. Qed.

Lemma pow2_le m n : 0 ≤ m ≤ n → 2 ^ m ≤ 2 ^ n.
Proof. intros. apply Z.pow_le_mono_r; lia. Qed.

Lemma pow2_lt m n : 0 ≤ m < n → 2 ^ m < 2 ^ n.
Proof. intros. apply Z.pow_lt_mono_r; lia. Qed.

Lemma pow2_S n : 0 ≤ n → 2 ^ (n + 1) = 2 * 2 ^ n.
Proof. intros. rewrite Z.pow_add_r by lia. lia. Qed.

Lemma pow2_divide m n : 0 ≤ m ≤ n → (2 ^ m | 2 ^ n).
Proof.
  intros. exists (2 ^ (n - m)). rewrite <-Z.pow_add_r by lia. f_equal; lia.
Qed.

Lemma mod_pow2_weaken x m n : 0 ≤ m ≤ n → x mod 2 ^ n = 0 → x mod 2 ^ m = 0.
Proof.
  intros Hmn Hx. pose proof (pow2_pos m). pose proof (pow2_pos n).
  apply Z.mod_divide; [lia|]. etrans; [by apply pow2_divide|].
  apply Z.mod_divide; lia.
Qed.

(** Two multiples of [d] differ by at least [d]. *)
Lemma multiples_apart d x y : 0 < d → x mod d = 0 → y mod d = 0 → x < y → x + d ≤ y.
Proof.
  intros Hd [q ->]%Z.mod_divide [q' ->]%Z.mod_divide Hlt; [|lia..].
  assert (q < q') by nia. nia.
Qed.

Lemma land_mask x n : 0 ≤ n → Z.land x (2 ^ n - 1) = x mod 2 ^ n.
Proof. intros. rewrite <-Z.land_ones, Z.ones_equiv by lia. f_equal. Qed.

Lemma ldiff_ones x n : 0 ≤ n → Z.ldiff x (Z.ones n) = x - x mod 2 ^ n.
Proof.
  intros. rewrite Z.ldiff_ones_r, Z.shiftl_mul_pow2, Z.shiftr_div_pow2 by lia.
  pose proof (Z.div_mod x (2 ^ n)). pose proof (pow2_pos n). lia.
Qed.

Lemma land_notw w x n :
  in_width w x → 0 ≤ n ≤ w → Z.land x (notw w (2 ^ n - 1)) = x - x mod 2 ^ n.
Proof.
  intros Hx Hn. unfold notw, in_width in *.
  pose proof (pow2_pos n). pose proof (pow2_le n w).
  replace (2 ^ w - 1 - (2 ^ n - 1)) with (Z.ones w - Z.ones n)
    by (rewrite !Z.ones_equiv; lia).
  rewrite Z.sub_nocarry_ldiff.
  - rewrite Z.ldiff_land, Z.land_assoc, Z.land_ones, Z.mod_small by lia.
    by rewrite <-Z.ldiff_land, ldiff_ones by lia.
  - rewrite ldiff_ones, Z.mod_small; rewrite ?Z.ones_equiv; lia.
Qed.

Lemma land_disjoint a b n :
  0 ≤ n → a mod 2 ^ n = 0 → 0 ≤ b < 2 ^ n → Z.land a b = 0.
Proof.
  intros Hn Ha Hb. rewrite <-(Z.mod_small b (2 ^ n)) by lia.
  rewrite <-Z.land_ones by lia.
  rewrite (Z.land_comm b), Z.land_assoc, Z.land_ones, Ha by lia. apply Z.land_0_l.
Qed.

Lemma lor_disjoint a b n :
  0 ≤ n → a mod 2 ^ n = 0 → 0 ≤ b < 2 ^ n → Z.lor a b = a + b.
Proof.
  intros. pose proof (Z.add_lor_land a b). rewrite (land_disjoint a b n) in * by done. lia.
Qed.

Lemma lxor_pow2 x n :
  0 ≤ n → Z.lxor x (2 ^ n) = if (x / 2 ^ n) mod 2 =? 0 then x + 2 ^ n else x - 2 ^ n.
Proof.
  intros Hn. rewrite <-(Z.testbit_spec' x n) by lia.
  assert (Hl : Z.land x (2 ^ n) = if Z.testbit x n then 2 ^ n else 0).
  { apply Z.bits_inj'. intros i Hi. rewrite Z.land_spec, Z.pow2_bits_eqb by lia.
    destruct (Z.eqb_spec n i) as [->|Hne].
    - rewrite andb_true_r. destruct (Z.testbit x i) eqn:E; [|by rewrite Z.bits_0].
      by rewrite Z.pow2_bits_true.
    - rewrite andb_false_r. destruct (Z.testbit x n); [|by rewrite Z.bits_0].
      by rewrite Z.pow2_bits_false. }
  pose proof (Z.add_lor_land x (2 ^ n)). pose proof (Z.add_lxor_2land x (2 ^ n)).
  destruct (Z.testbit x n); simpl; lia.
Qed.

(** Lowest set bit. *)
Lemma odd_part x : 0 < x → ∃ t m, 0 ≤ t ∧ 0 ≤ m ∧ x = (2 * m + 1) * 2 ^ t.
Proof.
  induction (Z.lt_wf 0 x) as [x _ IH]. intros Hx.
  destruct (Z.eq_dec (x mod 2) 0) as [Hev|Hodd].
  - destruct (IH (x / 2)) as (t & m & Ht & Hm & Heq); [dlia..|].
    + exists (t + 1), m. rewrite pow2_S by lia. dlia.
  - exists 0, (x / 2). rewrite Z.pow_0_r. dlia.
Qed.

Lemma land_opp_odd m t :
  0 ≤ t → Z.land ((2 * m + 1) * 2 ^ t) (- ((2 * m + 1) * 2 ^ t)) = 2 ^ t.
Proof.
  intros Ht. rewrite <-Z.mul_opp_l, <-!Z.shiftl_mul_pow2, <-Z.shiftl_land by lia.
  replace (Z.land (2 * m + 1) (- (2 * m + 1))) with 1; [by rewrite Z.shiftl_mul_pow2, Z.mul_1_l|].
  apply Z.bits_inj'. intros i Hi. rewrite Z.land_spec.
  replace (- (2 * m + 1)) with (2 * Z.lnot m + 1) by (unfold Z.lnot; lia).
  destruct (Z.eq_dec i 0) as [->|].
  - by rewrite !Z.testbit_odd_0.
  - replace i with (Z.succ (Z.pred i)) by lia.
    rewrite !Z.testbit_odd_succ, Z.lnot_spec by lia.
    rewrite andb_negb_r. change 1 with (2 * 0 + 1).
    by rewrite Z.testbit_odd_succ, Z.bits_0 by lia.
Qed.

Lemma trailing_zeros_spec w x :
  0 < x < 2 ^ w →
  ∃ m, 0 ≤ trailing_zeros w x < w ∧ x = (2 * m + 1) * 2 ^ trailing_zeros w x.
Proof.
  intros [Hpos Hw]. destruct (odd_part x Hpos) as (t & m & Ht & Hm & Heq).
  assert (trailing_zeros w x = t) as ->.
  { unfold trailing_zeros. rewrite (proj2 (Z.eqb_neq x 0)) by lia.
    by rewrite Heq, land_opp_odd, Z.log2_pow2 by lia. }
  exists m. split; [split; [done|]|done].
  apply (Z.pow_lt_mono_r_iff 2); [lia| |].
  - destruct (Z.le_gt_cases 0 w); [done|]. rewrite (Z.pow_neg_r 2 w) in Hw; lia.
  - pose proof (pow2_pos t). nia.
Qed.

(** A power of two divides [x] exactly when it is at most the lowest set bit. *)
Lemma trailing_zeros_divide w x k :
  0 < x < 2 ^ w → 0 ≤ k → x mod 2 ^ k = 0 ↔ k ≤ trailing_zeros w x.
Proof.
  intros Hx Hk. destruct (trailing_zeros_spec w x Hx) as (m & Ht & Heq).
  set (t := trailing_zeros w x) in *. split.
  - intros Hmod. destruct (Z.le_gt_cases k t) as [|Hgt]; [done|exfalso].
    apply (mod_pow2_weaken _ (t + 1)) in Hmod; [|lia].
    pose proof (pow2_pos t). rewrite pow2_S in Hmod by lia.
    apply Z.mod_divide in Hmod as [q Hq]; [|lia].
    assert (2 * m + 1 = 2 * q); [|lia]. apply (Z.mul_reg_r _ _ (2 ^ t)); lia.
  - intros Hle. rewrite Heq. apply (mod_pow2_weaken _ k t); [lia|].
    apply Z.mod_mul. pose proof (pow2_pos t). lia.
Qed.
