(* ===== verification/Trace.v ===== *)
(** * Sequences of operations and refinement

    A component's operations as one step function, the outputs of a sequence of
    them, and the two ways the development compares an implementation with what
    it promises: the same outputs as an abstract step function, or outputs an
    abstract step relation allows. *)

From stdpp Require Import base list.
From S2P Require Import Prelude.

Section outputs.
Context {Op Out S : Type} (step : Op → S → outcome (Out * S)).

(** The outputs of a sequence of operations, up to the panic that ends it. *)
Fixpoint outputs (os : list Op) (s : S) : list (outcome Out) :=
  match os with
  | [] => []
  | o :: os =>
      match step o s with
      | Ret (out, s) => Ret out :: outputs os s
      | Panic p => [Panic p]
      | Ub => [Ub]
      | NoFuel => [NoFuel]
      end
  end.
End outputs.

Section refinement.
Context {Op Out C A : Type} (cstep : Op → C → outcome (Out * C)) (R : C → A → Prop).

(** Lockstep with an abstract step function. *)
Definition lockstep (astep : Op → A → outcome (Out * A)) : Prop :=
  ∀ o c a, R c a →
    match astep o a with
    | Ret (out, a') => ∃ c', cstep o c = Ret (out, c') ∧ R c' a'
    | Panic p => cstep o c = Panic p
    | _ => False
    end.

Lemma lockstep_outputs astep os c a :
  lockstep astep → R c a → outputs cstep os c = outputs astep os a.
Proof.
  intros Hstep. revert c a. induction os as [|o os IH]; intros c a HR; [done|]. cbn [outputs].
  pose proof (Hstep o c a HR) as Hs. destruct (astep o a) as [[out a']|p| |]; [|by rewrite Hs|done|done].
  destruct Hs as (c' & -> & HR'). f_equal. by apply IH.
Qed.

(** Simulation by an abstract step relation. *)
Inductive traces (spec : A → Op → outcome Out → A → Prop) : A → list Op → list (outcome Out) → Prop :=
  | traces_nil a : traces spec a [] []
  | traces_ret a o out a' os outs :
      spec a o (Ret out) a' → traces spec a' os outs → traces spec a (o :: os) (Ret out :: outs)
  | traces_panic a o p a' os : spec a o (Panic p) a' → traces spec a (o :: os) [Panic p].

Definition simulates (spec : A → Op → outcome Out → A → Prop) : Prop :=
  ∀ o c a, R c a →
    match cstep o c with
    | Ret (out, c') => ∃ a', spec a o (Ret out) a' ∧ R c' a'
    | Panic p => spec a o (Panic p) a
    | _ => False
    end.

Lemma simulates_traces spec os c a : simulates spec → R c a → traces spec a os (outputs cstep os c).
Proof.
  intros Hsim. revert c a. induction os as [|o os IH]; intros c a HR; [constructor|]. cbn [outputs].
  pose proof (Hsim o c a HR) as Hs. destruct (cstep o c) as [[out c']|p| |]; [|by econstructor|done|done].
  destruct Hs as (a' & Hsp & HR'). econstructor; eauto.
Qed.
End refinement.
