(* ===== verification/Pmm.v ===== *)
(** * Physical memory manager: the buddy allocator (src/crates/core/src/mm/pmm.rs)

    The definitions of this file are the code of [pmm.rs], one per function: the
    [Frames] token, the [Buddy] record with its intrusive doubly linked free
    lists and its runs of top-order blocks, and the two range helpers the boot
    code uses.  Physical memory is the map [mem] from the (virtual) address of
    a free-list node to the node's two words; a read of a cell it does not
    hold is undefined behaviour. *)

From stdpp Require Import base gmap list numbers strings.
From S2P Require Import Prelude.

Local Open Scope string_scope.
Local Open Scope Z_scope.

Module Pmm.

Definition PAGE_BITS : Z := 12.
Definition PAGE_SIZE : Z := Z.shiftl 1 PAGE_BITS.
Definition MAX_ORDER : Z := 10.
Definition NULL : Z := 0.
Definition TOP_RUNS : Z := 16.
Definition TRAMPOLINE_LIMIT : Z := 1048576.

(** ** The ownership token *)
Record Frames := mkFrames { raw : Z }.

Definition ORDER_MASK : Z := PAGE_SIZE - 1.
Definition Frames_new (base order : Z) : Frames := mkFrames (Z.lor base order).
Definition base (f : Frames) : Z := Z.land (raw f) (notw 64 ORDER_MASK).
Definition order (f : Frames) : Z := wrap 8 (Z.land (raw f) ORDER_MASK).
Definition count (f : Frames) : outcome Z := shlc 64 1 (order f).
Definition into_entry (f : Frames) : Z := base f.
Definition from_entry (pa order : Z) : Frames := Frames_new pa order.

(** ** The allocator state *)
Record PmmStats := mkPmmStats {
  st_total_frames : Z;
  st_free_frames : Z;
  st_largest_free_order : option Z
}.

Record FreeNode := mkFreeNode { next : Z; prev : Z }.

Record Buddy := mkBuddy {
  heads : list Z;
  counts : list Z;
  total_frames : Z;
  free_frames : Z;
  hhdm_offset : Z;
  span_lo : Z;
  span_hi : Z;
  runs : list (Z * Z);
  nruns : Z
}.

(** The allocator together with the memory its free-list nodes live in. *)
Record pmm := mkPmm { bd : Buddy; mem : gmap Z FreeNode }.

Definition new (hhdm : Z) : Buddy :=
  {| heads := replicate 11 NULL; counts := replicate 11 0;
     total_frames := 0; free_frames := 0; hhdm_offset := hhdm;
     span_lo := 2 ^ 64 - 1; span_hi := 0;
     runs := replicate 16 (0, 0); nruns := 0 |}.

Definition set_heads (h : list Z) (s : pmm) : pmm :=
  let b := bd s in
  mkPmm (mkBuddy h (counts b) (total_frames b) (free_frames b) (hhdm_offset b)
           (span_lo b) (span_hi b) (runs b) (nruns b)) (mem s).
Definition set_counts (c : list Z) (s : pmm) : pmm :=
  let b := bd s in
  mkPmm (mkBuddy (heads b) c (total_frames b) (free_frames b) (hhdm_offset b)
           (span_lo b) (span_hi b) (runs b) (nruns b)) (mem s).
Definition set_total_frames (n : Z) (s : pmm) : pmm :=
  let b := bd s in
  mkPmm (mkBuddy (heads b) (counts b) n (free_frames b) (hhdm_offset b)
           (span_lo b) (span_hi b) (runs b) (nruns b)) (mem s).
Definition set_free_frames (n : Z) (s : pmm) : pmm :=
  let b := bd s in
  mkPmm (mkBuddy (heads b) (counts b) (total_frames b) n (hhdm_offset b)
           (span_lo b) (span_hi b) (runs b) (nruns b)) (mem s).
Definition set_span (lo hi : Z) (s : pmm) : pmm :=
  let b := bd s in
  mkPmm (mkBuddy (heads b) (counts b) (total_frames b) (free_frames b) (hhdm_offset b)
           lo hi (runs b) (nruns b)) (mem s).
Definition set_runs (r : list (Z * Z)) (n : Z) (s : pmm) : pmm :=
  let b := bd s in
  mkPmm (mkBuddy (heads b) (counts b) (total_frames b) (free_frames b) (hhdm_offset b)
           (span_lo b) (span_hi b) r n) (mem s).
Definition set_mem (m : gmap Z FreeNode) (s : pmm) : pmm := mkPmm (bd s) m.

(** [stats]: the largest order with a free block, scanning down. *)
Fixpoint largest_order (c : list Z) (k : nat) : outcome (option Z) :=
  n <~ index c (Z.of_nat k);;
  if 0 <? n then Ret (Some (wrap 8 (Z.of_nat k)))
  else match k with O => Ret None | S k' => largest_order c k' end.

Definition stats (b : Buddy) : outcome PmmStats :=
  largest <~ largest_order (counts b) (Z.to_nat MAX_ORDER);;
  Ret (mkPmmStats (total_frames b) (free_frames b) largest).

Definition free_blocks (b : Buddy) : Z :=
  fold_left (λ n c, saturating_add 64 n c) (counts b) 0.

(** ** Private helpers *)
Definition align_up (x align : Z) : outcome Z :=
  y <~ addc 64 x align;;
  z <~ subc 64 y 1;;
  Ret (Z.land z (notw 64 (align - 1))).
Definition align_down (x align : Z) : Z := Z.land x (notw 64 (align - 1)).

Definition node_ptr (b : Buddy) (phys : Z) : Z := wrapping_add 64 phys (hhdm_offset b).

Definition read_node (phys : Z) : M pmm FreeNode :=
  s <- get;;
  lift match mem s !! node_ptr (bd s) phys with Some n => Ret n | None => Ub end.
Definition write_node (phys : Z) (n : FreeNode) : M pmm unit :=
  modify (λ s, set_mem (<[node_ptr (bd s) phys := n]> (mem s)) s).
Definition write_next (phys nx : Z) : M pmm unit :=
  n <- read_node phys;; write_node phys (mkFreeNode nx (prev n)).
Definition write_prev (phys pv : Z) : M pmm unit :=
  n <- read_node phys;; write_node phys (mkFreeNode (next n) pv).

Definition head_of (k : Z) : M pmm Z := s <- get;; lift (index (heads (bd s)) k).
Definition put_head (k h : Z) : M pmm unit :=
  s <- get;; hs <- lift (store (heads (bd s)) k h);; put (set_heads hs s).
(** [self.counts[k] += n], [self.counts[k] -= n]. *)
Definition counts_add (k n : Z) : M pmm unit :=
  s <- get;; c <- lift (index (counts (bd s)) k);; c' <- lift (addc 64 c n);;
  cs <- lift (store (counts (bd s)) k c');; put (set_counts cs s).
Definition counts_sub (k n : Z) : M pmm unit :=
  s <- get;; c <- lift (index (counts (bd s)) k);; c' <- lift (subc 64 c n);;
  cs <- lift (store (counts (bd s)) k c');; put (set_counts cs s).
Definition free_frames_add (n : Z) : M pmm unit :=
  s <- get;; n' <- lift (addc 64 (free_frames (bd s)) n);; put (set_free_frames n' s).
Definition free_frames_sub (n : Z) : M pmm unit :=
  s <- get;; n' <- lift (subc 64 (free_frames (bd s)) n);; put (set_free_frames n' s).
Definition total_frames_add (n : Z) : M pmm unit :=
  s <- get;; n' <- lift (addc 64 (total_frames (bd s)) n);; put (set_total_frames n' s).

Definition push_free (phys order : Z) : M pmm unit :=
  let k := order in
  head <- head_of k;;
  write_node phys (mkFreeNode head NULL);;
  (if head =? NULL then ret tt else write_prev head phys);;
  put_head k phys;;
  counts_add k 1;;
  sz <- lift (shlc 64 1 k);;
  free_frames_add sz.

Definition pop_head (order : Z) : M pmm Z :=
  let k := order in
  head <- head_of k;;
  assert (negb (head =? NULL)) "pmm: pop_head on empty order";;
  n <- read_node head;;
  let nx := next n in
  put_head k nx;;
  (if nx =? NULL then ret tt else write_prev nx NULL);;
  counts_sub k 1;;
  sz <- lift (shlc 64 1 k);;
  free_frames_sub sz;;
  ret head.

Definition unlink (phys order : Z) : M pmm unit :=
  let k := order in
  n <- read_node phys;;
  (if prev n =? NULL then put_head k (next n) else write_next (prev n) (next n));;
  (if next n =? NULL then ret tt else write_prev (next n) (prev n));;
  counts_sub k 1;;
  sz <- lift (shlc 64 1 k);;
  free_frames_sub sz.

(** The walk of [in_free_list]. *)
Fixpoint in_free_list_from (fuel : nat) (cur phys : Z) : M pmm bool :=
  match fuel with
  | O => no_fuel
  | S fuel =>
      if cur =? NULL then ret false
      else if cur =? phys then ret true
      else n <- read_node cur;; in_free_list_from fuel (next n) phys
  end.

(** A list's nodes are distinct cells of [mem], so its length bounds the walk. *)
Definition list_fuel (s : pmm) : nat := S (size (mem s)).

Definition in_free_list (phys order : Z) : M pmm bool :=
  s <- get;;
  cur <- head_of order;;
  in_free_list_from (list_fuel s) cur phys.

(** ** Runs of whole top-order blocks *)
Definition add_run (start end_ : Z) : M pmm bool :=
  if end_ <=? start then ret true
  else
    s <- get;;
    let rs := runs (bd s) in
    let n := nruns (bd s) in
    let extends := match get_at rs (n - 1) with
                   | Some last => snd last =? start
                   | None => false
                   end in
    if extends then
      let first := match get_at rs (n - 1) with Some last => fst last | None => 0 end in
      put (set_runs (<[Z.to_nat (n - 1) := (first, end_)]> rs) n s);; ret true
    else
      match get_at rs n with
      | Some _ =>
          n' <- lift (addc 64 n 1);;
          put (set_runs (<[Z.to_nat n := (start, end_)]> rs) n' s);; ret true
      | None => ret false
      end.

(** [runs.copy_within(i + 1..n, i)]. *)
Definition copy_down {A} (l : list A) (i n : nat) : list A :=
  take i l ++ drop (S i) (take n l) ++ drop (n - 1) l.

Definition top : outcome Z := shlc 64 PAGE_SIZE MAX_ORDER.

(** The loop of [take_run_block]: [i] runs are left to look at. *)
Fixpoint take_run_from (i : nat) (pick : Z → Z → outcome (option Z)) : M pmm (option Z) :=
  match i with
  | O => ret None
  | S i =>
      s <- get;;
      top <- lift top;;
      match runs (bd s) !! i with
      | None => take_run_from i pick
      | Some (start, end_) =>
          blk <- lift (pick start end_);;
          match blk with
          | None => take_run_from i pick
          | Some blk =>
              ok <- (if blk =? start then ret true
                     else e <- lift (subc 64 end_ top);; ret (blk =? e));;
              assert ok "pmm: run block not at an end of its run";;
              rest <- (if blk =? start
                       then x <- lift (addc 64 start top);; ret (x, end_)
                       else x <- lift (subc 64 end_ top);; ret (start, x));;
              (if fst rest <? snd rest
               then rs <- lift (store (runs (bd s)) (Z.of_nat i) rest);;
                    put (set_runs rs (nruns (bd s)) s)
               else if nruns (bd s) <=? Z.of_nat (length (runs (bd s)))
               then n' <- lift (subc 64 (nruns (bd s)) 1);;
                    put (set_runs (copy_down (runs (bd s)) i (Z.to_nat (nruns (bd s)))) n' s)
               else lift (Panic PIndex));;
              counts_sub MAX_ORDER 1;;
              sz <- lift (shlc 64 1 MAX_ORDER);;
              free_frames_sub sz;;
              ret (Some blk)
          end
      end
  end.

Definition take_run_block (pick : Z → Z → outcome (option Z)) : M pmm (option Z) :=
  n <- gets (λ s, nruns (bd s));;
  take_run_from (Z.to_nat n) pick.

Definition in_run (b : Buddy) (phys : Z) : bool :=
  existsb (λ '(start, end_), (start <=? phys) && (phys <? end_))
    (take (Z.to_nat (nruns b)) (runs b)).

(** The loop of [covered_by_free_block], over the orders [ks]. *)
Fixpoint covered_at (ks : list Z) (phys : Z) : M pmm bool :=
  match ks with
  | [] => ret false
  | k :: ks =>
      sz <- lift (shlc 64 PAGE_SIZE k);;
      m <- lift (subc 64 sz 1);;
      r <- in_free_list (Z.land phys (notw 64 m)) k;;
      if r : bool then ret true else covered_at ks phys
  end.

Definition covered_by_free_block (phys at_least_order : Z) : M pmm bool :=
  s <- get;;
  if in_run (bd s) phys then ret true
  else covered_at (seqZ at_least_order (MAX_ORDER + 1 - at_least_order)) phys.

(** ** Inserting a region *)

(** Link one block of order [k] and go on past it. *)
Definition link_block (a k : Z) : M pmm Z :=
  n <- lift (shlc 64 1 k);;
  total_frames_add n;;
  push_free a k;;
  sz <- lift (shlc 64 PAGE_SIZE k);;
  lift (addc 64 a sz).

Definition order_at (a b : Z) : outcome Z :=
  d <~ subc 64 b a;;
  let remaining_pages := d / PAGE_SIZE in
  max_by_align <~ subc 32 (trailing_zeros 64 a) PAGE_BITS;;
  max_by_len <~ ilog2 remaining_pages;;
  Ret (Z.min (Z.min max_by_align max_by_len) MAX_ORDER).

Fixpoint insert_loop (fuel : nat) (a b : Z) : M pmm unit :=
  match fuel with
  | O => no_fuel
  | S fuel =>
      if a <? b then
        k <- lift (order_at a b);;
        if k =? MAX_ORDER then
          top <- lift top;;
          d <- lift (subc 64 b a);;
          let n := d / top in
          len <- lift (mulc 64 n top);;
          run_end <- lift (addc 64 a len);;
          ok <- add_run a run_end;;
          if ok : bool then
            frames <- lift (shlc 64 n MAX_ORDER);;
            total_frames_add frames;;
            counts_add MAX_ORDER n;;
            free_frames_add frames;;
            insert_loop fuel run_end b
          else
            a' <- link_block a k;; insert_loop fuel a' b
        else
          a' <- link_block a k;; insert_loop fuel a' b
      else ret tt
  end.

Definition insert_region (start end_ : Z) : M pmm unit :=
  let start := Z.max start PAGE_SIZE in
  a <- lift (align_up start PAGE_SIZE);;
  let b := align_down end_ PAGE_SIZE in
  (if a <? b
   then modify (λ s, set_span (Z.min (span_lo (bd s)) a) (Z.max (span_hi (bd s)) b) s)
   else ret tt);;
  insert_loop (S (Z.to_nat ((b - a) / PAGE_SIZE))) a b.

(** ** Allocation *)

(** Keep the low piece of the block at [addr], pushing the high half at each
    order from [k - 1] down to [target]. *)
Fixpoint split_down (n : nat) (addr k : Z) : M pmm unit :=
  match n with
  | O => ret tt
  | S n =>
      k <- lift (subc 64 k 1);;
      sz <- lift (shlc 64 PAGE_SIZE k);;
      buddy <- lift (addc 64 addr sz);;
      push_free buddy k;;
      split_down n addr k
  end.

(** [while k < MAX_ORDER && self.heads[k] == NULL { k += 1 }]. *)
Fixpoint first_order (n : nat) (k : Z) : M pmm Z :=
  match n with
  | O => ret k
  | S n =>
      if k <? MAX_ORDER then
        h <- head_of k;;
        if h =? NULL then k' <- lift (addc 64 k 1);; first_order n k' else ret k
      else ret k
  end.

Definition take_block (order : Z) : M pmm (option Z) :=
  let target := order in
  if MAX_ORDER <? target then ret None
  else
    k <- first_order (Z.to_nat MAX_ORDER) target;;
    h <- head_of k;;
    addr <- (if negb (h =? NULL) then a <- pop_head k;; ret (Some a)
             else take_run_block (λ _ end_, t <~ top;; x <~ subc 64 end_ t;; Ret (Some x)));;
    match addr with
    | None => ret None
    | Some addr =>
        split_down (Z.to_nat (k - target)) addr k;;
        ret (Some addr)
    end.

Definition alloc (order : Z) : M pmm (option Frames) :=
  base <- take_block order;;
  match base with
  | None => ret None
  | Some base => ret (Some (Frames_new base order))
  end.

Definition fits (size max_phys base : Z) : bool :=
  match checked_add 64 base size with
  | Some e => e <=? max_phys
  | None => false
  end.

(** The inner walk of [alloc_constrained] over one free list. *)
Fixpoint find_fit (fuel : nat) (cur size max_phys : Z) : M pmm Z :=
  match fuel with
  | O => no_fuel
  | S fuel =>
      if cur =? NULL then ret NULL
      else if fits size max_phys cur then ret cur
      else n <- read_node cur;; find_fit fuel (next n) size max_phys
  end.

(** The outer loop: the first order from [k] up with a block that fits. *)
Fixpoint find_fit_order (n : nat) (k size max_phys : Z) : M pmm (Z * Z) :=
  match n with
  | O => ret (k, NULL)
  | S n =>
      if k <=? MAX_ORDER then
        s <- get;;
        cur <- head_of k;;
        found <- find_fit (list_fuel s) cur size max_phys;;
        if found =? NULL then k' <- lift (addc 64 k 1);; find_fit_order n k' size max_phys
        else ret (k, found)
      else ret (k, NULL)
  end.

Definition alloc_constrained (order max_phys : Z) : M pmm (option Frames) :=
  let target := order in
  if MAX_ORDER <? target then ret None
  else
    size <- lift (shlc 64 PAGE_SIZE order);;
    kf <- find_fit_order 11 target size max_phys;;
    let found := snd kf in
    blk <- (if negb (found =? NULL)
            then unlink found (fst kf);; ret (Some (fst kf, found))
            else r <- take_run_block (λ start _, Ret (if fits size max_phys start
                                                      then Some start else None));;
                 ret (match r with Some b => Some (MAX_ORDER, b) | None => None end));;
    match blk with
    | None => ret None
    | Some (k, found) =>
        split_down (Z.to_nat (k - target)) found k;;
        ret (Some (Frames_new found order))
    end.

(** ** Free *)

(** The merge loop of [deallocate]. *)
Fixpoint merge_up (n : nat) (phys order : Z) : M pmm (Z * Z) :=
  match n with
  | O => ret (phys, order)
  | S n =>
      if order <? MAX_ORDER then
        sz <- lift (shlc 64 PAGE_SIZE order);;
        let buddy := Z.lxor phys sz in
        r <- in_free_list buddy order;;
        if r : bool then
          unlink buddy order;;
          order' <- lift (addc 8 order 1);;
          merge_up n (Z.min phys buddy) order'
        else ret (phys, order)
      else ret (phys, order)
  end.

Definition deallocate (phys order : Z) : M pmm unit :=
  assert (order <=? MAX_ORDER) "pmm: order > MAX_ORDER";;
  block_size <- lift (shlc 64 PAGE_SIZE order);;
  mask <- lift (subc 64 block_size 1);;
  assert (Z.land phys mask =? 0) "pmm: dealloc phys not aligned to order";;
  c <- covered_by_free_block phys order;;
  assert (negb c) "pmm: double free";;
  po <- merge_up (Z.to_nat MAX_ORDER) phys order;;
  push_free (fst po) (snd po).

Definition free (f : Frames) : M pmm unit :=
  let base := base f in
  let order := order f in
  size <- lift (shlc 64 PAGE_SIZE order);;
  s <- get;;
  let in_span := (span_lo (bd s) <=? base) &&
                 match checked_add 64 base size with
                 | Some e => e <=? span_hi (bd s)
                 | None => false
                 end in
  assert in_span "pmm: free outside the buddy's span";;
  deallocate base order.

(** ** Sizes and ranges *)
Definition order_for (bytes align : Z) : outcome (option Z) :=
  t <~ top;;
  if (bytes =? 0) || (t <? bytes) then Ret None
  else
    let align := if align =? 0 then PAGE_SIZE else align in
    if negb (is_power_of_two align) then Ret None
    else
      need_size <~ next_power_of_two 64 (Z.max bytes PAGE_SIZE);;
      let need_align := Z.max align PAGE_SIZE in
      let need := Z.max need_size need_align in
      let pages := need / PAGE_SIZE in
      if pages =? 0 then Ret None
      else
        p1 <~ subc 64 pages 1;;
        if negb (Z.land pages p1 =? 0) then Ret None
        else
          let order := wrap 8 (trailing_zeros 64 pages) in
          if MAX_ORDER <? order then Ret None else Ret (Some order).

Definition crosses_boundary (phys size boundary : Z) : outcome bool :=
  if (boundary =? 0) || (size =? 0) then Ret false
  else
    mask <~ subc 64 boundary 1;;
    e <~ addc 64 (Z.land phys mask) size;;
    Ret (boundary <? e).

(** One range of [choose_trampoline_page]'s loop. *)
Definition trampoline_step (best : option Z) (r : Z * Z) : option Z :=
  match checked_add 64 (fst r) (PAGE_SIZE - 1) with
  | None => best
  | Some lo =>
      let lo := Z.max (align_down lo PAGE_SIZE) PAGE_SIZE in
      let hi := Z.min (align_down (snd r) PAGE_SIZE) TRAMPOLINE_LIMIT in
      match checked_add 64 lo PAGE_SIZE with
      | None => best
      | Some page_end =>
          if (page_end <=? hi) && match best with None => true | Some b => lo <? b end
          then Some lo else best
      end
  end.
Definition choose_trampoline_page (usable : list (Z * Z)) : option Z :=
  fold_left trampoline_step usable None.

(** The scan of the exclusions from [cur]: the end of the furthest one
    covering [cur], and the start of the nearest one ahead. *)
Definition clip_scan (cur : Z) (acc : option Z * Z) (e : Z * Z) : option Z * Z :=
  let '(skip_to, nxt) := acc in
  if snd e <=? fst e then acc
  else
    let lo := align_down (fst e) PAGE_SIZE in
    let hi := match checked_add 64 (snd e) (PAGE_SIZE - 1) with
              | Some x => align_down x PAGE_SIZE
              | None => 2 ^ 64 - 1
              end in
    if (lo <=? cur) && (cur <? hi) then
      (Some (match skip_to with None => hi | Some s => Z.max s hi end), nxt)
    else if (cur <? lo) && (lo <? nxt) then (skip_to, lo)
    else acc.

(** [clip_usable]'s loop; the result is the list of ranges passed to [emit]. *)
Fixpoint clip_loop (fuel : nat) (cur end_ : Z) (excl : list (Z * Z))
    : outcome (list (Z * Z)) :=
  match fuel with
  | O => NoFuel
  | S fuel =>
      if cur <? end_ then
        match fold_left (clip_scan cur) excl (None, end_) with
        | (Some h, _) => clip_loop fuel h end_ excl
        | (None, nxt) =>
            rest <~ clip_loop fuel nxt end_ excl;;
            Ret ((cur, nxt) :: rest)
        end
      else Ret []
  end.

Definition clip_usable (r : Z * Z) (excl : list (Z * Z)) : outcome (list (Z * Z)) :=
  clip_loop (2 * length excl + 2) (fst r) (snd r) excl.

End Pmm.
