(* ===== verification/PmmRep.v ===== *)
(** * Representation of the buddy allocator's state

    The abstract state of the allocator is the contents of its free lists and
    runs.  [Rep s A] says that the concrete state [s] (the [Buddy] record and
    the memory its nodes live in) represents [A] and that [A] is well formed: blocks
    aligned to their order, inside the span, never frame 0, and no frame in two
    free blocks. *)

From stdpp Require Import base gmap list numbers strings.
From S2P Require Import Prelude Pmm.

Local Open Scope Z_scope.

Import Pmm.

(** Bytes in a block of order [k], and the page frames of the block at [x]. *)
Definition bsize (k : Z) : Z := 2 ^ (12 + k).
Definition block_frames (k x : Z) : list Z := seqZ (x / 4096) (2 ^ k).
Definition run_frames (r : Z * Z) : list Z := seqZ (fst r / 4096) ((snd r - fst r) / 4096).

Record abs := mkAbs {
  lists : list (list Z);       (* free list of each order, head first *)
  truns : list (Z * Z);        (* runs of whole top-order blocks *)
  owned : list Z;              (* every frame a region handed over *)
  lo : Z;
  hi : Z;
  hhdm : Z
}.

Definition with_lists (ls : list (list Z)) (A : abs) : abs :=
  mkAbs ls (truns A) (owned A) (lo A) (hi A) (hhdm A).
Definition with_runs (rs : list (Z * Z)) (A : abs) : abs :=
  mkAbs (lists A) rs (owned A) (lo A) (hi A) (hhdm A).
Definition set_list (k : Z) (l : list Z) (A : abs) : abs :=
  with_lists (<[Z.to_nat k := l]> (lists A)) A.

(** All free frames, block by block. *)
Fixpoint lists_frames (k : Z) (ls : list (list Z)) : list Z :=
  match ls with
  | [] => []
  | l :: ls => (l ≫= block_frames k) ++ lists_frames (k + 1) ls
  end.
Definition frames (A : abs) : list Z :=
  lists_frames 0 (lists A) ++ (truns A ≫= run_frames).

Definition block_ok (A : abs) (k x : Z) : Prop :=
  x mod bsize k = 0 ∧ 4096 ≤ x ∧ lo A ≤ x ∧ x + bsize k ≤ hi A.
Definition run_ok (A : abs) (r : Z * Z) : Prop :=
  fst r mod bsize 10 = 0 ∧ snd r mod bsize 10 = 0 ∧
  4096 ≤ fst r ∧ lo A ≤ fst r ∧ fst r < snd r ∧ snd r ≤ hi A.
Definition run_blocks (r : Z * Z) : Z := (snd r - fst r) / bsize 10.
Definition sum_runs (rs : list (Z * Z)) : Z := foldr (λ r n, run_blocks r + n) 0 rs.

Definition ptr (off x : Z) : Z := wrapping_add 64 x off.

(** The chain of nodes from [cur] is [l] and goes on at [nx]; the back link of
    its first node is [pv]. *)
Fixpoint seg (m : gmap Z FreeNode) (off pv cur : Z) (l : list Z) (nx : Z) : Prop :=
  match l with
  | [] => cur = nx
  | x :: l =>
      cur = x ∧ x ≠ NULL ∧
      ∃ n, m !! ptr off x = Some (mkFreeNode n pv) ∧ seg m off x n l nx
  end.
Abbreviation dll m off h l := (seg m off NULL h l NULL).

Record wf (A : abs) : Prop := {
  wf_len : length (lists A) = 11%nat;
  wf_hi : 0 ≤ lo A ∧ hi A < 2 ^ 64;
  wf_block k l x : lists A !! k = Some l → x ∈ l → block_ok A (Z.of_nat k) x;
  wf_run r : r ∈ truns A → run_ok A r;
  wf_nodup : NoDup (frames A);
  wf_owned : NoDup (owned A) ∧ frames A ⊆ owned A ∧
             ∀ f, f ∈ owned A → 1 ≤ f ∧ lo A ≤ 4096 * f ∧ 4096 * (f + 1) ≤ hi A
}.

Definition total_blocks (k : nat) (rs : list (Z * Z)) (l : list Z) : Z :=
  Z.of_nat (length l) + (if decide (k = 10%nat) then sum_runs rs else 0).

Record Rep (s : pmm) (A : abs) : Prop := {
  rep_wf : wf A;
  rep_len : length (heads (bd s)) = 11%nat ∧ length (counts (bd s)) = 11%nat;
  rep_list k l : lists A !! k = Some l →
    ∃ h, heads (bd s) !! k = Some h ∧ dll (mem s) (hhdm A) h l;
  rep_count k l : lists A !! k = Some l →
    counts (bd s) !! k = Some (total_blocks k (truns A) l);
  rep_free : free_frames (bd s) = Z.of_nat (length (frames A));
  rep_total : total_frames (bd s) = Z.of_nat (length (owned A));
  rep_off : hhdm_offset (bd s) = hhdm A;
  rep_span : span_lo (bd s) = lo A ∧ span_hi (bd s) = hi A;
  rep_runs : length (runs (bd s)) = 16%nat ∧ nruns (bd s) = Z.of_nat (length (truns A)) ∧
             take (length (truns A)) (runs (bd s)) = truns A
}.

(** ** Blocks and frames *)
Lemma PAGE_SIZE_eq : PAGE_SIZE = 4096.
Proof. done. Qed.

Lemma bsize_pos k : 0 ≤ k → 0 < bsize k.
Proof. intros. apply pow2_pos. lia. Qed.

Lemma bsize_frames k : 0 ≤ k → bsize k = 4096 * 2 ^ k.
Proof. intros. unfold bsize. rewrite Z.pow_add_r by lia. done. Qed.

Lemma bsize_S k : 0 ≤ k → bsize (k + 1) = 2 * bsize k.
Proof. intros. rewrite !bsize_frames, pow2_S by lia. lia. Qed.

Lemma bsize_le k : 0 ≤ k ≤ 10 → 4096 ≤ bsize k ≤ 4194304.
Proof.
  intros. unfold bsize. change 4096 with (2 ^ 12). change 4194304 with (2 ^ 22).
  split; apply pow2_le; lia.
Qed.

Lemma owp_shl_page k (Q : Z → Prop) :
  0 ≤ k ≤ 10 → Q (bsize k) → owp (shlc 64 PAGE_SIZE k) Q.
Proof.
  intros Hk HQ. pose proof (bsize_le k Hk). rewrite bsize_frames in * by lia.
  rewrite PAGE_SIZE_eq. apply owp_shlc; [lia|lia|done].
Qed.

Lemma owp_shl_one k (Q : Z → Prop) :
  0 ≤ k ≤ 10 → Q (2 ^ k) → owp (shlc 64 1 k) Q.
Proof.
  intros Hk HQ. pose proof (bsize_le k Hk). rewrite bsize_frames in * by lia.
  apply owp_shlc; [lia| |]; rewrite Z.mul_1_l; [lia|done].
Qed.

Lemma aligned_page A k x : 0 ≤ k → block_ok A k x → x = 4096 * (x / 4096).
Proof.
  intros Hk (Hx & _). unfold bsize in Hx.
  apply (mod_pow2_weaken _ 12) in Hx; [|lia]. change (2 ^ 12) with 4096 in Hx. dlia.
Qed.

Lemma elem_of_block_frames k x f :
  0 ≤ k → x mod 4096 = 0 →
  f ∈ block_frames k x ↔ x ≤ 4096 * f ∧ 4096 * (f + 1) ≤ x + bsize k.
Proof.
  intros Hk Hx. unfold block_frames. rewrite elem_of_seqZ, bsize_frames by lia. dlia.
Qed.

Lemma block_frames_head k x : 0 ≤ k → x / 4096 ∈ block_frames k x.
Proof. intros. unfold block_frames. rewrite elem_of_seqZ. pose proof (pow2_pos k). lia. Qed.

Lemma length_block_frames k x : length (block_frames k x) = Z.to_nat (2 ^ k).
Proof. apply length_seqZ. Qed.

(** A block is its low half and its high half. *)
Lemma block_frames_split k x :
  0 ≤ k → x mod 4096 = 0 →
  block_frames (k + 1) x = block_frames k x ++ block_frames k (x + bsize k).
Proof.
  intros Hk Hx. unfold block_frames. rewrite pow2_S by lia. pose proof (pow2_pos k).
  replace (2 * 2 ^ k) with (2 ^ k + 2 ^ k) by lia. rewrite seqZ_app by lia.
  do 2 f_equal. rewrite bsize_frames by lia. dlia.
Qed.

Lemma lists_frames_insert k ls i l l' :
  ls !! i = Some l →
  (l ≫= block_frames (k + Z.of_nat i)) ++ lists_frames k (<[i := l']> ls) ≡ₚ
  (l' ≫= block_frames (k + Z.of_nat i)) ++ lists_frames k ls.
Proof.
  revert k ls. induction i as [|i IH]; intros k [|l0 ls] Hl; simplify_eq/=.
  - rewrite Z.add_0_r. solve_Permutation.
  - specialize (IH (k + 1) ls Hl).
    replace (k + 1 + Z.of_nat i) with (k + Z.of_nat (S i)) in IH by lia.
    rewrite (Permutation_app_swap_app _ (l0 ≫= _)), IH. solve_Permutation.
Qed.

Lemma elem_of_lists_frames k ls f :
  f ∈ lists_frames k ls ↔
  ∃ i l x, ls !! i = Some l ∧ x ∈ l ∧ f ∈ block_frames (k + Z.of_nat i) x.
Proof.
  revert k. induction ls as [|l0 ls IH]; intros k; simpl.
  - rewrite elem_of_nil. naive_solver.
  - rewrite elem_of_app, IH, list_elem_of_bind. split.
    + intros [(x & ? & ?)|(i & l & x & ? & ? & Hf)].
      * exists 0%nat, l0, x. by rewrite Z.add_0_r.
      * exists (S i), l, x. replace (k + Z.of_nat (S i)) with (k + 1 + Z.of_nat i) by lia. done.
    + intros ([|i] & l & x & ? & ? & Hf); simplify_eq/=.
      * left. exists x. by rewrite Z.add_0_r in Hf.
      * right. exists i, l, x. by replace (k + 1 + Z.of_nat i) with (k + Z.of_nat (S i)) by lia.
Qed.

(** ** Chains *)
Definition last_of (pv : Z) (l : list Z) : Z := default pv (last l).

Lemma ptr_inj off x y : u64 x → u64 y → ptr off x = ptr off y → x = y.
Proof.
  unfold ptr, wrapping_add, wrap, in_width. intros Hx Hy Heq.
  assert ((x - y) mod 2 ^ 64 = 0).
  { replace (x - y) with ((x + off) - (y + off)) by lia.
    by rewrite Zminus_mod, Heq, Z.sub_diag. }
  destruct (Z.le_gt_cases y x).
  - rewrite Z.mod_small in H by lia. lia.
  - replace (x - y) with (- (y - x)) in H by lia.
    apply Z.mod_opp_l_z in H; [|lia]. rewrite Z.opp_involutive, Z.mod_small in H by lia. lia.
Qed.

Lemma seg_app m off pv cur l1 l2 nx :
  seg m off pv cur (l1 ++ l2) nx ↔
  ∃ mid, seg m off pv cur l1 mid ∧ seg m off (last_of pv l1) mid l2 nx.
Proof.
  revert pv cur. induction l1 as [|x l1 IH]; intros pv cur; simpl.
  - unfold last_of. simpl. naive_solver.
  - setoid_rewrite IH.
    assert (last_of x l1 = last_of pv (x :: l1)) as Hl.
    { unfold last_of. destruct l1; [done|]. rewrite last_cons_cons. simpl.
      destruct (last (z :: l1)) eqn:E; [done|]. by apply last_None in E. }
    rewrite Hl. naive_solver.
Qed.

Lemma seg_frame m m' off pv cur l nx :
  (∀ x, x ∈ l → m' !! ptr off x = m !! ptr off x) →
  seg m off pv cur l nx → seg m' off pv cur l nx.
Proof.
  revert pv cur. induction l as [|x l IH]; intros pv cur Hm; simpl; [done|].
  intros (-> & Hx & n & Hn & Hl). split_and!; [done|done|].
  exists n. rewrite Hm by set_solver. split; [done|]. apply IH; [set_solver|done].
Qed.

Lemma seg_write m off pv cur l nx y n :
  Forall u64 l → u64 y → y ∉ l →
  seg m off pv cur l nx → seg (<[ptr off y := n]> m) off pv cur l nx.
Proof.
  intros Hl Hy Hnin. apply seg_frame. intros x Hx.
  rewrite lookup_insert_ne; [done|]. intros Heq.
  rewrite Forall_forall in Hl. apply ptr_inj in Heq; [set_solver|done|by apply Hl].
Qed.

Lemma seg_not_null m off pv cur l nx x : seg m off pv cur l nx → x ∈ l → x ≠ NULL.
Proof.
  revert pv cur. induction l as [|y l IH]; intros pv cur Hs; [set_solver|].
  destruct Hs as (-> & Hy & n & _ & Hs). set_solver.
Qed.

Lemma dll_head_null m off h l : dll m off h l → (h =? NULL) = bool_decide (l = []).
Proof.
  destruct l as [|x l]; simpl.
  - by intros ->.
  - intros (-> & Hx & _). by apply Z.eqb_neq.
Qed.

(** The node of [x] in the middle of a chain. *)
Lemma seg_node m off pv cur l1 x l2 nx :
  seg m off pv cur (l1 ++ x :: l2) nx →
  ∃ n, m !! ptr off x = Some (mkFreeNode n (last_of pv l1)) ∧
       seg m off pv cur l1 x ∧ x ≠ NULL ∧ seg m off x n l2 nx.
Proof. rewrite seg_app. intros (mid & ? & -> & ? & n & ? & ?). eauto. Qed.

(** Changing the back link of a chain's first node. *)
Lemma seg_set_prev m off pv pv' x l nx n :
  Forall u64 (x :: l) → NoDup (x :: l) →
  seg m off pv x (x :: l) nx → m !! ptr off x = Some n →
  seg (<[ptr off x := mkFreeNode (next n) pv']> m) off pv' x (x :: l) nx.
Proof.
  intros [Hx Hl]%Forall_cons [Hnin Hnd]%NoDup_cons (_ & Hx0 & n' & Hm & Hs) Hm'.
  simplify_eq/=. split_and!; [done|done|]. exists n'. rewrite lookup_insert_eq.
  split; [done|]. by apply seg_write.
Qed.

(** Changing where a chain goes after its last node. *)
Lemma seg_set_next m off pv cur l x nx nx' n :
  Forall u64 (l ++ [x]) → NoDup (l ++ [x]) →
  seg m off pv cur (l ++ [x]) nx → m !! ptr off x = Some n →
  seg (<[ptr off x := mkFreeNode nx' (prev n)]> m) off pv cur (l ++ [x]) nx'.
Proof.
  intros [Hl Hx]%Forall_app Hnd Hs Hm.
  apply NoDup_app in Hnd as (_ & Hnin & _).
  destruct (seg_node _ _ _ _ _ _ _ _ Hs) as (n' & Hm' & Hs1 & Hx0 & _). simplify_eq/=.
  apply seg_app. exists x. split.
  - apply seg_write; [done|by inversion Hx| |done]. set_solver.
  - split_and!; [done|done|]. exists nx'. by rewrite lookup_insert_eq.
Qed.

(** What [push_free] and [unlink] write. *)
Definition upd_prev (m : gmap Z FreeNode) (p pv : Z) : gmap Z FreeNode :=
  alter (λ n, mkFreeNode (next n) pv) p m.
Definition upd_next (m : gmap Z FreeNode) (p nx : Z) : gmap Z FreeNode :=
  alter (λ n, mkFreeNode nx (prev n)) p m.
Definition push_mem (m : gmap Z FreeNode) (off x h : Z) : gmap Z FreeNode :=
  let m1 := <[ptr off x := mkFreeNode h NULL]> m in
  if h =? NULL then m1 else upd_prev m1 (ptr off h) x.
Definition unlink_mem (m : gmap Z FreeNode) (off pv nx : Z) : gmap Z FreeNode :=
  let m1 := if pv =? NULL then m else upd_next m (ptr off pv) nx in
  if nx =? NULL then m1 else upd_prev m1 (ptr off nx) pv.

Lemma upd_prev_insert m p n pv :
  m !! p = Some n → upd_prev m p pv = <[p := mkFreeNode (next n) pv]> m.
Proof. intros Hp. unfold upd_prev. by rewrite (alter_alt_Some _ _ _ n). Qed.

Lemma upd_next_insert m p n nx :
  m !! p = Some n → upd_next m p nx = <[p := mkFreeNode nx (prev n)]> m.
Proof. intros Hp. unfold upd_next. by rewrite (alter_alt_Some _ _ _ n). Qed.

Lemma ptr_ne off x y : u64 x → u64 y → x ≠ y → ptr off x ≠ ptr off y.
Proof. intros ??? ?%ptr_inj; done. Qed.

Section chain_writes.
Context (m : gmap Z FreeNode) (off h x : Z).

Lemma push_mem_dll l :
  Forall u64 (x :: l) → NoDup (x :: l) → x ≠ NULL → dll m off h l →
  dll (push_mem m off x h) off x (x :: l).
Proof.
  intros Hu Hnd Hx Hd. apply NoDup_cons in Hnd as [Hnin Hnd].
  apply Forall_cons in Hu as [Hux Hul]. unfold push_mem.
  set (m1 := <[ptr off x := _]> m).
  assert (Hd1 : dll m1 off h l) by (by apply seg_write).
  rewrite (dll_head_null _ _ _ _ Hd). destruct l as [|y l].
  - simpl in Hd. rewrite bool_decide_true by done. split_and!; [done|done|]. exists NULL.
    subst m1 h. by rewrite lookup_insert_eq.
  - rewrite bool_decide_false by done. destruct Hd1 as (-> & Hy & n & Hn & Hd1).
    rewrite (upd_prev_insert _ _ _ _ Hn). simpl next.
    split_and!; [done|done|]. exists y. split.
    + rewrite lookup_insert_ne; [by subst m1; rewrite lookup_insert_eq|].
      apply Forall_cons in Hul as [Huy _]. apply ptr_ne; [done..|set_solver].
    + eapply (seg_set_prev m1 off NULL x y l NULL (mkFreeNode n NULL)); [done..| |done].
      split_and!; eauto.
Qed.

Lemma push_mem_other l y :
  Forall u64 (y :: x :: l) → y ∉ x :: l → dll m off h l →
  push_mem m off x h !! ptr off y = m !! ptr off y.
Proof.
  intros Hu Hnin Hd. apply Forall_cons in Hu as [Huy Hu]. rewrite Forall_forall in Hu.
  assert (Hne : ∀ z, z ∈ x :: l → ptr off z ≠ ptr off y).
  { intros z Hz. apply ptr_ne; [by apply Hu|done|]. set_solver. }
  unfold push_mem. rewrite (dll_head_null _ _ _ _ Hd). destruct l as [|z l].
  - simpl. rewrite lookup_insert_ne; [done|]. apply Hne. set_solver.
  - destruct Hd as (-> & _). simpl. unfold upd_prev.
    rewrite lookup_alter_ne by (apply Hne; set_solver).
    rewrite lookup_insert_ne; [done|]. apply Hne. set_solver.
Qed.

Lemma unlink_mem_dll l1 l2 nx pv :
  Forall u64 (l1 ++ x :: l2) → NoDup (l1 ++ x :: l2) →
  dll m off h (l1 ++ x :: l2) → m !! ptr off x = Some (mkFreeNode nx pv) →
  dll (unlink_mem m off pv nx) off (if pv =? NULL then nx else h) (l1 ++ l2).
Proof.
  intros Hu Hnd Hd Hm.
  destruct (seg_node _ _ _ _ _ _ _ _ Hd) as (n & Hn & Hs1 & Hx & Hs2). simplify_eq.
  apply Forall_app in Hu as [Hu1 [Hux Hu2]%Forall_cons].
  apply NoDup_app in Hnd as (Hnd1 & Hdisj & [Hnx Hnd2]%NoDup_cons).
  set (pv := last_of NULL l1) in *.
  set (m1 := if pv =? NULL then m else upd_next m (ptr off pv) nx).
  assert (H1 : seg m1 off NULL (if pv =? NULL then nx else h) l1 nx ∧ seg m1 off x nx l2 NULL).
  { subst m1. destruct l1 as [|p l1 _] using rev_ind.
    - simpl in *. done.
    - assert (pv = p) as -> by (subst pv; unfold last_of; by rewrite last_snoc).
      assert (p ≠ NULL) as Hp by (eapply seg_not_null; [exact Hs1|set_solver]).
      rewrite (proj2 (Z.eqb_neq p NULL)) by done.
      destruct (seg_node _ _ _ _ _ _ _ _ Hs1) as (n' & Hn' & _).
      rewrite (upd_next_insert _ _ _ _ Hn').
      split; [by eapply seg_set_next|].
      apply Forall_app in Hu1 as [_ [Hup _]%Forall_cons].
      apply seg_write; [done..| |done]. set_solver. }
  destruct H1 as [H1 H2]. unfold unlink_mem. fold m1.
  destruct l2 as [|y l2].
  - simpl in H2. subst nx. rewrite Z.eqb_refl, app_nil_r. by destruct (pv =? NULL).
  - destruct H2 as (-> & Hy & n' & Hn' & H2).
    rewrite (proj2 (Z.eqb_neq y NULL)) by done. rewrite (upd_prev_insert _ _ _ _ Hn').
    apply seg_app. exists y. split.
    + apply Forall_cons in Hu2 as [Huy _]. apply seg_write; [done..| |done]. set_solver.
    + eapply (seg_set_prev m1 off x); [done..| |done]. split_and!; eauto.
Qed.

Lemma unlink_mem_other l1 l2 nx pv y :
  Forall u64 (l1 ++ x :: l2) → u64 y → y ∉ l1 ++ x :: l2 →
  dll m off h (l1 ++ x :: l2) → m !! ptr off x = Some (mkFreeNode nx pv) →
  unlink_mem m off pv nx !! ptr off y = m !! ptr off y.
Proof.
  intros Hu Hy Hnin Hd Hm.
  destruct (seg_node _ _ _ _ _ _ _ _ Hd) as (n & Hn & Hs1 & Hx & Hs2). simplify_eq.
  rewrite Forall_forall in Hu.
  assert (Hne : ∀ z, z ∈ l1 ++ x :: l2 → ptr off z ≠ ptr off y).
  { intros z Hz. apply ptr_ne; [by apply Hu|done|]. set_solver. }
  unfold unlink_mem. set (m1 := if _ =? NULL then m else _).
  assert (Hm1 : m1 !! ptr off y = m !! ptr off y).
  { subst m1. destruct l1 as [|p l1 _] using rev_ind; [done|].
    unfold last_of. rewrite last_snoc. simpl default.
    case_match; [done|]. apply lookup_alter_ne, Hne. set_solver. }
  destruct l2 as [|z l2]; simpl in Hs2.
  - subst nx. by rewrite Z.eqb_refl.
  - destruct Hs2 as (-> & _). case_match; [done|].
    unfold upd_prev. rewrite lookup_alter_ne; [done|]. apply Hne. set_solver.
Qed.
End chain_writes.

(** ** Exchanging blocks between lists *)
Lemma frames_set_list A k l l' :
  0 ≤ k → lists A !! Z.to_nat k = Some l →
  (l ≫= block_frames k) ++ frames (set_list k l' A) ≡ₚ
  (l' ≫= block_frames k) ++ frames A.
Proof.
  intros Hk Hl. unfold frames. simpl.
  pose proof (lists_frames_insert 0 (lists A) (Z.to_nat k) l l' Hl) as Hp.
  replace (0 + Z.of_nat (Z.to_nat k)) with k in Hp by lia.
  by rewrite !(assoc (++)), Hp.
Qed.

Lemma frames_push A k l x :
  0 ≤ k → lists A !! Z.to_nat k = Some l →
  frames (set_list k (x :: l) A) ≡ₚ block_frames k x ++ frames A.
Proof.
  intros Hk Hl. apply (Permutation_app_inv_l (l ≫= block_frames k)).
  rewrite (frames_set_list A k l (x :: l)) by done. simpl. solve_Permutation.
Qed.

Lemma frames_remove A k l1 x l2 :
  0 ≤ k → lists A !! Z.to_nat k = Some (l1 ++ x :: l2) →
  frames A ≡ₚ block_frames k x ++ frames (set_list k (l1 ++ l2) A).
Proof.
  intros Hk Hl. apply (Permutation_app_inv_l ((l1 ++ l2) ≫= block_frames k)).
  rewrite <-(frames_set_list A k _ (l1 ++ l2)) by done.
  rewrite !bind_app. simpl. solve_Permutation.
Qed.

Lemma elem_of_frames A f :
  f ∈ frames A ↔
  (∃ k l x, lists A !! k = Some l ∧ x ∈ l ∧ f ∈ block_frames (Z.of_nat k) x) ∨
  (∃ r, r ∈ truns A ∧ f ∈ run_frames r).
Proof.
  unfold frames. rewrite elem_of_app, elem_of_lists_frames, list_elem_of_bind.
  setoid_rewrite Z.add_0_l. naive_solver.
Qed.

(** A block on a list is on no other list, and once on its own. *)
Lemma node_unique A k l1 x l2 j l :
  wf A → lists A !! k = Some (l1 ++ x :: l2) →
  lists A !! j = Some l → x ∈ l → j = k ∧ x ∉ l1 ++ l2.
Proof.
  intros Hwf Hk Hj Hx. set (A' := set_list (Z.of_nat k) (l1 ++ l2) A).
  assert (Hperm : frames A ≡ₚ block_frames (Z.of_nat k) x ++ frames A').
  { apply frames_remove; [lia|]. by rewrite Nat2Z.id. }
  pose proof (wf_nodup _ Hwf) as Hnd. rewrite Hperm in Hnd.
  apply NoDup_app in Hnd as (_ & Hdisj & _).
  assert (Hout : x / 4096 ∉ frames A') by (apply Hdisj, block_frames_head; lia).
  assert (Hk' : lists A' !! k = Some (l1 ++ l2)).
  { simpl. rewrite Nat2Z.id. apply list_lookup_insert_eq. by eapply lookup_lt_Some. }
  split.
  - destruct (decide (j = k)) as [|Hne]; [done|]. destruct Hout.
    apply elem_of_frames. left. exists j, l, x. split_and!; [|done|apply block_frames_head; lia].
    simpl. by rewrite Nat2Z.id, list_lookup_insert_ne.
  - intros Hin. destruct Hout. apply elem_of_frames. left.
    exists k, (l1 ++ l2), x. split_and!; [done|done|apply block_frames_head; lia].
Qed.

Lemma list_NoDup A k l : wf A → lists A !! k = Some l → NoDup l.
Proof.
  intros Hwf Hl. apply NoDup_alt. intros i j x Hi Hj.
  destruct (decide (i = j)) as [|Hne]; [done|exfalso].
  assert (∃ l1 l2, l = l1 ++ x :: l2 ∧ x ∈ l1 ++ l2) as (l1 & l2 & -> & Hin).
  { destruct (list_elem_of_split_length l i x Hi) as (l1 & l2 & -> & ->).
    exists l1, l2. split; [done|]. apply list_elem_of_lookup.
    destruct (decide (j < length l1)%nat).
    - exists j. rewrite lookup_app_l in * by lia. done.
    - exists (j - 1)%nat. rewrite lookup_app_r in Hj by lia.
      destruct (j - length l1)%nat as [|d] eqn:E; [lia|]. simpl in Hj.
      rewrite lookup_app_r by lia. by replace (j - 1 - length l1)%nat with d by lia. }
  destruct (node_unique A k l1 x l2 k (l1 ++ x :: l2)) as [_ Hn]; [done..|set_solver|done].
Qed.

(** ** Well-formedness after an exchange *)
Lemma wf_set_list A k l l' :
  wf A → 0 ≤ k → lists A !! Z.to_nat k = Some l →
  (∀ x, x ∈ l' → x ∈ l ∨ block_ok A k x) →
  NoDup (frames (set_list k l' A)) → frames (set_list k l' A) ⊆ owned A →
  wf (set_list k l' A).
Proof.
  intros Hwf Hk Hl Hl' Hnd Hsub. destruct Hwf as [Hlen Hhi Hblk Hrun _ (Ho & _ & Hb)].
  split; simpl; [by rewrite length_insert|done| |done|done|done].
  intros j l0 x Hj Hx. destruct (decide (j = Z.to_nat k)) as [->|Hne].
  - rewrite list_lookup_insert_eq in Hj by (by eapply lookup_lt_Some). simplify_eq.
    rewrite Z2Nat.id by lia.
    destruct (Hl' x Hx) as [Hin|Hok]; [|by apply Hok].
    pose proof (Hblk _ _ _ Hl Hin) as Hok. by rewrite Z2Nat.id in Hok by lia.
  - rewrite list_lookup_insert_ne in Hj by done. by eapply Hblk.
Qed.

Lemma wf_push A k l x :
  wf A → 0 ≤ k → lists A !! Z.to_nat k = Some l → block_ok A k x →
  (∀ f, f ∈ block_frames k x → f ∈ owned A ∧ f ∉ frames A) →
  wf (set_list k (x :: l) A).
Proof.
  intros Hwf Hk Hl Hok Hfr. apply (wf_set_list A k l); [done..| | |].
  - set_solver.
  - rewrite frames_push by done. apply NoDup_app. split_and!.
    + apply NoDup_seqZ.
    + intros f Hf. by apply Hfr.
    + apply Hwf.
  - rewrite frames_push by done. destruct (wf_owned _ Hwf) as (_ & Hsub & _).
    intros f [Hf|Hf]%elem_of_app; [by apply Hfr|by apply Hsub].
Qed.

Lemma wf_remove A k l1 x l2 :
  wf A → 0 ≤ k → lists A !! Z.to_nat k = Some (l1 ++ x :: l2) →
  wf (set_list k (l1 ++ l2) A).
Proof.
  intros Hwf Hk Hl. pose proof (frames_remove A k l1 x l2 Hk Hl) as Hp.
  pose proof (wf_nodup _ Hwf) as Hnd. rewrite Hp in Hnd.
  apply NoDup_app in Hnd as (_ & _ & Hnd).
  destruct (wf_owned _ Hwf) as (_ & Hsub & _).
  apply (wf_set_list A k (l1 ++ x :: l2)); [done..|set_solver|done|].
  intros f Hf. apply Hsub. rewrite Hp. set_solver.
Qed.

(** Frames of a removed block are no longer free; they stay owned. *)
Lemma removed_frames A k l1 x l2 f :
  wf A → 0 ≤ k → lists A !! Z.to_nat k = Some (l1 ++ x :: l2) →
  f ∈ block_frames k x → f ∈ owned A ∧ f ∉ frames (set_list k (l1 ++ l2) A).
Proof.
  intros Hwf Hk Hl Hf. pose proof (frames_remove A k l1 x l2 Hk Hl) as Hp.
  pose proof (wf_nodup _ Hwf) as Hnd. rewrite Hp in Hnd.
  apply NoDup_app in Hnd as (_ & Hd & _).
  destruct (wf_owned _ Hwf) as (_ & Hsub & _).
  split; [|by apply Hd]. apply Hsub. rewrite Hp. set_solver.
Qed.

Lemma block_in_list A k l x :
  wf A → 0 ≤ k → lists A !! Z.to_nat k = Some l → x ∈ l → block_ok A k x.
Proof.
  intros Hwf Hk Hl Hx. pose proof (wf_block _ Hwf _ _ _ Hl Hx) as Hok.
  by rewrite Z2Nat.id in Hok by lia.
Qed.

Lemma block_ok_u64 A k x : wf A → 0 ≤ k → block_ok A k x → u64 x.
Proof.
  intros Hwf Hk (_ & ? & _ & ?). pose proof (wf_hi _ Hwf). pose proof (bsize_pos k).
  unfold in_width. lia.
Qed.

Lemma list_u64 A k l : wf A → lists A !! k = Some l → Forall u64 l.
Proof.
  intros Hwf Hl. apply Forall_forall. intros x Hx.
  eapply (block_ok_u64 A (Z.of_nat k)); [done|lia|by eapply wf_block].
Qed.

Lemma NoDup_bounded (l : list Z) (n : Z) :
  0 ≤ n → NoDup l → (∀ x, x ∈ l → 0 ≤ x < n) → Z.of_nat (length l) ≤ n.
Proof.
  intros Hn Hnd Hb.
  assert (Hle : (length l ≤ length (seqZ 0 n))%nat).
  { apply submseteq_length, NoDup_submseteq; [done|].
    intros x Hx. apply elem_of_seqZ. specialize (Hb x Hx). lia. }
  rewrite length_seqZ in Hle. lia.
Qed.

Lemma owned_bound A : wf A → Z.of_nat (length (owned A)) ≤ 2 ^ 52.
Proof.
  intros Hwf. destruct (wf_owned _ Hwf) as (Hnd & _ & Hb). pose proof (wf_hi _ Hwf).
  apply NoDup_bounded; [lia|done|]. intros x Hx. specialize (Hb x Hx). lia.
Qed.

Lemma frames_bound A : wf A → (length (frames A) ≤ length (owned A))%nat.
Proof.
  intros Hwf. apply submseteq_length, NoDup_submseteq; [apply Hwf|].
  apply (wf_owned _ Hwf).
Qed.

Lemma order_lookup A k : wf A → 0 ≤ k ≤ 10 → ∃ l, lists A !! Z.to_nat k = Some l.
Proof.
  intros Hwf Hk. apply lookup_lt_is_Some. rewrite (wf_len _ Hwf). lia.
Qed.

(** ** Rewriting one list of a represented state *)
Definition at_order (s : pmm) (k h c n : Z) (m : gmap Z FreeNode) : pmm :=
  set_free_frames n (set_counts (<[Z.to_nat k := c]> (counts (bd s)))
    (set_heads (<[Z.to_nat k := h]> (heads (bd s))) (set_mem m s))).

Lemma rep_update s A k l l' h' m' c n :
  Rep s A → 0 ≤ k ≤ 10 → lists A !! Z.to_nat k = Some l →
  wf (set_list k l' A) →
  dll m' (hhdm A) h' l' →
  (∀ j l0 x, j ≠ Z.to_nat k → lists A !! j = Some l0 → x ∈ l0 →
     m' !! ptr (hhdm A) x = mem s !! ptr (hhdm A) x) →
  c = total_blocks (Z.to_nat k) (truns A) l' →
  n = Z.of_nat (length (frames (set_list k l' A))) →
  Rep (at_order s k h' c n m') (set_list k l' A).
Proof.
  intros HR Hk Hl Hwf Hdll Hm -> ->. destruct HR as [_ [Hlh Hlc] Hlist Hcount Hfree Htot Hoff Hspan Hruns].
  split; simpl; [done|by rewrite !length_insert| | |done|done|done|done|done].
  - intros j l0 Hj. destruct (decide (j = Z.to_nat k)) as [->|Hne].
    + rewrite list_lookup_insert_eq in Hj by (by eapply lookup_lt_Some). simplify_eq.
      exists h'. rewrite list_lookup_insert_eq by (rewrite Hlh; lia). done.
    + rewrite list_lookup_insert_ne in Hj by done.
      destruct (Hlist _ _ Hj) as (h & Hh & Hd). exists h.
      rewrite list_lookup_insert_ne by done. split; [done|].
      eapply seg_frame; [|done]. intros x Hx. by eapply Hm.
  - intros j l0 Hj. destruct (decide (j = Z.to_nat k)) as [->|Hne].
    + rewrite list_lookup_insert_eq in Hj by (by eapply lookup_lt_Some). simplify_eq.
      rewrite list_lookup_insert_eq by (rewrite Hlc; lia). done.
    + rewrite list_lookup_insert_ne in Hj by done. rewrite list_lookup_insert_ne by done. auto.
Qed.

(** ** Counting blocks *)
Lemma length_bind_blocks k l :
  0 ≤ k → Z.of_nat (length (l ≫= block_frames k)) = Z.of_nat (length l) * 2 ^ k.
Proof.
  intros Hk. pose proof (pow2_pos k). induction l as [|x l IH]; [done|].
  rewrite bind_cons, length_app, length_block_frames, Nat2Z.inj_add, IH, length_cons. lia.
Qed.

Lemma length_run_frames A r :
  run_ok A r → Z.of_nat (length (run_frames r)) = 1024 * run_blocks r ∧ 1 ≤ run_blocks r.
Proof.
  unfold run_ok, run_blocks, run_frames, bsize. rewrite length_seqZ.
  change (2 ^ (12 + 10)) with 4194304. intros. dlia.
Qed.

Lemma sum_runs_frames A rs :
  (∀ r, r ∈ rs → run_ok A r) →
  Z.of_nat (length (rs ≫= run_frames)) = 1024 * sum_runs rs ∧ 0 ≤ sum_runs rs.
Proof.
  induction rs as [|r rs IH]; intros Hok; [done|]. rewrite bind_cons. simpl sum_runs.
  destruct IH as [IH1 IH2]; [set_solver|].
  destruct (length_run_frames A r) as [H1 H2]; [set_solver|].
  rewrite length_app. lia.
Qed.

Lemma length_lists_frames k ls i l :
  0 ≤ k → ls !! i = Some l →
  Z.of_nat (length l) ≤ Z.of_nat (length (lists_frames k ls)).
Proof.
  revert k i. induction ls as [|l0 ls IH]; intros k [|i] Hk Hi; simplify_eq/=;
    rewrite length_app, Nat2Z.inj_add.
  - rewrite length_bind_blocks by done. pose proof (pow2_pos k Hk).
    pose proof (Z.mul_le_mono_nonneg_l 1 (2 ^ k) (Z.of_nat (length l))). lia.
  - specialize (IH (k + 1) i ltac:(lia) Hi). lia.
Qed.

Lemma total_blocks_bound A k l :
  wf A → lists A !! k = Some l →
  Z.of_nat (length l) ≤ total_blocks k (truns A) l ≤ Z.of_nat (length (frames A)).
Proof.
  intros Hwf Hl. destruct (sum_runs_frames A (truns A)) as [H1 H2]; [apply Hwf|].
  pose proof (length_lists_frames 0 _ _ _ ltac:(lia) Hl).
  unfold total_blocks, frames. rewrite length_app. case_decide; lia.
Qed.

(** A chain is no longer than the memory that holds it. *)
Lemma seg_size m off pv cur l nx :
  Forall u64 l → NoDup l → seg m off pv cur l nx → (length l ≤ size m)%nat.
Proof.
  intros Hu Hnd Hs. rewrite Forall_forall in Hu.
  assert (Hin : ∀ x, x ∈ l → is_Some (m !! ptr off x)).
  { intros x (l1 & l2 & ->)%list_elem_of_split.
    destruct (seg_node _ _ _ _ _ _ _ _ Hs) as (n & Hn & _). eauto. }
  rewrite <-(size_dom (D := gset Z)), <-(length_fmap (ptr off) l).
  rewrite <-(size_list_to_set (C := gset Z) (ptr off <$> l)).
  - apply subseteq_size. intros p. rewrite elem_of_list_to_set, list_elem_of_fmap.
    intros (x & -> & Hx). apply elem_of_dom. auto.
  - apply NoDup_fmap_2_strong; [|done]. intros x y Hx Hy. apply ptr_inj; auto.
Qed.
