(* ===== verification/PmmBuddy.v ===== *)
(** * Buddies of a block, and coalesced free lists

    The buddy of a block is found by flipping one address bit; a free set is
    coalesced when no two buddies below the top order are both listed. *)

From stdpp Require Import base gmap list numbers strings.
From S2P Require Import Prelude Pmm PmmRep.

Local Open Scope Z_scope.

Import Pmm.

Local Opaque seqZ.

(** ** Buddies *)
Definition buddy (k x : Z) : Z := Z.lxor x (bsize k).

Definition coalesced (A : abs) : Prop :=
  ∀ k l x, 0 ≤ k < 10 → lists A !! Z.to_nat k = Some l → x ∈ l → buddy k x ∉ l.

Lemma buddy_cases k x :
  0 ≤ k → x mod bsize k = 0 →
  (x mod bsize (k + 1) = 0 ∧ buddy k x = x + bsize k) ∨
  ((x - bsize k) mod bsize (k + 1) = 0 ∧ buddy k x = x - bsize k).
Proof.
  intros Hk Hx.
  assert (buddy k x = if (x / bsize k) mod 2 =? 0 then x + bsize k else x - bsize k) as ->
    by (apply lxor_pow2; lia).
  rewrite !bsize_S by lia. pose proof (bsize_pos k Hk).
  assert (Hq : x = bsize k * (x / bsize k)) by (apply Z_div_exact_2; lia).
  set (q := x / bsize k) in *. set (B := bsize k) in *. clearbody q.
  destruct (Z.eqb_spec (q mod 2) 0) as [Hm|Hm]; [left|right]; (split; [|lia]).
  - rewrite Hq, (Z.mul_comm 2), Z.mul_mod_distr_l by lia. rewrite Hm. lia.
  - replace (x - B) with (B * (q - 1)) by lia.
    rewrite (Z.mul_comm 2), Z.mul_mod_distr_l by lia.
    assert ((q - 1) mod 2 = 0) as -> by dlia. lia.
Qed.

Lemma mod_half k x : 0 ≤ k → x mod bsize (k + 1) = 0 → x mod bsize k = 0.
Proof. intros. eapply mod_pow2_weaken; [|exact H0]. lia. Qed.

Lemma mod_page k x : 0 ≤ k → x mod bsize k = 0 → x mod 4096 = 0.
Proof. intros ? H. change 4096 with (2 ^ 12). eapply mod_pow2_weaken; [|exact H]. lia. Qed.

Lemma buddy_aligned k x : 0 ≤ k → x mod bsize k = 0 → buddy k x mod bsize k = 0.
Proof.
  intros Hk Hx. pose proof (bsize_pos k Hk).
  destruct (buddy_cases k x Hk Hx) as [[_ ->]|[_ ->]].
  - rewrite Z.add_mod, Hx, Z.mod_same by lia. done.
  - rewrite Zminus_mod, Hx, Z.mod_same by lia. done.
Qed.

Lemma buddy_low k x : 0 ≤ k → x mod bsize (k + 1) = 0 → buddy k x = x + bsize k.
Proof.
  intros Hk Hx. pose proof (bsize_pos k Hk).
  destruct (buddy_cases k x) as [[_ ?]|[Hc _]]; [done|by apply mod_half|done|].
  rewrite bsize_S in * by lia. apply Z.mod_divide in Hx as [q Hq]; [|lia].
  apply Z.mod_divide in Hc as [q' Hq']; [|lia].
  assert (1 = 2 * (q - q')); [|lia]. apply (Z.mul_reg_r _ _ (bsize k)); lia.
Qed.

Lemma buddy_involutive k x : 0 ≤ k → buddy k (buddy k x) = x.
Proof. intros. unfold buddy. by rewrite Z.lxor_assoc, Z.lxor_nilpotent, Z.lxor_0_r. Qed.

Lemma buddy_high k x : 0 ≤ k → x mod bsize (k + 1) = 0 → buddy k (x + bsize k) = x.
Proof. intros. rewrite <-buddy_low by done. by apply buddy_involutive. Qed.

(** A block and its buddy make up the block of the next order at the lower of
    the two. *)
Lemma buddy_merge k x :
  0 ≤ k → x mod bsize k = 0 →
  Z.min x (buddy k x) mod bsize (k + 1) = 0 ∧
  block_frames (k + 1) (Z.min x (buddy k x)) ≡ₚ block_frames k x ++ block_frames k (buddy k x).
Proof.
  intros Hk Hx. pose proof (bsize_pos k Hk).
  destruct (buddy_cases k x Hk Hx) as [[Hx1 ->]|[Hx1 ->]].
  - rewrite Z.min_l by lia. split; [done|]. rewrite block_frames_split; [done|lia|].
    by apply (mod_page k).
  - rewrite Z.min_r by lia. split; [done|]. rewrite block_frames_split.
    + replace (x - bsize k + bsize k) with x by lia. by rewrite (comm (++)).
    + lia.
    + by apply (mod_page (k + 1)); [lia|].
Qed.

Lemma coalesced_push A k l x :
  coalesced A → 0 ≤ k → lists A !! Z.to_nat k = Some l → x mod bsize k = 0 →
  (k < 10 → buddy k x ∉ l) → coalesced (set_list k (x :: l) A).
Proof.
  intros Hco Hk Hl Hx Hb j l' y Hj Hl' Hy Hby. simpl in Hl'.
  destruct (decide (j = k)) as [->|Hne].
  - rewrite list_lookup_insert_eq in Hl' by (by eapply lookup_lt_Some). simplify_eq.
    pose proof (bsize_pos k Hk).
    assert (Hsym : ∀ z, buddy k z = x → z = buddy k x).
    { intros z <-. by rewrite buddy_involutive. }
    apply elem_of_cons in Hy as [->|Hy]; apply elem_of_cons in Hby as [Hby|Hby].
    + destruct (buddy_cases k x Hk Hx) as [[_ Hc]|[_ Hc]]; lia.
    + by apply Hb; [lia|].
    + apply Hb; [lia|]. by rewrite <-(Hsym y Hby).
    + by eapply (Hco k l y).
  - rewrite list_lookup_insert_ne in Hl' by lia. by eapply (Hco j l' y).
Qed.

Lemma coalesced_remove A k l1 x l2 :
  coalesced A → 0 ≤ k → lists A !! Z.to_nat k = Some (l1 ++ x :: l2) →
  coalesced (set_list k (l1 ++ l2) A).
Proof.
  intros Hco Hk Hl j l' y Hj Hl' Hy Hby. simpl in Hl'.
  destruct (decide (j = k)) as [->|Hne].
  - rewrite list_lookup_insert_eq in Hl' by (by eapply lookup_lt_Some). simplify_eq.
    eapply (Hco k _ y); [done|done|set_solver|set_solver].
  - rewrite list_lookup_insert_ne in Hl' by lia. by eapply (Hco j l' y).
Qed.

(** A block on a list has its first frame free. *)
Lemma free_head A k l x :
  lists A !! Z.to_nat k = Some l → x ∈ l → x / 4096 ∈ frames A.
Proof.
  intros Hl Hx. apply elem_of_frames. left. exists (Z.to_nat k), l, x.
  split_and!; [done..|]. apply block_frames_head. lia.
Qed.

(** ** Cutting a region into blocks leaves no two buddies *)

(** No listed block that ends at [a] is a low half whose high half still fits
    below [b]. *)
Definition left_ok (A : abs) (a b : Z) : Prop :=
  ∀ k l, 0 ≤ k < 10 → lists A !! Z.to_nat k = Some l → a - bsize k ∈ l →
    (a - bsize k) mod bsize (k + 1) = 0 → b < a + bsize k.

(** The block of order [k] at [a] is the largest one [[a, b)] starts with. *)
Definition greatest (k a b : Z) : Prop :=
  k < 10 → a mod bsize (k + 1) = 0 → b < a + bsize (k + 1).

Lemma left_ok_free A a b :
  wf A → a / 4096 - 1 ∉ frames A → left_ok A a b.
Proof.
  intros Hwf Hn k l Hk Hl Hin Hal. destruct Hn. apply elem_of_frames. left.
  exists (Z.to_nat k), l, (a - bsize k). split_and!; [done..|]. rewrite Z2Nat.id by lia.
  apply elem_of_block_frames; [lia|by apply (mod_page (k + 1)); [lia|]|].
  pose proof (mod_page (k + 1) _ ltac:(lia) Hal). rewrite bsize_frames in * by lia.
  pose proof (pow2_pos k). dlia.
Qed.

Lemma left_ok_push A j l a b :
  wf A → 0 ≤ j ≤ 10 → lists A !! Z.to_nat j = Some l → a mod bsize j = 0 →
  (∀ f, f ∈ block_frames j a → f ∉ frames A) → greatest j a b →
  left_ok (set_list j (a :: l) A) (a + bsize j) b.
Proof.
  intros Hwf Hj Hl Hal Hfr Hmax k l' Hk Hl' Hin Hmod. simpl in Hl'.
  pose proof (bsize_pos j). assert (Hpg : a mod 4096 = 0) by (eapply mod_page; [|done]; lia).
  assert (Hold : left_ok A (a + bsize j) b).
  { apply left_ok_free; [done|]. apply Hfr, elem_of_block_frames; [lia|done|].
    rewrite bsize_frames in * by lia. pose proof (pow2_pos j). dlia. }
  destruct (decide (k = j)) as [->|Hne].
  - rewrite list_lookup_insert_eq in Hl' by (by eapply lookup_lt_Some). simplify_eq.
    apply elem_of_cons in Hin as [Heq|Hin]; [|by eapply Hold].
    replace (a + bsize j - bsize j) with a in Hmod by lia.
    specialize (Hmax ltac:(lia) Hmod). rewrite bsize_S in Hmax by lia. lia.
  - rewrite list_lookup_insert_ne in Hl' by lia. by eapply Hold.
Qed.

Lemma cut_buddy A k l a b :
  wf A → 0 ≤ k < 10 → lists A !! Z.to_nat k = Some l → a mod bsize k = 0 → b mod 4096 = 0 →
  a + bsize k ≤ b → left_ok A a b → greatest k a b → b / 4096 ∉ frames A →
  buddy k a ∉ l.
Proof.
  intros Hwf Hk Hl Hal Hb Hab Hleft Hmax Hbf Hin.
  destruct (buddy_cases k a) as [[Hm Heq]|[Hm Heq]]; [lia|done| |]; rewrite Heq in Hin.
  - apply Hbf, elem_of_frames. left. exists (Z.to_nat k), l, (a + bsize k).
    split_and!; [done..|]. rewrite Z2Nat.id by lia. specialize (Hmax ltac:(lia) Hm).
    rewrite bsize_S in Hmax by lia. pose proof (mod_page k a ltac:(lia) Hal).
    rewrite bsize_frames in Hmax, Hab |- * by lia.
    rewrite elem_of_block_frames, bsize_frames by (lia || dlia). dlia.
  - specialize (Hleft k l Hk Hl Hin Hm). lia.
Qed.
