(* ===== verification/PmmPrim.v ===== *)
(** * The buddy allocator's list primitives

    Each private helper of [Buddy] (src/crates/core/src/mm/pmm.rs) against the
    abstract state of [PmmRep]: what [push_free], [pop_head], [unlink] and the
    walks do to a represented state, with no panic and no stray memory access. *)

From stdpp Require Import base gmap list numbers strings.
From S2P Require Import Prelude Pmm PmmRep.

Local Open Scope Z_scope.

Import Pmm.

(** ** Field accesses *)
Lemma wp_head_of s k h (Q : Z → pmm → Prop) :
  0 ≤ k → heads (bd s) !! Z.to_nat k = Some h → Q h s → wp (head_of k) s Q.
Proof. intros. unfold head_of. repeat wp_step. by eapply owp_index. Qed.

Lemma wp_put_head s k h (Q : unit → pmm → Prop) :
  0 ≤ k < Z.of_nat (length (heads (bd s))) →
  Q tt (set_heads (<[Z.to_nat k := h]> (heads (bd s))) s) → wp (put_head k h) s Q.
Proof. intros. unfold put_head. repeat wp_step. apply owp_store; [done|]. by wp_step. Qed.

Lemma wp_read_node s x n (Q : FreeNode → pmm → Prop) :
  mem s !! node_ptr (bd s) x = Some n → Q n s → wp (read_node x) s Q.
Proof. intros Hn HQ. unfold read_node. repeat wp_step. by rewrite Hn. Qed.

Lemma wp_write_node s x n (Q : unit → pmm → Prop) :
  Q tt (set_mem (<[node_ptr (bd s) x := n]> (mem s)) s) → wp (write_node x n) s Q.
Proof. intros HQ. unfold write_node. by wp_step. Qed.

Lemma wp_write_next s x n nx (Q : unit → pmm → Prop) :
  mem s !! node_ptr (bd s) x = Some n →
  Q tt (set_mem (<[node_ptr (bd s) x := mkFreeNode nx (prev n)]> (mem s)) s) →
  wp (write_next x nx) s Q.
Proof.
  intros Hn HQ. unfold write_next. wp_step. eapply wp_read_node; [done|].
  by apply wp_write_node.
Qed.

Lemma wp_write_prev s x n pv (Q : unit → pmm → Prop) :
  mem s !! node_ptr (bd s) x = Some n →
  Q tt (set_mem (<[node_ptr (bd s) x := mkFreeNode (next n) pv]> (mem s)) s) →
  wp (write_prev x pv) s Q.
Proof.
  intros Hn HQ. unfold write_prev. wp_step. eapply wp_read_node; [done|].
  by apply wp_write_node.
Qed.

Lemma wp_counts_add s k n c (Q : unit → pmm → Prop) :
  0 ≤ k → counts (bd s) !! Z.to_nat k = Some c → u64 (c + n) →
  Q tt (set_counts (<[Z.to_nat k := c + n]> (counts (bd s))) s) → wp (counts_add k n) s Q.
Proof.
  intros Hk Hc Hu HQ. unfold counts_add. repeat wp_step. eapply owp_index; [done..|].
  repeat wp_step; [done|]. apply lookup_lt_Some in Hc.
  apply owp_store; [lia|]. by wp_step.
Qed.

Lemma wp_counts_sub s k n c (Q : unit → pmm → Prop) :
  0 ≤ k → counts (bd s) !! Z.to_nat k = Some c → u64 (c - n) →
  Q tt (set_counts (<[Z.to_nat k := c - n]> (counts (bd s))) s) → wp (counts_sub k n) s Q.
Proof.
  intros Hk Hc Hu HQ. unfold counts_sub. repeat wp_step. eapply owp_index; [done..|].
  repeat wp_step; [done|]. apply lookup_lt_Some in Hc.
  apply owp_store; [lia|]. by wp_step.
Qed.

Lemma wp_free_frames_add s n (Q : unit → pmm → Prop) :
  u64 (free_frames (bd s) + n) → Q tt (set_free_frames (free_frames (bd s) + n) s) →
  wp (free_frames_add n) s Q.
Proof. intros Hu HQ. unfold free_frames_add. repeat wp_step; done. Qed.

Lemma wp_free_frames_sub s n (Q : unit → pmm → Prop) :
  u64 (free_frames (bd s) - n) → Q tt (set_free_frames (free_frames (bd s) - n) s) →
  wp (free_frames_sub n) s Q.
Proof. intros Hu HQ. unfold free_frames_sub. repeat wp_step; done. Qed.

Lemma wp_total_frames_add s n (Q : unit → pmm → Prop) :
  u64 (total_frames (bd s) + n) → Q tt (set_total_frames (total_frames (bd s) + n) s) →
  wp (total_frames_add n) s Q.
Proof. intros Hu HQ. unfold total_frames_add. repeat wp_step; done. Qed.

Lemma node_ptr_off b off x : hhdm_offset b = off → node_ptr b x = ptr off x.
Proof. by intros <-. Qed.

Lemma rep_node_ptr s A : Rep s A → ∀ x, node_ptr (bd s) x = ptr (hhdm A) x.
Proof. intros HR x. unfold node_ptr, ptr. by rewrite (rep_off _ _ HR). Qed.

(** ** push_free *)
Section push.
Context (s : pmm) (A : abs) (k x : Z) (l : list Z).
Hypothesis HR : Rep s A.
Hypothesis Hk : 0 ≤ k ≤ 10.
Hypothesis Hl : lists A !! Z.to_nat k = Some l.
Hypothesis Hok : block_ok A k x.
Hypothesis Hfr : ∀ f, f ∈ block_frames k x → f ∈ owned A ∧ f ∉ frames A.

Lemma push_fresh j l0 : lists A !! j = Some l0 → x ∉ l0.
Proof using All.
  intros Hj Hx. destruct (Hfr (x / 4096)) as [_ Hn]; [apply block_frames_head; lia|].
  apply Hn, elem_of_frames. left. exists j, l0, x. split_and!; [done..|].
  apply block_frames_head. lia.
Qed.

Lemma push_room :
  Z.of_nat (length (frames A)) + 2 ^ k ≤ 2 ^ 52 ∧
  Z.of_nat (length (frames (set_list k (x :: l) A))) = Z.of_nat (length (frames A)) + 2 ^ k.
Proof using All.
  assert (Hwf : wf (set_list k (x :: l) A)) by (apply wf_push; [apply HR|lia|done..]).
  pose proof (frames_bound _ Hwf) as Hb. pose proof (owned_bound _ Hwf) as Ho.
  pose proof (pow2_pos k). rewrite frames_push, length_app, length_block_frames in * by (done || lia).
  lia.
Qed.

Lemma push_u64 : Forall u64 (x :: l) ∧ NoDup (x :: l) ∧ x ≠ NULL.
Proof using All.
  pose proof (rep_wf _ _ HR) as Hwf. split_and!.
  - constructor; [apply (block_ok_u64 A k); [done|lia|done]|by eapply list_u64].
  - constructor; [by eapply push_fresh|by eapply list_NoDup].
  - destruct Hok. unfold NULL. lia.
Qed.

(** The free list gains [x] at its head. *)
Lemma push_free_spec (Q : unit → pmm → Prop) :
  (∀ s', Rep s' (set_list k (x :: l) A) → Q tt s') → wp (push_free x k) s Q.
Proof using All.
  intros HQ. pose proof (rep_wf _ _ HR) as Hwf. destruct push_u64 as (Hu & Hnd & Hx0).
  destruct (rep_list _ _ HR _ _ Hl) as (h & Hh & Hd).
  pose proof (rep_count _ _ HR _ _ Hl) as Hc.
  pose proof (total_blocks_bound _ _ _ Hwf Hl). destruct push_room as [Hroom Hlen].
  destruct (rep_len _ _ HR) as [Hlh Hlc]. pose proof (pow2_pos k).
  unfold push_free. wp_step. eapply wp_head_of; [lia|done|].
  wp_step. apply wp_write_node. wp_step.
  eapply (wp_mono _ _ (λ _ s', s' = set_mem (push_mem (mem s) (hhdm A) x h) s)).
  { unfold push_mem. rewrite (rep_node_ptr s A HR). case_match eqn:E; [by wp_step|].
    apply Forall_cons in Hu as [Hux Hul].
    destruct l as [|y l']; [simpl in Hd; subst; done|]. destruct Hd as (-> & _ & n & Hn & _).
    assert (ptr (hhdm A) x ≠ ptr (hhdm A) y).
    { apply Forall_cons in Hul as [? _]. apply NoDup_cons in Hnd as [Hnin _].
      apply ptr_ne; [done..|]. set_solver. }
    erewrite upd_prev_insert; [|by rewrite lookup_insert_ne].
    apply (wp_write_prev _ y (mkFreeNode n NULL)); simpl; rewrite (rep_node_ptr s A HR); [|done].
    by rewrite lookup_insert_ne. }
  intros _ s1 ->. wp_step. apply wp_put_head; [simpl; lia|]. wp_step.
  eapply wp_counts_add; [lia|done|unfold in_width; lia|]. repeat wp_step.
  apply owp_shl_one; [done|]. pose proof (rep_free _ _ HR).
  apply wp_free_frames_add; [simpl; unfold in_width; lia|]. apply HQ.
  eapply (rep_update s A k l); [done..|by apply wf_push; [|lia|..]|by apply push_mem_dll| | |].
  - intros j l0 y Hj Hl0 Hy. pose proof (list_u64 _ _ _ Hwf Hl0) as Hf.
    rewrite Forall_forall in Hf. apply (push_mem_other _ _ _ _ l); [by constructor; [auto|]| |done].
    intros [->|Hin]%elem_of_cons; [by eapply push_fresh|].
    destruct (list_elem_of_split _ _ Hin) as (l1 & l2 & ->).
    by destruct (node_unique A _ l1 y l2 j l0 Hwf Hl Hl0 Hy).
  - unfold total_blocks. simpl length. lia.
  - simpl. lia.
Qed.
End push.

(** ** unlink and pop_head *)
Section remove.
Context (s : pmm) (A : abs) (k x : Z) (l1 l2 : list Z) (h nx pv : Z).
Hypothesis HR : Rep s A.
Hypothesis Hk : 0 ≤ k ≤ 10.
Hypothesis Hl : lists A !! Z.to_nat k = Some (l1 ++ x :: l2).
Hypothesis Hh : heads (bd s) !! Z.to_nat k = Some h.
Hypothesis Hd : dll (mem s) (hhdm A) h (l1 ++ x :: l2).
Hypothesis Hn : mem s !! ptr (hhdm A) x = Some (mkFreeNode nx pv).

Let h' := if pv =? NULL then nx else h.
Let m' := unlink_mem (mem s) (hhdm A) pv nx.

(** The counters after the links are rewritten. *)
Lemma remove_tail (Q : unit → pmm → Prop) :
  (∀ s', Rep s' (set_list k (l1 ++ l2) A) → Q tt s') →
  wp (counts_sub k 1;; sz <- lift (shlc 64 1 k);; free_frames_sub sz)
     (set_heads (<[Z.to_nat k := h']> (heads (bd s))) (set_mem m' s)) Q.
Proof using All.
  intros HQ. pose proof (rep_wf _ _ HR) as Hwf.
  pose proof (rep_count _ _ HR _ _ Hl) as Hc.
  pose proof (total_blocks_bound _ _ _ Hwf Hl) as Hb.
  pose proof (frames_bound _ Hwf). pose proof (owned_bound _ Hwf).
  pose proof (Permutation_length (frames_remove A k l1 x l2 ltac:(lia) Hl)) as Hlen.
  rewrite length_app, length_block_frames in Hlen. pose proof (pow2_pos k).
  rewrite length_app, length_cons in Hb. pose proof (rep_free _ _ HR).
  wp_step. eapply wp_counts_sub; [lia|done|unfold in_width; lia|]. repeat wp_step.
  apply owp_shl_one; [done|].
  apply wp_free_frames_sub; [simpl; unfold in_width; lia|]. apply HQ.
  pose proof (list_u64 _ _ _ Hwf Hl). pose proof (list_NoDup _ _ _ Hwf Hl).
  eapply (rep_update s A k (l1 ++ x :: l2));
    [done..|by eapply wf_remove; [|lia|]|by eapply unlink_mem_dll| | |].
  - intros j l0 y Hj Hl0 Hy. pose proof (list_u64 _ _ _ Hwf Hl0) as Hf.
    rewrite Forall_forall in Hf. eapply unlink_mem_other; [done|by apply Hf| |done..].
    intros Hin. destruct (list_elem_of_split _ _ Hin) as (l3 & l4 & Heq).
    rewrite Heq in Hl. by destruct (node_unique A _ l3 y l4 j l0 Hwf Hl Hl0 Hy).
  - unfold total_blocks. rewrite !length_app, length_cons. lia.
  - simpl. lia.
Qed.

(** The node at [nx], when there is one. *)
Lemma remove_next :
  nx ≠ NULL → ∃ n, mem s !! ptr (hhdm A) nx = Some (mkFreeNode n x) ∧
                   ptr (hhdm A) nx ≠ ptr (hhdm A) x ∧
                   (pv ≠ NULL → ptr (hhdm A) nx ≠ ptr (hhdm A) pv).
Proof using All.
  intros Hnx. destruct (seg_node _ _ _ _ _ _ _ _ Hd) as (n & Hn' & Hs1 & Hx0 & Hs2).
  simplify_eq. pose proof (rep_wf _ _ HR) as Hwf.
  pose proof (list_u64 _ _ _ Hwf Hl) as Hu. pose proof (list_NoDup _ _ _ Hwf Hl) as Hnd.
  rewrite Forall_forall in Hu. destruct l2 as [|y l2']; [done|].
  destruct Hs2 as (-> & _ & n & Hy & _). exists n. split; [done|].
  apply NoDup_app in Hnd as (_ & Hdis & [Hxy _]%NoDup_cons). split.
  - apply ptr_ne; [apply Hu; set_solver..|set_solver].
  - intros Hpv. assert (last_of NULL l1 ∈ l1) as Hin.
    { unfold last_of in *. destruct (last l1) eqn:E; [|done].
      by apply last_Some_elem_of in E. }
    apply ptr_ne; [apply Hu; set_solver..|]. intros Heq.
    apply (Hdis _ Hin). rewrite <-Heq. set_solver.
Qed.
End remove.

Section remove_ops.
Context (s : pmm) (A : abs) (k x : Z).
Hypothesis HR : Rep s A.
Hypothesis Hk : 0 ≤ k ≤ 10.

(** [x] leaves its list, wherever it is. *)
Lemma unlink_spec l1 l2 (Q : unit → pmm → Prop) :
  lists A !! Z.to_nat k = Some (l1 ++ x :: l2) →
  (∀ s', Rep s' (set_list k (l1 ++ l2) A) → Q tt s') → wp (unlink x k) s Q.
Proof using All.
  intros Hl HQ. destruct (rep_list _ _ HR _ _ Hl) as (h & Hh & Hd).
  destruct (seg_node _ _ _ _ _ _ _ _ Hd) as (nx & Hn & Hs1 & Hx0 & _).
  set (pv := last_of NULL l1) in *. pose proof (rep_node_ptr s A HR) as Hptr.
  pose proof (remove_next s A k x l1 l2 h nx pv HR Hk Hl Hh Hd Hn) as Hnext.
  destruct (rep_len _ _ HR) as [Hlh _].
  unfold unlink. wp_step. eapply wp_read_node; [by rewrite Hptr|]. simpl next. simpl prev. wp_step.
  set (m1 := if pv =? NULL then mem s else upd_next (mem s) (ptr (hhdm A) pv) nx).
  eapply (wp_mono _ _ (λ _ s', s' = set_heads (<[Z.to_nat k := if pv =? NULL then nx else h]>
                                      (heads (bd s))) (set_mem m1 s))).
  { subst m1. destruct (Z.eqb_spec pv NULL) as [Hp|Hp].
    - apply wp_put_head; [lia|]. by destruct s.
    - destruct l1 as [|p l1' _] using rev_ind; [done|].
      assert (pv = p) as -> by (subst pv; unfold last_of; by rewrite last_snoc).
      destruct (seg_node _ _ _ _ _ _ _ _ Hs1) as (n' & Hp' & _).
      rewrite (upd_next_insert _ _ _ _ Hp'), list_insert_id by done.
      eapply wp_write_next; rewrite Hptr; [done|]. by destruct s as [[] ?]. }
  intros _ s1 ->. wp_step.
  eapply (wp_mono _ _ (λ _ s', s' = set_heads (<[Z.to_nat k := if pv =? NULL then nx else h]>
            (heads (bd s))) (set_mem (unlink_mem (mem s) (hhdm A) pv nx) s))).
  { unfold unlink_mem. fold m1. destruct (Z.eqb_spec nx NULL) as [|Hnx]; [by wp_step|].
    destruct (Hnext Hnx) as (n & Hnn & _ & Hne).
    assert (Hm1 : m1 !! ptr (hhdm A) nx = Some (mkFreeNode n x)).
    { subst m1. destruct (Z.eqb_spec pv NULL); [done|].
      unfold upd_next. rewrite lookup_alter_ne; [done|]. apply not_eq_sym. auto. }
    rewrite (upd_prev_insert _ _ _ _ Hm1).
    by eapply wp_write_prev; rewrite (node_ptr_off _ (hhdm A)) by apply HR. }
  intros _ s1 ->. by eapply remove_tail.
Qed.

(** The head of a nonempty list leaves it. *)
Lemma pop_head_spec l (Q : Z → pmm → Prop) :
  lists A !! Z.to_nat k = Some (x :: l) →
  (∀ s', Rep s' (set_list k l A) → Q x s') → wp (pop_head k) s Q.
Proof using All.
  intros Hl HQ. destruct (rep_list _ _ HR _ _ Hl) as (h & Hh & Hd).
  destruct (seg_node _ _ _ _ [] _ _ _ Hd) as (nx & Hn & Hs1 & Hx0 & _).
  change (last_of NULL []) with NULL in Hn. simpl in Hs1. subst h.
  pose proof (rep_node_ptr s A HR) as Hptr.
  pose proof (remove_next s A k x [] l x nx NULL HR Hk Hl Hh Hd Hn) as Hnext.
  destruct (rep_len _ _ HR) as [Hlh _].
  unfold pop_head. wp_step. eapply wp_head_of; [lia|done|]. repeat wp_step.
  { by rewrite (proj2 (Z.eqb_neq x NULL)). }
  eapply wp_read_node; [by rewrite Hptr|]. simpl next. wp_step.
  apply wp_put_head; [lia|]. wp_step.
  eapply (wp_mono _ _ (λ _ s', s' = set_heads (<[Z.to_nat k := nx]>
            (heads (bd s))) (set_mem (unlink_mem (mem s) (hhdm A) NULL nx) s))).
  { unfold unlink_mem. rewrite Z.eqb_refl.
    destruct (Z.eqb_spec nx NULL) as [|Hnx]; [wp_step; by destruct s|].
    destruct (Hnext Hnx) as (n & Hnn & _ & _). rewrite (upd_prev_insert _ _ _ _ Hnn).
    by eapply wp_write_prev; rewrite (node_ptr_off _ (hhdm A)) by apply HR. }
  intros _ s1 ->.
  pose proof (remove_tail s A k x [] l x nx NULL HR Hk Hl Hh Hd Hn
    (λ _ s', wp (ret x) s' Q) HQ) as Ht.
  do 2 (apply wp_bind; apply (proj1 (wp_bind_iff _ _ _ _)) in Ht;
        eapply wp_mono; [exact Ht|]; clear Ht; intros ?? Ht).
  by apply wp_bind.
Qed.
End remove_ops.

(** ** Walks *)
Lemma in_free_list_from_spec s off x fuel pv cur l (Q : bool → pmm → Prop) :
  hhdm_offset (bd s) = off → seg (mem s) off pv cur l NULL → (length l < fuel)%nat →
  Q (bool_decide (x ∈ l)) s → wp (in_free_list_from fuel cur x) s Q.
Proof.
  intros Hoff. revert fuel pv cur. induction l as [|y l IH]; intros [|fuel] pv cur Hs Hlen HQ;
    simpl in Hlen; try lia; simpl.
  - simpl in Hs. subst cur. rewrite Z.eqb_refl. by wp_step.
  - destruct Hs as (-> & Hy & n & Hn & Hs). rewrite (proj2 (Z.eqb_neq y NULL)) by done.
    destruct (Z.eqb_spec y x) as [->|Hne].
    + wp_step. rewrite bool_decide_true in HQ by set_solver. done.
    + wp_step. eapply wp_read_node; [by rewrite (node_ptr_off _ off)|]. simpl.
      eapply IH; [done|lia|]. erewrite bool_decide_ext; [exact HQ|]. set_solver.
Qed.

Lemma find_fit_spec s off size max_phys fuel pv cur l (Q : Z → pmm → Prop) :
  hhdm_offset (bd s) = off → seg (mem s) off pv cur l NULL → (length l < fuel)%nat →
  (∀ l1 x l2, l = l1 ++ x :: l2 → x ≠ NULL → Forall (λ y, fits size max_phys y = false) l1 →
     fits size max_phys x = true → Q x s) →
  (Forall (λ y, fits size max_phys y = false) l → Q NULL s) →
  wp (find_fit fuel cur size max_phys) s Q.
Proof.
  intros Hoff. revert fuel pv cur Q. induction l as [|y l IH]; intros [|fuel] pv cur Q Hs Hlen HQ1 HQ2;
    simpl in Hlen; try lia; simpl.
  - simpl in Hs. subst cur. rewrite Z.eqb_refl. wp_step. by apply HQ2.
  - destruct Hs as (-> & Hy & n & Hn & Hs). rewrite (proj2 (Z.eqb_neq y NULL)) by done.
    destruct (fits size max_phys y) eqn:E.
    + wp_step. by apply (HQ1 [] y l).
    + wp_step. eapply wp_read_node; [by rewrite (node_ptr_off _ off)|]. simpl.
      eapply IH; [done|lia| |].
      * intros l1 x l2 -> Hx Hall Hfit. apply (HQ1 (y :: l1) x l2); auto.
      * intros Hall. apply HQ2. by constructor.
Qed.

Section walks.
Context (s : pmm) (A : abs) (k : Z) (l : list Z).
Hypothesis HR : Rep s A.
Hypothesis Hk : 0 ≤ k ≤ 10.
Hypothesis Hl : lists A !! Z.to_nat k = Some l.

Lemma walk_fuel h : dll (mem s) (hhdm A) h l → (length l < list_fuel s)%nat.
Proof using All.
  intros Hd. pose proof (rep_wf _ _ HR) as Hwf. unfold list_fuel.
  pose proof (seg_size _ _ _ _ _ _ (list_u64 _ _ _ Hwf Hl) (list_NoDup _ _ _ Hwf Hl) Hd). lia.
Qed.

Lemma in_free_list_spec x (Q : bool → pmm → Prop) :
  Q (bool_decide (x ∈ l)) s → wp (in_free_list x k) s Q.
Proof using All.
  intros HQ. destruct (rep_list _ _ HR _ _ Hl) as (h & Hh & Hd).
  unfold in_free_list. wp_step. wp_step. wp_step. eapply wp_head_of; [lia|done|].
  eapply in_free_list_from_spec; [apply (rep_off _ _ HR)|done|by eapply walk_fuel|done].
Qed.
End walks.
