(* ===== verification/PmmRuns.v ===== *)
(** * Runs of top-order blocks and the insertion of regions

    [take_run_block], [add_run] and [insert_region] of
    src/crates/core/src/mm/pmm.rs against the abstract state of [PmmRep]. *)

From stdpp Require Import base gmap list numbers strings.
From S2P Require Import Prelude Pmm PmmRep PmmBuddy PmmPrim.

Local Open Scope Z_scope.

Import Pmm.

Local Opaque seqZ.

Definition T : Z := bsize 10.

Lemma T_eq : T = 4194304.
Proof. done. Qed.

Lemma owp_top (Q : Z → Prop) : Q T → owp top Q.
Proof. intros. by apply owp_shl_page. Qed.

(** What is left of a run when its first or its last block is taken. *)
Definition shrink (r : Z * Z) (b : Z) : list (Z * Z) :=
  let rest := if b =? fst r then (fst r + T, snd r) else (fst r, snd r - T) in
  if fst rest <? snd rest then [rest] else [].

Definition at_end (r : Z * Z) (b : Z) : Prop := b = fst r ∨ b = snd r - T.

Ltac run_arith :=
  unfold run_ok, at_end, run_blocks, run_frames, block_frames in *; fold T in *;
  rewrite ?T_eq in *; simpl fst in *; simpl snd in *.

Lemma seqZ_split m n n1 : 0 ≤ n1 ≤ n → seqZ m n = seqZ m n1 ++ seqZ (m + n1) (n - n1).
Proof. intros. rewrite <-seqZ_app by lia. f_equal. lia. Qed.

Lemma shrink_frames A r b :
  run_ok A r → at_end r b →
  run_frames r ≡ₚ block_frames 10 b ++ (shrink r b ≫= run_frames).
Proof.
  intros Hr Hb. destruct r as [st en]. unfold shrink. run_arith. change (2 ^ 10) with 1024.
  destruct (Z.eqb_spec b st) as [->|Hne]; cbn [fst snd].
  - destruct (Z.ltb_spec (st + 4194304) en); cbn [mbind list_bind fst snd].
    + rewrite app_nil_r, (seqZ_split _ _ 1024) by dlia.
      apply reflexive_eq. do 2 f_equal; dlia.
    + rewrite app_nil_r. apply reflexive_eq. f_equal. dlia.
  - destruct Hb as [Hb| ->]; [done|].
    destruct (Z.ltb_spec st (en - 4194304)); cbn [mbind list_bind fst snd]; [|dlia].
    rewrite app_nil_r, (seqZ_split _ _ ((en - 4194304 - st) / 4096)) by dlia.
    rewrite (comm (++)). apply reflexive_eq. f_equal; f_equal; dlia.
Qed.

Lemma shrink_ok A r b r' : run_ok A r → r' ∈ shrink r b → run_ok A r'.
Proof.
  intros Hr. destruct r as [st en]. unfold shrink. run_arith.
  destruct (b =? st); simpl; (case_match eqn:E; [|set_solver]); apply Z.ltb_lt in E;
    intros ->%list_elem_of_singleton; run_arith; split_and!; dlia.
Qed.

Lemma sum_runs_app rs1 rs2 : sum_runs (rs1 ++ rs2) = sum_runs rs1 + sum_runs rs2.
Proof. induction rs1 as [|r rs1 IH]; simpl; [done|]. unfold sum_runs in *. simpl. lia. Qed.

Lemma shrink_blocks A r b :
  run_ok A r → at_end r b → sum_runs (shrink r b) = run_blocks r - 1.
Proof.
  intros Hr Hb. destruct r as [st en]. unfold shrink. run_arith.
  destruct (Z.eqb_spec b st) as [->|Hne]; simpl; case_match eqn:E;
    rewrite ?Z.ltb_lt, ?Z.ltb_ge in E; simpl; run_arith; dlia.
Qed.

(** ** Rewriting the runs of a represented state *)
Lemma frames_with_runs A rs1 rs2 :
  frames (with_runs (rs1 ++ rs2) A) ≡ₚ (rs1 ≫= run_frames) ++ frames (with_runs rs2 A).
Proof. unfold frames. simpl. rewrite bind_app. solve_Permutation. Qed.

Lemma frames_take_run A rs1 r rs2 b :
  truns A = rs1 ++ r :: rs2 → run_ok A r → at_end r b →
  frames A ≡ₚ block_frames 10 b ++ frames (with_runs (rs1 ++ shrink r b ++ rs2) A).
Proof.
  intros Hrs Hr Hb. unfold frames. simpl. rewrite Hrs, !bind_app, bind_cons.
  rewrite (shrink_frames A r b) by done. solve_Permutation.
Qed.

Lemma wf_with_runs A rs :
  wf A → (∀ r, r ∈ rs → run_ok A r) → NoDup (frames (with_runs rs A)) →
  frames (with_runs rs A) ⊆ owned A → wf (with_runs rs A).
Proof. intros [] Hrs Hnd Hsub. split; simpl; naive_solver. Qed.

Lemma rep_runs_update s A rs rs' c n l :
  Rep s A → lists A !! 10%nat = Some l → wf (with_runs rs A) →
  length rs' = 16%nat → take (length rs) rs' = rs →
  c = total_blocks 10 rs l → n = Z.of_nat (length (frames (with_runs rs A))) →
  Rep (set_free_frames n (set_counts (<[10%nat := c]> (counts (bd s)))
         (set_runs rs' (Z.of_nat (length rs)) s))) (with_runs rs A).
Proof.
  intros HR Hl Hwf Hlen Htake -> ->.
  destruct HR as [_ [Hlh Hlc] Hlist Hcount Hfree Htot Hoff Hspan Hruns].
  split; simpl; [done|by rewrite length_insert|done| |done|done|done|done|done].
  intros k l0 Hk. destruct (decide (k = 10%nat)) as [->|Hne].
  - rewrite list_lookup_insert_eq by lia. by simplify_eq.
  - rewrite list_lookup_insert_ne by done. rewrite (Hcount _ _ Hk).
    unfold total_blocks. by rewrite !decide_False.
Qed.

Lemma copy_down_spec {X} (l rs1 rs2 : list X) r :
  take (length (rs1 ++ r :: rs2)) l = rs1 ++ r :: rs2 →
  let l' := copy_down l (length rs1) (length (rs1 ++ r :: rs2)) in
  length l' = length l ∧ take (length (rs1 ++ rs2)) l' = rs1 ++ rs2.
Proof.
  intros Ht. set (n := length (rs1 ++ r :: rs2)) in *.
  assert (Hl : l = (rs1 ++ r :: rs2) ++ drop n l) by (by rewrite <-Ht at 1; rewrite take_drop).
  assert (Hn : n = (length rs1 + S (length rs2))%nat) by (subst n; by rewrite length_app).
  unfold copy_down. rewrite Ht.
  assert (Hd : drop (S (length rs1)) (rs1 ++ r :: rs2) = rs2).
  { rewrite drop_app_ge by lia. by replace (S (length rs1) - length rs1)%nat with 1%nat by lia. }
  rewrite Hd. assert (Ht1 : take (length rs1) l = rs1).
  { rewrite Hl, take_app_le, take_app_le, take_ge by (rewrite ?length_app; simpl; lia). done. }
  rewrite Ht1, (assoc (++)). split.
  - rewrite !length_app, length_drop.
    apply (f_equal length) in Hl. rewrite !length_app, length_drop in Hl. simpl in Hl. lia.
  - rewrite take_app_le, take_ge by lia. done.
Qed.

(** ** take_run_block *)
Section take_run.
Context (s : pmm) (A : abs).
Hypothesis HR : Rep s A.

Lemma runs_lookup i r : truns A !! i = Some r → runs (bd s) !! i = Some r.
Proof using HR.
  intros Hi. destruct (rep_runs _ _ HR) as (_ & _ & Ht). rewrite <-Ht in Hi.
  by apply lookup_take_Some in Hi as [? _].
Qed.

(** The array of runs after one block is taken from run [length rs1]. *)
Lemma shrink_array rs1 r rs2 b (Q : unit → pmm → Prop) rest :
  truns A = rs1 ++ r :: rs2 → at_end r b → run_ok A r →
  rest = (if b =? fst r then (fst r + T, snd r) else (fst r, snd r - T)) →
  (∀ rs', length rs' = 16%nat →
     take (length (rs1 ++ shrink r b ++ rs2)) rs' = rs1 ++ shrink r b ++ rs2 →
     Q tt (set_runs rs' (Z.of_nat (length (rs1 ++ shrink r b ++ rs2))) s)) →
  wp (if fst rest <? snd rest
      then rs <- lift (store (runs (bd s)) (Z.of_nat (length rs1)) rest);;
           put (set_runs rs (nruns (bd s)) s)
      else if nruns (bd s) <=? Z.of_nat (length (runs (bd s)))
      then n' <- lift (subc 64 (nruns (bd s)) 1);;
           put (set_runs (copy_down (runs (bd s)) (length rs1) (Z.to_nat (nruns (bd s)))) n' s)
      else lift (Panic PIndex)) s Q.
Proof using HR.
  intros Hrs Hb Hr -> HQ. destruct (rep_runs _ _ HR) as (Hlen & Hn & Ht).
  assert (Hle : (length (truns A) ≤ 16)%nat).
  { rewrite <-Hlen, <-Ht at 1. rewrite length_take. lia. }
  rewrite Hrs in Hn, Ht, Hle. rewrite length_app, length_cons in Hle.
  revert HQ. unfold shrink. set (rest := if b =? fst r then _ else _).
  destruct (fst rest <? snd rest); intros HQ.
  - repeat wp_step. apply owp_store; [lia|]. rewrite Nat2Z.id. wp_step.
    rewrite Hn. rewrite !length_app, !length_cons in *. simpl in HQ. apply HQ.
    + by rewrite length_insert.
    + rewrite take_insert_lt, Ht by lia.
      by rewrite <-(Nat.add_0_r (length rs1)), insert_app_r.
  - rewrite Hlen, Hn, (proj2 (Z.leb_le _ _)) by (rewrite length_app, length_cons; lia).
    repeat wp_step; [unfold in_width; rewrite length_app, length_cons; lia|]. repeat wp_step.
    rewrite Nat2Z.id. destruct (copy_down_spec (runs (bd s)) rs1 rs2 r Ht) as [H1 H2].
    replace (Z.of_nat (length (rs1 ++ r :: rs2)) - 1)
      with (Z.of_nat (length (rs1 ++ [] ++ rs2)))
      by (rewrite !length_app, !length_cons; simpl; lia).
    apply HQ; [by rewrite H1|done].
Qed.

Lemma wf_taken rs1 r rs2 b :
  truns A = rs1 ++ r :: rs2 → run_ok A r → at_end r b →
  wf (with_runs (rs1 ++ shrink r b ++ rs2) A).
Proof using HR.
  intros Hrs Hr Hb. pose proof (rep_wf _ _ HR) as Hwf.
  pose proof (frames_take_run A rs1 r rs2 b Hrs Hr Hb) as Hp.
  pose proof (wf_nodup _ Hwf) as Hnd. rewrite Hp in Hnd.
  apply NoDup_app in Hnd as (_ & _ & Hnd).
  destruct (wf_owned _ Hwf) as (_ & Hsub & _). apply wf_with_runs; [done| |done|].
  - intros r' Hr'. rewrite !elem_of_app in Hr'.
    destruct Hr' as [?|[?|?]]; [|by eapply shrink_ok|];
      apply (wf_run _ Hwf); rewrite Hrs; set_solver.
  - intros f Hf. apply Hsub. rewrite Hp. set_solver.
Qed.

(** The counters after the array of runs is rewritten. *)
Lemma take_run_tail rs1 r rs2 b rs' (Q : option Z → pmm → Prop) :
  truns A = rs1 ++ r :: rs2 → run_ok A r → at_end r b →
  length rs' = 16%nat →
  take (length (rs1 ++ shrink r b ++ rs2)) rs' = rs1 ++ shrink r b ++ rs2 →
  (∀ s', Rep s' (with_runs (rs1 ++ shrink r b ++ rs2) A) → Q (Some b) s') →
  wp (counts_sub MAX_ORDER 1;; sz <- lift (shlc 64 1 MAX_ORDER);; free_frames_sub sz;;
      ret (Some b))
     (set_runs rs' (Z.of_nat (length (rs1 ++ shrink r b ++ rs2))) s) Q.
Proof using HR.
  intros Hrs Hr Hb Hlen Ht HQ. pose proof (rep_wf _ _ HR) as Hwf.
  destruct (order_lookup A 10 Hwf) as [l Hl]; [lia|]. change (Z.to_nat 10) with 10%nat in Hl.
  pose proof (rep_count _ _ HR _ _ Hl) as Hc.
  pose proof (total_blocks_bound _ _ _ Hwf Hl) as Hbd.
  pose proof (frames_bound _ Hwf). pose proof (owned_bound _ Hwf).
  pose proof (Permutation_length (frames_take_run A rs1 r rs2 b Hrs Hr Hb)) as Hfl.
  rewrite length_app, length_block_frames in Hfl. change (Z.to_nat (2 ^ 10)) with 1024%nat in Hfl.
  pose proof (rep_free _ _ HR).
  destruct (sum_runs_frames A (truns A)) as [Hs1 Hs2]; [apply Hwf|].
  pose proof (wf_taken _ _ _ _ Hrs Hr Hb) as Hwf'.
  destruct (sum_runs_frames A (rs1 ++ shrink r b ++ rs2)) as [_ Hs3]; [apply Hwf'|].
  assert (Hsum : sum_runs (rs1 ++ shrink r b ++ rs2) = sum_runs (truns A) - 1).
  { rewrite Hrs, !sum_runs_app, (shrink_blocks A) by done.
    change (r :: rs2) with ([r] ++ rs2). rewrite sum_runs_app. simpl. lia. }
  wp_step. eapply wp_counts_sub; [done|done| |].
  { unfold total_blocks, in_width in *. rewrite decide_True in * by done. lia. }
  repeat wp_step. apply owp_shl_one; [done|]. wp_step. apply wp_free_frames_sub.
  { simpl. unfold in_width. change (2 ^ MAX_ORDER) with 1024. lia. }
  wp_step. apply HQ. eapply (rep_runs_update s A _ rs'); [done..| |].
  - unfold total_blocks. rewrite !decide_True by done. lia.
  - simpl. change (2 ^ MAX_ORDER) with 1024. lia.
Qed.

Context (pick : Z → Z → outcome (option Z)).
(** [pick] names the first or the last block of a run, or none. *)
Hypothesis Hpick : ∀ r, r ∈ truns A →
  ∃ o, pick (fst r) (snd r) = Ret o ∧ ∀ b, o = Some b → at_end r b.

Lemma take_run_from_spec i (Q : option Z → pmm → Prop) :
  (i ≤ length (truns A))%nat →
  ((∀ r, r ∈ take i (truns A) → pick (fst r) (snd r) = Ret None) → Q None s) →
  (∀ rs1 r rs2 b s', truns A = rs1 ++ r :: rs2 → pick (fst r) (snd r) = Ret (Some b) →
     at_end r b → Rep s' (with_runs (rs1 ++ shrink r b ++ rs2) A) → Q (Some b) s') →
  wp (take_run_from i pick) s Q.
Proof using All.
  induction i as [|i IH]; intros Hi HNone HSome; simpl.
  { wp_step. apply HNone. simpl. set_solver. }
  destruct (lookup_lt_is_Some_2 (truns A) i) as [r Hri]; [lia|].
  destruct (Hpick r) as (o & Ho & Hend); [by eapply list_elem_of_lookup_2|].
  repeat wp_step. apply owp_top. rewrite (runs_lookup _ _ Hri).
  destruct r as [st en] eqn:Er. repeat wp_step. simpl in Ho. rewrite Ho.
  apply owp_ret. destruct o as [b|].
  - assert (Hok : run_ok A r) by (eapply wf_run; [apply HR|]; subst; by eapply list_elem_of_lookup_2).
    specialize (Hend b eq_refl). rewrite <-Er in Hend.
    destruct (list_elem_of_split_length _ _ _ Hri) as (rs1 & rs2 & Hrs & Hlen).
    rewrite <-Er in Hrs.
    assert (u64 st ∧ u64 en ∧ T ≤ en ∧ u64 (st + T)) as (Hst & Hen & HT & HsT).
    { pose proof (wf_hi _ (rep_wf _ _ HR)). subst r. run_arith. unfold in_width.
      split_and!; dlia. }
    wp_step. eapply (wp_mono _ _ (λ a s', a = true ∧ s' = s)).
    { destruct (Z.eqb_spec b st); [by wp_step|]. unfold in_width in *.
      repeat wp_step; [unfold in_width; rewrite T_eq in *; lia|].
      split; [|done]. apply Z.eqb_eq. subst r. by destruct Hend. }
    intros ? s1 [-> ->]. repeat wp_step; [done|].
    eapply (wp_mono _ _ (λ a s', s' = s ∧
      a = if b =? fst r then (fst r + T, snd r) else (fst r, snd r - T))).
    { subst r. simpl. unfold in_width in *.
      by destruct (Z.eqb_spec b st);
        (repeat wp_step; [unfold in_width; rewrite T_eq in *; lia|]). }
    intros rest s1 [-> Hrest]. wp_step. subst i.
    eapply (shrink_array rs1 r rs2 b); [done..|]. intros rs' Hl' Ht'.
    apply take_run_tail; [done..|]. intros s' HR'. apply (HSome rs1 r rs2 b); [done|by rewrite Er|done|done].
  - apply IH; [lia| |done]. intros Hall. apply HNone. intros r' Hr'.
    rewrite (take_S_r _ _ _ Hri) in Hr'. set_solver.
Qed.
End take_run.

(** ** add_run *)
Definition extended (old : list (Z * Z)) (st en : Z) (rs : list (Z * Z)) : Prop :=
  (∃ rs0 f, old = rs0 ++ [(f, st)] ∧ rs = rs0 ++ [(f, en)]) ∨ rs = old ++ [(st, en)].

Lemma add_run_spec s A st en (Q : bool → pmm → Prop) :
  Rep s A → st < en →
  (∀ rs rs', length rs' = 16%nat → take (length rs) rs' = rs → extended (truns A) st en rs →
     Q true (set_runs rs' (Z.of_nat (length rs)) s)) →
  (length (truns A) = 16%nat → Q false s) →
  wp (add_run st en) s Q.
Proof.
  intros HR Hlt HQ1 HQ2. destruct (rep_runs _ _ HR) as (Hlen & Hn & Ht).
  assert (Hle : (length (truns A) ≤ 16)%nat).
  { rewrite <-Hlen, <-Ht at 1. rewrite length_take. lia. }
  unfold add_run. rewrite (proj2 (Z.leb_gt _ _)) by lia. repeat wp_step. rewrite Hn.
  (* a free slot, or none *)
  assert (Hslot : wp match get_at (runs (bd s)) (Z.of_nat (length (truns A))) with
      | Some _ => n' <- lift (addc 64 (Z.of_nat (length (truns A))) 1);;
                  put (set_runs (<[Z.to_nat (Z.of_nat (length (truns A))) := (st, en)]>
                                   (runs (bd s))) n' s);; ret true
      | None => ret false
      end s Q).
  { unfold get_at. rewrite (proj2 (Z.leb_le 0 _)), Nat2Z.id by lia.
    destruct (runs (bd s) !! length (truns A)) eqn:E.
    - repeat wp_step; [unfold in_width; lia|]. apply lookup_lt_Some in E.
      replace (Z.of_nat (length (truns A)) + 1) with (Z.of_nat (length (truns A ++ [(st, en)])))
        by (rewrite length_app; simpl; lia).
      apply HQ1; [by rewrite length_insert| |by right].
      rewrite length_app, Nat.add_1_r. erewrite take_S_r; [|by apply list_lookup_insert_eq].
      by rewrite take_insert_ge, Ht by lia.
    - apply lookup_ge_None in E. wp_step. apply HQ2. lia. }
  destruct (truns A) as [|r0 rs0 _] eqn:Er using rev_ind; [exact Hslot|].
  assert (Hlast : get_at (runs (bd s)) (Z.of_nat (length (rs0 ++ [r0])) - 1) = Some r0).
  { unfold get_at. rewrite length_app in *. simpl in *.
    rewrite (proj2 (Z.leb_le 0 _)) by lia.
    apply (runs_lookup s A HR). rewrite Er, lookup_app_r by lia.
    by replace (Z.to_nat _ - _)%nat with 0%nat by lia. }
  rewrite Hlast. destruct (Z.eqb_spec (snd r0) st) as [Hst|]; [|exact Hslot].
  repeat wp_step. destruct r0 as [f st']. simpl in *. subst st'.
  replace (Z.of_nat (length (rs0 ++ [(f, st)]))) with (Z.of_nat (length (rs0 ++ [(f, en)])))
    by (by rewrite !length_app).
  apply HQ1; [by rewrite length_insert| |left; eauto].
  rewrite length_app in *. simpl in *. rewrite take_insert_lt, Ht by lia.
  replace (Z.to_nat _) with (length rs0 + 0)%nat by lia. by rewrite insert_app_r.
Qed.

Section extended.
Context (A : abs) (st en : Z) (rs : list (Z * Z)).
Hypothesis Hex : extended (truns A) st en rs.
Hypothesis Hold : ∀ r, r ∈ truns A → run_ok A r.
Hypothesis Hnew : run_ok A (st, en).

Lemma extended_ok r : r ∈ rs → run_ok A r.
Proof using All.
  destruct Hex as [(rs0 & f & Heq & ->)| ->].
  - assert (run_ok A (f, st)) by (apply Hold; rewrite Heq; set_solver).
    intros [Hr|Hr]%elem_of_app; [apply Hold; rewrite Heq; set_solver|].
    apply list_elem_of_singleton in Hr as ->. run_arith. lia.
  - set_solver.
Qed.

Lemma extended_frames :
  rs ≫= run_frames ≡ₚ run_frames (st, en) ++ (truns A ≫= run_frames).
Proof using All.
  destruct Hex as [(rs0 & f & Heq & ->)| ->]; [|rewrite bind_app, bind_cons, app_nil_r; by rewrite (comm (++))].
  assert (Hf : run_ok A (f, st)) by (apply Hold; rewrite Heq; set_solver).
  rewrite Heq, !bind_app, !bind_cons, !app_nil_r.
  assert (Hs : run_frames (f, en) = run_frames (f, st) ++ run_frames (st, en)).
  { run_arith. rewrite (seqZ_split _ _ ((st - f) / 4096)) by dlia. do 2 f_equal; dlia. }
  rewrite Hs. solve_Permutation.
Qed.

Lemma frames_extended : frames (with_runs rs A) ≡ₚ run_frames (st, en) ++ frames A.
Proof using All. unfold frames. simpl. rewrite extended_frames. solve_Permutation. Qed.

Lemma extended_blocks : sum_runs rs = sum_runs (truns A) + run_blocks (st, en).
Proof using All.
  destruct Hex as [(rs0 & f & Heq & ->)| ->]; [|rewrite sum_runs_app; simpl; lia].
  assert (Hf : run_ok A (f, st)) by (apply Hold; rewrite Heq; set_solver).
  rewrite Heq, !sum_runs_app. simpl. run_arith. dlia.
Qed.
End extended.

(** ** Handing frames over *)
Definition grow (fs : list Z) (A : abs) : abs :=
  mkAbs (lists A) (truns A) (fs ++ owned A) (lo A) (hi A) (hhdm A).

Definition fresh (A : abs) (fs : list Z) : Prop :=
  NoDup fs ∧ ∀ f, f ∈ fs → f ∉ owned A ∧ 1 ≤ f ∧ lo A ≤ 4096 * f ∧ 4096 * (f + 1) ≤ hi A.

Lemma wf_grow A fs : wf A → fresh A fs → wf (grow fs A).
Proof.
  intros [Hlen Hhi Hblk Hrun Hnd (Ho & Hsub & Hb)] [Hfs Hfr].
  split; simpl; [done|done|done|done|done|]. split_and!.
  - apply NoDup_app. split_and!; [done| |done]. intros f Hf. by apply Hfr.
  - intros f Hf. apply elem_of_app. right. by apply Hsub.
  - intros f [Hf|Hf]%elem_of_app; [|by apply Hb]. by apply Hfr.
Qed.

Lemma rep_grow s A fs :
  Rep s A → fresh A fs →
  Rep (set_total_frames (total_frames (bd s) + Z.of_nat (length fs)) s) (grow fs A) ∧
  0 ≤ total_frames (bd s) + Z.of_nat (length fs) ≤ 2 ^ 52.
Proof.
  intros HR Hfr. assert (Hwf : wf (grow fs A)) by (apply wf_grow; [apply HR|done]).
  pose proof (owned_bound _ Hwf) as Hb. simpl in Hb. rewrite length_app in Hb.
  destruct HR as [_ Hl Hlist Hcount Hfree Htot Hoff Hspan Hruns]. split; [|lia].
  split; simpl; [done|done|done|done|done| |done|done|done].
  rewrite length_app. lia.
Qed.

(** ** insert_region *)
Lemma order_at_spec a b (Q : Z → Prop) :
  a mod 4096 = 0 → b mod 4096 = 0 → 4096 ≤ a < b → b < 2 ^ 64 →
  (∀ k, 0 ≤ k ≤ 10 → a mod bsize k = 0 → a + bsize k ≤ b → greatest k a b → Q k) →
  owp (order_at a b) Q.
Proof.
  intros Ha Hb Hab Hb64 HQ. unfold order_at. rewrite PAGE_SIZE_eq. unfold PAGE_BITS, MAX_ORDER.
  assert (Htz : 12 ≤ trailing_zeros 64 a) by (apply trailing_zeros_divide; [lia|lia|done]).
  assert (Htz' : trailing_zeros 64 a < 64)
    by (destruct (trailing_zeros_spec 64 a) as (m & ? & _); lia).
  repeat wp_step; [unfold in_width; lia..|].
  unfold ilog2. rewrite (proj2 (Z.ltb_lt 0 _)) by dlia. repeat wp_step.
  set (pages := (b - a) / 4096). set (k := Z.min _ _).
  assert (Hk : 0 ≤ k ≤ 10) by (pose proof (Z.log2_nonneg pages); lia).
  assert (Hp : 0 < pages) by (subst pages; dlia).
  pose proof (Z.log2_spec pages Hp) as [Hlog Hlog']. rewrite <-Z.add_1_r in Hlog'.
  apply HQ; [done| | |].
  - unfold bsize. apply (trailing_zeros_divide 64); lia.
  - rewrite bsize_frames by lia. pose proof (pow2_le k (Z.log2 pages)). subst pages. dlia.
  - intros Hk10 Hal. apply (trailing_zeros_divide 64) in Hal; [|lia..].
    assert (k = Z.log2 pages) as -> by lia. rewrite bsize_frames by lia. subst pages. dlia.
Qed.

(** The frames of the pages of [[a, b)]. *)
Definition page_frames (a b : Z) : list Z := seqZ (a / 4096) ((b - a) / 4096).

Lemma elem_of_page_frames a b f :
  a mod 4096 = 0 → b mod 4096 = 0 → f ∈ page_frames a b ↔ a ≤ 4096 * f ∧ 4096 * (f + 1) ≤ b.
Proof. intros. unfold page_frames. rewrite elem_of_seqZ. dlia. Qed.

Lemma page_frames_split a c b :
  a mod 4096 = 0 → c mod 4096 = 0 → b mod 4096 = 0 → a ≤ c ≤ b →
  page_frames a b = page_frames a c ++ page_frames c b.
Proof.
  intros. unfold page_frames. rewrite (seqZ_split _ _ ((c - a) / 4096)) by dlia.
  do 2 f_equal; dlia.
Qed.

Lemma page_frames_block k a :
  0 ≤ k → a mod 4096 = 0 → page_frames a (a + bsize k) = block_frames k a.
Proof.
  intros. unfold page_frames, block_frames. f_equal. rewrite bsize_frames by lia. dlia.
Qed.

Lemma page_frames_fresh A a c b :
  a mod 4096 = 0 → c mod 4096 = 0 → b mod 4096 = 0 → a ≤ c ≤ b →
  fresh A (page_frames a b) →
  fresh A (page_frames a c) ∧ fresh (grow (page_frames a c) A) (page_frames c b).
Proof.
  intros Ha Hc Hb Hacb. rewrite (page_frames_split a c b) by done.
  intros [Hnd Hfr]. apply NoDup_app in Hnd as (Hn1 & Hd & Hn2).
  split; (split; [done|]); intros f Hf; destruct (Hfr f) as (Ho & Hrest); [set_solver| |set_solver|].
  - done.
  - split; [|done]. simpl. rewrite elem_of_app. intros [?|?]; [by apply (Hd f)|done].
Qed.

(** What a step of the insertion establishes. *)
Definition inserted (fs : list Z) (A A' : abs) : Prop :=
  owned A' ≡ₚ fs ++ owned A ∧ frames A' ≡ₚ fs ++ frames A ∧
  lo A' = lo A ∧ hi A' = hi A ∧ hhdm A' = hhdm A.

Lemma inserted_trans fs1 fs2 A B C :
  inserted fs1 A B → inserted fs2 B C → inserted (fs1 ++ fs2) A C.
Proof.
  intros (H1 & H2 & H3 & H4 & H5) (H1' & H2' & H3' & H4' & H5'). unfold inserted.
  rewrite H1', H1, H2', H2. split_and!; [solve_Permutation..|congruence|congruence|congruence].
Qed.

Section insert.
Context (s : pmm) (A : abs) (a : Z).
Hypothesis HR : Rep s A.
Hypothesis Ha : a mod 4096 = 0.
Hypothesis Ha0 : 4096 ≤ a ∧ lo A ≤ a.

Lemma link_block_spec k (Q : Z → pmm → Prop) :
  0 ≤ k ≤ 10 → a mod bsize k = 0 → a + bsize k ≤ hi A →
  fresh A (page_frames a (a + bsize k)) →
  (∀ s' l, lists A !! Z.to_nat k = Some l →
     let A' := set_list k (a :: l) (grow (page_frames a (a + bsize k)) A) in
     Rep s' A' → inserted (page_frames a (a + bsize k)) A A' → Q (a + bsize k) s') →
  wp (link_block a k) s Q.
Proof using All.
  intros Hk Hak Hhi Hfr HQ. set (fs := page_frames a (a + bsize k)) in *.
  destruct (rep_grow s A fs HR Hfr) as [HR' Hb].
  assert (Hfs : fs = block_frames k a) by (apply page_frames_block; [lia|done]).
  assert (Hlen : Z.of_nat (length fs) = 2 ^ k).
  { rewrite Hfs, length_block_frames. pose proof (pow2_pos k). lia. }
  rewrite Hlen in *. pose proof (wf_hi _ (rep_wf _ _ HR)). pose proof (bsize_pos k).
  destruct (order_lookup (grow fs A) k (rep_wf _ _ HR') Hk) as [l Hl].
  unfold link_block. repeat wp_step. apply owp_shl_one; [done|]. wp_step.
  apply wp_total_frames_add; [unfold in_width; lia|]. wp_step.
  eapply (push_free_spec _ (grow fs A)); [done|done|done| | |].
  - split_and!; simpl; [done|lia|lia|lia].
  - intros f Hf. rewrite <-Hfs in Hf. destruct Hfr as [_ Hfr]. destruct (Hfr f Hf) as [Ho _].
    split; [simpl; set_solver|]. intros Hin. apply Ho.
    by apply (wf_owned _ (rep_wf _ _ HR)).
  - intros s1 HR1. repeat wp_step. apply owp_shl_page; [done|].
    wp_step. wp_step; [unfold in_width; lia|]. eapply HQ; [done|done|].
    split_and!; simpl; [done| |done|done|done].
    rewrite (frames_push (grow fs A)) by (done || lia). by rewrite <-Hfs.
Qed.

(** The run branch, for [n] whole top-order blocks from [a]. *)
Lemma add_run_step en rs rs' (Q : unit → pmm → Prop) K :
  a mod T = 0 → en mod T = 0 → a < en → en ≤ hi A →
  fresh A (page_frames a en) →
  length rs' = 16%nat → take (length rs) rs' = rs → extended (truns A) a en rs →
  (∀ s', let A' := with_runs rs (grow (page_frames a en) A) in
     Rep s' A' → inserted (page_frames a en) A A' → wp K s' Q) →
  wp (frames <- lift (shlc 64 ((en - a) / T) MAX_ORDER);;
      total_frames_add frames;;
      counts_add MAX_ORDER ((en - a) / T);;
      free_frames_add frames;; K)
     (set_runs rs' (Z.of_nat (length rs)) s) Q.
Proof using All.
  intros HaT HeT Hlt Hhi Hfr Hlen Ht Hex HQ. set (fs := page_frames a en) in *.
  destruct (rep_grow s A fs HR Hfr) as [HR1 Hb]. pose proof (rep_wf _ _ HR1) as Hwf1.
  pose proof (wf_hi _ Hwf1) as Hw. simpl in Hw.
  assert (Hrun : run_ok (grow fs A) (a, en)) by (run_arith; simpl; lia).
  assert (Hfs : fs = run_frames (a, en)) by done.
  assert (Hn : Z.of_nat (length fs) = 1024 * ((en - a) / T)).
  { rewrite Hfs. by apply (length_run_frames (grow fs A)). }
  assert (Hruns : ∀ r, r ∈ truns (grow fs A) → run_ok (grow fs A) r) by apply Hwf1.
  pose proof (frames_extended (grow fs A) a en rs Hex Hruns Hrun) as Hp. rewrite <-Hfs in Hp.
  destruct (wf_owned _ (rep_wf _ _ HR)) as (_ & Hsub & _). destruct Hfr as [Hnd Hfr].
  assert (Hwf2 : wf (with_runs rs (grow fs A))).
  { apply wf_with_runs; [done|by eapply extended_ok| |].
    - rewrite Hp. apply NoDup_app. split_and!; [done| |apply (rep_wf _ _ HR)].
      intros f Hf Hin. destruct (Hfr f Hf) as [Ho _]. apply Ho. by apply Hsub.
    - intros f. rewrite Hp. simpl. rewrite !elem_of_app. intros [?|Hf]; [by left|].
      right. by apply Hsub. }
  destruct (order_lookup A 10 (rep_wf _ _ HR)) as [l Hl]; [lia|].
  change (Z.to_nat 10) with 10%nat in Hl. pose proof (rep_count _ _ HR1 _ _ Hl) as Hc.
  pose proof (total_blocks_bound (with_runs rs (grow fs A)) _ _ Hwf2 Hl) as Hb2.
  pose proof (frames_bound _ Hwf2). pose proof (owned_bound _ Hwf2).
  assert (Hsum : total_blocks 10 rs l = total_blocks 10 (truns A) l + (en - a) / T).
  { unfold total_blocks. rewrite !decide_True by done.
    rewrite (extended_blocks (grow fs A) a en rs) by done. unfold run_blocks. simpl.
    fold T. lia. }
  pose proof (Permutation_length Hp) as Hpl. rewrite length_app in Hpl. simpl truns in *.
  pose proof (rep_free _ _ HR1) as Hfree. simpl in Hfree.
  assert (Hpos : 0 ≤ (en - a) / T) by (rewrite T_eq; dlia).
  repeat wp_step. apply owp_shlc; [done|change (2 ^ MAX_ORDER) with 1024; lia|].
  change (2 ^ MAX_ORDER) with 1024. rewrite (Z.mul_comm _ 1024), <-Hn.
  wp_step. apply wp_total_frames_add; [simpl; unfold in_width; lia|].
  wp_step. eapply wp_counts_add; [done|done|unfold in_width; lia|].
  wp_step. apply wp_free_frames_add; [simpl; unfold in_width; simpl in *; lia|].
  apply HQ; [|by split_and!].
  eapply (rep_runs_update _ _ rs rs' _ _ l HR1); [done..|by rewrite Hsum|simpl; lia].
Qed.
End insert.

(** The region is cut so that it stays coalesced when no free block touches it. *)
Definition cut_ok (A : abs) (a b : Z) : Prop :=
  coalesced A ∧ left_ok A a b ∧ b / 4096 ∉ frames A.

Section cut.
Context (A : abs) (a b : Z).
Hypothesis Hwf : wf A.
Hypothesis Ha : a mod 4096 = 0.
Hypothesis Hb : b mod 4096 = 0.
Hypothesis Hfr : fresh A (page_frames a b).

Lemma fresh_not_free f : a ≤ 4096 * f → 4096 * (f + 1) ≤ b → f ∉ frames A.
Proof using All.
  intros H1 H2 Hf. destruct Hfr as [_ Hfr'].
  destruct (Hfr' f) as [Hn _]; [by apply elem_of_page_frames|]. by apply Hn, (wf_owned _ Hwf).
Qed.

Lemma cut_block k l :
  0 ≤ k ≤ 10 → lists A !! Z.to_nat k = Some l → a mod bsize k = 0 → a + bsize k ≤ b →
  greatest k a b → cut_ok A a b →
  cut_ok (set_list k (a :: l) (grow (page_frames a (a + bsize k)) A)) (a + bsize k) b.
Proof using All.
  intros Hk Hl Hal Hab Hmax (Hco & Hleft & Hbf). set (fs := page_frames _ _).
  assert (Hnf : ∀ f, f ∈ block_frames k a → f ∉ frames A).
  { intros f Hf%elem_of_block_frames; [|lia|done]. apply fresh_not_free; lia. }
  split_and!.
  - apply (coalesced_push (grow fs A) k l); [done|lia|done|done|]. intros ?.
    by eapply (cut_buddy A k l a b); [|lia|..].
  - eapply (left_ok_push A); done.
  - rewrite (frames_push (grow fs A)), elem_of_app by (done || lia). intros [Hf|Hf]; [|done].
    apply elem_of_block_frames in Hf; [|lia|done]. dlia.
Qed.

Lemma cut_run en rs :
  a < en → en mod 4096 = 0 → en ≤ b →
  wf (with_runs rs (grow (page_frames a en) A)) →
  inserted (page_frames a en) A (with_runs rs (grow (page_frames a en) A)) →
  cut_ok A a b → cut_ok (with_runs rs (grow (page_frames a en) A)) en b.
Proof using All.
  intros Hlt He Heb Hwf' (_ & Hp & _) (Hco & Hleft & Hbf). split_and!; [done| |].
  - apply (left_ok_free A); [done|]. apply fresh_not_free; dlia.
  - rewrite Hp, elem_of_app. intros [Hf|Hf]; [|done].
    apply elem_of_page_frames in Hf; [|done..]. dlia.
Qed.
End cut.

Lemma insert_loop_spec fuel s A a b (Q : unit → pmm → Prop) :
  Rep s A → a mod 4096 = 0 → b mod 4096 = 0 → 4096 ≤ a → lo A ≤ a → b ≤ hi A →
  a ≤ b → fresh A (page_frames a b) → (b - a) / 4096 < Z.of_nat fuel →
  (∀ s' A', Rep s' A' → inserted (page_frames a b) A A' →
     (cut_ok A a b → coalesced A') → Q tt s') →
  wp (insert_loop fuel a b) s Q.
Proof.
  revert s A a. induction fuel as [|fuel IH];
    intros s A a HR Ha Hb Ha0 Hlo Hhi Hab Hfr Hfuel HQ; [dlia|]. simpl.
  destruct (Z.ltb_spec a b) as [Hlt|Hge]; last first.
  { wp_step. apply (HQ s A HR); [|by intros (? & _)]. assert (page_frames a b = []) as ->.
    { unfold page_frames. assert ((b - a) / 4096 = 0) as -> by dlia. done. }
    by split_and!. }
  pose proof (wf_hi _ (rep_wf _ _ HR)).
  (* the rest, once [[a, c)] is in *)
  assert (Hrest : ∀ s1 A1 c, Rep s1 A1 → c mod 4096 = 0 → a < c ≤ b →
    inserted (page_frames a c) A A1 → owned A1 = page_frames a c ++ owned A →
    (cut_ok A a b → cut_ok A1 c b) → wp (insert_loop fuel c b) s1 Q).
  { intros s1 A1 c HR1 Hc Hac Hins Hown Hcut. pose proof Hins as (_ & _ & Hlo1 & Hhi1 & _).
    destruct (page_frames_fresh A a c b) as [_ [Hnd Hf2]]; [done..|lia|done|].
    eapply (IH s1 A1); [done|done|done|lia|lia|lia|lia| |dlia|].
    - split; [done|]. rewrite Hown, Hlo1, Hhi1. exact Hf2.
    - intros s2 A2 HR2 Hins2 Hco2. apply (HQ s2 A2 HR2); [|auto].
      rewrite (page_frames_split a c b) by (done || lia). by eapply inserted_trans. }
  (* one block linked, then the rest *)
  assert (Hlink : ∀ k, 0 ≤ k ≤ 10 → a mod bsize k = 0 → a + bsize k ≤ b → greatest k a b →
    wp (a' <- link_block a k;; insert_loop fuel a' b) s Q).
  { intros k Hk Hak Hkb Hmax. wp_step. pose proof (bsize_le k Hk). pose proof (bsize_pos k).
    assert (Hc : (a + bsize k) mod 4096 = 0) by (rewrite bsize_frames by lia; dlia).
    destruct (page_frames_fresh A a (a + bsize k) b) as [Hf1 _]; [done..|lia|done|].
    eapply link_block_spec; [done|done|done|done|done|lia|done|].
    intros s1 l Hl A1 HR1 Hins. eapply Hrest; [done|done|lia|done|done|].
    apply cut_block; try done. apply HR. }
  wp_step. apply wp_lift, order_at_spec; [done..|lia|lia|]. intros k Hk Hak Hkb Hmax.
  destruct (Z.eqb_spec k MAX_ORDER) as [->|]; [|by apply Hlink].
  change (bsize MAX_ORDER) with T in *. rewrite T_eq in *.
  repeat wp_step. apply owp_top. rewrite T_eq.
  wp_step. wp_step. wp_step; [unfold in_width; lia|]. wp_step.
  set (n := (b - a) / 4194304). assert (Hn : 1 ≤ n) by (subst n; dlia).
  assert (Hne : a + n * 4194304 ≤ b) by (subst n; dlia). clearbody n.
  repeat wp_step; [unfold in_width; lia..|].
  eapply add_run_spec; [done|lia| |intros _; by apply Hlink].
  intros rs rs' Hlen Ht Hex. set (en := a + n * 4194304) in *.
  assert (Hen : en mod 4096 = 0) by (subst en; dlia).
  destruct (page_frames_fresh A a en b) as [Hf1 _]; [done..|lia|done|].
  replace n with ((en - a) / T) by (rewrite T_eq; subst en; dlia).
  eapply (add_run_step s A a HR Ha (conj Ha0 Hlo) en); [done| |lia|lia|done|done|done|done|].
  { rewrite T_eq. subst en. dlia. }
  intros s1 A1 HR1 Hins. eapply Hrest; [done|done|lia|done|done|].
  apply cut_run; [apply HR|done|done|done|lia|done|done|apply HR1|done].
Qed.
