(* ===== verification/PmmAlloc.v ===== *)
(** * Allocation and free in the abstract state

    [split_down], [take_block], [alloc_constrained], [covered_by_free_block]
    and [deallocate] of src/crates/core/src/mm/pmm.rs: which frames each moves in and
    out of the free set, and that no two buddies are ever both free. *)

From stdpp Require Import base gmap list numbers strings.
From S2P Require Import Prelude Pmm PmmRep PmmBuddy PmmPrim PmmRuns.

Local Open Scope Z_scope.

Import Pmm.

Local Opaque seqZ.

(** The same regions, the same window. *)
Definition same (A B : abs) : Prop :=
  owned B = owned A ∧ lo B = lo A ∧ hi B = hi A ∧ hhdm B = hhdm A.

Lemma same_refl A : same A A.
Proof. done. Qed.
Lemma same_trans A B C : same A B → same B C → same A C.
Proof. unfold same. naive_solver congruence. Qed.
Lemma same_block_ok A B k x : same A B → block_ok A k x → block_ok B k x.
Proof. intros (_ & ? & ? & _) (? & ? & ? & ?). split_and!; congruence || lia. Qed.

(** A block that is the allocator's but not free. *)
Definition taken (A : abs) (k x : Z) : Prop :=
  block_ok A k x ∧ ∀ f, f ∈ block_frames k x → f ∈ owned A ∧ f ∉ frames A.

(** ** Splitting *)

(** [A'] is [A] with the low piece of order [j] of the block at [x] taken and the rest of
    the block free again. *)
Definition gives (A A' : abs) (k j x : Z) : Prop :=
  same A A' ∧ block_frames k x ++ frames A ≡ₚ block_frames j x ++ frames A' ∧
  (coalesced A → coalesced A').

Lemma taken_low A k x : 0 ≤ k → taken A (k + 1) x → taken A k x ∧ taken A k (x + bsize k).
Proof.
  intros Hk [(Hx & H1 & H2 & H3) Hf]. pose proof (bsize_pos k Hk).
  assert (Hx' : x mod bsize k = 0) by (by apply mod_half).
  rewrite block_frames_split in Hf by (done || by eapply mod_page).
  rewrite bsize_S in H3 by lia. split; (split; [split_and!|]); try lia; try set_solver.
  rewrite Z.add_mod, Hx', Z.mod_same by lia. done.
Qed.

Lemma split_down_spec n s A addr k (Q : unit → pmm → Prop) :
  Rep s A → 0 ≤ k - Z.of_nat n → k ≤ 10 → taken A k addr →
  (∀ s' A', Rep s' A' → gives A A' k (k - Z.of_nat n) addr → Q tt s') →
  wp (split_down n addr k) s Q.
Proof.
  revert s A k Q. induction n as [|n IH]; intros s A k Q HR Hn Hk Htk HQ; simpl.
  { wp_step. apply (HQ s A HR). by rewrite Z.sub_0_r. }
  pose proof (wf_hi _ (rep_wf _ _ HR)) as Hhi.
  repeat wp_step; [unfold in_width; lia|].
  replace k with (k - 1 + 1) in Htk by lia. set (k' := k - 1) in *.
  assert (Hk' : 0 ≤ k' ≤ 10) by lia. pose proof (bsize_le k' Hk').
  destruct (taken_low A k' addr) as [Hlow [Hok Hhigh]]; [lia|done|].
  destruct Htk as [(Hal & _) Hfr].
  destruct Hok as (Hok1 & Hok2 & Hok3 & Hok4).
  apply owp_shl_page; [done|]. repeat wp_step; [destruct Hlow as [(?&?&?&?) _]; unfold in_width; lia|].
  destruct (order_lookup A k' (rep_wf _ _ HR) Hk') as [l Hl].
  eapply (push_free_spec s A); [done..|by split_and!|done|]. intros s1 HR1.
  set (A1 := set_list k' ((addr + bsize k') :: l) A) in *.
  assert (Hp : frames A1 ≡ₚ block_frames k' (addr + bsize k') ++ frames A)
    by (apply frames_push; [lia|done]).
  eapply (IH s1 A1); [done|lia|lia| |].
  - destruct Hlow as [Hlok Hlf]. split; [done|]. intros f Hf. split; [by apply Hlf|].
    rewrite Hp. intros [Hin|Hin]%elem_of_app; [|by apply (Hlf f Hf)].
    rewrite elem_of_block_frames in Hf by (lia || by eapply mod_page; [|exact (proj1 Hlok)]; lia).
    rewrite elem_of_block_frames in Hin by (lia || by eapply mod_page; [|exact Hok1]; lia). lia.
  - intros s2 A2 HR2 (Hsame & Hperm & Hco). apply (HQ s2 A2 HR2).
    replace (k - Z.of_nat (S n)) with (k' - Z.of_nat n) by lia.
    split_and!; [done| |].
    + rewrite <-Hperm, Hp. replace k with (k' + 1) by lia.
      rewrite block_frames_split by (lia || by eapply mod_page; [|exact Hal]; lia).
      solve_Permutation.
    + intros HA. apply Hco. apply coalesced_push; [done|lia|done|done|].
      intros _ Hin. rewrite buddy_high in Hin by (lia || done).
      destruct Hlow as [_ Hlf]. destruct (Hlf (addr / 4096)) as [_ Hn']; [apply block_frames_head; lia|].
      apply Hn'. by eapply free_head.
Qed.

(** ** Finding an order *)
Lemma first_order_spec n s A k (Q : Z → pmm → Prop) :
  Rep s A → 0 ≤ k ≤ 10 → 10 ≤ k + Z.of_nat n →
  (∀ k', k ≤ k' ≤ 10 → (∀ j, k ≤ j < k' → lists A !! Z.to_nat j = Some []) →
     (k' = 10 ∨ lists A !! Z.to_nat k' ≠ Some []) → Q k' s) →
  wp (first_order n k) s Q.
Proof.
  intros HR. revert k. induction n as [|n IH]; intros k Hk Hn HQ; simpl.
  { wp_step. apply HQ; [lia| |left; lia]. intros. lia. }
  unfold MAX_ORDER. destruct (Z.ltb_spec k 10).
  - destruct (order_lookup A k (rep_wf _ _ HR) Hk) as [l Hl].
    destruct (rep_list _ _ HR _ _ Hl) as (h & Hh & Hd).
    wp_step. eapply wp_head_of; [lia|done|]. rewrite (dll_head_null _ _ _ _ Hd).
    case_bool_decide as Hnil.
    + subst l. repeat wp_step; [unfold in_width; lia|]. apply IH; [lia|lia|].
      intros k' Hk' Hall Hend. apply HQ; [lia| |done].
      intros j Hj. destruct (decide (j = k)) as [->|]; [done|]. apply Hall. lia.
    + wp_step. apply HQ; [lia|intros; lia|]. right. rewrite Hl. naive_solver.
  - wp_step. apply HQ; [lia|intros; lia|]. left. lia.
Qed.

(** A popped block is taken. *)
Lemma removed_taken A k l1 x l2 :
  wf A → 0 ≤ k → lists A !! Z.to_nat k = Some (l1 ++ x :: l2) →
  taken (set_list k (l1 ++ l2) A) k x.
Proof.
  intros Hwf Hk Hl. split.
  - apply (same_block_ok A); [done|]. eapply block_in_list; [done|done|done|set_solver].
  - intros f Hf. exact (removed_frames A k l1 x l2 f Hwf Hk Hl Hf).
Qed.

Lemma taken_run A rs1 r rs2 b :
  wf A → truns A = rs1 ++ r :: rs2 → run_ok A r → at_end r b →
  taken (with_runs (rs1 ++ shrink r b ++ rs2) A) 10 b.
Proof.
  intros Hwf Hrs Hr Hb. split.
  - run_arith. destruct r as [st en]. simpl in *. unfold block_ok. fold T. rewrite T_eq. simpl.
    destruct Hb as [-> | ->]; split_and!; dlia.
  - intros f Hf. pose proof (frames_take_run A rs1 r rs2 b Hrs Hr Hb) as Hp.
    pose proof (wf_nodup _ Hwf) as Hnd. rewrite Hp in Hnd. apply NoDup_app in Hnd as (_ & Hd & _).
    split; [|by apply Hd]. destruct (wf_owned _ Hwf) as (_ & Hsub & _). apply Hsub. rewrite Hp. apply elem_of_app. by left.
Qed.

(** ** take_block *)

(** No free block of order [k] or more. *)
Definition exhausted (A : abs) (k : Z) : Prop :=
  (∀ j, k ≤ j ≤ 10 → lists A !! Z.to_nat j = Some []) ∧ truns A = [].

(** The block of order [k] at [x] moves from the free set to its new owner. *)
Definition allocates (A A' : abs) (k x : Z) : Prop :=
  same A A' ∧ frames A ≡ₚ block_frames k x ++ frames A' ∧ taken A' k x ∧
  (coalesced A → coalesced A').

Lemma allocates_split A A1 A' k j x :
  wf A → 0 ≤ j ≤ k → allocates A A1 k x → gives A1 A' k j x → allocates A A' j x.
Proof.
  intros Hwf Hj (Hs & Hp & [Hok Htk] & Hc) (Hs' & Hp' & Hc').
  assert (Hperm : frames A ≡ₚ block_frames j x ++ frames A') by (by rewrite Hp).
  split_and!; [by eapply same_trans|done| |auto].
  pose proof (wf_nodup _ Hwf) as Hnd. rewrite Hperm in Hnd.
  apply NoDup_app in Hnd as (_ & Hd & _). destruct (wf_owned _ Hwf) as (_ & Hsub & _).
  pose proof (bsize_pos j). assert (bsize j ≤ bsize k) by (apply pow2_le; lia).
  split.
  - apply (same_block_ok A1); [done|]. destruct Hok as (Hal & H1 & H2 & H3).
    split_and!; [|lia|lia|lia]. eapply mod_pow2_weaken; [|exact Hal]. lia.
  - intros f Hf. split; [|by apply Hd]. destruct Hs as (Ho & _), Hs' as (Ho' & _).
    rewrite Ho', Ho. apply Hsub. rewrite Hperm. apply elem_of_app. by left.
Qed.

Lemma allocates_removed A k l1 x l2 :
  wf A → 0 ≤ k → lists A !! Z.to_nat k = Some (l1 ++ x :: l2) →
  allocates A (set_list k (l1 ++ l2) A) k x.
Proof.
  intros Hwf Hk Hl. split_and!; [done|by apply frames_remove|by apply removed_taken|].
  intros Hco. by eapply coalesced_remove.
Qed.

Lemma allocates_run A rs1 r rs2 b :
  wf A → truns A = rs1 ++ r :: rs2 → at_end r b →
  allocates A (with_runs (rs1 ++ shrink r b ++ rs2) A) 10 b.
Proof.
  intros Hwf Hrs Hb. assert (run_ok A r) by (apply (wf_run _ Hwf); rewrite Hrs; set_solver).
  split_and!; [done|by apply frames_take_run|by apply taken_run|done].
Qed.

(** Split what was taken down to the order asked for. *)
Lemma split_allocates s A A1 k j x (Q : unit → pmm → Prop) :
  wf A → Rep s A1 → allocates A A1 k x → 0 ≤ j ≤ k → k ≤ 10 →
  (∀ s' A', Rep s' A' → allocates A A' j x → Q tt s') →
  wp (split_down (Z.to_nat (k - j)) x k) s Q.
Proof.
  intros Hwf HR Hal Hj Hk HQ. eapply split_down_spec; [done|lia|lia|apply Hal|].
  intros s' A' HR' Hg. rewrite Z2Nat.id in Hg by lia.
  replace (k - (k - j)) with j in Hg by lia. apply (HQ s' A' HR'). by eapply allocates_split.
Qed.

Lemma pick_last A r :
  wf A → run_ok A r →
  (t <~ top;; x <~ subc 64 (snd r) t;; Ret (Some x)) = Ret (Some (snd r - T)).
Proof.
  intros Hwf Hok. pose proof (wf_hi _ Hwf). apply owp_eq. wp_step. apply owp_top.
  repeat wp_step; [|done]. unfold in_width. run_arith. dlia.
Qed.

Lemma take_block_spec s A k (Q : option Z → pmm → Prop) :
  Rep s A → 0 ≤ k ≤ 10 →
  (exhausted A k → Q None s) →
  (∀ s' A' x, Rep s' A' → allocates A A' k x → ¬ exhausted A k → Q (Some x) s') →
  wp (take_block k) s Q.
Proof.
  intros HR Hk HNone HSome. pose proof (rep_wf _ _ HR) as Hwf.
  unfold take_block. unfold MAX_ORDER at 1. rewrite (proj2 (Z.ltb_ge _ _)) by lia. wp_step.
  eapply first_order_spec; [done|lia|unfold MAX_ORDER; lia|]. intros j Hj Hempty Hend.
  destruct (order_lookup A j Hwf) as [l Hl]; [lia|].
  destruct (rep_list _ _ HR _ _ Hl) as (h & Hh & Hd).
  wp_step. eapply wp_head_of; [lia|done|]. rewrite (dll_head_null _ _ _ _ Hd). wp_step.
  destruct l as [|x l];
    [rewrite bool_decide_true by done|rewrite bool_decide_false by done]; cbn [negb].
  - assert (j = 10) as -> by (destruct Hend; [done|congruence]).
    unfold take_run_block. repeat wp_step.
    destruct (rep_runs _ _ HR) as (_ & Hn & _). rewrite Hn, Nat2Z.id.
    eapply (take_run_from_spec s A HR).
    + intros r Hr. exists (Some (snd r - T)). split; [|intros b [= <-]; by right].
      apply (pick_last A r Hwf). by apply (wf_run _ Hwf).
    + done.
    + intros Hnone. wp_step. apply HNone. split.
      * intros i Hi. destruct (decide (i = 10)) as [->|]; [done|]. apply Hempty. lia.
      * destruct (truns A) as [|r rs] eqn:E; [done|exfalso].
        assert (Hr : r ∈ truns A) by (rewrite E; set_solver).
        specialize (Hnone r). rewrite take_ge in Hnone by done.
        rewrite (pick_last A r Hwf (wf_run _ Hwf r Hr)) in Hnone.
        rewrite E in Hr. by specialize (Hnone Hr).
    + intros rs1 r rs2 b s1 Hrs _ Hb HR1. wp_step.
      eapply split_allocates; [done|done|by apply allocates_run|lia|lia|].
      intros s2 A2 HR2 Hal. wp_step. eapply HSome; [done..|]. intros [_ He].
      rewrite Hrs in He. by destruct rs1.
  - wp_step. eapply (pop_head_spec s A j x); [done|lia|done|]. intros s1 HR1. repeat wp_step.
    eapply (split_allocates s1 A); [done|done| |lia|lia|].
    + by apply (allocates_removed A j [] x l); [|lia|].
    + intros s2 A2 HR2 Hal. wp_step. eapply HSome; [done..|]. intros [He _].
      rewrite He in Hl by lia. done.
Qed.

(** ** alloc_constrained *)
Lemma find_fit_order_spec n s A k size mx (Q : Z * Z → pmm → Prop) :
  Rep s A → 0 ≤ k → 11 ≤ k + Z.of_nat n → k ≤ 11 →
  (∀ j l1 x l2, k ≤ j ≤ 10 → lists A !! Z.to_nat j = Some (l1 ++ x :: l2) →
     x ≠ NULL → fits size mx x = true → Q (j, x) s) →
  (∀ j, (∀ i l x, k ≤ i ≤ 10 → lists A !! Z.to_nat i = Some l → x ∈ l → fits size mx x = false) →
     Q (j, NULL) s) →
  wp (find_fit_order n k size mx) s Q.
Proof.
  intros HR. revert k. induction n as [|n IH]; intros k Hk Hn Hk11 HQ1 HQ2;
    cbn [find_fit_order].
  { wp_step. apply HQ2. intros. lia. }
  unfold MAX_ORDER. destruct (Z.leb_spec k 10); [|wp_step; apply HQ2; intros; lia].
  destruct (order_lookup A k (rep_wf _ _ HR)) as [l Hl]; [lia|].
  destruct (rep_list _ _ HR _ _ Hl) as (h & Hh & Hd).
  repeat wp_step. eapply wp_head_of; [lia|done|]. wp_step.
  eapply find_fit_spec; [apply (rep_off _ _ HR)|done|by eapply walk_fuel| |].
  - intros l1 x l2 -> Hx _ Hfit. rewrite (proj2 (Z.eqb_neq x NULL)) by done. wp_step.
    eapply (HQ1 k); [lia|done..].
  - intros Hall. rewrite Z.eqb_refl. repeat wp_step; [unfold in_width; lia|].
    apply IH; [lia|lia|lia| |].
    + intros j l1 x l2 Hj. apply HQ1. lia.
    + intros j Hnone. apply HQ2. intros i l' x Hi Hl' Hx.
      destruct (decide (i = k)) as [->|]; [|eapply (Hnone i); [lia|done|done]].
      simplify_eq. rewrite Forall_forall in Hall. by apply Hall.
Qed.

Lemma fits_spec A k x mx :
  wf A → 0 ≤ k → block_ok A k x → ∀ j, 0 ≤ j ≤ k → fits (bsize j) mx x = true ↔ x + bsize j ≤ mx.
Proof.
  intros Hwf Hk (_ & ? & _ & ?) j Hj. pose proof (wf_hi _ Hwf).
  assert (bsize j ≤ bsize k) by (apply pow2_le; lia).
  unfold fits, checked_add. rewrite (proj2 (Z.ltb_lt _ _)) by lia. by rewrite Z.leb_le.
Qed.

(** No free block of order [k] or more starts a block of order [k] that ends at or
    below [mx]. *)
Definition none_below (A : abs) (k mx : Z) : Prop :=
  (∀ i l x, k ≤ i ≤ 10 → lists A !! Z.to_nat i = Some l → x ∈ l → mx < x + bsize k) ∧
  (∀ r, r ∈ truns A → mx < fst r + bsize k).

Lemma run_first A r : run_ok A r → block_ok A 10 (fst r).
Proof. unfold run_ok, block_ok. fold T. rewrite T_eq. intros. split_and!; dlia. Qed.

Lemma alloc_constrained_spec s A k mx (Q : option Frames → pmm → Prop) :
  Rep s A → 0 ≤ k ≤ 10 →
  (none_below A k mx → Q None s) →
  (∀ s' A' x, Rep s' A' → allocates A A' k x → x + bsize k ≤ mx →
     Q (Some (Frames_new x k)) s') →
  wp (alloc_constrained k mx) s Q.
Proof.
  intros HR Hk HNone HSome. pose proof (rep_wf _ _ HR) as Hwf.
  unfold alloc_constrained. unfold MAX_ORDER at 1. rewrite (proj2 (Z.ltb_ge _ _)) by lia.
  repeat wp_step. apply owp_shl_page; [done|]. wp_step.
  eapply (find_fit_order_spec 11 s A k); [done|lia|lia|lia| |].
  - intros j l1 x l2 Hj Hl Hx Hfit. simpl fst. simpl snd.
    rewrite (proj2 (Z.eqb_neq x NULL)) by done. cbn [negb]. repeat wp_step.
    eapply unlink_spec; [done|lia|done|]. intros s1 HR1. repeat wp_step.
    eapply (split_allocates s1 A); [done|done|by apply allocates_removed; [|lia|]|lia|lia|].
    intros s2 A2 HR2 Hal. wp_step. eapply HSome; [done..|].
    eapply (fits_spec A j); [done|lia| |lia|done].
    eapply block_in_list; [done|lia|done|set_solver].
  - intros j Hnone. simpl fst. simpl snd. rewrite Z.eqb_refl. cbn [negb]. repeat wp_step.
    unfold take_run_block. repeat wp_step.
    destruct (rep_runs _ _ HR) as (_ & Hn & _). rewrite Hn, Nat2Z.id.
    assert (Hrun : ∀ r, r ∈ truns A → fits (bsize k) mx (fst r) = true ↔ fst r + bsize k ≤ mx).
    { intros r Hr. eapply (fits_spec A 10); [done|lia| |lia]. apply run_first, Hwf, Hr. }
    eapply (take_run_from_spec s A HR).
    + intros r _. eexists. split; [done|]. intros b. case_match; [|done]. intros [= <-]. by left.
    + done.
    + intros Hall. repeat wp_step. apply HNone. rewrite take_ge in Hall by done. split.
      * intros i l x Hi Hl Hx. pose proof (Hnone i l x Hi Hl Hx) as Hf.
        assert (Hok : block_ok A i x) by (eapply block_in_list; [done|lia|done|done]).
        pose proof (fits_spec A i x mx Hwf ltac:(lia) Hok k ltac:(lia)) as Hfs.
        destruct (Z.le_gt_cases (x + bsize k) mx); [|done].
        rewrite (proj2 Hfs) in Hf by done. done.
      * intros r Hr. specialize (Hall r Hr). simpl in Hall. specialize (Hrun r Hr).
        destruct (Z.le_gt_cases (fst r + bsize k) mx); [|done].
        by rewrite (proj2 Hrun) in Hall by done.
    + intros rs1 r rs2 b s1 Hrs Hpick Hb HR1. simpl in Hpick.
      destruct (fits (bsize k) mx (fst r)) eqn:Hf; [|done]. injection Hpick as <-.
      assert (Hr : r ∈ truns A) by (rewrite Hrs; set_solver).
      repeat wp_step.
      change MAX_ORDER with 10. eapply split_allocates; [done|done|by apply allocates_run|lia|lia|].
      intros s2 A2 HR2 Hal. wp_step. eapply HSome; [done..|]. by apply Hrun.
Qed.

(** ** The double-free check *)
Definition covered_list (A : abs) (x j : Z) : Prop :=
  ∃ l, lists A !! Z.to_nat j = Some l ∧ x - x mod bsize j ∈ l.
Definition covered (A : abs) (x k : Z) : Prop :=
  (∃ r, r ∈ truns A ∧ fst r ≤ x < snd r) ∨ ∃ j, k ≤ j ≤ 10 ∧ covered_list A x j.

Lemma in_run_spec s A x :
  Rep s A → in_run (bd s) x = true ↔ ∃ r, r ∈ truns A ∧ fst r ≤ x < snd r.
Proof.
  intros HR. destruct (rep_runs _ _ HR) as (_ & Hn & Ht).
  unfold in_run. rewrite Hn, Nat2Z.id, Ht, existsb_exists. setoid_rewrite <-list_elem_of_In.
  split.
  - intros ([st en] & Hr & Hx). exists (st, en). split; [done|]. simpl. lia.
  - intros ([st en] & Hr & Hx). exists (st, en). simpl in *. split; [done|]. lia.
Qed.

Lemma covered_at_spec s A ks x (Q : bool → pmm → Prop) :
  Rep s A → u64 x → Forall (λ k, 0 ≤ k ≤ 10) ks →
  (∀ b, (b = true ↔ ∃ j, j ∈ ks ∧ covered_list A x j) → Q b s) →
  wp (covered_at ks x) s Q.
Proof.
  intros HR Hx. induction ks as [|k ks IH]; intros Hks HQ; simpl.
  { wp_step. apply HQ. split; [done|]. intros (j & Hj & _). set_solver. }
  apply Forall_cons in Hks as [Hk Hks]. pose proof (bsize_le k Hk).
  destruct (order_lookup A k (rep_wf _ _ HR) Hk) as [l Hl].
  repeat wp_step. apply owp_shl_page; [done|]. repeat wp_step; [unfold in_width; lia|].
  unfold bsize at 1. rewrite land_notw by (done || lia). fold (bsize k).
  eapply (in_free_list_spec s A); [done..|]. case_bool_decide as Hin.
  - wp_step. apply HQ. split; [|done]. intros _. exists k. split; [set_solver|]. by exists l.
  - apply IH; [done|]. intros b Hb. apply HQ. rewrite Hb. split.
    + intros (j & Hj & Hc). exists j. set_solver.
    + intros (j & [->|Hj]%elem_of_cons & Hc); [|eauto].
      destruct Hc as (l' & Hl' & Hin'). by simplify_eq.
Qed.

Lemma covered_by_free_block_spec s A x k (Q : bool → pmm → Prop) :
  Rep s A → u64 x → 0 ≤ k ≤ 10 → (∀ b, (b = true ↔ covered A x k) → Q b s) →
  wp (covered_by_free_block x k) s Q.
Proof.
  intros HR Hx Hk HQ. unfold covered_by_free_block. repeat wp_step.
  pose proof (in_run_spec s A x HR) as Hrun. destruct (in_run (bd s) x).
  - wp_step. apply HQ. split; [|done]. intros _. left. by apply Hrun.
  - eapply covered_at_spec; [done|done| |].
    + apply Forall_forall. intros j Hj%elem_of_seqZ. unfold MAX_ORDER in *. lia.
    + intros b Hb. apply HQ. rewrite Hb. setoid_rewrite elem_of_seqZ. unfold MAX_ORDER. split.
      * intros (j & Hj & Hc). right. exists j. split; [lia|done].
      * intros [Hr|(j & Hj & Hc)]; [by apply Hrun in Hr|]. exists j. split; [lia|done].
Qed.

(** A block with a frame that is not free is not covered. *)
Lemma taken_not_covered A k x : wf A → 0 ≤ k ≤ 10 → taken A k x → ¬ covered A x k.
Proof.
  intros Hwf Hk [(Hal & Hx & _) Htk] Hc.
  assert (Hpg : x mod 4096 = 0) by (eapply mod_page; [|done]; lia).
  destruct (Htk (x / 4096)) as [_ Hn]; [apply block_frames_head; lia|].
  apply Hn, elem_of_frames. destruct Hc as [(r & Hr & Hin)|(j & Hj & l & Hl & Hin)].
  - right. exists r. split; [done|]. pose proof (wf_run _ Hwf r Hr) as Hok. run_arith.
    apply elem_of_seqZ. dlia.
  - left. exists (Z.to_nat j), l, (x - x mod bsize j). split_and!; [done..|].
    rewrite Z2Nat.id by lia. pose proof (wf_block _ Hwf _ _ _ Hl Hin) as (Hal' & _).
    rewrite Z2Nat.id in Hal' by lia. pose proof (bsize_pos j).
    rewrite elem_of_block_frames; [|lia|by eapply mod_page; [|exact Hal']; lia].
    pose proof (Z.mod_pos_bound x (bsize j)).
    assert (Hx4 : x = 4096 * (x / 4096)) by dlia. rewrite <-Hx4.
    assert (x + 4096 ≤ x - x mod bsize j + bsize j); [|dlia].
    assert (Hm : (x mod bsize j) mod 4096 = 0).
    { rewrite bsize_frames by lia. rewrite Z.rem_mul_r by (pose proof (pow2_pos j); lia).
      rewrite Hpg. rewrite Z.add_0_l, Z.mul_comm. apply Z.mod_mul. lia. }
    assert (Hb : bsize j mod 4096 = 0) by (rewrite bsize_frames, Z.mul_comm by lia; apply Z.mod_mul; lia).
    dlia.
Qed.

(** ** Merging *)

(** [A'] is [A] with the buddies of the block at [x] taken into the block of order [j] at [y]. *)
Definition merges (A A' : abs) (k x j y : Z) : Prop :=
  same A A' ∧ taken A' j y ∧
  block_frames j y ++ frames A' ≡ₚ block_frames k x ++ frames A ∧
  (coalesced A → coalesced A') ∧
  (j = 10 ∨ ∃ l, lists A' !! Z.to_nat j = Some l ∧ buddy j y ∉ l) ∧
  k ≤ j ∧ y ≤ x < y + bsize j.

Lemma merges_refl A k x :
  0 ≤ k → taken A k x → (k = 10 ∨ ∃ l, lists A !! Z.to_nat k = Some l ∧ buddy k x ∉ l) →
  merges A A k x k x.
Proof.
  intros Hk Htk Hb. pose proof (bsize_pos k Hk). split; [apply same_refl|]. split_and!; done || lia.
Qed.

(** One merge: the buddy leaves its list and the two become one block. *)
Lemma merge_step A k x l1 l2 :
  wf A → 0 ≤ k < 10 → taken A k x → lists A !! Z.to_nat k = Some (l1 ++ buddy k x :: l2) →
  let A' := set_list k (l1 ++ l2) A in
  taken A' (k + 1) (Z.min x (buddy k x)) ∧
  block_frames (k + 1) (Z.min x (buddy k x)) ++ frames A' ≡ₚ block_frames k x ++ frames A.
Proof.
  intros Hwf Hk [(Hal & Hx1 & Hx2 & Hx3) Htk] Hl A'. destruct (buddy_merge k x) as [Hm Hp]; [lia|done|].
  pose proof (frames_remove A k l1 _ l2 ltac:(lia) Hl) as Hfr. fold A' in Hfr.
  pose proof (bsize_pos k).
  assert (Hb : block_ok A k (buddy k x)) by (eapply block_in_list; [done|lia|done|set_solver]).
  destruct Hb as (Hb0 & Hb1 & Hb2 & Hb3).
  assert (Hperm : block_frames (k + 1) (Z.min x (buddy k x)) ++ frames A' ≡ₚ
                  block_frames k x ++ frames A) by (rewrite Hp, Hfr; solve_Permutation).
  split; [|done]. split.
  - split_and!; [done|lia|simpl; lia|]. simpl. rewrite bsize_S by lia.
    destruct (buddy_cases k x) as [[_ ?]|[_ ?]]; [lia|done|lia|lia].
  - intros f. rewrite Hp, elem_of_app. intros [Hf|Hf].
    + destruct (Htk f Hf) as [Ho Hn]. split; [done|]. intros Hin. apply Hn. rewrite Hfr. set_solver.
    + exact (removed_frames A k l1 _ l2 f Hwf ltac:(lia) Hl Hf).
Qed.

(** The multiple of [d] that [x] lies above. *)
Lemma aligned_below d y x : y mod d = 0 → y ≤ x < y + d → x - x mod d = y.
Proof.
  intros Hy Hx. assert (x mod d = x - y); [|lia].
  rewrite <-(Z.mod_small (x - y) d) by lia. by rewrite Zminus_mod, Hy, Z.sub_0_r, Z.mod_mod by lia.
Qed.

(** A block of a greater order that holds the lower of two buddies holds both. *)
Lemma merged_inside k x j y :
  0 ≤ k < j → x mod bsize k = 0 → y mod bsize j = 0 →
  y ≤ Z.min x (buddy k x) < y + bsize j → y ≤ x < y + bsize j.
Proof.
  intros Hk Hx Hy Hin. pose proof (bsize_pos k). split; [lia|].
  destruct (buddy_cases k x) as [[_ Hb]|[Hm Hb]]; [lia|done|lia|]. rewrite Hb in Hin.
  rewrite Z.min_r in Hin by lia. pose proof (bsize_pos (k + 1)). pose proof (bsize_pos j).
  assert (Hd : (bsize (k + 1) | bsize j)) by (apply pow2_divide; lia).
  apply Z.mod_divide in Hm as [q Hq]; [|lia]. apply Z.mod_divide in Hy as [q' Hq']; [|lia].
  destruct Hd as [d Hd]. rewrite bsize_S in * by lia. set (B := bsize k) in *.
  assert (q * (2 * B) < (q' * d + d) * (2 * B)) by nia.
  assert (q < q' * d + d) by nia. nia.
Qed.

Lemma merge_up_spec n s A k x (Q : Z * Z → pmm → Prop) :
  Rep s A → 0 ≤ k ≤ 10 → 10 ≤ k + Z.of_nat n → taken A k x →
  (∀ s' A' j y, Rep s' A' → 0 ≤ j ≤ 10 → merges A A' k x j y → Q (y, j) s') →
  wp (merge_up n x k) s Q.
Proof.
  revert s A k x. induction n as [|n IH]; intros s A k x HR Hk Hn Htk HQ; simpl.
  { wp_step. apply (HQ s A k x HR Hk), merges_refl; [lia|done|]. left. lia. }
  unfold MAX_ORDER. destruct (Z.ltb_spec k 10); last first.
  { wp_step. apply (HQ s A k x HR Hk), merges_refl; [lia|done|]. left. lia. }
  destruct (order_lookup A k (rep_wf _ _ HR) Hk) as [l Hl].
  repeat wp_step. apply owp_shl_page; [done|]. fold (buddy k x). wp_step.
  eapply (in_free_list_spec s A); [done..|]. case_bool_decide as Hin.
  - apply list_elem_of_split in Hin as (l1 & l2 & ->). wp_step.
    eapply unlink_spec; [done|done|done|]. intros s1 HR1.
    destruct (merge_step A k x l1 l2 (rep_wf _ _ HR)) as [Htk1 Hp1]; [lia|done|done|].
    repeat wp_step; [unfold in_width; lia|].
    eapply (IH s1 _ (k + 1)); [done|lia|lia|done|].
    intros s2 A2 j y HR2 Hj (Hs & Ht & Hp & Hc & Hb & Hkj & Hy). apply (HQ s2 A2 j y HR2 Hj).
    split_and!; [done|done| | |done|lia| |].
    + by rewrite Hp.
    + intros HA. apply Hc. eapply coalesced_remove; [done|lia|done].
    + lia.
    + destruct Htk as [(Hal & _) _], Ht as [(Hyal & _) _].
      pose proof (bsize_pos k). pose proof (merged_inside k x j y). lia.
  - wp_step. apply (HQ s A k x HR Hk), merges_refl; [lia|done|]. right. eauto.
Qed.

(** ** deallocate *)

(** The block of order [k] at [x] moves from its owner back to the free set. *)
Definition frees (A A' : abs) (k x : Z) : Prop :=
  same A A' ∧ frames A' ≡ₚ block_frames k x ++ frames A ∧ (coalesced A → coalesced A') ∧
  covered A' x k.

Lemma align_check k x : 0 ≤ k ≤ 10 → Z.land x (bsize k - 1) = x mod bsize k.
Proof. intros. apply land_mask. lia. Qed.

Lemma deallocate_spec s A k x (Q : unit → pmm → Prop) :
  Rep s A → 0 ≤ k ≤ 10 → taken A k x →
  (∀ s' A', Rep s' A' → frees A A' k x → Q tt s') →
  wp (deallocate x k) s Q.
Proof.
  intros HR Hk Htk HQ. pose proof (rep_wf _ _ HR) as Hwf. pose proof (bsize_le k Hk).
  assert (Hu : u64 x) by (eapply block_ok_u64; [done| |apply Htk]; lia).
  unfold deallocate. unfold MAX_ORDER at 1. repeat wp_step; [lia|].
  apply owp_shl_page; [done|]. repeat wp_step.
  { unfold in_width. lia. }
  { rewrite align_check by done. apply Z.eqb_eq, Htk. }
  eapply covered_by_free_block_spec; [done..|]. intros b Hb.
  assert (b = false) as ->.
  { apply not_true_is_false. rewrite Hb. by apply taken_not_covered. }
  repeat wp_step; [done|].
  eapply (merge_up_spec _ s A); [done|done|unfold MAX_ORDER; lia|done|].
  intros s1 A1 j y HR1 Hj (Hs & [Hok Ht] & Hp & Hc & Hbud & Hkj & Hyx). simpl fst. simpl snd.
  destruct (order_lookup A1 j (rep_wf _ _ HR1) Hj) as [l Hl].
  eapply (push_free_spec s1 A1); [done..|]. intros s2 HR2. apply (HQ s2 _ HR2).
  split_and!; [done| | |].
  - rewrite frames_push by (lia || done). done.
  - intros HA. apply coalesced_push; [auto|lia|done|apply Hok|].
    intros Hj10. destruct Hbud as [->|(l' & Hl' & Hn)]; [lia|]. by simplify_eq.
  - right. exists j. split; [lia|]. exists (y :: l). simpl.
    rewrite list_lookup_insert_eq by (by eapply lookup_lt_Some). split; [done|].
    rewrite (aligned_below (bsize j) y x) by (done || apply Hok). apply elem_of_cons. by left.
Qed.

(** ** Failing checks *)
Lemma bind_panic {S X Y} (m : M S X) (k : X → M S Y) s p :
  wp m s (λ a s', k a s' = Panic p) → bind m k s = Panic p.
Proof. unfold wp, bind. destruct (m s) as [[a s']| | |]; simpl; naive_solver. Qed.

Lemma lift_panic {S X Y} (o : outcome X) (k : X → M S Y) s p :
  owp o (λ a, k a s = Panic p) → bind (lift o) k s = Panic p.
Proof. intros. apply bind_panic. by apply wp_lift. Qed.

Lemma deallocate_covered s A k x :
  Rep s A → 0 ≤ k ≤ 10 → u64 x → x mod bsize k = 0 → covered A x k →
  deallocate x k s = Panic (PAssert "pmm: double free").
Proof.
  intros HR Hk Hu Hal Hc. pose proof (bsize_le k Hk).
  unfold deallocate. unfold MAX_ORDER at 1.
  apply bind_panic. wp_step; [lia|]. apply lift_panic, owp_shl_page; [done|].
  apply lift_panic, owp_subc; [unfold in_width; lia|]. apply bind_panic.
  wp_step; [by rewrite align_check, Hal by done|]. apply bind_panic.
  eapply covered_by_free_block_spec; [done..|]. intros b Hb.
  by rewrite (proj2 Hb Hc).
Qed.

Lemma deallocate_misaligned s k x :
  0 ≤ k ≤ 10 → x mod bsize k ≠ 0 →
  deallocate x k s = Panic (PAssert "pmm: dealloc phys not aligned to order").
Proof.
  intros Hk Hal. pose proof (bsize_le k Hk).
  unfold deallocate. unfold MAX_ORDER at 1.
  apply bind_panic. wp_step; [lia|]. apply lift_panic, owp_shl_page; [done|].
  apply lift_panic, owp_subc; [unfold in_width; lia|].
  by rewrite align_check, (proj2 (Z.eqb_neq _ _)) by done.
Qed.

(** ** Completeness of the free lists

    With no two buddies free, an aligned block all of whose frames are free lies in one
    free block of its order or more. *)
Lemma mod_shift k j x :
  0 ≤ k → k + 1 ≤ j → x mod bsize (k + 1) = 0 →
  (x + bsize k) mod bsize j = x mod bsize j + bsize k.
Proof.
  intros Hk Hj Hx. pose proof (bsize_pos k Hk). pose proof (bsize_pos j).
  assert (Hd : bsize j = bsize (k + 1) * 2 ^ (j - (k + 1))).
  { unfold bsize. rewrite <-Z.pow_add_r by lia. f_equal. lia. }
  pose proof (pow2_pos (j - (k + 1))).
  pose proof (bsize_S k Hk).
  assert (Hm : x mod bsize j = bsize (k + 1) * ((x / bsize (k + 1)) mod 2 ^ (j - (k + 1)))).
  { rewrite Hd, Z.rem_mul_r, Hx by lia. lia. }
  pose proof (Z.mod_pos_bound (x / bsize (k + 1)) (2 ^ (j - (k + 1)))).
  set (q := (x / bsize (k + 1)) mod 2 ^ (j - (k + 1))) in *.
  assert (x mod bsize j + bsize (k + 1) ≤ bsize j).
  { rewrite Hm, Hd. replace (bsize (k + 1) * q + bsize (k + 1)) with (bsize (k + 1) * (q + 1)) by lia.
    apply Z.mul_le_mono_nonneg_l; lia. }
  symmetry. apply (Z.mod_unique_pos _ _ (x / bsize j)); [pose proof (Z.mod_pos_bound x (bsize j)); lia|].
  pose proof (Z.div_mod x (bsize j)). lia.
Qed.

Lemma covered_frame A x :
  wf A → x mod 4096 = 0 → x / 4096 ∈ frames A → covered A x 0.
Proof.
  intros Hwf Hx [(k & l & y & Hl & Hy & Hf)|(r & Hr & Hf)]%elem_of_frames.
  - right. exists (Z.of_nat k). pose proof (lookup_lt_Some _ _ _ Hl). rewrite (wf_len _ Hwf) in *.
    split; [lia|]. exists l. rewrite Nat2Z.id. split; [done|].
    destruct (wf_block _ Hwf _ _ _ Hl Hy) as (Hal & _).
    rewrite elem_of_block_frames in Hf by (lia || by eapply mod_page; [|exact Hal]; lia).
    pose proof (bsize_pos (Z.of_nat k)).
    assert (x mod bsize (Z.of_nat k) = x - y) as ->; [|by replace (x - (x - y)) with y by lia].
    symmetry. apply (Z.mod_unique_pos _ _ (y / bsize (Z.of_nat k))); [dlia|].
    pose proof (Z.div_mod y (bsize (Z.of_nat k))). lia.
  - left. exists r. split; [done|]. pose proof (wf_run _ Hwf r Hr) as Hok. run_arith.
    apply elem_of_seqZ in Hf. dlia.
Qed.

Lemma covered_run_low A k x r :
  0 ≤ k < 10 → x mod bsize (k + 1) = 0 → run_ok A r →
  fst r ≤ x + bsize k < snd r → fst r ≤ x < snd r.
Proof.
  intros Hk Hx (Hr & _) Hin. pose proof (bsize_pos k). split; [|lia].
  apply (mod_pow2_weaken _ (12 + (k + 1))) in Hr; [|lia]. fold (bsize (k + 1)) in Hr.
  rewrite bsize_S in * by lia. apply Z.mod_divide in Hx as [q Hq]; [|lia].
  apply Z.mod_divide in Hr as [q' Hq']; [|lia]. rewrite Hq, Hq' in *.
  apply Z.mul_le_mono_nonneg_r; [lia|]. destruct (Z.le_gt_cases q' q); [done|].
  assert (q * (2 * bsize k) + (2 * bsize k) ≤ q' * (2 * bsize k)); [|lia].
  replace (q * (2 * bsize k) + 2 * bsize k) with ((q + 1) * (2 * bsize k)) by lia.
  apply Z.mul_le_mono_nonneg_r; lia.
Qed.

Lemma covered_join A k x :
  wf A → coalesced A → 0 ≤ k < 10 → x mod bsize (k + 1) = 0 →
  covered A x k → covered A (x + bsize k) k → covered A x (k + 1).
Proof.
  intros Hwf Hco Hk Hx H1 H2. pose proof (bsize_pos k).
  assert (Hxk : x mod bsize k = 0) by (apply mod_half; [lia|done]).
  destruct H1 as [Hr|(j1 & Hj1 & l1 & Hl1 & Hin1)]; [by left|].
  destruct H2 as [(r & Hr & Hin)|(j2 & Hj2 & l2 & Hl2 & Hin2)].
  { left. exists r. split; [done|]. by eapply covered_run_low; [|done|by apply (wf_run _ Hwf)|]. }
  destruct (decide (j1 = k)) as [->|]; [|right; exists j1; split; [lia|by exists l1]].
  destruct (decide (j2 = k)) as [->|]; last first.
  { right. exists j2. split; [lia|]. exists l2. split; [done|].
    rewrite mod_shift in Hin2 by (done || lia).
    by replace (x + bsize k - (x mod bsize j2 + bsize k)) with (x - x mod bsize j2) in Hin2 by lia. }
  exfalso. simplify_eq. rewrite Hxk, Z.sub_0_r in Hin1.
  rewrite Z.add_mod, Hxk, Z.mod_same, Z.add_0_l, Z.mod_0_l, Z.sub_0_r in Hin2 by lia.
  apply (Hco k _ x ltac:(lia) Hl1 Hin1). by rewrite buddy_low by (done || lia).
Qed.

Lemma free_block_covered A k x :
  wf A → coalesced A → 0 ≤ k ≤ 10 → x mod bsize k = 0 →
  (∀ f, f ∈ block_frames k x → f ∈ frames A) → covered A x k.
Proof.
  intros Hwf Hco Hk. rewrite <-(Z2Nat.id k) in * by lia. revert x.
  induction (Z.to_nat k) as [|n IH]; intros x Hx Hf.
  { apply covered_frame; [done|done|]. apply Hf, block_frames_head. lia. }
  rewrite Nat2Z.inj_succ, <-Z.add_1_r in *. pose proof (bsize_pos (Z.of_nat n)).
  assert (Hxn : x mod bsize (Z.of_nat n) = 0) by (apply mod_half; [lia|done]).
  rewrite block_frames_split in Hf by (lia || by eapply mod_page; [|exact Hxn]; lia).
  apply covered_join; [done|done|lia|done| |].
  - apply IH; [lia|done|]. set_solver.
  - apply IH; [lia| |set_solver]. by rewrite Z.add_mod, Hxn, Z.mod_same by lia.
Qed.

Lemma exhausted_not_covered A k x : 0 ≤ k → exhausted A k → ¬ covered A x k.
Proof.
  intros Hk [Hl Hr] [(r & Hin & _)|(j & Hj & l & Hl' & Hin)].
  - rewrite Hr in Hin. set_solver.
  - rewrite Hl in Hl' by lia. simplify_eq. set_solver.
Qed.
