(* ===== verification/PmmSpec.v ===== *)
(** * The buddy allocator: what it promises

    The theorems about [Buddy]'s public operations
    (src/crates/core/src/mm/pmm.rs): each on any represented state, and all of
    them over the runs of a system that inserts regions, allocates, frees, and
    writes at will to the frames it holds. *)

From stdpp Require Import base gmap list numbers strings.
From S2P Require Import Prelude Pmm PmmRep PmmBuddy PmmPrim PmmRuns PmmAlloc.

Local Open Scope Z_scope.

Import Pmm.

Local Opaque seqZ.

(** ** Tokens *)
Lemma token_roundtrip k x :
  u64 x → 0 ≤ k ≤ 10 → x mod 4096 = 0 →
  base (Frames_new x k) = x ∧ order (Frames_new x k) = k.
Proof.
  intros Hx Hk Hal. unfold base, order, Frames_new, ORDER_MASK. simpl raw.
  rewrite PAGE_SIZE_eq. change (4096 - 1) with (2 ^ 12 - 1).
  rewrite (lor_disjoint x k 12) by (done || lia).
  unfold in_width in *. change (2 ^ 12) with 4096 in *.
  assert (Hm : (x + k) mod 4096 = k) by dlia.
  split.
  - change (4096 - 1) with (2 ^ 12 - 1). rewrite land_notw.
    + change (2 ^ 12) with 4096. lia.
    + unfold in_width. dlia.
    + lia.
  - change (4096 - 1) with (2 ^ 12 - 1). rewrite land_mask by lia.
    change (2 ^ 12) with 4096. rewrite Hm. unfold wrap. apply Z.mod_small. lia.
Qed.

Lemma token_block A k x :
  wf A → 0 ≤ k ≤ 10 → block_ok A k x →
  base (Frames_new x k) = x ∧ order (Frames_new x k) = k.
Proof.
  intros Hwf Hk Hok. apply token_roundtrip; [|done|].
  - eapply block_ok_u64; [done| |done]. lia.
  - eapply mod_page; [|apply Hok]. lia.
Qed.

(** ** alloc and free on a represented state *)
Lemma alloc_spec s A k (Q : option Frames → pmm → Prop) :
  Rep s A → 0 ≤ k ≤ 10 →
  (exhausted A k → Q None s) →
  (∀ s' A' x, Rep s' A' → allocates A A' k x → ¬ exhausted A k →
     Q (Some (Frames_new x k)) s') →
  wp (alloc k) s Q.
Proof.
  intros HR Hk HN HS. unfold alloc. wp_step. eapply take_block_spec; [done..| |].
  - intros He. wp_step. auto.
  - intros s' A' x HR' Hal Hne. wp_step. eauto.
Qed.

Lemma free_token s A k x (Q : unit → pmm → Prop) :
  Rep s A → 0 ≤ k ≤ 10 → taken A k x →
  (∀ s' A', Rep s' A' → frees A A' k x → Q tt s') →
  wp (free (Frames_new x k)) s Q.
Proof.
  intros HR Hk Htk HQ. pose proof (rep_wf _ _ HR) as Hwf. pose proof (wf_hi _ Hwf).
  destruct Htk as [Hok Hf]. destruct (token_block A k x) as [Hb Ho]; [done..|].
  pose proof Hok as (_ & Hx1 & Hx2 & Hx3). destruct (rep_span _ _ HR) as [Hlo Hhi].
  unfold free. rewrite Hb, Ho. repeat wp_step. apply owp_shl_page; [done|]. repeat wp_step.
  - rewrite Hlo, Hhi. unfold checked_add.
    rewrite (proj2 (Z.ltb_lt _ (2 ^ 64))), !(proj2 (Z.leb_le _ _)) by lia. done.
  - by eapply deallocate_spec.
Qed.

Lemma free_covered s A k x :
  Rep s A → 0 ≤ k ≤ 10 → block_ok A k x → covered A x k →
  free (Frames_new x k) s = Panic (PAssert "pmm: double free").
Proof.
  intros HR Hk Hok Hc. pose proof (rep_wf _ _ HR) as Hwf. pose proof (wf_hi _ Hwf).
  destruct (token_block A k x) as [Hb Ho]; [done..|].
  pose proof Hok as (Hal & Hx1 & Hx2 & Hx3). destruct (rep_span _ _ HR) as [Hlo Hhi].
  unfold free. rewrite Hb, Ho. apply lift_panic, owp_shl_page; [done|].
  apply bind_panic, wp_get, bind_panic, wp_assert.
  - rewrite Hlo, Hhi. unfold checked_add.
    rewrite (proj2 (Z.ltb_lt _ (2 ^ 64))), !(proj2 (Z.leb_le _ _)) by lia. done.
  - eapply deallocate_covered; [done|done| |done|done].
    eapply block_ok_u64; [done| |done]. lia.
Qed.

(** ** insert_region *)

(** The whole pages of [[start, end)] above frame 0. *)
Definition region_lo (start : Z) : Z := (Z.max start 4096 + 4095) / 4096 * 4096.
Definition region_hi (end_ : Z) : Z := end_ / 4096 * 4096.
Definition region_frames (start end_ : Z) : list Z :=
  page_frames (region_lo start) (region_hi end_).

(** No free frame touches the region. *)
Definition apart (A : abs) (start end_ : Z) : Prop :=
  region_lo start / 4096 - 1 ∉ frames A ∧ region_hi end_ / 4096 ∉ frames A.

Lemma owp_align_up x (Q : Z → Prop) :
  0 ≤ x → x + 4096 < 2 ^ 64 → Q ((x + 4095) / 4096 * 4096) → owp (align_up x PAGE_SIZE) Q.
Proof.
  intros Hx Hu HQ. unfold align_up. rewrite PAGE_SIZE_eq.
  repeat wp_step; [unfold in_width; lia..|].
  change (4096 - 1) with (2 ^ 12 - 1). rewrite land_notw by (unfold in_width; lia).
  change (2 ^ 12) with 4096. replace (x + 4096 - 1) with (x + 4095) by lia.
  replace (_ - _) with ((x + 4095) / 4096 * 4096) by dlia. done.
Qed.

Lemma align_down_eq x : u64 x → align_down x PAGE_SIZE = x / 4096 * 4096.
Proof.
  intros Hx. unfold align_down. rewrite PAGE_SIZE_eq. change (4096 - 1) with (2 ^ 12 - 1).
  rewrite land_notw by (done || lia). change (2 ^ 12) with 4096. dlia.
Qed.

Definition widen (a b : Z) (A : abs) : abs :=
  mkAbs (lists A) (truns A) (owned A) (Z.min (lo A) a) (Z.max (hi A) b) (hhdm A).

Lemma rep_widen s A a b :
  Rep s A → 0 ≤ a → b < 2 ^ 64 →
  Rep (set_span (Z.min (span_lo (bd s)) a) (Z.max (span_hi (bd s)) b) s) (widen a b A).
Proof.
  intros [Hwf Hl Hlist Hcount Hfree Htot Hoff [Hs1 Hs2] Hruns] Ha Hb.
  split; simpl; try done; [|by rewrite Hs1, Hs2].
  destruct Hwf as [Hlen Hhi Hblk Hrun Hnd (Ho & Hsub & Hbd)].
  split; simpl; try done.
  - lia.
  - intros k l x Hk Hx. destruct (Hblk k l x Hk Hx) as (?&?&?&?). split_and!; simpl; [done|lia..].
  - intros r Hr. destruct (Hrun r Hr) as (?&?&?&?&?&?). split_and!; simpl; [done|done|lia..].
  - split_and!; [done|done|]. intros f Hf. destruct (Hbd f Hf) as (?&?&?). lia.
Qed.

Lemma insert_region_spec s A start end_ (Q : unit → pmm → Prop) :
  Rep s A → u64 start → start + 4096 < 2 ^ 64 → u64 end_ →
  (∀ f, f ∈ region_frames start end_ → f ∉ owned A) →
  (∀ s' A', Rep s' A' → owned A' ≡ₚ region_frames start end_ ++ owned A →
     frames A' ≡ₚ region_frames start end_ ++ frames A → hhdm A' = hhdm A →
     lo A' ≤ lo A → hi A ≤ hi A' →
     (apart A start end_ → coalesced A → coalesced A') → Q tt s') →
  wp (insert_region start end_) s Q.
Proof.
  intros HR Hs Hs4 He Hfr HQ. unfold insert_region, in_width in *. rewrite PAGE_SIZE_eq at 1.
  repeat wp_step. apply owp_align_up; [lia|lia|]. fold (region_lo start).
  rewrite align_down_eq by done. fold (region_hi end_).
  set (a := region_lo start) in *. set (b := region_hi end_) in *.
  assert (Ha : a mod 4096 = 0 ∧ 4096 ≤ a) by (subst a; unfold region_lo; dlia).
  assert (Hb : b mod 4096 = 0 ∧ b < 2 ^ 64) by (subst b; unfold region_hi; dlia).
  wp_step. destruct (Z.ltb_spec a b) as [Hlt|Hge].
  - wp_step. pose proof (rep_widen s A a b HR ltac:(lia) ltac:(lia)) as HR1.
    eapply (insert_loop_spec _ _ (widen a b A)); [done|lia|lia|lia|simpl; lia|simpl; lia|lia| | |].
    + split; [apply NoDup_seqZ|]. intros f Hf. split; [by apply Hfr|].
      rewrite elem_of_page_frames in Hf by lia. simpl. dlia.
    + rewrite PAGE_SIZE_eq. dlia.
    + intros s' A' HR' (Ho & Hf & Hlo & Hhi & Hh) Hcut.
      eapply HQ; [done..|rewrite Hlo; simpl; lia|rewrite Hhi; simpl; lia|].
      intros [Hl Hh'] Hco. apply Hcut. split_and!; [done| |done].
      apply left_ok_free; [apply HR1|done].
  - wp_step. assert (Hnil : page_frames a b = []).
    { unfold page_frames. rewrite seqZ_nil by dlia. done. }
    simpl. rewrite (proj2 (Z.ltb_ge a b)) by lia. wp_step.
    apply (HQ s A HR); unfold region_frames; fold a b; by rewrite ?Hnil.
Qed.
