(* ===== verification/PmmWorld.v ===== *)
(** * The frame allocator in use

    A system that owns one [Buddy] (src/crates/core/src/mm/pmm.rs): it hands
    regions over, allocates, frees the tokens it holds, and writes whatever it
    likes to the frames of those tokens.  The theorems are about every state
    such a system reaches. *)

From stdpp Require Import base gmap list numbers strings relations.
From S2P Require Import Prelude Pmm PmmRep PmmBuddy PmmPrim PmmRuns PmmAlloc PmmSpec.

Local Open Scope Z_scope.

Import Pmm.

Local Opaque seqZ.

Record world := mkWorld {
  st : pmm;
  live : list Frames;     (* the tokens out there *)
  given : list Z          (* the frames of all regions inserted so far *)
}.

Definition token_frames (f : Frames) : list Z := block_frames (order f) (base f).

Definition start_world (hhdm : Z) (m : gmap Z FreeNode) : world :=
  mkWorld (mkPmm (new hhdm) m) [] [].

(** The region shares no frame with the earlier ones; [strict] also keeps it
    from touching them. *)
Definition region_new (strict : bool) (given : list Z) (a b : Z) : Prop :=
  (∀ f, f ∈ region_frames a b → f ∉ given) ∧
  (strict = true → region_lo a / 4096 - 1 ∉ given ∧ region_hi b / 4096 ∉ given).

Inductive step (strict : bool) : world → world → Prop :=
  | step_insert s l g a b s' :
      u64 a → u64 b → a + 4096 < 2 ^ 64 → region_new strict g a b →
      insert_region a b s = Ret (tt, s') →
      step strict (mkWorld s l g) (mkWorld s' l (region_frames a b ++ g))
  | step_alloc s l g k r s' :
      u8 k → alloc k s = Ret (r, s') →
      step strict (mkWorld s l g) (mkWorld s' (option_list r ++ l) g)
  | step_alloc_constrained s l g k mx r s' :
      u8 k → u64 mx → alloc_constrained k mx s = Ret (r, s') →
      step strict (mkWorld s l g) (mkWorld s' (option_list r ++ l) g)
  | step_free s l1 f l2 g s' :
      free f s = Ret (tt, s') →
      step strict (mkWorld s (l1 ++ f :: l2) g) (mkWorld s' (l1 ++ l2) g)
  | step_write s l g f i p n :
      f ∈ l → i ∈ token_frames f → 4096 * i ≤ p < 4096 * (i + 1) →
      step strict (mkWorld s l g)
        (mkWorld (set_mem (partial_alter (λ _, n) (node_ptr (bd s) p) (mem s)) s) l g).

Definition reachable (strict : bool) (w : world) : Prop :=
  ∃ hhdm m, rtc (step strict) (start_world hhdm m) w.

(** ** The invariant *)
Record inv (strict : bool) (w : world) (A : abs) : Prop := {
  inv_rep : Rep (st w) A;
  inv_given : owned A ≡ₚ given w;
  inv_split : owned A ≡ₚ (live w ≫= token_frames) ++ frames A;
  inv_live f : f ∈ live w → 0 ≤ order f ≤ 10 ∧ block_ok A (order f) (base f) ∧
                            f = Frames_new (base f) (order f);
  inv_strict : strict = true → coalesced A
}.

Lemma inv_wf strict w A : inv strict w A → wf A.
Proof. intros H. apply H. Qed.

Lemma inv_taken strict w A f :
  inv strict w A → f ∈ live w → taken A (order f) (base f).
Proof.
  intros Hi Hf. destruct (inv_live _ _ _ Hi f Hf) as (_ & Hok & _). split; [done|].
  intros i Hin. pose proof (wf_owned _ (inv_wf _ _ _ Hi)) as (Hnd & _).
  rewrite (inv_split _ _ _ Hi) in Hnd |- *.
  assert (Hl : i ∈ live w ≫= token_frames) by (apply list_elem_of_bind; eauto).
  apply NoDup_app in Hnd as (_ & Hd & _). split; [set_solver|by apply Hd].
Qed.

Lemma rep_start hhdm m :
  Rep (mkPmm (new hhdm) m) (mkAbs (replicate 11 []) [] [] (2 ^ 64 - 1) 0 hhdm).
Proof.
  split; simpl; try done.
  - split; simpl; try done.
    + intros k l x Hk. apply (lookup_replicate_1 11) in Hk as [-> _]. set_solver.
    + intros r. set_solver.
    + apply NoDup_nil_2.
    + split_and!; [apply NoDup_nil_2|done|set_solver].
  - intros k l Hk. apply (lookup_replicate_1 11) in Hk as [-> Hlt]. exists NULL.
    split; [by apply (lookup_replicate_2 11)|done].
  - intros k l Hk. apply (lookup_replicate_1 11) in Hk as [-> Hlt].
    assert (total_blocks k [] [] = 0) as -> by (unfold total_blocks; simpl; by case_decide).
    by apply (lookup_replicate_2 11).
Qed.

Lemma inv_start strict hhdm m : ∃ A, inv strict (start_world hhdm m) A.
Proof.
  eexists. split; [apply rep_start|done|done|set_solver|].
  intros _ k l x _ Hk. apply (lookup_replicate_1 11) in Hk as [-> _]. set_solver.
Qed.

(** *** Each operation keeps it *)
Lemma inv_insert strict s l g a b A :
  inv strict (mkWorld s l g) A → u64 a → u64 b → a + 4096 < 2 ^ 64 → region_new strict g a b →
  wp (insert_region a b) s (λ _ s', ∃ A', inv strict (mkWorld s' l (region_frames a b ++ g)) A').
Proof.
  intros Hi Ha Hb Ha4 [Hnew Hst]. pose proof (inv_given _ _ _ Hi) as Hg. simpl in Hg.
  destruct (wf_owned _ (inv_wf _ _ _ Hi)) as (_ & Hsub & _).
  pose proof (inv_wf _ _ _ Hi) as Hwf.
  eapply insert_region_spec; [apply Hi|done..| |].
  { intros f Hf. rewrite Hg. by apply Hnew. }
  intros s' A' HR' Ho Hf Hh Hlo Hhi Hco. exists A'. split; simpl; [done| | | |].
  - by rewrite Ho, Hg.
  - rewrite Ho, Hf, (inv_split _ _ _ Hi). simpl. solve_Permutation.
  - intros f Hin. destruct (inv_live _ _ _ Hi f Hin) as (Hk & (?&?&?&?) & He).
    split; [done|]. split; [|done]. split_and!; done || lia.
  - intros Hs. apply Hco; [|by apply Hi].
    destruct (Hst Hs) as [H1 H2]. split; intros Hin; [apply H1|apply H2]; rewrite <-Hg; by apply Hsub.
Qed.

Lemma new_token A k x :
  wf A → 0 ≤ k ≤ 10 → block_ok A k x →
  0 ≤ order (Frames_new x k) ≤ 10 ∧
  block_ok A (order (Frames_new x k)) (base (Frames_new x k)) ∧
  Frames_new x k = Frames_new (base (Frames_new x k)) (order (Frames_new x k)) ∧
  token_frames (Frames_new x k) = block_frames k x.
Proof.
  intros Hwf Hk Hok. unfold token_frames. destruct (token_block A k x) as [-> ->]; done.
Qed.

Lemma inv_allocates strict s l g A s' A' k x :
  inv strict (mkWorld s l g) A → Rep s' A' → 0 ≤ k ≤ 10 → allocates A A' k x →
  inv strict (mkWorld s' (Frames_new x k :: l) g) A'.
Proof.
  intros Hi HR' Hk (Hs & Hp & [Hok _] & Hco). pose proof Hs as (Ho & Hlo & Hhi & _).
  destruct (new_token A' k x) as (Hk' & Hok' & He & Htf); [apply HR'|done..|].
  split; simpl; [done|by rewrite Ho; apply Hi| | |].
  - rewrite Htf, Ho, (inv_split _ _ _ Hi), Hp. simpl. solve_Permutation.
  - intros f [->|Hf]%elem_of_cons; [done|].
    destruct (inv_live _ _ _ Hi f Hf) as (? & ? & ?). split_and!; try done; try lia.
    by eapply same_block_ok.
  - intros Hst. by apply Hco, Hi.
Qed.

Lemma inv_alloc strict s l g k A :
  inv strict (mkWorld s l g) A → u8 k →
  wp (alloc k) s (λ r s', ∃ A', inv strict (mkWorld s' (option_list r ++ l) g) A').
Proof.
  intros Hi Hk. unfold in_width in Hk. destruct (Z.le_gt_cases k 10) as [Hle|Hgt].
  - eapply alloc_spec; [apply Hi|lia| |].
    + intros _. by exists A.
    + intros s' A' x HR' Hal _. exists A'. eapply inv_allocates; [done|done|lia|done].
  - unfold alloc, take_block, MAX_ORDER. rewrite (proj2 (Z.ltb_lt _ _)) by lia.
    repeat wp_step. by exists A.
Qed.

Lemma inv_alloc_constrained strict s l g k mx A :
  inv strict (mkWorld s l g) A → u8 k →
  wp (alloc_constrained k mx) s (λ r s', ∃ A', inv strict (mkWorld s' (option_list r ++ l) g) A').
Proof.
  intros Hi Hk. unfold in_width in Hk. destruct (Z.le_gt_cases k 10) as [Hle|Hgt].
  - eapply alloc_constrained_spec; [apply Hi|lia| |].
    + intros _. by exists A.
    + intros s' A' x HR' Hal _. exists A'. eapply inv_allocates; [done|done|lia|done].
  - unfold alloc_constrained, MAX_ORDER. rewrite (proj2 (Z.ltb_lt _ _)) by lia.
    repeat wp_step. by exists A.
Qed.

Lemma inv_free strict s l1 f l2 g A :
  inv strict (mkWorld s (l1 ++ f :: l2) g) A →
  wp (free f) s (λ _ s', ∃ A', inv strict (mkWorld s' (l1 ++ l2) g) A' ∧ same A A' ∧
                               covered A' (base f) (order f)).
Proof.
  intros Hi. assert (Hf : f ∈ l1 ++ f :: l2) by set_solver.
  destruct (inv_live _ _ _ Hi f Hf) as (Hk & Hok & He).
  rewrite He at 1. eapply free_token; [apply Hi|done|by eapply inv_taken|].
  intros s' A' HR' (Hs & Hp & Hco & Hcov). pose proof Hs as (Ho & Hlo & Hhi & _).
  exists A'. split; [|done]. split; simpl; [done|by rewrite Ho; apply Hi| | |].
  - rewrite Ho, (inv_split _ _ _ Hi), Hp. simpl. rewrite !bind_app. simpl.
    unfold token_frames at 2. solve_Permutation.
  - intros f' Hf'. destruct (inv_live _ _ _ Hi f') as (? & ? & ?); [set_solver|].
    split_and!; try done; try lia. by eapply same_block_ok.
  - intros Hst. by apply Hco, Hi.
Qed.

Lemma inv_write strict s l g A f i p n :
  inv strict (mkWorld s l g) A → f ∈ l → i ∈ token_frames f → 4096 * i ≤ p < 4096 * (i + 1) →
  inv strict (mkWorld (set_mem (partial_alter (λ _, n) (node_ptr (bd s) p) (mem s)) s) l g) A.
Proof.
  intros Hi Hf Hin Hp. pose proof (inv_taken _ _ _ f Hi Hf) as [_ Ht].
  destruct (Ht i Hin) as [Ho Hn]. pose proof (inv_wf _ _ _ Hi) as Hwf.
  destruct (wf_owned _ Hwf) as (_ & _ & Hbd). destruct (Hbd i Ho) as (? & ? & ?).
  pose proof (wf_hi _ Hwf). destruct Hi as [HR Hg Hsp Hlv Hst]. split; try done. simpl in *.
  destruct HR as [_ Hl Hlist Hcount Hfree Htot Hoff Hspan Hruns]. split; simpl; try done.
  intros k l' Hk. destruct (Hlist k l' Hk) as (h & Hh & Hd). exists h. split; [done|].
  eapply seg_frame; [|done]. intros x Hx. unfold node_ptr. rewrite Hoff. fold (ptr (hhdm A) p).
  rewrite lookup_partial_alter_ne; [done|]. intros Heq. apply ptr_inj in Heq.
  - subst p. apply Hn. replace i with (x / 4096) by dlia. by apply (free_head A (Z.of_nat k) l'); rewrite ?Nat2Z.id.
  - unfold in_width. lia.
  - pose proof (list_u64 A k l' Hwf Hk) as Hu. rewrite Forall_forall in Hu. by apply Hu.
Qed.

Lemma inv_step strict w w' A : inv strict w A → step strict w w' → ∃ A', inv strict w' A'.
Proof.
  intros Hi Hstep. destruct Hstep as [s l g a b s' ? ? ? ? Hrun|s l g k r s' ? Hrun
    |s l g k mx r s' ? ? Hrun|s l1 f l2 g s' Hrun|s l g f i p n ? ? ?].
  - by refine (wp_ran _ _ _ _ _ _ Hrun); eapply inv_insert.
  - by refine (wp_ran _ _ _ _ _ _ Hrun); eapply inv_alloc.
  - by refine (wp_ran _ _ _ _ _ _ Hrun); eapply inv_alloc_constrained.
  - destruct (wp_ran _ _ _ _ _ (inv_free _ _ _ _ _ _ _ Hi) Hrun) as (A' & ? & _). eauto.
  - exists A. by eapply inv_write.
Qed.

Lemma reachable_inv strict w : reachable strict w → ∃ A, inv strict w A.
Proof.
  intros (hhdm & m & Hw). pose proof (inv_start strict hhdm m) as Hi. revert Hi.
  induction Hw as [|w1 w2 w3 Hs _ IH]; [done|]. intros [A Hi]. apply IH. by eapply inv_step.
Qed.

Definition held (fs : list Frames) : Z := foldr (λ f n, 2 ^ order f + n) 0 fs.

Lemma length_live strict w A :
  inv strict w A → Z.of_nat (length (live w ≫= token_frames)) = held (live w).
Proof.
  intros Hi. assert (Hl : Forall (λ f, 0 ≤ order f) (live w)).
  { apply Forall_forall. intros f Hf. by apply (inv_live _ _ _ Hi) in Hf as [[? _] _]. }
  induction Hl as [|f l Hf _ IH]; [done|]. cbn [held foldr]. fold (held l).
  rewrite bind_cons, length_app, Nat2Z.inj_add, IH. unfold token_frames.
  rewrite length_block_frames. pose proof (pow2_pos (order f)). lia.
Qed.

(** The frames that are the allocator's to give. *)
Definition available (w : world) (i : Z) : Prop := i ∈ given w ∧ i ∉ live w ≫= token_frames.

Lemma available_free strict w A i : inv strict w A → available w i ↔ i ∈ frames A.
Proof.
  intros Hi. pose proof (wf_owned _ (inv_wf _ _ _ Hi)) as (Hnd & _).
  unfold available. rewrite <-(inv_given _ _ _ Hi). rewrite (inv_split _ _ _ Hi) in Hnd |- *.
  apply NoDup_app in Hnd as (_ & Hd & _). rewrite elem_of_app. naive_solver.
Qed.

Lemma alloc_cases strict w A k r s' :
  inv strict w A → 0 ≤ k ≤ 10 → alloc k (st w) = Ret (r, s') →
  (r = None ∧ exhausted A k) ∨
  ∃ A' x, r = Some (Frames_new x k) ∧ Rep s' A' ∧ allocates A A' k x ∧ ¬ exhausted A k.
Proof.
  intros Hi Hk Hrun. pattern r, s'. refine (wp_ran _ _ _ _ _ _ Hrun).
  eapply alloc_spec; [apply Hi|done| |].
  - intros He. by left.
  - intros s1 A' x HR' Hal Hne. right. by exists A', x.
Qed.

Lemma alloc_constrained_cases strict w A k mx r s' :
  inv strict w A → 0 ≤ k ≤ 10 → alloc_constrained k mx (st w) = Ret (r, s') →
  (r = None ∧ none_below A k mx) ∨
  ∃ A' x, r = Some (Frames_new x k) ∧ Rep s' A' ∧ allocates A A' k x ∧ x + bsize k ≤ mx.
Proof.
  intros Hi Hk Hrun. pattern r, s'. refine (wp_ran _ _ _ _ _ _ Hrun).
  eapply alloc_constrained_spec; [apply Hi|done| |].
  - intros He. by left.
  - intros s1 A' x HR' Hal Hle. right. by exists A', x.
Qed.

(** What the new token stands for. *)
Lemma allocates_available strict w A A' k x :
  inv strict w A → wf A' → 0 ≤ k ≤ 10 → allocates A A' k x →
  (base (Frames_new x k) = x ∧ order (Frames_new x k) = k) ∧
  x mod bsize k = 0 ∧ 4096 ≤ x ∧ ∀ i, i ∈ block_frames k x → available w i.
Proof.
  intros Hi Hwf' Hk (Hs & Hp & [Hok _] & _). split; [by apply (token_block A')|].
  destruct Hok as (Hal & Hx & _). split_and!; [done..|].
  intros i Hin. apply (available_free _ _ _ _ Hi). rewrite Hp. set_solver.
Qed.

(** A wholly available block starts inside a listed block or a run, and any
    block that starts no lower than that one. *)
Lemma none_below_covered A k mx x :
  wf A → 0 ≤ k ≤ 10 → x mod bsize k = 0 → none_below A k mx → covered A x k → mx < x + bsize k.
Proof.
  intros Hwf Hk Hx [Hl Hr] [(r & Hin & Hrx)|(j & Hj & l & Hlj & Hin)].
  - specialize (Hr r Hin). lia.
  - specialize (Hl j l _ Hj Hlj Hin). pose proof (bsize_pos j).
    pose proof (Z.mod_pos_bound x (bsize j)). lia.
Qed.

Lemma available_covered w A k x :
  inv true w A → 0 ≤ k ≤ 10 → x mod bsize k = 0 →
  (∀ i, i ∈ block_frames k x → available w i) → covered A x k.
Proof.
  intros Hi Hk Hx Hav. apply free_block_covered; [by eapply inv_wf|by apply Hi|done|done|].
  intros i Hin. by apply (available_free _ _ _ _ Hi), Hav.
Qed.

Lemma covered_block_ok A k x :
  wf A → 0 ≤ k ≤ 10 → x mod bsize k = 0 → covered A x k → block_ok A k x.
Proof.
  intros Hwf Hk Hx [(r & Hin & Hrx)|(j & Hj & l & Hl & Hin)].
  - destruct (wf_run _ Hwf r Hin) as (H1 & H2 & ? & ? & ? & ?). split_and!; [done|lia|lia|].
    apply (mod_pow2_weaken _ (12 + k)) in H2; [|lia]. pose proof (bsize_pos k).
    enough (x + bsize k ≤ snd r) by lia. apply multiples_apart; done || lia.
  - pose proof (block_in_list A j l _ Hwf ltac:(lia) Hl Hin) as (H1 & ? & ? & ?).
    pose proof (bsize_pos j). pose proof (bsize_pos k). pose proof (Z.mod_pos_bound x (bsize j)).
    split_and!; [done|lia|lia|]. set (y := x - x mod bsize j) in *.
    enough (x + bsize k ≤ y + bsize j) by lia. apply multiples_apart; [lia|done| |lia].
    apply (mod_pow2_weaken _ _ (12 + j)); [lia|]. fold (bsize j).
    by rewrite Z.add_mod, H1, Z.mod_same by lia.
Qed.

(** *** Counters *)
Lemma largest_order_spec c n (Q : option Z → Prop) :
  length c = 11%nat → (n ≤ 10)%nat →
  (∀ j x, 0 ≤ j ≤ Z.of_nat n → c !! Z.to_nat j = Some x → 0 < x →
     (∀ i y, j < Z.of_nat i ≤ Z.of_nat n → c !! i = Some y → y ≤ 0) → Q (Some j)) →
  ((∀ i y, (i ≤ n)%nat → c !! i = Some y → y ≤ 0) → Q None) →
  owp (largest_order c n) Q.
Proof.
  intros Hlen. induction n as [|n IH]; intros Hn HS HN; cbn [largest_order].
  all: match goal with |- context [index _ (Z.of_nat ?m)] =>
         destruct (lookup_lt_is_Some_2 c m) as [x Hx]; [lia|] end.
  all: wp_step; eapply owp_index; [lia|by rewrite Nat2Z.id|].
  all: destruct (Z.ltb_spec 0 x) as [Hpos|Hz];
    [wp_step; unfold wrap; rewrite Z.mod_small by lia;
     eapply HS; [lia|by rewrite Nat2Z.id|done|lia]|].
  - wp_step. apply HN. intros i y Hi Hy. assert (i = O) as -> by lia. by simplify_eq.
  - apply IH; [lia| |].
    + intros j y Hj Hy Hpos Habove. eapply HS; [lia|done|done|].
      intros i z Hi Hz'. destruct (decide (i = S n)) as [->|]; [by simplify_eq|].
      eapply Habove; [|done]. lia.
    + intros Hall. apply HN. intros i y Hi Hy.
      destruct (decide (i = S n)) as [->|]; [by simplify_eq|]. eapply Hall; [|done]. lia.
Qed.

Lemma sum_runs_pos A r rs : wf A → truns A = r :: rs → 0 < sum_runs (truns A).
Proof.
  intros Hwf Hrs. assert (Hn : ∀ rs', (∀ r, r ∈ rs' → run_ok A r) → 0 ≤ sum_runs rs').
  { induction rs' as [|r' rs' IH]; intros Hok; [done|]. simpl.
    assert (0 ≤ sum_runs rs') by (apply IH; set_solver).
    assert (run_ok A r') by (apply Hok; set_solver). run_arith. dlia. }
  rewrite Hrs. simpl. assert (0 ≤ sum_runs rs).
  { apply Hn. intros r' Hr'. apply (wf_run _ Hwf). rewrite Hrs. set_solver. }
  assert (run_ok A r) by (apply (wf_run _ Hwf); rewrite Hrs; set_solver). run_arith. dlia.
Qed.

Lemma exhausted_counts s A k :
  Rep s A → 0 ≤ k ≤ 10 →
  exhausted A k ↔ ∀ i c, k ≤ Z.of_nat i → counts (bd s) !! i = Some c → c ≤ 0.
Proof.
  intros HR Hk. pose proof (rep_wf _ _ HR) as Hwf. destruct (rep_len _ _ HR) as [_ Hlen]. split.
  - intros [Hl Hr] i c Hi Hc. pose proof (lookup_lt_Some _ _ _ Hc).
    specialize (Hl (Z.of_nat i) ltac:(lia)). rewrite Nat2Z.id in Hl.
    rewrite (rep_count _ _ HR _ _ Hl) in Hc. simplify_eq. unfold total_blocks. rewrite Hr. simpl.
    case_decide; lia.
  - intros Hc. assert (Hz : ∀ j l, k ≤ j ≤ 10 → lists A !! Z.to_nat j = Some l →
      total_blocks (Z.to_nat j) (truns A) l ≤ 0).
    { intros j l Hj Hl. eapply Hc; [|by eapply rep_count]. lia. }
    destruct (order_lookup A 10 Hwf) as [l10 H10]; [lia|].
    assert (Hr : truns A = []).
    { destruct (truns A) as [|r rs] eqn:E; [done|]. pose proof (sum_runs_pos A r rs Hwf E) as Hp.
      specialize (Hz 10 l10 ltac:(lia) H10). unfold total_blocks in Hz. rewrite <-E in Hz.
      rewrite decide_True in Hz by done. lia. }
    split; [|done]. intros j Hj. destruct (order_lookup A j Hwf) as [l Hl]; [lia|].
    specialize (Hz j l Hj Hl). unfold total_blocks in Hz. rewrite Hr in Hz. simpl in Hz.
    destruct l; [done|]. simpl in Hz. case_decide; lia.
Qed.

Lemma stats_spec s A :
  Rep s A → ∃ o, stats (bd s) = Ret (mkPmmStats (total_frames (bd s)) (free_frames (bd s)) o) ∧
    ∀ k, 0 ≤ k ≤ 10 → ¬ exhausted A k ↔ ∃ j, o = Some j ∧ k ≤ j.
Proof.
  intros HR. destruct (rep_len _ _ HR) as [_ Hlen].
  enough (Ho : owp (largest_order (counts (bd s)) 10) (λ o,
    ∀ k, 0 ≤ k ≤ 10 → ¬ exhausted A k ↔ ∃ j, o = Some j ∧ k ≤ j)).
  { apply owp_run in Ho as (o & Ho & HQ). exists o. split; [|done].
    unfold stats. change (Z.to_nat MAX_ORDER) with 10%nat. by rewrite Ho. }
  apply largest_order_spec; [done|lia| |].
  - intros j x Hj Hx Hpos Habove k Hk. rewrite (exhausted_counts s A k HR Hk). split.
    + intros Hn. exists j. split; [done|]. apply Znot_gt_le. intros Hgt. apply Hn.
      intros i c Hi Hc. pose proof (lookup_lt_Some _ _ _ Hc). eapply Habove; [|done]. lia.
    + intros (j' & [= <-] & Hle) Hall. specialize (Hall (Z.to_nat j) x ltac:(lia) Hx). lia.
  - intros Hall k Hk. rewrite (exhausted_counts s A k HR Hk). split; [|naive_solver].
    intros Hn. destruct Hn. intros i c Hi Hc. pose proof (lookup_lt_Some _ _ _ Hc).
    eapply Hall; [|done]. lia.
Qed.
