(* ===== verification/PmmRange.v ===== *)
(** * Ranges and sizes of physical memory

    [order_for], [crosses_boundary], [choose_trampoline_page] and
    [clip_usable] of src/crates/core/src/mm/pmm.rs against their arithmetic
    meaning. *)

From Stdlib Require Import Zpow_facts.
From stdpp Require Import base gmap list numbers strings sorting.
From S2P Require Import Prelude Pmm PmmRep PmmBuddy PmmPrim PmmRuns PmmSpec.

Local Open Scope Z_scope.

Import Pmm.

(** ** clip_usable *)

(** An exclusion rounded outward to pages. *)
Definition excl_lo (e : Z * Z) : Z := fst e / 4096 * 4096.
Definition excl_hi (e : Z * Z) : Z := Z.min ((snd e + 4095) / 4096 * 4096) (2 ^ 64 - 1).
Definition in_range (r : Z * Z) (x : Z) : Prop := fst r ≤ x < snd r.
Definition hits (e : Z * Z) (x : Z) : Prop := fst e < snd e ∧ excl_lo e ≤ x < excl_hi e.
Definition excluded (excl : list (Z * Z)) (x : Z) : Prop := ∃ e, e ∈ excl ∧ hits e x.
Definition u64_range (e : Z * Z) : Prop := u64 (fst e) ∧ u64 (snd e).

Global Instance hits_dec e x : Decision (hits e x).
Proof. apply _. Defined.
Global Instance excluded_dec excl x : Decision (excluded excl x).
Proof.
  refine (cast_if (decide (Exists (λ e, hits e x) excl))); unfold excluded; by rewrite <-Exists_exists.
Defined.

Lemma clip_scan_eq cur acc e :
  u64_range e →
  clip_scan cur acc e =
    if decide (hits e cur) then
      (Some (match fst acc with None => excl_hi e | Some s => Z.max s (excl_hi e) end), snd acc)
    else if decide (fst e < snd e ∧ cur < excl_lo e ∧ excl_lo e < snd acc)
    then (fst acc, excl_lo e) else acc.
Proof.
  intros [Hs He]. destruct acc as [sk nx]. unfold clip_scan.
  rewrite !align_down_eq by done. fold (excl_lo e).
  assert (match checked_add 64 (snd e) (PAGE_SIZE - 1) with
          | Some x => align_down x PAGE_SIZE | None => 2 ^ 64 - 1 end = excl_hi e) as ->.
  { unfold checked_add, excl_hi, in_width in *. rewrite PAGE_SIZE_eq.
    destruct (Z.ltb_spec (snd e + (4096 - 1)) (2 ^ 64)).
    - rewrite <-PAGE_SIZE_eq at 1. rewrite align_down_eq by (unfold in_width; rewrite ?PAGE_SIZE_eq; lia).
      rewrite ?PAGE_SIZE_eq. dlia.
    - dlia. }
  unfold hits. simpl fst. simpl snd.
  destruct (Z.leb_spec (snd e) (fst e)), (Z.leb_spec (excl_lo e) cur), (Z.ltb_spec cur (excl_hi e)),
    (Z.ltb_spec cur (excl_lo e)), (Z.ltb_spec (excl_lo e) nx); simpl;
    repeat case_decide; done || lia.
Qed.

(** What the scan of a list of exclusions knows. *)
Definition scanned (cur end_ : Z) (es : list (Z * Z)) (acc : option Z * Z) : Prop :=
  (match fst acc with
   | None => ¬ excluded es cur
   | Some h => (∃ e, e ∈ es ∧ hits e cur ∧ excl_hi e = h) ∧
               ∀ e, e ∈ es → hits e cur → excl_hi e ≤ h
   end) ∧
  (snd acc = end_ ∨ ∃ e, e ∈ es ∧ fst e < snd e ∧ excl_lo e = snd acc) ∧
  cur < snd acc ≤ end_ ∧
  ∀ e, e ∈ es → fst e < snd e → cur < excl_lo e → snd acc ≤ excl_lo e.

Lemma elem_of_snoc {A} (l : list A) x y : y ∈ l ++ [x] ↔ y ∈ l ∨ y = x.
Proof. set_solver. Qed.

(** An exclusion away from [cur] changes nothing about what covers it. *)
Lemma not_hit cur es e sk :
  ¬ hits e cur →
  match sk with
  | None => ¬ excluded es cur
  | Some h => (∃ e, e ∈ es ∧ hits e cur ∧ excl_hi e = h) ∧
              ∀ e, e ∈ es → hits e cur → excl_hi e ≤ h
  end →
  match sk with
  | None => ¬ excluded (es ++ [e]) cur
  | Some h => (∃ e0, e0 ∈ es ++ [e] ∧ hits e0 cur ∧ excl_hi e0 = h) ∧
              ∀ e0, e0 ∈ es ++ [e] → hits e0 cur → excl_hi e0 ≤ h
  end.
Proof.
  intros Hn. destruct sk as [h|].
  - intros [(e0 & He0 & Hh0) Hmax]. split; [exists e0; split; [set_solver|done]|].
    intros e' [He'| ->]%elem_of_snoc Hh'; [by apply Hmax|done].
  - intros Hex (e' & [He'| ->]%elem_of_snoc & Hh'); [|done]. apply Hex. by exists e'.
Qed.

Lemma scan_spec cur end_ es :
  cur < end_ → Forall u64_range es →
  scanned cur end_ es (fold_left (clip_scan cur) es (None, end_)).
Proof.
  intros Hlt. induction es as [|e es IH] using rev_ind; intros Hu.
  { split_and!; simpl; [intros (e & He & _); set_solver|by left|lia|lia|set_solver]. }
  apply Forall_app in Hu as [Hu He]. pose proof (Forall_inv He) as Hue.
  rewrite fold_left_app. cbn [fold_left]. rewrite (clip_scan_eq _ _ e Hue).
  destruct (IH Hu) as (Hsk & Hnx & Hb & Hmin).
  assert (Hnx' : snd (fold_left (clip_scan cur) es (None, end_)) = end_ ∨
    ∃ e0, e0 ∈ es ++ [e] ∧ fst e0 < snd e0 ∧
          excl_lo e0 = snd (fold_left (clip_scan cur) es (None, end_))).
  { destruct Hnx as [?|(e0 & ? & ?)]; [by left|right]. exists e0. set_solver. }
  destruct (fold_left _ _ _) as [sk nx]. simpl in *.
  case_decide as Hh; [|case_decide as Hn]; unfold scanned; simpl.
  - split; [|split; [done|split; [lia|]]]; last first.
    { intros e' [?|Heq]%elem_of_snoc ??; [by apply Hmin|]. subst. unfold hits in Hh. lia. }
    destruct sk as [h|].
    + destruct Hsk as [(e0 & He0 & Hh0 & <-) Hmax]. split.
      * destruct (Z.max_spec (excl_hi e0) (excl_hi e)) as [[_ ->]|[_ ->]]; [exists e|exists e0];
          (split; [set_solver|done]).
      * intros e' [He'| ->]%elem_of_snoc Hh'; [specialize (Hmax e' He' Hh')|]; lia.
    + split; [exists e; split; [set_solver|done]|].
      intros e' [He'| ->]%elem_of_snoc Hh'; [|lia]. destruct Hsk. by exists e'.
  - split_and!; [|right; exists e; split; [set_solver|lia]|lia|lia|].
    + by apply not_hit.
    + intros e' [He'| ->]%elem_of_snoc ??; [|lia]. specialize (Hmin e' He'). lia.
  - split_and!; [|done|lia|lia|].
    + by apply not_hit.
    + intros e' [He'| ->]%elem_of_snoc ??; [by apply Hmin|]. lia.
Qed.

(** The loop's measure: the exclusions still ahead, twice, and one when the
    position is not excluded. *)
Definition ahead (cur : Z) (es : list (Z * Z)) : nat :=
  length (filter (λ e, cur < excl_hi e) es).
Definition clip_measure (cur : Z) (es : list (Z * Z)) : nat :=
  2 * ahead cur es + (if decide (excluded es cur) then 0 else 1).

Lemma ahead_le cur cur' es : cur ≤ cur' → (ahead cur' es ≤ ahead cur es)%nat.
Proof.
  intros Hle. unfold ahead. induction es as [|e es IH]; [done|].
  rewrite !filter_cons. repeat case_decide; simpl; lia.
Qed.

Lemma ahead_lt cur cur' es e :
  cur ≤ cur' → e ∈ es → cur < excl_hi e ≤ cur' → (ahead cur' es < ahead cur es)%nat.
Proof.
  intros Hle (es1 & es2 & ->)%list_elem_of_split He. unfold ahead.
  rewrite !filter_app, !length_app, !filter_cons, decide_False, decide_True by lia.
  pose proof (ahead_le cur cur' es1 Hle). pose proof (ahead_le cur cur' es2 Hle).
  unfold ahead in *. simpl. lia.
Qed.

Definition clipped (cur end_ : Z) (es rs : list (Z * Z)) : Prop :=
  (∀ x, (∃ c, c ∈ rs ∧ in_range c x) ↔ cur ≤ x < end_ ∧ ¬ excluded es x) ∧
  StronglySorted (λ c d, snd c < fst d) rs ∧
  Forall (λ c, cur ≤ fst c ∧ fst c < snd c) rs.

Lemma clip_loop_spec fuel cur end_ es (Q : list (Z * Z) → Prop) :
  Forall u64_range es → (cur < end_ → (clip_measure cur es < fuel)%nat) → (0 < fuel)%nat →
  (∀ rs, clipped cur end_ es rs → Q rs) →
  owp (clip_loop fuel cur end_ es) Q.
Proof.
  intros Hu. revert cur Q. induction fuel as [|fuel IH]; intros cur Q Hf Hpos HQ; [lia|].
  cbn [clip_loop]. destruct (Z.ltb_spec cur end_) as [Hlt|Hge]; last first.
  { apply owp_ret, HQ. split_and!; [|constructor|constructor].
    intros x. split; [intros (c & Hc & _); set_solver|lia]. }
  specialize (Hf Hlt). destruct (scan_spec cur end_ es Hlt Hu) as (Hsk & Hnx & Hb & Hmin).
  destruct (fold_left _ _ _) as [[h|] nx]; simpl in *; unfold clip_measure in *.
  - destruct Hsk as [(e & He & Hhit & <-) Hmax].
    assert (Hce : cur < excl_hi e) by apply Hhit.
    pose proof (ahead_lt cur (excl_hi e) es e ltac:(lia) He ltac:(lia)) as Hah.
    rewrite decide_True in Hf by (by exists e).
    apply IH; [intros _; case_decide; lia|lia|]. intros rs (Hex & Hso & Hfo). apply HQ. split_and!.
    + intros x. rewrite Hex. split; [intros [? ?]; split; [lia|done]|].
      intros [Hx Hn]. split; [|done]. split; [|lia]. apply Znot_gt_le. intros Hgt. apply Hn.
      exists e. split; [done|]. unfold hits in *. lia.
    + done.
    + eapply Forall_impl; [done|]. simpl. lia.
  - rewrite decide_False in Hf by done. wp_step.
    assert (Hclear : ∀ x, cur ≤ x < nx → ¬ excluded es x).
    { intros x Hx (e & He & Hhit). destruct (Z.le_gt_cases (excl_lo e) cur).
      - apply Hsk. exists e. split; [done|]. unfold hits in *. lia.
      - specialize (Hmin e He). unfold hits in *. lia. }
    apply IH; [|lia|].
    + intros Hlt'. pose proof (ahead_le cur nx es ltac:(lia)).
      destruct Hnx as [->|(e & He & Hne & Hlo)]; [lia|]. rewrite decide_True; [lia|].
      exists e. split; [done|]. unfold hits. rewrite Forall_forall in Hu.
      destruct (Hu e He) as [? ?]. unfold excl_lo, excl_hi, in_width in *. dlia.
    + intros rs (Hex & Hso & Hfo). wp_step. apply HQ.
      assert (Hrest : Forall (λ d, nx < fst d) rs).
      { apply Forall_forall. intros d Hd. rewrite Forall_forall in Hfo.
        destruct (Hfo d Hd) as [Hnd Hdd]. destruct (Z.eq_dec (fst d) nx) as [Heq|]; [|lia].
        destruct (proj1 (Hex nx)) as [Hin Hn]; [exists d; split; [done|]; unfold in_range; lia|].
        destruct Hnx as [->|(e & He & Hne & Hlo)]; [lia|]. exfalso. apply Hn.
        exists e. split; [done|]. unfold hits. rewrite Forall_forall in Hu.
        destruct (Hu e He) as [? ?]. unfold excl_lo, excl_hi, in_width in *. dlia. }
      split_and!.
      * intros x. specialize (Hex x). specialize (Hclear x). setoid_rewrite elem_of_cons. split.
        -- intros (c & [->|Hc] & Hx); [unfold in_range in Hx; simpl in Hx; split; [lia|auto]|].
           destruct (proj1 Hex) as [? ?]; [eauto|]. split; [lia|done].
        -- intros [Hx Hn]. destruct (Z.lt_ge_cases x nx).
           ++ exists (cur, nx). split; [by left|]. unfold in_range. simpl. lia.
           ++ destruct (proj2 Hex) as (c & ? & ?); [split; [lia|done]|]. eauto.
      * constructor; done.
      * constructor; [simpl; lia|]. eapply Forall_impl; [exact Hfo|]. simpl. lia.
Qed.

Lemma clip_usable_spec r excl :
  Forall u64_range excl →
  ∃ rs, clip_usable r excl = Ret rs ∧ clipped (fst r) (snd r) excl rs.
Proof.
  intros Hu. apply owp_run. unfold clip_usable. apply clip_loop_spec; [done| |lia|done].
  intros _. unfold clip_measure.
  assert (ahead (fst r) excl ≤ length excl)%nat by apply length_filter. case_decide; lia.
Qed.

(** ** choose_trampoline_page *)

(** [p] is a page in [[0x1000, 0x100000)] inside the range [r]. *)
Definition tramp_page (r : Z * Z) (p : Z) : Prop :=
  p mod 4096 = 0 ∧ 4096 ≤ p ∧ p + 4096 ≤ TRAMPOLINE_LIMIT ∧ fst r ≤ p ∧ p + 4096 ≤ snd r.

(** The lowest page of one range, and the best so far with it. *)
Lemma trampoline_step_spec best r :
  u64_range r →
  (trampoline_step best r = best ∧
     ∀ p, tramp_page r p → ∃ b, best = Some b ∧ b ≤ p) ∨
  (∃ q, trampoline_step best r = Some q ∧ tramp_page r q ∧
     (∀ p, tramp_page r p → q ≤ p) ∧ ∀ b, best = Some b → q < b).
Proof.
  intros [Hs He]. unfold trampoline_step, checked_add, tramp_page, TRAMPOLINE_LIMIT, in_width in *.
  rewrite PAGE_SIZE_eq.
  destruct (Z.ltb_spec (fst r + (4096 - 1)) (2 ^ 64)) as [Hlt|]; [|left; split; [done|lia]].
  rewrite <-PAGE_SIZE_eq, !align_down_eq, PAGE_SIZE_eq
    by (unfold in_width; rewrite ?PAGE_SIZE_eq in *; lia).
  set (lo := Z.max ((fst r + (4096 - 1)) / 4096 * 4096) 4096).
  set (hi := Z.min (snd r / 4096 * 4096) 1048576).
  assert (Hlo : ∀ p, p mod 4096 = 0 → 4096 ≤ p → fst r ≤ p → lo ≤ p) by (intros; subst lo; dlia).
  assert (Hhi : ∀ p, p mod 4096 = 0 → p + 4096 ≤ 1048576 → p + 4096 ≤ snd r → p + 4096 ≤ hi)
    by (intros; subst hi; dlia).
  destruct (Z.ltb_spec (lo + 4096) (2 ^ 64));
    [|left; split; [done|intros p (? & ? & ? & ? & ?); specialize (Hlo p); lia]].
  destruct (Z.leb_spec (lo + 4096) hi); cbn [andb];
    [|left; split; [done|intros p (? & ? & ? & ? & ?); specialize (Hlo p); specialize (Hhi p); lia]].
  assert (Hq : tramp_page r lo)
    by (unfold tramp_page, TRAMPOLINE_LIMIT; subst lo hi; dlia).
  destruct best as [b|]; [destruct (Z.ltb_spec lo b) as [Hb|Hb]|].
  - right. exists lo. split_and!; [done|apply Hq..| |]; [naive_solver|by intros b' [= <-]].
  - left. split; [done|]. intros p (? & ? & _ & ? & _). exists b. split; [done|]. etrans; [done|auto].
  - right. exists lo. split_and!; [done|apply Hq..| |]; [naive_solver|done].
Qed.

Lemma choose_trampoline_page_spec usable :
  Forall u64_range usable →
  match choose_trampoline_page usable with
  | Some p => (∃ r, r ∈ usable ∧ tramp_page r p) ∧
              ∀ r q, r ∈ usable → tramp_page r q → p ≤ q
  | None => ∀ r q, r ∈ usable → ¬ tramp_page r q
  end.
Proof.
  unfold choose_trampoline_page. induction usable as [|r rs IH] using rev_ind; intros Hu.
  { simpl. set_solver. }
  apply Forall_app in Hu as [Hu Hr]. specialize (IH Hu). rewrite fold_left_app. cbn [fold_left].
  destruct (trampoline_step_spec (fold_left trampoline_step rs None) r (Forall_inv Hr))
    as [[-> Hold]|(q & -> & Hq & Hmin & Hlt)].
  - destruct (fold_left _ _ _) as [p|].
    + destruct IH as [(r0 & ? & ?) Hmin]. split; [exists r0; split; [set_solver|done]|].
      intros r' q [Hr'| ->]%elem_of_snoc Hq; [by eapply Hmin|].
      destruct (Hold q Hq) as (b & [= <-] & ?). done.
    + intros r' q [Hr'| ->]%elem_of_snoc Hq; [by eapply IH|]. by destruct (Hold q Hq) as (? & ? & _).
  - split; [exists r; split; [set_solver|done]|].
    intros r' q' [Hr'| ->]%elem_of_snoc Hq'; [|by apply Hmin].
    destruct (fold_left _ _ _) as [p|]; [|by destruct (IH r' q' Hr')].
    destruct IH as [_ IH]. specialize (IH r' q' Hr' Hq'). specialize (Hlt p eq_refl). lia.
Qed.

(** ** order_for *)
Lemma is_power_of_two_spec x : is_power_of_two x = true ↔ ∃ n, 0 ≤ n ∧ x = 2 ^ n.
Proof.
  unfold is_power_of_two. rewrite andb_true_iff, Z.ltb_lt, Z.eqb_eq. split.
  - intros [Hx Heq]. exists (Z.log2 x). split; [apply Z.log2_nonneg|done].
  - intros (n & Hn & ->). rewrite Z.log2_pow2 by done. split; [by apply pow2_pos|done].
Qed.

(** The request [(bytes, align)] fits a block of order [k]. *)
Definition order_fits (bytes align k : Z) : Prop :=
  bytes ≤ 4096 * 2 ^ k ∧ ((if align =? 0 then 4096 else align) | 4096 * 2 ^ k).

Lemma trailing_zeros_pow2 w n : 0 ≤ n < w → trailing_zeros w (2 ^ n) = n.
Proof.
  intros Hn. pose proof (pow2_pos n). pose proof (pow2_lt n w).
  destruct (trailing_zeros_spec w (2 ^ n)) as (m & Ht & Heq); [lia|].
  assert (n ≤ trailing_zeros w (2 ^ n)).
  { apply trailing_zeros_divide; [lia|lia|]. apply Z.mod_same. lia. }
  set (t := trailing_zeros w (2 ^ n)) in *.
  destruct (Z.eq_dec t n) as [|]; [done|]. pose proof (pow2_lt n t ltac:(lia)).
  pose proof (pow2_pos n ltac:(lia)). assert (0 < 2 * m + 1) by nia. nia.
Qed.

Lemma log2_up_le x n : 0 ≤ n → 1 ≤ x → Z.log2_up x ≤ n ↔ x ≤ 2 ^ n.
Proof. intros. symmetry. apply Z.log2_up_le_pow2. lia. Qed.

(** The order as a base-two logarithm: large enough for the size and for the
    alignment. *)
Lemma order_fits_pow2 bytes n k :
  0 < bytes → 0 ≤ n → 0 ≤ k →
  order_fits bytes (2 ^ n) k ↔ Z.log2_up (Z.max bytes 4096) ≤ 12 + k ∧ n ≤ 12 + k.
Proof.
  intros Hb Hn Hk. unfold order_fits. pose proof (pow2_pos n). pose proof (pow2_pos k).
  rewrite (proj2 (Z.eqb_neq (2 ^ n) 0)) by lia. change 4096 with (2 ^ 12).
  rewrite <-Z.pow_add_r by lia. rewrite log2_up_le by lia. pose proof (pow2_le 12 (12 + k)).
  split; intros [Hsz Hal]; (split; [lia|]).
  - apply Z.divide_pos_le in Hal; [|apply pow2_pos; lia].
    apply (Z.pow_le_mono_r_iff 2); lia.
  - apply pow2_divide. lia.
Qed.

Lemma order_fits_zero bytes k : order_fits bytes 0 k ↔ order_fits bytes (2 ^ 12) k.
Proof. done. Qed.

Lemma owp_order_for_pow2 bytes n (Q : option Z → Prop) :
  0 < bytes ≤ 4194304 → 0 ≤ n < 64 →
  (let m := Z.max (Z.log2_up (Z.max bytes 4096)) n in
   Q (if 22 <? m then None else Some (Z.max m 12 - 12))) →
  owp (order_for bytes (2 ^ n)) Q.
Proof.
  intros Hb Hn. set (l := Z.log2_up (Z.max bytes 4096)).
  assert (Hl : 12 ≤ l ≤ 22).
  { split; [|apply log2_up_le; lia]. change 12 with (Z.log2_up 4096) at 1. apply Z.log2_up_le_mono. lia. }
  intros HQ. simpl in HQ. unfold order_for. wp_step. apply owp_top. rewrite T_eq.
  rewrite (proj2 (Z.eqb_neq bytes 0)), (proj2 (Z.ltb_ge _ bytes)) by lia. simpl orb. cbv iota.
  pose proof (pow2_pos n ltac:(lia)). rewrite (proj2 (Z.eqb_neq (2 ^ n) 0)) by lia.
  rewrite (proj2 (is_power_of_two_spec (2 ^ n))) by (exists n; split; [lia|done]). cbn [negb].
  rewrite PAGE_SIZE_eq. wp_step. unfold next_power_of_two.
  rewrite (proj2 (Z.leb_gt _ _)) by lia. fold l. apply owp_checked.
  { pose proof (pow2_pos l ltac:(lia)). pose proof (pow2_lt l 64 ltac:(lia)). unfold in_width. lia. }
  set (m := Z.max l n) in *.
  assert (Hneed : Z.max (2 ^ l) (Z.max (2 ^ n) 4096) / 4096 = 2 ^ (m - 12)).
  { assert (Z.max (2 ^ l) (Z.max (2 ^ n) 4096) = 2 ^ m) as ->.
    { pose proof (pow2_le 12 l ltac:(lia)). change (2 ^ 12) with 4096 in *. subst m.
      destruct (Z.max_spec l n) as [[? ->]|[? ->]].
      - pose proof (pow2_lt l n ltac:(lia)). lia.
      - pose proof (pow2_le n l ltac:(lia)). lia. }
    change 4096 with (2 ^ 12). symmetry. apply Z.pow_sub_r; lia. }
  rewrite Hneed. pose proof (pow2_pos (m - 12) ltac:(lia)).
  pose proof (pow2_lt (m - 12) 64 ltac:(lia)).
  rewrite (proj2 (Z.eqb_neq _ 0)) by lia. repeat wp_step; [unfold in_width; lia|].
  rewrite land_mask, Z.mod_same by lia. cbn [negb Z.eqb].
  rewrite trailing_zeros_pow2 by lia. unfold wrap, MAX_ORDER. rewrite Z.mod_small by lia.
  rewrite (Z.max_l m 12) in HQ by lia.
  destruct (Z.ltb_spec 22 m), (Z.ltb_spec 10 (m - 12)); done || lia.
Qed.

(** The least order a request fits, or none. *)
Definition best_order (bytes align : Z) (o : option Z) : Prop :=
  match o with
  | Some k => 0 < bytes ∧ 0 ≤ k ≤ 10 ∧ order_fits bytes align k ∧
              ∀ j, 0 ≤ j < k → ¬ order_fits bytes align j
  | None => bytes = 0 ∨ ∀ k, 0 ≤ k ≤ 10 → ¬ order_fits bytes align k
  end.

Lemma order_for_aligned bytes n :
  0 < bytes ≤ 4194304 → 0 ≤ n < 64 → owp (order_for bytes (2 ^ n)) (best_order bytes (2 ^ n)).
Proof.
  intros Hb Hn. apply owp_order_for_pow2; [done..|]. simpl. unfold best_order.
  set (m := Z.max _ n). assert (Hm : 12 ≤ m).
  { subst m. pose proof (Z.log2_up_le_mono 4096 (Z.max bytes 4096) ltac:(lia)).
    change (Z.log2_up 4096) with 12 in *. lia. }
  rewrite (Z.max_l m 12) by lia.
  destruct (Z.ltb_spec 22 m) as [Hbig|Hsmall].
  - right. intros k Hk. rewrite order_fits_pow2 by lia. lia.
  - split_and!; [lia|lia|lia| |].
    + rewrite order_fits_pow2 by lia. lia.
    + intros j Hj. rewrite order_fits_pow2 by lia. lia.
Qed.

Lemma order_for_spec bytes align :
  u64 bytes → u64 align → owp (order_for bytes align) (best_order bytes align).
Proof.
  intros Hb Ha. unfold in_width in *.
  destruct (decide (bytes = 0)) as [->|Hb0].
  { unfold order_for. wp_step. apply owp_top. simpl. by left. }
  destruct (decide (4194304 < bytes)) as [Hbig|Hsmall].
  { unfold order_for. wp_step. apply owp_top. rewrite T_eq.
    rewrite (proj2 (Z.ltb_lt _ bytes)), orb_true_r by done. wp_step. right. intros k Hk [Hk1 _].
    pose proof (pow2_le k 10 ltac:(lia)). lia. }
  destruct (decide (align = 0)) as [->|Ha0].
  { exact (order_for_aligned bytes 12 ltac:(lia) ltac:(lia)). }
  destruct (is_power_of_two align) eqn:Hp.
  - apply is_power_of_two_spec in Hp as (n & Hn & ->). apply order_for_aligned; [lia|].
    split; [done|]. apply (Z.pow_lt_mono_r_iff 2); lia.
  - unfold order_for. wp_step. apply owp_top. rewrite T_eq.
    rewrite (proj2 (Z.eqb_neq bytes 0)), (proj2 (Z.ltb_ge _ bytes)) by lia. simpl orb. cbv iota.
    rewrite (proj2 (Z.eqb_neq align 0)), Hp by lia. simpl. right. intros k Hk [_ Hd].
    rewrite (proj2 (Z.eqb_neq align 0)) in Hd by lia. change 4096 with (2 ^ 12) in Hd.
    rewrite <-Z.pow_add_r in Hd by lia.
    destruct (Zdivide_power_2 align 2 (12 + k)) as [q ->];
      [lia|lia|apply Znumtheory.prime_2|done|].
    apply not_true_iff_false in Hp. apply Hp, is_power_of_two_spec. exists q. split; [|done].
    destruct (Z.le_gt_cases 0 q); [done|]. rewrite Z.pow_neg_r in Ha0; lia.
Qed.

(** ** crosses_boundary *)
Lemma crosses_boundary_spec phys size n :
  0 ≤ phys → 0 < size → 0 ≤ n < 64 → phys mod 2 ^ n + size < 2 ^ 64 →
  crosses_boundary phys size (2 ^ n) =
    Ret (negb (phys / 2 ^ n =? (phys + size - 1) / 2 ^ n)).
Proof.
  intros Hp Hs Hn Hu. apply owp_eq. unfold crosses_boundary.
  pose proof (pow2_pos n ltac:(lia)) as HB. pose proof (pow2_lt n 64 ltac:(lia)).
  rewrite !(proj2 (Z.eqb_neq _ 0)) by lia. simpl orb. cbv iota.
  repeat wp_step; [unfold in_width; lia|..].
  { rewrite land_mask by lia. pose proof (Z.mod_pos_bound phys (2 ^ n)). unfold in_width. lia. }
  rewrite land_mask by lia. f_equal. set (B := 2 ^ n) in *.
  pose proof (Z.div_mod phys B ltac:(lia)). pose proof (Z.mod_pos_bound phys B HB).
  destruct (Z.ltb_spec B (phys mod B + size)) as [Hlt|Hge]; symmetry.
  - apply negb_true_iff, Z.eqb_neq. intros Heq.
    pose proof (Z.div_mod (phys + size - 1) B ltac:(lia)).
    pose proof (Z.mod_pos_bound (phys + size - 1) B HB). nia.
  - apply negb_false_iff, Z.eqb_eq. apply (Z.div_unique_pos _ _ _ (phys mod B + size - 1)); lia.
Qed.
