(* ===== verification/PmmProps.v ===== *)
(** * The frame allocator's contract

    What every system that uses the allocator of src/crates/core/src/mm/pmm.rs
    can rely on, stated on its reachable states, with one small run of the
    allocator on which each statement is exercised. *)

From stdpp Require Import base gmap list numbers strings relations sorting.
From S2P Require Import Prelude Pmm PmmRep PmmBuddy PmmPrim PmmRuns PmmAlloc PmmSpec PmmWorld PmmRange.

Local Open Scope string_scope.
Local Open Scope Z_scope.

Import Pmm.

(** ** A run: 16 KiB at 4 MiB, one page allocated *)
Definition ran {A} (m : M pmm A) (s : pmm) : pmm :=
  match m s with Ret (_, s') => s' | _ => s end.

Definition demo_hhdm : Z := 0xFFFF800000000000.
Definition demo_start : pmm := mkPmm (new demo_hhdm) ∅.
Definition demo_filled : pmm := ran (insert_region 0x400000 0x404000) demo_start.
Definition demo_used : pmm := ran (alloc 0) demo_filled.
Definition demo_token : Frames := Frames_new 0x400000 0.
Definition demo_frames : list Z := region_frames 0x400000 0x404000.

Definition demo_full_world : world := mkWorld demo_filled [] (demo_frames ++ []).
Definition demo_world : world := mkWorld demo_used (option_list (Some demo_token) ++ []) (demo_frames ++ []).

Lemma demo_full_reachable strict : reachable strict demo_full_world.
Proof.
  exists demo_hhdm, ∅. eapply rtc_l; [|apply rtc_refl].
  apply step_insert; [done..| |vm_compute; reflexivity].
  split; [set_solver|]. intros _. split; set_solver.
Qed.

Lemma demo_reachable strict : reachable strict demo_world.
Proof.
  destruct (demo_full_reachable strict) as (h & m & Hr). exists h, m.
  eapply rtc_r; [exact Hr|]. eapply (step_alloc _ _ _ _ 0); [done|]. vm_compute. reflexivity.
Qed.

(** ** The contract *)

(** C4: frames are conserved.  In every reachable state the frames the
    allocator counts as its own are exactly the free ones plus those of the
    tokens held, whatever the holders wrote to their frames. *)
Theorem frames_conserved strict w :
  reachable strict w →
  total_frames (bd (st w)) = free_frames (bd (st w)) + held (live w).
Proof.
  intros [A Hi]%reachable_inv. pose proof (inv_rep _ _ _ Hi) as HR.
  rewrite (rep_total _ _ HR), (rep_free _ _ HR), (inv_split _ _ _ Hi), length_app.
  rewrite <-(length_live _ _ _ Hi). lia.
Qed.

Lemma frames_conserved_witness :
  total_frames (bd demo_used) = 4 ∧ total_frames (bd demo_used) = free_frames (bd demo_used) + 1.
Proof. split; [done|]. exact (frames_conserved true demo_world (demo_reachable true)). Defined.

(** C5: no frame is handed out twice.  The tokens held stand for disjoint
    blocks of frames, all from inserted regions and none of them frame 0. *)
Theorem live_disjoint strict w :
  reachable strict w →
  NoDup (live w ≫= token_frames) ∧
  ∀ i, i ∈ live w ≫= token_frames → i ∈ given w ∧ 1 ≤ i.
Proof.
  intros [A Hi]%reachable_inv. destruct (wf_owned _ (inv_wf _ _ _ Hi)) as (Hnd & _ & Hb).
  pose proof (inv_split _ _ _ Hi) as Hs. split.
  - rewrite Hs in Hnd. by apply NoDup_app in Hnd as [? _].
  - intros i Hin. assert (Ho : i ∈ owned A) by (rewrite Hs; set_solver).
    split; [by rewrite <-(inv_given _ _ _ Hi)|by apply Hb].
Qed.

Lemma live_disjoint_witness :
  live demo_world ≫= token_frames = [1024] ∧ NoDup (live demo_world ≫= token_frames).
Proof. split; [done|]. exact (proj1 (live_disjoint true demo_world (demo_reachable true))). Defined.

(** C6: the operations return.  In a reachable state allocating any order,
    allocating below any limit, freeing any token held and inserting any new
    region all return: no assertion fires, no arithmetic overflows, no
    free-list walk runs forever or reads memory that holds no node. *)
Theorem operations_return strict w :
  reachable strict w →
  (∀ k, u8 k → ∃ r s', alloc k (st w) = Ret (r, s')) ∧
  (∀ k mx, u8 k → u64 mx → ∃ r s', alloc_constrained k mx (st w) = Ret (r, s')) ∧
  (∀ f, f ∈ live w → ∃ s', free f (st w) = Ret (tt, s')) ∧
  (∀ a b, u64 a → u64 b → a + 4096 < 2 ^ 64 → region_new strict (given w) a b →
     ∃ s', insert_region a b (st w) = Ret (tt, s')).
Proof.
  intros [A Hi]%reachable_inv. destruct w as [s l g]. split_and!.
  - intros k Hk. destruct (proj1 (wp_run _ _ _) (inv_alloc _ _ _ _ k _ Hi Hk))
      as (r & s' & ? & _). eauto.
  - intros k mx Hk _. destruct (proj1 (wp_run _ _ _) (inv_alloc_constrained _ _ _ _ k mx _ Hi Hk))
      as (r & s' & ? & _). eauto.
  - intros f (l1 & l2 & Heq)%list_elem_of_split. simpl in Heq. subst l.
    destruct (proj1 (wp_run _ _ _) (inv_free _ _ _ _ _ _ _ Hi)) as ([] & s' & ? & _). eauto.
  - intros a b Ha Hb Ha4 Hnew.
    destruct (proj1 (wp_run _ _ _) (inv_insert _ _ _ _ _ _ _ Hi Ha Hb Ha4 Hnew))
      as ([] & s' & ? & _). eauto.
Qed.

Lemma operations_return_witness : ∃ s', free demo_token demo_used = Ret (tt, s').
Proof.
  destruct (operations_return true demo_world (demo_reachable true)) as (_ & _ & Hfree & _).
  apply (Hfree demo_token). apply elem_of_cons. by left.
Defined.

(** What an allocation returns.  A block of the order asked for, aligned
    to its size, above frame 0, and made of frames that were available. *)
Theorem alloc_returns strict w k f s' :
  reachable strict w → 0 ≤ k ≤ 10 → alloc k (st w) = Ret (Some f, s') →
  order f = k ∧ base f mod (4096 * 2 ^ k) = 0 ∧ 4096 ≤ base f ∧
  ∀ i, i ∈ token_frames f → available w i.
Proof.
  intros [A Hi]%reachable_inv Hk Hrun.
  destruct (alloc_cases _ _ _ _ _ _ Hi Hk Hrun) as [[? _]|(A' & x & [= ->] & HR' & Hal & _)]; [done|].
  destruct (allocates_available _ _ _ _ _ _ Hi (rep_wf _ _ HR') Hk Hal) as ([Hb Ho] & Hm & Hx & Hav).
  unfold token_frames. rewrite Hb, Ho, <-bsize_frames by lia. done.
Qed.

Lemma alloc_returns_witness :
  alloc 0 (st demo_full_world) = Ret (Some demo_token, demo_used) ∧ base demo_token mod (4096 * 2 ^ 0) = 0.
Proof.
  assert (H : alloc 0 (st demo_full_world) = Ret (Some demo_token, demo_used))
    by (vm_compute; reflexivity).
  split; [exact H|].
  exact (proj1 (proj2 (alloc_returns true demo_full_world 0 demo_token demo_used
    (demo_full_reachable true) ltac:(lia) H))).
Defined.

(** Allocation is complete.  When regions are inserted apart from each
    other, an allocation of order [k] succeeds exactly when some block of that
    order, aligned to its size, is wholly available: freed memory always
    coalesces as far as it can. *)
Theorem alloc_complete w k :
  reachable true w → 0 ≤ k ≤ 10 →
  (∃ f s', alloc k (st w) = Ret (Some f, s')) ↔
  ∃ x, x mod (4096 * 2 ^ k) = 0 ∧ ∀ i, i ∈ block_frames k x → available w i.
Proof.
  intros [A Hi]%reachable_inv Hk. rewrite <-bsize_frames by lia. split.
  - intros (f & s' & Hrun).
    destruct (alloc_cases _ _ _ _ _ _ Hi Hk Hrun) as [[? _]|(A' & x & _ & HR' & Hal & _)]; [done|].
    destruct (allocates_available _ _ _ _ _ _ Hi (rep_wf _ _ HR') Hk Hal) as (_ & Hm & _ & Hav). eauto.
  - intros (x & Hx & Hav). destruct w as [s l g].
    destruct (proj1 (wp_run _ _ _) (inv_alloc _ _ _ _ k _ Hi ltac:(unfold in_width; lia)))
      as ([f|] & s' & Hrun & _); [eauto|].
    destruct (alloc_cases _ _ _ _ _ _ Hi Hk Hrun) as [[_ He]|(A' & y & ? & _)]; [|done].
    destruct (exhausted_not_covered A k x); [lia|done|]. by eapply available_covered.
Qed.

Lemma alloc_complete_witness :
  ∃ x, x mod (4096 * 2 ^ 1) = 0 ∧ ∀ i, i ∈ block_frames 1 x → available demo_world i.
Proof.
  apply (alloc_complete demo_world 1 (demo_reachable true)); [lia|].
  eexists _, _. vm_compute. reflexivity.
Defined.

(** C7: allocation is sound and complete.  A block returned has the order asked
    for, is aligned to its size, is above frame 0 and is made of frames that were
    available; and with regions inserted apart from each other an allocation
    succeeds exactly when some block of the order, aligned to its size, is wholly
    available, so freed memory always coalesces as far as it can. *)
Theorem alloc_sound_complete w k :
  reachable true w → 0 ≤ k ≤ 10 →
  (∀ f s', alloc k (st w) = Ret (Some f, s') →
     order f = k ∧ base f mod (4096 * 2 ^ k) = 0 ∧ 4096 ≤ base f ∧ ∀ i, i ∈ token_frames f → available w i) ∧
  ((∃ f s', alloc k (st w) = Ret (Some f, s')) ↔
   ∃ x, x mod (4096 * 2 ^ k) = 0 ∧ ∀ i, i ∈ block_frames k x → available w i).
Proof. intros Hr Hk. split; [intros f s'; by apply (alloc_returns true)|by apply alloc_complete]. Qed.

Lemma alloc_sound_complete_witness :
  ∃ x, x mod (4096 * 2 ^ 1) = 0 ∧ ∀ i, i ∈ block_frames 1 x → available demo_world i.
Proof.
  apply (alloc_sound_complete demo_world 1 (demo_reachable true)); [lia|].
  eexists _, _. vm_compute. reflexivity.
Defined.



(** A second free of the same token panics.  Freeing a held token
    succeeds, and freeing it again, even after its block merged into larger
    ones, hits the double-free assertion. *)
Theorem double_free_panics strict w f s' :
  reachable strict w → f ∈ live w → free f (st w) = Ret (tt, s') →
  free f s' = Panic (PAssert "pmm: double free").
Proof.
  intros [A Hi]%reachable_inv Hf Hrun. destruct w as [s l g]. simpl in *.
  destruct (inv_live _ _ _ Hi f Hf) as (Hk & Hok & He).
  apply list_elem_of_split in Hf as (l1 & l2 & ->).
  destruct (wp_ran _ _ _ _ _ (inv_free _ _ _ _ _ _ _ Hi) Hrun) as (A' & Hi' & Hs & Hcov).
  rewrite He. eapply free_covered; [apply Hi'|done|by eapply same_block_ok|done].
Qed.

Lemma double_free_panics_witness :
  free demo_token (ran (free demo_token) demo_used) = Panic (PAssert "pmm: double free").
Proof.
  apply (double_free_panics true demo_world demo_token _ (demo_reachable true)).
  - simpl. apply elem_of_cons. by left.
  - vm_compute. reflexivity.
Defined.

(** A block nobody holds cannot be freed.  With regions inserted apart, a
    forged token for any aligned, wholly available block panics as a double
    free; so a successful free is of memory someone holds. *)
Theorem free_available_panics w k x :
  reachable true w → 0 ≤ k ≤ 10 → x mod (4096 * 2 ^ k) = 0 →
  (∀ i, i ∈ block_frames k x → available w i) →
  free (Frames_new x k) (st w) = Panic (PAssert "pmm: double free").
Proof.
  intros [A Hi]%reachable_inv Hk. rewrite <-bsize_frames by lia. intros Hx Hav.
  pose proof (available_covered _ _ _ _ Hi Hk Hx Hav) as Hcov.
  eapply free_covered; [apply Hi|done| |done]. apply covered_block_ok; [by eapply inv_wf|done..].
Qed.

Lemma free_available_panics_witness :
  free (Frames_new 0x401000 0) demo_used = Panic (PAssert "pmm: double free").
Proof.
  apply (free_available_panics demo_world 0 0x401000 (demo_reachable true)); [lia|done|].
  intros i Hi. change (block_frames 0 0x401000) with [1025] in Hi.
  apply list_elem_of_singleton in Hi as ->. split.
  - change (given demo_world) with [1024; 1025; 1026; 1027]. set_solver.
  - change (live demo_world ≫= token_frames) with [1024]. set_solver.
Defined.

(** A token from outside the regions is refused before any list is
    touched: below the lowest region, above the highest, or so high that its
    end wraps around. *)
Theorem free_outside_panics f s :
  0 ≤ order f < 52 →
  base f < span_lo (bd s) ∨ span_hi (bd s) < base f + 4096 * 2 ^ order f →
  span_hi (bd s) < 2 ^ 64 →
  free f s = Panic (PAssert "pmm: free outside the buddy's span").
Proof.
  intros Hk Hout Hhi. unfold free. apply lift_panic. rewrite PAGE_SIZE_eq. apply owp_shlc; [lia| |].
  { pose proof (pow2_pos (order f) ltac:(lia)). pose proof (pow2_lt (order f) 52 ltac:(lia)).
    change (2 ^ 52) with 4503599627370496 in *. change (2 ^ 64) with 18446744073709551616. lia. }
  apply bind_panic, wp_get. unfold checked_add, assert, bind.
  assert (((span_lo (bd s) <=? base f) &&
    match (if base f + 4096 * 2 ^ order f <? 2 ^ 64 then Some (base f + 4096 * 2 ^ order f) else None)
    with Some e => e <=? span_hi (bd s) | None => false end) = false) as ->; [|done].
  destruct Hout as [Hlo|Hup].
  - by rewrite (proj2 (Z.leb_gt _ _)).
  - case (Z.ltb_spec (base f + 4096 * 2 ^ order f) (2 ^ 64)); intros _; [|apply andb_false_r].
    rewrite (proj2 (Z.leb_gt (base f + _) _)) by done. apply andb_false_r.
Qed.

Lemma free_outside_panics_witness :
  free (Frames_new 0x1000 0) demo_used = Panic (PAssert "pmm: free outside the buddy's span").
Proof.
  apply (free_outside_panics (Frames_new 0x1000 0) demo_used).
  - vm_compute. done.
  - left. vm_compute. reflexivity.
  - vm_compute. reflexivity.
Defined.



(** The statistics predict allocation.  [stats] never panics, reports the
    two frame counters, and its largest free order is the largest order that
    an allocation then succeeds for. *)
Theorem stats_predict_alloc strict w :
  reachable strict w →
  ∃ o, stats (bd (st w)) =
         Ret (mkPmmStats (total_frames (bd (st w))) (free_frames (bd (st w))) o) ∧
    ∀ k, 0 ≤ k ≤ 10 →
      (∃ f s', alloc k (st w) = Ret (Some f, s')) ↔ ∃ j, o = Some j ∧ k ≤ j.
Proof.
  intros [A Hi]%reachable_inv. destruct (stats_spec _ _ (inv_rep _ _ _ Hi)) as (o & Ho & Hpred).
  exists o. split; [done|]. intros k Hk. rewrite <-Hpred by done. split.
  - intros (f & s' & Hrun). by destruct (alloc_cases _ _ _ _ _ _ Hi Hk Hrun) as [[? _]|(? & ? & _ & _ & _ & ?)].
  - intros Hne. destruct w as [s l g].
    destruct (proj1 (wp_run _ _ _) (inv_alloc _ _ _ _ k _ Hi ltac:(unfold in_width; lia)))
      as ([f|] & s' & Hrun & _); [eauto|].
    by destruct (alloc_cases _ _ _ _ _ _ Hi Hk Hrun) as [[_ ?]|(? & ? & ? & _)].
Qed.

Lemma stats_predict_alloc_witness :
  stats (bd demo_used) = Ret (mkPmmStats 4 3 (Some 1)) ∧
  ∃ o, stats (bd demo_used) =
         Ret (mkPmmStats (total_frames (bd demo_used)) (free_frames (bd demo_used)) o).
Proof.
  split; [vm_compute; reflexivity|].
  destruct (stats_predict_alloc true demo_world (demo_reachable true)) as (o & Ho & _).
  exists o. exact Ho.
Defined.

(** A token survives a page-table entry.  For a page-aligned address and
    an order that fits the low bits, the token gives back both, and storing
    the address in an entry and rebuilding from it gives the same token. *)
Theorem token_entry_roundtrip x k :
  u64 x → x mod 4096 = 0 → 0 ≤ k ≤ 10 →
  base (Frames_new x k) = x ∧ order (Frames_new x k) = k ∧
  count (Frames_new x k) = Ret (2 ^ k) ∧
  from_entry (into_entry (Frames_new x k)) (order (Frames_new x k)) = Frames_new x k.
Proof.
  intros Hx Hal Hk. destruct (token_roundtrip k x Hx Hk Hal) as [Hb Ho].
  unfold count, into_entry, from_entry. rewrite Hb, Ho. split_and!; [done..| |done].
  apply owp_eq. by apply owp_shl_one.
Qed.

Lemma token_entry_roundtrip_witness :
  base (Frames_new 0x7000 3) = 0x7000 ∧ order (Frames_new 0x7000 3) = 3.
Proof.
  destruct (token_entry_roundtrip 0x7000 3) as (Hb & Ho & _); [done|done|lia|].
  split; [exact Hb|exact Ho].
Defined.

(** Clipping a usable range is exact.  It always finishes; the ranges it
    emits are non-empty, ascending and disjoint, and together hold exactly the
    addresses of the range outside every non-empty exclusion rounded outward
    to pages, however the exclusions overlap and in whatever order they come. *)
Theorem clip_usable_exact r excl :
  Forall u64_range excl →
  ∃ rs, clip_usable r excl = Ret rs ∧
    (∀ x, (∃ c, c ∈ rs ∧ in_range c x) ↔ in_range r x ∧ ¬ excluded excl x) ∧
    StronglySorted (λ c d, snd c < fst d) rs ∧
    Forall (λ c, fst c < snd c) rs.
Proof.
  intros Hu. destruct (clip_usable_spec r excl Hu) as (rs & Hr & Hex & Hso & Hfo).
  exists rs. split_and!; [done..|]. eapply Forall_impl; [done|]. simpl. lia.
Qed.

Lemma clip_usable_exact_witness :
  clip_usable (0x1000, 0x9000) [(0x3800, 0x4001); (0x4000, 0x6000)] = Ret [(0x1000, 0x3000); (0x6000, 0x9000)] ∧
  ∃ rs, clip_usable (0x1000, 0x9000) [(0x3800, 0x4001); (0x4000, 0x6000)] = Ret rs.
Proof.
  split; [vm_compute; reflexivity|].
  destruct (clip_usable_exact (0x1000, 0x9000) [(0x3800, 0x4001); (0x4000, 0x6000)]) as (rs & Hr & _).
  - repeat constructor; done.
  - exists rs. exact Hr.
Defined.

(** The order for a request is the least that fits.  For any size and
    alignment, the answer is the least order up to the maximum whose block
    holds the size and is a multiple of the alignment, and there is none
    exactly when the size is zero or no order fits. *)
Theorem order_for_least bytes align :
  u64 bytes → u64 align →
  ∃ o, order_for bytes align = Ret o ∧ best_order bytes align o.
Proof. intros Hb Ha. by apply owp_run, order_for_spec. Qed.

Lemma order_for_least_witness :
  order_for 5000 0x4000 = Ret (Some 2) ∧
  ∃ o, order_for 5000 0x4000 = Ret o ∧ best_order 5000 0x4000 o.
Proof. split; [vm_compute; reflexivity|]. apply (order_for_least 5000 0x4000); done. Defined.

(** The trampoline page is the lowest one.  The page chosen is page
    aligned, lies in the first megabyte above frame 0 and wholly inside one
    usable range, and no lower page does; none is chosen only when there is
    none. *)
Theorem trampoline_lowest usable :
  Forall u64_range usable →
  match choose_trampoline_page usable with
  | Some p => (∃ r, r ∈ usable ∧ tramp_page r p) ∧
              ∀ r q, r ∈ usable → tramp_page r q → p ≤ q
  | None => ∀ r q, r ∈ usable → ¬ tramp_page r q
  end.
Proof. apply choose_trampoline_page_spec. Qed.

Lemma trampoline_lowest_witness :
  choose_trampoline_page [(0x9000, 0xa000); (0x1800, 0x3000)] = Some 0x2000 ∧
  ∃ r, r ∈ [(0x9000, 0xa000); (0x1800, 0x3000)] ∧ tramp_page r 0x2000.
Proof.
  assert (Hu : Forall u64_range [(0x9000, 0xa000); (0x1800, 0x3000)]) by (repeat constructor; done).
  assert (Hc : choose_trampoline_page [(0x9000, 0xa000); (0x1800, 0x3000)] = Some 0x2000)
    by (vm_compute; reflexivity).
  split; [exact Hc|]. pose proof (trampoline_lowest _ Hu) as Hl. rewrite Hc in Hl. exact (proj1 Hl).
Defined.

(** The boundary test.  For a power-of-two boundary and a non-empty
    range, the test tells whether the first and the last byte of the range
    lie in different boundary-sized windows. *)
Theorem crosses_boundary_exact phys size n :
  0 ≤ phys → 0 < size → 0 ≤ n < 64 → phys mod 2 ^ n + size < 2 ^ 64 →
  crosses_boundary phys size (2 ^ n) =
    Ret (negb (phys / 2 ^ n =? (phys + size - 1) / 2 ^ n)).
Proof. apply crosses_boundary_spec. Qed.

Lemma crosses_boundary_exact_witness :
  crosses_boundary 0xFFFFF800 0x1000 (2 ^ 32) = Ret true.
Proof. rewrite (crosses_boundary_exact 0xFFFFF800 0x1000 32); [reflexivity|done|done|done|done]. Defined.
