(* ===== verification/Pid.v ===== *)
(** * Pids and tids (src/crates/core/src/proc/pid.rs)

    The definitions of this file are the code of [pid.rs]: the wrapping id
    allocator [PidAlloc] with its bitmap and use counts, and [IdIndex], the
    open-addressed map from an id to its table slot. *)

From stdpp Require Import base gmap list numbers.
From S2P Require Import Prelude.

Local Open Scope Z_scope.

Module Pid.

Definition PID_MAX : Z := 32768.
Definition PID_WRAP : Z := 300.
Definition PID_WORDS : Z := 512.

(** ** PidAlloc *)
Record PidAlloc := mkPidAlloc {
  used : list Z;
  uses : list Z;
  last : Z;
  pid_max : Z
}.

Definition set_last (l : Z) (p : PidAlloc) : PidAlloc :=
  mkPidAlloc (used p) (uses p) l (pid_max p).
Definition set_uses (u : list Z) (p : PidAlloc) : PidAlloc :=
  mkPidAlloc (used p) u (last p) (pid_max p).
Definition set_used (u : list Z) (p : PidAlloc) : PidAlloc :=
  mkPidAlloc u (uses p) (last p) (pid_max p).

Definition PidAlloc_new (pid_max : Z) : PidAlloc :=
  let pid_max := if pid_max <=? PID_WRAP then PID_WRAP + 1
                 else if PID_MAX <? pid_max then PID_MAX
                 else pid_max in
  mkPidAlloc (replicate (Z.to_nat PID_WORDS) 0) (replicate (Z.to_nat PID_MAX) 0) 0 pid_max.

(** The loop of [find_free] from [id]; each turn moves to a later word. *)
Fixpoint find_free_from (fuel : nat) (used : list Z) (id hi : Z) : outcome (option Z) :=
  match fuel with
  | O => NoFuel
  | S fuel =>
      if id <? hi then
        match get_at used (id / 64) with
        | None => Ret None
        | Some w =>
            bit <~ shlc 64 1 (id mod 64);;
            below <~ subc 64 bit 1;;
            let free := notw 64 (Z.lor w below) in
            if negb (free =? 0) then
              b <~ mulc 32 (id / 64) 64;;
              found <~ addc 32 b (trailing_zeros 64 free);;
              Ret (if found <? hi then Some found else None)
            else
              n <~ addc 32 (id / 64) 1;;
              id' <~ mulc 32 n 64;;
              find_free_from fuel used id' hi
        end
      else Ret None
  end.

Definition find_free (p : PidAlloc) (lo hi : Z) : outcome (option Z) :=
  find_free_from (S (Z.to_nat PID_WORDS)) (used p) (Z.max lo 1) hi.

Definition mark (id : Z) (p : PidAlloc) : outcome PidAlloc :=
  let p := set_uses (<[Z.to_nat id := 1]> (uses p)) p in
  match get_at (used p) (id / 64) with
  | Some w => bit <~ shlc 64 1 (id mod 64);;
              Ret (set_used (<[Z.to_nat (id / 64) := Z.lor w bit]> (used p)) p)
  | None => Ret p
  end.

Definition alloc (p : PidAlloc) : outcome (option Z * PidAlloc) :=
  let start := saturating_add 32 (last p) 1 in
  first <~ find_free p start (pid_max p);;
  id <~ (match first with
         | Some id => Ret (Some id)
         | None => find_free p PID_WRAP (Z.min start (pid_max p))
         end);;
  match id with
  | Some id => p' <~ mark id (set_last id p);; Ret (Some id, p')
  | None => Ret (None, p)
  end.

Definition hold (id : Z) (p : PidAlloc) : outcome (bool * PidAlloc) :=
  if (id =? 0) || (pid_max p <=? id) then Ret (false, p)
  else match get_at (uses p) id with
       | None => Ret (false, p)
       | Some n =>
           if n =? 255 then Ret (false, p)
           else if n =? 0 then p' <~ mark id p;; Ret (true, p')
           else n' <~ addc 8 n 1;; Ret (true, set_uses (<[Z.to_nat id := n']> (uses p)) p)
       end.

Definition free (id : Z) (p : PidAlloc) : outcome (bool * PidAlloc) :=
  match get_at (uses p) id with
  | None => Ret (false, p)
  | Some n =>
      if n =? 0 then Ret (false, p)
      else
        n' <~ subc 8 n 1;;
        let p := set_uses (<[Z.to_nat id := n']> (uses p)) p in
        if n' =? 0 then
          match get_at (used p) (id / 64) with
          | Some w => bit <~ shlc 64 1 (id mod 64);;
                      Ret (true, set_used (<[Z.to_nat (id / 64) := Z.land w (notw 64 bit)]> (used p)) p)
          | None => Ret (true, p)
          end
        else Ret (true, p)
  end.

Definition in_use (p : PidAlloc) (id : Z) : bool :=
  match get_at (uses p) id with Some n => 0 <? n | None => false end.

(** ** IdIndex *)
Definition EMPTY : Z := 2 ^ 32 - 1.

Record IdIndex := mkIdIndex {
  keys : list Z;
  slots : list Z;
  len : Z
}.

Section IdIndex.
(** The capacity, a power of two. *)
Context (CAP : Z).

Definition MASK : Z := CAP - 1.

Definition IdIndex_new : IdIndex :=
  mkIdIndex (replicate (Z.to_nat CAP) EMPTY) (replicate (Z.to_nat CAP) 0) 0.

Definition is_empty (x : IdIndex) : bool := len x =? 0.

Definition valid (id : Z) : bool := negb (id =? EMPTY) && (id <? PID_MAX).

(** [n] turns of the loop of [find] from position [i]. *)
Fixpoint find_from (n : nat) (x : IdIndex) (id i : Z) : outcome (option Z) :=
  match n with
  | O => Ret None
  | S n =>
      match get_at (keys x) i with
      | None => Ret None
      | Some k =>
          if k =? id then Ret (Some i)
          else if k =? EMPTY then Ret None
          else i1 <~ addc 64 i 1;; find_from n x id (Z.land i1 MASK)
      end
  end.

Definition find (x : IdIndex) (id : Z) : outcome (option Z) :=
  find_from (Z.to_nat CAP) x id (Z.land id MASK).

(** [n] turns of the loop of [insert] from position [i]. *)
Fixpoint insert_from (n : nat) (x : IdIndex) (id slot i : Z) : outcome (bool * IdIndex) :=
  match n with
  | O => Ret (false, x)
  | S n =>
      if (match get_at (keys x) i with Some k => k =? EMPTY | None => false end) then
        match get_at (keys x) i, get_at (slots x) i with
        | Some _, Some _ =>
            len' <~ addc 64 (len x) 1;;
            Ret (true, mkIdIndex (<[Z.to_nat i := id]> (keys x)) (<[Z.to_nat i := slot]> (slots x)) len')
        | _, _ => Ret (false, x)
        end
      else i1 <~ addc 64 i 1;; insert_from n x id slot (Z.land i1 MASK)
  end.

Definition insert (id slot : Z) (x : IdIndex) : outcome (bool * IdIndex) :=
  if negb (valid id) then Ret (false, x)
  else if negb (slot <? 2 ^ 16) then Ret (false, x)
  else
    at_ <~ find x id;;
    match at_ with
    | Some i => Ret (true, mkIdIndex (keys x) (<[Z.to_nat i := slot]> (slots x)) (len x))
    | None =>
        if CAP <=? len x then Ret (false, x)
        else insert_from (Z.to_nat CAP) x id slot (Z.land id MASK)
    end.

Definition get (x : IdIndex) (id : Z) : outcome (option Z) :=
  if negb (valid id) then Ret None
  else
    at_ <~ find x id;;
    Ret (match at_ with Some i => get_at (slots x) i | None => None end).

(** [n] turns of the backward shift: the hole and the tables, or [None] where
    a [?] leaves [remove] early with the tables as they are. *)
Fixpoint shift (n : nat) (ks ss : list Z) (hole j : Z)
    : outcome (option Z * list Z * list Z) :=
  match n with
  | O => Ret (Some hole, ks, ss)
  | S n =>
      j1 <~ addc 64 j 1;;
      let j := Z.land j1 MASK in
      match get_at ks j with
      | None => Ret (None, ks, ss)
      | Some key =>
          if key =? EMPTY then Ret (Some hole, ks, ss)
          else
            let home := Z.land key MASK in
            let from_home := Z.land (wrapping_sub 64 j home) MASK in
            let from_hole := Z.land (wrapping_sub 64 j hole) MASK in
            if from_hole <=? from_home then
              match get_at ss j with
              | None => Ret (None, ks, ss)
              | Some s => shift n (<[Z.to_nat hole := key]> ks) (<[Z.to_nat hole := s]> ss) j j
              end
            else shift n ks ss hole j
      end
  end.

Definition remove (id : Z) (x : IdIndex) : outcome (option Z * IdIndex) :=
  if negb (valid id) then Ret (None, x)
  else
    at_ <~ find x id;;
    match at_ with
    | None => Ret (None, x)
    | Some hole =>
        match get_at (slots x) hole with
        | None => Ret (None, x)
        | Some slot =>
            r <~ shift (Z.to_nat CAP) (keys x) (slots x) hole hole;;
            match r with
            | (None, ks, ss) => Ret (None, mkIdIndex ks ss (len x))
            | (Some hole, ks, ss) =>
                len' <~ subc 64 (len x) 1;;
                Ret (Some slot, mkIdIndex (<[Z.to_nat hole := EMPTY]> ks) ss len')
            end
        end
    end.

End IdIndex.

End Pid.
