(* ===== verification/PidSpec.v ===== *)
(** * The id allocator: bitmap, scan, and the order ids come in

    [PidAlloc] of src/crates/core/src/proc/pid.rs: the bitmap is the set of
    ids with a use, the word-wise scan finds the lowest free id of a range,
    and allocation goes round the ids in order. *)

From stdpp Require Import base gmap list numbers relations.
From S2P Require Import Prelude Pid.

Local Open Scope Z_scope.

Import Pid.

(** ** Bits *)
Lemma notw_bits w x b :
  in_width w x → 0 ≤ b < w → Z.testbit (notw w x) b = negb (Z.testbit x b).
Proof.
  intros Hx Hb. unfold notw, in_width in *.
  replace (2 ^ w - 1 - x) with (Z.ones w - x) by (rewrite Z.ones_equiv; lia).
  rewrite Z.sub_nocarry_ldiff.
  - rewrite Z.ldiff_spec, Z.ones_spec_low by lia. done.
  - apply Z.bits_inj'. intros i Hi. rewrite Z.ldiff_spec, Z.bits_0.
    destruct (Z.lt_ge_cases i w).
    + rewrite Z.ones_spec_low by lia. by rewrite andb_false_r.
    + rewrite <-(Z.mod_small x (2 ^ w)), Z.mod_pow2_bits_high by lia. done.
Qed.

(** A value fits a width when its bits do. *)
Lemma width_bits w x :
  0 ≤ w → in_width w x ↔ 0 ≤ x ∧ ∀ i, w ≤ i → Z.testbit x i = false.
Proof.
  intros Hw. unfold in_width. split.
  - intros Hx. split; [lia|]. intros i Hi.
    rewrite <-(Z.mod_small x (2 ^ w)) by lia. apply Z.mod_pow2_bits_high. lia.
  - intros [Hx Hb]. assert (x = x mod 2 ^ w) as ->.
    + apply Z.bits_inj'. intros i Hi. destruct (Z.lt_ge_cases i w).
      * by rewrite Z.mod_pow2_bits_low.
      * rewrite Hb, Z.mod_pow2_bits_high by lia. done.
    + apply Z.mod_pos_bound, pow2_pos, Hw.
Qed.

Lemma lor_width w a b : 0 ≤ w → in_width w a → in_width w b → in_width w (Z.lor a b).
Proof.
  intros Hw [? Ha]%width_bits [? Hb]%width_bits; [|done..]. apply width_bits; [done|].
  split; [by apply Z.lor_nonneg|]. intros i Hi. by rewrite Z.lor_spec, Ha, Hb.
Qed.

Lemma notw_width w x : in_width w x → in_width w (notw w x).
Proof. unfold in_width, notw. lia. Qed.

Lemma land_width w a b : 0 ≤ w → in_width w a → 0 ≤ b → in_width w (Z.land a b).
Proof.
  intros Hw [? Ha]%width_bits Hb; [|done]. apply width_bits; [done|].
  split; [apply Z.land_nonneg; by left|]. intros i Hi. by rewrite Z.land_spec, Ha.
Qed.

(** The trailing-zero count is the position of the lowest set bit. *)
Lemma trailing_zeros_lowest w x :
  0 < x < 2 ^ w →
  0 ≤ trailing_zeros w x < w ∧ Z.testbit x (trailing_zeros w x) = true ∧
  ∀ b, 0 ≤ b < trailing_zeros w x → Z.testbit x b = false.
Proof.
  intros Hx. destruct (trailing_zeros_spec w x Hx) as (m & Ht & Heq).
  set (t := trailing_zeros w x) in *. split_and!; [lia..| |].
  - rewrite Heq, Z.mul_pow2_bits by lia. rewrite Z.sub_diag. apply Z.testbit_odd_0.
  - intros b Hb. rewrite Heq. apply Z.mul_pow2_bits_low. lia.
Qed.

Lemma exists_bit w x : 0 < x < 2 ^ w → ∃ b, 0 ≤ b < w ∧ Z.testbit x b = true.
Proof. intros Hx. destruct (trailing_zeros_lowest w x Hx) as (? & ? & _). eauto. Qed.

Lemma zero_bits x b : x = 0 → Z.testbit x b = false.
Proof. intros ->. apply Z.bits_0. Qed.

(** The mask of the bits below [n]. *)
Lemma below_bits n b : 0 ≤ n → 0 ≤ b → Z.testbit (2 ^ n - 1) b = bool_decide (b < n).
Proof.
  intros Hn Hb. replace (2 ^ n - 1) with (Z.ones n) by (rewrite Z.ones_equiv; lia). case_bool_decide.
  - apply Z.ones_spec_low. lia.
  - apply Z.ones_spec_high. lia.
Qed.

Lemma bit_width id : 0 ≤ id → 0 < 2 ^ (id mod 64) < 2 ^ 64.
Proof. intros. split; [apply pow2_pos|apply pow2_lt]; dlia. Qed.

(** ** The bitmap *)
Definition bit (us : list Z) (id : Z) : bool :=
  match us !! Z.to_nat (id / 64) with Some w => Z.testbit w (id mod 64) | None => false end.

Definition words_ok (us : list Z) : Prop := length us = 512%nat ∧ Forall u64 us.

Lemma word_lookup us id :
  words_ok us → 0 ≤ id < 32768 →
  ∃ w, us !! Z.to_nat (id / 64) = Some w ∧ get_at us (id / 64) = Some w ∧ u64 w ∧
       ∀ j, j / 64 = id / 64 → bit us j = Z.testbit w (j mod 64).
Proof.
  intros [Hlen Hw] Hid. destruct (lookup_lt_is_Some_2 us (Z.to_nat (id / 64))) as [w Hl]; [dlia|].
  exists w. split_and!; [done| | |].
  - unfold get_at. by rewrite (proj2 (Z.leb_le 0 _)) by dlia.
  - rewrite Forall_lookup in Hw. by apply (Hw _ _ Hl).
  - intros j Hj. unfold bit. by rewrite Hj, Hl.
Qed.

Lemma owp_bit id (Q : Z → Prop) : 0 ≤ id → Q (2 ^ (id mod 64)) → owp (shlc 64 1 (id mod 64)) Q.
Proof.
  intros Hid HQ. pose proof (bit_width id Hid).
  apply owp_shlc; rewrite ?Z.mul_1_l; [dlia|lia|done].
Qed.

(** One turn of the scan: the free bits of the word from [id] on. *)
Lemma free_word us id w j :
  u64 w → 0 ≤ id → j / 64 = id / 64 → (∀ j, j / 64 = id / 64 → bit us j = Z.testbit w (j mod 64)) →
  Z.testbit (notw 64 (Z.lor w (2 ^ (id mod 64) - 1))) (j mod 64) =
    bool_decide (id ≤ j) && negb (bit us j).
Proof.
  intros Hw Hid Hj Hbit. rewrite notw_bits; [|apply lor_width; [lia|done|]|dlia].
  - rewrite Z.lor_spec, below_bits, Hbit by dlia.
    rewrite negb_orb, andb_comm. f_equal. repeat case_bool_decide; done || dlia.
  - pose proof (bit_width id Hid). unfold in_width. lia.
Qed.

(** The scan from [id] below [hi] finds the lowest free id. *)
Definition lowest_free (us : list Z) (lo hi : Z) (r : option Z) : Prop :=
  match r with
  | Some f => lo ≤ f < hi ∧ bit us f = false ∧ ∀ g, lo ≤ g < f → bit us g = true
  | None => ∀ g, lo ≤ g < hi → bit us g = true
  end.

Lemma find_free_from_spec fuel us id hi :
  words_ok us → 0 ≤ id → hi ≤ 32768 → Z.max 0 (512 - id / 64) < Z.of_nat fuel →
  owp (find_free_from fuel us id hi) (lowest_free us id hi).
Proof.
  intros Hok. revert id. induction fuel as [|fuel IH]; intros id Hid Hhi Hfuel; [lia|].
  cbn [find_free_from]. destruct (Z.ltb_spec id hi) as [Hlt|Hge]; [|apply owp_ret; simpl; lia].
  destruct (word_lookup us id Hok ltac:(lia)) as (w & _ & -> & Hw & Hbit).
  pose proof (bit_width id Hid). wp_step. apply owp_bit; [done|].
  wp_step. apply owp_subc; [unfold in_width; lia|].
  pose proof (free_word us id w) as Hfw. set (free := notw 64 _) in *.
  assert (Hfree : u64 free).
  { apply notw_width, lor_width; [lia|done|]. unfold in_width. lia. }
  destruct (Z.eqb_spec free 0) as [Hz|Hnz]; cbn [negb].
  - wp_step. apply owp_addc; [unfold in_width; dlia|].
    wp_step. apply owp_mulc; [unfold in_width; dlia|].
    assert (Hin : ∀ g, id ≤ g < (id / 64 + 1) * 64 → bit us g = true).
    { intros g Hg. specialize (Hfw g Hw Hid ltac:(dlia) Hbit). rewrite (zero_bits free) in Hfw by done.
      rewrite bool_decide_true in Hfw by lia. by destruct (bit us g). }
    eapply owp_mono; [apply IH; [dlia|done|dlia]|]. intros [f|]; simpl.
    + intros (? & ? & Hall). split_and!; [dlia|lia|done|]. intros g Hg.
      destruct (Z.lt_ge_cases g ((id / 64 + 1) * 64)); [apply Hin|apply Hall]; lia.
    + intros Hall g Hg. destruct (Z.lt_ge_cases g ((id / 64 + 1) * 64)); [apply Hin|apply Hall]; lia.
  - destruct (trailing_zeros_lowest 64 free) as (Ht & Hset & Hlow); [unfold in_width in *; lia|].
    set (t := trailing_zeros 64 free) in *.
    wp_step. apply owp_mulc; [unfold in_width; dlia|].
    wp_step. apply owp_addc; [unfold in_width; dlia|]. wp_step.
    set (found := id / 64 * 64 + t).
    assert (Hfm : found mod 64 = t ∧ found / 64 = id / 64) by (subst found; dlia).
    pose proof (Hfw found Hw Hid (proj2 Hfm) Hbit) as Hf. rewrite (proj1 Hfm), Hset in Hf.
    symmetry in Hf. apply andb_true_iff in Hf as [Hge%bool_decide_eq_true Hb%negb_true_iff].
    assert (Hall : ∀ g, id ≤ g < found → bit us g = true).
    { intros g Hg. specialize (Hfw g Hw Hid ltac:(dlia) Hbit).
      rewrite Hlow, bool_decide_true in Hfw by dlia. by destruct (bit us g). }
    destruct (Z.ltb_spec found hi); simpl; [split_and!; [lia|lia|done|done]|].
    intros g Hg. apply Hall. lia.
Qed.

(** ** The state *)
Definition uses_of (p : PidAlloc) (id : Z) : Z :=
  if 0 <=? id then default 0 (uses p !! Z.to_nat id) else 0.

Record pid_wf (p : PidAlloc) : Prop := {
  pid_words : words_ok (used p);
  pid_len : Z.of_nat (length (uses p)) = 32768;
  pid_u8 id : 0 ≤ uses_of p id ≤ 255;
  pid_bits id : 0 ≤ id < 32768 → bit (used p) id = bool_decide (0 < uses_of p id);
  pid_bound : 300 < pid_max p ≤ 32768;
  pid_last : 0 ≤ last p < pid_max p;
  pid_none id : 0 < uses_of p id → 1 ≤ id < pid_max p
}.

Lemma get_uses p id :
  pid_wf p → get_at (uses p) id = if decide (0 ≤ id < 32768) then Some (uses_of p id) else None.
Proof.
  intros Hwf. unfold get_at, uses_of. pose proof (pid_len _ Hwf) as Hl.
  destruct (Z.leb_spec 0 id); case_decide; try lia; try done.
  - destruct (lookup_lt_is_Some_2 (uses p) (Z.to_nat id)) as [n Hn]; [lia|]. by rewrite Hn.
  - apply lookup_ge_None_2. lia.
Qed.

Lemma uses_of_set p id n j :
  pid_wf p → 0 ≤ id < 32768 →
  uses_of (set_uses (<[Z.to_nat id := n]> (uses p)) p) j = if decide (j = id) then n else uses_of p j.
Proof.
  intros Hwf Hid. unfold uses_of. simpl. pose proof (pid_len _ Hwf).
  destruct (Z.leb_spec 0 j); case_decide as Hj; try lia; try done.
  - subst. rewrite list_lookup_insert_eq by lia. done.
  - rewrite list_lookup_insert_ne by lia. done.
Qed.

(** Setting or clearing one bit of the bitmap. *)
Lemma bit_update us id w w' j :
  us !! Z.to_nat (id / 64) = Some w → 0 ≤ id → 0 ≤ j →
  bit (<[Z.to_nat (id / 64) := w']> us) j =
    if decide (j / 64 = id / 64) then Z.testbit w' (j mod 64) else bit us j.
Proof.
  intros Hw Hid Hj. unfold bit. case_decide as Heq.
  - rewrite Heq, list_lookup_insert_eq by (by eapply lookup_lt_Some). done.
  - rewrite list_lookup_insert_ne by dlia. done.
Qed.

Lemma bit_set us id w j :
  us !! Z.to_nat (id / 64) = Some w → 0 ≤ id → 0 ≤ j →
  bit (<[Z.to_nat (id / 64) := Z.lor w (2 ^ (id mod 64))]> us) j = bool_decide (j = id) || bit us j.
Proof.
  intros Hw Hid Hj. rewrite (bit_update us id w) by done. case_decide as Heq.
  - rewrite Z.lor_spec, Z.pow2_bits_eqb by dlia. unfold bit. rewrite Heq, Hw.
    rewrite orb_comm. f_equal. destruct (Z.eqb_spec (id mod 64) (j mod 64)); case_bool_decide; done || dlia.
  - rewrite bool_decide_false by (by intros ->). done.
Qed.

Lemma bit_clear us id w j :
  us !! Z.to_nat (id / 64) = Some w → u64 w → 0 ≤ id → 0 ≤ j →
  bit (<[Z.to_nat (id / 64) := Z.land w (notw 64 (2 ^ (id mod 64)))]> us) j =
    negb (bool_decide (j = id)) && bit us j.
Proof.
  intros Hw Hu Hid Hj. rewrite (bit_update us id w) by done. case_decide as Heq.
  - rewrite Z.land_spec, notw_bits, Z.pow2_bits_eqb
      by (dlia || (pose proof (bit_width id Hid); unfold in_width; lia)).
    unfold bit. rewrite Heq, Hw, andb_comm. do 2 f_equal.
    destruct (Z.eqb_spec (id mod 64) (j mod 64)); case_bool_decide; done || dlia.
  - rewrite bool_decide_false by (by intros ->). done.
Qed.

Lemma words_ok_set us i w : words_ok us → u64 w → words_ok (<[i := w]> us).
Proof.
  intros [Hl Hf] Hw. split; [by rewrite length_insert|]. by apply Forall_insert.
Qed.

(** A state that counts [n] uses of [id] and is otherwise [p]. *)
Definition counted (p p' : PidAlloc) (id n : Z) : Prop :=
  (∀ j, uses_of p' j = if decide (j = id) then n else uses_of p j) ∧
  pid_max p' = pid_max p ∧ last p' = last p.

Lemma pid_mark_spec p id :
  pid_wf p → 1 ≤ id < pid_max p →
  owp (mark id p) (λ p', pid_wf p' ∧ counted p p' id 1).
Proof.
  intros Hwf Hid. pose proof (pid_bound _ Hwf).
  destruct (word_lookup (used p) id (pid_words _ Hwf) ltac:(lia)) as (w & Hl & Hg & Hw & _).
  pose proof (bit_width id ltac:(lia)).
  unfold mark. simpl used at 1. rewrite Hg. wp_step. apply owp_bit; [lia|]. wp_step.
  set (p' := set_used _ _).
  assert (Hu : ∀ j, uses_of p' j = if decide (j = id) then 1 else uses_of p j)
    by (intros j; apply (uses_of_set p id 1 j Hwf); lia).
  split; [|by split_and!]. split.
  - apply words_ok_set; [apply Hwf|]. apply lor_width; [lia|done|]. unfold in_width. lia.
  - simpl. rewrite length_insert. apply Hwf.
  - intros j. rewrite Hu. pose proof (pid_u8 _ Hwf j). case_decide; lia.
  - intros j Hj. rewrite Hu. simpl used. rewrite bit_set by (done || lia).
    rewrite (pid_bits _ Hwf) by done. repeat case_bool_decide; simpl; repeat case_decide; done || lia.
  - done.
  - apply Hwf.
  - intros j. rewrite Hu. simpl. pose proof (pid_none _ Hwf j). case_decide; lia.
Qed.

Lemma pid_wf_new n : pid_wf (PidAlloc_new n) ∧ ∀ j, uses_of (PidAlloc_new n) j = 0.
Proof.
  assert (Hu : ∀ j, uses_of (PidAlloc_new n) j = 0).
  { intros j. unfold uses_of, PidAlloc_new. cbn [uses]. destruct (Z.leb_spec 0 j); [|done].
    destruct (decide (j < 32768)).
    - rewrite lookup_replicate_2 by (unfold PID_MAX; lia). done.
    - rewrite lookup_ge_None_2; [done|]. rewrite length_replicate. unfold PID_MAX. lia. }
  split; [|done]. split.
  - split; [apply length_replicate|]. apply Forall_replicate. unfold in_width. lia.
  - cbn [PidAlloc_new uses]. rewrite length_replicate. done.
  - intros j. rewrite Hu. lia.
  - intros j Hj. rewrite Hu. unfold bit. cbn [PidAlloc_new used].
    rewrite lookup_replicate_2 by (unfold PID_WORDS; dlia). by rewrite Z.bits_0.
  - unfold PidAlloc_new, PID_MAX, PID_WRAP. cbn [pid_max].
    destruct (Z.leb_spec n 300), (Z.ltb_spec 32768 n); lia.
  - unfold PidAlloc_new, PID_MAX, PID_WRAP. cbn [pid_max last].
    destruct (Z.leb_spec n 300), (Z.ltb_spec 32768 n); lia.
  - intros j. rewrite Hu. lia.
Qed.

(** The next id of the round: the first free one after the last handed out,
    or, with none left up to [pid_max], the first free one from [PID_WRAP]. *)
Definition next_id (p : PidAlloc) (id : Z) : Prop :=
  uses_of p id = 0 ∧
  ((last p < id < pid_max p ∧ ∀ g, last p < g < id → 0 < uses_of p g) ∨
   (PID_WRAP ≤ id ≤ last p ∧ (∀ g, last p < g < pid_max p → 0 < uses_of p g) ∧
    ∀ g, PID_WRAP ≤ g < id → 0 < uses_of p g)).

Definition no_id (p : PidAlloc) : Prop :=
  ∀ g, last p < g < pid_max p ∨ PID_WRAP ≤ g ≤ last p → 0 < uses_of p g.

Lemma pid_find_free_spec p lo hi :
  pid_wf p → 1 ≤ lo → hi ≤ 32768 →
  owp (find_free p lo hi) (λ r,
    match r with
    | Some f => lo ≤ f < hi ∧ uses_of p f = 0 ∧ ∀ g, lo ≤ g < f → 0 < uses_of p g
    | None => ∀ g, lo ≤ g < hi → 0 < uses_of p g
    end).
Proof.
  intros Hwf Hlo Hhi. unfold find_free. rewrite Z.max_l by done.
  assert (Hb : ∀ g, 0 ≤ g < 32768 → bit (used p) g = true ↔ 0 < uses_of p g).
  { intros g Hg. rewrite (pid_bits _ Hwf) by done. apply bool_decide_eq_true. }
  eapply owp_mono.
  { apply find_free_from_spec; [apply Hwf|lia|done|unfold PID_WORDS; dlia]. }
  intros [f|]; simpl.
  - intros (Hf & Hbf & Hall). split_and!; [lia|lia| |].
    + pose proof (pid_u8 _ Hwf f). specialize (Hb f ltac:(lia)). rewrite Hbf in Hb.
      destruct (Z.eq_dec (uses_of p f) 0); [done|]. assert (false = true) by (apply Hb; lia). done.
    + intros g Hg. apply Hb; [lia|]. by apply Hall.
  - intros Hall g Hg. apply Hb; [lia|]. by apply Hall.
Qed.

Lemma set_last_wf p id : pid_wf p → 0 ≤ id < pid_max p → pid_wf (set_last id p).
Proof. intros [? ? ? ? ? ? ?] Hid. by split. Qed.

Lemma pid_alloc_spec p :
  pid_wf p →
  owp (alloc p) (λ '(r, p'), pid_wf p' ∧
    match r with
    | Some id => next_id p id ∧ 1 ≤ id < pid_max p ∧ last p' = id ∧ pid_max p' = pid_max p ∧
                 ∀ j, uses_of p' j = if decide (j = id) then 1 else uses_of p j
    | None => no_id p ∧ p' = p
    end).
Proof.
  intros Hwf. pose proof (pid_bound _ Hwf). pose proof (pid_last _ Hwf).
  assert (Htake : ∀ id, next_id p id → 1 ≤ id < pid_max p →
    owp (p' <~ mark id (set_last id p);; Ret (Some id, p')) (λ '(r, p'), pid_wf p' ∧
      match r with
      | Some id => next_id p id ∧ 1 ≤ id < pid_max p ∧ last p' = id ∧ pid_max p' = pid_max p ∧
                   ∀ j, uses_of p' j = if decide (j = id) then 1 else uses_of p j
      | None => no_id p ∧ p' = p
      end)).
  { intros id Hn Hid. wp_step. eapply owp_mono.
    { apply pid_mark_spec; [apply set_last_wf; [done|lia]|done]. }
    intros p' (Hwf' & Hc & Hm & Hl). wp_step. split; [done|]. split; [done|]. split; [done|]. by split_and!. }
  unfold alloc. assert (saturating_add 32 (last p) 1 = last p + 1) as ->
    by (unfold saturating_add; lia).
  unfold PID_WRAP. wp_step. eapply owp_mono; [apply pid_find_free_spec; [done|lia|lia]|].
  intros [f|]; simpl.
  - intros (Hf & Hz & Hall). apply Htake; [|lia]. split; [done|]. left. split; [lia|].
    intros g Hg. apply Hall. lia.
  - intros Hnone. wp_step. eapply owp_mono; [apply pid_find_free_spec; [done|lia|lia]|].
    intros [f|]; simpl.
    + intros (Hf & Hz & Hall). apply Htake; [|lia]. split; [done|]. right. unfold PID_WRAP.
      split_and!; [lia|lia| |intros g Hg; apply Hall; lia]. intros g Hg. apply Hnone. lia.
    + intros Hnone2. split; [done|]. split; [|done]. unfold no_id, PID_WRAP.
      intros g [Hg|Hg]; [apply Hnone|apply Hnone2]; lia.
Qed.

Lemma pid_hold_spec p id :
  pid_wf p → 0 ≤ id →
  owp (hold id p) (λ '(r, p'), pid_wf p' ∧
    if r : bool then 1 ≤ id < pid_max p ∧ uses_of p id < 255 ∧ counted p p' id (uses_of p id + 1)
    else p' = p ∧ (id = 0 ∨ pid_max p ≤ id ∨ uses_of p id = 255)).
Proof.
  intros Hwf Hid. pose proof (pid_bound _ Hwf). pose proof (pid_u8 _ Hwf id). unfold hold.
  destruct (Z.eqb_spec id 0) as [->|]; simpl; [by auto|].
  destruct (Z.leb_spec (pid_max p) id); [by simpl; auto 6|].
  rewrite get_uses by done. rewrite decide_True by lia.
  destruct (Z.eqb_spec (uses_of p id) 255); [by simpl; auto 6|].
  destruct (Z.eqb_spec (uses_of p id) 0) as [Hz|Hnz]; wp_step.
  - eapply owp_mono; [apply pid_mark_spec; [done|lia]|]. intros p' [Hwf' Hc]. wp_step.
    rewrite Hz. split; [done|]. split; [lia|]. by split; [lia|].
  - apply owp_addc; [unfold in_width; lia|]. wp_step.
    set (p' := set_uses _ _). set (m := uses_of p id + 1) in *.
    assert (Hu : ∀ j, uses_of p' j = if decide (j = id) then m else uses_of p j)
      by (intros j; apply (uses_of_set p id _ j Hwf); lia).
    split; [|split; [lia|]; split; [lia|]; by split_and!]. destruct Hwf as [Hw Hl Hu8 Hb Hbd Hla Hn]. split; try done.
    + simpl. by rewrite length_insert.
    + intros j. rewrite Hu. specialize (Hu8 j). subst m. case_decide; lia.
    + intros j Hj. rewrite Hu. simpl. rewrite Hb by done. subst m.
      repeat case_bool_decide; repeat case_decide; subst; done || lia.
    + intros j. rewrite Hu. simpl. specialize (Hn j). case_decide; [lia|done].
Qed.

Lemma pid_free_spec p id :
  pid_wf p → 0 ≤ id →
  owp (free id p) (λ '(r, p'), pid_wf p' ∧
    if r : bool then 0 < uses_of p id ∧ counted p p' id (uses_of p id - 1)
    else p' = p ∧ uses_of p id = 0).
Proof.
  intros Hwf Hid. pose proof (pid_u8 _ Hwf id). unfold free. rewrite get_uses by done.
  case_decide as Hr; last first.
  { split; [done|]. split; [done|]. destruct (Z.eq_dec (uses_of p id) 0); [done|].
    pose proof (pid_none _ Hwf id). pose proof (pid_bound _ Hwf). lia. }
  destruct (Z.eqb_spec (uses_of p id) 0) as [Hz|Hnz]; [by split_and!|]. wp_step.
  apply owp_subc; [unfold in_width; lia|]. set (n := uses_of p id - 1) in *.
  assert (Hset : ∀ us, (∀ j, 0 ≤ j < 32768 → bit us j = bool_decide (0 < if decide (j = id) then n else uses_of p j)) →
    words_ok us →
    let p' := set_used us (set_uses (<[Z.to_nat id := n]> (uses p)) p) in
    pid_wf p' ∧ 0 < uses_of p id ∧ counted p p' id n).
  { intros us Hbits Hok p'.
    assert (Hu : ∀ j, uses_of p' j = if decide (j = id) then n else uses_of p j)
      by (intros j; apply (uses_of_set p id n j Hwf); lia).
    split; [|split; [lia|]; by split_and!]. destruct Hwf as [Hw Hl Hu8 Hb Hbd Hla Hn]. split; try done.
    - simpl. by rewrite length_insert.
    - intros j. rewrite Hu. specialize (Hu8 j). subst n. case_decide; lia.
    - intros j Hj. rewrite Hu. by apply Hbits.
    - intros j. rewrite Hu. simpl. specialize (Hn j). subst n. case_decide; [subst; lia|done]. }
  destruct (Z.eqb_spec n 0) as [Hn0|Hn0].
  - destruct (word_lookup (used p) id (pid_words _ Hwf) ltac:(lia)) as (w & Hl & Hg & Hw & _).
    simpl used at 1. rewrite Hg. wp_step. apply owp_bit; [lia|]. wp_step. apply Hset.
    + intros j Hj. rewrite bit_clear by (done || lia). rewrite (pid_bits _ Hwf) by done.
      repeat case_bool_decide; repeat case_decide; simpl; subst; done || lia.
    + apply words_ok_set; [apply Hwf|]. apply land_width; [lia|done|].
      pose proof (bit_width id ltac:(lia)). unfold notw. lia.
  - wp_step. apply (Hset (used p)); [|apply Hwf]. intros j Hj. rewrite (pid_bits _ Hwf) by done.
    subst n. repeat case_bool_decide; repeat case_decide; subst; done || lia.
Qed.

(** ** Carriers

    Every carrier of an id (a thread, a process, a process group) holds one
    use of it: it got the id from [alloc], or took it with [hold], and gives it
    back with [free]. *)
Inductive pid_step : PidAlloc * list Z → PidAlloc * list Z → Prop :=
  | pid_step_alloc p c r p' :
      alloc p = Ret (r, p') → pid_step (p, c) (p', option_list r ++ c)
  | pid_step_hold p c id b p' :
      u32 id → hold id p = Ret (b, p') → pid_step (p, c) (p', if b then id :: c else c)
  | pid_step_free p c1 id c2 b p' :
      free id p = Ret (b, p') → pid_step (p, c1 ++ id :: c2) (p', c1 ++ c2).

Definition pid_reachable (w : PidAlloc * list Z) : Prop :=
  ∃ n, rtc pid_step (PidAlloc_new n, []) w.

Definition carried (c : list Z) (id : Z) : Z := Z.of_nat (count_occ Z.eq_dec c id).

Record pid_inv (w : PidAlloc * list Z) : Prop := {
  pid_inv_wf : pid_wf (fst w);
  pid_inv_uses id : uses_of (fst w) id = carried (snd w) id
}.

Lemma carried_cons c id j : carried (id :: c) j = if decide (j = id) then carried c id + 1 else carried c j.
Proof.
  unfold carried. simpl. destruct (Z.eq_dec id j) as [->|]; case_decide; subst; done || lia.
Qed.

Lemma carried_remove c1 id c2 j :
  carried (c1 ++ c2) j = if decide (j = id) then carried (c1 ++ id :: c2) id - 1
                         else carried (c1 ++ id :: c2) j.
Proof.
  unfold carried. rewrite !count_occ_app. simpl. destruct (Z.eq_dec id id); [|done].
  case_decide; [subst; lia|]. destruct (Z.eq_dec id j); [congruence|done].
Qed.

Lemma carried_pos c id : 0 < carried c id ↔ id ∈ c.
Proof.
  unfold carried. rewrite list_elem_of_In, (count_occ_In Z.eq_dec). lia.
Qed.

Lemma pid_inv_step w w' : pid_inv w → pid_step w w' → pid_inv w'.
Proof.
  intros [Hwf Hu] Hs. destruct Hs as [p c r p' Hrun|p c id b p' Hid Hrun|p c1 id c2 b p' Hrun];
    simpl in *.
  - pose proof (pid_alloc_spec p Hwf) as Hal. rewrite Hrun in Hal. destruct Hal as [Hwf' Hr].
    split; [done|]. simpl. intros j. destruct r as [id|]; simpl.
    + destruct Hr as ([Hz _] & _ & _ & _ & Hc). rewrite carried_cons, Hc, <-!Hu, Hz. done.
    + destruct Hr as [_ ->]. by rewrite Hu.
  - pose proof (pid_hold_spec p id Hwf ltac:(apply Hid)) as Hh. rewrite Hrun in Hh.
    destruct Hh as [Hwf' Hr]. split; [done|]. simpl. intros j. destruct b.
    + destruct Hr as (_ & _ & Hc & _). by rewrite carried_cons, Hc, <-!Hu.
    + destruct Hr as [-> _]. by rewrite Hu.
  - assert (Hpos : 0 < uses_of p id) by (rewrite Hu; apply carried_pos; set_solver).
    pose proof (pid_none _ Hwf id Hpos).
    pose proof (pid_free_spec p id Hwf ltac:(lia)) as Hf. rewrite Hrun in Hf.
    destruct Hf as [Hwf' Hr]. split; [done|]. simpl. intros j. destruct b; [|lia].
    destruct Hr as (_ & Hc & _). by rewrite (carried_remove c1 id c2 j), Hc, <-!Hu.
Qed.

Lemma pid_reachable_inv w : pid_reachable w → pid_inv w.
Proof.
  intros (n & Hr). assert (Hi : pid_inv (PidAlloc_new n, [])).
  { destruct (pid_wf_new n) as [Hwf Hz]. split; [done|]. intros id. simpl. by rewrite Hz. }
  revert Hi. induction Hr as [|w1 w2 w3 Hs _ IH]; [done|]. intros Hi. apply IH. by eapply pid_inv_step.
Qed.

Lemma in_use_spec p id : pid_wf p → in_use p id = bool_decide (0 < uses_of p id).
Proof.
  intros Hwf. unfold in_use. rewrite get_uses by done. case_decide as Hr.
  - case_bool_decide; [by apply Z.ltb_lt|]. apply Z.ltb_ge. lia.
  - case_bool_decide as Hp; [|done]. pose proof (pid_none _ Hwf id Hp). pose proof (pid_bound _ Hwf). lia.
Qed.

(** A run: three ids, and a second use of the first. *)
Definition pid_demo0 : PidAlloc := PidAlloc_new 400.
Definition pid_ran {A} (o : outcome (A * PidAlloc)) (p : PidAlloc) : PidAlloc :=
  match o with Ret (_, p') => p' | _ => p end.
Definition pid_demo1 : PidAlloc := pid_ran (alloc pid_demo0) pid_demo0.
Definition pid_demo2 : PidAlloc := pid_ran (hold 1 pid_demo1) pid_demo1.

Lemma pid_ran_alloc o p id :
  match o with Ret (Some i, _) => i =? id | _ => false end = true →
  o = Ret (Some id, pid_ran o p).
Proof. destruct o as [[[i|] p']| | |]; try done. by intros ->%Z.eqb_eq. Qed.

Lemma pid_ran_hold o p :
  match o with Ret (b, _) => b | _ => false end = true → o = Ret (true, pid_ran o p).
Proof. destruct o as [[[] p']| | |]; done. Qed.

Lemma pid_demo_reachable : pid_reachable (pid_demo2, [1; 1]).
Proof.
  exists 400. eapply rtc_l.
  { apply (pid_step_alloc _ [] (Some 1) pid_demo1). unfold pid_demo1.
    apply pid_ran_alloc. vm_compute. reflexivity. }
  eapply rtc_l; [|apply rtc_refl].
  apply (pid_step_hold pid_demo1 [1] 1 true pid_demo2); [done|]. unfold pid_demo2.
  apply pid_ran_hold. vm_compute. reflexivity.
Qed.

(** C10: an id is in use exactly while someone carries it.  Over any run of
    allocations, holds and frees by carriers: no operation panics, [in_use]
    tells whether an id is carried, an allocation hands out an id in
    [1..pid_max] nobody carries, and a carrier's free always succeeds. *)
Theorem pid_carried p c :
  pid_reachable (p, c) →
  (∀ id, in_use p id = true ↔ id ∈ c) ∧
  (∃ r p', alloc p = Ret (r, p') ∧ ∀ id, r = Some id → id ∉ c ∧ 1 ≤ id < pid_max p) ∧
  (∀ id, u32 id → ∃ b p', hold id p = Ret (b, p')) ∧
  (∀ id, id ∈ c → ∃ p', free id p = Ret (true, p')).
Proof.
  intros [Hwf Hu]%pid_reachable_inv. simpl in *. split_and!.
  - intros id. rewrite in_use_spec, bool_decide_eq_true, Hu by done. apply carried_pos.
  - destruct (proj1 (owp_run _ _) (pid_alloc_spec p Hwf)) as ([r p'] & Hrun & _ & Hr).
    exists r, p'. split; [done|]. intros id ->. destruct Hr as ([Hz _] & Hid & _).
    split; [|lia]. rewrite <-carried_pos, <-Hu. lia.
  - intros id Hid. destruct (proj1 (owp_run _ _) (pid_hold_spec p id Hwf ltac:(apply Hid)))
      as ([b p'] & Hrun & _). eauto.
  - intros id Hc. assert (Hpos : 0 < uses_of p id) by (rewrite Hu; by apply carried_pos).
    pose proof (pid_none _ Hwf id Hpos).
    destruct (proj1 (owp_run _ _) (pid_free_spec p id Hwf ltac:(lia))) as ([[] p'] & Hrun & _ & Hr); [eauto|].
    lia.
Qed.

Lemma pid_carried_witness : ∃ p', free 1 pid_demo2 = Ret (true, p').
Proof. apply (pid_carried pid_demo2 [1; 1] pid_demo_reachable). set_solver. Defined.

(** Ids go round in order.  An allocation takes the first free id after
    the last one handed out; only when none is free up to [pid_max] does it
    wrap, to the first free id from 300 on; it fails only when neither range
    has a free id.  So an id freed at once is not reused before the round
    comes back to it. *)
Theorem pid_round p c :
  pid_reachable (p, c) →
  ∃ r p', alloc p = Ret (r, p') ∧
    match r with
    | Some id => next_id p id ∧ last p' = id
    | None => no_id p ∧ p' = p
    end.
Proof.
  intros [Hwf _]%pid_reachable_inv.
  destruct (proj1 (owp_run _ _) (pid_alloc_spec p Hwf)) as ([r p'] & Hrun & _ & Hr).
  exists r, p'. split; [done|]. destruct r; [|done]. by destruct Hr as (? & _ & ? & _).
Qed.

Lemma pid_round_witness :
  ∃ r p', alloc pid_demo2 = Ret (r, p') ∧
    match r with
    | Some id => next_id pid_demo2 id ∧ last p' = id
    | None => no_id pid_demo2 ∧ p' = pid_demo2
    end.
Proof. exact (pid_round pid_demo2 [1; 1] pid_demo_reachable). Defined.
