(* ===== verification/IdIndexSpec.v ===== *)
(** * The id index is a finite map

    [IdIndex] of src/crates/core/src/proc/pid.rs, an open-addressed table with
    linear probing and removal by backward shift, refines a finite map of at
    most [CAP] ids.  The proof cuts the ring of positions at one position that
    no probe path crosses: an empty one, or the one filled last. *)

From stdpp Require Import base gmap list numbers relations.
From S2P Require Import Prelude Pid.

Local Open Scope Z_scope.

Import Pid.

(** ** Offsets from a cut of the ring *)
Section ring.
Context (CAP : Z) (Hcap : 0 < CAP).

Definition ix_off (p i : Z) : Z := (i - p - 1) mod CAP.
Definition ix_pos (i : Z) : Prop := 0 ≤ i < CAP.

Lemma off_bound p i : 0 ≤ ix_off p i < CAP.
Proof using Hcap. unfold ix_off. by apply Z.mod_pos_bound. Qed.

(** Moving the cut from [p] to [q]. *)
Lemma off_change p q i :
  ix_off q i = if ix_off p q <? ix_off p i then ix_off p i - ix_off p q - 1
               else ix_off p i - ix_off p q - 1 + CAP.
Proof using Hcap.
  pose proof (off_bound p i). pose proof (off_bound p q).
  assert (Heq : ix_off q i = (ix_off p i - ix_off p q - 1) mod CAP).
  { unfold ix_off. replace (i - q - 1) with ((i - p - 1) - (q - p - 1) - 1) by lia.
    by rewrite <-(Zminus_mod_idemp_l (_ - (q - p - 1)) 1), (Zminus_mod (i - p - 1)), Zminus_mod_idemp_l. }
  rewrite Heq. destruct (Z.ltb_spec (ix_off p q) (ix_off p i)).
  - apply Z.mod_small. lia.
  - rewrite <-(Z_mod_plus_full _ 1), Z.mul_1_l. apply Z.mod_small. lia.
Qed.

Lemma off_self p : ix_off p p = CAP - 1.
Proof using Hcap.
  unfold ix_off. replace (p - p - 1) with (-1) by lia.
  rewrite <-(Z_mod_plus_full _ 1), Z.mod_small; lia.
Qed.

Lemma off_inj p i j : ix_pos i → ix_pos j → ix_off p i = ix_off p j → i = j.
Proof using Hcap.
  unfold ix_pos. intros Hi Hj Heq. pose proof (off_change p i i) as H1.
  pose proof (off_change p i j) as H2. rewrite <-Heq in H2. rewrite <-H1 in H2.
  rewrite off_self in H2. unfold ix_off in H2.
  pose proof (Z.div_mod (j - i - 1) CAP ltac:(lia)).
  assert ((j - i - 1) / CAP = -1); [|nia].
  assert (-1 ≤ (j - i - 1) / CAP) by (apply Z.div_le_lower_bound; lia).
  assert ((j - i - 1) / CAP < 1) by (apply Z.div_lt_upper_bound; lia).
  destruct (Z.eq_dec ((j - i - 1) / CAP) 0); [nia|lia].
Qed.

Definition ix_next (i : Z) : Z := (i + 1) mod CAP.

Lemma next_pos i : ix_pos (ix_next i).
Proof using Hcap. unfold ix_pos, ix_next. by apply Z.mod_pos_bound. Qed.

Lemma off_next p i : ix_off p i < CAP - 1 → ix_off p (ix_next i) = ix_off p i + 1.
Proof using Hcap.
  intros Hlt. pose proof (off_bound p i). unfold ix_off, ix_next in *.
  rewrite <-Z.sub_add_distr, Zminus_mod_idemp_l.
  replace (i + 1 - (p + 1)) with ((i - p - 1) + 1) by lia.
  rewrite <-Zplus_mod_idemp_l. apply Z.mod_small. lia.
Qed.

(** The distance from [h] up to [j] round the ring. *)
Lemma ring_dist p h j :
  (j - h) mod CAP = if ix_off p h <=? ix_off p j then ix_off p j - ix_off p h
                    else ix_off p j - ix_off p h + CAP.
Proof using Hcap.
  pose proof (off_bound p h). pose proof (off_bound p j).
  pose proof (off_change p (h - 1) j) as Hc.
  pose proof (off_change p (h - 1) h) as Hh.
  assert (Hj : ix_off (h - 1) j = (j - h) mod CAP) by (unfold ix_off; f_equal; lia).
  assert (Hz : ix_off (h - 1) h = 0).
  { unfold ix_off. replace (h - (h - 1) - 1) with 0 by lia. apply Z.mod_0_l. lia. }
  rewrite Hz in Hh. rewrite <-Hj, Hc. pose proof (off_bound p (h - 1)).
  destruct (Z.ltb_spec (ix_off p (h - 1)) (ix_off p h)), (Z.ltb_spec (ix_off p (h - 1)) (ix_off p j)),
    (Z.leb_spec (ix_off p h) (ix_off p j)); lia.
Qed.

(** Positions of the probe path from [h] up to [i], with the cut at [p]. *)
Definition on_path (p h i q : Z) : Prop := ix_off p h ≤ ix_off p q ≤ ix_off p i.

(** A path that avoids [q] is the same path with the cut at [q]. *)
Lemma path_recut p q h i :
  ix_off p h ≤ ix_off p i → ¬ on_path p h i q →
  ix_off q h ≤ ix_off q i ∧ ∀ r, on_path q h i r → on_path p h i r.
Proof using Hcap.
  intros Hle Hq. unfold on_path in *. pose proof (off_bound p q). pose proof (off_bound p h).
  pose proof (off_bound p i). split.
  - rewrite !(off_change p q). destruct (Z.ltb_spec (ix_off p q) (ix_off p h)),
      (Z.ltb_spec (ix_off p q) (ix_off p i)); lia.
  - intros r. pose proof (off_bound p r). rewrite !(off_change p q).
    destruct (Z.ltb_spec (ix_off p q) (ix_off p h)), (Z.ltb_spec (ix_off p q) (ix_off p i)),
      (Z.ltb_spec (ix_off p q) (ix_off p r)); lia.
Qed.
End ring.

(** ** The table *)
Definition kat (ks : list Z) (i : Z) : Z := default EMPTY (ks !! Z.to_nat i).
Definition sat (ss : list Z) (i : Z) : Z := default 0 (ss !! Z.to_nat i).

Section table.
Context (c : Z) (Hc : 0 ≤ c ≤ 32).
Let CAP := 2 ^ c.

Lemma CAP_pos : 0 < CAP.
Proof using Hc. apply pow2_pos. lia. Qed.
Lemma CAP_le : CAP ≤ 2 ^ 32.
Proof using Hc. apply pow2_le. lia. Qed.

Definition home (k : Z) : Z := k mod CAP.

Lemma home_pos k : ix_pos CAP (home k).
Proof using Hc. unfold ix_pos, home. apply Z.mod_pos_bound, CAP_pos. Qed.

Lemma land_MASK i : Z.land i (MASK CAP) = i mod CAP.
Proof using Hc. unfold MASK, CAP. apply land_mask. lia. Qed.

Definition arrays_ok (ks ss : list Z) : Prop :=
  Z.of_nat (length ks) = CAP ∧ Z.of_nat (length ss) = CAP ∧
  ∀ i, kat ks i = EMPTY ∨ 0 ≤ kat ks i < PID_MAX.

Lemma get_key ks ss i : arrays_ok ks ss → ix_pos CAP i → get_at ks i = Some (kat ks i).
Proof using Hc.
  intros (Hl & _ & _) Hi. unfold ix_pos in Hi. unfold get_at, kat.
  rewrite (proj2 (Z.leb_le 0 i)) by lia.
  destruct (lookup_lt_is_Some_2 ks (Z.to_nat i)) as [k Hk]; [lia|]. by rewrite Hk.
Qed.

Lemma get_slot ks ss i : arrays_ok ks ss → ix_pos CAP i → get_at ss i = Some (sat ss i).
Proof using Hc.
  intros (_ & Hl & _) Hi. unfold ix_pos in Hi. unfold get_at, sat.
  rewrite (proj2 (Z.leb_le 0 i)) by lia.
  destruct (lookup_lt_is_Some_2 ss (Z.to_nat i)) as [k Hk]; [lia|]. by rewrite Hk.
Qed.

Lemma kat_set ks ss i k j :
  arrays_ok ks ss → ix_pos CAP i → ix_pos CAP j →
  kat (<[Z.to_nat i := k]> ks) j = if decide (j = i) then k else kat ks j.
Proof using Hc.
  intros (Hl & _) Hi Hj. unfold ix_pos in *. unfold kat. case_decide as Heq.
  - subst. by rewrite list_lookup_insert_eq by lia.
  - by rewrite list_lookup_insert_ne by lia.
Qed.

Lemma sat_set ks ss i s j :
  arrays_ok ks ss → ix_pos CAP i → ix_pos CAP j →
  sat (<[Z.to_nat i := s]> ss) j = if decide (j = i) then s else sat ss j.
Proof using Hc.
  intros (_ & Hl & _) Hi Hj. unfold ix_pos in *. unfold sat. case_decide as Heq.
  - subst. by rewrite list_lookup_insert_eq by lia.
  - by rewrite list_lookup_insert_ne by lia.
Qed.

Lemma arrays_ok_set ks ss i k s :
  arrays_ok ks ss → ix_pos CAP i → k = EMPTY ∨ 0 ≤ k < PID_MAX →
  arrays_ok (<[Z.to_nat i := k]> ks) (<[Z.to_nat i := s]> ss) ∧
  arrays_ok (<[Z.to_nat i := k]> ks) ss ∧ arrays_ok ks (<[Z.to_nat i := s]> ss).
Proof using Hc.
  intros (Hl & Hl' & Hk) Hi Hnew. unfold arrays_ok. rewrite !length_insert. split_and!; try done.
  all: intros j; specialize (Hk j); unfold kat in *;
    destruct (decide (Z.to_nat j = Z.to_nat i)) as [->|];
    [rewrite list_lookup_insert_eq by (unfold ix_pos in Hi; lia)|rewrite list_lookup_insert_ne by done];
    done.
Qed.

(** Every probe path is unbroken and none crosses the cut; [h] is a position
    left out, its key being stale. *)
Record paths (ks : list Z) (p : Z) (ex : Z → Prop) : Prop := {
  path_ok i : ix_pos CAP i → ¬ ex i → kat ks i ≠ EMPTY →
    ix_off CAP p (home (kat ks i)) ≤ ix_off CAP p i ∧
    ∀ q, ix_pos CAP q → on_path CAP p (home (kat ks i)) i q → kat ks q ≠ EMPTY;
  path_uniq i j : ix_pos CAP i → ix_pos CAP j → ¬ ex i → ¬ ex j →
    kat ks i = kat ks j → kat ks i ≠ EMPTY → i = j
}.

Definition contents (ks ss : list Z) (ex : Z → Prop) (m : gmap Z Z) : Prop :=
  ∀ id s, m !! id = Some s ↔
    ∃ i, ix_pos CAP i ∧ ¬ ex i ∧ id ≠ EMPTY ∧ kat ks i = id ∧ sat ss i = s.

Definition nowhere (i : Z) : Prop := False.

(** The table [x] stands for the map [m]. *)
Record ix_rep (x : IdIndex) (m : gmap Z Z) : Prop := {
  ixr_arrays : arrays_ok (keys x) (slots x);
  ixr_paths : ∃ p, ix_pos CAP p ∧ paths (keys x) p nowhere;
  ixr_map : contents (keys x) (slots x) nowhere m;
  ixr_len : len x = Z.of_nat (size m)
}.

(** *** find *)
Lemma find_hit n x m p id i i0 :
  ix_rep x m → ix_pos CAP p → paths (keys x) p nowhere → 0 ≤ id < PID_MAX →
  ix_pos CAP i → ix_pos CAP i0 → kat (keys x) i0 = id → on_path CAP p (home id) i0 i →
  ix_off CAP p i0 - ix_off CAP p i < Z.of_nat n →
  find_from CAP n x id i = Ret (Some i0).
Proof using Hc.
  intros HR Hp Hpath Hid Hi Hi0 Hk0. pose proof CAP_pos as Hcp. pose proof CAP_le.
  assert (Hne : id ≠ EMPTY) by (unfold EMPTY, PID_MAX in *; lia).
  revert i Hi. induction n as [|n IH]; intros i Hi Hon Hn; unfold on_path in Hon; [lia|].
  cbn [find_from]. rewrite (get_key _ _ i (ixr_arrays _ _ HR) Hi).
  destruct (Z.eqb_spec (kat (keys x) i) id) as [Heq|Hneq].
  - do 2 f_equal. apply (path_uniq _ _ _ Hpath); [done|done|by intros []|by intros []|congruence|congruence].
  - destruct (Z.eqb_spec (kat (keys x) i) EMPTY) as [He|_].
    { destruct (path_ok _ _ _ Hpath i0 Hi0) as [_ Hall]; [by intros []|congruence|].
      by destruct (Hall i Hi); [rewrite Hk0|]. }
    apply owp_eq. wp_step. unfold ix_pos in Hi. apply owp_addc; [unfold in_width; lia|].
    rewrite land_MASK. fold (ix_next CAP i).
    assert (ix_off CAP p i ≠ ix_off CAP p i0).
    { intros Heq. apply off_inj in Heq; [|done..]. congruence. }
    pose proof (off_bound CAP Hcp p i0).
    pose proof (off_next CAP Hcp p i ltac:(lia)).
    rewrite IH; [done|by apply next_pos|unfold on_path; lia|lia].
Qed.

Lemma find_miss n x m id i :
  ix_rep x m → ix_pos CAP i → (∀ j, ix_pos CAP j → kat (keys x) j ≠ id) →
  find_from CAP n x id i = Ret None.
Proof using Hc.
  intros HR Hi Hno. pose proof CAP_pos as Hcp. pose proof CAP_le.
  revert i Hi. induction n as [|n IH]; intros i Hi; [done|].
  cbn [find_from]. rewrite (get_key _ _ i (ixr_arrays _ _ HR) Hi).
  rewrite (proj2 (Z.eqb_neq _ _)) by (by apply Hno).
  destruct (Z.eqb_spec (kat (keys x) i) EMPTY); [done|].
  apply owp_eq. wp_step. unfold ix_pos in Hi. apply owp_addc; [unfold in_width; lia|].
  rewrite land_MASK. fold (ix_next CAP i). rewrite IH; [done|by apply next_pos].
Qed.

Lemma ix_find_spec x m id :
  ix_rep x m → 0 ≤ id < PID_MAX →
  match m !! id with
  | Some s => ∃ i, find CAP x id = Ret (Some i) ∧ ix_pos CAP i ∧ kat (keys x) i = id ∧ sat (slots x) i = s
  | None => find CAP x id = Ret None ∧ ∀ j, ix_pos CAP j → kat (keys x) j ≠ id
  end.
Proof using Hc.
  intros HR Hid. pose proof CAP_pos as Hcp.
  assert (Hne : id ≠ EMPTY) by (unfold EMPTY, PID_MAX in *; lia).
  destruct (ixr_paths _ _ HR) as (p & Hp & Hpath). unfold find. rewrite land_MASK. fold (home id).
  destruct (m !! id) as [s|] eqn:Hm.
  - apply (ixr_map _ _ HR) in Hm as (i & Hi & _ & _ & Hk & Hs). exists i. split; [|done].
    destruct (path_ok _ _ _ Hpath i Hi) as [Hle _]; [by intros []|congruence|]. rewrite Hk in Hle.
    pose proof (off_bound CAP Hcp p i). pose proof (off_bound CAP Hcp p (home id)).
    apply (find_hit _ x m p); [done|done|done|done|apply home_pos|done|done|unfold on_path; lia|lia].
  - assert (Hno : ∀ j, ix_pos CAP j → kat (keys x) j ≠ id).
    { intros j Hj Hk. assert (m !! id = Some (sat (slots x) j)); [|congruence].
      apply (ixr_map _ _ HR). exists j. split_and!; [done|by intros []|done|done|done]. }
    split; [|done]. eapply find_miss; [done|apply home_pos|done].
Qed.

(** *** insert *)
Lemma off_home id : ix_off CAP (home id - 1) (home id) = 0.
Proof using Hc.
  pose proof CAP_pos. unfold ix_off. replace (home id - (home id - 1) - 1) with 0 by lia.
  apply Z.mod_0_l. lia.
Qed.

Lemma insert_scan n x m id slot i e :
  ix_rep x m → ix_pos CAP i → ix_pos CAP e → kat (keys x) e = EMPTY →
  let d j := ix_off CAP (home id - 1) j in
  d i ≤ d e → d e - d i < Z.of_nat n → len x + 1 < 2 ^ 64 → 0 ≤ len x →
  ∃ q, ix_pos CAP q ∧ kat (keys x) q = EMPTY ∧ d i ≤ d q ∧
    (∀ r, ix_pos CAP r → d i ≤ d r < d q → kat (keys x) r ≠ EMPTY) ∧
    insert_from CAP n x id slot i =
      Ret (true, mkIdIndex (<[Z.to_nat q := id]> (keys x)) (<[Z.to_nat q := slot]> (slots x)) (len x + 1)).
Proof using Hc.
  intros HR Hi He Hke d Hle Hn Hlen Hlen0. pose proof CAP_pos as Hcp. pose proof CAP_le.
  revert i Hi Hle Hn. induction n as [|n IH]; intros i Hi Hle Hn; [lia|]. cbn [insert_from].
  rewrite (get_key _ _ i (ixr_arrays _ _ HR) Hi), (get_slot _ _ i (ixr_arrays _ _ HR) Hi).
  destruct (Z.eqb_spec (kat (keys x) i) EMPTY) as [Hki|Hki].
  - exists i. split_and!; [done|done|lia|intros; lia|].
    apply owp_eq. wp_step. apply owp_addc; [unfold in_width; lia|]. by wp_step.
  - assert (d i ≠ d e) by (intros Heq%off_inj; [congruence|done..]).
    pose proof (off_bound CAP Hcp (home id - 1) e).
    assert (Hnx : d (ix_next CAP i) = d i + 1) by (apply off_next; [done|subst d; simpl in *; lia]).
    destruct (IH (ix_next CAP i)) as (q & Hq & Hkq & Hdq & Hall & Hrun);
      [by apply next_pos|lia|lia|].
    exists q. split_and!; [done|done|lia| |].
    + intros r Hr Hdr. destruct (Z.eq_dec (d r) (d i)) as [Heq|].
      * apply off_inj in Heq; [|done..]. congruence.
      * apply Hall; [done|lia].
    + apply owp_eq. wp_step. unfold ix_pos in Hi. apply owp_addc; [unfold in_width; lia|].
      rewrite land_MASK. fold (ix_next CAP i). by rewrite Hrun.
Qed.

(** Filling the empty position [q] that ends the probe path of [id] makes
    [q] the new cut. *)
Lemma paths_fill ks ss p q id :
  arrays_ok ks ss → ix_pos CAP q → paths ks p nowhere → kat ks q = EMPTY → id ≠ EMPTY →
  (∀ j, ix_pos CAP j → kat ks j ≠ id) →
  (∀ r, ix_pos CAP r → ix_off CAP (home id - 1) r < ix_off CAP (home id - 1) q → kat ks r ≠ EMPTY) →
  paths (<[Z.to_nat q := id]> ks) q nowhere.
Proof using Hc.
  intros Hok Hq Hpath Hkq Hid Hno Hrun. pose proof CAP_pos as Hcp.
  pose proof (λ j Hj, kat_set ks ss q id j Hok Hq Hj) as Hks. split.
  - intros i Hi _ Hki. rewrite (Hks i Hi) in Hki |- *. case_decide as Hiq.
    + subst i. rewrite off_self by done. pose proof (off_bound CAP Hcp q (home id)). split; [lia|].
      intros r Hr Hon. rewrite (Hks r Hr). case_decide as Hrq; [done|]. apply Hrun; [done|].
      unfold on_path in Hon. rewrite !(off_change CAP Hcp (home id - 1) q) in Hon.
      pose proof (off_home id) as Hz.
      rewrite Hz in Hon. set (d := ix_off CAP (home id - 1)) in *.
      assert (d r ≠ d q) by (intros ?%off_inj; done).
      pose proof (off_bound CAP Hcp (home id - 1) r). pose proof (off_bound CAP Hcp (home id - 1) q).
      destruct (Z.ltb_spec (d q) (d r)), (Z.ltb_spec (d q) 0), (Z.ltb_spec (d q) (d q)); unfold d in *; lia.
    + destruct (path_ok _ _ _ Hpath i Hi) as [Hle Hall]; [by intros []|done|].
      destruct (path_recut CAP Hcp p q (home (kat ks i)) i Hle) as [Hle' Hsub].
      { intros Hon. by apply (Hall q Hq). }
      split; [done|]. intros r Hr Hon. rewrite (Hks r Hr). case_decide; [done|].
      apply Hall; [done|]. by apply Hsub.
  - intros i j Hi Hj _ _. rewrite (Hks i Hi), (Hks j Hj). repeat case_decide; subst; try done.
    + intros Heq. by destruct (Hno j Hj).
    + intros Heq. by destruct (Hno i Hi).
    + intros Heq Hne. apply (path_uniq _ _ _ Hpath); try done; by intros [].
Qed.

(** A table with fewer than [CAP] ids has an empty position. *)
Lemma empty_exists x m :
  ix_rep x m → Z.of_nat (size m) < CAP → ∃ e, ix_pos CAP e ∧ kat (keys x) e = EMPTY.
Proof using Hc.
  intros HR Hlt. pose proof (ixr_arrays _ _ HR) as Hok. pose proof Hok as (Hl & _ & _).
  destruct (ixr_paths _ _ HR) as (p & Hp & Hpath).
  destruct (decide (Exists (λ k, k = EMPTY) (keys x))) as [Hex|Hnex].
  { apply Exists_exists in Hex as (k & Hk & ->). apply list_elem_of_lookup in Hk as [i Hi].
    pose proof (lookup_lt_Some _ _ _ Hi). exists (Z.of_nat i). unfold ix_pos, kat.
    rewrite Nat2Z.id, Hi. split; [lia|done]. }
  exfalso. assert (Hall : ∀ i k, keys x !! i = Some k → k ≠ EMPTY).
  { intros i k Hi ->. apply Hnex, Exists_exists. exists EMPTY. split; [|done].
    by eapply list_elem_of_lookup_2. }
  assert (Hkat : ∀ i k, keys x !! i = Some k → ix_pos CAP (Z.of_nat i) ∧ kat (keys x) (Z.of_nat i) = k).
  { intros i k Hi. pose proof (lookup_lt_Some _ _ _ Hi). unfold ix_pos, kat.
    rewrite Nat2Z.id, Hi. split; [lia|done]. }
  assert (Hnd : NoDup (keys x)).
  { apply NoDup_alt. intros i j k Hi Hj. destruct (Hkat i k Hi) as [Hpi Hki], (Hkat j k Hj) as [Hpj Hkj].
    apply Nat2Z.inj, (path_uniq _ _ _ Hpath); [done|done|by intros []|by intros []|congruence|].
    rewrite Hki. by eapply Hall. }
  assert (Hsub : (list_to_set (keys x) : gset Z) ⊆ dom m).
  { intros k [i Hi]%elem_of_list_to_set%list_elem_of_lookup. apply elem_of_dom.
    destruct (Hkat i k Hi) as [Hpi Hki]. exists (sat (slots x) (Z.of_nat i)).
    apply (ixr_map _ _ HR). exists (Z.of_nat i). split_and!; [done|by intros []|by eapply Hall|done|done]. }
  apply subseteq_size in Hsub. rewrite size_list_to_set, size_dom in Hsub by done. lia.
Qed.

Lemma contents_replace ks ss p m i slot :
  arrays_ok ks ss → ix_pos CAP i → paths ks p nowhere → contents ks ss nowhere m →
  kat ks i ≠ EMPTY → contents ks (<[Z.to_nat i := slot]> ss) nowhere (<[kat ks i := slot]> m).
Proof using Hc.
  intros Hok Hi Hpath Hm Hk id s. pose proof (λ j Hj, sat_set ks ss i slot j Hok Hi Hj) as Hss.
  destruct (decide (id = kat ks i)) as [->|Hne].
  - rewrite lookup_insert_eq. split.
    + intros [= <-]. exists i. rewrite (Hss i Hi), decide_True by done. by split_and!; [|intros []|..].
    + intros (j & Hj & _ & _ & Hkj & Hsj). rewrite (Hss j Hj), decide_True in Hsj; [congruence|].
      apply (path_uniq _ _ _ Hpath); [done|done|by intros []|by intros []|done|congruence].
  - rewrite lookup_insert_ne, (Hm id s) by done. split; intros (j & Hj & Hx & Hn & Hkj & Hsj);
      exists j; (split_and!; [done..|]); rewrite (Hss j Hj), decide_False in *; try done; congruence.
Qed.

Lemma contents_fill ks ss m q id slot :
  arrays_ok ks ss → ix_pos CAP q → contents ks ss nowhere m → kat ks q = EMPTY → id ≠ EMPTY →
  (∀ j, ix_pos CAP j → kat ks j ≠ id) →
  contents (<[Z.to_nat q := id]> ks) (<[Z.to_nat q := slot]> ss) nowhere (<[id := slot]> m).
Proof using Hc.
  intros Hok Hq Hm Hkq Hid Hno id' s. pose proof (λ j Hj, sat_set ks ss q slot j Hok Hq Hj) as Hss.
  pose proof (λ j Hj, kat_set ks ss q id j Hok Hq Hj) as Hks.
  destruct (decide (id' = id)) as [->|Hne].
  - rewrite lookup_insert_eq. split.
    + intros [= <-]. exists q. rewrite (Hss q Hq), (Hks q Hq), !decide_True by done.
      by split_and!; [|intros []|..].
    + intros (j & Hj & _ & _ & Hkj & Hsj). rewrite (Hks j Hj) in Hkj. case_decide as Hjq.
      * rewrite (Hss j Hj), decide_True in Hsj; congruence.
      * by destruct (Hno j Hj).
  - rewrite lookup_insert_ne, (Hm id' s) by done.
    split; intros (j & Hj & Hx & Hn & Hkj & Hsj); exists j.
    + assert (j ≠ q) by congruence. rewrite (Hks j Hj), (Hss j Hj), !decide_False by done. by split_and!.
    + rewrite (Hks j Hj) in Hkj. case_decide; [congruence|].
      rewrite (Hss j Hj), decide_False in Hsj by done. by split_and!.
Qed.

Lemma ix_insert_spec x m id slot :
  ix_rep x m → u32 id → 0 ≤ slot →
  ∃ b x', insert CAP id slot x = Ret (b, x') ∧
    if b : bool then ix_rep x' (<[id := slot]> m) ∧
      id < PID_MAX ∧ slot < 2 ^ 16 ∧ (is_Some (m !! id) ∨ Z.of_nat (size m) < CAP)
    else x' = x ∧
      (PID_MAX ≤ id ∨ 2 ^ 16 ≤ slot ∨ (m !! id = None ∧ CAP ≤ Z.of_nat (size m))).
Proof using Hc.
  intros HR Hid Hs. pose proof CAP_pos as Hcp. pose proof CAP_le. unfold insert, valid.
  destruct (Z.ltb_spec id PID_MAX) as [Hv|Hv]; last first.
  { exists false, x. rewrite andb_false_r. split; [done|]. auto. }
  unfold in_width in Hid. assert (Hne : id ≠ EMPTY) by (unfold EMPTY, PID_MAX in *; lia).
  rewrite (proj2 (Z.eqb_neq id EMPTY)) by done. cbn [negb andb].
  destruct (Z.ltb_spec slot (2 ^ 16)) as [Hsl|Hsl]; cbn [negb]; last first.
  { exists false, x. split; [done|]. auto. }
  pose proof (ixr_arrays _ _ HR) as Hok. destruct (ixr_paths _ _ HR) as (p & Hp & Hpath).
  pose proof (ix_find_spec x m id HR ltac:(lia)) as Hfind. destruct (m !! id) as [s|] eqn:Hm.
  - destruct Hfind as (i & -> & Hi & Hk & Hsi). eexists true, _. split; [done|]. split; [|by eauto].
    pose proof (arrays_ok_set _ _ i EMPTY slot Hok Hi (or_introl eq_refl)) as (_ & _ & Hok').
    split; simpl; [done|by eauto| |].
    + rewrite <-Hk. eapply contents_replace; [done|done|done|apply HR|congruence].
    + rewrite map_size_insert_Some by eauto. apply HR.
  - destruct Hfind as [-> Hno]. simpl. rewrite (ixr_len _ _ HR).
    destruct (Z.leb_spec CAP (Z.of_nat (size m))) as [Hfull|Hroom].
    { exists false, x. split; [done|]. auto 6. }
    destruct (empty_exists x m HR Hroom) as (e & He & Hke). rewrite land_MASK. fold (home id).
    pose proof (off_bound CAP Hcp (home id - 1) e). pose proof (off_home id) as Hz.
    destruct (insert_scan (Z.to_nat CAP) x m id slot (home id) e) as (q & Hq & Hkq & _ & Hrun & Hins);
      [done|apply home_pos|done|done|lia|lia|rewrite (ixr_len _ _ HR); lia|rewrite (ixr_len _ _ HR); lia|].
    eexists true, _. split; [exact Hins|]. split; [|by eauto].
    split; simpl.
    + refine (proj1 (arrays_ok_set _ _ q id slot Hok Hq _)). right. lia.
    + exists q. split; [done|]. apply (paths_fill _ (slots x) p); try done.
      intros r Hr Hlt. apply Hrun; [done|]. pose proof (off_bound CAP Hcp (home id - 1) r). lia.
    + by apply contents_fill; [..|apply HR| | |].
    + rewrite map_size_insert_None by done. rewrite (ixr_len _ _ HR). lia.
Qed.

(** *** remove *)
Lemma set_same (l : list Z) i d : 0 ≤ i < Z.of_nat (length l) → <[Z.to_nat i := default d (l !! Z.to_nat i)]> l = l.
Proof.
  intros Hi. destruct (lookup_lt_is_Some_2 l (Z.to_nat i)) as [x Hx]; [lia|].
  rewrite Hx. simpl. by apply list_insert_id.
Qed.

(** During the backward shift the key at the hole [h] is stale.  The entries
    up to offset [b] have been looked at: the paths of those avoid [h]. *)
Record shifting (ks ss : list Z) (p h b : Z) (m : gmap Z Z) : Prop := {
  sh_arrays : arrays_ok ks ss;
  sh_hole : ix_pos CAP h;
  sh_stale : kat ks h ≠ EMPTY;
  sh_paths : paths ks p (eq h);
  sh_pending i : ix_pos CAP i → h ≠ i → kat ks i ≠ EMPTY →
    on_path CAP p (home (kat ks i)) i h → b < ix_off CAP p i;
  sh_map : contents ks ss (eq h) m;
  sh_bound : ix_off CAP p h ≤ b < CAP
}.

(** The table once the hole is emptied. *)
Definition shifted (ks ss : list Z) (p : Z) (m : gmap Z Z) : Prop :=
  arrays_ok ks ss ∧ paths ks p nowhere ∧ contents ks ss nowhere m.

Lemma shift_done ks ss p h b m :
  shifting ks ss p h b m →
  (∀ i, ix_pos CAP i → h ≠ i → kat ks i ≠ EMPTY → ¬ on_path CAP p (home (kat ks i)) i h) →
  shifted (<[Z.to_nat h := EMPTY]> ks) ss p m.
Proof using Hc.
  intros [Hok Hh Hst Hpath _ Hm _] Hclear.
  pose proof (λ j Hj, kat_set ks ss h EMPTY j Hok Hh Hj) as Hks.
  split_and!; [apply (arrays_ok_set ks ss h EMPTY 0 Hok Hh); by left|split|].
  - intros i Hi _ Hki. rewrite (Hks i Hi) in Hki |- *. case_decide as Hih; [done|].
    destruct (path_ok _ _ _ Hpath i Hi) as [Hle Hall]; [congruence|done|]. split; [done|].
    intros q Hq Hon. rewrite (Hks q Hq). case_decide as Hqh; [|by apply Hall].
    subst q. exfalso. by apply (Hclear i).
  - intros i j Hi Hj _ _. rewrite (Hks i Hi), (Hks j Hj). repeat case_decide; try congruence.
    intros. apply (path_uniq _ _ _ Hpath); congruence.
  - intros id s. rewrite (Hm id s). split; intros (i & Hi & Hx & Hid & Hk & Hs); exists i.
    + rewrite (Hks i Hi), decide_False by congruence. by split_and!; [|intros []|..].
    + rewrite (Hks i Hi) in Hk. case_decide; [congruence|]. by split_and!.
Qed.

Lemma shift_stay ks ss p h b m j :
  shifting ks ss p h b m → ix_pos CAP j → ix_off CAP p j = b + 1 →
  (kat ks j ≠ EMPTY → ¬ on_path CAP p (home (kat ks j)) j h) → shifting ks ss p h (b + 1) m.
Proof using Hc.
  intros [Hok Hh Hst Hpath Hpend Hm Hb] Hj Hoff Hn. pose proof (off_bound CAP CAP_pos p j).
  split; try done; [|lia]. intros i Hi Hih Hki Hon. specialize (Hpend i Hi Hih Hki Hon).
  destruct (Z.eq_dec (ix_off CAP p i) (b + 1)) as [Heq|]; [|lia].
  rewrite <-Hoff in Heq. apply (off_inj CAP CAP_pos) in Heq; [|done..]. subst i. by destruct (Hn Hki).
Qed.

Lemma shift_move ks ss p h b m j :
  shifting ks ss p h b m → ix_pos CAP j → ix_off CAP p j = b + 1 → kat ks j ≠ EMPTY →
  ix_off CAP p (home (kat ks j)) ≤ ix_off CAP p h →
  shifting (<[Z.to_nat h := kat ks j]> ks) (<[Z.to_nat h := sat ss j]> ss) p j (b + 1) m.
Proof using Hc.
  intros [Hok Hh Hst Hpath Hpend Hm Hb] Hj Hoff Hkj Hle. pose proof (off_bound CAP CAP_pos p j).
  assert (Hhj : h ≠ j) by (intros ->; lia).
  pose proof (λ i Hi, kat_set ks ss h (kat ks j) i Hok Hh Hi) as Hks.
  pose proof (λ i Hi, sat_set ks ss h (sat ss j) i Hok Hh Hi) as Hss.
  assert (Hkat : ∀ q, ix_pos CAP q → kat ks q ≠ EMPTY → kat (<[Z.to_nat h := kat ks j]> ks) q ≠ EMPTY).
  { intros q Hq Hkq. rewrite (Hks q Hq). by case_decide. }
  split; [|done|by apply Hkat| | | |lia].
  - apply (arrays_ok_set ks ss h (kat ks j) (sat ss j) Hok Hh). apply Hok.
  - split.
    + intros i Hi Hij Hki. rewrite (Hks i Hi) in Hki |- *. case_decide as Hih.
      * subst i. split; [done|]. intros q Hq Hon. apply Hkat; [done|].
        destruct (path_ok _ _ _ Hpath j Hj) as [_ Hall]; [done|done|].
        apply Hall; [done|]. unfold on_path in *. lia.
      * destruct (path_ok _ _ _ Hpath i Hi) as [Hle' Hall]; [congruence|done|].
        split; [done|]. intros q Hq Hon. apply Hkat; [done|]. by apply Hall.
    + intros i i' Hi Hi' Hij Hij'. rewrite (Hks i Hi), (Hks i' Hi'). repeat case_decide; try congruence.
      * intros Heq Hne. destruct Hij'. by apply (path_uniq _ _ _ Hpath); [..|congruence| |].
      * intros Heq Hne. destruct Hij. by apply (path_uniq _ _ _ Hpath); [..|congruence| |congruence].
      * intros. apply (path_uniq _ _ _ Hpath); congruence.
  - intros i Hi Hij Hki Hon. rewrite (Hks i Hi) in Hki, Hon. unfold on_path in Hon.
    case_decide as Hih; [subst i; lia|].
    assert (ix_off CAP p i ≠ ix_off CAP p j); [|lia].
    intros ?%(off_inj CAP CAP_pos); [|done..]. congruence.
  - intros id s. rewrite (Hm id s). split; intros (i & Hi & Hx & Hid & Hk & Hs).
    + destruct (decide (i = j)) as [->|Hij].
      * exists h. rewrite (Hks h Hh), (Hss h Hh), !decide_True by done. by split_and!.
      * exists i. rewrite (Hks i Hi), (Hss i Hi), !decide_False by congruence. split_and!; congruence.
    + rewrite (Hks i Hi) in Hk. rewrite (Hss i Hi) in Hs. case_decide.
      * exists j. by split_and!.
      * exists i. split_and!; congruence.
Qed.

Lemma ring_sub j h : Z.land (wrapping_sub 64 j h) (MASK CAP) = (j - h) mod CAP.
Proof using Hc.
  rewrite land_MASK. unfold wrapping_sub, wrap, CAP. symmetry.
  apply Znumtheory.Zmod_div_mod; [apply pow2_pos; lia|apply pow2_pos; lia|apply pow2_divide; lia].
Qed.

(** An entry that was looked at stays where it is. *)
Lemma shift_settled ks ss p h m j :
  shifting ks ss p h (CAP - 1) m → ix_pos CAP j → h ≠ j → kat ks j ≠ EMPTY →
  (j - home (kat ks j)) mod CAP < (j - h) mod CAP.
Proof using Hc.
  intros Hs Hj Hhj Hkj. pose proof CAP_pos as Hcp.
  destruct (path_ok _ _ _ (sh_paths _ _ _ _ _ _ Hs) j Hj) as [Hle _]; [done|done|].
  pose proof (sh_pending _ _ _ _ _ _ Hs j Hj Hhj Hkj) as Hpend. unfold on_path in Hpend.
  pose proof (off_bound CAP Hcp p j). pose proof (off_bound CAP Hcp p h).
  pose proof (off_bound CAP Hcp p (home (kat ks j))).
  rewrite (ring_dist CAP Hcp p (home _) j), (ring_dist CAP Hcp p h j).
  destruct (Z.leb_spec (ix_off CAP p (home (kat ks j))) (ix_off CAP p j)),
    (Z.leb_spec (ix_off CAP p h) (ix_off CAP p j)); lia.
Qed.

Lemma ix_shift_spec n ks ss p h b m j :
  shifting ks ss p h b m → ix_pos CAP j →
  (b = ix_off CAP p j ∧ CAP - 1 ≤ ix_off CAP p j + Z.of_nat n) ∨ b = CAP - 1 →
  ∃ h' ks' ss', shift CAP n ks ss h j = Ret (Some h', ks', ss') ∧
    shifted (<[Z.to_nat h' := EMPTY]> ks') ss' p m.
Proof using Hc.
  intros Hs Hj Hb. pose proof CAP_pos as Hcp. pose proof CAP_le.
  revert ks ss h b j Hs Hj Hb. induction n as [|n IH]; intros ks ss h b j Hs Hj Hb.
  { pose proof (off_bound CAP Hcp p j). exists h, ks, ss. split; [done|]. eapply shift_done; [done|].
    intros i Hi Hih Hki Hon. pose proof (sh_pending _ _ _ _ _ _ Hs i Hi Hih Hki Hon).
    pose proof (off_bound CAP Hcp p i). lia. }
  cbn [shift]. pose proof (sh_arrays _ _ _ _ _ _ Hs) as Hok.
  assert (addc 64 j 1 = Ret (j + 1)) as ->.
  { apply owp_eq, owp_addc; [unfold in_width, ix_pos in *; lia|done]. }
  cbn [obind]. rewrite land_MASK. fold (ix_next CAP j). set (j' := ix_next CAP j).
  assert (Hj' : ix_pos CAP j') by (by apply next_pos).
  rewrite (get_key _ _ j' Hok Hj'), (get_slot _ _ j' Hok Hj').
  pose proof (off_bound CAP Hcp p j). pose proof (off_bound CAP Hcp p j') as Hoj'.
  rewrite !ring_sub, land_MASK. fold (home (kat ks j')).
  destruct (Z.eqb_spec (kat ks j') EMPTY) as [Hke|Hke].
  - exists h, ks, ss. split; [done|]. eapply shift_done; [done|]. intros i Hi Hih Hki Hon.
    pose proof (sh_pending _ _ _ _ _ _ Hs i Hi Hih Hki Hon) as Hbi.
    pose proof (off_bound CAP Hcp p i). destruct Hb as [[-> Hn]| ->]; [|lia].
    destruct (path_ok _ _ _ (sh_paths _ _ _ _ _ _ Hs) i Hi) as [_ Hall]; [congruence|done|].
    apply (Hall j' Hj'); [|done]. pose proof (off_next CAP Hcp p j ltac:(lia)) as Hnx. fold j' in Hnx.
    pose proof (sh_bound _ _ _ _ _ _ Hs). unfold on_path in *. lia.
  - destruct (decide (b = CAP - 1)) as [->|Hnb].
    + (* everything was looked at: nothing moves *)
      destruct (decide (h = j')) as [Heq|Hne].
      * rewrite <-Heq in *. rewrite Z.sub_diag, Z.mod_0_l by lia.
        rewrite (proj2 (Z.leb_le _ _)) by (apply Z.mod_pos_bound; lia).
        destruct Hok as (Hlk & Hls & _). unfold ix_pos in Hj'.
        assert (<[Z.to_nat h := kat ks h]> ks = ks) as -> by (apply set_same; lia).
        assert (<[Z.to_nat h := sat ss h]> ss = ss) as -> by (apply set_same; lia).
        apply (IH _ _ _ (CAP - 1)); [done|done|by right].
      * rewrite (proj2 (Z.leb_gt _ _)) by (by eapply shift_settled).
        apply (IH _ _ _ (CAP - 1)); [done|done|by right].
    + destruct Hb as [[-> Hn]|]; [|done]. pose proof (sh_bound _ _ _ _ _ _ Hs).
      pose proof (off_next CAP Hcp p j ltac:(lia)) as Hnx. fold j' in Hnx.
      assert (Hhj : h ≠ j') by (intros ->; lia).
      destruct (path_ok _ _ _ (sh_paths _ _ _ _ _ _ Hs) j' Hj') as [Hle _]; [done|done|].
      rewrite (ring_dist CAP Hcp p (home _) j'), (ring_dist CAP Hcp p h j').
      rewrite !(proj2 (Z.leb_le (ix_off CAP p _) (ix_off CAP p j'))) by lia.
      destruct (Z.leb_spec (ix_off CAP p j' - ix_off CAP p h)
        (ix_off CAP p j' - ix_off CAP p (home (kat ks j')))) as [Hmv|Hst].
      * apply (IH _ _ _ (ix_off CAP p j + 1)); [|done|left; lia].
        apply (shift_move _ _ _ _ _ _ _ Hs Hj'); [lia|done|lia].
      * apply (IH _ _ _ (ix_off CAP p j + 1)); [|done|left; lia].
        apply (shift_stay _ _ _ _ _ _ j' Hs Hj'); [lia|]. unfold on_path. lia.
Qed.

Lemma remove_start x m p i :
  ix_rep x m → ix_pos CAP p → paths (keys x) p nowhere → ix_pos CAP i → kat (keys x) i ≠ EMPTY →
  shifting (keys x) (slots x) p i (ix_off CAP p i) (base.delete (kat (keys x) i) m).
Proof using Hc.
  intros HR Hp Hpath Hi Hki. pose proof (off_bound CAP CAP_pos p i). split; try done; [apply HR| | | |lia].
  - split.
    + intros j Hj _ Hkj. apply (path_ok _ _ _ Hpath); [done|by intros []|done].
    + intros j j' Hj Hj' _ _. apply (path_uniq _ _ _ Hpath); [done|done|by intros []|by intros []].
  - intros j Hj Hij Hkj [_ Hon]. assert (ix_off CAP p j ≠ ix_off CAP p i); [|lia].
    intros Heq. apply Hij. symmetry. by apply (off_inj CAP CAP_pos) in Heq.
  - intros id s. rewrite lookup_delete_Some, (ixr_map _ _ HR id s).
    split; [intros [Hne (j & Hj & _ & Hid & Hk & Hs)]|intros (j & Hj & Hx & Hid & Hk & Hs)].
    + exists j. split_and!; congruence.
    + split; [|exists j; by split_and!; [|intros []|..]]. intros Heq. apply Hx.
      apply (path_uniq _ _ _ Hpath); [done|done|by intros []|by intros []|congruence|done].
Qed.

(** At most one entry per position. *)
Lemma rep_size x m : ix_rep x m → Z.of_nat (size m) ≤ CAP.
Proof using Hc.
  intros HR. destruct (ixr_arrays _ _ HR) as (Hl & _ & _).
  assert (Hsub : elements (dom m) ⊆+ keys x).
  { apply NoDup_submseteq; [apply NoDup_elements|].
    intros k [s Hs]%elem_of_elements%elem_of_dom.
    apply (ixr_map _ _ HR) in Hs as (i & Hi & _ & Hk & Hki & _).
    apply list_elem_of_lookup. exists (Z.to_nat i). unfold kat in Hki.
    destruct (keys x !! Z.to_nat i); simpl in Hki; congruence. }
  apply submseteq_length in Hsub. change (length (elements (dom m))) with (size (dom m)) in Hsub.
  rewrite size_dom in Hsub. lia.
Qed.

Lemma ix_get_spec x m id :
  ix_rep x m → u32 id → get CAP x id = Ret (if id <? PID_MAX then m !! id else None).
Proof using Hc.
  intros HR Hid. unfold get, valid.
  destruct (Z.ltb_spec id PID_MAX) as [Hv|Hv]; [|by rewrite andb_false_r].
  unfold in_width in Hid. rewrite (proj2 (Z.eqb_neq id EMPTY)) by (unfold EMPTY, PID_MAX in *; lia).
  cbn [negb andb]. pose proof (ix_find_spec x m id HR ltac:(lia)) as Hfind.
  destruct (m !! id) as [s|].
  - destruct Hfind as (i & -> & Hi & _ & Hs). cbn [obind].
    by rewrite (get_slot _ _ i (ixr_arrays _ _ HR) Hi), Hs.
  - by destruct Hfind as [-> _].
Qed.

Lemma ix_new_spec : ix_rep (IdIndex_new CAP) ∅.
Proof using Hc.
  pose proof CAP_pos as Hcp.
  assert (Hk : ∀ i, kat (keys (IdIndex_new CAP)) i = EMPTY).
  { intros i. unfold kat. simpl. destruct (_ !! _) as [k|] eqn:E; [|done].
    by apply lookup_replicate in E as [-> _]. }
  split; simpl.
  - unfold arrays_ok. rewrite !length_replicate. split_and!; [lia|lia|]. auto.
  - exists 0. split; [unfold ix_pos; lia|]. by split; intros i; rewrite Hk.
  - intros id s. rewrite lookup_empty. split; [done|]. intros (i & _ & _ & Hid & Hki & _).
    rewrite Hk in Hki. congruence.
  - done.
Qed.

Lemma ix_remove_spec x m id :
  ix_rep x m → u32 id →
  ∃ x', remove CAP id x = Ret (if id <? PID_MAX then m !! id else None, x') ∧
    ix_rep x' (if id <? PID_MAX then base.delete id m else m).
Proof using Hc.
  intros HR Hid. pose proof CAP_pos as Hcp. pose proof CAP_le. unfold remove, valid.
  destruct (Z.ltb_spec id PID_MAX) as [Hv|Hv]; [|exists x; by rewrite andb_false_r].
  unfold in_width in Hid. assert (Hne : id ≠ EMPTY) by (unfold EMPTY, PID_MAX in *; lia).
  rewrite (proj2 (Z.eqb_neq id EMPTY)) by done. cbn [negb andb].
  pose proof (ixr_arrays _ _ HR) as Hok. destruct (ixr_paths _ _ HR) as (p & Hp & Hpath).
  pose proof (ix_find_spec x m id HR ltac:(lia)) as Hfind. destruct (m !! id) as [s|] eqn:Hm.
  - destruct Hfind as (i & -> & Hi & Hk & Hsi). cbn [obind].
    rewrite (get_slot _ _ i Hok Hi), Hsi.
    pose proof (remove_start x m p i HR Hp Hpath Hi ltac:(congruence)) as Hstart. rewrite Hk in Hstart.
    pose proof (off_bound CAP Hcp p i).
    destruct (ix_shift_spec (Z.to_nat CAP) _ _ _ _ _ _ i Hstart Hi) as (h & ks & ss & -> & Hok' & Hp' & Hm');
      [left; lia|]. cbn [obind].
    assert (Hsz : size (base.delete id m) = pred (size m)) by (apply map_size_delete_Some; eauto).
    assert (size m ≠ 0%nat) by (intros Hz%map_size_empty_inv; subst; set_solver).
    pose proof (rep_size x m HR) as Hle.
    assert (subc 64 (len x) 1 = Ret (Z.of_nat (size m) - 1)) as ->.
    { rewrite (ixr_len _ _ HR). apply owp_eq, owp_subc; [unfold in_width; lia|done]. }
    eexists. split; [done|]. split; simpl; [done|by eauto|done|lia].
  - destruct Hfind as [-> _]. exists x. cbn [obind]. split; [done|]. by rewrite delete_id.
Qed.
End table.

(** ** Refinement *)
Inductive ix_op :=
  | IxInsert (id slot : Z)
  | IxGet (id : Z)
  | IxRemove (id : Z).
Inductive ix_out :=
  | OutBool (b : bool)
  | OutSlot (s : option Z).

Definition ix_op_ok (o : ix_op) : Prop :=
  match o with IxInsert id slot => u32 id ∧ usize slot | IxGet id => u32 id | IxRemove id => u32 id end.

(** The table's answer. *)
Definition ix_step (CAP : Z) (o : ix_op) (x : IdIndex) : outcome (ix_out * IdIndex) :=
  match o with
  | IxInsert id slot => r <~ insert CAP id slot x;; Ret (OutBool (fst r), snd r)
  | IxGet id => s <~ get CAP x id;; Ret (OutSlot s, x)
  | IxRemove id => r <~ remove CAP id x;; Ret (OutSlot (fst r), snd r)
  end.
Fixpoint ix_run (CAP : Z) (ops : list ix_op) (x : IdIndex) : outcome (list ix_out * IdIndex) :=
  match ops with
  | [] => Ret ([], x)
  | o :: ops => r <~ ix_step CAP o x;; r' <~ ix_run CAP ops (snd r);; Ret (fst r :: fst r', snd r')
  end.

(** A finite map's answer: ids below [PID_MAX], slots of 16 bits, at most
    [CAP] ids. *)
Definition map_step (CAP : Z) (o : ix_op) (m : gmap Z Z) : ix_out * gmap Z Z :=
  match o with
  | IxInsert id slot =>
      let ok := bool_decide (id < PID_MAX ∧ slot < 2 ^ 16 ∧
                             (is_Some (m !! id) ∨ Z.of_nat (size m) < CAP)) in
      (OutBool ok, if ok then <[id := slot]> m else m)
  | IxGet id => (OutSlot (if id <? PID_MAX then m !! id else None), m)
  | IxRemove id => (OutSlot (if id <? PID_MAX then m !! id else None),
                    if id <? PID_MAX then base.delete id m else m)
  end.
Fixpoint map_run (CAP : Z) (ops : list ix_op) (m : gmap Z Z) : list ix_out * gmap Z Z :=
  match ops with
  | [] => ([], m)
  | o :: ops => let r := map_step CAP o m in let r' := map_run CAP ops (snd r) in
                (fst r :: fst r', snd r')
  end.

Lemma ix_step_refines c o x m :
  0 ≤ c ≤ 32 → ix_op_ok o → ix_rep c x m →
  ∃ x', ix_step (2 ^ c) o x = Ret (fst (map_step (2 ^ c) o m), x') ∧ ix_rep c x' (snd (map_step (2 ^ c) o m)).
Proof.
  intros Hc Ho HR. destruct o as [id slot|id|id]; simpl in *.
  - destruct Ho as [Hid Hs]. unfold in_width in Hs.
    destruct (ix_insert_spec c Hc x m id slot HR Hid ltac:(lia)) as (b & x' & -> & Hb). cbn [obind fst snd].
    destruct b.
    + destruct Hb as (HR' & Hok). rewrite bool_decide_true by done. eauto.
    + destruct Hb as [-> Hno]. rewrite bool_decide_false; [eauto|].
      intros (H1 & H2 & [[s Hs']|H3]); destruct Hno as [?|[?|[? ?]]]; congruence || lia.
  - rewrite (ix_get_spec c Hc x m id HR Ho). eauto.
  - destruct (ix_remove_spec c Hc x m id HR Ho) as (x' & -> & HR'). eauto.
Qed.

Lemma ix_run_refines c ops x m :
  0 ≤ c ≤ 32 → Forall ix_op_ok ops → ix_rep c x m →
  ∃ x', ix_run (2 ^ c) ops x = Ret (fst (map_run (2 ^ c) ops m), x') ∧ ix_rep c x' (snd (map_run (2 ^ c) ops m)).
Proof.
  intros Hc Hops. revert x m. induction Hops as [|o ops Ho _ IH]; intros x m HR; simpl; [eauto|].
  destruct (ix_step_refines c o x m Hc Ho HR) as (x1 & -> & HR1). cbn [obind fst snd].
  destruct (IH x1 _ HR1) as (x2 & -> & HR2). eauto.
Qed.

(** C11: the id index is a finite map.  For every capacity that is a power of
    two and every sequence of inserts, lookups and removals, the
    open-addressed table answers as a finite map that refuses ids past
    [PID_MAX], slots past 16 bits, and a new id once [CAP] are held; nothing
    panics, also when the table is full and probe runs wrap round its end. *)
Theorem idindex_refines_map c ops :
  0 ≤ c ≤ 32 → Forall ix_op_ok ops →
  ∃ x, ix_run (2 ^ c) ops (IdIndex_new (2 ^ c)) = Ret (fst (map_run (2 ^ c) ops ∅), x).
Proof.
  intros Hc Hops. destruct (ix_run_refines c ops _ ∅ Hc Hops (ix_new_spec c Hc)) as (x & Hx & _). eauto.
Qed.

(** Ids 7, 15 and 23 share the last home of eight; 0 lands behind them. *)
Definition ix_demo : list ix_op :=
  [IxInsert 7 4; IxInsert 15 5; IxInsert 23 6; IxInsert 0 1; IxRemove 7; IxGet 15; IxGet 23; IxGet 0; IxGet 7].

Lemma idindex_refines_map_witness :
  fst (map_run (2 ^ 3) ix_demo ∅) =
    [OutBool true; OutBool true; OutBool true; OutBool true; OutSlot (Some 4);
     OutSlot (Some 5); OutSlot (Some 6); OutSlot (Some 1); OutSlot None] ∧
  ∃ x, ix_run (2 ^ 3) ix_demo (IdIndex_new (2 ^ 3)) = Ret (fst (map_run (2 ^ 3) ix_demo ∅), x).
Proof.
  split; [vm_compute; reflexivity|]. apply (idindex_refines_map 3 ix_demo); [lia|].
  repeat constructor; done.
Defined.
