(* ===== verification/Ring.v ===== *)
(** * Ring buffers

    An array and a head stand for the list of elements from the head on,
    wrapping at the end of the array.  Shared by the ready queue, the work
    rings and the bounded channel. *)

From stdpp Require Import base list numbers.
From S2P Require Import Prelude.

Local Open Scope Z_scope.

Definition ring_slot (cap head i : Z) : Z := (head + i) mod cap.

Section ring.
Context {A : Type}.
Implicit Types (buf l : list A) (x y : A).


Definition ring_rep buf (head : Z) l : Prop :=
  zlen l ≤ zlen buf ∧
  ∀ i x, l !! i = Some x → buf !! Z.to_nat (ring_slot (zlen buf) head (Z.of_nat i)) = Some x.

Lemma slot_bound buf head i : 0 < zlen buf → 0 ≤ ring_slot (zlen buf) head i < zlen buf.
Proof. intros. by apply Z.mod_pos_bound. Qed.

Lemma slot_inj cap head i j :
  0 ≤ i < cap → 0 ≤ j < cap → ring_slot cap head i = ring_slot cap head j → i = j.
Proof.
  unfold ring_slot. intros Hi Hj Heq.
  assert (Hz : (i - j) mod cap = 0).
  { replace (i - j) with ((head + i) - (head + j)) by lia. by rewrite Zminus_mod, Heq, Z.sub_diag. }
  apply Z.mod_divide in Hz as [q Hq]; [|lia]. assert (q = 0) by nia. lia.
Qed.

Lemma slot_next cap head i :
  0 < cap → ring_slot cap ((head + 1) mod cap) i = ring_slot cap head (i + 1).
Proof.
  intros. unfold ring_slot. rewrite Zplus_mod_idemp_l. f_equal. lia.
Qed.

Lemma ring_nil buf head : ring_rep buf head [].
Proof. unfold ring_rep, zlen. simpl. split; [lia|done]. Qed.

Lemma ring_lookup buf head l i x :
  ring_rep buf head l → 0 ≤ i → l !! Z.to_nat i = Some x →
  index buf (ring_slot (zlen buf) head i) = Ret x.
Proof.
  intros [Hl Hr] Hi Hx. specialize (Hr _ _ Hx). rewrite Z2Nat.id in Hr by lia.
  pose proof (lookup_lt_Some _ _ _ Hx). unfold zlen in *.
  pose proof (slot_bound buf head i ltac:(unfold zlen; lia)). unfold zlen in *.
  apply owp_eq. by eapply owp_index; [lia|exact Hr|].
Qed.

Lemma ring_set buf head l i y :
  ring_rep buf head l → 0 ≤ i < zlen l →
  ring_rep (<[Z.to_nat (ring_slot (zlen buf) head i) := y]> buf) head (<[Z.to_nat i := y]> l).
Proof.
  intros [Hl Hr] Hi. pose proof (slot_bound buf head i ltac:(lia)) as Hs. unfold ring_rep, zlen in *.
  rewrite !length_insert. split; [done|]. intros j x Hj.
  apply list_lookup_insert_Some in Hj as [(<- & <- & _)|[Hne Hj]].
  - rewrite Z2Nat.id by lia. apply list_lookup_insert_eq. lia.
  - rewrite list_lookup_insert_ne; [by apply Hr|]. pose proof (lookup_lt_Some _ _ _ Hj).
    pose proof (slot_bound buf head (Z.of_nat j) ltac:(unfold zlen; lia)). unfold zlen in *.
    intros Heq. apply Z2Nat.inj in Heq; [|lia..]. apply slot_inj in Heq; lia.
Qed.

Lemma ring_prefix buf head l k : ring_rep buf head (l ++ k) → ring_rep buf head l.
Proof.
  intros [Hl Hr]. unfold ring_rep, zlen in *. rewrite length_app in Hl. split; [lia|].
  intros i x Hi. apply Hr. by apply lookup_app_l_Some.
Qed.

Lemma ring_push buf head l y :
  ring_rep buf head l → zlen l < zlen buf →
  ring_rep (<[Z.to_nat (ring_slot (zlen buf) head (zlen l)) := y]> buf) head (l ++ [y]).
Proof.
  intros [Hl Hr] Hlt. pose proof (slot_bound buf head (zlen l) ltac:(unfold zlen in *; lia)) as Hs.
  unfold ring_rep, zlen in *. rewrite length_insert, length_app. simpl. split; [lia|].
  intros i x Hi. pose proof (slot_bound buf head (Z.of_nat i) ltac:(unfold zlen; lia)). unfold zlen in *.
  apply lookup_app_Some in Hi as [Hi|[Hge Hi]].
  - pose proof (lookup_lt_Some _ _ _ Hi). rewrite list_lookup_insert_ne; [by apply Hr|].
    intros Heq. apply Z2Nat.inj in Heq; [|lia..]. apply slot_inj in Heq; lia.
  - apply list_lookup_singleton_Some in Hi as [Hi <-]. assert (i = length l) as -> by lia.
    apply list_lookup_insert_eq. lia.
Qed.

(** Dropping the last element, its slot overwritten. *)
Lemma ring_chop buf head l x y :
  ring_rep buf head (l ++ [x]) →
  ring_rep (<[Z.to_nat (ring_slot (zlen buf) head (zlen l)) := y]> buf) head l.
Proof.
  intros Hr. assert (H : 0 ≤ zlen l < zlen (l ++ [x])).
  { unfold zlen. rewrite length_app. simpl. lia. }
  apply (ring_set _ _ _ _ y Hr) in H. replace (Z.to_nat (zlen l)) with (length l) in H by (unfold zlen; lia).
  rewrite insert_app_r_alt, Nat.sub_diag in H by done. by apply ring_prefix in H.
Qed.

Lemma ring_pop buf head x l :
  ring_rep buf head (x :: l) → ring_rep buf (ring_slot (zlen buf) head 1) l.
Proof.
  intros [Hl Hr]. unfold ring_rep, zlen in *. simpl in Hl. split; [lia|]. intros i y Hi.
  specialize (Hr (S i) y Hi). unfold ring_slot at 2.
  rewrite slot_next by lia. by replace (Z.of_nat i + 1) with (Z.of_nat (S i)) by lia.
Qed.

(** Dropping the first element, its slot overwritten. *)
Lemma ring_shift buf head x l y :
  ring_rep buf head (x :: l) →
  ring_rep (<[Z.to_nat (ring_slot (zlen buf) head 0) := y]> buf) (ring_slot (zlen buf) head 1) l.
Proof.
  intros Hr. assert (H : 0 ≤ 0 < zlen (x :: l)) by (unfold zlen; simpl; lia).
  apply (ring_set _ _ _ _ y Hr) in H. simpl in H. apply ring_pop in H.
  unfold zlen in *. by rewrite length_insert in H.
Qed.
End ring.

(** ** Closing and opening a gap in a list *)
Section gap.
Context {A : Type}.
Implicit Types l : list A.

(** Moving every later element one place down leaves the list without the
    [i]th and its last element twice. *)
Lemma close_list l1 x y l2 i :
  i = length l1 → <[i := y]> (l1 ++ x :: y :: l2) = (l1 ++ [y]) ++ y :: l2.
Proof.
  intros ->. rewrite insert_app_r_alt, Nat.sub_diag by done. simpl. by rewrite <-app_assoc.
Qed.
End gap.
