(* ===== verification/Sched.v ===== *)
(** * Run queue and timeouts (src/crates/core/src/sched/mod.rs)

    The definitions of this file are the code of [sched/mod.rs]: the ready
    ring, the sorted timeout table, the sweep for overdue threads, and the
    functions that move threads between them.  A thread id is its number,
    [THREAD_NONE] for none. *)

From stdpp Require Import base list numbers strings.
From S2P Require Import Prelude.

Local Open Scope string_scope.
Local Open Scope Z_scope.

Module Sched.

Definition THREAD_NONE : Z := 2 ^ 32 - 1.
Definition is_none (id : Z) : bool := id =? 2 ^ 32 - 1.

Definition FAR_DEADLINE : Z := 2 ^ 64 - 1.
Definition OVERDUE_NS : Z := 5000000000.

Definition effective_deadline (deadline : option Z) : Z := default FAR_DEADLINE deadline.

Inductive ThreadState :=
  | Ready
  | Running
  | Sleeping (deadline : Z)
  | Blocked (wq deadline : Z)
  | Dead.

(** ** ReadyQueue *)
Record ReadyQueue := mkReadyQueue {
  rq_ids : Z;
  rq_cap : Z;
  rq_head : Z;
  rq_len : Z;
  rq_buf : list Z
}.

Definition set_ring (head len : Z) (buf : list Z) (q : ReadyQueue) : ReadyQueue :=
  mkReadyQueue (rq_ids q) (rq_cap q) head len buf.

Definition ReadyQueue_empty : ReadyQueue := mkReadyQueue 0 0 0 0 [].

(** [try_new]: [alloc n] is the address of a table of [n] ids, or none when
    the heap refuses it. *)
Definition ReadyQueue_try_new (alloc : Z → option Z) (cap : Z) : option ReadyQueue :=
  match alloc cap with
  | Some addr => Some (mkReadyQueue addr cap 0 0 (replicate (Z.to_nat cap) THREAD_NONE))
  | None => None
  end.

Definition capacity (q : ReadyQueue) : Z := Z.of_nat (length (rq_buf q)).
Definition rq_is_empty (q : ReadyQueue) : bool := rq_len q =? 0.

(** [(head + i) % buf.len()]. *)
Definition ring_index (q : ReadyQueue) (i : Z) : outcome Z :=
  x <~ addc 64 (rq_head q) i;; remc x (Z.of_nat (length (rq_buf q))).

Definition at_ (q : ReadyQueue) (i : Z) : outcome Z :=
  _ <~ oassert (i <? rq_len q) "ready: index";;
  j <~ ring_index q i;; index (rq_buf q) j.

Definition front (q : ReadyQueue) : outcome (option Z) :=
  if rq_len q =? 0 then Ret None
  else x <~ index (rq_buf q) (rq_head q);; Ret (Some x).

(** [self.iter().position(|x| x == id)], from the [i]th id; [n] ids are left. *)
Fixpoint position_from (n : nat) (q : ReadyQueue) (id i : Z) : outcome (option Z) :=
  match n with
  | O => Ret None
  | S n =>
      if rq_len q <=? i then Ret None
      else
        x <~ at_ q i;;
        if x =? id then Ret (Some i)
        else i' <~ addc 64 i 1;; position_from n q id i'
  end.

Definition position (q : ReadyQueue) (id : Z) : outcome (option Z) :=
  position_from (Z.to_nat (rq_len q)) q id 0.

Definition contains (q : ReadyQueue) (id : Z) : outcome bool :=
  p <~ position q id;; Ret (match p with Some _ => true | None => false end).

Definition push_back (id : Z) (q : ReadyQueue) : outcome ReadyQueue :=
  _ <~ oassert (negb (is_none id)) "ready: push NONE";;
  c <~ contains q id;;
  if c : bool then Ret q
  else
    _ <~ oassert (rq_len q <? Z.of_nat (length (rq_buf q))) "ready: full";;
    i <~ ring_index q (rq_len q);;
    buf <~ store (rq_buf q) i id;;
    len <~ addc 64 (rq_len q) 1;;
    Ret (set_ring (rq_head q) len buf q).

Definition pop_front (q : ReadyQueue) : outcome (option Z * ReadyQueue) :=
  if rq_len q =? 0 then Ret (None, q)
  else
    id <~ index (rq_buf q) (rq_head q);;
    buf <~ store (rq_buf q) (rq_head q) THREAD_NONE;;
    head <~ ring_index (set_ring (rq_head q) (rq_len q) buf q) 1;;
    len <~ subc 64 (rq_len q) 1;;
    Ret (Some id, set_ring head len buf q).

(** The loop of [remove]: move each later id one place to the front. *)
Fixpoint close_gap (n : nat) (i : Z) (q : ReadyQueue) : outcome ReadyQueue :=
  match n with
  | O => Ret q
  | S n =>
      i' <~ addc 64 i 1;;
      if i' <? rq_len q then
        nxt <~ at_ q i';;
        slot <~ ring_index q i;;
        buf <~ store (rq_buf q) slot nxt;;
        close_gap n i' (set_ring (rq_head q) (rq_len q) buf q)
      else Ret q
  end.

Definition remove (id : Z) (q : ReadyQueue) : outcome (bool * ReadyQueue) :=
  p <~ position q id;;
  match p with
  | None => Ret (false, q)
  | Some i =>
      q <~ close_gap (Z.to_nat (rq_len q)) i q;;
      n1 <~ subc 64 (rq_len q) 1;;
      last <~ ring_index q n1;;
      buf <~ store (rq_buf q) last THREAD_NONE;;
      len <~ subc 64 (rq_len q) 1;;
      Ret (true, set_ring (rq_head q) len buf q)
  end.

(** ** TimeoutQueue *)
Record Timeout := mkTimeout { t_id : Z; t_deadline : Z }.

Definition NO_TIMEOUT : Timeout := mkTimeout THREAD_NONE FAR_DEADLINE.

Record TimeoutQueue := mkTimeoutQueue { items : list Timeout; tq_len : Z }.

Definition TimeoutQueue_empty : TimeoutQueue := mkTimeoutQueue [] 0.
Definition TimeoutQueue_try_new (alloc : Z → option Z) (cap : Z) : option TimeoutQueue :=
  match alloc cap with
  | Some _ => Some (mkTimeoutQueue (replicate (Z.to_nat cap) NO_TIMEOUT) 0)
  | None => None
  end.

Definition next_deadline (q : TimeoutQueue) : outcome (option Z) :=
  if tq_len q =? 0 then Ret None
  else t <~ index (items q) 0;; Ret (Some (t_deadline t)).

Definition tq_get (q : TimeoutQueue) (i : Z) : outcome Timeout :=
  _ <~ oassert (i <? tq_len q) "timeout: index";; index (items q) i.

(** The search of [remove]: where [id] is, or the length. *)
Fixpoint find_id (n : nat) (q : TimeoutQueue) (id i : Z) : outcome Z :=
  match n with
  | O => Ret i
  | S n =>
      if i <? tq_len q then
        t <~ index (items q) i;;
        if t_id t =? id then Ret i
        else i' <~ addc 64 i 1;; find_id n q id i'
      else Ret i
  end.

(** [while i + 1 < self.len { items[i] = items[i + 1]; i += 1 }]. *)
Fixpoint move_down (n : nat) (its : list Timeout) (len i : Z) : outcome (list Timeout) :=
  match n with
  | O => Ret its
  | S n =>
      i' <~ addc 64 i 1;;
      if i' <? len then
        t <~ index its i';;
        its <~ store its i t;;
        move_down n its len i'
      else Ret its
  end.

Definition tq_remove (id : Z) (q : TimeoutQueue) : outcome (bool * TimeoutQueue) :=
  i <~ find_id (Z.to_nat (tq_len q)) q id 0;;
  if i =? tq_len q then Ret (false, q)
  else
    its <~ move_down (Z.to_nat (tq_len q)) (items q) (tq_len q) i;;
    len <~ subc 64 (tq_len q) 1;;
    its <~ store its len NO_TIMEOUT;;
    Ret (true, mkTimeoutQueue its len).

(** [deadline] and [id] sort before the entry [t]. *)
Definition sorts_before (id deadline : Z) (t : Timeout) : bool :=
  (deadline <? t_deadline t) || ((deadline =? t_deadline t) && (id <? t_id t)).

Fixpoint find_place (n : nat) (q : TimeoutQueue) (id deadline i : Z) : outcome Z :=
  match n with
  | O => Ret i
  | S n =>
      if i <? tq_len q then
        t <~ index (items q) i;;
        if sorts_before id deadline t then Ret i
        else i' <~ addc 64 i 1;; find_place n q id deadline i'
      else Ret i
  end.

(** [while j > i { items[j] = items[j - 1]; j -= 1 }]. *)
Fixpoint move_up (n : nat) (its : list Timeout) (i j : Z) : outcome (list Timeout) :=
  match n with
  | O => Ret its
  | S n =>
      if i <? j then
        j' <~ subc 64 j 1;;
        t <~ index its j';;
        its <~ store its j t;;
        move_up n its i j'
      else Ret its
  end.

Definition tq_insert (id deadline : Z) (q : TimeoutQueue) : outcome TimeoutQueue :=
  _ <~ oassert (negb (is_none id)) "timeout: insert NONE";;
  r <~ tq_remove id q;;
  let q := snd r in
  _ <~ oassert (tq_len q <? Z.of_nat (length (items q))) "timeout: full";;
  i <~ find_place (Z.to_nat (tq_len q)) q id deadline 0;;
  its <~ move_up (Z.to_nat (tq_len q)) (items q) i (tq_len q);;
  its <~ store its i (mkTimeout id deadline);;
  len <~ addc 64 (tq_len q) 1;;
  Ret (mkTimeoutQueue its len).

Definition pop_expired (now : Z) (q : TimeoutQueue) : outcome (option Z * TimeoutQueue) :=
  if tq_len q =? 0 then Ret (None, q)
  else
    t <~ index (items q) 0;;
    if now <? t_deadline t then Ret (None, q)
    else
      r <~ tq_remove (t_id t) q;;
      Ret (Some (t_id t), snd r).

(** [pop_expired_into] a slice of [n] ids: the ids popped, in order. *)
Fixpoint pop_expired_into (n : nat) (now : Z) (q : TimeoutQueue) : outcome (list Z * TimeoutQueue) :=
  match n with
  | O => Ret ([], q)
  | S n =>
      r <~ pop_expired now q;;
      match fst r with
      | None => Ret ([], snd r)
      | Some id => r' <~ pop_expired_into n now (snd r);; Ret (id :: fst r', snd r')
      end
  end.

(** ** Overdue threads *)
Definition is_overdue (state : ThreadState) (now : Z) : bool :=
  match state with
  | Sleeping deadline | Blocked _ deadline =>
      negb (deadline =? FAR_DEADLINE) && (OVERDUE_NS <=? saturating_sub now deadline)
  | Ready | Running | Dead => false
  end.

(** [out.iter().take(n).position(|o| o.raw() > id.raw()).unwrap_or(n)]. *)
Fixpoint place_of (out : list Z) (n : nat) (id : Z) : nat :=
  match n, out with
  | S n, o :: out => if id <? o then O else S (place_of out n id)
  | _, _ => O
  end.

(** [while i > pos { out[i] = out[i - 1]; i -= 1 }]. *)
Fixpoint shift_out (k : nat) (out : list Z) (pos i : Z) : outcome (list Z) :=
  match k with
  | O => Ret out
  | S k =>
      if pos <? i then
        i' <~ subc 64 i 1;;
        x <~ index out i';;
        out <~ store out i x;;
        shift_out k out pos i'
      else Ret out
  end.

(** One thread of [smallest_overdue]'s loop; the state is [out] and [n]. *)
Definition overdue_step (now : Z) (keep : Z → bool) (id : Z) (state : ThreadState)
    (out : list Z) (n : Z) : outcome (list Z * Z) :=
  if negb (keep id) || negb (is_overdue state now) then Ret (out, n)
  else
    let pos := Z.of_nat (place_of out (Z.to_nat n) id) in
    if (negb (n <? Z.of_nat (length out))) && (pos =? n) then Ret (out, n)
    else
      n' <~ (if n <? Z.of_nat (length out) then addc 64 n 1 else Ret n);;
      i <~ subc 64 n' 1;;
      out <~ shift_out (length out) out pos i;;
      out <~ store out pos id;;
      Ret (out, n').

Fixpoint smallest_overdue (now : Z) (keep : Z → bool) (threads : list (Z * ThreadState))
    (out : list Z) (n : Z) : outcome (list Z * Z) :=
  match threads with
  | [] => Ret (out, n)
  | (id, state) :: threads =>
      r <~ overdue_step now keep id state out n;;
      smallest_overdue now keep threads (fst r) (snd r)
  end.

(** [find_overdue]: the slice it leaves, how many it wrote, the next cursor. *)
Definition find_overdue (threads : list (Z * ThreadState)) (now from : Z) (out : list Z)
    : outcome (list Z * Z * Z) :=
  r <~ smallest_overdue now (λ id, from <=? id) threads out 0;;
  let '(out, n) := r in
  r <~ (if Z.of_nat (length out) <=? n then Ret (out, n)
        else
          r <~ smallest_overdue now (λ id, id <? from) threads (drop (Z.to_nat n) out) 0;;
          n' <~ addc 64 n (snd r);;
          Ret ((take (Z.to_nat n) out ++ fst r)%list, n'));;
  let '(out, n) := r in
  let next := match get_at out (n - 1) with
              | Some last => wrapping_add 32 last 1
              | None => from
              end in
  Ret (out, n, next).

(** ** Moving threads *)
Definition enqueue_runnable (id idle : Z) (state : ThreadState) (q : ReadyQueue) : outcome ReadyQueue :=
  if (id =? idle) || is_none id then Ret q
  else match state with
       | Running | Ready => push_back id q
       | Sleeping _ | Blocked _ _ | Dead => Ret q
       end.

Definition take_next (idle : Z) (q : ReadyQueue) : outcome (Z * ReadyQueue) :=
  r <~ pop_front q;; Ret (default idle (fst r), snd r).

(** [wake_expired]: the ids passed to [on_wake], in order; the timeouts held
    bound the loop. *)
Fixpoint wake_expired_from (fuel : nat) (now : Z) (tq : TimeoutQueue) (rq : ReadyQueue) (n : Z)
    : outcome (list Z * Z * TimeoutQueue * ReadyQueue) :=
  match fuel with
  | O => NoFuel
  | S fuel =>
      r <~ pop_expired now tq;;
      match fst r with
      | None => Ret ([], n, snd r, rq)
      | Some id =>
          rq <~ push_back id rq;;
          n <~ addc 64 n 1;;
          r' <~ wake_expired_from fuel now (snd r) rq n;;
          let '(ids, n, tq, rq) := r' in Ret (id :: ids, n, tq, rq)
      end
  end.
Definition wake_expired (now : Z) (tq : TimeoutQueue) (rq : ReadyQueue)
    : outcome (list Z * Z * TimeoutQueue * ReadyQueue) :=
  wake_expired_from (S (Z.to_nat (tq_len tq))) now tq rq 0.

Definition should_preempt (ran quantum : Z) (current_is_idle : bool) : bool :=
  current_is_idle || (quantum <=? ran).

End Sched.
