(* ===== verification/SchedReady.v ===== *)
(** * The ready queue is a FIFO without repeats

    [ReadyQueue] of src/crates/core/src/sched/mod.rs refines a list of distinct
    thread ids of bounded length. *)

From stdpp Require Import base gmap list numbers strings.
From S2P Require Import Prelude Trace Ring Sched.

Local Open Scope Z_scope.

Import Sched.

(** The ring holds [l]. *)
Record rq_shape (q : ReadyQueue) (l : list Z) : Prop := {
  rqr_ring : ring_rep (rq_buf q) (rq_head q) l;
  rqr_len : rq_len q = zlen l;
  rqr_head : 0 ≤ rq_head q ∧ (0 < zlen (rq_buf q) → rq_head q < zlen (rq_buf q));
  rqr_cap : zlen (rq_buf q) < 2 ^ 62
}.

(** It holds each id once. *)
Record rq_rep (q : ReadyQueue) (l : list Z) : Prop := {
  rqr_shape : rq_shape q l;
  rqr_nodup : NoDup l;
  rqr_ids : Forall (λ id, id ≠ THREAD_NONE) l
}.

Lemma rq_bounds q l : rq_shape q l → 0 ≤ zlen l ≤ zlen (rq_buf q) ∧ zlen (rq_buf q) < 2 ^ 62.
Proof.
  intros HR. destruct (rqr_ring _ _ HR) as [Hle _]. pose proof (rqr_cap _ _ HR).
  unfold zlen in *. lia.
Qed.

Lemma owp_ring_index q l i (Q : Z → Prop) :
  rq_shape q l → 0 ≤ i < 2 ^ 62 → 0 < zlen (rq_buf q) →
  Q (ring_slot (zlen (rq_buf q)) (rq_head q) i) → owp (ring_index q i) Q.
Proof.
  intros HR Hi Hpos HQ. pose proof (rq_bounds _ _ HR). destruct (rqr_head _ _ HR) as [H0 Hlt].
  specialize (Hlt Hpos). unfold ring_index. wp_step. wp_step; [unfold in_width; lia|].
  unfold zlen in *. wp_step; [lia|]. done.
Qed.

Lemma at_spec q l i x :
  rq_shape q l → 0 ≤ i → l !! Z.to_nat i = Some x → at_ q i = Ret x.
Proof.
  intros HR Hi Hx. pose proof (rq_bounds _ _ HR). pose proof (lookup_lt_Some _ _ _ Hx).
  apply owp_eq. unfold at_. rewrite (rqr_len _ _ HR). wp_step. wp_step; [unfold zlen; lia|].
  wp_step. eapply owp_ring_index; [done|unfold zlen in *; lia|unfold zlen in *; lia|].
  rewrite (ring_lookup _ _ l i x) by (done || apply HR). done.
Qed.

Lemma position_from_spec n q l1 l2 id :
  rq_shape q (l1 ++ l2) → n = length l2 → id ∉ l1 →
  match list_find (λ x, x = id) l2 with
  | Some (k, _) => position_from n q id (zlen l1) = Ret (Some (zlen l1 + Z.of_nat k))
  | None => position_from n q id (zlen l1) = Ret None
  end.
Proof.
  intros HR -> Hl1. pose proof (rq_bounds _ _ HR) as Hb. revert l1 HR Hl1 Hb.
  induction l2 as [|x l2 IH]; intros l1 HR Hl1 Hb; [done|]. cbn [length position_from list_find].
  rewrite (rqr_len _ _ HR), (proj2 (Z.leb_gt _ _)) by (unfold zlen; rewrite length_app; simpl; lia).
  assert (Hx : (l1 ++ x :: l2) !! Z.to_nat (zlen l1) = Some x).
  { unfold zlen. rewrite Nat2Z.id. by apply list_lookup_middle. }
  rewrite (at_spec q _ (zlen l1) x HR) by (done || unfold zlen; lia). cbn [obind].
  destruct (Z.eqb_spec x id) as [->|Hne]; [rewrite decide_True by done|rewrite decide_False by done].
  { by rewrite Z.add_0_r. }
  assert (addc 64 (zlen l1) 1 = Ret (zlen (l1 ++ [x]))) as ->.
  { apply owp_eq. unfold zlen in *. rewrite length_app in *. simpl in *.
    apply owp_addc; [unfold in_width; lia|lia]. }
  cbn [obind]. specialize (IH (l1 ++ [x])). rewrite <-app_assoc in IH. simpl in IH.
  specialize (IH HR ltac:(set_solver) Hb).
  destruct (list_find _ l2) as [[k y]|] eqn:E; simpl; [|done]. rewrite IH.
  do 2 f_equal. unfold zlen. rewrite length_app. simpl. lia.
Qed.

Lemma position_spec q l id :
  rq_shape q l →
  (position q id = Ret None ∧ id ∉ l) ∨
  ∃ l1 l2, l = l1 ++ id :: l2 ∧ position q id = Ret (Some (zlen l1)).
Proof.
  intros HR. pose proof (position_from_spec (length l) q [] l id HR eq_refl ltac:(set_solver)) as Hp.
  change (zlen (@nil Z)) with 0 in Hp.
  unfold position. rewrite (rqr_len _ _ HR). unfold zlen at 1 2. rewrite Nat2Z.id.
  destruct (list_find (λ x, x = id) l) as [[k y]|] eqn:E.
  - right. apply list_find_Some in E as (Hk & -> & _). exists (take k l), (drop (S k) l).
    pose proof (lookup_lt_Some _ _ _ Hk). split; [by rewrite take_drop_middle|].
    rewrite Hp. do 2 f_equal. unfold zlen. rewrite length_take. simpl. lia.
  - left. split; [done|]. intros Hin. rewrite list_find_None, Forall_forall in E. by apply (E id).
Qed.

Lemma contains_spec q l id : rq_shape q l → contains q id = Ret (bool_decide (id ∈ l)).
Proof.
  intros HR. unfold contains. destruct (position_spec q l id HR) as [[-> Hn]|(l1 & l2 & -> & ->)]; simpl.
  - by rewrite bool_decide_false.
  - rewrite bool_decide_true by set_solver. done.
Qed.

Lemma push_back_spec q l id :
  rq_rep q l → id ≠ THREAD_NONE → id ∈ l ∨ zlen l < zlen (rq_buf q) →
  ∃ q', push_back id q = Ret q' ∧ rq_rep q' (if bool_decide (id ∈ l) then l else l ++ [id]) ∧
        zlen (rq_buf q') = zlen (rq_buf q).
Proof.
  intros HR Hid Hroom. pose proof (rqr_shape _ _ HR) as HS. apply owp_run.
  pose proof (rq_bounds _ _ HS) as Hb. unfold push_back.
  wp_step. wp_step; [unfold is_none; apply negb_true_iff, Z.eqb_neq, Hid|].
  rewrite (contains_spec _ _ _ HS). cbn [obind]. case_bool_decide as Hin; [wp_step; done|].
  destruct Hroom as [?|Hroom]; [done|]. rewrite (rqr_len _ _ HS). fold (zlen (rq_buf q)).
  wp_step. wp_step; [lia|]. wp_step. eapply owp_ring_index; [done|lia|lia|].
  pose proof (slot_bound (rq_buf q) (rq_head q) (zlen l) ltac:(lia)).
  wp_step. apply owp_store; [done|]. wp_step. wp_step; [unfold in_width; lia|]. wp_step.
  split; [|unfold zlen; simpl; by rewrite length_insert]. split; [split|..]; simpl.
  - apply ring_push; [apply HS|done].
  - unfold zlen. rewrite length_app. simpl. lia.
  - unfold zlen. rewrite length_insert. apply HS.
  - unfold zlen. rewrite length_insert. apply HS.
  - apply NoDup_app. split_and!; [apply HR|set_solver|apply NoDup_singleton].
  - apply Forall_app. split; [apply HR|by apply Forall_singleton].
Qed.

Lemma push_back_full q l id :
  rq_rep q l → id ≠ THREAD_NONE → id ∉ l → zlen l = zlen (rq_buf q) →
  push_back id q = Panic (PAssert "ready: full").
Proof.
  intros HR Hid Hin Hfull. pose proof (rqr_shape _ _ HR) as HS. unfold push_back, is_none.
  rewrite (proj2 (Z.eqb_neq id _)) by done. cbn [negb oassert obind].
  rewrite (contains_spec _ _ _ HS), bool_decide_false by done. cbn [obind].
  rewrite (rqr_len _ _ HS). fold (zlen (rq_buf q)). by rewrite Hfull, Z.ltb_irrefl.
Qed.

Lemma rq_tail q id l : rq_rep q (id :: l) → NoDup l ∧ Forall (λ id, id ≠ THREAD_NONE) l ∧ id ∉ l.
Proof.
  intros HR. pose proof (rqr_nodup _ _ HR) as Hn. apply NoDup_cons in Hn as [? ?].
  pose proof (rqr_ids _ _ HR) as Hf. by apply Forall_cons in Hf as [_ ?].
Qed.

Lemma pop_front_spec q l :
  rq_rep q l →
  match l with
  | [] => pop_front q = Ret (None, q)
  | id :: l => ∃ q', pop_front q = Ret (Some id, q') ∧ rq_rep q' l ∧ zlen (rq_buf q') = zlen (rq_buf q)
  end.
Proof.
  intros HR. pose proof (rqr_shape _ _ HR) as HS. pose proof (rq_bounds _ _ HS) as Hb. unfold pop_front. rewrite (rqr_len _ _ HS).
  destruct l as [|id l]; [done|]. unfold zlen at 1. simpl length. cbn [Z.of_nat Z.eqb].
  assert (Hpos : 0 < zlen (rq_buf q)) by (unfold zlen in *; simpl in *; lia).
  destruct (rqr_head _ _ HS) as [H0 Hlt]. specialize (Hlt Hpos).
  assert (Hs0 : ring_slot (zlen (rq_buf q)) (rq_head q) 0 = rq_head q).
  { unfold ring_slot. rewrite Z.add_0_r. by apply Z.mod_small. }
  assert (Hi : index (rq_buf q) (rq_head q) = Ret id).
  { rewrite <-Hs0. by eapply ring_lookup; [apply HS|lia|]. }
  enough (owp (id <~ index (rq_buf q) (rq_head q);;
    buf <~ store (rq_buf q) (rq_head q) THREAD_NONE;;
    head <~ ring_index (set_ring (rq_head q) (zlen (id :: l)) buf q) 1;;
    len <~ subc 64 (zlen (id :: l)) 1;; Ret (Some id, set_ring head len buf q))
    (λ r, fst r = Some id ∧ rq_rep (snd r) l ∧ zlen (rq_buf (snd r)) = zlen (rq_buf q))) as Howp.
  { apply owp_run in Howp as ([o q'] & Hrun & Ho & HR' & Hl). simpl in *. subst o. eauto. }
  rewrite Hi. cbn [obind]. wp_step. apply owp_store; [done|]. set (buf := <[_ := _]> (rq_buf q)).
  assert (Hbl : zlen buf = zlen (rq_buf q)) by (unfold zlen, buf; by rewrite length_insert).
  assert (Hring : ring_rep buf (ring_slot (zlen (rq_buf q)) (rq_head q) 1) l).
  { subst buf. rewrite <-Hs0 at 1. eapply ring_shift, HS. }
  unfold ring_index. simpl rq_head. simpl rq_buf. fold (zlen buf). rewrite Hbl.
  repeat wp_step; [unfold in_width; lia|lia|unfold in_width, zlen in *; simpl in *; lia|].
  simpl. split; [done|]. destruct (rq_tail _ _ _ HR) as (Hn & Hf & _). split; [|done].
  split; [split|..]; simpl; try done.
  - unfold zlen. simpl. lia.
  - rewrite Hbl. pose proof (slot_bound (rq_buf q) (rq_head q) 1 Hpos). unfold ring_slot in *. lia.
  - rewrite Hbl. lia.
Qed.

(** *** remove *)
Lemma shape_set q l i y :
  rq_shape q l → 0 ≤ i < zlen l →
  rq_shape (set_ring (rq_head q) (rq_len q)
    (<[Z.to_nat (ring_slot (zlen (rq_buf q)) (rq_head q) i) := y]> (rq_buf q)) q) (<[Z.to_nat i := y]> l).
Proof.
  intros HS Hi. split; simpl.
  - apply ring_set; [apply HS|done].
  - unfold zlen. rewrite length_insert. apply HS.
  - unfold zlen. rewrite length_insert. apply HS.
  - unfold zlen. rewrite length_insert. apply HS.
Qed.

Lemma close_gap_spec n q l1 x l2 :
  rq_shape q (l1 ++ x :: l2) → zlen l2 ≤ Z.of_nat n →
  ∃ q' y, close_gap n (zlen l1) q = Ret q' ∧ rq_shape q' ((l1 ++ l2) ++ [y]) ∧
          zlen (rq_buf q') = zlen (rq_buf q).
Proof.
  revert q l1 x l2. induction n as [|n IH]; intros q l1 x l2 HS Hn.
  { destruct l2; [|unfold zlen in *; simpl in *; lia]. exists q, x. by rewrite app_nil_r. }
  pose proof (rq_bounds _ _ HS) as Hb. cbn [close_gap].
  assert (Hlen : zlen (l1 ++ x :: l2) = zlen l1 + 1 + zlen l2).
  { unfold zlen. rewrite length_app. simpl. lia. }
  assert (Hl1 : 0 ≤ zlen l1 ∧ 0 ≤ zlen l2) by (unfold zlen; lia).
  assert (addc 64 (zlen l1) 1 = Ret (zlen (l1 ++ [x]))) as ->.
  { apply owp_eq, owp_addc; [unfold in_width; lia|]. unfold zlen. rewrite length_app. simpl. lia. }
  assert (Hl1x : zlen (l1 ++ [x]) = zlen l1 + 1) by (unfold zlen; rewrite length_app; simpl; lia).
  cbn [obind]. rewrite <-(rqr_len _ _ HS) in Hlen, Hb. destruct l2 as [|y l2].
  { exists q, x. rewrite (proj2 (Z.ltb_ge _ _)) by (unfold zlen in *; simpl in *; lia). by rewrite app_nil_r. }
  rewrite (proj2 (Z.ltb_lt _ _)) by (unfold zlen in *; simpl in *; lia).
  rewrite (at_spec q _ _ y HS); [|lia|]; last first.
  { rewrite Hl1x. unfold zlen. replace (Z.to_nat _) with (S (length l1)) by lia.
    rewrite lookup_app_r by lia. by replace (S (length l1) - length l1)%nat with 1%nat by lia. }
  cbn [obind]. assert (ring_index q (zlen l1) = Ret (ring_slot (zlen (rq_buf q)) (rq_head q) (zlen l1))) as ->.
  { apply owp_eq. eapply owp_ring_index; [done|lia|lia|done]. }
  pose proof (slot_bound (rq_buf q) (rq_head q) (zlen l1) ltac:(lia)) as Hs. cbn [obind].
  assert (store (rq_buf q) (ring_slot (zlen (rq_buf q)) (rq_head q) (zlen l1)) y = Ret
    (<[Z.to_nat (ring_slot (zlen (rq_buf q)) (rq_head q) (zlen l1)) := y]> (rq_buf q))) as ->.
  { by apply owp_eq, owp_store. }
  cbn [obind]. pose proof (shape_set q _ (zlen l1) y HS ltac:(rewrite <-(rqr_len _ _ HS); lia)) as HS1.
  replace (Z.to_nat (zlen l1)) with (length l1) in HS1 by (unfold zlen; lia).
  rewrite (close_list l1 x y l2) in HS1 by done.
  destruct (IH _ (l1 ++ [y]) y l2 HS1) as (q' & z & Hrun & HS' & Hl').
  { unfold zlen in *. simpl in *. lia. }
  exists q', z. replace (zlen (l1 ++ [x])) with (zlen (l1 ++ [y])) by (unfold zlen; by rewrite !length_app).
  split; [done|]. split; [by rewrite <-(app_assoc l1 [y] l2) in HS'|].
  rewrite Hl'. simpl. unfold zlen. by rewrite length_insert.
Qed.

Lemma shape_chop q l y :
  rq_shape q (l ++ [y]) →
  rq_shape (set_ring (rq_head q) (zlen l)
    (<[Z.to_nat (ring_slot (zlen (rq_buf q)) (rq_head q) (zlen l)) := THREAD_NONE]> (rq_buf q)) q) l.
Proof.
  intros HS. split; simpl.
  - eapply ring_chop, HS.
  - done.
  - unfold zlen. rewrite length_insert. apply HS.
  - unfold zlen. rewrite length_insert. apply HS.
Qed.

Definition without (id : Z) (l : list Z) : list Z := filter (λ x, x ≠ id) l.

Lemma without_middle id l1 l2 : NoDup (l1 ++ id :: l2) → without id (l1 ++ id :: l2) = l1 ++ l2.
Proof.
  intros Hn. apply NoDup_app in Hn as (_ & H1 & Hn). apply NoDup_cons in Hn as [H2 _].
  unfold without. rewrite filter_app, filter_cons_False by naive_solver.
  f_equal; apply filter_all; intros x Hx ->; [|done].
  apply (H1 id Hx). set_solver.
Qed.

Lemma without_notin id l : id ∉ l → without id l = l.
Proof. intros Hn. apply filter_all. by intros x Hx ->. Qed.

Lemma remove_spec q l id :
  rq_rep q l →
  ∃ q', remove id q = Ret (bool_decide (id ∈ l), q') ∧ rq_rep q' (without id l) ∧
        zlen (rq_buf q') = zlen (rq_buf q).
Proof.
  intros HR. pose proof (rqr_shape _ _ HR) as HS. unfold remove.
  destruct (position_spec q l id HS) as [[-> Hn]|(l1 & l2 & -> & ->)]; cbn [obind].
  { exists q. by rewrite bool_decide_false, without_notin. }
  rewrite bool_decide_true by set_solver. pose proof (rqr_nodup _ _ HR) as Hn.
  rewrite without_middle by done.
  destruct (close_gap_spec (Z.to_nat (rq_len q)) q l1 id l2 HS) as (q1 & y & -> & HS1 & Hl).
  { rewrite (rqr_len _ _ HS). unfold zlen. rewrite length_app. simpl. lia. }
  cbn [obind]. pose proof (rq_bounds _ _ HS1) as Hb. rewrite (rqr_len _ _ HS1).
  assert (Hlast : zlen ((l1 ++ l2) ++ [y]) = zlen (l1 ++ l2) + 1).
  { unfold zlen. rewrite (length_app _ [y]). simpl. lia. }
  assert (Hl0 : 0 ≤ zlen (l1 ++ l2)) by (unfold zlen; lia).
  assert (subc 64 (zlen ((l1 ++ l2) ++ [y])) 1 = Ret (zlen (l1 ++ l2))) as ->.
  { apply owp_eq, owp_subc; [unfold in_width; lia|lia]. }
  cbn [obind].
  assert (ring_index q1 (zlen (l1 ++ l2)) = Ret (ring_slot (zlen (rq_buf q1)) (rq_head q1) (zlen (l1 ++ l2)))) as ->.
  { apply owp_eq. eapply owp_ring_index; [done|lia|lia|done]. }
  pose proof (slot_bound (rq_buf q1) (rq_head q1) (zlen (l1 ++ l2)) ltac:(lia)) as Hs. cbn [obind].
  assert (store (rq_buf q1) (ring_slot (zlen (rq_buf q1)) (rq_head q1) (zlen (l1 ++ l2))) THREAD_NONE = Ret
    (<[Z.to_nat (ring_slot (zlen (rq_buf q1)) (rq_head q1) (zlen (l1 ++ l2))) := THREAD_NONE]> (rq_buf q1))) as ->.
  { by apply owp_eq, owp_store. }
  cbn [obind]. eexists. split; [done|]. split.
  - split; [by apply (shape_chop q1 _ y)|..].
    + eapply sublist_NoDup; [exact Hn|]. apply sublist_app; [done|]. by apply sublist_cons.
    + pose proof (rqr_ids _ _ HR) as Hf. rewrite Forall_app, Forall_cons in Hf. apply Forall_app. naive_solver.
  - simpl. unfold zlen. rewrite length_insert. apply Hl.
Qed.

(** ** Sequences of operations *)
Inductive ready_op := RPush (id : Z) | RPop | RRemove (id : Z).
Inductive ready_out := RUnit | RPopped (id : option Z) | RRemoved (found : bool).

Definition ready_step (o : ready_op) (q : ReadyQueue) : outcome (ready_out * ReadyQueue) :=
  match o with
  | RPush id => q <~ push_back id q;; Ret (RUnit, q)
  | RPop => r <~ pop_front q;; Ret (RPopped (fst r), snd r)
  | RRemove id => r <~ remove id q;; Ret (RRemoved (fst r), snd r)
  end.

(** The FIFO of at most [cap] distinct ids the queue stands for. *)
Definition fifo_step (cap : Z) (o : ready_op) (l : list Z) : outcome (ready_out * list Z) :=
  match o with
  | RPush id =>
      if id =? THREAD_NONE then Panic (PAssert "ready: push NONE")
      else if bool_decide (id ∈ l) then Ret (RUnit, l)
      else if zlen l <? cap then Ret (RUnit, l ++ [id])%list
      else Panic (PAssert "ready: full")
  | RPop => Ret (RPopped (head l), tail l)
  | RRemove id => Ret (RRemoved (bool_decide (id ∈ l)), without id l)
  end.

(** The queue of capacity [cap] stands for the list. *)
Definition rq_reps (cap : Z) (q : ReadyQueue) (l : list Z) : Prop :=
  rq_rep q l ∧ zlen (rq_buf q) = cap.

Lemma ready_lockstep cap : lockstep ready_step (rq_reps cap) (fifo_step cap).
Proof.
  intros o q l [HR <-]. unfold rq_reps. pose proof (rq_bounds _ _ (rqr_shape _ _ HR)) as Hb. destruct o as [id| |id]; cbn [fifo_step ready_step].
  - destruct (Z.eqb_spec id THREAD_NONE) as [->|Hid]; [done|].
    pose proof (push_back_spec q l id HR Hid) as Hp. pose proof (push_back_full q l id HR Hid) as Hf.
    case_bool_decide as Hin; [|destruct (Z.ltb_spec (zlen l) (zlen (rq_buf q)))].
    + destruct Hp as (q' & -> & ? & ?); [by left|]. simpl. eauto.
    + destruct Hp as (q' & -> & ? & ?); [by right|]. simpl. eauto.
    + rewrite Hf by (done || lia). done.
  - pose proof (pop_front_spec q l HR) as Hp. destruct l as [|id l]; [rewrite Hp; simpl; eauto|].
    destruct Hp as (q' & -> & ? & ?). simpl. eauto.
  - destruct (remove_spec q l id HR) as (q' & -> & ? & ?). simpl. eauto.
Qed.

Lemma try_new_rep alloc cap q :
  ReadyQueue_try_new alloc cap = Some q → 0 ≤ cap < 2 ^ 62 → rq_rep q [] ∧ zlen (rq_buf q) = cap.
Proof.
  unfold ReadyQueue_try_new. destruct (alloc cap) as [addr|]; intros [= <-] Hcap.
  assert (Hl : zlen (replicate (Z.to_nat cap) THREAD_NONE) = cap)
    by (unfold zlen; rewrite length_replicate; lia).
  split; [|done]. split; [split|constructor|constructor]; simpl; rewrite ?Hl; try done; [|lia].
  apply ring_nil.
Qed.

(** C12: the ready queue behaves as a first-in first-out list of distinct
    thread ids: whatever sequence of pushes, pops and removals the scheduler
    makes on a queue built by [try_new], every output is the one the list
    gives, an id already queued is not queued again, and the queue panics at
    exactly the push of the null id or of one id more than it was built for. *)
Theorem ready_queue_is_fifo alloc cap q os :
  ReadyQueue_try_new alloc cap = Some q → 0 ≤ cap < 2 ^ 62 →
  outputs ready_step os q = outputs (fifo_step cap) os [].
Proof.
  intros Hn Hcap. eapply lockstep_outputs; [apply ready_lockstep|]. by eapply try_new_rep.
Qed.

Definition demo_ready_ops : list ready_op :=
  [RPush 5; RPush 6; RPush 5; RPop; RPush 7; RPush 8; RRemove 7; RPush 9; RPop; RPush 10; RPop; RPush 1; RPush 2].

Lemma ready_queue_is_fifo_witness :
  outputs ready_step demo_ready_ops (mkReadyQueue 4096 3 0 0 [THREAD_NONE; THREAD_NONE; THREAD_NONE])
  = outputs (fifo_step 3) demo_ready_ops [].
Proof. by apply (ready_queue_is_fifo (λ _, Some 4096) 3). Defined.
