(* ===== verification/SchedTimeout.v ===== *)
(** * The timeout queue is a map ordered by deadline

    [TimeoutQueue] of src/crates/core/src/sched/mod.rs refines a finite map from
    thread ids to deadlines; [pop_expired] takes the least expired entry, and
    [wake_expired] moves exactly the expired threads to the ready queue. *)

From stdpp Require Import base gmap list numbers strings sorting.
From S2P Require Import Prelude Trace Ring Sched SchedReady.

Local Open Scope Z_scope.

Import Sched.

(** The order of the table: by deadline, then by id. *)
Definition earlier (a b : Timeout) : Prop :=
  t_deadline a < t_deadline b ∨ (t_deadline a = t_deadline b ∧ t_id a < t_id b).

Definition tids (l : list Timeout) : list Z := t_id <$> l.

Record tq_rep (q : TimeoutQueue) (l : list Timeout) : Prop := {
  tqr_items : ∃ pad, items q = l ++ pad;
  tqr_len : tq_len q = zlen l;
  tqr_cap : zlen (items q) < 2 ^ 62;
  tqr_sorted : StronglySorted earlier l;
  tqr_nodup : NoDup (tids l);
  tqr_ids : THREAD_NONE ∉ tids l
}.

(** ** Lists of timeouts *)
Definition drop_id (id : Z) (l : list Timeout) : list Timeout := filter (λ t, t_id t ≠ id) l.

Fixpoint place (x : Timeout) (l : list Timeout) : list Timeout :=
  match l with
  | [] => [x]
  | t :: l => if sorts_before (t_id x) (t_deadline x) t then x :: t :: l else t :: place x l
  end.

Lemma sorts_before_spec x t : sorts_before (t_id x) (t_deadline x) t = true ↔ earlier x t.
Proof. unfold sorts_before, earlier. rewrite orb_true_iff, andb_true_iff, !Z.ltb_lt, Z.eqb_eq. lia. Qed.

#[export] Instance earlier_trans : Transitive earlier.
Proof. intros a b c. unfold earlier. lia. Qed.

Lemma earlier_total a b : t_id a ≠ t_id b → ¬ earlier a b → earlier b a.
Proof. unfold earlier. lia. Qed.

Lemma place_split x l :
  ∃ l1 l2, l = l1 ++ l2 ∧ place x l = l1 ++ x :: l2 ∧
    Forall (λ t, sorts_before (t_id x) (t_deadline x) t = false) l1 ∧
    (match l2 with [] => True | t :: _ => sorts_before (t_id x) (t_deadline x) t = true end).
Proof.
  induction l as [|t l IH]; [by exists [], []|]. simpl. destruct (sorts_before _ _ t) eqn:E.
  { exists [], (t :: l). done. }
  destruct IH as (l1 & l2 & -> & -> & H1 & H2). exists (t :: l1), l2. auto.
Qed.

Lemma place_perm x l : place x l ≡ₚ x :: l.
Proof.
  destruct (place_split x l) as (l1 & l2 & -> & -> & _). by rewrite Permutation_middle.
Qed.

Lemma place_sorted x l :
  StronglySorted earlier l → t_id x ∉ tids l → StronglySorted earlier (place x l).
Proof.
  induction 1 as [|t l Hs IH Hf]; intros Hn; simpl.
  { repeat constructor. }
  destruct (sorts_before (t_id x) (t_deadline x) t) eqn:E.
  - apply sorts_before_spec in E. constructor; [by constructor|]. constructor; [done|].
    eapply Forall_impl; [exact Hf|]. intros u Hu. by transitivity t.
  - assert (Hxt : earlier t x).
    { apply earlier_total; [set_solver|]. intros Hc. apply sorts_before_spec in Hc. congruence. }
    constructor; [apply IH; set_solver|]. rewrite place_perm. by constructor.
Qed.

Lemma drop_id_sorted id l : StronglySorted earlier l → StronglySorted earlier (drop_id id l).
Proof.
  induction 1 as [|t l Hs IH Hf]; [constructor|]. unfold drop_id. rewrite filter_cons.
  destruct (decide (t_id t ≠ id)); [|done]. constructor; [done|].
  apply Forall_forall. intros u Hu. apply list_elem_of_filter in Hu as [_ Hu].
  by eapply Forall_forall in Hf.
Qed.

Lemma elem_of_tids id l : id ∈ tids l ↔ ∃ d, mkTimeout id d ∈ l.
Proof.
  unfold tids. rewrite list_elem_of_fmap. split.
  - intros ([i d] & -> & Hin). by exists d.
  - intros [d Hd]. by exists (mkTimeout id d).
Qed.

Lemma drop_id_tids id l : id ∉ tids (drop_id id l).
Proof. intros (t & Hid & [? _]%list_elem_of_filter)%list_elem_of_fmap. done. Qed.

Lemma drop_id_nodup id l : NoDup (tids l) → NoDup (tids (drop_id id l)).
Proof.
  intros Hn. eapply sublist_NoDup; [exact Hn|]. apply fmap_sublist, sublist_filter.
Qed.

Lemma drop_id_notin id l : id ∉ tids l → drop_id id l = l.
Proof.
  intros Hn. induction l as [|t l IH]; [done|]. unfold drop_id. simpl in Hn.
  rewrite filter_cons_True by set_solver. f_equal. apply IH. set_solver.
Qed.

Lemma drop_id_middle l1 t l2 : NoDup (tids (l1 ++ t :: l2)) → drop_id (t_id t) (l1 ++ t :: l2) = l1 ++ l2.
Proof.
  unfold tids. rewrite fmap_app, fmap_cons. intros Hn. apply NoDup_app in Hn as (_ & H1 & Hn).
  apply NoDup_cons in Hn as [H2 _]. unfold drop_id. rewrite filter_app, filter_cons_False by naive_solver.
  f_equal; apply drop_id_notin; [|done]. intros Hin. apply (H1 _ Hin). set_solver.
Qed.

(** ** remove *)
Lemma tq_bounds q l : tq_rep q l → 0 ≤ zlen l ≤ zlen (items q) ∧ zlen (items q) < 2 ^ 62.
Proof. intros HR. destruct (tqr_items _ _ HR) as [pad Hp]. pose proof (tqr_cap _ _ HR). rewrite Hp in *. zlia. Qed.

Lemma find_id_spec n its pad l1 l2 id :
  n = length l2 → its = (l1 ++ l2) ++ pad → zlen its < 2 ^ 62 →
  (id ∉ tids l2 ∧ find_id n (mkTimeoutQueue its (zlen (l1 ++ l2))) id (zlen l1) = Ret (zlen (l1 ++ l2))) ∨
  ∃ l3 t l4, l2 = l3 ++ t :: l4 ∧ t_id t = id ∧
    find_id n (mkTimeoutQueue its (zlen (l1 ++ l2))) id (zlen l1) = Ret (zlen (l1 ++ l3)).
Proof.
  intros -> Hits Hcap. revert l1 Hits. induction l2 as [|t l2 IH]; intros l1 Hits.
  { left. rewrite app_nil_r. split; [set_solver|done]. }
  cbn [length find_id tq_len items]. rewrite (proj2 (Z.ltb_lt _ _)) by zlia.
  assert (index its (zlen l1) = Ret t) as -> by (rewrite Hits, <-app_assoc; by apply index_mid).
  cbn [obind]. destruct (Z.eqb_spec (t_id t) id) as [Hid|Hid].
  { right. exists [], t, l2. by rewrite app_nil_r. }
  rewrite addc_ret by (subst its; zlia). cbn [obind].
  replace (zlen l1 + 1) with (zlen (l1 ++ [t])) by zlia.
  specialize (IH (l1 ++ [t])). rewrite <-(app_assoc l1 [t] l2) in IH. simpl in IH.
  destruct (IH Hits) as [[Hn He]|(l3 & u & l4 & -> & Hu & He)].
  - left. split; [|done]. unfold tids in *. rewrite fmap_cons. set_solver.
  - right. exists (t :: l3), u, l4. rewrite <-app_assoc in He. done.
Qed.

Lemma move_down_spec n l1 x l2 pad :
  zlen l2 ≤ Z.of_nat n → zlen (l1 ++ x :: l2 ++ pad) < 2 ^ 62 →
  ∃ y, move_down n (l1 ++ x :: l2 ++ pad) (zlen l1 + 1 + zlen l2) (zlen l1) = Ret (l1 ++ l2 ++ y :: pad).
Proof.
  revert l1 x l2. induction n as [|n IH]; intros l1 x l2 Hn Hcap.
  { destruct l2; [|zlia]. by exists x. }
  cbn [move_down]. rewrite addc_ret by zlia. cbn [obind]. destruct l2 as [|y l2].
  { rewrite (proj2 (Z.ltb_ge _ _)) by zlia. by exists x. }
  rewrite (proj2 (Z.ltb_lt _ _)) by zlia. simpl.
  assert (index (l1 ++ x :: y :: l2 ++ pad) (zlen l1 + 1) = Ret y) as ->.
  { rewrite (cons_middle x l1), app_assoc. apply index_mid. zlia. }
  cbn [obind]. rewrite store_mid by done. cbn [obind].
  destruct (IH (l1 ++ [y]) y l2) as [z Hz]; [zlia|zlia|].
  exists z. rewrite <-!app_assoc in Hz. simpl in Hz. rewrite <-Hz. f_equal; zlia.
Qed.

Lemma tq_remove_spec q l id :
  tq_rep q l →
  ∃ q', tq_remove id q = Ret (bool_decide (id ∈ tids l), q') ∧ tq_rep q' (drop_id id l) ∧
        zlen (items q') = zlen (items q).
Proof.
  intros HR. pose proof (tq_bounds _ _ HR) as Hb. destruct (tqr_items _ _ HR) as [pad Hp].
  destruct q as [its len]. simpl in *. pose proof (tqr_len _ _ HR) as Hlen. simpl in Hlen. subst len.
  unfold tq_remove. cbn [tq_len items].
  destruct (find_id_spec (length l) its pad [] l id eq_refl Hp) as [[Hn He]|(l3 & t & l4 & -> & Ht & He)].
  { lia. }
  { simpl in He. change (zlen (@nil Timeout)) with 0 in He.
    replace (Z.to_nat (zlen l)) with (length l) by zlia. rewrite He. cbn [obind].
    rewrite Z.eqb_refl. eexists. by rewrite bool_decide_false, drop_id_notin by done. }
  simpl in He. change (zlen (@nil Timeout)) with 0 in He.
  replace (Z.to_nat (zlen (l3 ++ t :: l4))) with (length (l3 ++ t :: l4)) by zlia. rewrite He. cbn [obind].
  rewrite (proj2 (Z.eqb_neq _ _)) by zlia.
  pose proof (tqr_nodup _ _ HR) as Hnd. rewrite <-Ht, drop_id_middle by done.
  rewrite <-app_assoc in Hp. simpl in Hp. rewrite Hp in *.
  destruct (move_down_spec (length (l3 ++ t :: l4)) l3 t l4 pad) as [y Hy]; [zlia|zlia|].
  replace (zlen (l3 ++ t :: l4)) with (zlen l3 + 1 + zlen l4) by zlia. rewrite Hy. cbn [obind].
  rewrite subc_ret by zlia. cbn [obind]. rewrite app_assoc, store_mid by zlia. cbn [obind].
  eexists. split; [f_equal; f_equal; symmetry; apply bool_decide_true; unfold tids; rewrite fmap_app; set_solver|].
  split; [|simpl; zlia]. split; simpl; [by eexists|zlia|zlia|..].
  - rewrite <-(drop_id_middle l3 t l4) by done. apply drop_id_sorted, HR.
  - rewrite <-(drop_id_middle l3 t l4) by done. by apply drop_id_nodup.
  - pose proof (tqr_ids _ _ HR) as Hids. unfold tids in *. rewrite fmap_app in *. set_solver.
Qed.

Lemma tids_zlen l : zlen (tids l) = zlen l.
Proof. unfold tids. zlia. Qed.

(** ** insert *)
Lemma find_place_spec n its pad l1 l2 x :
  n = length l2 → its = (l1 ++ l2) ++ pad → zlen its < 2 ^ 62 →
  ∃ l3 l4, l2 = l3 ++ l4 ∧ place x l2 = l3 ++ x :: l4 ∧
    find_place n (mkTimeoutQueue its (zlen (l1 ++ l2))) (t_id x) (t_deadline x) (zlen l1)
    = Ret (zlen (l1 ++ l3)).
Proof.
  intros -> Hits Hcap. revert l1 Hits. induction l2 as [|t l2 IH]; intros l1 Hits.
  { exists [], []. by rewrite !app_nil_r. }
  cbn [length find_place tq_len items place]. rewrite (proj2 (Z.ltb_lt _ _)) by zlia.
  assert (index its (zlen l1) = Ret t) as -> by (rewrite Hits, <-app_assoc; by apply index_mid).
  cbn [obind]. destruct (sorts_before (t_id x) (t_deadline x) t).
  { exists [], (t :: l2). by rewrite app_nil_r. }
  rewrite addc_ret by (subst its; zlia). cbn [obind].
  replace (zlen l1 + 1) with (zlen (l1 ++ [t])) by zlia.
  specialize (IH (l1 ++ [t])). rewrite <-(app_assoc l1 [t] l2) in IH. simpl in IH.
  destruct (IH Hits) as (l3 & l4 & -> & -> & He). exists (t :: l3), l4. rewrite <-app_assoc in He. done.
Qed.

Lemma move_up_spec n l1 l2 y pad :
  zlen l2 ≤ Z.of_nat n → zlen (l1 ++ l2 ++ y :: pad) < 2 ^ 62 →
  ∃ z, move_up n (l1 ++ l2 ++ y :: pad) (zlen l1) (zlen (l1 ++ l2)) = Ret (l1 ++ z :: l2 ++ pad).
Proof.
  revert l2 y pad. induction n as [|n IH]; intros l2 y pad Hn Hcap.
  { destruct l2; [|zlia]. by exists y. }
  cbn [move_up]. destruct l2 as [|w l2 _] using rev_ind.
  { rewrite (proj2 (Z.ltb_ge _ _)) by zlia. by exists y. }
  rewrite (proj2 (Z.ltb_lt _ _)) by zlia. rewrite subc_ret by zlia. cbn [obind].
  assert (index (l1 ++ (l2 ++ [w]) ++ y :: pad) (zlen (l1 ++ l2 ++ [w]) - 1) = Ret w) as ->.
  { rewrite <-(app_assoc l2), (app_assoc l1). apply index_mid. zlia. }
  cbn [obind]. rewrite (app_assoc l1 (l2 ++ [w])), store_mid by done. cbn [obind].
  destruct (IH l2 w (w :: pad)) as [z Hz]; [zlia|zlia|]. exists z.
  rewrite <-!app_assoc. simpl. rewrite <-Hz. f_equal. zlia.
Qed.

Lemma tq_insert_spec q l x :
  tq_rep q l → t_id x ≠ THREAD_NONE →
  if zlen (drop_id (t_id x) l) <? zlen (items q) then
    ∃ q', tq_insert (t_id x) (t_deadline x) q = Ret q' ∧ tq_rep q' (place x (drop_id (t_id x) l)) ∧
          zlen (items q') = zlen (items q)
  else tq_insert (t_id x) (t_deadline x) q = Panic (PAssert "timeout: full").
Proof.
  intros HR Hid. unfold tq_insert, is_none. rewrite (proj2 (Z.eqb_neq _ _)) by done. cbn [negb oassert obind].
  destruct (tq_remove_spec q l (t_id x) HR) as (q1 & -> & HR1 & Hl1). cbn [obind snd].
  fold (zlen (items q1)). rewrite (tqr_len _ _ HR1), Hl1. pose proof (drop_id_tids (t_id x) l) as Hx.
  destruct (Z.ltb_spec (zlen (drop_id (t_id x) l)) (zlen (items q))) as [Hroom|]; [|done].
  set (d := drop_id (t_id x) l) in *. cbn [oassert obind]. destruct (tqr_items _ _ HR1) as [pad Hp].
  pose proof (tq_bounds _ _ HR1) as Hb. pose proof (tqr_len _ _ HR1) as Hlen.
  destruct (find_place_spec (length d) (items q1) pad [] d x eq_refl Hp) as (l3 & l4 & Hd & Hpl & He); [lia|].
  simpl in He. change (zlen (@nil Timeout)) with 0 in He. rewrite <-Hlen in He. destruct q1 as [its len].
  simpl in *. rewrite <-Hlen in *. replace (Z.to_nat len) with (length d) by zlia. rewrite He. cbn [obind].
  destruct pad as [|y pad]; [subst its; zlia|].
  destruct (move_up_spec (length d) l3 l4 y pad) as [z Hz]; [subst d; rewrite Hd; zlia| |].
  { rewrite Hp, Hd in Hb. zlia. }
  rewrite <-Hd, <-Hlen, (app_assoc l3), <-Hd, <-Hp in Hz. rewrite Hz. cbn [obind].
  rewrite store_mid by done. cbn [obind]. rewrite addc_ret by zlia. cbn [obind].
  assert (Hl : zlen (place x d) = len + 1) by (rewrite Hpl; rewrite Hd in Hlen; zlia).
  eexists. split; [done|]. split; [split; simpl|].
  - exists pad. rewrite Hpl, <-app_assoc. by destruct x.
  - lia.
  - rewrite Hp, Hd in *. zlia.
  - apply place_sorted; [apply HR1|done].
  - unfold tids. rewrite place_perm. simpl. constructor; [done|apply HR1].
  - pose proof (tqr_ids _ _ HR1) as Hids. unfold tids in *. rewrite place_perm. simpl. set_solver.
  - simpl. rewrite Hp, Hd in *. zlia.
Qed.

(** ** pop_expired *)
Lemma pop_expired_spec q l now :
  tq_rep q l →
  match l with
  | [] => pop_expired now q = Ret (None, q)
  | t :: l =>
      if now <? t_deadline t then pop_expired now q = Ret (None, q)
      else ∃ q', pop_expired now q = Ret (Some (t_id t), q') ∧ tq_rep q' l ∧ zlen (items q') = zlen (items q)
  end.
Proof.
  intros HR. unfold pop_expired. rewrite (tqr_len _ _ HR). destruct l as [|t l]; [done|].
  rewrite (proj2 (Z.eqb_neq _ _)) by zlia. destruct (tqr_items _ _ HR) as [pad Hp].
  assert (index (items q) 0 = Ret t) as -> by (by rewrite Hp). cbn [obind].
  destruct (Z.ltb_spec now (t_deadline t)); [done|].
  destruct (tq_remove_spec q _ (t_id t) HR) as (q' & -> & HR' & Hl). cbn [obind snd].
  eexists. split; [done|]. split; [|done].
  pose proof (drop_id_middle [] t l (tqr_nodup _ _ HR)) as Hd. simpl in Hd. by rewrite Hd in HR'.
Qed.

(** ** The table as a map *)
Definition tmap (l : list Timeout) : gmap Z Z := list_to_map ((λ t, (t_id t, t_deadline t)) <$> l).

Definition timeouts (q : TimeoutQueue) (m : gmap Z Z) : Prop := ∃ l, tq_rep q l ∧ tmap l = m.

Lemma tmap_lookup l id d : NoDup (tids l) → tmap l !! id = Some d ↔ mkTimeout id d ∈ l.
Proof.
  intros Hn. unfold tmap. rewrite <-elem_of_list_to_map.
  - rewrite list_elem_of_fmap. split; [intros ([] & [= -> ->] & ?); done|].
    intros. by exists (mkTimeout id d).
  - by rewrite <-list_fmap_compose.
Qed.

Lemma tmap_ext l m :
  NoDup (tids l) → (∀ id d, m !! id = Some d ↔ mkTimeout id d ∈ l) → tmap l = m.
Proof.
  intros Hn Hm. apply map_eq. intros id. apply option_eq. intros d.
  by rewrite tmap_lookup, Hm by done.
Qed.

Lemma tmap_drop l id : NoDup (tids l) → tmap (drop_id id l) = delete id (tmap l).
Proof.
  intros Hn. apply tmap_ext; [by apply drop_id_nodup|]. intros i d.
  rewrite lookup_delete_Some, tmap_lookup by done. unfold drop_id. rewrite list_elem_of_filter. simpl. naive_solver.
Qed.

Lemma tmap_place l x : NoDup (tids l) → t_id x ∉ tids l → tmap (place x l) = <[t_id x := t_deadline x]> (tmap l).
Proof.
  intros Hn Hx. assert (Hp : NoDup (tids (place x l))).
  { unfold tids. rewrite place_perm. by constructor. }
  apply tmap_ext; [done|]. intros i d. rewrite place_perm, elem_of_cons, lookup_insert_Some, tmap_lookup by done.
  destruct x as [xi xd]. simpl. split.
  - intros [[-> ->]|[_ ?]]; auto.
  - intros [[= -> ->]|Hin]; [by left|]. right. split; [|done]. intros ->. apply Hx, elem_of_tids. eauto.
Qed.

Lemma tmap_dom l id : NoDup (tids l) → id ∈ tids l ↔ id ∈ dom (tmap l).
Proof.
  intros Hn. rewrite elem_of_dom, elem_of_tids. split.
  - intros [d Hd]. exists d. by apply tmap_lookup.
  - intros [d Hd]. exists d. by apply tmap_lookup.
Qed.

Lemma tmap_size l : NoDup (tids l) → Z.of_nat (size (tmap l)) = zlen l.
Proof.
  induction l as [|t l IH]; intros Hn; [done|]. apply NoDup_cons in Hn as [Ht Hn].
  change (tmap (t :: l)) with (<[t_id t := t_deadline t]> (tmap l)).
  rewrite map_size_insert_None.
  - specialize (IH Hn). zlia.
  - apply not_elem_of_dom. by rewrite <-tmap_dom.
Qed.

(** ** Sequences of operations *)
Inductive timeout_op := TInsert (id deadline : Z) | TRemove (id : Z) | TPop (now : Z) | TNext.
Inductive timeout_out := TUnit | TFound (found : bool) | TPopped (id : option Z) | TDeadline (d : option Z).

Definition timeout_step (o : timeout_op) (q : TimeoutQueue) : outcome (timeout_out * TimeoutQueue) :=
  match o with
  | TInsert id d => q <~ tq_insert id d q;; Ret (TUnit, q)
  | TRemove id => r <~ tq_remove id q;; Ret (TFound (fst r), snd r)
  | TPop now => r <~ pop_expired now q;; Ret (TPopped (fst r), snd r)
  | TNext => d <~ next_deadline q;; Ret (TDeadline d, q)
  end.

(** No entry of [m] comes before [id] at [d]. *)
Definition least (m : gmap Z Z) (id d : Z) : Prop :=
  m !! id = Some d ∧ ∀ id' d', m !! id' = Some d' → d < d' ∨ (d = d' ∧ id ≤ id').

(** What a table of [cap] deadlines promises. *)
Inductive deadline_spec (cap : Z) : gmap Z Z → timeout_op → outcome timeout_out → gmap Z Z → Prop :=
  | ds_insert m id d :
      id ≠ THREAD_NONE → id ∈ dom m ∨ Z.of_nat (size m) < cap →
      deadline_spec cap m (TInsert id d) (Ret TUnit) (<[id := d]> m)
  | ds_insert_none m d :
      deadline_spec cap m (TInsert THREAD_NONE d) (Panic (PAssert "timeout: insert NONE")) m
  | ds_insert_full m id d :
      id ≠ THREAD_NONE → id ∉ dom m → Z.of_nat (size m) = cap →
      deadline_spec cap m (TInsert id d) (Panic (PAssert "timeout: full")) m
  | ds_remove m id :
      deadline_spec cap m (TRemove id) (Ret (TFound (bool_decide (id ∈ dom m)))) (delete id m)
  | ds_pop m now id d :
      least m id d → d ≤ now → deadline_spec cap m (TPop now) (Ret (TPopped (Some id))) (delete id m)
  | ds_pop_none m now :
      (∀ id d, m !! id = Some d → now < d) → deadline_spec cap m (TPop now) (Ret (TPopped None)) m
  | ds_next m id d : least m id d → deadline_spec cap m TNext (Ret (TDeadline (Some d))) m
  | ds_next_none : deadline_spec cap ∅ TNext (Ret (TDeadline None)) ∅.

Lemma least_head t l : StronglySorted earlier (t :: l) → NoDup (tids (t :: l)) → least (tmap (t :: l)) (t_id t) (t_deadline t).
Proof.
  intros Hs Hn. apply StronglySorted_cons in Hs as [Hf _]. split.
  { apply tmap_lookup; [done|]. destruct t. simpl. set_solver. }
  intros id d Hd. apply tmap_lookup in Hd; [|done]. apply elem_of_cons in Hd as [<-|Hd]; [simpl; lia|].
  rewrite Forall_forall in Hf. specialize (Hf _ Hd). unfold earlier in Hf. simpl in Hf. lia.
Qed.

Definition tq_reps (cap : Z) (q : TimeoutQueue) (m : gmap Z Z) : Prop :=
  timeouts q m ∧ zlen (items q) = cap.

Lemma insert_simulates cap q l id d :
  tq_rep q l → zlen (items q) = cap →
  match timeout_step (TInsert id d) q with
  | Ret (out, q') => ∃ m', deadline_spec cap (tmap l) (TInsert id d) (Ret out) m' ∧ tq_reps cap q' m'
  | Panic p => deadline_spec cap (tmap l) (TInsert id d) (Panic p) (tmap l)
  | _ => False
  end.
Proof.
  intros HR Hcap. pose proof (tqr_nodup _ _ HR) as Hn. cbn [timeout_step].
  destruct (decide (id = THREAD_NONE)) as [->|Hid]; [constructor|].
  pose proof (tq_insert_spec q l (mkTimeout id d) HR Hid) as Hi. cbn [t_id t_deadline] in Hi. rewrite Hcap in Hi.
  pose proof (drop_id_nodup id l Hn) as Hdn. pose proof (tmap_size _ Hdn) as Hsz. rewrite tmap_drop in Hsz by done.
  pose proof (tmap_size _ Hn) as Hsz0. pose proof (tq_bounds _ _ HR) as Hb.
  destruct (Z.ltb_spec (zlen (drop_id id l)) cap) as [Hlt|Hge].
  - destruct Hi as (q' & -> & HR' & Hl). cbn [obind]. exists (<[id := d]> (tmap l)). split.
    + constructor; [done|]. destruct (decide (id ∈ dom (tmap l))) as [|Hno]; [by left|right].
      rewrite delete_id in Hsz by (by apply not_elem_of_dom). lia.
    + split; [|lia]. exists (place (mkTimeout id d) (drop_id id l)). split; [done|].
      rewrite tmap_place, tmap_drop by (done || apply drop_id_tids). apply insert_delete_eq.
  - rewrite Hi. assert (Hno : id ∉ dom (tmap l)).
    { intros [x Hx]%elem_of_dom. rewrite map_size_delete_Some in Hsz by done.
      assert (size (tmap l) ≠ 0%nat); [|lia]. intros H0. apply map_size_empty_iff in H0. rewrite H0 in Hx. done. }
    constructor; [done..|]. rewrite delete_id in Hsz by (by apply not_elem_of_dom). lia.
Qed.

Lemma timeout_simulates cap : simulates timeout_step (tq_reps cap) (deadline_spec cap).
Proof.
  intros o q m [(l & HR & <-) Hcap]. pose proof (tqr_nodup _ _ HR) as Hn. destruct o as [id d|id|now|].
  - by apply insert_simulates.
  - cbn [timeout_step]. destruct (tq_remove_spec q l id HR) as (q' & -> & HR' & Hl). cbn [obind fst snd].
    exists (delete id (tmap l)). split.
    + erewrite bool_decide_ext; [constructor|]. by apply tmap_dom.
    + split; [|lia]. exists (drop_id id l). split; [done|]. by apply tmap_drop.
  - cbn [timeout_step]. pose proof (pop_expired_spec q l now HR) as Hp. destruct l as [|t l].
    { rewrite Hp. exists ∅. split; [by constructor|]. split; [|done]. by exists []. }
    pose proof (least_head t l (tqr_sorted _ _ HR) Hn) as Hle. destruct (Z.ltb_spec now (t_deadline t)).
    + rewrite Hp. eexists. split; [constructor|split; [by eexists|done]].
      intros id d Hd. destruct Hle as [_ Hle]. specialize (Hle id d Hd). lia.
    + destruct Hp as (q' & -> & HR' & Hl). cbn [obind fst snd]. eexists. split; [by econstructor|].
      split; [|lia]. exists l. split; [done|]. rewrite <-tmap_drop by done. f_equal.
      symmetry. by apply (drop_id_middle [] t l).
  - cbn [timeout_step]. unfold next_deadline. rewrite (tqr_len _ _ HR). destruct (tqr_items _ _ HR) as [pad Hp].
    destruct l as [|t l]; [|rewrite (proj2 (Z.eqb_neq _ _)) by zlia].
    + exists ∅. split; [constructor|]. split; [|done]. by exists [].
    + rewrite Hp. cbn. eexists. split; [|split; [by eexists|done]]. econstructor. apply least_head; [apply HR|done].
Qed.

Lemma timeouts_try_new alloc cap q :
  TimeoutQueue_try_new alloc cap = Some q → 0 ≤ cap < 2 ^ 62 → tq_reps cap q ∅.
Proof.
  unfold TimeoutQueue_try_new. destruct (alloc cap); intros [= <-] Hcap. split; [|simpl; zlia].
  exists []. split; [|done]. split; simpl; [by eexists|done|zlia|constructor|constructor|set_solver].
Qed.

(** C13: the timeout queue is a map from thread ids to deadlines with an
    order: on a queue built by [try_new], inserting replaces the id's deadline,
    removing tells whether the id was held, [pop_expired] takes the entry with
    the least deadline (the least id among equals) when that deadline is not
    after [now] and nothing otherwise, [next_deadline] is the least deadline
    held, and the only panics are for the null id and for one id more than the
    queue was built for. *)
Theorem timeouts_refine_map alloc cap q os :
  TimeoutQueue_try_new alloc cap = Some q → 0 ≤ cap < 2 ^ 62 →
  traces (deadline_spec cap) ∅ os (outputs timeout_step os q).
Proof.
  intros Hn Hcap. eapply simulates_traces; [apply timeout_simulates|]. by eapply timeouts_try_new.
Qed.

Definition demo_timeout_ops : list timeout_op :=
  [TInsert 5 300; TInsert 6 100; TInsert 4 100; TNext; TInsert 5 50; TPop 40; TPop 200; TRemove 6; TPop 99; TPop 100].

Lemma timeouts_refine_map_witness :
  let q := mkTimeoutQueue [NO_TIMEOUT; NO_TIMEOUT; NO_TIMEOUT] 0 in
  traces (deadline_spec 3) ∅ demo_timeout_ops (outputs timeout_step demo_timeout_ops q) ∧
  outputs timeout_step demo_timeout_ops q =
    [Ret TUnit; Ret TUnit; Ret TUnit; Ret (TDeadline (Some 100)); Ret TUnit; Ret (TPopped None);
     Ret (TPopped (Some 5)); Ret (TFound true); Ret (TPopped None); Ret (TPopped (Some 4))].
Proof. split; [by apply (timeouts_refine_map (λ _, Some 4096) 3)|reflexivity]. Defined.

(** ** wake_expired *)
Definition due (now : Z) (l : list Timeout) : list Timeout := filter (λ t, t_deadline t ≤ now) l.
Definition pending (now : Z) (l : list Timeout) : list Timeout := filter (λ t, ¬ t_deadline t ≤ now) l.
Definition fresh (r ids : list Z) : list Z := filter (λ id, id ∉ r) ids.

Lemma due_none now t l :
  StronglySorted earlier (t :: l) → now < t_deadline t → due now (t :: l) = [] ∧ pending now (t :: l) = t :: l.
Proof.
  intros [Hf _]%StronglySorted_cons Hlt. assert (Hall : Forall (λ u, ¬ t_deadline u ≤ now) (t :: l)).
  { constructor; [lia|]. eapply Forall_impl; [exact Hf|]. unfold earlier. intros u. lia. }
  rewrite Forall_forall in Hall. unfold due, pending. split; [by apply filter_none|by apply filter_all].
Qed.

Lemma due_some now t l :
  t_deadline t ≤ now → due now (t :: l) = t :: due now l ∧ pending now (t :: l) = pending now l.
Proof. intros Hle. unfold due, pending. by rewrite filter_cons_True, filter_cons_False by naive_solver. Qed.

Lemma due_tids now l id : id ∈ tids (due now l) → id ∈ tids l.
Proof.
  intros (u & -> & [_ Hin]%list_elem_of_filter)%list_elem_of_fmap. by apply list_elem_of_fmap_2.
Qed.

Lemma fresh_push r id ids : id ∉ ids → r ++ fresh r (id :: ids) =
  (if bool_decide (id ∈ r) then r else r ++ [id]) ++ fresh (if bool_decide (id ∈ r) then r else r ++ [id]) ids.
Proof.
  intros Hn. unfold fresh. case_bool_decide as Hin.
  - by rewrite filter_cons_False by naive_solver.
  - rewrite filter_cons_True, <-app_assoc by done. simpl. do 2 f_equal.
    apply filter_ext_in. set_solver.
Qed.

Lemma wake_from_spec fuel l tq rq r now n :
  (length l < fuel)%nat → tq_rep tq l → rq_rep rq r →
  zlen (r ++ fresh r (tids (due now l))) ≤ zlen (rq_buf rq) → 0 ≤ n → n + zlen l < 2 ^ 63 →
  ∃ tq' rq', wake_expired_from fuel now tq rq n =
      Ret (tids (due now l), n + zlen (due now l), tq', rq') ∧
    tq_rep tq' (pending now l) ∧ rq_rep rq' (r ++ fresh r (tids (due now l))) ∧
    zlen (rq_buf rq') = zlen (rq_buf rq) ∧ zlen (items tq') = zlen (items tq).
Proof.
  revert l tq rq r n. induction fuel as [|fuel IH]; intros l tq rq r n Hf HT HR Hroom Hn Hmax; [lia|].
  cbn [wake_expired_from]. pose proof (pop_expired_spec tq l now HT) as Hp. destruct l as [|t l].
  { rewrite Hp. simpl. exists tq, rq. rewrite app_nil_r. split_and!; try done. do 4 f_equal. zlia. }
  destruct (Z.ltb_spec now (t_deadline t)) as [Hlt|Hge].
  { rewrite Hp. destruct (due_none now t l (tqr_sorted _ _ HT) Hlt) as [-> ->]. simpl.
    exists tq, rq. rewrite app_nil_r. split_and!; try done. do 4 f_equal. zlia. }
  destruct Hp as (tq1 & -> & HT1 & Hi1). cbn [obind fst snd].
  destruct (due_some now t l Hge) as [Hdue Hpen]. rewrite Hdue, Hpen in *.
  change (tids (t :: due now l)) with (t_id t :: tids (due now l)) in *.
  pose proof (tqr_nodup _ _ HT) as Hnd. apply NoDup_cons in Hnd as [Ht _].
  assert (Hd : t_id t ∉ tids (due now l)) by (intros Hin; by apply Ht, (due_tids now)).
  rewrite fresh_push in * by done.
  destruct (push_back_spec rq r (t_id t) HR) as (rq1 & -> & HR1 & Hl1).
  { intros Hno. apply (tqr_ids _ _ HT). rewrite <-Hno. set_solver. }
  { destruct (decide (t_id t ∈ r)) as [|Hnin]; [by left|right].
    rewrite bool_decide_false in Hroom by done. zlia. }
  cbn [obind]. rewrite addc_ret by zlia. cbn [obind].
  destruct (IH l tq1 rq1 (if bool_decide (t_id t ∈ r) then r else r ++ [t_id t]) (n + 1)) as (tq' & rq' & Hrun & HT' & HR' & Hl' & Hi'); [zlia|done|done|lia|lia|zlia|].
  rewrite Hrun. cbn [obind]. exists tq', rq'. split_and!; try done; [|lia|lia]. do 4 f_equal. zlia.
Qed.

Lemma nodup_size (l : list Z) (X : gset Z) : NoDup l → (∀ x, x ∈ l → x ∈ X) → zlen l ≤ Z.of_nat (size X).
Proof.
  intros Hn Hl. unfold zlen. rewrite <-(size_list_to_set (C := gset Z) l Hn).
  apply inj_le, subseteq_size. set_solver.
Qed.

Lemma fresh_nodup r ids : NoDup r → NoDup ids → NoDup (r ++ fresh r ids).
Proof.
  intros Hr Hi. apply NoDup_app. split_and!; [done| |by apply NoDup_filter].
  intros x Hx [? _]%list_elem_of_filter. done.
Qed.

Lemma tmap_pending now l :
  NoDup (tids l) → tmap (pending now l) = filter (λ e, now < e.2) (tmap l).
Proof.
  intros Hn. apply tmap_ext.
  - eapply sublist_NoDup; [exact Hn|]. apply fmap_sublist, sublist_filter.
  - intros id d. rewrite map_lookup_filter_Some, tmap_lookup by done. unfold pending.
    rewrite list_elem_of_filter. simpl. rewrite Z.nle_gt. tauto.
Qed.

(** The deadlines of [ids] in [m] do not decrease. *)
Definition in_deadline_order (m : gmap Z Z) (ids : list Z) : Prop :=
  StronglySorted (λ a b, default 0 (m !! a) ≤ default 0 (m !! b)) ids.

Lemma due_order now l :
  NoDup (tids l) → StronglySorted earlier l → in_deadline_order (tmap l) (tids (due now l)).
Proof.
  intros Hn Hs. assert (Hall : ∀ t, t ∈ due now l → tmap l !! t_id t = Some (t_deadline t)).
  { intros [] [_ Hin]%list_elem_of_filter. by apply tmap_lookup. }
  assert (Hds : StronglySorted earlier (due now l)).
  { clear -Hs. induction Hs as [|t k Hs IH Hf]; [constructor|]. unfold due. rewrite filter_cons.
    case_decide; [|done]. constructor; [done|]. apply Forall_forall. intros u [_ Hu]%list_elem_of_filter.
    by eapply Forall_forall in Hf. }
  unfold in_deadline_order. induction Hds as [|t k Hds IH Hf]; [constructor|].
  simpl. constructor; [apply IH; set_solver|]. apply Forall_forall. intros id (u & -> & Hu)%list_elem_of_fmap.
  rewrite !Hall by set_solver. simpl. eapply Forall_forall in Hf; [|done]. unfold earlier in Hf. lia.
Qed.

(** A timer tick wakes every sleeper that is due: [wake_expired] comes to
    an end and hands [on_wake] each thread whose deadline is not after [now],
    once, in deadline order; it appends those threads to the ready queue,
    leaving one that is queued already in its place, keeps exactly the timeouts
    still ahead, and counts what it woke.  The ready queue needs room for the
    threads of both queues, which [MAX_THREADS] slots give the scheduler. *)
Theorem wake_expired_wakes tq m rq r now :
  timeouts tq m → rq_rep rq r → Z.of_nat (size (dom m ∪ list_to_set r)) ≤ zlen (rq_buf rq) →
  ∃ ids tq' rq', wake_expired now tq rq = Ret (ids, zlen ids, tq', rq') ∧
    (∀ id, id ∈ ids ↔ ∃ d, m !! id = Some d ∧ d ≤ now) ∧ NoDup ids ∧ in_deadline_order m ids ∧
    timeouts tq' (filter (λ e, now < e.2) m) ∧ rq_rep rq' (r ++ fresh r ids) ∧
    zlen (rq_buf rq') = zlen (rq_buf rq).
Proof.
  intros (l & HT & <-) HR Hroom. pose proof (tqr_nodup _ _ HT) as Hn. pose proof (tq_bounds _ _ HT) as Hb.
  assert (Hnd : NoDup (tids (due now l))).
  { eapply sublist_NoDup; [exact Hn|]. apply fmap_sublist, sublist_filter. }
  destruct (wake_from_spec (S (Z.to_nat (tq_len tq))) l tq rq r now 0) as (tq' & rq' & Hrun & HT' & HR' & Hl & _);
    [rewrite (tqr_len _ _ HT); zlia|done|done| |lia|lia|].
  { etransitivity; [|exact Hroom]. apply nodup_size; [apply fresh_nodup; [apply HR|done]|].
    intros x [Hx|[_ Hx%due_tids]%list_elem_of_filter]%elem_of_app; [set_solver|].
    rewrite tmap_dom in Hx by done. set_solver. }
  exists (tids (due now l)), tq', rq'. unfold wake_expired. rewrite Hrun.
  split; [by rewrite tids_zlen|]. split_and!; try done.
  - intros id. unfold tids. rewrite list_elem_of_fmap. split.
    + intros ([i d] & -> & [Hd Hin]%list_elem_of_filter). exists d. by rewrite tmap_lookup.
    + intros (d & Hd & Hle). exists (mkTimeout id d). split; [done|]. apply list_elem_of_filter.
      by rewrite <-tmap_lookup.
  - by apply due_order, HT.
  - exists (pending now l). split; [done|]. by apply tmap_pending.
Qed.

Definition demo_tq : TimeoutQueue :=
  mkTimeoutQueue [mkTimeout 6 100; mkTimeout 5 300; mkTimeout 9 700; NO_TIMEOUT] 3.
Definition demo_rq : ReadyQueue := mkReadyQueue 4096 4 3 1 [THREAD_NONE; THREAD_NONE; THREAD_NONE; 7].

Lemma wake_expired_wakes_witness :
  ∃ ids tq' rq', wake_expired 300 demo_tq demo_rq = Ret (ids, zlen ids, tq', rq') ∧ ids = [6; 5] ∧
    rq_rep rq' [7; 6; 5].
Proof.
  destruct (wake_expired_wakes demo_tq (list_to_map [(6, 100); (5, 300); (9, 700)]) demo_rq [7] 300)
    as (ids & tq' & rq' & Hrun & _ & _ & _ & _ & HR & _).
  - exists [mkTimeout 6 100; mkTimeout 5 300; mkTimeout 9 700]. split; [|done]. split; simpl.
    + by exists [NO_TIMEOUT].
    + done.
    + done.
    + repeat constructor; unfold earlier; simpl; lia.
    + repeat constructor; set_solver.
    + set_solver.
  - split; [split; [|done..]|repeat constructor; set_solver|repeat constructor; done].
    split; [done|]. intros [|i] x Hx; [by simplify_eq|done].
  - vm_compute. done.
  - assert (ids = [6; 5]) as -> by (vm_compute in Hrun; congruence).
    exists [6; 5], tq', rq'. split; [exact Hrun|]. split; [done|exact HR].
Defined.
