(* ===== verification/SchedOverdue.v ===== *)
(** * The sweep for overdue threads

    [smallest_overdue] and [find_overdue] of src/crates/core/src/sched/mod.rs
    report the overdue threads in cyclic tid order from a cursor, a bounded
    number at a time, and successive sweeps reach every one of them. *)

From stdpp Require Import base gmap list numbers strings sorting.
From S2P Require Import Prelude Sched.

Local Open Scope Z_scope.

Import Sched.

(** ** Insertion into a sorted list, cut at [k] *)
Fixpoint ins (x : Z) (l : list Z) : list Z :=
  match l with
  | [] => [x]
  | o :: l => if x <? o then x :: o :: l else o :: ins x l
  end.

Lemma ins_perm x l : ins x l ≡ₚ x :: l.
Proof.
  induction l as [|o l IH]; [done|]. simpl. destruct (x <? o); [done|]. rewrite IH. constructor.
Qed.

Lemma ins_sorted x l : StronglySorted Z.le l → StronglySorted Z.le (ins x l).
Proof.
  induction 1 as [|o l Hs IH Hf]; simpl; [repeat constructor|]. destruct (Z.ltb_spec x o).
  - constructor; [by constructor|]. constructor; [lia|]. eapply Forall_impl; [exact Hf|]. simpl. lia.
  - constructor; [done|]. rewrite ins_perm. constructor; [lia|done].
Qed.

Lemma ins_split x l : ∃ l1 l2, l = l1 ++ l2 ∧ ins x l = l1 ++ x :: l2 ∧
  ∀ r, place_of (l ++ r) (length l) x = length l1.
Proof.
  induction l as [|o l IH]; [exists [], []; split_and!; [done|done|by intros []]|].
  simpl. destruct (x <? o).
  { exists [], (o :: l). done. }
  destruct IH as (l1 & l2 & -> & -> & Hp). exists (o :: l1), l2. split_and!; [done|done|].
  intros r. simpl. by rewrite Hp.
Qed.

Lemma take_ins k x l : take k (ins x (take k l)) = take k (ins x l).
Proof.
  revert l. induction k as [|k IH]; intros [|o l]; try done. simpl. destruct (x <? o).
  - simpl. f_equal. by destruct k as [|k]; [|simpl; rewrite take_take, Nat.min_l by lia].
  - simpl. by rewrite IH.
Qed.

Definition ins_all (ids s : list Z) : list Z := foldl (λ s x, ins x s) s ids.

Lemma ins_all_perm ids s : ins_all ids s ≡ₚ ids ++ s.
Proof.
  revert s. induction ids as [|x ids IH]; intros s; [done|]. simpl. rewrite IH, ins_perm.
  by rewrite Permutation_middle.
Qed.

Lemma ins_all_sorted ids s : StronglySorted Z.le s → StronglySorted Z.le (ins_all ids s).
Proof. revert s. induction ids as [|x ids IH]; intros s Hs; [done|]. apply IH. by apply ins_sorted. Qed.

Lemma sort_ins ids : ins_all ids [] = merge_sort Z.le ids.
Proof.
  apply (StronglySorted_unique Z.le).
  - apply ins_all_sorted. constructor.
  - apply StronglySorted_merge_sort; [apply _|]. intros x y. lia.
  - rewrite ins_all_perm, merge_sort_Permutation, app_nil_r. done.
Qed.

(** ** smallest_overdue *)
Lemma shift_out_spec n l1 l2 y r :
  zlen l2 ≤ Z.of_nat n → zlen (l1 ++ l2 ++ y :: r) < 2 ^ 62 →
  ∃ z, shift_out n (l1 ++ l2 ++ y :: r) (zlen l1) (zlen (l1 ++ l2)) = Ret (l1 ++ z :: l2 ++ r).
Proof.
  revert l2 y r. induction n as [|n IH]; intros l2 y r Hn Hcap.
  { destruct l2; [|zlia]. by exists y. }
  cbn [shift_out]. destruct l2 as [|w l2 _] using rev_ind.
  { rewrite (proj2 (Z.ltb_ge _ _)) by zlia. by exists y. }
  rewrite (proj2 (Z.ltb_lt _ _)) by zlia. rewrite subc_ret by zlia. cbn [obind].
  assert (index (l1 ++ (l2 ++ [w]) ++ y :: r) (zlen (l1 ++ l2 ++ [w]) - 1) = Ret w) as ->.
  { rewrite <-(app_assoc l2), (app_assoc l1). apply index_mid. zlia. }
  cbn [obind]. rewrite (app_assoc l1 (l2 ++ [w])), store_mid by done. cbn [obind].
  destruct (IH l2 w (w :: r)) as [z Hz]; [zlia|zlia|]. exists z.
  rewrite <-!app_assoc. simpl. rewrite <-Hz. f_equal. zlia.
Qed.

Definition wanted (now : Z) (keep : Z → bool) (threads : list (Z * ThreadState)) : list Z :=
  (filter (λ e, keep e.1 = true ∧ is_overdue e.2 now = true) threads).*1.

Lemma overdue_step_skip now keep id state out n :
  ¬ (keep id = true ∧ is_overdue state now = true) → overdue_step now keep id state out n = Ret (out, n).
Proof.
  intros H. unfold overdue_step. destruct (keep id); [|done]. destruct (is_overdue state now); [|done]. tauto.
Qed.

Lemma overdue_step_take now keep id state s r :
  keep id = true → is_overdue state now = true → zlen (s ++ r) < 2 ^ 62 → 
  ∃ r', overdue_step now keep id state (s ++ r) (zlen s)
        = Ret (take (length (s ++ r)) (ins id s) ++ r', zlen (take (length (s ++ r)) (ins id s))) ∧
        length (take (length (s ++ r)) (ins id s) ++ r') = length (s ++ r).
Proof.
  intros Hk Ho Hcap. unfold overdue_step. rewrite Hk, Ho. cbn [negb orb]. fold (zlen (s ++ r)).
  replace (Z.to_nat (zlen s)) with (length s) by zlia.
  destruct (ins_split id s) as (l1 & l2 & -> & -> & ->).
  change (Z.of_nat (length l1)) with (zlen l1).
  destruct r as [|y r].
  - rewrite app_nil_r in *. rewrite Z.ltb_irrefl. cbn [negb andb].
    destruct l2 as [|w l2 _] using rev_ind.
    { rewrite app_nil_r, Z.eqb_refl. exists []. rewrite take_app_length, app_nil_r. done. }
    rewrite (proj2 (Z.eqb_neq _ _)) by zlia. cbn [obind]. rewrite subc_ret by zlia. cbn [obind].
    destruct (shift_out_spec (length (l1 ++ l2 ++ [w])) l1 l2 w []) as [z Hz]; [zlia|zlia|].
    replace (zlen (l1 ++ l2 ++ [w]) - 1) with (zlen (l1 ++ l2)) by zlia. rewrite Hz. cbn [obind].
    rewrite store_mid by done. cbn [obind]. exists []. rewrite !app_nil_r.
    assert (Ht : take (length (l1 ++ l2 ++ [w])) (l1 ++ id :: l2 ++ [w]) = l1 ++ id :: l2).
    { change (id :: l2 ++ [w]) with ((id :: l2) ++ [w]).
      rewrite (app_assoc l1 (id :: l2) [w]). apply take_app_length'. zlia. }
    rewrite Ht. split; [|zlia]. do 2 f_equal. zlia.
  - rewrite (proj2 (Z.ltb_lt _ _)) by zlia. cbn [negb andb].
    rewrite addc_ret by zlia. cbn [obind]. rewrite subc_ret by zlia. cbn [obind].
    destruct (shift_out_spec (length ((l1 ++ l2) ++ y :: r)) l1 l2 y r) as [z Hz]; [zlia|zlia|].
    replace (zlen (l1 ++ l2) + 1 - 1) with (zlen (l1 ++ l2)) by lia.
    rewrite <-(app_assoc l1 l2) in *. rewrite Hz. cbn [obind]. rewrite store_mid by done. cbn [obind].
    exists r. rewrite take_ge by zlia. split; [|zlia]. rewrite <-app_assoc. simpl. do 2 f_equal. zlia.
Qed.

Lemma smallest_overdue_from now keep threads s k r :
  k = length (take k s ++ r) → Z.of_nat k < 2 ^ 62 →
  ∃ r', smallest_overdue now keep threads (take k s ++ r) (zlen (take k s))
        = Ret (take k (ins_all (wanted now keep threads) s) ++ r', zlen (take k (ins_all (wanted now keep threads) s))) ∧
        length (take k (ins_all (wanted now keep threads) s) ++ r') = k.
Proof.
  revert s r. induction threads as [|[id st] threads IH]; intros s r Hk Hcap; [by exists r|].
  cbn [smallest_overdue]. unfold wanted. rewrite filter_cons. cbn [fst snd].
  case_decide as Hw; last first.
  { rewrite overdue_step_skip by done. cbn [obind]. by apply IH. }
  destruct Hw as [Hw1 Hw2].
  destruct (overdue_step_take now keep id st (take k s) r Hw1 Hw2) as (r1 & -> & Hl1); [zlia|].
  rewrite <-Hk, take_ins in *. cbn [obind fst snd].
  destruct (IH (ins id s) r1) as (r' & Hrun & Hl); [done|done|]. rewrite Hrun. by exists r'.
Qed.

Lemma smallest_overdue_spec now keep threads out :
  zlen out < 2 ^ 62 →
  ∃ r, let ids := take (length out) (merge_sort Z.le (wanted now keep threads)) in
    smallest_overdue now keep threads out 0 = Ret (ids ++ r, zlen ids) ∧ length (ids ++ r) = length out.
Proof.
  intros Hcap. destruct (smallest_overdue_from now keep threads [] (length out) out) as (r & Hrun & Hl).
  - by rewrite take_nil.
  - done.
  - rewrite take_nil, sort_ins in *. exists r. done.
Qed.

(** ** find_overdue *)

(** The overdue tids, in tid order from [from] and wrapping. *)
Definition cyclic (now : Z) (threads : list (Z * ThreadState)) (from : Z) : list Z :=
  merge_sort Z.le (wanted now (λ id, from <=? id) threads) ++
  merge_sort Z.le (wanted now (λ id, id <? from) threads).

(** One past the last tid written, [from] when none was. *)
Definition next_cursor (from : Z) (ids : list Z) : Z :=
  match last ids with Some id => wrapping_add 32 id 1 | None => from end.

Lemma get_last (ids r : list Z) : ids ≠ [] → get_at (ids ++ r) (zlen ids - 1) = last ids.
Proof.
  destruct ids as [|x ids _] using rev_ind; intros Hne; [done|]. unfold get_at.
  rewrite (proj2 (Z.leb_le _ _)) by zlia. rewrite last_snoc, <-app_assoc.
  replace (Z.to_nat (zlen (ids ++ [x]) - 1)) with (length ids) by zlia. by apply list_lookup_middle.
Qed.

(** A sweep reports the overdue threads in tid order starting at the
    cursor and wrapping, cut at the room of the slice: it writes the first
    entries of that sequence to the front of the slice, returns how many, and
    the next cursor is one past the last tid written, or the same cursor when
    nothing is overdue. *)
Theorem find_overdue_exact threads now from out :
  zlen out < 2 ^ 62 →
  ∃ r, let ids := take (length out) (cyclic now threads from) in
    find_overdue threads now from out = Ret (ids ++ r, zlen ids, next_cursor from ids) ∧
    length (ids ++ r) = length out.
Proof.
  intros Hcap. unfold find_overdue, cyclic. cbv zeta. fold (zlen out).
  set (hi := merge_sort Z.le (wanted now (λ id, from <=? id) threads)).
  set (lo := merge_sort Z.le (wanted now (λ id, id <? from) threads)).
  destruct (smallest_overdue_spec now (λ id, from <=? id) threads out Hcap) as (r1 & -> & Hl1).
  fold hi in Hl1 |- *. cbn [obind].
  enough (∃ r, (if Z.of_nat (length (take (length out) hi ++ r1)) <=? zlen (take (length out) hi)
    then Ret (take (length out) hi ++ r1, zlen (take (length out) hi))
    else r <~ smallest_overdue now (λ id, id <? from) threads
                (drop (Z.to_nat (zlen (take (length out) hi))) (take (length out) hi ++ r1)) 0;;
         n' <~ addc 64 (zlen (take (length out) hi)) (snd r);;
         Ret (take (Z.to_nat (zlen (take (length out) hi))) (take (length out) hi ++ r1) ++ fst r, n'))
    = Ret (take (length out) (hi ++ lo) ++ r, zlen (take (length out) (hi ++ lo))) ∧
    length (take (length out) (hi ++ lo) ++ r) = length out) as (r & Hrun & Hl).
  { exists r. rewrite Hrun. cbn [obind]. split; [|done]. f_equal. f_equal. unfold next_cursor.
    destruct (decide (take (length out) (hi ++ lo) = [])) as [->|Hne]; [done|]. by rewrite get_last. }
  destruct (Z.leb_spec (Z.of_nat (length (take (length out) hi ++ r1))) (zlen (take (length out) hi))) as [Hle|Hlt].
  - exists []. destruct r1; [|zlia]. rewrite !app_nil_r in *.
    rewrite take_app_le; [done|]. rewrite length_take in Hl1. lia.
  - assert (Hhi : take (length out) hi = hi) by (apply take_ge; zlia). rewrite Hhi in *.
    replace (Z.to_nat (zlen hi)) with (length hi) by zlia. rewrite drop_app_length, take_app_length.
    destruct (smallest_overdue_spec now (λ id, id <? from) threads r1) as (r2 & -> & Hl2); [zlia|].
    fold lo in Hl2 |- *. cbn [obind fst snd]. rewrite addc_ret by zlia. cbn [obind]. exists r2.
    rewrite take_app_ge by zlia. replace (length out - length hi)%nat with (length r1) by zlia.
    rewrite <-app_assoc. split; [|zlia]. do 2 f_equal. zlia.
Qed.

Lemma find_overdue_exact_witness :
  ∃ r, find_overdue [(9, Sleeping 10); (3, Blocked 7 20); (5, Running); (12, Sleeping 30)] 6000000000 5 [0; 0]
       = Ret ([9; 12] ++ r, 2, 13).
Proof.
  destruct (find_overdue_exact [(9, Sleeping 10); (3, Blocked 7 20); (5, Running); (12, Sleeping 30)]
    6000000000 5 [0; 0] ltac:(vm_compute; reflexivity)) as (r & Hrun & _).
  exists r. exact Hrun.
Defined.

(** ** Successive sweeps *)

(** A strictly increasing list from [f] and wrapping. *)
Definition wrapped (S : list Z) (f : Z) : list Z := filter (λ x, f ≤ x) S ++ filter (λ x, x < f) S.

Lemma wrapped_split S1 S2 f :
  (∀ x, x ∈ S1 → x < f) → (∀ x, x ∈ S2 → f ≤ x) → wrapped (S1 ++ S2) f = S2 ++ S1.
Proof.
  intros H1 H2. unfold wrapped. rewrite !filter_app.
  rewrite (filter_none _ S1), (filter_all _ S2), (filter_all _ S1), (filter_none _ S2);
    [by rewrite app_nil_r|..]; intros x Hx; specialize (H1 x) || idtac; specialize (H2 x) || idtac; naive_solver lia.
Qed.

Lemma wrapped_length S f : length (wrapped S f) = length S.
Proof.
  unfold wrapped. induction S as [|x S IH]; [done|]. rewrite !filter_cons.
  rewrite length_app in *. repeat case_decide; simpl; lia.
Qed.

Lemma sorted_split S f :
  StronglySorted Z.lt S → ∃ S1 S2, S = S1 ++ S2 ∧ (∀ x, x ∈ S1 → x < f) ∧ (∀ x, x ∈ S2 → f ≤ x).
Proof.
  induction 1 as [|x S Hs IH Hf]; [exists [], []; set_solver|]. destruct (decide (x < f)) as [Hx|Hx].
  - destruct IH as (S1 & S2 & -> & H1 & H2). exists (x :: S1), S2. set_solver.
  - exists [], (x :: S). split_and!; [done|set_solver|]. rewrite Forall_forall in Hf.
    intros y [->|Hy]%elem_of_cons; [lia|]. specialize (Hf y Hy). lia.
Qed.

Lemma wrapped_next A x B :
  StronglySorted Z.lt (A ++ x :: B) → Forall (in_width 32) (A ++ x :: B) →
  wrapped (A ++ x :: B) (wrapping_add 32 x 1) = B ++ A ++ [x].
Proof.
  intros Hs Hw. rewrite Forall_forall in Hw. assert (Hx : in_width 32 x) by (apply Hw; set_solver).
  apply StronglySorted_app in Hs as (HA & _ & [HB _]%StronglySorted_cons). rewrite Forall_forall in HB.
  unfold wrapping_add, wrap, in_width in *. destruct (decide (x = 2 ^ 32 - 1)) as [->|Hne].
  - assert (B = []) as ->.
    { destruct B as [|y B]; [done|]. specialize (Hw y ltac:(set_solver)). specialize (HB y ltac:(set_solver)). lia. }
    change ((2 ^ 32 - 1 + 1) mod 2 ^ 32) with 0.
    rewrite <-(app_nil_r (A ++ _)) at 2. apply (wrapped_split [] (A ++ _)); [set_solver|].
    intros y Hy. apply Hw in Hy. lia.
  - rewrite Z.mod_small, (cons_middle x A B), app_assoc by lia. apply wrapped_split.
    + intros y [Hy|Hy]%elem_of_app; [|set_solver by lia]. specialize (HA y x Hy ltac:(set_solver)). lia.
    + intros y Hy. specialize (HB y Hy). lia.
Qed.

Lemma wrapped_rotates S f n :
  StronglySorted Z.lt S → Forall (in_width 32) S → (0 < n ≤ length S)%nat →
  wrapped S (next_cursor f (take n (wrapped S f))) = drop n (wrapped S f) ++ take n (wrapped S f).
Proof.
  intros Hs Hw Hn. destruct (sorted_split S f Hs) as (S1 & S2 & -> & H1 & H2).
  rewrite (wrapped_split S1 S2 f) by done. destruct (decide (n ≤ length S2)%nat) as [Hle|Hgt].
  - rewrite take_app_le, drop_app_le by lia. pose proof (take_drop n S2) as E.
    assert (Hne : length (take n S2) = n) by (rewrite length_take; lia).
    revert E Hne. generalize (take n S2) (drop n S2). intros T D <- HT.
    destruct T as [|x T _] using rev_ind; [simpl in HT; lia|]. unfold next_cursor. rewrite last_snoc.
    replace (S1 ++ (T ++ [x]) ++ D) with ((S1 ++ T) ++ x :: D) in * by (by rewrite <-!app_assoc).
    rewrite wrapped_next by done. by rewrite <-!app_assoc.
  - rewrite take_app_ge, drop_app_ge by lia. rewrite length_app in Hn.
    assert (Hne : length (take (n - length S2) S1) = (n - length S2)%nat) by (rewrite length_take; lia).
    pose proof (take_drop (n - length S2) S1) as E. revert E Hne.
    generalize (take (n - length S2) S1) (drop (n - length S2) S1). intros T D <- HT.
    destruct T as [|x T _] using rev_ind; [simpl in HT; lia|].
    unfold next_cursor. rewrite (app_assoc S2 T [x]), last_snoc.
    replace (((T ++ [x]) ++ D) ++ S2) with (T ++ x :: D ++ S2) in * by (by rewrite <-!app_assoc).
    rewrite wrapped_next by done. by rewrite <-!app_assoc.
Qed.

(** [cyclic] of distinct tids is [wrapped] of the sorted tids. *)
Definition overdue_tids (now : Z) (threads : list (Z * ThreadState)) : list Z :=
  merge_sort Z.le (wanted now (λ _, true) threads).

Lemma wanted_keep now keep threads :
  wanted now keep threads = filter (λ id, keep id = true) (wanted now (λ _, true) threads).
Proof.
  unfold wanted. induction threads as [|[id st] threads IH]; [done|]. rewrite !filter_cons. cbn [fst snd].
  destruct (decide (keep id = true)), (decide (is_overdue st now = true));
    repeat (case_decide; try tauto); rewrite ?fmap_cons, ?filter_cons; cbn [fst];
    repeat (case_decide; try tauto); by rewrite IH.
Qed.

Lemma sort_filter (P : Z → Prop) `{!∀ x, Decision (P x)} l :
  merge_sort Z.le (filter P l) = filter P (merge_sort Z.le l).
Proof.
  assert (Hs : ∀ l, StronglySorted Z.le (merge_sort Z.le l)).
  { intros k. apply StronglySorted_merge_sort; [apply _|]. intros x y. lia. }
  apply (StronglySorted_unique Z.le).
  - done.
  - pose proof (Hs l) as Hl. induction Hl as [|x k Hl IH Hf]; [constructor|]. rewrite filter_cons.
    case_decide; [|done]. constructor; [done|]. apply Forall_forall. intros y [_ Hy]%list_elem_of_filter.
    by eapply Forall_forall in Hf.
  - by rewrite !merge_sort_Permutation.
Qed.

Lemma cyclic_wrapped now threads from : cyclic now threads from = wrapped (overdue_tids now threads) from.
Proof.
  unfold cyclic, wrapped, overdue_tids. rewrite (wanted_keep now (λ id, from <=? id)), (wanted_keep now (λ id, id <? from)).
  rewrite !sort_filter. f_equal; apply filter_ext_in; intros x _; [apply Z.leb_le|apply Z.ltb_lt].
Qed.

(** [j] sweeps, one after the other, over the same threads: what they report. *)
Fixpoint sweeps (j : nat) (threads : list (Z * ThreadState)) (now from : Z) (out : list Z) : outcome (list Z) :=
  match j with
  | O => Ret []
  | S j =>
      r <~ find_overdue threads now from out;;
      let '(out, n, next) := r in
      ids <~ sweeps j threads now next out;;
      Ret (take (Z.to_nat n) out ++ ids)
  end.

Lemma sweeps_reach j threads now from out k :
  StronglySorted Z.lt (overdue_tids now threads) → Forall (in_width 32) (overdue_tids now threads) →
  length out = S k → Z.of_nat (S k) < 2 ^ 62 →
  ∃ ids, sweeps j threads now from out = Ret ids ∧
    ∀ i id, (i < j * S k)%nat → wrapped (overdue_tids now threads) from !! i = Some id → id ∈ ids.
Proof.
  intros Hs Hw. revert from out. induction j as [|j IH]; intros from out Hl Hcap.
  { exists []. split; [done|]. intros. lia. }
  cbn [sweeps]. destruct (find_overdue_exact threads now from out) as (r & -> & Hlr); [zlia|].
  rewrite cyclic_wrapped, Hl in *. set (L := wrapped (overdue_tids now threads) from) in *. cbn [obind].
  replace (Z.to_nat (zlen (take (S k) L))) with (length (take (S k) L)) by zlia. rewrite take_app_length.
  destruct (IH (next_cursor from (take (S k) L)) (take (S k) L ++ r)) as (ids & -> & Hids); [done|done|].
  cbn [obind]. eexists. split; [done|]. intros i id Hi Hid.
  destruct (decide (i < S k)%nat) as [Hlt|Hge].
  { apply elem_of_app. left. apply list_elem_of_lookup. exists i. by rewrite lookup_take_lt. }
  apply elem_of_app. right. apply (Hids (i - S k)%nat); [lia|]. pose proof (lookup_lt_Some _ _ _ Hid).
  assert (length L = length (overdue_tids now threads)) by apply wrapped_length.
  rewrite wrapped_rotates by (done || lia). fold L. rewrite lookup_app_l by (rewrite length_drop; lia).
  rewrite lookup_drop. by replace (S k + (i - S k))%nat with i by lia.
Qed.

Lemma elem_of_overdue now threads id :
  id ∈ overdue_tids now threads ↔ ∃ st, (id, st) ∈ threads ∧ is_overdue st now = true.
Proof.
  unfold overdue_tids, wanted. rewrite merge_sort_Permutation, list_elem_of_fmap. split.
  - intros ([i st] & -> & [[_ Ho] Hin]%list_elem_of_filter). by exists st.
  - intros (st & Hin & Ho). exists (id, st). split; [done|]. by apply list_elem_of_filter.
Qed.

Lemma overdue_tids_sorted now threads : NoDup threads.*1 → StronglySorted Z.lt (overdue_tids now threads).
Proof.
  intros Hn. assert (Hnd : NoDup (overdue_tids now threads)).
  { unfold overdue_tids, wanted. rewrite merge_sort_Permutation.
    eapply sublist_NoDup; [exact Hn|]. apply fmap_sublist, sublist_filter. }
  assert (Hs : StronglySorted Z.le (overdue_tids now threads)).
  { apply StronglySorted_merge_sort; [apply _|]. intros x y. lia. }
  induction Hs as [|x l Hs IH Hf]; [constructor|]. apply NoDup_cons in Hnd as [Hx Hnd].
  constructor; [by apply IH|]. rewrite Forall_forall in *. intros y Hy. specialize (Hf y Hy).
  assert (x ≠ y) by congruence. lia.
Qed.

Lemma wrapped_elem S f id : id ∈ S → id ∈ wrapped S f.
Proof.
  intros Hid. unfold wrapped. rewrite elem_of_app, !list_elem_of_filter.
  destruct (decide (f ≤ id)); [left|right]; split; done || lia.
Qed.

(** C14: the cursor makes the sweep fair: over an unchanging set of threads
    with distinct ids, as many sweeps as it takes to write that many ids report
    every overdue thread, from whatever cursor they start and however small the
    slice is. *)
Theorem overdue_sweeps_reach_all threads now from out j :
  NoDup threads.*1 → Forall (in_width 32) threads.*1 → 0 < zlen out < 2 ^ 62 →
  zlen threads ≤ Z.of_nat j * zlen out →
  ∃ ids, sweeps j threads now from out = Ret ids ∧
    ∀ id st, (id, st) ∈ threads → is_overdue st now = true → id ∈ ids.
Proof.
  intros Hn Hw Hout Hj. assert (Hk : length out = S (length out - 1)) by zlia.
  destruct (sweeps_reach j threads now from out (length out - 1)) as (ids & Hrun & Hids).
  - by apply overdue_tids_sorted.
  - rewrite Forall_forall in *. intros id (st & Hin & _)%elem_of_overdue. apply Hw.
    by apply list_elem_of_fmap_2 with (f := fst) in Hin.
  - done.
  - zlia.
  - exists ids. split; [done|]. intros id st Hin Ho.
    assert (Hid : id ∈ wrapped (overdue_tids now threads) from) by (apply wrapped_elem, elem_of_overdue; eauto).
    apply list_elem_of_lookup in Hid as [i Hi]. apply (Hids i); [|done].
    apply lookup_lt_Some in Hi. rewrite wrapped_length in Hi. unfold overdue_tids, wanted in Hi.
    rewrite merge_sort_Permutation, length_fmap in Hi. rewrite <-Hk.
    pose proof (length_filter (λ e : Z * ThreadState, true = true ∧ is_overdue e.2 now = true) threads) as Hf.
    zlia.
Qed.

Lemma overdue_sweeps_reach_all_witness :
  ∃ ids, sweeps 3 [(9, Sleeping 10); (3, Blocked 7 20); (12, Sleeping 30)] 6000000000 11 [0] = Ret ids ∧
    9 ∈ ids ∧ 3 ∈ ids ∧ 12 ∈ ids.
Proof.
  destruct (overdue_sweeps_reach_all [(9, Sleeping 10); (3, Blocked 7 20); (12, Sleeping 30)] 6000000000 11 [0] 3)
    as (ids & Hrun & Hids).
  - simpl. repeat constructor; set_solver.
  - simpl. repeat constructor; done.
  - done.
  - done.
  - exists ids. split; [done|].
    split_and!; [apply (Hids 9 (Sleeping 10))|apply (Hids 3 (Blocked 7 20))|apply (Hids 12 (Sleeping 30))];
      done || set_solver.
Defined.
