(* ===== verification/Wait.v ===== *)
(** * Wait queues and blocking primitives (src/crates/core/src/sched/wait.rs)

    The definitions of this file are the code of [sched/wait.rs].  The trait
    [WaitLinks], through which a queue reaches the links the scheduler keeps
    for each thread, is the class [WaitLinks]; a queue's address, which a link
    records, is the argument [me] of its operations. *)

From stdpp Require Import base gmap list numbers strings.
From S2P Require Import Prelude Sched.

Local Open Scope string_scope.
Local Open Scope Z_scope.

Module Wait.
Import Sched.

Record WaitLink := mkWaitLink { next : Z; prev : Z; on : Z }.

Definition WaitLink_NONE : WaitLink := mkWaitLink THREAD_NONE THREAD_NONE 0.
Definition queued (l : WaitLink) : bool := negb (on l =? 0).

(** [link] is the trait's method read, [set_link] a write through the
    reference it returns: [None] for an id that names no thread, and a write
    changes the one link it is made to. *)
Class WaitLinks (L : Type) := {
  link : L → Z → option WaitLink;
  set_link : L → Z → WaitLink → L;
  link_set : ∀ l i x j, is_Some (link l i) → link (set_link l i x) j = if j =? i then Some x else link l j
}.

Record WaitQueue := mkWaitQueue { wq_head : Z; wq_tail : Z; wq_len : Z }.

Definition WaitQueue_new : WaitQueue := mkWaitQueue THREAD_NONE THREAD_NONE 0.
Definition wq_is_empty (q : WaitQueue) : bool := wq_len q =? 0.

Section queue.
Context {L : Type} `{WaitLinks L}.

Definition wq_contains (me id : Z) (links : L) : bool :=
  match link links id with Some l => on l =? me | None => false end.

Definition enqueue (me id : Z) (q : WaitQueue) (links : L) : outcome (WaitQueue * L) :=
  _ <~ oassert (negb (is_none id)) "wait: enqueue NONE";;
  let tail := wq_tail q in
  match link links id with
  | None => Panic (PAssert "wait: enqueue of unknown thread")
  | Some l =>
      if on l =? me then Ret (q, links)
      else
        _ <~ oassert (on l =? 0) "wait: thread on two queues";;
        let links := set_link links id (mkWaitLink THREAD_NONE tail me) in
        let '(head, links) :=
          match link links tail with
          | Some t => if negb (is_none tail) then (wq_head q, set_link links tail (mkWaitLink id (prev t) (on t)))
                      else (id, links)
          | None => (id, links)
          end in
        len <~ addc 64 (wq_len q) 1;;
        Ret (mkWaitQueue head id len, links)
  end.

Definition unlink (id : Z) (q : WaitQueue) (links : L) : outcome (WaitQueue * L) :=
  match link links id with
  | None => Panic (PAssert "wait: queued thread has no link")
  | Some l =>
      let nxt := next l in
      let prv := prev l in
      let links := set_link links id WaitLink_NONE in
      let '(head, links) :=
        match link links prv with
        | Some p => if negb (is_none prv) then (wq_head q, set_link links prv (mkWaitLink nxt (prev p) (on p)))
                    else (nxt, links)
        | None => (nxt, links)
        end in
      let '(tail, links) :=
        match link links nxt with
        | Some n => if negb (is_none nxt) then (wq_tail q, set_link links nxt (mkWaitLink (next n) prv (on n)))
                    else (prv, links)
        | None => (prv, links)
        end in
      len <~ subc 64 (wq_len q) 1;;
      Ret (mkWaitQueue head tail len, links)
  end.

Definition dequeue (q : WaitQueue) (links : L) : outcome (option Z * WaitQueue * L) :=
  let id := wq_head q in
  if is_none id then Ret (None, q, links)
  else r <~ unlink id q links;; Ret (Some id, fst r, snd r).

Definition wq_remove (me id : Z) (q : WaitQueue) (links : L) : outcome (bool * WaitQueue * L) :=
  if is_none id || negb (wq_contains me id links) then Ret (false, q, links)
  else r <~ unlink id q links;; Ret (true, fst r, snd r).

(** ** Waiting and waking *)
Definition begin_wait (me id deadline : Z) (wq : WaitQueue) (links : L) (ready : ReadyQueue)
    (timeouts : TimeoutQueue) : outcome (WaitQueue * L * ReadyQueue * TimeoutQueue) :=
  r <~ enqueue me id wq links;;
  rd <~ remove id ready;;
  tq <~ tq_insert id deadline timeouts;;
  Ret (fst r, snd r, snd rd, tq).

Definition take_one (wq : WaitQueue) (links : L) (timeouts : TimeoutQueue)
    : outcome (option Z * WaitQueue * L * TimeoutQueue) :=
  r <~ dequeue wq links;;
  let '(id, wq, links) := r in
  match id with
  | None => Ret (None, wq, links, timeouts)
  | Some id => r <~ tq_remove id timeouts;; Ret (Some id, wq, links, snd r)
  end.

Definition wake_one (wq : WaitQueue) (links : L) (ready : ReadyQueue) (timeouts : TimeoutQueue)
    : outcome (option Z * WaitQueue * L * ReadyQueue * TimeoutQueue) :=
  r <~ take_one wq links timeouts;;
  let '(id, wq, links, timeouts) := r in
  match id with
  | None => Ret (None, wq, links, ready, timeouts)
  | Some id => ready <~ push_back id ready;; Ret (Some id, wq, links, ready, timeouts)
  end.

(** [wake_all]: the ids woken and the count it returns; the waiters bound
    the loop. *)
Fixpoint wake_all_from (fuel : nat) (n : Z) (wq : WaitQueue) (links : L) (ready : ReadyQueue)
    (timeouts : TimeoutQueue) : outcome (list Z * Z * WaitQueue * L * ReadyQueue * TimeoutQueue) :=
  match fuel with
  | O => NoFuel
  | S fuel =>
      r <~ wake_one wq links ready timeouts;;
      let '(id, wq, links, ready, timeouts) := r in
      match id with
      | None => Ret ([], n, wq, links, ready, timeouts)
      | Some id =>
          n <~ addc 64 n 1;;
          r <~ wake_all_from fuel n wq links ready timeouts;;
          let '(ids, n, wq, links, ready, timeouts) := r in
          Ret (id :: ids, n, wq, links, ready, timeouts)
      end
  end.
Definition wake_all (wq : WaitQueue) (links : L) (ready : ReadyQueue) (timeouts : TimeoutQueue)
    : outcome (list Z * Z * WaitQueue * L * ReadyQueue * TimeoutQueue) :=
  wake_all_from (S (Z.to_nat (wq_len wq))) 0 wq links ready timeouts.
End queue.

Definition deadline_of (deadline : option Z) : Z := effective_deadline deadline.

(** ** Blocking primitives *)
Record MutexModel := mkMutex { held : bool; owner : Z; m_wq : WaitQueue }.
Definition MutexModel_new : MutexModel := mkMutex false THREAD_NONE WaitQueue_new.
Definition mutex_try_acquire (id : Z) (m : MutexModel) : bool * MutexModel :=
  if held m then (false, m) else (true, mkMutex true id (m_wq m)).
Definition mutex_release (m : MutexModel) : MutexModel := mkMutex false THREAD_NONE (m_wq m).

Record RwLockModel := mkRwLock { readers : Z; writer : Z; read_wq : WaitQueue; write_wq : WaitQueue }.
Definition RwLockModel_new : RwLockModel := mkRwLock 0 THREAD_NONE WaitQueue_new WaitQueue_new.

Definition try_read (l : RwLockModel) : outcome (bool * RwLockModel) :=
  if negb (is_none (writer l)) || negb (wq_is_empty (write_wq l)) then Ret (false, l)
  else n <~ addc 32 (readers l) 1;; Ret (true, mkRwLock n (writer l) (read_wq l) (write_wq l)).

Definition try_write (id : Z) (l : RwLockModel) : bool * RwLockModel :=
  if negb (is_none (writer l)) || negb (readers l =? 0) then (false, l)
  else (true, mkRwLock (readers l) id (read_wq l) (write_wq l)).

Definition drop_read (l : RwLockModel) : outcome RwLockModel :=
  _ <~ oassert (0 <? readers l) "rwlock: drop_read";;
  n <~ subc 32 (readers l) 1;;
  Ret (mkRwLock n (writer l) (read_wq l) (write_wq l)).

Definition drop_write (l : RwLockModel) : RwLockModel :=
  mkRwLock (readers l) THREAD_NONE (read_wq l) (write_wq l).

Inductive WriterTimeoutWake := WtwNone | WtwNextWriter | WtwReaders.

Definition after_writer_wait_timeout (l : RwLockModel) : WriterTimeoutWake :=
  match is_none (writer l), wq_is_empty (write_wq l), readers l =? 0 with
  | true, true, _ => WtwReaders
  | true, false, true => WtwNextWriter
  | true, false, false => WtwNone
  | false, _, _ => WtwNone
  end.

Record SemaModel := mkSema { count : Z; s_wq : WaitQueue }.
Definition SemaModel_new (count : Z) : SemaModel := mkSema count WaitQueue_new.
Definition sema_try_acquire (s : SemaModel) : outcome (bool * SemaModel) :=
  if count s =? 0 then Ret (false, s)
  else n <~ subc 64 (count s) 1;; Ret (true, mkSema n (s_wq s)).
Definition sema_release (s : SemaModel) : SemaModel := mkSema (saturating_add 64 (count s) 1) (s_wq s).

Record CondModel := mkCond { c_wq : WaitQueue }.
Definition CondModel_new : CondModel := mkCond WaitQueue_new.

(** A slot is [None] while it holds no value: uninitialized, or read out. *)
Record ChannelModel (T : Type) := mkChannel {
  slots : list (option T); ch_head : Z; ch_len : Z; send_wq : WaitQueue; recv_wq : WaitQueue
}.
Arguments mkChannel {T}.
Arguments slots {T}.
Arguments ch_head {T}.
Arguments ch_len {T}.
Arguments send_wq {T}.
Arguments recv_wq {T}.

Section channel.
Context {T : Type} (N : Z).

Definition ChannelModel_new : outcome (ChannelModel T) :=
  _ <~ oassert (0 <? N) "assertion failed: N > 0";;
  Ret (mkChannel (replicate (Z.to_nat N) None) 0 0 WaitQueue_new WaitQueue_new).

Definition ch_is_empty (c : ChannelModel T) : bool := ch_len c =? 0.
Definition ch_is_full (c : ChannelModel T) : bool := N <=? ch_len c.

(** [Err(v)] hands the value back. *)
Definition try_send (v : T) (c : ChannelModel T) : outcome (option T * ChannelModel T) :=
  if N <=? ch_len c then Ret (Some v, c)
  else
    x <~ addc 64 (ch_head c) (ch_len c);;
    i <~ remc x N;;
    sl <~ store (slots c) i (Some v);;
    len <~ addc 64 (ch_len c) 1;;
    Ret (None, mkChannel sl (ch_head c) len (send_wq c) (recv_wq c)).

(** [assume_init_read] of a slot that holds no value is undefined. *)
Definition try_recv (c : ChannelModel T) : outcome (option T * ChannelModel T) :=
  if ch_len c =? 0 then Ret (None, c)
  else
    s <~ index (slots c) (ch_head c);;
    match s with
    | None => Ub
    | Some v =>
        sl <~ store (slots c) (ch_head c) None;;
        h <~ addc 64 (ch_head c) 1;;
        head <~ remc h N;;
        len <~ subc 64 (ch_len c) 1;;
        Ret (Some v, mkChannel sl head len (send_wq c) (recv_wq c))
    end.

(** [drop]: the values dropped, in order. *)
Fixpoint drain (fuel : nat) (c : ChannelModel T) : outcome (list T * ChannelModel T) :=
  match fuel with
  | O => NoFuel
  | S fuel =>
      r <~ try_recv c;;
      match fst r with
      | None => Ret ([], snd r)
      | Some v => r <~ drain fuel (snd r);; Ret (v :: fst r, snd r)
      end
  end.
Definition ch_drop (c : ChannelModel T) : outcome (list T * ChannelModel T) :=
  drain (S (Z.to_nat (ch_len c))) c.
End channel.

End Wait.
