(* ===== verification/WaitSpec.v ===== *)
(** * Wait queues are FIFOs that share the threads

    The intrusive queues of src/crates/core/src/sched/wait.rs refine a family
    of lists of threads, one per queue address, in which a thread is on one
    queue at most. *)

From stdpp Require Import base gmap list numbers strings.
From S2P Require Import Prelude Trace Ring Sched SchedReady SchedTimeout Wait.

Local Open Scope Z_scope.

Import Sched Wait.

(** The first and the last of a list, or what stands beyond it. *)
Definition hd_or (x : Z) (l : list Z) : Z := default x (head l).
Definition last_or (x : Z) (l : list Z) : Z := default x (last l).

Lemma last_or_snoc x l y : last_or x (l ++ [y]) = y.
Proof. unfold last_or. by rewrite last_snoc. Qed.

Lemma last_or_cons x y l : last_or x (y :: l) = last_or y l.
Proof. unfold last_or. rewrite last_cons. by destruct (last l). Qed.

Lemma hd_or_app x l1 l2 : hd_or x (l1 ++ l2) = hd_or (hd_or x l2) l1.
Proof. by destruct l1. Qed.

Section links.
Context {L : Type} `{!WaitLinks L}.
Implicit Types (links : L) (l : list Z).

(** The threads of [l] are linked in order on queue [me], between [p] and [n]. *)
Fixpoint linked links (me p : Z) l (n : Z) : Prop :=
  match l with
  | [] => True
  | id :: l => link links id = Some (mkWaitLink (hd_or n l) p me) ∧ linked links me id l n
  end.

Record wq_rep (me : Z) (q : WaitQueue) links l : Prop := {
  wqr_head : wq_head q = hd_or THREAD_NONE l;
  wqr_tail : wq_tail q = last_or THREAD_NONE l;
  wqr_len : wq_len q = zlen l;
  wqr_linked : linked links me THREAD_NONE l THREAD_NONE;
  wqr_on : ∀ id lk, link links id = Some lk → on lk = me → id ∈ l;
  wqr_nodup : NoDup l;
  wqr_ids : THREAD_NONE ∉ l
}.

Lemma linked_app links me p l1 l2 n :
  linked links me p (l1 ++ l2) n ↔ linked links me p l1 (hd_or n l2) ∧ linked links me (last_or p l1) l2 n.
Proof.
  revert p. induction l1 as [|id l1 IH]; intros p; simpl; [unfold last_or; simpl; tauto|].
  rewrite IH, hd_or_app, last_or_cons. tauto.
Qed.

Lemma linked_on links me p l n id : linked links me p l n → id ∈ l → ∃ lk, link links id = Some lk ∧ on lk = me.
Proof.
  revert p. induction l as [|x l IH]; intros p Hl Hin; [set_solver|]. destruct Hl as [Hx Hl].
  apply elem_of_cons in Hin as [->|Hin]; [eauto|by eapply IH].
Qed.

Lemma linked_frame links links' me p l n :
  (∀ id, id ∈ l → link links' id = link links id) → linked links me p l n → linked links' me p l n.
Proof.
  revert p. induction l as [|x l IH]; intros p Hf Hl; [done|]. destruct Hl as [Hx Hl].
  split; [rewrite Hf by set_solver; done|]. apply IH; [set_solver|done].
Qed.

Lemma link_set_eq links i x : is_Some (link links i) → link (set_link links i x) i = Some x.
Proof. intros. rewrite link_set by done. by rewrite Z.eqb_refl. Qed.

Lemma link_set_ne links i x j : is_Some (link links i) → j ≠ i → link (set_link links i x) j = link links j.
Proof. intros. rewrite link_set by done. by rewrite (proj2 (Z.eqb_neq j i)). Qed.

(** A write that changes no link of queue [me]. *)
Definition keeps (me : Z) links links' : Prop :=
  ∀ id lk, on lk = me → link links id = Some lk ↔ link links' id = Some lk.

Lemma keeps_refl me links : keeps me links links.
Proof. done. Qed.

Lemma keeps_trans me links links1 links2 : keeps me links links1 → keeps me links1 links2 → keeps me links links2.
Proof. intros H1 H2 id lk Ho. etransitivity; [by apply H1|by apply H2]. Qed.

Lemma keeps_set me links i x y :
  link links i = Some y → on y ≠ me → on x ≠ me → keeps me links (set_link links i x).
Proof.
  intros Hi Hy Hx id lk Ho. destruct (decide (id = i)) as [->|Hne].
  - rewrite link_set_eq by eauto. split; intros; simplify_eq.
  - rewrite link_set_ne by eauto. done.
Qed.

Lemma wq_rep_keeps me q links links' l : keeps me links links' → wq_rep me q links l → wq_rep me q links' l.
Proof.
  intros Hk []. split; try done.
  - eapply linked_frame; [|done]. intros id Hid. destruct (linked_on _ _ _ _ _ _ wqr_linked0 Hid) as (lk & Hlk & Ho).
    rewrite Hlk. by apply Hk.
  - intros id lk Hlk Ho. eapply wqr_on0; [|done]. by apply Hk.
Qed.

(** The threads that have a link stay the same. *)
Definition same_threads links links' : Prop := ∀ id, is_Some (link links id) ↔ is_Some (link links' id).

Lemma same_threads_set links i x : is_Some (link links i) → same_threads links (set_link links i x).
Proof.
  intros Hi id. rewrite link_set by done. destruct (Z.eqb_spec id i) as [->|]; [|done]. split; [by eexists|done].
Qed.

Lemma same_threads_trans links links1 links2 :
  same_threads links links1 → same_threads links1 links2 → same_threads links links2.
Proof. intros H1 H2 id. etransitivity; [apply H1|apply H2]. Qed.

(** ** Relinking the neighbours *)

(** What an operation on queue [me] leaves of the links of the others. *)
Definition only_queue (me : Z) links links' : Prop :=
  same_threads links links' ∧ ∀ me', me' ≠ 0 → me' ≠ me → keeps me' links links'.

Lemma only_queue_trans me links links1 links2 :
  only_queue me links links1 → only_queue me links1 links2 → only_queue me links links2.
Proof.
  intros [S1 K1] [S2 K2]. split; [by eapply same_threads_trans|]. intros. eapply keeps_trans; eauto.
Qed.

Lemma only_queue_set me links i x y :
  link links i = Some y → on y = 0 ∨ on y = me → on x = 0 ∨ on x = me → only_queue me links (set_link links i x).
Proof.
  intros Hi Hy Hx. split; [apply same_threads_set; eauto|]. intros. eapply keeps_set; [done|lia..].
Qed.

Lemma only_queue_refl me links : only_queue me links links.
Proof. done. Qed.

(** The threads of [l1], which [n0] followed, are followed by [n]. *)
Lemma relink_prev links me l1 n0 n h :
  linked links me THREAD_NONE l1 n0 → NoDup l1 → THREAD_NONE ∉ l1 → h = hd_or n0 l1 →
  let r := match link links (last_or THREAD_NONE l1) with
           | Some p => if negb (is_none (last_or THREAD_NONE l1))
                       then (h, set_link links (last_or THREAD_NONE l1) (mkWaitLink n (prev p) (on p)))
                       else (n, links)
           | None => (n, links)
           end in
  fst r = hd_or n l1 ∧ linked (snd r) me THREAD_NONE l1 n ∧
  (∀ j, j ∉ l1 → link (snd r) j = link links j) ∧ only_queue me links (snd r).
Proof.
  intros Hl Hnd Hno Hh. destruct l1 as [|p l1 _] using rev_ind.
  { change (last_or THREAD_NONE []) with THREAD_NONE. unfold is_none.
    by destruct (link links THREAD_NONE). }
  rewrite last_or_snoc. apply linked_app in Hl as [Hl [Hp _]].
  change (hd_or n0 [p]) with p in Hl. unfold is_none.
  rewrite Hp, (proj2 (Z.eqb_neq p _)) by set_solver. cbn [negb prev on fst snd].
  apply NoDup_app in Hnd as (_ & Hd & _).
  assert (Hpl : p ∉ l1) by (intros Hin; by apply (Hd p Hin), list_elem_of_singleton).
  split_and!.
  - subst h. by destruct l1.
  - apply linked_app. change (hd_or n [p]) with p. split.
    + eapply linked_frame; [|exact Hl]. intros j Hj. apply link_set_ne; [eauto|by intros ->].
    + split; [|done]. apply link_set_eq. eauto.
  - intros j Hj. apply link_set_ne; [eauto|set_solver].
  - eapply only_queue_set; [done|by right..].
Qed.

(** The threads of [l2], which [p0] preceded, are preceded by [p]. *)
Lemma relink_next links me l2 p0 p t :
  linked links me p0 l2 THREAD_NONE → NoDup l2 → THREAD_NONE ∉ l2 → t = last_or p0 l2 →
  let r := match link links (hd_or THREAD_NONE l2) with
           | Some n => if negb (is_none (hd_or THREAD_NONE l2))
                       then (t, set_link links (hd_or THREAD_NONE l2) (mkWaitLink (next n) p (on n)))
                       else (p, links)
           | None => (p, links)
           end in
  fst r = last_or p l2 ∧ linked (snd r) me p l2 THREAD_NONE ∧
  (∀ j, j ∉ l2 → link (snd r) j = link links j) ∧ only_queue me links (snd r).
Proof.
  intros Hl Hnd Hno Ht. destruct l2 as [|n l2].
  { change (hd_or THREAD_NONE []) with THREAD_NONE. unfold is_none.
    by destruct (link links THREAD_NONE). }
  change (hd_or THREAD_NONE (n :: l2)) with n. destruct Hl as [Hn Hl]. unfold is_none.
  rewrite Hn, (proj2 (Z.eqb_neq n _)) by set_solver. cbn [negb next on fst snd].
  apply NoDup_cons in Hnd as [Hnl _]. split_and!.
  - subst t. by rewrite !last_or_cons.
  - split; [apply link_set_eq; eauto|]. eapply linked_frame; [|exact Hl].
    intros j Hj. apply link_set_ne; [eauto|by intros ->].
  - intros j Hj. apply link_set_ne; [eauto|set_solver].
  - eapply only_queue_set; [done|by right..].
Qed.

Lemma rep_notin me q links l id lk : wq_rep me q links l → link links id = Some lk → on lk ≠ me → id ∉ l.
Proof.
  intros HR Hlk Hon Hin. destruct (linked_on _ _ _ _ _ _ (wqr_linked _ _ _ _ HR) Hin) as (y & Hy & Ho). simplify_eq.
Qed.

(** ** enqueue *)
Lemma enqueue_spec me q links l id lk :
  wq_rep me q links l → me ≠ 0 → zlen l < 2 ^ 62 → id ≠ THREAD_NONE → link links id = Some lk → on lk = 0 →
  ∃ q' links', enqueue me id q links = Ret (q', links') ∧ wq_rep me q' links' (l ++ [id]) ∧
    only_queue me links links'.
Proof.
  intros HR Hme Hlen Hid Hlk Hon. unfold enqueue. rewrite (proj2 (negb_true_iff (is_none id))) by (by apply Z.eqb_neq).
  cbn [oassert obind]. rewrite Hlk, Hon, (proj2 (Z.eqb_neq 0 me)) by lia. cbn [oassert obind Z.eqb].
  set (links1 := set_link links id (mkWaitLink THREAD_NONE (wq_tail q) me)).
  assert (Hnin : id ∉ l) by (eapply rep_notin; [done..|lia]).
  assert (H1 : ∀ j, j ≠ id → link links1 j = link links j) by (intros; apply link_set_ne; eauto).
  assert (Hid1 : link links1 id = Some (mkWaitLink THREAD_NONE (wq_tail q) me)) by (apply link_set_eq; eauto).
  assert (HO : only_queue me links links1) by (eapply only_queue_set; [done|by left|by right]).
  destruct HR. rewrite wqr_tail0, wqr_len0 in *. rewrite addc_ret by zlia.
  pose proof (relink_prev links1 me l THREAD_NONE id (wq_head q)) as Hr. cbv zeta in Hr.
  destruct (match link links1 _ with Some _ => _ | None => _ end) as [h links2]. cbn [fst snd obind] in *.
  destruct Hr as (-> & Hl2 & H2 & HO2); [|done..|].
  { eapply linked_frame; [|done]. intros j Hj. apply H1. by intros ->. }
  eexists _, links2. split; [done|]. split; [|by eapply only_queue_trans].
  assert (Hid2 : link links2 id = Some (mkWaitLink THREAD_NONE (last_or THREAD_NONE l) me)) by (by rewrite H2).
  split; simpl.
  - by rewrite hd_or_app.
  - by rewrite last_or_snoc.
  - zlia.
  - apply linked_app. split; [done|]. split; [done|done].
  - intros j y Hj Ho. destruct (decide (j = id)) as [->|Hji]; [set_solver|].
    destruct (decide (j ∈ l)); [set_solver|]. rewrite H2, H1 in Hj by done. set_solver.
  - apply NoDup_app. split_and!; [done| |apply NoDup_singleton]. by intros j Hj ->%list_elem_of_singleton.
  - set_solver.
Qed.

(** ** unlink *)
Lemma wq_unlink_spec me q links l1 id l2 :
  wq_rep me q links (l1 ++ id :: l2) → me ≠ 0 → zlen (l1 ++ id :: l2) < 2 ^ 62 →
  ∃ q' links', unlink id q links = Ret (q', links') ∧ wq_rep me q' links' (l1 ++ l2) ∧ only_queue me links links'.
Proof.
  intros [Hhd Htl Hlen Hl Hon Hnd Hno] Hme Hcap. pose proof Hl as (Hl1 & Hid & Hl2)%linked_app.
  apply NoDup_app in Hnd as (Hnd1 & Hd & [Hidl2 Hnd2]%NoDup_cons).
  assert (Hidl1 : id ∉ l1) by (intros Hin; apply (Hd id Hin); set_solver).
  unfold unlink. rewrite Hid. cbn [next prev]. set (links1 := set_link links id WaitLink_NONE).
  assert (H1 : ∀ j, j ≠ id → link links1 j = link links j) by (intros; apply link_set_ne; eauto).
  assert (Hid1 : link links1 id = Some WaitLink_NONE) by (apply link_set_eq; eauto).
  assert (HO1 : only_queue me links links1) by (eapply only_queue_set; [done|by right|by left]).
  pose proof (relink_prev links1 me l1 id (hd_or THREAD_NONE l2) (wq_head q)) as Hr. cbv zeta in Hr.
  destruct (match link links1 (last_or THREAD_NONE l1) with Some _ => _ | None => _ end) as [h links2].
  cbn [fst snd] in *. destruct Hr as (-> & Hk1 & H2 & HO2); [|done|set_solver|by rewrite Hhd, hd_or_app|].
  { eapply linked_frame; [|exact Hl1]. intros j Hj. apply H1. by intros ->. }
  pose proof (relink_next links2 me l2 id (last_or THREAD_NONE l1) (wq_tail q)) as Hr. cbv zeta in Hr.
  destruct (match link links2 (hd_or THREAD_NONE l2) with Some _ => _ | None => _ end) as [t links3].
  cbn [fst snd] in *. destruct Hr as (-> & Hk2 & H3 & HO3); [|done|set_solver| |].
  { eapply linked_frame; [|exact Hl2]. intros j Hj. rewrite H2; [apply H1; by intros ->|].
    intros Hj1. apply (Hd j Hj1). set_solver. }
  { rewrite Htl. unfold last_or. rewrite last_app, last_cons. by destruct (last l2). }
  rewrite Hlen. rewrite subc_ret by zlia. cbn [obind]. eexists _, links3. split; [done|].
  split; [|eapply only_queue_trans; [done|]; by eapply only_queue_trans]. split; simpl.
  - by rewrite hd_or_app.
  - unfold last_or. rewrite last_app. by destruct (last l2).
  - zlia.
  - apply linked_app. split; [|done]. eapply linked_frame; [|exact Hk1]. intros j Hj. apply H3.
    intros Hj2. apply (Hd j Hj). set_solver.
  - intros j y Hj Ho. destruct (decide (j ∈ l1)) as [|Hj1]; [set_solver|].
    destruct (decide (j ∈ l2)) as [|Hj2]; [set_solver|]. rewrite H3, H2 in Hj by done.
    destruct (decide (j = id)) as [->|Hne]; [simplify_eq; simpl in Hme; lia|].
    rewrite H1 in Hj by done. specialize (Hon j y Hj Ho). set_solver.
  - apply NoDup_app. split_and!; [done| |done]. intros j Hj Hj2. apply (Hd j Hj). set_solver.
  - set_solver.
Qed.

Lemma dequeue_spec me q links l :
  wq_rep me q links l → me ≠ 0 → zlen l < 2 ^ 62 →
  ∃ q' links', dequeue q links = Ret (head l, q', links') ∧ wq_rep me q' links' (tail l) ∧ only_queue me links links'.
Proof.
  intros HR Hme Hcap. unfold dequeue, is_none. rewrite (wqr_head _ _ _ _ HR). destruct l as [|id l].
  { exists q, links. done. }
  change (hd_or THREAD_NONE (id :: l)) with id. pose proof (wqr_ids _ _ _ _ HR) as Hn.
  rewrite (proj2 (Z.eqb_neq id _)) by set_solver.
  destruct (wq_unlink_spec me q links [] id l HR Hme Hcap) as (q' & links' & -> & HR' & HO). simpl. eauto.
Qed.

Lemma wq_contains_spec me q links l id : wq_rep me q links l → wq_contains me id links = bool_decide (id ∈ l).
Proof.
  intros HR. unfold wq_contains. symmetry. destruct (link links id) as [lk|] eqn:E.
  - destruct (Z.eqb_spec (on lk) me) as [Ho|Ho].
    + apply bool_decide_true. by eapply wqr_on.
    + apply bool_decide_false. by eapply rep_notin.
  - apply bool_decide_false. intros Hin.
    destruct (linked_on _ _ _ _ _ _ (wqr_linked _ _ _ _ HR) Hin) as (? & ? & _). congruence.
Qed.

Lemma wq_remove_spec me q links l id :
  wq_rep me q links l → me ≠ 0 → zlen l < 2 ^ 62 →
  ∃ q' links', wq_remove me id q links = Ret (bool_decide (id ∈ l), q', links') ∧
    wq_rep me q' links' (without id l) ∧ only_queue me links links'.
Proof.
  intros HR Hme Hcap. unfold wq_remove, is_none. pose proof (wqr_ids _ _ _ _ HR) as Hn.
  rewrite (wq_contains_spec _ _ _ _ _ HR). destruct (decide (id ∈ l)) as [Hin|Hnin]; last first.
  { rewrite bool_decide_false, orb_true_r, without_notin by done. exists q, links. done. }
  rewrite bool_decide_true, (proj2 (Z.eqb_neq id _)) by set_solver. cbn [negb orb].
  apply list_elem_of_split in Hin as (l1 & l2 & ->).
  destruct (wq_unlink_spec me q links l1 id l2 HR Hme Hcap) as (q' & links' & -> & HR' & HO).
  rewrite without_middle by apply HR. simpl. eauto.
Qed.
End links.

(** ** The queues of a system *)
Section queues.
Context {L : Type} `{!WaitLinks L}.

Inductive wait_op := WEnqueue (me id : Z) | WDequeue (me : Z) | WRemove (me id : Z).
Inductive wait_out := WUnit | WTaken (id : option Z) | WFound (found : bool).

(** The queues by address; one never written to is a new one. *)
Record queues := mkQueues { at_addr : gmap Z WaitQueue; the_links : L }.
Definition queue_at (s : queues) (me : Z) : WaitQueue := default WaitQueue_new (at_addr s !! me).

Definition wait_step (o : wait_op) (s : queues) : outcome (wait_out * queues) :=
  match o with
  | WEnqueue me id =>
      r <~ enqueue me id (queue_at s me) (the_links s);;
      Ret (WUnit, mkQueues (<[me := fst r]> (at_addr s)) (snd r))
  | WDequeue me =>
      r <~ dequeue (queue_at s me) (the_links s);;
      let '(id, q, links) := r in Ret (WTaken id, mkQueues (<[me := q]> (at_addr s)) links)
  | WRemove me id =>
      r <~ wq_remove me id (queue_at s me) (the_links s);;
      let '(b, q, links) := r in Ret (WFound b, mkQueues (<[me := q]> (at_addr s)) links)
  end.

(** The waiters of each queue, in order, when the threads are [K]. *)
Definition waiters (m : gmap Z (list Z)) (me : Z) : list Z := default [] (m !! me).
Definition waits (m : gmap Z (list Z)) (id : Z) : bool :=
  existsb (λ e : Z * list Z, bool_decide (id ∈ e.2)) (map_to_list m).

Definition fifos_step (K : gset Z) (o : wait_op) (m : gmap Z (list Z)) : outcome (wait_out * gmap Z (list Z)) :=
  match o with
  | WEnqueue me id =>
      if id =? THREAD_NONE then Panic (PAssert "wait: enqueue NONE")
      else if bool_decide (id ∉ K) then Panic (PAssert "wait: enqueue of unknown thread")
      else if bool_decide (id ∈ waiters m me) then Ret (WUnit, m)
      else if waits m id then Panic (PAssert "wait: thread on two queues")
      else Ret (WUnit, <[me := waiters m me ++ [id]]> m)
  | WDequeue me => Ret (WTaken (head (waiters m me)), <[me := tail (waiters m me)]> m)
  | WRemove me id =>
      Ret (WFound (bool_decide (id ∈ waiters m me)), <[me := without id (waiters m me)]> m)
  end.

Definition op_addr (o : wait_op) : Z :=
  match o with WEnqueue me _ | WDequeue me | WRemove me _ => me end.

Record queues_rep (K : gset Z) (s : queues) (m : gmap Z (list Z)) : Prop := {
  qsr_queue : ∀ me, me ≠ 0 → wq_rep me (queue_at s me) (the_links s) (waiters m me);
  qsr_zero : m !! 0 = None;
  qsr_threads : ∀ id, is_Some (link (the_links s) id) ↔ id ∈ K
}.

Lemma waiters_bound K s m me : queues_rep K s m → me ≠ 0 → zlen (waiters m me) ≤ Z.of_nat (size K).
Proof.
  intros HQ Hme. pose proof (qsr_queue _ _ _ HQ me Hme) as HR. apply nodup_size; [apply HR|].
  intros id Hid. apply (qsr_threads _ _ _ HQ).
  destruct (linked_on _ _ _ _ _ _ (wqr_linked _ _ _ _ HR) Hid) as (lk & Hlk & _). eauto.
Qed.

Lemma waits_spec K s m id lk :
  queues_rep K s m → link (the_links s) id = Some lk → waits m id = negb (on lk =? 0).
Proof.
  intros HQ Hlk. unfold waits. destruct (Z.eqb_spec (on lk) 0) as [Ho|Ho]; simpl.
  - apply not_true_is_false. intros ([me l] & Hin & Hid%bool_decide_eq_true)%existsb_exists.
    apply list_elem_of_In, elem_of_map_to_list in Hin. simpl in Hid.
    assert (me ≠ 0) as Hme by (intros ->; by rewrite (qsr_zero _ _ _ HQ) in Hin).
    pose proof (qsr_queue _ _ _ HQ me Hme) as HR. unfold waiters in HR. rewrite Hin in HR. simpl in HR.
    eapply (rep_notin _ _ _ _ id lk HR); [done|lia|done].
  - apply existsb_exists. pose proof (qsr_queue _ _ _ HQ _ Ho) as HR.
    pose proof (wqr_on _ _ _ _ HR id lk Hlk eq_refl) as Hin. unfold waiters in Hin.
    destruct (m !! on lk) as [l|] eqn:E; [|simpl in Hin; set_solver].
    exists (on lk, l). split; [by apply list_elem_of_In, elem_of_map_to_list|]. by apply bool_decide_eq_true.
Qed.

Lemma queues_update K s m me q' links' l' :
  queues_rep K s m → me ≠ 0 → wq_rep me q' links' l' → only_queue me (the_links s) links' →
  queues_rep K (mkQueues (<[me := q']> (at_addr s)) links') (<[me := l']> m).
Proof.
  intros HQ Hme HR [HS HK]. split; simpl.
  - intros a Ha. unfold queue_at, waiters. simpl. destruct (decide (a = me)) as [->|Hne].
    + by rewrite !lookup_insert_eq.
    + rewrite !lookup_insert_ne by done. eapply wq_rep_keeps; [by apply HK|]. by apply (qsr_queue _ _ _ HQ).
  - rewrite lookup_insert_ne by done. apply HQ.
  - intros id. rewrite <-(HS id). apply HQ.
Qed.

Lemma queues_same K s m me : queues_rep K s m → queues_rep K (mkQueues (<[me := queue_at s me]> (at_addr s)) (the_links s)) m.
Proof.
  intros HQ. split; [|apply HQ..]. intros a Ha. unfold queue_at. simpl. destruct (decide (a = me)) as [->|Hne].
  - rewrite lookup_insert_eq. simpl. by apply HQ.
  - rewrite lookup_insert_ne by done. by apply HQ.
Qed.

(** An operation on a queue with an address. *)
Lemma wait_lockstep K o s m :
  Z.of_nat (size K) < 2 ^ 62 → op_addr o ≠ 0 → queues_rep K s m →
  match fifos_step K o m with
  | Ret (out, m') => ∃ s', wait_step o s = Ret (out, s') ∧ queues_rep K s' m'
  | Panic p => wait_step o s = Panic p
  | _ => False
  end.
Proof.
  intros HK Ha HQ. pose proof (waiters_bound K s m (op_addr o) HQ Ha) as Hb.
  pose proof (qsr_queue _ _ _ HQ (op_addr o) Ha) as HR.
  destruct o as [me id|me|me id]; cbn [op_addr fifos_step wait_step] in *.
  - destruct (Z.eqb_spec id THREAD_NONE) as [->|Hid]; [done|].
    assert (Hni : is_none id = false) by (by apply Z.eqb_neq).
    destruct (link (the_links s) id) as [lk|] eqn:Hlk; last first.
    { rewrite bool_decide_true; [unfold enqueue; by rewrite Hni, Hlk|].
      rewrite <-(qsr_threads _ _ _ HQ), Hlk. by intros []. }
    rewrite bool_decide_false by (rewrite <-(qsr_threads _ _ _ HQ), Hlk; eauto).
    rewrite (waits_spec K s m id lk HQ Hlk), <-(wq_contains_spec _ _ _ _ _ HR).
    unfold wq_contains. rewrite Hlk. destruct (Z.eqb_spec (on lk) me) as [Ho|Ho].
    { unfold enqueue. rewrite Hni, Hlk, Ho, Z.eqb_refl. cbn. eexists. split; [done|]. by apply queues_same. }
    destruct (Z.eqb_spec (on lk) 0) as [H0|H0]; cbn [negb].
    + destruct (enqueue_spec me _ _ _ id lk HR) as (q' & links' & -> & HR' & HO); [done|lia|done..|].
      cbn. eexists. split; [done|]. by apply queues_update.
    + unfold enqueue. rewrite Hni, Hlk. cbn. by rewrite (proj2 (Z.eqb_neq _ _) Ho), (proj2 (Z.eqb_neq _ _) H0).
  - destruct (dequeue_spec me _ _ _ HR) as (q' & links' & -> & HR' & HO); [done|lia|].
    cbn. eexists. split; [done|]. by apply queues_update.
  - destruct (wq_remove_spec me _ _ _ id HR) as (q' & links' & -> & HR' & HO); [done|lia|].
    cbn. eexists. split; [done|]. by apply queues_update.
Qed.

Lemma wait_outputs K os s m :
  Z.of_nat (size K) < 2 ^ 62 → Forall (λ o, op_addr o ≠ 0) os → queues_rep K s m →
  outputs wait_step os s = outputs (fifos_step K) os m.
Proof.
  intros HK. revert s m. induction os as [|o os IH]; intros s m Ha HQ; [done|].
  apply Forall_cons in Ha as [Ha Has]. cbn [outputs]. pose proof (wait_lockstep K o s m HK Ha HQ) as Hs.
  destruct (fifos_step K o m) as [[out m']|p| |]; [|by rewrite Hs|done|done].
  destruct Hs as (s' & -> & HQ'). f_equal. by apply IH.
Qed.

(** Threads none of which is on a queue. *)
Definition idle_links (K : gset Z) (links : L) : Prop :=
  ∀ id, link links id = if bool_decide (id ∈ K) then Some WaitLink_NONE else None.

Lemma idle_rep K links : idle_links K links → queues_rep K (mkQueues ∅ links) ∅.
Proof.
  intros Hi. split; simpl.
  - intros me Hme. unfold queue_at, waiters. rewrite !lookup_empty. simpl. split; simpl; try (done || apply NoDup_nil_2 || set_solver).
    intros id lk Hlk Ho. rewrite Hi in Hlk. by case_bool_decide; simplify_eq.
  - apply lookup_empty.
  - intros id. rewrite Hi. by case_bool_decide.
Qed.

(** C15: the wait queues of a system behave as first-in first-out lists that
    share its threads: from threads on no queue, whatever sequence of
    enqueues, dequeues and removals is made on queues at any addresses, through
    any implementation of the [WaitLinks] interface, every output is the one
    the lists give; a thread enqueued twice on one queue keeps its place, and
    the only panics are for the null id, an id that names no thread and a
    thread that is on another queue. *)
Theorem wait_queues_are_fifos K links os :
  idle_links K links → Z.of_nat (size K) < 2 ^ 62 → Forall (λ o, op_addr o ≠ 0) os →
  outputs wait_step os (mkQueues ∅ links) = outputs (fifos_step K) os ∅.
Proof. intros Hi HK Ha. apply (wait_outputs K); [done..|]. by apply idle_rep. Qed.
End queues.
Arguments queues : clear implicits.
Arguments mkQueues {L}.

(** The links as a map from the threads, which the thread table gives the
    scheduler. *)
#[export] Program Instance map_links : WaitLinks (gmap Z WaitLink) := {
  link m i := m !! i;
  set_link m i x := <[i := x]> m
}.
Next Obligation.
  intros m i x j _. destruct (Z.eqb_spec j i) as [->|Hne]; [apply lookup_insert_eq|by apply lookup_insert_ne].
Qed.

Definition demo_links : gmap Z WaitLink := list_to_map [(4, WaitLink_NONE); (5, WaitLink_NONE); (6, WaitLink_NONE)].
Definition demo_wait_ops : list wait_op :=
  [WEnqueue 4096 4; WEnqueue 4096 5; WEnqueue 8192 6; WEnqueue 4096 4; WRemove 4096 4; WEnqueue 8192 4;
   WDequeue 4096; WDequeue 8192; WDequeue 4096; WEnqueue 4096 4].

Lemma wait_queues_are_fifos_witness :
  outputs wait_step demo_wait_ops (mkQueues ∅ demo_links) = outputs (fifos_step {[4; 5; 6]}) demo_wait_ops ∅ ∧
  outputs wait_step demo_wait_ops (mkQueues ∅ demo_links) =
    [Ret WUnit; Ret WUnit; Ret WUnit; Ret WUnit; Ret (WFound true); Ret WUnit; Ret (WTaken (Some 5));
     Ret (WTaken (Some 6)); Ret (WTaken None); Panic (PAssert "wait: thread on two queues")].
Proof.
  split; [|vm_compute; reflexivity]. apply (wait_queues_are_fifos {[4; 5; 6]}).
  - intros id. simpl. case_bool_decide as Hid.
    + assert (id = 4 ∨ id = 5 ∨ id = 6) as [->|[->| ->]] by set_solver; done.
    + apply not_elem_of_dom. unfold demo_links. rewrite dom_list_to_map_L. set_solver.
  - vm_compute. reflexivity.
  - repeat constructor; done.
Defined.
