(* ===== verification/WaitWake.v ===== *)
(** * Waiting and waking

    [begin_wait], [wake_one] and [wake_all] of src/crates/core/src/sched/wait.rs
    move threads between a wait queue, the ready queue and the timeouts of
    src/crates/core/src/sched/mod.rs; this file composes the refinements of the
    three. *)

From stdpp Require Import base gmap list numbers strings.
From S2P Require Import Prelude Trace Ring Sched SchedReady SchedTimeout Wait WaitSpec.

Local Open Scope Z_scope.

Import Sched Wait.

Section wake.
Context {L : Type} `{!WaitLinks L}.
Implicit Types (links : L).

(** What the three queues stand for: the waiters [l], the ready threads [r]
    and the deadlines [m]. *)
Record sched_rep (me : Z) (q : WaitQueue) links (rq : ReadyQueue) (tq : TimeoutQueue)
    (l r : list Z) (m : gmap Z Z) : Prop := {
  sr_wait : wq_rep me q links l;
  sr_ready : rq_rep rq r;
  sr_timeouts : timeouts tq m
}.

Lemma tq_remove_map tq m id :
  timeouts tq m → ∃ tq', tq_remove id tq = Ret (bool_decide (id ∈ dom m), tq') ∧ timeouts tq' (delete id m) ∧
    zlen (items tq') = zlen (items tq).
Proof.
  intros (l & HT & <-). pose proof (tqr_nodup _ _ HT) as Hn.
  destruct (tq_remove_spec tq l id HT) as (tq' & -> & HT' & Hl). exists tq'. split_and!; [|by eexists; rewrite <-tmap_drop by done|done].
  do 2 f_equal. apply bool_decide_ext. by apply tmap_dom.
Qed.

Lemma fresh_one r id : r ++ fresh r [id] = if bool_decide (id ∈ r) then r else r ++ [id].
Proof. rewrite fresh_push by set_solver. apply app_nil_r. Qed.

Lemma wake_one_spec me q links rq tq l r m :
  sched_rep me q links rq tq l r m → me ≠ 0 → zlen l < 2 ^ 62 →
  (∀ id, head l = Some id → id ∈ r ∨ zlen r < zlen (rq_buf rq)) →
  ∃ q' links' rq' tq', wake_one q links rq tq = Ret (head l, q', links', rq', tq') ∧
    sched_rep me q' links' rq' tq' (tail l) (r ++ fresh r (take 1 l)) (match l with id :: _ => delete id m | [] => m end) ∧
    only_queue me links links' ∧ zlen (rq_buf rq') = zlen (rq_buf rq) ∧ zlen (items tq') = zlen (items tq).
Proof.
  intros [HW HR HT] Hme Hcap Hroom. unfold wake_one, take_one.
  destruct (dequeue_spec me q links l HW Hme Hcap) as (q' & links' & -> & HW' & HO). cbn [obind].
  destruct l as [|id l]; cbn [head tail take] in *.
  { cbn. exists q', links', rq, tq. rewrite app_nil_r. done. }
  destruct (tq_remove_map tq m id HT) as (tq' & -> & HT' & Hlt). cbn [obind snd].
  destruct (push_back_spec rq r id HR) as (rq' & -> & HR' & Hl).
  { intros ->. by apply (wqr_ids _ _ _ _ HW), elem_of_cons; left. }
  { by apply Hroom. }
  cbn [obind]. exists q', links', rq', tq'. split; [done|]. split; [|done]. split; [done| |done].
  by rewrite fresh_one.
Qed.

(** Deadlines of the threads not in [l]. *)
Definition except (l : list Z) (m : gmap Z Z) : gmap Z Z := filter (λ e, e.1 ∉ l) m.

Lemma except_cons id l m : except (id :: l) m = except l (delete id m).
Proof.
  apply map_eq. intros j. apply option_eq. intros d. unfold except.
  rewrite !map_lookup_filter_Some, lookup_delete_Some. simpl. set_solver.
Qed.

Lemma except_nil m : except [] m = m.
Proof. unfold except. apply map_filter_id. intros i x _. simpl. set_solver. Qed.

Lemma wake_all_spec fuel n me q links rq tq l r m :
  (length l < fuel)%nat → sched_rep me q links rq tq l r m → me ≠ 0 →
  zlen (r ++ fresh r l) ≤ zlen (rq_buf rq) → 0 ≤ n → n + zlen l < 2 ^ 62 →
  ∃ q' links' rq' tq', wake_all_from fuel n q links rq tq = Ret (l, n + zlen l, q', links', rq', tq') ∧
    sched_rep me q' links' rq' tq' [] (r ++ fresh r l) (except l m) ∧
    only_queue me links links' ∧ zlen (rq_buf rq') = zlen (rq_buf rq) ∧ zlen (items tq') = zlen (items tq).
Proof.
  revert n q links rq tq l r m. induction fuel as [|fuel IH]; intros n q links rq tq l r m Hf HS Hme Hroom Hn Hmax; [lia|].
  cbn [wake_all_from]. destruct (wake_one_spec me q links rq tq l r m HS Hme) as (q1 & links1 & rq1 & tq1 & -> & HS1 & HO1 & Hl1 & Ht1).
  { zlia. }
  { intros id Hid. destruct (decide (id ∈ r)) as [|Hnin]; [by left|right]. destruct l as [|x l]; [done|]. injection Hid as ->.
    unfold fresh in Hroom. rewrite filter_cons_True in Hroom by done. zlia. }
  cbn [obind]. destruct l as [|id l]; cbn [head tail take] in *.
  { exists q1, links1, rq1, tq1. rewrite except_nil. change (fresh r []) with (@nil Z) in *.
    replace (n + zlen []) with n by zlia. done. }
  rewrite addc_ret by zlia. cbn [obind].
  pose proof (wqr_nodup _ _ _ _ (sr_wait _ _ _ _ _ _ _ _ HS)) as [Hidl _]%NoDup_cons.
  assert (Hfr : r ++ fresh r (id :: l) = (r ++ fresh r [id]) ++ fresh (r ++ fresh r [id]) l).
  { by rewrite fresh_push, fresh_one. }
  destruct (IH (n + 1) q1 links1 rq1 tq1 l (r ++ fresh r [id]) (delete id m) ltac:(simpl in Hf; lia) HS1 Hme)
    as (q' & links' & rq' & tq' & -> & HS' & HO' & Hl' & Ht'); [rewrite <-Hfr; lia|lia|zlia|].
  cbn [obind]. exists q', links', rq', tq'. replace (n + zlen (id :: l)) with (n + 1 + zlen l) by zlia.
  split; [done|]. rewrite Hfr, except_cons. split_and!; [done|by eapply only_queue_trans|lia|lia].
Qed.

(** ** begin_wait *)
Lemma tq_insert_map tq m id d :
  timeouts tq m → id ≠ THREAD_NONE → id ∈ dom m ∨ Z.of_nat (size m) < zlen (items tq) →
  ∃ tq', tq_insert id d tq = Ret tq' ∧ timeouts tq' (<[id := d]> m) ∧ zlen (items tq') = zlen (items tq).
Proof.
  intros (l & HT & <-) Hid Hroom.
  pose proof (insert_simulates (zlen (items tq)) tq l id d HT eq_refl) as Hs. cbn [timeout_step] in Hs.
  destruct (tq_insert id d tq) as [tq'|p| |]; cbn [obind] in Hs; try done.
  - destruct Hs as (m' & Hsp & [HT' Hl]). exists tq'. inversion Hsp; subst. done.
  - exfalso. inversion Hs; subst; [done|]. destruct Hroom; [done|lia].
Qed.

Lemma begin_wait_spec me id d q links rq tq l r m lk :
  sched_rep me q links rq tq l r m → me ≠ 0 → zlen l < 2 ^ 62 → id ≠ THREAD_NONE →
  link links id = Some lk → on lk = 0 ∨ on lk = me →
  id ∈ dom m ∨ Z.of_nat (size m) < zlen (items tq) →
  ∃ q' links' rq' tq', begin_wait me id d q links rq tq = Ret (q', links', rq', tq') ∧
    sched_rep me q' links' rq' tq' (if bool_decide (id ∈ l) then l else l ++ [id]) (without id r) (<[id := d]> m) ∧
    only_queue me links links' ∧ zlen (rq_buf rq') = zlen (rq_buf rq) ∧ zlen (items tq') = zlen (items tq).
Proof.
  intros [HW HR HT] Hme Hcap Hid Hlk Hon Hroom. unfold begin_wait.
  assert (∃ q' links', enqueue me id q links = Ret (q', links') ∧
    wq_rep me q' links' (if bool_decide (id ∈ l) then l else l ++ [id]) ∧ only_queue me links links')
    as (q' & links' & -> & HW' & HO).
  { destruct Hon as [Ho|Ho].
    - assert (id ∉ l) by (eapply rep_notin; [done..|lia]). rewrite bool_decide_false by done.
      by eapply enqueue_spec.
    - rewrite bool_decide_true by (by eapply wqr_on). exists q, links. split; [|done].
      unfold enqueue. assert (is_none id = false) as -> by (by apply Z.eqb_neq). by rewrite Hlk, Ho, Z.eqb_refl. }
  cbn [obind]. destruct (remove_spec rq r id HR) as (rq' & -> & HR' & Hl). cbn [obind].
  destruct (tq_insert_map tq m id d HT Hid Hroom) as (tq' & -> & HT' & Hlt). cbn [obind fst snd].
  exists q', links', rq', tq'. done.
Qed.

(** ** The scheduler's steps on one wait queue *)
Record world := mkWorld { w_wq : WaitQueue; w_links : L; w_ready : ReadyQueue; w_timeouts : TimeoutQueue }.

Inductive act :=
  | ABegin (id deadline : Z)  (* [id] waits, or waits again with another deadline *)
  | ASleep (id deadline : Z)  (* a timeout with no wait *)
  | AWakeOne
  | AWakeAll
  | ATick (now : Z)           (* timeouts expire; [on_wake] unlinks the waiter *)
  | APick                     (* the next thread leaves the ready queue *)
  | AYield (id : Z).          (* [id] is made runnable unless it is blocked *)

Fixpoint unlink_all (me : Z) (ids : list Z) (q : WaitQueue) links : outcome (WaitQueue * L) :=
  match ids with
  | [] => Ret (q, links)
  | id :: ids => r <~ wq_remove me id q links;; let '(_, q, links) := r in unlink_all me ids q links
  end.

Definition act_step (me idle : Z) (a : act) (w : world) : outcome world :=
  let '(mkWorld q links rq tq) := w in
  match a with
  | ABegin id d =>
      r <~ begin_wait me id d q links rq tq;; let '(q, links, rq, tq) := r in Ret (mkWorld q links rq tq)
  | ASleep id d => tq <~ tq_insert id d tq;; Ret (mkWorld q links rq tq)
  | AWakeOne => r <~ wake_one q links rq tq;; let '(_, q, links, rq, tq) := r in Ret (mkWorld q links rq tq)
  | AWakeAll => r <~ wake_all q links rq tq;; let '(_, _, q, links, rq, tq) := r in Ret (mkWorld q links rq tq)
  | ATick now =>
      r <~ wake_expired now tq rq;; let '(ids, _, tq, rq) := r in
      r <~ unlink_all me ids q links;; Ret (mkWorld (fst r) (snd r) rq tq)
  | APick => r <~ take_next idle rq;; Ret (mkWorld q links (snd r) tq)
  | AYield id =>
      let state := if wq_contains me id links then Blocked me FAR_DEADLINE else Running in
      rq <~ enqueue_runnable id idle state rq;; Ret (mkWorld q links rq tq)
  end.

Fixpoint act_run (me idle : Z) (acts : list act) (w : world) : outcome world :=
  match acts with
  | [] => Ret w
  | a :: acts => w <~ act_step me idle a w;; act_run me idle acts w
  end.

Definition act_id (a : act) : option Z :=
  match a with ABegin id _ | ASleep id _ | AYield id => Some id | _ => None end.

(** Every waiter has a timeout and is not runnable; the queues have room for
    the threads [K]. *)
Record world_ok (me : Z) (K : gset Z) (w : world) (l r : list Z) (m : gmap Z Z) : Prop := {
  wo_rep : sched_rep me (w_wq w) (w_links w) (w_ready w) (w_timeouts w) l r m;
  wo_timed : ∀ id, id ∈ l → id ∈ dom m;
  wo_blocked : ∀ id, id ∈ l → id ∉ r;
  wo_threads : (∀ id, id ∈ l → id ∈ K) ∧ (∀ id, id ∈ r → id ∈ K) ∧ dom m ⊆ K;
  wo_links : ∀ id, id ∈ K → ∃ lk, link (w_links w) id = Some lk ∧ (on lk = 0 ∨ on lk = me);
  wo_room : Z.of_nat (size K) ≤ zlen (rq_buf (w_ready w)) ∧ Z.of_nat (size K) ≤ zlen (items (w_timeouts w))
}.

Lemma only_queue_links me links links' (K : gset Z) :
  only_queue me links links' → me ≠ 0 →
  (∀ id, id ∈ K → ∃ lk, link links id = Some lk ∧ (on lk = 0 ∨ on lk = me)) →
  ∀ id, id ∈ K → ∃ lk, link links' id = Some lk ∧ (on lk = 0 ∨ on lk = me).
Proof.
  intros [HS HK] Hme HL id Hid. destruct (HL id Hid) as (lk & Hlk & Ho).
  destruct (proj1 (HS id)) as [lk' Hlk']; [eauto|]. exists lk'. split; [done|].
  destruct (decide (on lk' = 0)) as [|H0]; [by left|]. destruct (decide (on lk' = me)) as [|Hne]; [by right|].
  apply (HK (on lk') H0 Hne id lk' eq_refl) in Hlk'. simplify_eq. done.
Qed.

Lemma unlink_all_spec me ids q links l :
  wq_rep me q links l → me ≠ 0 → zlen l < 2 ^ 62 →
  ∃ q' links' l', unlink_all me ids q links = Ret (q', links') ∧ wq_rep me q' links' l' ∧
    (∀ id, id ∈ l' ↔ id ∈ l ∧ id ∉ ids) ∧ only_queue me links links'.
Proof.
  revert q links l. induction ids as [|x ids IH]; intros q links l HW Hme Hcap.
  { exists q, links, l. split_and!; [done|done|set_solver|apply only_queue_refl]. }
  cbn [unlink_all]. destruct (wq_remove_spec me q links l x HW Hme Hcap) as (q1 & links1 & -> & HW1 & HO1). cbn [obind].
  destruct (IH q1 links1 (without x l) HW1 Hme) as (q' & links' & l' & -> & HW' & Hl' & HO').
  { pose proof (length_filter (λ y, y ≠ x) l). unfold without. zlia. }
  exists q', links', l'. split_and!; [done|done| |by eapply only_queue_trans].
  intros id. rewrite Hl'. unfold without. rewrite list_elem_of_filter. set_solver.
Qed.

(** ** Every step keeps every waiter timed and blocked *)
Section steps.
Context (me idle : Z) (K : gset Z) (Hme : me ≠ 0) (HK : Z.of_nat (size K) < 2 ^ 62) (HN : THREAD_NONE ∉ K).

Definition steps_ok (a : act) (w : world) : Prop :=
  ∃ w' l' r' m', act_step me idle a w = Ret w' ∧ world_ok me K w' l' r' m'.

Lemma wo_len w l r m : world_ok me K w l r m → zlen l ≤ Z.of_nat (size K).
Proof. intros HO. apply nodup_size; [apply (sr_wait _ _ _ _ _ _ _ _ (wo_rep _ _ _ _ _ _ HO))|apply HO]. Qed.

Lemma ready_room w l r m id :
  world_ok me K w l r m → id ∈ K → id ∈ r ∨ zlen r < zlen (rq_buf (w_ready w)).
Proof.
  intros HO Hid. destruct (decide (id ∈ r)) as [|Hn]; [by left|right].
  enough (zlen (r ++ [id]) ≤ Z.of_nat (size K)) by (destruct (wo_room _ _ _ _ _ _ HO); zlia).
  apply nodup_size; [|destruct (wo_threads _ _ _ _ _ _ HO); set_solver].
  apply NoDup_app. split_and!; [apply (sr_ready _ _ _ _ _ _ _ _ (wo_rep _ _ _ _ _ _ HO))| |apply NoDup_singleton].
  by intros x Hx ->%list_elem_of_singleton.
Qed.

Lemma timeout_room w l r m id :
  world_ok me K w l r m → id ∈ K → id ∈ dom m ∨ Z.of_nat (size m) < zlen (items (w_timeouts w)).
Proof.
  intros HO Hid. destruct (decide (id ∈ dom m)) as [|Hn]; [by left|right].
  destruct (wo_threads _ _ _ _ _ _ HO) as (_ & _ & Hm). destruct (wo_room _ _ _ _ _ _ HO) as [_ Hr].
  assert (Hs : (size ({[id]} ∪ dom m) ≤ size K)%nat) by (apply subseteq_size; set_solver).
  rewrite size_union, size_singleton, size_dom in Hs by set_solver. lia.
Qed.

Lemma fresh_room w l r m ids :
  world_ok me K w l r m → NoDup ids → (∀ id, id ∈ ids → id ∈ K) → zlen (r ++ fresh r ids) ≤ zlen (rq_buf (w_ready w)).
Proof.
  intros HO Hnd Hids. destruct (wo_room _ _ _ _ _ _ HO) as [Hr _]. etransitivity; [|exact Hr].
  apply nodup_size.
  - apply fresh_nodup; [apply (sr_ready _ _ _ _ _ _ _ _ (wo_rep _ _ _ _ _ _ HO))|done].
  - destruct (wo_threads _ _ _ _ _ _ HO) as (_ & Hrk & _).
    intros x [Hx|[_ Hx]%list_elem_of_filter]%elem_of_app; auto.
Qed.

Lemma begin_ok w l r m id d : world_ok me K w l r m → id ∈ K → steps_ok (ABegin id d) w.
Proof.
  intros HO Hid. destruct (wo_links _ _ _ _ _ _ HO id Hid) as (lk & Hlk & Hon). pose proof (wo_len _ _ _ _ HO).
  destruct (begin_wait_spec me id d _ _ _ _ l r m lk (wo_rep _ _ _ _ _ _ HO)) as (q & links & rq & tq & Hrun & HS & HQ & H1 & H2);
    [done|lia|set_solver|done|done|by eapply timeout_room|].
  destruct w as [wq wl wr wt]. unfold steps_ok. cbn [act_step w_wq w_links w_ready w_timeouts] in *. rewrite Hrun. cbn [obind].
  destruct HO as [_ Ht Hb (Hk1 & Hk2 & Hk3) HL [Hr1 Hr2]]. cbn in *.
  eexists _, _, _, _. split; [done|]. split; cbn; [exact HS|..|by eapply only_queue_links|lia].
  - intros x Hx. rewrite dom_insert. case_bool_decide; set_solver.
  - intros x Hx Hxr. unfold without in Hxr. apply list_elem_of_filter in Hxr as [Hne Hxr]. case_bool_decide; set_solver.
  - rewrite dom_insert. unfold without. split_and!; [case_bool_decide; set_solver| |set_solver].
    intros x [_ Hx]%list_elem_of_filter. auto.
Qed.

Lemma sleep_ok w l r m id d : world_ok me K w l r m → id ∈ K → steps_ok (ASleep id d) w.
Proof.
  intros HO Hid. destruct (tq_insert_map (w_timeouts w) m id d) as (tq & Hrun & HT & Hl);
    [apply (wo_rep _ _ _ _ _ _ HO)|set_solver|by eapply timeout_room|].
  destruct w as [wq wl wr wt]. unfold steps_ok. cbn in *. rewrite Hrun. cbn [obind].
  destruct HO as [[HW HR _] Ht Hb (Hk1 & Hk2 & Hk3) HL [Hr1 Hr2]]. cbn in *.
  exists (mkWorld wq wl wr tq), l, r, (<[id := d]> m). split; [done|]. split; cbn; try done; [|split_and!; set_solver|lia].
  intros x Hx. rewrite dom_insert. set_solver.
Qed.

Lemma wake_one_ok w l r m : world_ok me K w l r m → steps_ok AWakeOne w.
Proof.
  intros HO. pose proof (wo_len _ _ _ _ HO). destruct (wo_threads _ _ _ _ _ _ HO) as (Hk1 & Hk2 & Hk3).
  destruct (wake_one_spec me _ _ _ _ l r m (wo_rep _ _ _ _ _ _ HO)) as (q & links & rq & tq & Hrun & HS & HQ & H1 & H2); [done|lia| |].
  { intros id Hid. apply (ready_room w l r m); [done|]. apply Hk1. by destruct l; simplify_eq/=; left. }
  destruct w as [wq wl wr wt]. unfold steps_ok. cbn [act_step w_wq w_links w_ready w_timeouts] in *. rewrite Hrun. cbn [obind].
  pose proof (wqr_nodup _ _ _ _ (sr_wait _ _ _ _ _ _ _ _ (wo_rep _ _ _ _ _ _ HO))) as Hnd.
  destruct HO as [_ Ht Hb _ HL [Hr1 Hr2]]. cbn in *.
  eexists _, _, _, _. split; [done|]. split; cbn; [exact HS|..|by eapply only_queue_links|lia]; destruct l as [|x l]; cbn [tail take] in *.
  - set_solver.
  - apply NoDup_cons in Hnd as [Hx _]. intros y Hy. rewrite dom_delete. set_solver.
  - set_solver.
  - apply NoDup_cons in Hnd as [Hx _]. intros y Hy. rewrite fresh_one. case_bool_decide; set_solver.
  - rewrite app_nil_r. split_and!; set_solver.
  - rewrite fresh_one, dom_delete. split_and!; [set_solver| |set_solver]. case_bool_decide; set_solver.
Qed.

Lemma wake_all_ok w l r m : world_ok me K w l r m → steps_ok AWakeAll w.
Proof.
  intros HO. pose proof (wo_len _ _ _ _ HO). destruct (wo_threads _ _ _ _ _ _ HO) as (Hk1 & Hk2 & Hk3).
  pose proof (sr_wait _ _ _ _ _ _ _ _ (wo_rep _ _ _ _ _ _ HO)) as HW.
  destruct (wake_all_spec (S (length l)) 0 me _ _ _ _ l r m ltac:(lia) (wo_rep _ _ _ _ _ _ HO))
    as (q & links & rq & tq & Hrun & HS & HQ & H1 & H2); [done|eapply fresh_room; [done|apply HW|done]|lia|lia|].
  destruct w as [wq wl wr wt]. unfold steps_ok, wake_all. cbn [act_step w_wq w_links w_ready w_timeouts] in *.
  unfold wake_all. rewrite (wqr_len _ _ _ _ HW). unfold zlen at 1. rewrite Nat2Z.id, Hrun. cbn [obind].
  destruct HO as [_ Ht Hb _ HL [Hr1 Hr2]]. cbn in *.
  eexists _, _, _, _. split; [done|]. split; cbn; [exact HS|set_solver|set_solver|..|by eapply only_queue_links|lia].
  split_and!; [set_solver| |].
  - intros x [Hx|[_ Hx]%list_elem_of_filter]%elem_of_app; auto.
  - etransitivity; [|exact Hk3]. apply dom_filter_subseteq.
Qed.

Lemma tick_ok w l r m now : world_ok me K w l r m → steps_ok (ATick now) w.
Proof.
  intros HO. pose proof (wo_len _ _ _ _ HO). destruct (wo_threads _ _ _ _ _ _ HO) as (Hk1 & Hk2 & Hk3).
  destruct (wo_rep _ _ _ _ _ _ HO) as [HW HR (tl & HT & Hm)]. pose proof (tqr_nodup _ _ HT) as Hnd.
  assert (Hdue : ∀ id, id ∈ tids (due now tl) → id ∈ K).
  { intros id Hid. apply Hk3. rewrite <-Hm. by apply tmap_dom, due_tids with now. }
  pose proof (tq_bounds _ _ HT) as Hb0.
  destruct (wake_from_spec (S (Z.to_nat (tq_len (w_timeouts w)))) tl (w_timeouts w) (w_ready w) r now 0)
    as (tq & rq & Hrun & HT' & HR' & Hl & Hi); [rewrite (tqr_len _ _ HT); zlia|done|done| |lia|lia|].
  { eapply fresh_room; [done| |done]. eapply sublist_NoDup; [exact Hnd|]. apply fmap_sublist, sublist_filter. }
  destruct (unlink_all_spec me (tids (due now tl)) _ _ l HW Hme) as (q & links & l' & Hun & HW' & Hl' & HQ); [lia|].
  destruct w as [wq wl wr wt]. unfold steps_ok, wake_expired. cbn [act_step w_wq w_links w_ready w_timeouts] in *.
  unfold wake_expired. rewrite Hrun. cbn [obind]. rewrite Hun. cbn [obind fst snd].
  destruct HO as [_ Ht Hb _ HL [Hr1 Hr2]]. cbn in *.
  assert (Hpend : tmap (pending now tl) = filter (λ e, now < e.2) m) by (rewrite <-Hm; by apply tmap_pending).
  assert (Hp : ∀ id, id ∈ dom m → id ∉ tids (due now tl) → id ∈ dom (tmap (pending now tl))).
  { intros id Hid Hnot. rewrite <-Hm in Hid. apply tmap_dom, elem_of_tids in Hid as [d Hd]; [|done].
    rewrite <-tmap_dom by (eapply sublist_NoDup; [exact Hnd|]; apply fmap_sublist, sublist_filter).
    apply elem_of_tids. exists d. apply list_elem_of_filter. split; [|done]. intros Hle. apply Hnot.
    apply elem_of_tids. exists d. by apply list_elem_of_filter. }
  eexists _, l', _, (tmap (pending now tl)). split; [done|].
  split; cbn; [split; [done|exact HR'|by eexists]|..|by eapply only_queue_links|].
  - intros id [Hid Hnot]%Hl'. apply Hp; auto.
  - intros id [Hid Hnot]%Hl' [Hin|[_ Hin]%list_elem_of_filter]%elem_of_app; [by apply (Hb id)|done].
  - split_and!; [intros id [Hid _]%Hl'; auto| |].
    + intros x [Hx|[_ Hx]%list_elem_of_filter]%elem_of_app; auto.
    + rewrite Hpend. etransitivity; [|exact Hk3]. apply dom_filter_subseteq.
  - lia.
Qed.

Lemma pick_ok w l r m : world_ok me K w l r m → steps_ok APick w.
Proof.
  intros HO. destruct w as [wq wl wr wt]. unfold steps_ok, take_next. cbn [act_step].
  unfold take_next. destruct (wo_rep _ _ _ _ _ _ HO) as [HW HR HT]. pose proof (pop_front_spec wr r HR) as Hp.
  destruct r as [|id r].
  { cbn in Hp. rewrite Hp. cbn. exists (mkWorld wq wl wr wt), l, [], m. done. }
  destruct Hp as (rq & Hp & HR' & Hl). rewrite Hp. cbn.
  destruct HO as [_ Ht Hb (Hk1 & Hk2 & Hk3) HL [Hr1 Hr2]]. cbn in *.
  exists (mkWorld wq wl rq wt), l, r, m. split; [done|]. split; cbn; try done; [set_solver|split_and!; set_solver|lia].
Qed.

Lemma yield_ok w l r m id : world_ok me K w l r m → id ∈ K → steps_ok (AYield id) w.
Proof.
  intros HO Hid. destruct w as [wq wl wr wt]. unfold steps_ok, enqueue_runnable. cbn [act_step].
  unfold enqueue_runnable. destruct (wo_rep _ _ _ _ _ _ HO) as [HW HR HT].
  destruct ((id =? idle) || is_none id); [cbn; exists (mkWorld wq wl wr wt), l, r, m; done|].
  cbn [w_wq w_links w_ready w_timeouts] in *. rewrite (wq_contains_spec _ _ _ _ _ HW).
  case_bool_decide as Hin; [cbn; exists (mkWorld wq wl wr wt), l, r, m; done|].
  destruct (push_back_spec wr r id HR) as (rq & -> & HR' & Hl); [set_solver|by apply (ready_room _ _ _ _ _ HO)|].
  cbn. destruct HO as [_ Ht Hb (Hk1 & Hk2 & Hk3) HL [Hr1 Hr2]]. cbn in *.
  eexists _, l, _, m. split; [done|]. split; cbn; [by split|done|..|done|lia].
  - intros x Hx. specialize (Hb x Hx). case_bool_decide; set_solver.
  - split_and!; [done| |done]. case_bool_decide; set_solver.
Qed.

Lemma act_ok a w l r m : world_ok me K w l r m → (∀ id, act_id a = Some id → id ∈ K) → steps_ok a w.
Proof.
  intros HO Ha. destruct a.
  - by eapply begin_ok; [|apply Ha].
  - by eapply sleep_ok; [|apply Ha].
  - by eapply wake_one_ok.
  - by eapply wake_all_ok.
  - by eapply tick_ok.
  - by eapply pick_ok.
  - by eapply yield_ok; [|apply Ha].
Qed.

Lemma acts_ok acts w l r m :
  world_ok me K w l r m → Forall (λ a, ∀ id, act_id a = Some id → id ∈ K) acts →
  ∃ w' l' r' m', act_run me idle acts w = Ret w' ∧ world_ok me K w' l' r' m'.
Proof.
  revert w l r m. induction acts as [|a acts IH]; intros w l r m HO Ha; [by exists w, l, r, m|].
  apply Forall_cons in Ha as [Ha Has]. destruct (act_ok a w l r m HO Ha) as (w1 & l1 & r1 & m1 & Hrun & HO1).
  cbn [act_run]. rewrite Hrun. cbn [obind]. by eapply IH.
Qed.
End steps.

Lemma start_ok me K links alloc cap rq tq :
  me ≠ 0 → idle_links K links → Z.of_nat (size K) ≤ cap < 2 ^ 62 →
  ReadyQueue_try_new alloc cap = Some rq → TimeoutQueue_try_new alloc cap = Some tq →
  world_ok me K (mkWorld WaitQueue_new links rq tq) [] [] ∅.
Proof.
  intros Hme Hi Hcap Hrq Htq. destruct (try_new_rep _ _ _ Hrq) as [HR Hl]; [lia|].
  destruct (timeouts_try_new _ _ _ Htq) as [HT Hlt]; [lia|].
  pose proof (qsr_queue _ _ _ (idle_rep K links Hi) me Hme) as HW. unfold queue_at, waiters in HW. rewrite !lookup_empty in HW.
  split; cbn; [done|set_solver|set_solver|set_solver| |lia].
  intros id Hid. exists WaitLink_NONE. rewrite (Hi id), bool_decide_true by done. split; [done|by left].
Qed.

(** C16: no waiter is lost: from queues with room for every thread, whatever
    the threads and the timer do (wait, wait again, sleep, wake one, wake all,
    expire timeouts, pick the next thread, yield), no step panics or fails to
    end, and every thread on the wait queue has a timeout pending and is not on
    the ready queue. *)
Theorem waiters_timed_and_blocked me idle K links alloc cap rq tq acts :
  me ≠ 0 → THREAD_NONE ∉ K → idle_links K links → Z.of_nat (size K) ≤ cap < 2 ^ 62 →
  ReadyQueue_try_new alloc cap = Some rq → TimeoutQueue_try_new alloc cap = Some tq →
  Forall (λ a, ∀ id, act_id a = Some id → id ∈ K) acts →
  ∃ w, act_run me idle acts (mkWorld WaitQueue_new links rq tq) = Ret w ∧
    ∀ id, wq_contains me id (w_links w) = true →
      contains (w_ready w) id = Ret false ∧ ∃ m d, timeouts (w_timeouts w) m ∧ m !! id = Some d.
Proof.
  intros Hme HN Hi Hcap Hrq Htq Ha.
  destruct (acts_ok me idle K Hme ltac:(lia) HN acts _ [] [] ∅ (start_ok me K links alloc cap rq tq Hme Hi Hcap Hrq Htq) Ha)
    as (w & l & r & m & Hrun & [[HW HR HT] Ht Hb _ _ _]).
  exists w. split; [done|]. intros id Hid. rewrite (wq_contains_spec _ _ _ _ _ HW) in Hid.
  apply bool_decide_eq_true in Hid. split.
  - rewrite (contains_spec _ _ _ (rqr_shape _ _ HR)). by rewrite bool_decide_false by auto.
  - apply Ht, elem_of_dom in Hid as [d Hd]. eauto.
Qed.
End wake.
Arguments world : clear implicits.
Arguments mkWorld {L}.

Definition demo_acts : list act :=
  [AYield 4; ABegin 4 100; ABegin 5 200; AYield 4; ABegin 6 300; AWakeOne; ATick 250; APick; ABegin 4 400; AWakeAll; ABegin 5 900].

Lemma waiters_timed_and_blocked_witness :
  ∃ w, act_run 4096 0 demo_acts (mkWorld WaitQueue_new demo_links
    (mkReadyQueue 8192 3 0 0 [THREAD_NONE; THREAD_NONE; THREAD_NONE])
    (mkTimeoutQueue [NO_TIMEOUT; NO_TIMEOUT; NO_TIMEOUT] 0)) = Ret w ∧
    ∀ id, wq_contains 4096 id (w_links w) = true →
      contains (w_ready w) id = Ret false ∧ ∃ m d, timeouts (w_timeouts w) m ∧ m !! id = Some d.
Proof.
  apply (waiters_timed_and_blocked 4096 0 {[4; 5; 6]} demo_links (λ _, Some 8192) 3).
  - done.
  - apply not_elem_of_union; split; [apply not_elem_of_union; split|]; by apply not_elem_of_singleton.
  - intros id. simpl. case_bool_decide as Hid.
    + assert (id = 4 ∨ id = 5 ∨ id = 6) as [->|[->| ->]] by set_solver; done.
    + apply not_elem_of_dom. unfold demo_links. rewrite dom_list_to_map_L. set_solver.
  - split; vm_compute; done.
  - done.
  - done.
  - unfold demo_acts. repeat constructor; intros id Hid; simplify_eq/=; set_solver.
Defined.
