(* ===== verification/WaitPrims.v ===== *)
(** * Blocking primitives

    The reader-writer lock and the channel of src/crates/core/src/sched/wait.rs:
    the lock admits one writer or any number of readers, and the channel is a
    first-in first-out queue that never reads a slot it has not written. *)

From stdpp Require Import base gmap list numbers strings relations.
From S2P Require Import Prelude Trace Ring Sched Wait.

Local Open Scope Z_scope.

Import Sched Wait.

(** ** The reader-writer lock *)

(** The lock and who holds it: the readers, and the writer if any. *)
Record rw_world := mkRw { rw_lock : RwLockModel; rw_readers : list Z; rw_writer : option Z }.

Inductive rw_step : rw_world → rw_world → Prop :=
  | rw_read t l l' rs w : try_read l = Ret (true, l') → rw_step (mkRw l rs w) (mkRw l' (t :: rs) w)
  | rw_read_fails l l' rs w : try_read l = Ret (false, l') → rw_step (mkRw l rs w) (mkRw l' rs w)
  | rw_write t l l' rs w :
      t ≠ THREAD_NONE → try_write t l = (true, l') → rw_step (mkRw l rs w) (mkRw l' rs (Some t))
  | rw_write_fails t l l' rs w : try_write t l = (false, l') → rw_step (mkRw l rs w) (mkRw l' rs w)
  | rw_drop_read t l l' rs1 rs2 w :
      drop_read l = Ret l' → rw_step (mkRw l (rs1 ++ t :: rs2) w) (mkRw l' (rs1 ++ rs2) w)
  | rw_drop_write t l rs : rw_step (mkRw l rs (Some t)) (mkRw (drop_write l) rs None)
  | rw_queue l rs w rq wq :
      rw_step (mkRw l rs w) (mkRw (mkRwLock (readers l) (writer l) rq wq) rs w).

Definition rw_start : rw_world := mkRw RwLockModel_new [] None.

Record rw_ok (s : rw_world) : Prop := {
  rwo_readers : readers (rw_lock s) = zlen (rw_readers s);
  rwo_writer : writer (rw_lock s) = default THREAD_NONE (rw_writer s);
  rwo_named : rw_writer s ≠ Some THREAD_NONE;
  rwo_excl : rw_writer s ≠ None → rw_readers s = []
}.

Lemma is_none_eq x : is_none x = true ↔ x = THREAD_NONE.
Proof. apply Z.eqb_eq. Qed.

Lemma writer_none s : rw_ok s → is_none (writer (rw_lock s)) = true ↔ rw_writer s = None.
Proof.
  intros HO. rewrite is_none_eq, (rwo_writer _ HO). pose proof (rwo_named _ HO).
  destruct (rw_writer s); naive_solver.
Qed.

Lemma try_read_ok s b l' :
  rw_ok s → try_read (rw_lock s) = Ret (b, l') →
  if b then rw_writer s = None ∧ wq_is_empty (write_wq l') = true ∧
            readers l' = readers (rw_lock s) + 1 ∧ writer l' = writer (rw_lock s)
  else l' = rw_lock s.
Proof.
  intros HO. unfold try_read. pose proof (writer_none s HO) as Hw.
  destruct (is_none _); simpl; [|naive_solver]. destruct (wq_is_empty _) eqn:E; simpl; [|naive_solver].
  unfold addc, checked. destruct (_ && _); simpl; [|done]. intros [= <- <-]. simpl. naive_solver.
Qed.

Lemma rw_step_ok s s' : rw_ok s → rw_step s s' → rw_ok s'.
Proof.
  intros HO Hs. destruct Hs as [t l l' rs w Hr|l l' rs w Hr|t l l' rs w Ht Hr|t l l' rs w Hr|t l l' rs1 rs2 w Hr|t l rs|l rs w rq wq].
  - apply (try_read_ok _ _ _ HO) in Hr as (Hw & _ & Hrd & Hwr). destruct HO; simpl in *. split; simpl; [zlia|congruence|done|by rewrite Hw].
  - apply (try_read_ok _ _ _ HO) in Hr. simpl in Hr. by subst l'.
  - pose proof (writer_none _ HO) as Hw. unfold try_write in Hr. simpl in Hw. destruct (is_none (writer l)); simplify_eq/=.
    destruct (Z.eqb_spec (readers l) 0) as [H0|]; simplify_eq/=. destruct HO; simpl in *.
    split; simpl; [done|done|congruence|]. intros _. apply zlen_nil_inv. lia.
  - unfold try_write in Hr. destruct (_ || _); simplify_eq. done.
  - unfold drop_read in Hr. destruct (Z.ltb_spec 0 (readers l)); simplify_eq/=.
    destruct HO as [Hrd Hwr Hn Hex]; simpl in *. unfold subc, checked in Hr. destruct (_ && _); simplify_eq/=.
    split; simpl; [zlia|done|done|]. intros Hw. specialize (Hex Hw). by destruct rs1.
  - destruct HO as [Hrd Hwr Hn Hex]; simpl in *. split; simpl; [done|done|done|done].
  - destruct HO; simpl in *. by split.
Qed.

Lemma rw_reachable_ok s : rtc rw_step rw_start s → rw_ok s.
Proof.
  intros Hr. assert (H0 : rw_ok rw_start) by (by split). revert H0. induction Hr; [done|]. eauto using rw_step_ok.
Qed.

(** C17: a reader-writer lock is never held by a writer and a reader at once,
    or by two writers: in every state the operations can reach, a held write
    lock means no reader holds it, [try_write] succeeds exactly when nobody
    holds the lock, a new reader is refused while a writer is queued, and the
    wake-up chosen when a queued writer times out is one that makes progress:
    the readers when [try_read] would succeed, the next writer when [try_write]
    would, and nobody only while a holder is left to wake them. *)
Theorem rwlock_excludes s t :
  rtc rw_step rw_start s →
  (rw_writer s ≠ None → rw_readers s = []) ∧
  (fst (try_write t (rw_lock s)) = true ↔ rw_writer s = None ∧ rw_readers s = []) ∧
  (wq_is_empty (write_wq (rw_lock s)) = false → try_read (rw_lock s) = Ret (false, rw_lock s)) ∧
  match after_writer_wait_timeout (rw_lock s) with
  | WtwReaders => zlen (rw_readers s) < 2 ^ 32 - 1 → ∃ l, try_read (rw_lock s) = Ret (true, l)
  | WtwNextWriter => fst (try_write t (rw_lock s)) = true
  | WtwNone => rw_writer s ≠ None ∨ rw_readers s ≠ []
  end.
Proof.
  intros Hr. pose proof (rw_reachable_ok s Hr) as HO. pose proof (writer_none s HO) as Hw.
  pose proof (rwo_readers _ HO) as Hrd.
  assert (Hz : (readers (rw_lock s) =? 0) = true ↔ rw_readers s = []).
  { rewrite Z.eqb_eq, Hrd. split; [apply zlen_nil_inv|]. by intros ->. }
  split_and!; [apply HO|..].
  - unfold try_write. destruct (is_none _), (_ =? 0); simpl; naive_solver.
  - intros Hq. unfold try_read. rewrite Hq. by destruct (is_none _).
  - unfold after_writer_wait_timeout, try_write, try_read. destruct (is_none _) eqn:En.
    + destruct (wq_is_empty _); [|destruct (_ =? 0) eqn:Ez; [done|]].
      * intros Hlt. simpl. rewrite addc_ret by zlia. eauto.
      * right. intros Hnil. apply Hz in Hnil. congruence.
    + left. intros Hn. apply Hw in Hn. congruence.
Qed.

Lemma rwlock_excludes_witness :
  let s := mkRw (mkRwLock 0 7 WaitQueue_new WaitQueue_new) [] (Some 7) in
  rtc rw_step rw_start s ∧ rw_readers s = [].
Proof.
  assert (Hr : rtc rw_step rw_start (mkRw (mkRwLock 0 7 WaitQueue_new WaitQueue_new) [] (Some 7))).
  { eapply rtc_l; [by eapply (rw_read 5 RwLockModel_new)|].
    eapply rtc_l; [by eapply (rw_drop_read 5 _ _ [] [])|].
    eapply rtc_l; [by eapply (rw_write 7)|]. apply rtc_refl. }
  split; [exact Hr|]. apply (proj1 (rwlock_excludes _ 9 Hr)). done.
Defined.

(** ** The channel *)
Section channel.
Context {T : Type} (N : Z).

Record ch_rep (c : ChannelModel T) (l : list T) : Prop := {
  chr_ring : ring_rep (slots c) (ch_head c) (Some <$> l);
  chr_cap : zlen (slots c) = N;
  chr_len : ch_len c = zlen l;
  chr_head : 0 ≤ ch_head c < N
}.

Inductive ch_op := CSend (v : T) | CRecv | CDrain.
Inductive ch_out := CSent (back : option T) | CGot (v : option T) | CDropped (vs : list T).

Definition ch_step (o : ch_op) (c : ChannelModel T) : outcome (ch_out * ChannelModel T) :=
  match o with
  | CSend v => r <~ try_send N v c;; Ret (CSent (fst r), snd r)
  | CRecv => r <~ try_recv N c;; Ret (CGot (fst r), snd r)
  | CDrain => r <~ ch_drop N c;; Ret (CDropped (fst r), snd r)
  end.

(** A list of at most [N] values. *)
Definition bounded_step (o : ch_op) (l : list T) : outcome (ch_out * list T) :=
  match o with
  | CSend v => if zlen l <? N then Ret (CSent None, l ++ [v]) else Ret (CSent (Some v), l)
  | CRecv => Ret (CGot (head l), tail l)
  | CDrain => Ret (CDropped l, [])
  end.

Context (HN : 0 < N < 2 ^ 62).

Lemma ch_room c l : ch_rep c l → zlen l ≤ N.
Proof. intros HR. destruct (chr_ring _ _ HR) as [Hle _]. rewrite (chr_cap _ _ HR) in Hle. zlia. Qed.

Lemma try_send_spec c l v :
  ch_rep c l →
  ∃ c', try_send N v c = Ret (if zlen l <? N then None else Some v, c') ∧
        ch_rep c' (if zlen l <? N then l ++ [v] else l).
Proof.
  intros HR. unfold try_send. rewrite (chr_len _ _ HR), Z.leb_antisym.
  destruct (Z.ltb_spec (zlen l) N) as [Hlt|]; cbn [negb]; [|by exists c].
  pose proof (chr_head _ _ HR) as Hh. pose proof (chr_cap _ _ HR) as Hc.
  rewrite addc_ret by zlia. cbn [obind]. unfold remc. rewrite (proj2 (Z.eqb_neq N 0)) by lia. cbn [obind].
  pose proof (slot_bound (slots c) (ch_head c) (zlen l) ltac:(lia)) as Hs. unfold ring_slot in Hs. rewrite Hc in Hs.
  rewrite store_ret by (rewrite Hc; lia). cbn [obind]. rewrite addc_ret by zlia. cbn [obind].
  eexists. split; [done|]. split; simpl; [|zlia|zlia|done].
  rewrite fmap_app. simpl. pose proof (ring_push (slots c) (ch_head c) (Some <$> l) (Some v)) as Hp.
  replace (zlen (Some <$> l)) with (zlen l) in Hp by zlia. unfold ring_slot in Hp. rewrite Hc in Hp.
  apply Hp; [apply HR|lia].
Qed.

Lemma try_recv_spec c l :
  ch_rep c l → ∃ c', try_recv N c = Ret (head l, c') ∧ ch_rep c' (tail l).
Proof.
  intros HR. unfold try_recv. rewrite (chr_len _ _ HR). destruct l as [|v l]; [by exists c|].
  rewrite (proj2 (Z.eqb_neq _ 0)) by zlia. pose proof (chr_head _ _ HR) as Hh. pose proof (chr_cap _ _ HR) as Hc.
  assert (Hs0 : ring_slot (zlen (slots c)) (ch_head c) 0 = ch_head c).
  { unfold ring_slot. rewrite Z.add_0_r, Hc. by apply Z.mod_small. }
  assert (index (slots c) (ch_head c) = Ret (Some v)) as ->.
  { rewrite <-Hs0. by eapply ring_lookup; [apply HR|lia|]. }
  cbn [obind]. rewrite store_ret by lia. cbn [obind]. rewrite addc_ret by zlia. cbn [obind].
  unfold remc. rewrite (proj2 (Z.eqb_neq N 0)) by lia. cbn [obind].
  pose proof (ch_room _ _ HR). rewrite subc_ret by zlia. cbn [obind head tail].
  eexists. split; [done|]. split; simpl; [|zlia|zlia|apply Z.mod_pos_bound; lia].
  pose proof (ring_shift _ _ _ _ None (chr_ring _ _ HR)) as Hp.
  rewrite Hs0 in Hp. unfold ring_slot in Hp. by rewrite Hc in Hp.
Qed.

Lemma drain_spec fuel c l :
  ch_rep c l → (length l < fuel)%nat → ∃ c', drain N fuel c = Ret (l, c') ∧ ch_rep c' [].
Proof.
  revert c l. induction fuel as [|fuel IH]; intros c l HR Hf; [lia|]. cbn [drain].
  destruct (try_recv_spec c l HR) as (c1 & -> & HR1). cbn [obind fst snd]. destruct l as [|v l]; [by exists c1|].
  destruct (IH c1 l HR1) as (c' & -> & HR'); [simpl in Hf; lia|]. cbn. eauto.
Qed.

Lemma ch_lockstep : lockstep ch_step ch_rep bounded_step.
Proof.
  intros [v| |] c l HR; cbn [bounded_step ch_step].
  - destruct (try_send_spec c l v HR) as (c' & -> & HR'). destruct (zlen l <? N); cbn; eauto.
  - destruct (try_recv_spec c l HR) as (c' & -> & HR'). cbn. eauto.
  - unfold ch_drop. rewrite (chr_len _ _ HR). destruct (drain_spec (S (Z.to_nat (zlen l))) c l HR) as (c' & -> & HR'); [zlia|].
    cbn. eauto.
Qed.

(** C18: a channel of capacity [N] behaves as a list of at most [N] values:
    a send appends, or hands the value back exactly when the channel is full, a
    receive takes the oldest value, and dropping the channel drops the values
    still in it, each once and in order; no sequence of operations panics or
    reads a slot that holds no value. *)
Theorem channel_is_fifo c os :
  ChannelModel_new N = Ret c → outputs ch_step os c = outputs bounded_step os [].
Proof.
  unfold ChannelModel_new. destruct HN as [Hpos _]. rewrite (proj2 (Z.ltb_lt 0 N)) by done. cbn [oassert obind].
  intros [= <-]. eapply lockstep_outputs; [apply ch_lockstep|]. split; simpl; [apply ring_nil|zlia|done|lia].
Qed.
End channel.

Lemma channel_is_fifo_witness :
  outputs (ch_step 2) [CSend 5; CSend 6; CSend 7; CRecv; CSend 8; CDrain; CRecv]
    (mkChannel [None; None] 0 0 WaitQueue_new WaitQueue_new)
  = outputs (bounded_step 2) [CSend 5; CSend 6; CSend 7; CRecv; CSend 8; CDrain; CRecv] [].
Proof. by apply (channel_is_fifo (T := Z) 2 ltac:(lia)). Defined.
