(* ===== verification/Work.v ===== *)
(** * Work rings (src/crates/core/src/sched/work.rs)

    The two rings of deferred work, whose [head] and [tail] are free-running
    32-bit counters, are bounded FIFOs across every wrap of the counters, and
    the high-priority ring is served first. *)

From stdpp Require Import base list numbers strings.
From S2P Require Import Prelude Trace Ring.

Local Open Scope Z_scope.

Module Work.
Section work.
(** The functions work items carry, and the one of an empty slot. *)
Context {F : Type} (nop : F).

Record WorkItem := mkItem { func : F; arg : Z }.
Definition EMPTY : WorkItem := mkItem nop 0.

Definition RING_CAP : Z := 32.

Record WorkRing := mkRing { slots : list WorkItem; head : Z; tail : Z }.
Definition WorkRing_new : WorkRing := mkRing (replicate (Z.to_nat RING_CAP) EMPTY) 0 0.

Definition len (r : WorkRing) : Z := wrapping_sub 32 (tail r) (head r).
Definition is_empty (r : WorkRing) : bool := head r =? tail r.
Definition is_full (r : WorkRing) : bool := RING_CAP <=? len r.

Definition push_ring (item : WorkItem) (r : WorkRing) : outcome (bool * WorkRing) :=
  if is_full r then Ret (false, r)
  else
    i <~ remc (tail r) RING_CAP;;
    s <~ store (slots r) i item;;
    Ret (true, mkRing s (head r) (wrapping_add 32 (tail r) 1)).

Definition pop_ring (r : WorkRing) : outcome (option WorkItem * WorkRing) :=
  if is_empty r then Ret (None, r)
  else
    i <~ remc (head r) RING_CAP;;
    item <~ index (slots r) i;;
    Ret (Some item, mkRing (slots r) (wrapping_add 32 (head r) 1) (tail r)).

Inductive WorkClass := Soft | Normal.

Record WorkQueues := mkQueues { hi : WorkRing; norm : WorkRing }.
Definition WorkQueues_new : WorkQueues := mkQueues WorkRing_new WorkRing_new.

Definition push_hi (item : WorkItem) (q : WorkQueues) : outcome (bool * WorkQueues) :=
  r <~ push_ring item (hi q);; Ret (fst r, mkQueues (snd r) (norm q)).
Definition push (item : WorkItem) (q : WorkQueues) : outcome (bool * WorkQueues) :=
  r <~ push_ring item (norm q);; Ret (fst r, mkQueues (hi q) (snd r)).

Definition pop (q : WorkQueues) : outcome (option (WorkItem * WorkClass) * WorkQueues) :=
  r <~ pop_ring (hi q);;
  let q := mkQueues (snd r) (norm q) in
  match fst r with
  | Some w => Ret (Some (w, Soft), q)
  | None =>
      r <~ pop_ring (norm q);;
      Ret ((λ w, (w, Normal)) <$> fst r, mkQueues (hi q) (snd r))
  end.

Definition wq_empty (q : WorkQueues) : bool := is_empty (hi q) && is_empty (norm q).
End work.
Arguments WorkItem : clear implicits.
Arguments WorkRing : clear implicits.
Arguments WorkQueues : clear implicits.
End Work.

Section spec.
Import Work.
Context {F : Type} (nop : F).

Record work_rep (r : WorkRing F) (l : list (WorkItem F)) : Prop := {
  wkr_ring : ring_rep (slots r) (head r mod 32) l;
  wkr_cap : zlen (slots r) = 32;
  wkr_head : in_width 32 (head r);
  wkr_tail : tail r = wrap 32 (head r + zlen l)
}.

Lemma work_room r l : work_rep r l → 0 ≤ zlen l ≤ 32.
Proof. intros HR. destruct (wkr_ring _ _ HR) as [Hle _]. rewrite (wkr_cap _ _ HR) in Hle. zlia. Qed.

Lemma work_len r l : work_rep r l → len r = zlen l.
Proof.
  intros HR. pose proof (work_room _ _ HR) as Hr. unfold len, wrapping_sub, wrap. rewrite (wkr_tail _ _ HR).
  unfold wrap. pose proof (wkr_head _ _ HR) as Hh. unfold in_width in Hh. dlia.
Qed.

Lemma work_empty r l : work_rep r l → is_empty r = (zlen l =? 0).
Proof.
  intros HR. pose proof (work_room _ _ HR) as Hr. unfold is_empty. rewrite (wkr_tail _ _ HR). unfold wrap.
  pose proof (wkr_head _ _ HR) as Hh. unfold in_width in Hh. apply eq_true_iff_eq. rewrite !Z.eqb_eq. dlia.
Qed.

(** The slot a counter names, whether or not the counter has wrapped. *)
Lemma counter_slot h i : wrap 32 (h + i) mod 32 = (h mod 32 + i) mod 32.
Proof. unfold wrap. dlia. Qed.

Lemma push_ring_spec r l w :
  work_rep r l →
  ∃ r', push_ring w r = Ret (zlen l <? 32, r') ∧ work_rep r' (if zlen l <? 32 then l ++ [w] else l).
Proof.
  intros HR. pose proof (work_room _ _ HR) as Hr. unfold push_ring, is_full, RING_CAP.
  rewrite (work_len _ _ HR), Z.leb_antisym. destruct (Z.ltb_spec (zlen l) 32) as [Hlt|]; cbn [negb]; [|by exists r].
  pose proof (wkr_cap _ _ HR) as Hc. unfold remc. cbn [Z.eqb obind].
  rewrite (wkr_tail _ _ HR), counter_slot.
  pose proof (slot_bound (slots r) (head r mod 32) (zlen l) ltac:(lia)) as Hs. unfold ring_slot in Hs. rewrite Hc in Hs.
  rewrite store_ret by lia. cbn [obind]. eexists. split; [done|]. split; simpl.
  - pose proof (Ring.ring_push (slots r) (head r mod 32) l w (wkr_ring _ _ HR)) as Hp. unfold ring_slot in Hp.
    rewrite Hc in Hp. by apply Hp.
  - zlia.
  - apply HR.
  - unfold wrapping_add, wrap. replace (zlen (l ++ [w])) with (zlen l + 1) by zlia. dlia.
Qed.

Lemma pop_ring_spec r l :
  work_rep r l → ∃ r', pop_ring r = Ret (list.head l, r') ∧ work_rep r' (list.tail l).
Proof.
  intros HR. unfold pop_ring. rewrite (work_empty _ _ HR). destruct l as [|w l]; [by exists r|].
  rewrite (proj2 (Z.eqb_neq _ 0)) by zlia. unfold remc, RING_CAP. cbn [Z.eqb obind].
  pose proof (wkr_cap _ _ HR) as Hc. pose proof (wkr_head _ _ HR) as Hh. unfold in_width in Hh.
  assert (index (slots r) (head r mod 32) = Ret w) as ->.
  { replace (head r mod 32) with (ring_slot (zlen (slots r)) (head r mod 32) 0) by (unfold ring_slot; rewrite Hc; dlia).
    by eapply ring_lookup; [apply HR|lia|]. }
  cbn [obind list.head list.tail]. eexists. split; [done|]. split; simpl.
  - unfold wrapping_add. rewrite counter_slot. pose proof (Ring.ring_pop _ _ _ _ (wkr_ring _ _ HR)) as Hp.
    unfold ring_slot in Hp. by rewrite Hc in Hp.
  - done.
  - unfold wrapping_add, wrap, in_width. by apply Z.mod_pos_bound.
  - rewrite (wkr_tail _ _ HR). unfold wrapping_add, wrap. replace (zlen (w :: l)) with (zlen l + 1) by zlia. dlia.
Qed.

(** ** Sequences of operations *)
Inductive work_op := KPushHi (w : WorkItem F) | KPush (w : WorkItem F) | KPop.
Inductive work_out := KPushed (ok : bool) | KPopped (w : option (WorkItem F * WorkClass)).

Definition work_step (o : work_op) (q : WorkQueues F) : outcome (work_out * WorkQueues F) :=
  match o with
  | KPushHi w => r <~ push_hi w q;; Ret (KPushed (fst r), snd r)
  | KPush w => r <~ push w q;; Ret (KPushed (fst r), snd r)
  | KPop => r <~ pop q;; Ret (KPopped (fst r), snd r)
  end.

(** Two lists of at most 32 items, the first served first. *)
Definition two_fifos_step (o : work_op) (ls : list (WorkItem F) * list (WorkItem F)) :
    outcome (work_out * (list (WorkItem F) * list (WorkItem F))) :=
  let '(h, n) := ls in
  match o with
  | KPushHi w => Ret (KPushed (zlen h <? 32), (if zlen h <? 32 then h ++ [w] else h, n))
  | KPush w => Ret (KPushed (zlen n <? 32), (h, if zlen n <? 32 then n ++ [w] else n))
  | KPop =>
      match h, n with
      | w :: h, n => Ret (KPopped (Some (w, Soft)), (h, n))
      | [], w :: n => Ret (KPopped (Some (w, Normal)), ([], n))
      | [], [] => Ret (KPopped None, ([], []))
      end
  end.

Definition work_queues_rep (q : WorkQueues F) (ls : list (WorkItem F) * list (WorkItem F)) : Prop :=
  work_rep (hi q) (fst ls) ∧ work_rep (norm q) (snd ls).

Lemma work_lockstep : lockstep work_step work_queues_rep two_fifos_step.
Proof.
  intros o q [h n] [Hh Hn]. cbn [fst snd] in *. destruct o as [w|w|]; cbn [two_fifos_step work_step].
  - unfold push_hi. destruct (push_ring_spec _ _ w Hh) as (r & -> & Hr). cbn. eexists. split; [done|]. by split.
  - unfold push. destruct (push_ring_spec _ _ w Hn) as (r & -> & Hr). cbn. eexists. split; [done|]. by split.
  - unfold pop. destruct (pop_ring_spec _ _ Hh) as (r & -> & Hr). destruct h as [|w h]; cbn.
    + destruct (pop_ring_spec _ _ Hn) as (r' & -> & Hr'). destruct n as [|w n]; cbn; (eexists; split; [done|]; by split).
    + eexists. split; [done|]. by split.
Qed.

Lemma work_new_rep : work_rep (WorkRing_new nop) [].
Proof. split; simpl; [apply ring_nil|done|done|done]. Qed.

(** C19: the work queues behave as two lists of at most 32 items each: a push
    appends and reports success exactly while there is room, a pop takes the
    oldest high-priority item, or the oldest normal one when there is none,
    tagged with the ring it came from; this holds for every sequence of
    operations, however often the 32-bit counters wrap. *)
Theorem work_queues_are_fifos os :
  outputs work_step os (WorkQueues_new nop) = outputs two_fifos_step os ([], []).
Proof. eapply lockstep_outputs; [apply work_lockstep|]. split; apply work_new_rep. Qed.
End spec.
