(* ===== verification/Kerror.v ===== *)
(** * The kernel's error type (src/crates/core/src/kerror.rs)

    The errno table of [kerror.rs], which every module error converts into. *)

From stdpp Require Import base numbers strings list.
From S2P Require Import Prelude.

Local Open Scope string_scope.
Local Open Scope Z_scope.

Module Kerror.

Inductive KError :=
  | Perm
  | NoEnt
  | Srch
  | Io
  | NxIo
  | TooBig
  | NoExec
  | BadF
  | Child
  | Again
  | NoMem
  | Acces
  | Fault
  | Busy
  | Exist
  | XDev
  | NoDev
  | NotDir
  | IsDir
  | Inval
  | NFile
  | MFile
  | FBig
  | NoSpc
  | SPipe
  | RoFs
  | NameTooLong
  | NoSys
  | NotEmpty
  | Loop
  | OpNotSupp.

Definition ALL : list KError :=
    [Perm; NoEnt; Srch; Io; NxIo; TooBig; NoExec; BadF; Child; Again; NoMem; Acces; Fault; Busy;
   Exist; XDev; NoDev; NotDir; IsDir; Inval; NFile; MFile; FBig; NoSpc; SPipe; RoFs; NameTooLong;
   NoSys; NotEmpty; Loop; OpNotSupp].

Definition errno (e : KError) : Z :=
  match e with
  | Perm => 1
  | NoEnt => 2
  | Srch => 3
  | Io => 5
  | NxIo => 6
  | TooBig => 7
  | NoExec => 8
  | BadF => 9
  | Child => 10
  | Again => 11
  | NoMem => 12
  | Acces => 13
  | Fault => 14
  | Busy => 16
  | Exist => 17
  | XDev => 18
  | NoDev => 19
  | NotDir => 20
  | IsDir => 21
  | Inval => 22
  | NFile => 23
  | MFile => 24
  | FBig => 27
  | NoSpc => 28
  | SPipe => 29
  | RoFs => 30
  | NameTooLong => 36
  | NoSys => 38
  | NotEmpty => 39
  | Loop => 40
  | OpNotSupp => 95
  end.

Definition name (e : KError) : string :=
  match e with
  | Perm => "EPERM"
  | NoEnt => "ENOENT"
  | Srch => "ESRCH"
  | Io => "EIO"
  | NxIo => "ENXIO"
  | TooBig => "E2BIG"
  | NoExec => "ENOEXEC"
  | BadF => "EBADF"
  | Child => "ECHILD"
  | Again => "EAGAIN"
  | NoMem => "ENOMEM"
  | Acces => "EACCES"
  | Fault => "EFAULT"
  | Busy => "EBUSY"
  | Exist => "EEXIST"
  | XDev => "EXDEV"
  | NoDev => "ENODEV"
  | NotDir => "ENOTDIR"
  | IsDir => "EISDIR"
  | Inval => "EINVAL"
  | NFile => "ENFILE"
  | MFile => "EMFILE"
  | FBig => "EFBIG"
  | NoSpc => "ENOSPC"
  | SPipe => "ESPIPE"
  | RoFs => "EROFS"
  | NameTooLong => "ENAMETOOLONG"
  | NoSys => "ENOSYS"
  | NotEmpty => "ENOTEMPTY"
  | Loop => "ELOOP"
  | OpNotSupp => "EOPNOTSUPP"
  end.

End Kerror.
