(* ===== verification/Kva.v ===== *)
(** * Kernel virtual address allocator (src/crates/core/src/mm/kva.rs)

    The definitions of this file are the code of [mm/kva.rs]: a first-fit list
    of free ranges in a fixed pool of nodes, an in-place heapsort, and the
    coalescing pass that runs when the pool is empty.  The pool's size is the
    argument [MAX_RANGES]; [MAX_KVA_RANGES] is the kernel's. *)

From stdpp Require Import base list numbers strings.
From S2P Require Import Prelude Kerror.

Local Open Scope string_scope.
Local Open Scope Z_scope.

Module Kva.

Definition KVA_START : Z := 0xFFFFD00000000000.
Definition KVA_SIZE : Z := 64 * 1024 * 1024 * 1024.
Definition KVA_END : Z := KVA_START + KVA_SIZE.
Definition PAGE_SIZE : Z := 4096.

Definition MAX_THREADS : Z := 1024.
Definition MAX_CPUS : Z := 64.
Definition MAX_KVA_RANGES : Z := MAX_THREADS + 8 * MAX_CPUS + 64.

Inductive KvaError := Exhausted | Size | NoVa | NoFrames | Map.

Definition kerror_of (e : KvaError) : Kerror.KError :=
  match e with
  | Exhausted | NoVa | NoFrames | Map => Kerror.NoMem
  | Size => Kerror.Inval
  end.

Definition as_str (e : KvaError) : string :=
  match e with
  | Exhausted => "exhausted"
  | Size => "size"
  | NoVa => "no va"
  | NoFrames => "no frames"
  | Map => "map"
  end.

Record Range := mkRange { start : Z; len : Z }.
Definition no_range : Range := mkRange 0 0.

(** ** Heapsort *)

(** [v.swap(a, b)]. *)
Definition swap (v : list Range) (a b : Z) : outcome (list Range) :=
  x <~ index v a;;
  y <~ index v b;;
  v <~ store v a y;;
  store v b x.

Fixpoint sift_down (fuel : nat) (v : list Range) (root end_ : Z) : outcome (list Range) :=
  match fuel with
  | O => NoFuel
  | S fuel =>
      d <~ mulc 64 2 root;;
      child <~ addc 64 d 1;;
      if end_ <=? child then Ret v
      else
        c1 <~ addc 64 child 1;;
        up <~ (if c1 <? end_ then
                 a <~ index v c1;; b <~ index v child;; Ret (start b <? start a)
               else Ret false);;
        let child := if up : bool then c1 else child in
        a <~ index v root;;
        b <~ index v child;;
        if start b <=? start a then Ret v
        else
          v <~ swap v root child;;
          sift_down fuel v child end_
  end.

(** [while i > 0 { i -= 1; sift_down(v, i, n) }]. *)
Fixpoint heapify (i : nat) (v : list Range) (n : Z) : outcome (list Range) :=
  match i with
  | O => Ret v
  | S i => v <~ sift_down (length v) v (Z.of_nat i) n;; heapify i v n
  end.

(** [while end > 1 { end -= 1; v.swap(0, end); sift_down(v, 0, end) }]. *)
Fixpoint drain_heap (end_ : nat) (v : list Range) : outcome (list Range) :=
  match end_ with
  | O => Ret v
  | S O => Ret v
  | S e =>
      v <~ swap v 0 (Z.of_nat e);;
      v <~ sift_down (length v) v 0 (Z.of_nat e);;
      drain_heap e v
  end.

Definition sort_by_start (v : list Range) : outcome (list Range) :=
  let n := Z.of_nat (length v) in
  v <~ heapify (length v / 2) v n;;
  drain_heap (length v) v.

(** ** The allocator *)
Record Kva := mkKva {
  nodes : list Range;
  next : list (option Z);
  head : option Z;
  tail : option Z;
  slots : list Z;
  nslots : Z;
  live : Z;
  used : Z;
  capacity : Z
}.

Definition set_lists (nodes : list Range) (next : list (option Z)) (head tail : option Z) (k : Kva) : Kva :=
  mkKva nodes next head tail (slots k) (nslots k) (live k) (used k) (capacity k).
Definition set_slots (slots : list Z) (nslots : Z) (k : Kva) : Kva :=
  mkKva (nodes k) (next k) (head k) (tail k) slots nslots (live k) (used k) (capacity k).
Definition set_use (live used : Z) (k : Kva) : Kva :=
  mkKva (nodes k) (next k) (head k) (tail k) (slots k) (nslots k) live used (capacity k).

Record KvaStats := mkStats { s_used : Z; s_capacity : Z; s_free_ranges : Z }.

Section kva.
Context (MAX_RANGES : Z).

Definition LIVE_CAP : Z := MAX_RANGES - 2.

Definition Kva_empty : Kva :=
  let n := Z.to_nat MAX_RANGES in
  mkKva (replicate n no_range) (replicate n None) None None (replicate n 0) 0 0 0 0.

Definition unlink (prev : option Z) (i : Z) (k : Kva) : outcome Kva :=
  nxt <~ index (next k) i;;
  r <~ (match prev with
        | Some p => nx <~ store (next k) p nxt;; Ret (nx, head k)
        | None => Ret (next k, nxt)
        end);;
  let tl := if bool_decide (tail k = Some i) then prev else tail k in
  nx <~ store (fst r) i None;;
  Ret (set_lists (nodes k) nx (snd r) tl k).

Definition alloc_slot (k : Kva) : outcome (option Z * Kva) :=
  if nslots k =? 0 then Ret (None, k)
  else
    n <~ subc 64 (nslots k) 1;;
    i <~ index (slots k) n;;
    Ret (Some i, set_slots (slots k) n k).

Definition free_slot (i : Z) (k : Kva) : outcome Kva :=
  sl <~ store (slots k) (nslots k) i;;
  n <~ addc 64 (nslots k) 1;;
  nd <~ store (nodes k) i no_range;;
  Ret (set_lists nd (next k) (head k) (tail k) (set_slots sl n k)).

Definition init (start_ size : Z) (k : Kva) : outcome ((unit + KvaError) * Kva) :=
  _ <~ oassert (size mod PAGE_SIZE =? 0) "assertion failed: size.is_multiple_of(PAGE_SIZE)";;
  _ <~ oassert (start_ mod PAGE_SIZE =? 0) "assertion failed: start.is_multiple_of(PAGE_SIZE)";;
  let n := Z.to_nat MAX_RANGES in
  let k := mkKva (replicate n no_range) (replicate n None) None None
             (Z.of_nat <$> seq 0 n) MAX_RANGES 0 0 size in
  r <~ alloc_slot k;;
  match fst r with
  | None => Ret (inr Exhausted, snd r)
  | Some i =>
      let k := snd r in
      nd <~ store (nodes k) i (mkRange start_ size);;
      nx <~ store (next k) i None;;
      Ret (inl tt, set_lists nd nx (Some i) (Some i) k)
  end.

(** The walk of [stats]; no list is longer than the pool. *)
Fixpoint count_free (fuel : nat) (k : Kva) (cur : option Z) (n : Z) : outcome Z :=
  match fuel with
  | O => NoFuel
  | S fuel =>
      match cur with
      | None => Ret n
      | Some i => n <~ addc 64 n 1;; nxt <~ index (next k) i;; count_free fuel k nxt n
      end
  end.
Definition stats (k : Kva) : outcome KvaStats :=
  n <~ count_free (S (length (next k))) k (head k) 0;;
  Ret (mkStats (used k) (capacity k) n).

Fixpoint first_fit (fuel : nat) (k : Kva) (len_ : Z) (prev cur : option Z) : outcome (option Z * Kva) :=
  match fuel with
  | O => NoFuel
  | S fuel =>
      match cur with
      | None => Ret (None, k)
      | Some i =>
          r <~ index (nodes k) i;;
          if len_ <=? len r then
            k <~ (if len r =? len_ then
                    k <~ unlink prev i k;; free_slot i k
                  else
                    s <~ addc 64 (start r) len_;;
                    l <~ subc 64 (len r) len_;;
                    nd <~ store (nodes k) i (mkRange s l);;
                    Ret (set_lists nd (next k) (head k) (tail k) k));;
            u <~ addc 64 (used k) len_;;
            lv <~ addc 64 (live k) 1;;
            Ret (Some (start r), set_use lv u k)
          else
            nxt <~ index (next k) i;;
            first_fit fuel k len_ cur nxt
      end
  end.

Definition alloc (len_ : Z) (k : Kva) : outcome (option Z * Kva) :=
  if (len_ =? 0) || negb (len_ mod PAGE_SIZE =? 0) || (LIVE_CAP <=? live k) then Ret (None, k)
  else first_fit (S (length (next k))) k len_ None (head k).

Definition alloc_guarded (pages : Z) (k : Kva) : outcome (option Z * Kva) :=
  if pages =? 0 then Ret (None, k)
  else
    p <~ addc 64 pages 1;;
    l <~ mulc 64 p PAGE_SIZE;;
    alloc l k.

(** ** Coalescing *)

(** Move the nodes in use to the front: [for r in 0..MAX_RANGES]. *)
Fixpoint gather (m : nat) (r : Z) (nd : list Range) (n : Z) : outcome (list Range * Z) :=
  match m with
  | O => Ret (nd, n)
  | S m =>
      x <~ index nd r;;
      if 0 <? len x then
        nd <~ store nd n x;;
        n <~ addc 64 n 1;;
        gather m (r + 1) nd n
      else gather m (r + 1) nd n
  end.

(** Join each range to the one before it when they meet: [for r in 0..n]. *)
Fixpoint merge (m : nat) (r : Z) (nd : list Range) (w : Z) : outcome (list Range * Z) :=
  match m with
  | O => Ret (nd, w)
  | S m =>
      x <~ index nd r;;
      joined <~ (if 0 <? w then
                   i <~ subc 64 w 1;;
                   prev <~ index nd i;;
                   e <~ addc 64 (start prev) (len prev);;
                   if e =? start x then
                     l <~ addc 64 (len prev) (len x);;
                     nd <~ store nd i (mkRange (start prev) l);;
                     Ret (Some nd)
                   else Ret None
                 else Ret None);;
      match joined with
      | Some nd => merge m (r + 1) nd w
      | None =>
          nd <~ store nd w x;;
          w <~ addc 64 w 1;;
          merge m (r + 1) nd w
      end
  end.

(** [for i in 1..w { next[i - 1] = Some(i) }]. *)
Fixpoint link_all (m : nat) (i : Z) (nx : list (option Z)) : outcome (list (option Z)) :=
  match m with
  | O => Ret nx
  | S m => nx <~ store nx (i - 1) (Some i);; link_all m (i + 1) nx
  end.

(** [for i in w..MAX_RANGES { slots[nslots] = i; nslots += 1 }]. *)
Fixpoint spare_all (m : nat) (i : Z) (sl : list Z) (n : Z) : outcome (list Z * Z) :=
  match m with
  | O => Ret (sl, n)
  | S m => sl <~ store sl n i;; n <~ addc 64 n 1;; spare_all m (i + 1) sl n
  end.

Definition coalesce_all (k : Kva) : outcome Kva :=
  g <~ gather (Z.to_nat MAX_RANGES) 0 (nodes k) 0;;
  let '(nd, n) := g in
  sorted <~ sort_by_start (take (Z.to_nat n) nd);;
  m <~ merge (Z.to_nat n) 0 (sorted ++ drop (Z.to_nat n) nd)%list 0;;
  let '(nd, w) := m in
  let nd := (take (Z.to_nat w) nd ++ replicate (length nd - Z.to_nat w) no_range)%list in
  nx <~ link_all (Z.to_nat w - 1) 1 (replicate (length (next k)) None);;
  let hd := if 0 <? w then Some 0 else None in
  let tl := if 1 <=? w then Some (w - 1) else None in
  s <~ spare_all (Z.to_nat (MAX_RANGES - w)) w (slots k) 0;;
  Ret (set_lists nd nx hd tl (set_slots (fst s) (snd s) k)).

Definition free (start_ len_ : Z) (k : Kva) : outcome Kva :=
  _ <~ oassert ((len_ mod PAGE_SIZE =? 0) && (start_ mod PAGE_SIZE =? 0)) "assertion failed: aligned";;
  _ <~ oassert (0 <? len_) "assertion failed: len > 0";;
  _ <~ oassert ((len_ <=? used k) && (0 <? live k)) "kva: free when used is less";;
  k <~ (if nslots k =? 0 then coalesce_all k else Ret k);;
  _ <~ oassert (0 <? nslots k) "kva: no node after coalesce";;
  n <~ subc 64 (nslots k) 1;;
  i <~ index (slots k) n;;
  nd <~ store (nodes k) i (mkRange start_ len_);;
  nx <~ store (next k) i None;;
  r <~ (match tail k with
        | Some t => nx <~ store nx t (Some i);; Ret (nx, head k)
        | None => Ret (nx, Some i)
        end);;
  u <~ subc 64 (used k) len_;;
  lv <~ subc 64 (live k) 1;;
  Ret (set_use lv u (set_lists nd (fst r) (snd r) (Some i) (set_slots (slots k) n k))).
End kva.
End Kva.
