(* ===== verification/KvaSort.v ===== *)
(** * The heapsort of the virtual address allocator

    [sort_by_start] of src/crates/core/src/mm/kva.rs, the in-place heapsort the
    coalescing pass runs on the ranges, sorts them by start address. *)

From stdpp Require Import base list numbers strings sorting.
From S2P Require Import Prelude Kva.

Local Open Scope Z_scope.

Import Kva.

#[export] Instance range_inhabited : Inhabited Range := populate no_range.
#[export] Instance range_eq_dec : EqDecision Range.
Proof. solve_decision. Defined.

(** The start address at an index. *)
Definition key (v : list Range) (i : Z) : Z := start (v !!! Z.to_nat i).

Lemma index_key (v : list Range) i : 0 ≤ i < zlen v → index v i = Ret (v !!! Z.to_nat i).
Proof.
  intros Hi. apply index_ret; [lia|]. apply list_lookup_lookup_total_lt. zlia.
Qed.

(** [v'] is [v] with the elements below [e] permuted. *)
Record shuffled (e : Z) (v v' : list Range) : Prop := {
  sh_perm : v ≡ₚ v';
  sh_len : length v' = length v;
  sh_above : ∀ i, e ≤ i → key v' i = key v i;
  sh_below : ∀ i, 0 ≤ i < e → ∃ j, 0 ≤ j < e ∧ key v' i = key v j
}.

Lemma shuffled_refl e (v : list Range) : shuffled e v v.
Proof. split; [done|done|done|eauto]. Qed.

Lemma shuffled_trans e v v1 v2 : shuffled e v v1 → shuffled e v1 v2 → shuffled e v v2.
Proof.
  intros [P1 L1 A1 B1] [P2 L2 A2 B2]. split.
  - by rewrite P1.
  - lia.
  - intros i Hi. by rewrite A2, A1.
  - intros i Hi. destruct (B2 i Hi) as (j & Hj & ->). destruct (B1 j Hj) as (k & Hk & ->). eauto.
Qed.

Lemma swap_spec (v : list Range) a b e :
  0 ≤ a → a < b → b < e → e ≤ zlen v →
  ∃ v', swap v a b = Ret v' ∧ shuffled e v v' ∧ key v' a = key v b ∧ key v' b = key v a ∧
    ∀ i, 0 ≤ i → i ≠ a → i ≠ b → key v' i = key v i.
Proof.
  intros Ha Hab Hbe He. unfold swap. rewrite !index_key by lia. cbn [obind].
  rewrite store_ret by lia. cbn [obind]. rewrite store_ret by zlia. eexists. split; [done|].
  assert (Hk : ∀ i, 0 ≤ i →
    key (<[Z.to_nat b:=v !!! Z.to_nat a]> (<[Z.to_nat a:=v !!! Z.to_nat b]> v)) i =
    if decide (i = b) then key v a else if decide (i = a) then key v b else key v i).
  { intros i Hi. unfold key. destruct (decide (i = b)) as [->|Hb].
    { by rewrite list_lookup_total_insert_eq by zlia. }
    rewrite list_lookup_total_insert_ne by lia. destruct (decide (i = a)) as [->|Hia].
    { by rewrite list_lookup_total_insert_eq by zlia. }
    by rewrite list_lookup_total_insert_ne by lia. }
  split_and!; [split| | |].
  - destruct (list_open v b) as (l12 & y & l3 & -> & Hl12); [lia|].
    destruct (list_open l12 a) as (l1 & x & l2 & -> & Hl1); [lia|].
    rewrite <-!app_assoc in *. simpl in *.
    assert (E1 : (l1 ++ x :: l2 ++ y :: l3) !!! Z.to_nat a = x).
    { apply list_lookup_total_correct. replace (Z.to_nat a) with (length l1) by zlia. by apply list_lookup_middle. }
    assert (E2 : (l1 ++ x :: l2 ++ y :: l3) !!! Z.to_nat b = y).
    { apply list_lookup_total_correct. change (x :: l2 ++ y :: l3) with ((x :: l2) ++ y :: l3).
      rewrite (app_assoc l1). replace (Z.to_nat b) with (length (l1 ++ x :: l2)) by zlia. by apply list_lookup_middle. }
    rewrite E1, E2. replace (Z.to_nat a) with (length l1 + 0)%nat by zlia. rewrite insert_app_r. simpl.
    replace (Z.to_nat b) with (length (l1 ++ y :: l2) + 0)%nat by zlia.
    change (y :: l2 ++ y :: l3) with ((y :: l2) ++ y :: l3).
    rewrite (app_assoc l1), insert_app_r. simpl. rewrite <-app_assoc. simpl.
    apply Permutation_app_head. rewrite <-!Permutation_middle. constructor.
  - by rewrite !length_insert.
  - intros i Hi. rewrite Hk by lia. repeat case_decide; (lia || done).
  - intros i Hi. rewrite Hk by lia. repeat case_decide; [exists a|exists b|exists i]; split; done || lia.
  - rewrite Hk by lia. repeat case_decide; (lia || done).
  - rewrite Hk by lia. repeat case_decide; (lia || done).
  - intros i Hi Hia Hib. rewrite Hk by lia. repeat case_decide; (lia || done).
Qed.

(** ** Heaps *)
Definition child_of (p c : Z) : Prop := c = 2 * p + 1 ∨ c = 2 * p + 2.

(** Parents from [lo] on are not below their children, [root] apart. *)
Definition heap_but (root lo e : Z) (v : list Range) : Prop :=
  ∀ p c, lo ≤ p → child_of p c → c < e → p ≠ root → key v c ≤ key v p.
Definition heap (lo e : Z) (v : list Range) : Prop :=
  ∀ p c, lo ≤ p → child_of p c → c < e → key v c ≤ key v p.

(** A hole at [root] in a heap: its parent is not below its children. *)
Definition hole_ok (root lo e : Z) (v : list Range) : Prop :=
  ∀ g c, lo ≤ g → child_of g root → child_of root c → c < e → key v c ≤ key v g.

Lemma sift_down_spec fuel (v : list Range) root lo e :
  0 ≤ lo ≤ root → e ≤ zlen v → zlen v < 2 ^ 62 → root < 2 ^ 62 → e - root ≤ Z.of_nat fuel → (0 < fuel)%nat →
  heap_but root lo e v → hole_ok root lo e v →
  ∃ v', sift_down fuel v root e = Ret v' ∧ shuffled e v v' ∧ heap lo e v'.
Proof.
  revert v root. induction fuel as [|fuel IH]; intros v root Hlo He Hv Hr Hf Hpos HB HH; [lia|].
  cbn [sift_down]. rewrite mulc_ret by zlia. cbn [obind]. rewrite addc_ret by zlia. cbn [obind].
  destruct (Z.leb_spec e (2 * root + 1)) as [Hleaf|Hchild].
  { exists v. split; [done|]. split; [apply shuffled_refl|]. intros p c Hp Hc Hce.
    apply HB; [done..|]. unfold child_of in Hc. lia. }
  rewrite addc_ret by zlia. cbn [obind].
  match goal with |- ∃ v', ?step = Ret v' ∧ _ =>
    assert (∃ c, step = (if key v c <=? key v root then Ret v else v0 <~ swap v root c;; sift_down fuel v0 c e) ∧
      child_of root c ∧ c < e ∧ ∀ c', child_of root c' → c' < e → key v c' ≤ key v c) as (c & -> & Hc & Hce & Hmax)
  end.
  { unfold child_of. destruct (Z.ltb_spec (2 * root + 1 + 1) e) as [Hlt|Hge].
    - rewrite !index_key by lia. cbn [obind]. fold (key v (2 * root + 1)) (key v (2 * root + 1 + 1)).
      destruct (Z.ltb_spec (key v (2 * root + 1)) (key v (2 * root + 1 + 1))).
      + exists (2 * root + 1 + 1). rewrite !index_key by lia. split_and!; [done|lia|lia|].
        intros c' [->| ->] _; [lia|]. replace (2 * root + 2) with (2 * root + 1 + 1) by lia. lia.
      + exists (2 * root + 1). rewrite !index_key by lia. split_and!; [done|lia|lia|].
        intros c' [->| ->] _; [lia|]. replace (2 * root + 2) with (2 * root + 1 + 1) by lia. lia.
    - cbn [obind]. exists (2 * root + 1). rewrite !index_key by lia. split_and!; [done|lia|lia|].
      intros c' [->| ->]; lia. }
  assert (Hrc : root < c) by (unfold child_of in Hc; lia).
  destruct (Z.leb_spec (key v c) (key v root)) as [Hle|Hgt].
  { exists v. split; [done|]. split; [apply shuffled_refl|]. intros p c' Hp Hc' Hce'.
    destruct (decide (p = root)) as [->|Hne]; [|by apply HB]. specialize (Hmax c' Hc' Hce'). lia. }
  destruct (swap_spec v root c e) as (v1 & -> & HS & K1 & K2 & K3); [lia..|]. cbn [obind].
  pose proof (sh_len _ _ _ HS) as Hl1.
  destruct (IH v1 c) as (v' & Hrun & HS' & HP); [lia|zlia|zlia|lia|lia|lia| | |].
  - intros p c' Hp Hc' Hce' Hpc. destruct (decide (p = root)) as [->|Hpr].
    + rewrite K1. destruct (decide (c' = c)) as [->|Hcc]; [rewrite K2; lia|].
      rewrite K3 by (unfold child_of in Hc'; lia). by apply Hmax.
    + rewrite (K3 p) by lia. destruct (decide (c' = root)) as [->|Hcr].
      * rewrite K1. by apply HH.
      * rewrite K3 by (unfold child_of in *; lia). by apply HB.
  - intros g c' Hg Hgc Hc' Hce'. assert (g = root) as -> by (unfold child_of in *; lia).
    rewrite K1, K3 by (unfold child_of in *; lia). apply HB; [lia|done|done|lia].
  - exists v'. split; [done|]. split; [by eapply shuffled_trans|done].
Qed.

Lemma heapify_spec i (v : list Range) :
  zlen v < 2 ^ 62 → (i ≤ length v)%nat → heap (Z.of_nat i) (zlen v) v →
  ∃ v', heapify i v (zlen v) = Ret v' ∧ shuffled (zlen v) v v' ∧ heap 0 (zlen v) v'.
Proof.
  revert v. induction i as [|i IH]; intros v Hv Hi HP; [exists v; split; [done|]; split; [apply shuffled_refl|done]|].
  cbn [heapify].
  destruct (sift_down_spec (length v) v (Z.of_nat i) (Z.of_nat i) (zlen v)) as (v1 & -> & HS & HP1); [lia|lia|lia|zlia|zlia|lia| | |].
  - intros p c Hp Hc Hce Hne. apply HP; [lia|done|done].
  - intros g c Hg Hgc. unfold child_of in Hgc. lia.
  - cbn [obind]. pose proof (sh_len _ _ _ HS) as Hl. assert (Hz : zlen v = zlen v1) by zlia. rewrite Hz in *.
    destruct (IH v1) as (v' & Hrun & HS' & HP'); [lia|lia|done|].
    exists v'. split; [done|]. split; [|done]. by eapply shuffled_trans.
Qed.

Lemma heap_max e v i : heap 0 e v → 0 ≤ i < e → key v i ≤ key v 0.
Proof.
  intros HP. assert (Hall : ∀ n j, 0 ≤ j < Z.of_nat n → j < e → key v j ≤ key v 0).
  { induction n as [|n IH]; intros j Hj Hje; [lia|]. destruct (decide (j = 0)) as [->|Hne]; [done|].
    assert (Hp : child_of ((j - 1) / 2) j) by (unfold child_of; dlia).
    transitivity (key v ((j - 1) / 2)); [apply HP; [dlia|done|lia]|]. apply IH; dlia. }
  intros Hi. apply (Hall (S (Z.to_nat i))); lia.
Qed.

(** From [e] on the elements are in order, and none below [e] is above them. *)
Definition done_from (e : Z) (v : list Range) : Prop :=
  ∀ i j, 0 ≤ i ≤ j → e ≤ j < zlen v → key v i ≤ key v j.

Lemma drain_heap_spec e (v : list Range) :
  zlen v < 2 ^ 62 → (e ≤ length v)%nat → heap 0 (Z.of_nat e) v → done_from (Z.of_nat e) v →
  ∃ v', drain_heap e v = Ret v' ∧ v ≡ₚ v' ∧ done_from 0 v'.
Proof.
  revert v. induction e as [|e IH]; intros v Hv He HP HD; [by exists v|]. cbn [drain_heap].
  destruct e as [|e].
  { exists v. split; [done|]. split; [done|]. intros i j Hi Hj. destruct (decide (j = 0)) as [->|].
    - by replace i with 0 by lia.
    - apply HD; lia. }
  set (m := S e) in *. destruct (swap_spec v 0 (Z.of_nat m) (Z.of_nat m + 1)) as (v1 & -> & HS1 & K1 & K2 & K3); [lia..|zlia|].
  cbn [obind]. pose proof (sh_len _ _ _ HS1) as Hl1.
  destruct (sift_down_spec (length v1) v1 0 0 (Z.of_nat m)) as (v2 & -> & HS2 & HP2); [lia|zlia|zlia|lia|lia|lia| | |].
  - intros p c Hp Hc Hcm Hne. assert (c ≠ 0) by (unfold child_of in Hc; lia).
    rewrite !K3 by (unfold child_of in Hc; lia). apply HP; [lia|done|lia].
  - intros g c Hg Hgc. unfold child_of in Hgc. lia.
  - cbn [obind]. pose proof (sh_len _ _ _ HS2) as Hl2.
    assert (Hm : key v2 (Z.of_nat m) = key v 0) by (rewrite (sh_above _ _ _ HS2) by lia; done).
    assert (Hlow : ∀ i, 0 ≤ i < Z.of_nat m → ∃ j, 0 ≤ j ≤ Z.of_nat m ∧ key v2 i = key v j).
    { intros i Hi. destruct (sh_below _ _ _ HS2 i Hi) as (j & Hj & ->).
      destruct (sh_below _ _ _ HS1 j) as (k & Hk & ->); [lia|]. exists k. split; [lia|done]. }
    assert (Hhigh : ∀ i, Z.of_nat m < i → key v2 i = key v i).
    { intros i Hi. rewrite (sh_above _ _ _ HS2) by lia. apply K3; lia. }
    destruct (IH v2) as (v' & -> & Hperm & HD'); [zlia|lia|done| |].
    + intros i j Hi Hj. destruct (decide (j = Z.of_nat m)) as [->|Hjm].
      * rewrite Hm. destruct (decide (i = Z.of_nat m)) as [->|]; [by rewrite Hm|].
        destruct (Hlow i) as (k & Hk & ->); [lia|]. apply (heap_max _ _ _ HP). lia.
      * rewrite (Hhigh j) by lia. destruct (Z.lt_trichotomy i (Z.of_nat m)) as [Hlt|[->|Hgt]].
        -- destruct (Hlow i) as (k & Hk & ->); [lia|]. apply HD; zlia.
        -- rewrite Hm. apply HD; zlia.
        -- rewrite Hhigh by done. apply HD; zlia.
    + exists v'. split; [done|]. split; [|done].
      by rewrite (sh_perm _ _ _ HS1), (sh_perm _ _ _ HS2).
Qed.

Definition by_start (a b : Range) : Prop := start a ≤ start b.

Lemma done_sorted v : done_from 0 v → StronglySorted by_start v.
Proof.
  induction v as [|x v IH]; intros HD; [constructor|]. constructor.
  - apply IH. intros i j Hi Hj. specialize (HD (i + 1) (j + 1) ltac:(lia) ltac:(zlia)). unfold key in *.
    by rewrite !Z2Nat.inj_add, !Nat.add_1_r in HD by lia.
  - apply Forall_lookup. intros i y Hy. specialize (HD 0 (Z.of_nat (S i)) ltac:(lia)). unfold key, by_start in *.
    rewrite Nat2Z.id in HD. simpl in HD. rewrite (list_lookup_total_correct _ _ _ Hy) in HD. apply HD.
    apply lookup_lt_Some in Hy. zlia.
Qed.

Lemma sort_by_start_spec v :
  zlen v < 2 ^ 62 → ∃ v', sort_by_start v = Ret v' ∧ v ≡ₚ v' ∧ StronglySorted by_start v'.
Proof.
  intros Hv. unfold sort_by_start. change (Z.of_nat (length v)) with (zlen v).
  assert (Hhalf : (length v / 2 ≤ length v)%nat) by (apply Nat.Div0.div_le_upper_bound; lia).
  destruct (heapify_spec (length v / 2) v Hv Hhalf) as (v1 & -> & HS & HP).
  { intros p c Hp Hc Hce. unfold child_of in Hc. rewrite Nat2Z.inj_div in Hp. zlia || (unfold zlen in *; dlia). }
  cbn [obind]. pose proof (sh_len _ _ _ HS) as Hl.
  destruct (drain_heap_spec (length v1) v1) as (v' & -> & Hperm & HD); [zlia|done|by rewrite Hl|intros i j Hi Hj; zlia|].
  exists v'. split; [done|]. split; [by rewrite (sh_perm _ _ _ HS)|by apply done_sorted].
Qed.
