(* ===== verification/KvaRep.v ===== *)
(** * The node pool of the virtual address allocator as a list of ranges

    What the nodes, links and spare slots of [Kva] in src/crates/core/src/mm/kva.rs
    stand for, and what each operation does to it. *)

From stdpp Require Import base gmap list numbers strings sorting.
From S2P Require Import Prelude Kva KvaSort.

Local Open Scope Z_scope.

Import Kva.

(** ** Chains of node indices *)
Fixpoint chain (nx : list (option Z)) (ixs : list Z) : Prop :=
  match ixs with
  | [] => True
  | i :: ixs => nx !! Z.to_nat i = Some (list.head ixs) ∧ chain nx ixs
  end.

(** Node [i] of the pool holds a value. *)
Definition holds {A} (l : list A) (i : Z) (x : A) : Prop := 0 ≤ i ∧ l !! Z.to_nat i = Some x.

Lemma holds_index {A} (l : list A) i x : holds l i x → index l i = Ret x.
Proof. intros [Hi Hx]. by apply index_ret. Qed.

Lemma holds_bound {A} (l : list A) i x : holds l i x → 0 ≤ i < zlen l.
Proof. intros [Hi Hx]. apply lookup_lt_Some in Hx. zlia. Qed.

Lemma holds_set {A} (l : list A) i x j y : 0 ≤ j → j ≠ i → holds l j y → 0 ≤ i → holds (<[Z.to_nat i := x]> l) j y.
Proof. intros Hj Hne [_ Hy] Hi. split; [done|]. rewrite list_lookup_insert_ne by lia. done. Qed.

Lemma holds_set_eq {A} (l : list A) i x : 0 ≤ i < zlen l → holds (<[Z.to_nat i := x]> l) i x.
Proof. intros Hi. split; [lia|]. apply list_lookup_insert_eq. zlia. Qed.

Lemma chain_frame nx i x ixs : 0 ≤ i → Forall (λ j, 0 ≤ j) ixs → i ∉ ixs → chain nx ixs → chain (<[Z.to_nat i := x]> nx) ixs.
Proof.
  intros Hi. induction ixs as [|j ixs IH]; intros Hpos Hn Hc; [done|]. destruct Hc as [Hj Hc].
  apply Forall_cons in Hpos as [Hj0 Hpos]. split; [|apply IH; [done|set_solver|done]].
  rewrite list_lookup_insert_ne; [done|]. assert (i ≠ j) by set_solver. lia.
Qed.

Lemma chain_app nx l1 l2 :
  chain nx (l1 ++ l2) ↔
  chain nx l2 ∧ ∀ p j rest, l1 = p ++ j :: rest → nx !! Z.to_nat j = Some (list.head (rest ++ l2)).
Proof.
  revert l2. induction l1 as [|i l1 IH]; intros l2; simpl.
  { split; [|tauto]. intros Hc. split; [done|]. intros [|??] j rest; discriminate. }
  rewrite IH. split.
  - intros (Hi & Hc & Hall). split; [done|]. intros [|x p] j rest; intros [= -> ->]; [done|]. by eapply Hall.
  - intros (Hc & Hall). split; [by apply (Hall [])|]. split; [done|]. intros p j rest ->. by apply (Hall (i :: p)).
Qed.

(** The last link of a chain redirected. *)
Lemma chain_snoc nx l1 p l2 l2' :
  chain nx (l1 ++ p :: l2) → Forall (λ j, 0 ≤ j) (l1 ++ [p]) → p ∉ l1 → p ∉ l2' → Forall (λ j, 0 ≤ j) l2' →
  (Z.to_nat p < length nx)%nat → chain nx l2' →
  chain (<[Z.to_nat p := list.head l2']> nx) (l1 ++ p :: l2').
Proof.
  intros Hc Hpos Hp1 Hp2 Hpos2 Hlt Hc2. rewrite Forall_app, Forall_singleton in Hpos. destruct Hpos as [Hpos1 Hp0].
  apply chain_app in Hc as [_ Hall]. apply chain_app. split.
  - simpl. split; [by apply list_lookup_insert_eq|]. by apply chain_frame.
  - intros q j rest ->. rewrite list_lookup_insert_ne; [rewrite (Hall q j rest eq_refl); by destruct rest|].
    rewrite Forall_app, Forall_cons in Hpos1. assert (j ≠ p) by set_solver. lia.
Qed.

Section rep.
Context (MAX_RANGES : Z).

(** The free list [fl] on the nodes [ixs], and the spare nodes. *)
Record kva_rep (k : Kva) (ixs : list Z) (fl : list Range) (spare : list Z) : Prop := {
  kr_nodes : zlen (nodes k) = MAX_RANGES;
  kr_next : zlen (next k) = MAX_RANGES;
  kr_slots : zlen (slots k) = MAX_RANGES;
  kr_head : head k = list.head ixs;
  kr_tail : tail k = last ixs;
  kr_chain : chain (next k) ixs;
  kr_held : Forall2 (holds (nodes k)) ixs fl;
  kr_spare : ∃ junk, slots k = spare ++ junk;
  kr_nslots : nslots k = zlen spare;
  kr_all : ixs ++ spare ≡ₚ (Z.of_nat <$> seq 0 (Z.to_nat MAX_RANGES));
  kr_empty : ∀ i, i ∈ spare → ∃ r, nodes k !! Z.to_nat i = Some r ∧ len r = 0;
  kr_full : Forall (λ r, 0 < len r) fl
}.

Lemma kr_nodup k ixs fl spare : kva_rep k ixs fl spare → NoDup (ixs ++ spare).
Proof.
  intros HR. rewrite (kr_all _ _ _ _ HR). apply NoDup_fmap_2; [apply _|apply NoDup_seq].
Qed.

Lemma kr_range k ixs fl spare i : kva_rep k ixs fl spare → i ∈ ixs ++ spare ↔ 0 ≤ i < MAX_RANGES.
Proof.
  intros HR. rewrite (kr_all _ _ _ _ HR), list_elem_of_fmap. pose proof (kr_nodes _ _ _ _ HR). split.
  - intros (n & -> & Hn%elem_of_seq). zlia.
  - intros Hi. exists (Z.to_nat i). split; [lia|]. apply elem_of_seq. lia.
Qed.

Lemma kr_pos k ixs fl spare : kva_rep k ixs fl spare → Forall (λ j, 0 ≤ j) ixs.
Proof. intros HR. apply Forall_forall. intros i Hi. apply (kr_range k ixs fl spare i HR). set_solver. Qed.

Lemma kr_count k ixs fl spare : kva_rep k ixs fl spare → zlen fl = zlen ixs ∧ zlen ixs + zlen spare = MAX_RANGES.
Proof.
  intros HR. pose proof (Permutation_length (kr_all _ _ _ _ HR)) as Hl. pose proof (Forall2_length _ _ _ (kr_held _ _ _ _ HR)).
  pose proof (kr_nodes _ _ _ _ HR). rewrite length_fmap, length_seq in Hl. zlia.
Qed.

(** ** Spare slots *)
Lemma alloc_slot_spec k ixs fl spare i :
  kva_rep k ixs fl (spare ++ [i]) → MAX_RANGES < 2 ^ 62 →
  alloc_slot k = Ret (Some i, set_slots (slots k) (zlen spare) k).
Proof.
  intros HR HM. unfold alloc_slot. rewrite (kr_nslots _ _ _ _ HR). rewrite (proj2 (Z.eqb_neq _ 0)) by zlia.
  destruct (kr_count _ _ _ _ HR). rewrite subc_ret by zlia. cbn [obind].
  replace (zlen (spare ++ [i]) - 1) with (zlen spare) by zlia. destruct (kr_spare _ _ _ _ HR) as [junk ->].
  rewrite <-app_assoc. cbn [app]. by rewrite index_mid by done.
Qed.

(** ** unlink *)
Lemma kva_unlink_spec k ixs1 i ixs2 fl spare :
  kva_rep k (ixs1 ++ i :: ixs2) fl spare →
  ∃ k', unlink (last ixs1) i k = Ret k' ∧ chain (next k') (ixs1 ++ ixs2) ∧ zlen (next k') = MAX_RANGES ∧
    head k' = list.head (ixs1 ++ ixs2) ∧ tail k' = last (ixs1 ++ ixs2) ∧
    k' = set_lists (nodes k) (next k') (head k') (tail k') k.
Proof.
  intros HR. pose proof (kr_chain _ _ _ _ HR) as Hc. pose proof (kr_pos _ _ _ _ HR) as Hpos.
  pose proof (kr_nodup _ _ _ _ HR) as Hnd. rewrite <-app_assoc in Hnd. apply NoDup_app in Hnd as (Hnd1 & Hdis & Hnd).
  simpl in Hnd, Hdis. apply NoDup_cons in Hnd as [Hi2 Hnd2].
  assert (Hi : 0 ≤ i < MAX_RANGES) by (apply (kr_range _ _ _ _ i HR); set_solver).
  assert (Hi1 : i ∉ ixs1) by (intros Hin; apply (Hdis i Hin); set_solver).
  pose proof (kr_next _ _ _ _ HR) as Hnx. pose proof Hc as [[Hin Hc2] Hc1]%chain_app.
  rewrite !Forall_app, Forall_cons in Hpos. destruct Hpos as (Hp1 & Hp0 & Hp2).
  unfold unlink. rewrite (index_ret _ i (list.head ixs2)) by (done || lia). cbn [obind].
  assert (Htl : (if bool_decide (tail k = Some i) then last ixs1 else tail k) = last (ixs1 ++ ixs2)).
  { rewrite (kr_tail _ _ _ _ HR), last_app, last_cons, last_app. destruct (last ixs2) as [x|] eqn:E; simpl.
    - rewrite bool_decide_false; [done|]. intros [= ->]. apply Hi2. apply elem_of_app. left. by eapply last_Some_elem_of.
    - by rewrite bool_decide_true. }
  rewrite Htl. destruct ixs1 as [|p ixs1 _] using rev_ind.
  - cbn [last obind fst snd]. rewrite store_ret by lia. cbn [obind]. eexists. split; [done|]. simpl. split_and!; try done; [|zlia].
    apply chain_frame; [lia|done|set_solver|done].
  - rewrite last_snoc. rewrite Forall_app, Forall_singleton in Hp1. destruct Hp1 as [Hp1 Hpp].
    assert (Hpm : p < MAX_RANGES) by (apply (kr_range _ _ _ _ p HR); set_solver).
    rewrite store_ret by lia. cbn [obind fst snd]. rewrite store_ret by zlia. cbn [obind]. eexists. split; [done|].
    simpl. apply NoDup_app in Hnd1 as (_ & Hdp & _).
    assert (p ∉ ixs1) by (intros Hin'; by apply (Hdp p Hin'), list_elem_of_singleton).
    assert (p ∉ ixs2) by (intros Hin'; apply (Hdis p); set_solver).
    rewrite <-app_assoc in *. simpl in *. split_and!; [|zlia| |done|done].
    + apply chain_frame; [lia|by apply Forall_app; split; [|by constructor]|set_solver|].
      eapply chain_snoc; [exact Hc|by apply Forall_app; split; [|by constructor]|done|done|done|zlia|done].
    + rewrite (kr_head _ _ _ _ HR). by destruct ixs1.
Qed.

Lemma held_frame (nd : list Range) i x ixs fl : 0 ≤ i → i ∉ ixs → Forall2 (holds nd) ixs fl → Forall2 (holds (<[Z.to_nat i := x]> nd)) ixs fl.
Proof.
  intros Hi Hn HF. induction HF as [|j r ixs fl Hj HF IH]; [constructor|]. constructor; [|apply IH; set_solver].
  apply holds_set; [apply Hj|set_solver|done|done].
Qed.

(** A node taken off the list becomes spare. *)
Lemma take_off k ixs1 i ixs2 f1 r f2 spare :
  kva_rep k (ixs1 ++ i :: ixs2) (f1 ++ r :: f2) spare → length ixs1 = length f1 → MAX_RANGES < 2 ^ 62 →
  ∃ k', (k1 <~ unlink (last ixs1) i k;; free_slot i k1) = Ret k' ∧
    kva_rep k' (ixs1 ++ ixs2) (f1 ++ f2) (spare ++ [i]) ∧ live k' = live k ∧ used k' = used k ∧ capacity k' = capacity k.
Proof.
  intros HR Hlen HM. destruct (kva_unlink_spec k ixs1 i ixs2 _ spare HR) as (k1 & -> & Hc & Hnl & Hh & Ht & Hk1).
  cbn [obind]. pose proof (kr_nodup _ _ _ _ HR) as Hnd. destruct (kr_count _ _ _ _ HR) as [Hcf Hci].
  assert (Hi : 0 ≤ i < MAX_RANGES) by (apply (kr_range _ _ _ _ i HR); set_solver).
  destruct HR as [Hn1 Hn2 Hn3 _ _ _ Hheld [junk Hsl] Hns Hall Hem Hfull].
  rewrite Hk1. unfold free_slot. cbn [slots nslots nodes set_lists set_slots next head tail live used capacity].
  rewrite Hns, Hsl. destruct junk as [|j junk]; [rewrite Hsl in Hn3; zlia|].
  rewrite store_mid by done. cbn [obind]. rewrite addc_ret by zlia. cbn [obind]. rewrite store_ret by lia. cbn [obind].
  eexists. split; [done|]. split; [|done].
  apply Forall2_app_inv in Hheld as [Hh1 Hh2]; [|done]. apply Forall2_cons in Hh2 as [_ Hh2].
  rewrite <-app_assoc in Hnd. simpl in Hnd. apply NoDup_app in Hnd as (_ & Hd & Hnd). apply NoDup_cons in Hnd as [Hd2 _].
  assert (Hi1 : i ∉ ixs1) by (intros Hin; apply (Hd i Hin); set_solver).
  assert (Hi2 : i ∉ ixs2 ∧ i ∉ spare) by set_solver. destruct Hi2 as [Hi2 His].
  rewrite Forall_app, Forall_cons in Hfull. destruct Hfull as (Hf1 & _ & Hf2).
  split; cbn; try done.
  - zlia.
  - rewrite Hsl in Hn3. zlia.
  - apply Forall2_app; by apply held_frame; [lia|..].
  - exists junk. by rewrite <-app_assoc.
  - zlia.
  - rewrite <-Hall, <-!app_assoc. apply Permutation_app_head. rewrite (Permutation_app_comm spare [i]), app_assoc.
    rewrite (Permutation_app_comm ixs2 [i]). done.
  - intros x [Hx| ->%list_elem_of_singleton]%elem_of_app.
    + rewrite list_lookup_insert_ne; [by apply Hem|]. assert (x ≠ i) by set_solver.
      assert (0 ≤ x); [|lia]. assert (Hx' : x ∈ (ixs1 ++ i :: ixs2) ++ spare) by set_solver.
      rewrite Hall in Hx'. apply list_elem_of_fmap in Hx' as (n & -> & _). lia.
    + exists no_range. rewrite list_lookup_insert_eq by zlia. done.
  - by apply Forall_app.
Qed.

(** A node's range replaced by another that is not empty. *)
Lemma shorten k ixs1 i ixs2 f1 r f2 spare r' :
  kva_rep k (ixs1 ++ i :: ixs2) (f1 ++ r :: f2) spare → length ixs1 = length f1 → 0 < len r' →
  kva_rep (set_lists (<[Z.to_nat i := r']> (nodes k)) (next k) (head k) (tail k) k)
    (ixs1 ++ i :: ixs2) (f1 ++ r' :: f2) spare.
Proof.
  intros HR Hlen Hpos. pose proof (kr_nodup _ _ _ _ HR) as Hnd.
  assert (Hi : 0 ≤ i < MAX_RANGES) by (apply (kr_range _ _ _ _ i HR); set_solver).
  assert (Hsp : ∀ j, j ∈ spare → 0 ≤ j < MAX_RANGES) by (intros j Hj; apply (kr_range _ _ _ _ j HR); set_solver).
  destruct HR as [Hn1 Hn2 Hn3 Hh Ht Hc Hheld Hsl Hns Hall Hem Hfull].
  apply Forall2_app_inv in Hheld as [Hh1 Hh2]; [|done]. apply Forall2_cons in Hh2 as [_ Hh2].
  rewrite <-app_assoc in Hnd. simpl in Hnd. apply NoDup_app in Hnd as (_ & Hd & Hnd). apply NoDup_cons in Hnd as [Hd2 _].
  assert (Hi1 : i ∉ ixs1) by (intros Hin; apply (Hd i Hin); set_solver).
  split; cbn; try done.
  - zlia.
  - apply Forall2_app; [by apply held_frame; [lia|..]|]. constructor; [by apply holds_set_eq; rewrite Hn1|].
    apply held_frame; [lia|set_solver|done].
  - intros x Hx. rewrite list_lookup_insert_ne; [by apply Hem|]. assert (x ≠ i) by set_solver.
    specialize (Hsp x Hx). lia.
  - rewrite Forall_app, Forall_cons in *. naive_solver.
Qed.

(** ** First fit *)
Fixpoint fit (n : Z) (fl : list Range) : option (Z * list Range) :=
  match fl with
  | [] => None
  | r :: fl =>
      if n <=? len r then
        Some (start r, if len r =? n then fl else mkRange (start r + n) (len r - n) :: fl)
      else match fit n fl with Some (s, fl) => Some (s, r :: fl) | None => None end
  end.

(** Addresses and sizes that stay in 64 bits. *)
Definition in_window (r : Range) : Prop := 0 ≤ start r ∧ 0 ≤ len r ∧ start r + len r ≤ 2 ^ 64 - 1.

Lemma first_fit_spec fuel k ixs1 ixs2 f1 f2 spare n :
  kva_rep k (ixs1 ++ ixs2) (f1 ++ f2) spare → length ixs1 = length f1 → (length ixs2 < fuel)%nat → 0 < n →
  MAX_RANGES < 2 ^ 62 → Forall in_window (f1 ++ f2) → 0 ≤ used k → (∀ r, r ∈ f2 → n ≤ len r → used k + n < 2 ^ 64) →
  0 ≤ live k < 2 ^ 62 →
  match fit n f2 with
  | None => first_fit fuel k n (last ixs1) (list.head ixs2) = Ret (None, k)
  | Some (s, f2') => ∃ k' ixs' spare', first_fit fuel k n (last ixs1) (list.head ixs2) = Ret (Some s, k') ∧
      kva_rep k' ixs' (f1 ++ f2') spare' ∧ live k' = live k + 1 ∧ used k' = used k + n ∧ capacity k' = capacity k
  end.
Proof.
  revert ixs1 ixs2 f1 f2. induction fuel as [|fuel IH]; intros ixs1 ixs2 f1 f2 HR Hl Hf Hn HM Hw Hu Hun Hlv; [lia|].
  pose proof (kr_held _ _ _ _ HR) as Hheld. apply Forall2_app_inv in Hheld as [Hh1 Hh2]; [|done].
  cbn [first_fit]. destruct Hh2 as [|i r ixs2 f2 Hi Hh2]; [done|]. cbn [list.head fit].
  rewrite (holds_index _ _ _ Hi). cbn [obind]. destruct (Z.leb_spec n (len r)) as [Hle|Hgt].
  - rewrite Forall_app, Forall_cons in Hw. destruct Hw as (_ & [Hw1 [Hw2 Hw3]] & _).
    specialize (Hun r ltac:(set_solver) Hle). destruct (Z.eqb_spec (len r) n) as [Heq|Hne].
    + destruct (take_off k ixs1 i ixs2 f1 r f2 spare HR Hl HM) as (k' & -> & HR' & H1 & H2 & H3). cbn [obind].
      rewrite H1, H2, !addc_ret by zlia. cbn [obind]. eexists _, _, _. split; [done|].
      split; [|done]. destruct HR'. by split.
    + rewrite addc_ret by zlia. cbn [obind]. rewrite subc_ret by zlia. cbn [obind].
      pose proof (holds_bound _ _ _ Hi). rewrite store_ret by done. cbn [obind]. cbn [used live set_lists].
      rewrite !addc_ret by zlia. cbn [obind]. eexists _, _, _. split; [done|].
      pose proof (shorten k ixs1 i ixs2 f1 r f2 spare (mkRange (start r + n) (len r - n)) HR Hl) as HR'.
      specialize (HR' ltac:(cbn; lia)). split; [|done]. destruct HR'. by split.
  - assert (Hnx : index (next k) i = Ret (list.head ixs2)).
    { pose proof (kr_chain _ _ _ _ HR) as [[Hin _] _]%chain_app. apply index_ret; [apply Hi|done]. }
    rewrite Hnx. cbn [obind]. specialize (IH (ixs1 ++ [i]) ixs2 (f1 ++ [r]) f2).
    rewrite <-!app_assoc, last_snoc in IH. simpl in IH.
    specialize (IH HR ltac:(rewrite !length_app; simpl; lia) ltac:(simpl in Hf; lia) Hn HM Hw Hu ltac:(set_solver) Hlv).
    destruct (fit n f2) as [[s f2']|]; [|done]. destruct IH as (k' & ixs' & spare' & Hrun & HR' & Hrest).
    exists k', ixs', spare'. split; [done|]. rewrite <-app_assoc in HR'. done.
Qed.
End rep.
