(* ===== verification/KvaCoalesce.v ===== *)
(** * Coalescing the free ranges

    [coalesce_all] and [free] of src/crates/core/src/mm/kva.rs: the pool's free
    ranges gathered, sorted, joined where they meet and relinked in address
    order. *)

From stdpp Require Import base gmap list numbers strings sorting.
From S2P Require Import Prelude Kva KvaSort KvaRep.

Local Open Scope Z_scope.

Import Kva.

(** Overwriting the first element of a gap that ends with [x]. *)
Lemma gap_head {A} (G : list A) x : ∃ y Y, G ++ [x] = y :: Y ∧ length Y = length G.
Proof.
  destruct G as [|g G]; [by exists x, []|]. exists g, (G ++ [x]). split; [done|]. rewrite length_app. simpl. lia.
Qed.

Lemma store_gap {A} (F G R : list A) x y i :
  i = zlen F → ∃ Y, store (F ++ G ++ x :: R) i y = Ret ((F ++ [y]) ++ Y ++ R) ∧ length Y = length G.
Proof.
  intros ->. destruct (gap_head G x) as (z & Y & HG & HY). exists Y. split; [|done].
  rewrite (cons_middle x G R), (app_assoc G), HG. simpl. rewrite store_mid by done. by rewrite <-app_assoc.
Qed.

(** ** gather *)
Definition nonempty (l : list Range) : list Range := filter (λ r, 0 < len r) l.

Lemma nonempty_cons x l : nonempty (x :: l) = if decide (0 < len x) then x :: nonempty l else nonempty l.
Proof. unfold nonempty. by rewrite filter_cons. Qed.

Lemma gather_spec rest m r nd n F G :
  nd = F ++ G ++ rest → r = zlen (F ++ G) → n = zlen F → m = length rest → zlen nd < 2 ^ 62 →
  ∃ G', gather m r nd n = Ret ((F ++ nonempty rest) ++ G', zlen (F ++ nonempty rest)) ∧
        length ((F ++ nonempty rest) ++ G') = length nd.
Proof.
  revert m r nd n F G. induction rest as [|x rest IH]; intros m r nd n F G Hnd -> -> -> Hlt; subst nd.
  { exists G. cbn. rewrite !app_nil_r. done. }
  cbn [length gather]. rewrite (app_assoc F G), index_mid by done. cbn [obind]. rewrite nonempty_cons.
  destruct (Z.ltb_spec 0 (len x)) as [Hpos|Hz]; [rewrite decide_True by done|rewrite decide_False by lia].
  - rewrite <-app_assoc. destruct (store_gap F G rest x x (zlen F) eq_refl) as (Y & -> & HY). cbn [obind].
    rewrite addc_ret by zlia. cbn [obind].
    destruct (IH (length rest) (zlen (F ++ G) + 1) ((F ++ [x]) ++ Y ++ rest) (zlen F + 1) (F ++ [x]) Y)
      as (G' & -> & Hl); [done|zlia|zlia|done|zlia|].
    exists G'. rewrite <-(app_assoc F [x]) in *. simpl in *. split; [done|]. rewrite Hl. zlia.
  - destruct (IH (length rest) (zlen (F ++ G) + 1) ((F ++ G) ++ x :: rest) (zlen F) F (G ++ [x]))
      as (G' & -> & Hl); [by rewrite <-!app_assoc|zlia|done|done|rewrite <-app_assoc; done|].
    exists G'. split; [done|]. rewrite Hl. by rewrite <-app_assoc.
Qed.

(** ** merge *)

(** The ranges from [p] on, each joined to the one before it when they meet. *)
Fixpoint joined (p : Range) (X : list Range) : list Range :=
  match X with
  | [] => [p]
  | x :: X =>
      if start p + len p =? start x then joined (mkRange (start p) (len p + len x)) X
      else p :: joined x X
  end.
Definition join_all (X : list Range) : list Range :=
  match X with [] => [] | x :: X => joined x X end.

Lemma merge_step_spec X m r nd w A p G R :
  nd = (A ++ [p]) ++ G ++ X ++ R → r = zlen ((A ++ [p]) ++ G) → w = zlen (A ++ [p]) → m = length X → zlen nd < 2 ^ 62 →
  in_window p → Forall in_window X →
  ∃ R', merge m r nd w = Ret ((A ++ joined p X) ++ R', zlen (A ++ joined p X)) ∧
        length ((A ++ joined p X) ++ R') = length nd.
Proof.
  revert m r nd w A p G. induction X as [|x X IH]; intros m r nd w A p G Hnd -> -> -> Hlt Hp HX; subst nd.
  { exists (G ++ R). done. }
  apply Forall_cons in HX as [Hx HX]. destruct Hp as (Hp1 & Hp2 & Hp3). pose proof Hx as (Hx1 & Hx2 & Hx3).
  cbn [length merge joined].
  assert (index ((A ++ [p]) ++ G ++ (x :: X) ++ R) (zlen ((A ++ [p]) ++ G)) = Ret x) as ->.
  { rewrite (app_assoc (A ++ [p]) G). simpl. by apply index_mid. }
  cbn [obind]. rewrite (proj2 (Z.ltb_lt 0 _)) by zlia. rewrite subc_ret by zlia. cbn [obind].
  replace (zlen (A ++ [p]) - 1) with (zlen A) by zlia. rewrite <-(app_assoc A [p]). cbn [app].
  rewrite index_mid by done. cbn [obind]. rewrite addc_ret by (unfold in_width; lia). cbn [obind].
  destruct (Z.eqb_spec (start p + len p) (start x)) as [Heq|Hne].
  - rewrite addc_ret by (unfold in_width; lia). cbn [obind]. rewrite store_mid by done. cbn [obind].
    set (pj := mkRange (start p) (len p + len x)).
    destruct (IH (length X) (zlen ((A ++ [p]) ++ G) + 1) ((A ++ [pj]) ++ (G ++ [x]) ++ X ++ R) (zlen (A ++ [p])) A pj (G ++ [x]))
      as (R' & Hrun & Hl); [done|zlia|zlia|done|zlia|unfold in_window; cbn; lia|done|].
    exists R'. split; [rewrite <-Hrun; f_equal; by rewrite <-!app_assoc|]. rewrite Hl. zlia.
  - cbn [obind]. rewrite (cons_middle p A), (app_assoc A). simpl.
    destruct (store_gap (A ++ [p]) G (X ++ R) x x (zlen (A ++ [p])) eq_refl) as (Y & -> & HY). cbn [obind].
    rewrite addc_ret by zlia. cbn [obind].
    destruct (IH (length X) (zlen ((A ++ [p]) ++ G) + 1) (((A ++ [p]) ++ [x]) ++ Y ++ X ++ R) (zlen (A ++ [p]) + 1) (A ++ [p]) x Y)
      as (R' & Hrun & Hl); [done|zlia|zlia|done|zlia|done|done|].
    exists R'. rewrite Hrun. rewrite <-(app_assoc A [p]) in *. simpl in *. split; [done|]. rewrite Hl. zlia.
Qed.

Lemma merge_spec X R :
  zlen (X ++ R) < 2 ^ 62 → Forall in_window X →
  ∃ R', merge (length X) 0 (X ++ R) 0 = Ret (join_all X ++ R', zlen (join_all X)) ∧
        length (join_all X ++ R') = length (X ++ R).
Proof.
  intros Hlt HX. destruct X as [|x X]; [by exists R|]. apply Forall_cons in HX as [Hx HX].
  cbn [length merge]. change (index ((x :: X) ++ R) 0) with (Ret x). cbn [obind Z.ltb Z.compare].
  assert (store ((x :: X) ++ R) 0 x = Ret ((x :: X) ++ R)) as -> by (apply (store_mid []); done).
  cbn [obind]. rewrite addc_ret by zlia. cbn [obind].
  destruct (merge_step_spec X (length X) 1 ((x :: X) ++ R) 1 [] x [] R) as (R' & Hrun & Hl); try done.
  exists R'. done.
Qed.

Lemma joined_full p X : 0 < len p → Forall (λ r, 0 < len r) X → Forall (λ r, 0 < len r) (joined p X).
Proof.
  revert p. induction X as [|x X IH]; intros p Hp HX; simpl; [by constructor|]. apply Forall_cons in HX as [Hx HX].
  destruct (_ =? _); [apply IH; [simpl; lia|done]|constructor; auto].
Qed.

Lemma joined_window p X : in_window p → Forall in_window X → Forall in_window (joined p X).
Proof.
  revert p. induction X as [|x X IH]; intros p Hp HX; simpl; [by constructor|]. apply Forall_cons in HX as [Hx HX].
  destruct (Z.eqb_spec (start p + len p) (start x)) as [Heq|]; [apply IH; [|done]|constructor; auto].
  destruct Hp as (? & ? & ?), Hx as (? & ? & ?). unfold in_window. simpl. lia.
Qed.

Lemma joined_length p X : (0 < length (joined p X) ≤ S (length X))%nat.
Proof. revert p. induction X as [|x X IH]; intros p; simpl; [lia|]. destruct (_ =? _); [specialize (IH (mkRange (start p) (len p + len x)))|specialize (IH x)]; simpl; lia. Qed.

(** ** Relinking *)
Definition upto (a : Z) (n : nat) : list Z := Z.of_nat <$> seq (Z.to_nat a) n.

Lemma upto_S a n : 0 ≤ a → upto a (S n) = a :: upto (a + 1) n.
Proof. intros Ha. unfold upto. simpl. f_equal; [lia|]. by replace (Z.to_nat (a + 1)) with (S (Z.to_nat a)) by lia. Qed.

Lemma elem_of_upto a n i : 0 ≤ a → i ∈ upto a n ↔ a ≤ i < a + Z.of_nat n.
Proof.
  intros Ha. unfold upto. rewrite list_elem_of_fmap. split.
  - intros (m & -> & Hm%elem_of_seq). lia.
  - intros Hi. exists (Z.to_nat i). split; [lia|]. apply elem_of_seq. lia.
Qed.

Lemma link_all_spec m i nx :
  1 ≤ i → i - 1 + Z.of_nat m ≤ zlen nx →
  ∃ nx', link_all m i nx = Ret nx' ∧ length nx' = length nx ∧
    ∀ j, 0 ≤ j → nx' !! Z.to_nat j = if decide (i - 1 ≤ j < i - 1 + Z.of_nat m) then Some (Some (j + 1)) else nx !! Z.to_nat j.
Proof.
  revert i nx. induction m as [|m IH]; intros i nx Hi Hm.
  { exists nx. split_and!; [done|done|]. intros j Hj. by rewrite decide_False by lia. }
  cbn [link_all]. rewrite store_ret by lia. cbn [obind].
  destruct (IH (i + 1) (<[Z.to_nat (i - 1):=Some i]> nx)) as (nx' & -> & Hl & Hall); [lia|zlia|].
  exists nx'. split_and!; [done|by rewrite Hl, length_insert|]. intros j Hj. rewrite Hall by done.
  destruct (decide (j = i - 1)) as [->|Hne].
  - rewrite decide_False, decide_True, list_lookup_insert_eq by zlia. do 2 f_equal. lia.
  - rewrite list_lookup_insert_ne by lia. repeat case_decide; done || lia.
Qed.

Lemma upto_chain nx a n :
  0 ≤ a → (∀ j, a ≤ j < a + Z.of_nat n - 1 → nx !! Z.to_nat j = Some (Some (j + 1))) →
  ((0 < n)%nat → nx !! Z.to_nat (a + Z.of_nat n - 1) = Some None) → chain nx (upto a n).
Proof.
  revert a. induction n as [|n IH]; intros a Ha Hall Hlast; [done|]. rewrite upto_S by done. split.
  - destruct n as [|n].
    + specialize (Hlast ltac:(lia)). by replace (a + Z.of_nat 1 - 1) with a in Hlast by lia.
    + rewrite upto_S by lia. simpl. rewrite Hall by lia. done.
  - apply IH; [lia| |].
    + intros j Hj. apply Hall. lia.
    + intros Hn. specialize (Hlast ltac:(lia)). by replace (a + 1 + Z.of_nat n - 1) with (a + Z.of_nat (S n) - 1) by lia.
Qed.

Lemma spare_all_spec m i S junk :
  0 ≤ i → (m ≤ length junk)%nat → zlen (S ++ junk) < 2 ^ 62 →
  ∃ junk', spare_all m i (S ++ junk) (zlen S) = Ret ((S ++ upto i m) ++ junk', zlen (S ++ upto i m)) ∧
    length ((S ++ upto i m) ++ junk') = length (S ++ junk).
Proof.
  revert i S junk. induction m as [|m IH]; intros i S junk Hi Hm Hlt.
  { exists junk. unfold upto. simpl. by rewrite app_nil_r. }
  destruct junk as [|j junk]; [simpl in Hm; lia|]. cbn [spare_all]. rewrite store_mid by done. cbn [obind].
  rewrite addc_ret by zlia. cbn [obind]. destruct (IH (i + 1) (S ++ [i]) junk) as (junk' & Hrun & Hl); [lia|simpl in Hm; lia|zlia|].
  exists junk'. rewrite upto_S by done. replace (zlen S + 1) with (zlen (S ++ [i])) by zlia.
  rewrite <-(app_assoc S [i] junk), <-(app_assoc S [i] (upto (i + 1) m)) in Hrun, Hl. cbn [app] in *.
  rewrite Hrun. split; [done|]. rewrite Hl. zlia.
Qed.

Section coalesce.
Context (MAX_RANGES : Z) (HM : 0 < MAX_RANGES < 2 ^ 62).

Lemma nodes_list (nd : list Range) : nd = (λ i, nd !!! Z.to_nat i) <$> upto 0 (length nd).
Proof.
  apply list_eq. intros i. unfold upto. rewrite !list_lookup_fmap. destruct (decide (i < length nd)%nat) as [Hlt|Hge].
  - rewrite lookup_seq_lt by done. simpl. rewrite Nat2Z.id. by apply list_lookup_lookup_total_lt.
  - rewrite lookup_seq_ge, lookup_ge_None_2 by lia. done.
Qed.

#[local] Instance nonempty_perm : Proper ((≡ₚ) ==> (≡ₚ)) nonempty.
Proof. intros l1 l2 Hl. unfold nonempty. by rewrite Hl. Qed.

Lemma held_values (nd : list Range) ixs fl :
  Forall2 (holds nd) ixs fl → (λ i, nd !!! Z.to_nat i) <$> ixs = fl.
Proof.
  induction 1 as [|i r ixs fl [_ Hi] Hh IH]; [done|]. rewrite fmap_cons, IH.
  f_equal. by apply list_lookup_total_correct.
Qed.

Lemma gathered_perm k ixs fl spare : kva_rep MAX_RANGES k ixs fl spare → nonempty (nodes k) ≡ₚ fl.
Proof.
  intros HR. rewrite (nodes_list (nodes k)) at 1. pose proof (kr_nodes _ _ _ _ _ HR) as Hn.
  replace (length (nodes k)) with (Z.to_nat MAX_RANGES) by zlia. unfold upto. change (Z.to_nat 0) with 0%nat.
  rewrite <-(kr_all _ _ _ _ _ HR), fmap_app, (held_values _ _ _ (kr_held _ _ _ _ _ HR)). unfold nonempty. rewrite filter_app.
  rewrite (filter_none _ ((λ i, nodes k !!! Z.to_nat i) <$> spare)).
  - rewrite app_nil_r, filter_all; [done|]. apply Forall_forall, HR.
  - intros r (i & -> & Hi)%list_elem_of_fmap. destruct (kr_empty _ _ _ _ _ HR i Hi) as (r & Hr & Hz).
    rewrite (list_lookup_total_correct _ _ _ Hr). lia.
Qed.

Lemma upto_app n m : upto 0 n ++ upto (Z.of_nat n) m = upto 0 (n + m).
Proof. unfold upto. rewrite seq_app, fmap_app. by rewrite Nat2Z.id. Qed.

Lemma held_upto (nd : list Range) a fl :
  0 ≤ a → (∀ i r, fl !! i = Some r → nd !! (Z.to_nat a + i)%nat = Some r) → Forall2 (holds nd) (upto a (length fl)) fl.
Proof.
  revert a. induction fl as [|r fl IH]; intros a Ha Hall; [constructor|]. cbn [length]. rewrite upto_S by done.
  constructor.
  - split; [done|]. specialize (Hall 0%nat r eq_refl). by rewrite Nat.add_0_r in Hall.
  - apply IH; [lia|]. intros i x Hx. specialize (Hall (S i) x Hx).
    by replace (Z.to_nat (a + 1) + i)%nat with (Z.to_nat a + S i)%nat by lia.
Qed.

Lemma last_upto n : (0 < n)%nat → last (upto 0 n) = Some (Z.of_nat n - 1).
Proof.
  intros Hn. destruct n as [|n]; [lia|]. unfold upto. rewrite seq_S, fmap_app. simpl. rewrite last_snoc. f_equal. lia.
Qed.

(** The pool after coalescing: the joined ranges in order at its front. *)
Lemma relinked_rep k fl nd nx sl junk :
  zlen nd = MAX_RANGES → zlen nx = MAX_RANGES → zlen (sl ++ junk) = MAX_RANGES → (length fl ≤ Z.to_nat MAX_RANGES)%nat →
  nd = fl ++ replicate (length nd - length fl) no_range → Forall (λ r, 0 < len r) fl → chain nx (upto 0 (length fl)) →
  sl = upto (zlen fl) (Z.to_nat (MAX_RANGES - zlen fl)) →
  kva_rep MAX_RANGES (set_lists nd nx (if 0 <? zlen fl then Some 0 else None)
    (if 1 <=? zlen fl then Some (zlen fl - 1) else None) (set_slots (sl ++ junk) (zlen sl) k)) (upto 0 (length fl)) fl sl.
Proof.
  intros Hnd Hnx Hsl Hle Hnds Hfull Hch Hs. split; cbn; try done.
  - destruct fl as [|r fl]; [done|]. rewrite (proj2 (Z.ltb_lt _ _)) by zlia. cbn [length]. by rewrite upto_S.
  - destruct fl as [|r fl]; [done|]. rewrite (proj2 (Z.leb_le _ _)) by zlia. rewrite last_upto by (simpl; lia). f_equal.
  - apply held_upto; [done|]. intros i r Hr. change (Z.to_nat 0 + i)%nat with i. rewrite Hnds.
    by apply lookup_app_l_Some.
  - by exists junk.
  - subst sl. unfold zlen at 1. rewrite upto_app. unfold upto. change (Z.to_nat 0) with 0%nat.
    by replace (length fl + Z.to_nat (MAX_RANGES - zlen fl))%nat with (Z.to_nat MAX_RANGES) by zlia.
  - intros i Hi. subst sl. apply elem_of_upto in Hi; [|zlia]. exists no_range. split; [|done]. rewrite Hnds.
    rewrite lookup_app_r by zlia. apply lookup_replicate. split; [done|]. zlia.
Qed.

Lemma coalesce_spec k ixs fl spare :
  kva_rep MAX_RANGES k ixs fl spare → Forall in_window fl →
  ∃ k' X ixs' spare', coalesce_all MAX_RANGES k = Ret k' ∧ fl ≡ₚ X ∧ StronglySorted by_start X ∧
    kva_rep MAX_RANGES k' ixs' (join_all X) spare' ∧
    live k' = live k ∧ used k' = used k ∧ capacity k' = capacity k.
Proof.
  intros HR HW. unfold coalesce_all. pose proof (gathered_perm _ _ _ _ HR) as Hperm.
  destruct (kr_count _ _ _ _ _ HR) as [Hc1 Hc2]. pose proof (kr_full _ _ _ _ _ HR) as Hfull.
  destruct HR as [Hn1 Hn2 Hn3 _ _ _ _ _ _ _ _ _].
  destruct (gather_spec (nodes k) (Z.to_nat MAX_RANGES) 0 (nodes k) 0 [] []) as (G & -> & Hlg); [done|done|done|zlia|lia|].
  cbn [obind app] in *. set (F := nonempty (nodes k)) in *.
  replace (Z.to_nat (zlen F)) with (length F) by zlia. rewrite take_app_length, drop_app_length.
  destruct (sort_by_start_spec F) as (X & -> & HpX & HsX); [zlia|]. cbn [obind].
  assert (HlX : length F = length X) by (by apply Permutation_length).
  assert (HflX : fl ≡ₚ X) by (by rewrite <-Hperm).
  destruct (merge_spec X G) as (R & Hm & Hlm); [zlia|by rewrite <-HflX|].
  rewrite HlX, Hm. cbn [obind]. set (J := join_all X) in *.
  assert (HJ : (length J ≤ length X)%nat).
  { subst J. destruct X as [|x X]; [done|]. simpl. pose proof (joined_length x X). lia. }
  replace (Z.to_nat (zlen J)) with (length J) by zlia. rewrite take_app_length.
  destruct (link_all_spec (length J - 1) 1 (replicate (length (next k)) None)) as (nx & -> & Hlnx & Hnx); [lia|zlia|].
  cbn [obind]. destruct (spare_all_spec (Z.to_nat (MAX_RANGES - zlen J)) (zlen J) [] (slots k)) as (junk & Hsp & Hls); [zlia|zlia|simpl; lia|].
  simpl in Hsp. change (zlen []) with 0 in Hsp. rewrite Hsp. cbn [obind fst snd].
  eexists _, X, (upto 0 (length J)), _. split; [done|]. split; [done|]. split; [done|]. split; [|done].
  apply relinked_rep; try done; fold J.
  - zlia.
  - zlia.
  - zlia.
  - zlia.
  - f_equal. f_equal. zlia.
  - subst J. rewrite HflX in Hfull. destruct X as [|x X]; [constructor|].
    apply Forall_cons in Hfull as [Hx HX]. by apply joined_full.
  - apply upto_chain; [done|..].
    + intros j Hj. rewrite Hnx, decide_True by lia. done.
    + intros Hpos. rewrite Hnx, decide_False by lia. apply lookup_replicate. split; [done|]. zlia.
Qed.

(** ** free *)
Lemma push_node k ixs fl spare i r :
  kva_rep MAX_RANGES k ixs fl (spare ++ [i]) → 0 < len r →
  ∃ nx hd, (nx <~ store (next k) i None;;
      match tail k with
      | Some t => nx <~ store nx t (Some i);; Ret (nx, head k)
      | None => Ret (nx, Some i)
      end) = Ret (nx, hd) ∧
    ∀ lv us, kva_rep MAX_RANGES (set_use lv us (set_lists (<[Z.to_nat i := r]> (nodes k)) nx hd (Some i)
      (set_slots (slots k) (zlen spare) k))) (ixs ++ [i]) (fl ++ [r]) spare.
Proof.
  intros HR Hr. pose proof (kr_nodup _ _ _ _ _ HR) as Hnd. pose proof (kr_pos _ _ _ _ _ HR) as Hpos.
  assert (Hrange : ∀ j, j ∈ ixs ++ spare ++ [i] → 0 ≤ j < MAX_RANGES) by (intros j Hj; by apply (kr_range _ _ _ _ _ j HR)).
  assert (Hi : 0 ≤ i < MAX_RANGES) by (apply Hrange; set_solver).
  destruct HR as [Hn1 Hn2 Hn3 Hh Ht Hc Hheld [junk Hsl] Hns Hall Hem Hfull].
  apply NoDup_app in Hnd as (Hnd & Hd & (_ & Hds & _)%NoDup_app).
  assert (Hii : i ∉ ixs) by (intros Hin; apply (Hd i Hin); set_solver).
  assert (His : i ∉ spare) by (intros Hin; by apply (Hds i Hin), list_elem_of_singleton).
  rewrite store_ret by lia. cbn [obind].
  assert (∃ nx hd, (match tail k with
      | Some t => nx <~ store (<[Z.to_nat i:=None]> (next k)) t (Some i);; Ret (nx, head k)
      | None => Ret (<[Z.to_nat i:=None]> (next k), Some i) end) = Ret (nx, hd) ∧
      zlen nx = MAX_RANGES ∧ chain nx (ixs ++ [i]) ∧ hd = list.head (ixs ++ [i])) as (nx & hd & Hrun & Hlnx & Hcn & Hhd).
  { assert (Hci : chain (<[Z.to_nat i:=None]> (next k)) [i]) by (split; [apply list_lookup_insert_eq; zlia|done]).
    assert (Hcx : chain (<[Z.to_nat i:=None]> (next k)) ixs) by (apply chain_frame; [lia|done..]).
    rewrite Ht. destruct ixs as [|p ixs _] using rev_ind; [eexists _, _; split; [done|]; split; [zlia|]; done|].
    rewrite last_snoc. assert (Hp : 0 ≤ p < MAX_RANGES) by (apply Hrange; set_solver). rewrite store_ret by zlia.
    cbn [obind]. eexists _, _. split; [done|]. split; [zlia|]. apply NoDup_app in Hnd as (_ & Hdp & _).
    rewrite <-app_assoc. cbn [app]. split; [|rewrite Hh; by destruct ixs].
    apply (chain_snoc _ ixs p [] [i]); [done|done| |set_solver| |zlia|done].
    - intros Hin. by apply (Hdp p Hin), list_elem_of_singleton.
    - constructor; [lia|constructor]. }
  exists nx, hd. split; [done|]. intros lv us. split; cbn; try done.
  - zlia.
  - by rewrite last_snoc.
  - apply Forall2_app; [by apply held_frame; [lia|..]|]. constructor; [|constructor]. apply holds_set_eq. lia.
  - exists (i :: junk). by rewrite Hsl, <-app_assoc.
  - rewrite <-Hall, <-app_assoc. apply Permutation_app_head, Permutation_app_comm.
  - intros j Hj. rewrite list_lookup_insert_ne; [apply Hem; set_solver|].
    assert (j ≠ i) by (by intros ->). specialize (Hrange j ltac:(set_solver)). lia.
  - apply Forall_app. split; [done|]. by constructor.
Qed.

(** The free list a range is appended to. *)
Definition makes_room (fl : list Range) (nslots : Z) (fl' : list Range) : Prop :=
  if nslots =? 0 then ∃ X, fl ≡ₚ X ∧ StronglySorted by_start X ∧ fl' = join_all X else fl' = fl.

Lemma free_spec k ixs fl spare s n :
  kva_rep MAX_RANGES k ixs fl spare → Forall in_window fl →
  n mod PAGE_SIZE = 0 → s mod PAGE_SIZE = 0 → 0 < n → n ≤ used k < 2 ^ 64 → 0 < live k < 2 ^ 62 →
  (∀ fl', makes_room fl (nslots k) fl' → zlen fl' < MAX_RANGES) →
  ∃ k' ixs' spare' fl', free MAX_RANGES s n k = Ret k' ∧ makes_room fl (nslots k) fl' ∧
    kva_rep MAX_RANGES k' ixs' (fl' ++ [mkRange s n]) spare' ∧
    live k' = live k - 1 ∧ used k' = used k - n ∧ capacity k' = capacity k.
Proof.
  intros HR HW Hn Hs Hpos Hu Hl Hroom. unfold free.
  rewrite Hn, Hs, (proj2 (Z.ltb_lt 0 n)), (proj2 (Z.leb_le n _)), (proj2 (Z.ltb_lt 0 (live k))) by lia.
  cbn [oassert obind Z.eqb andb].
  assert (∃ k1 ixs1 spare1 fl1, (if nslots k =? 0 then coalesce_all MAX_RANGES k else Ret k) = Ret k1 ∧
    makes_room fl (nslots k) fl1 ∧ kva_rep MAX_RANGES k1 ixs1 fl1 spare1 ∧ live k1 = live k ∧ used k1 = used k ∧
    capacity k1 = capacity k) as (k1 & ixs1 & spare1 & fl1 & -> & HMR & HR1 & Hl1 & Hu1 & Hc1).
  { unfold makes_room. destruct (nslots k =? 0); [|by exists k, ixs, spare, fl].
    destruct (coalesce_spec k ixs fl spare HR HW) as (k' & X & ixs' & spare' & Hrun & HX & HsX & HR' & H1 & H2 & H3).
    exists k', ixs', spare', (join_all X). split_and!; eauto. }
  cbn [obind]. specialize (Hroom fl1 HMR). destruct (kr_count _ _ _ _ _ HR1) as [Hc2 Hc3].
  destruct spare1 as [|i spare1 _] using rev_ind; [zlia|].
  rewrite (kr_nslots _ _ _ _ _ HR1), (proj2 (Z.ltb_lt 0 _)) by zlia. cbn [oassert obind].
  rewrite subc_ret by zlia. cbn [obind]. replace (zlen (spare1 ++ [i]) - 1) with (zlen spare1) by zlia.
  assert (index (slots k1) (zlen spare1) = Ret i) as ->.
  { destruct (kr_spare _ _ _ _ _ HR1) as [junk ->]. rewrite <-app_assoc. by apply index_mid. }
  cbn [obind]. assert (Hi : 0 ≤ i < MAX_RANGES) by (apply (kr_range _ _ _ _ _ i HR1); set_solver).
  rewrite store_ret by (rewrite (kr_nodes _ _ _ _ _ HR1); done). cbn [obind].
  destruct (push_node k1 ixs1 fl1 spare1 i (mkRange s n) HR1 Hpos) as (nx & hd & Hrun & HR2).
  destruct (store (next k1) i None) as [nx0| | |]; cbn [obind] in Hrun |- *; try done. rewrite Hrun. cbn [obind fst snd].
  rewrite Hu1, Hl1, !subc_ret by zlia. cbn [obind].
  eexists _, _, _, fl1. split; [done|]. split; [done|]. split; [apply HR2|]. done.
Qed.
End coalesce.
