(* ===== verification/KvaProps.v ===== *)
(** * The virtual address allocator never loses or shares an address

    The worlds the operations of src/crates/core/src/mm/kva.rs can reach, the
    invariant that the free and the live ranges tile the window, and the
    allocator's properties. *)

From stdpp Require Import base gmap list numbers strings sorting relations.
From S2P Require Import Prelude Kva KvaSort KvaRep KvaCoalesce.

Local Open Scope Z_scope.

Import Kva.

(** ** Tilings: free ([true]) and live ([false]) ranges from [lo] to [hi] *)
Notation tile := (bool * Range)%type.

Fixpoint tiles (lo hi : Z) (T : list tile) : Prop :=
  match T with
  | [] => lo = hi
  | (_, r) :: T => start r = lo ∧ 0 < len r ∧ tiles (lo + len r) hi T
  end.

Definition frees (T : list tile) : list Range := (filter (λ t, t.1 = true) T).*2.
Definition lives (T : list tile) : list Range := (filter (λ t, t.1 = false) T).*2.

Lemma frees_cons b r T : frees ((b, r) :: T) = if b then r :: frees T else frees T.
Proof. unfold frees. rewrite filter_cons. by destruct b. Qed.

Lemma lives_cons b r T : lives ((b, r) :: T) = if b then lives T else r :: lives T.
Proof. unfold lives. rewrite filter_cons. by destruct b. Qed.

Lemma frees_app T1 T2 : frees (T1 ++ T2) = frees T1 ++ frees T2.
Proof. unfold frees. by rewrite filter_app, fmap_app. Qed.

Lemma lives_app T1 T2 : lives (T1 ++ T2) = lives T1 ++ lives T2.
Proof. unfold lives. by rewrite filter_app, fmap_app. Qed.

Lemma elem_of_frees r T : r ∈ frees T ↔ (true, r) ∈ T.
Proof.
  unfold frees. rewrite list_elem_of_fmap. split.
  - intros ([b x] & -> & [? Hin]%list_elem_of_filter). simpl in *. by subst b.
  - intros Hin. exists (true, r). split; [done|]. by apply list_elem_of_filter.
Qed.

Lemma elem_of_lives r T : r ∈ lives T ↔ (false, r) ∈ T.
Proof.
  unfold lives. rewrite list_elem_of_fmap. split.
  - intros ([b x] & -> & [? Hin]%list_elem_of_filter). simpl in *. by subst b.
  - intros Hin. exists (false, r). split; [done|]. by apply list_elem_of_filter.
Qed.

Lemma tiles_le lo hi T : tiles lo hi T → lo ≤ hi.
Proof. revert lo. induction T as [|[b r] T IH]; intros lo; simpl; [lia|]. intros (? & ? & Ht). specialize (IH _ Ht). lia. Qed.

Lemma tiles_app lo hi T1 T2 : tiles lo hi (T1 ++ T2) ↔ ∃ mid, tiles lo mid T1 ∧ tiles mid hi T2.
Proof.
  revert lo. induction T1 as [|[b r] T1 IH]; intros lo; simpl.
  { split; [eauto|]. by intros (mid & -> & ?). }
  rewrite IH. naive_solver.
Qed.

Lemma tiles_inside lo hi T b r :
  tiles lo hi T → (b, r) ∈ T → lo ≤ start r ∧ 0 < len r ∧ start r + len r ≤ hi.
Proof.
  intros Ht (T1 & T2 & ->)%list_elem_of_split. apply tiles_app in Ht as (mid & H1 & H2).
  simpl in H2. destruct H2 as (-> & Hl & H2). apply tiles_le in H1, H2. lia.
Qed.

(** Tiles at different places do not overlap. *)
Lemma tiles_apart lo hi T i j ti tj :
  tiles lo hi T → T !! i = Some ti → T !! j = Some tj → (i < j)%nat → start ti.2 + len ti.2 ≤ start tj.2.
Proof.
  intros Ht Hi Hj Hij. rewrite <-(take_drop_middle _ _ _ Hi) in Ht. apply tiles_app in Ht as (mid & _ & Ht).
  destruct ti as [bi ri]. simpl in Ht. destruct Ht as (Hs & Hl & Ht). simpl.
  assert (Hin : tj ∈ drop (S i) T).
  { apply list_elem_of_lookup. exists (j - S i)%nat. rewrite lookup_drop. by replace (S i + (j - S i))%nat with j by lia. }
  destruct tj as [bj rj]. destruct (tiles_inside _ _ _ _ _ Ht Hin). simpl. lia.
Qed.

Definition sum_len (l : list Range) : Z := foldr (λ r s, len r + s) 0 l.

Lemma sum_len_perm l1 l2 : l1 ≡ₚ l2 → sum_len l1 = sum_len l2.
Proof. induction 1; simpl in *; lia. Qed.

Lemma tiles_sum lo hi T : tiles lo hi T → sum_len (frees T) + sum_len (lives T) = hi - lo.
Proof.
  revert lo. induction T as [|[b r] T IH]; intros lo; [simpl; lia|]. intros (Hs & Hl & Ht). specialize (IH _ Ht).
  rewrite frees_cons, lives_cons. destruct b; simpl; lia.
Qed.

Lemma sum_len_nonneg l : Forall (λ r, 0 < len r) l → 0 ≤ sum_len l.
Proof. induction 1; simpl; lia. Qed.

Lemma sum_len_elem l r : Forall (λ r, 0 < len r) l → r ∈ l → len r ≤ sum_len l.
Proof.
  intros Hf (l1 & l2 & ->)%list_elem_of_split. rewrite <-(sum_len_perm _ _ (Permutation_middle l1 l2 r)). simpl.
  rewrite <-Permutation_middle in Hf. apply Forall_cons in Hf as [_ Hf]. pose proof (sum_len_nonneg _ Hf). lia.
Qed.

(** ** The free ranges of a tiling are sorted, and joining them joins tiles *)
Lemma frees_sorted lo hi T : tiles lo hi T → StronglySorted (λ a b, start a < start b) (frees T).
Proof.
  revert lo. induction T as [|[b r] T IH]; intros lo; [constructor|]. intros (Hs & Hl & Ht). rewrite frees_cons.
  specialize (IH _ Ht). destruct b; [|done]. constructor; [done|]. apply Forall_forall. intros x Hx%elem_of_frees.
  pose proof (tiles_inside _ _ _ _ _ Ht Hx). lia.
Qed.

Lemma sorted_frees lo hi T X : tiles lo hi T → frees T ≡ₚ X → StronglySorted by_start X → X = frees T.
Proof.
  intros Ht Hp Hs. pose proof (frees_sorted _ _ _ Ht) as HsF. revert X Hp Hs.
  induction HsF as [|x F HsF IH Hf]; intros X Hp Hs; [by apply Permutation_nil in Hp|].
  destruct Hs as [|y X Hs Hfy]; [by apply Permutation_sym, Permutation_nil in Hp|].
  assert (x = y) as ->.
  { assert (Hy : y ∈ x :: F) by (rewrite Hp; set_solver). apply elem_of_cons in Hy as [->|Hy]; [done|].
    assert (Hx : x ∈ y :: X) by (rewrite <-Hp; set_solver). apply elem_of_cons in Hx as [->|Hx]; [done|].
    rewrite Forall_forall in Hf, Hfy. specialize (Hf y Hy). specialize (Hfy x Hx). unfold by_start in Hfy. lia. }
  apply Permutation_cons_inv in Hp. f_equal. by apply IH.
Qed.

Fixpoint join_tiles (cur : option Range) (T : list tile) : list tile :=
  match cur, T with
  | None, [] => []
  | Some p, [] => [(true, p)]
  | None, (true, x) :: T => join_tiles (Some x) T
  | None, (false, x) :: T => (false, x) :: join_tiles None T
  | Some p, (true, x) :: T => join_tiles (Some (mkRange (start p) (len p + len x))) T
  | Some p, (false, x) :: T => (true, p) :: (false, x) :: join_tiles None T
  end.

Lemma joined_apart lo hi T p : tiles lo hi T → start p + len p < lo → joined p (frees T) = p :: join_all (frees T).
Proof.
  intros Ht Hlt. destruct (frees T) as [|x X] eqn:E; [done|]. simpl. rewrite (proj2 (Z.eqb_neq _ _)); [done|].
  assert (Hx : (true, x) ∈ T) by (apply elem_of_frees; rewrite E; set_solver).
  pose proof (tiles_inside _ _ _ _ _ Ht Hx). lia.
Qed.

Lemma join_frees lo hi T :
  tiles lo hi T → frees (join_tiles None T) = join_all (frees T) ∧
  ∀ p, start p + len p = lo → frees (join_tiles (Some p) T) = joined p (frees T).
Proof.
  revert lo. induction T as [|[b x] T IH]; intros lo; [done|]. intros (Hs & Hl & Ht). destruct (IH _ Ht) as [IH1 IH2].
  destruct b; cbn [join_tiles]; rewrite ?frees_cons.
  - split; [apply IH2; lia|]. intros p Hp. cbn [joined]. rewrite (proj2 (Z.eqb_eq _ _)) by lia. apply IH2. simpl. lia.
  - split; [done|]. intros p Hp. rewrite !frees_cons, (joined_apart _ _ _ _ Ht) by lia. by rewrite IH1.
Qed.

Lemma join_lives T cur : lives (join_tiles cur T) = lives T.
Proof.
  revert cur. induction T as [|[b x] T IH]; intros [p|]; try done; destruct b; cbn [join_tiles];
    by rewrite ?lives_cons, ?IH.
Qed.

Lemma join_tiling lo hi T :
  tiles lo hi T → tiles lo hi (join_tiles None T) ∧
  ∀ p, start p + len p = lo → 0 < len p → tiles (start p) hi (join_tiles (Some p) T).
Proof.
  revert lo. induction T as [|[b x] T IH]; intros lo; simpl; [naive_solver lia|]. intros (Hs & Hl & Ht).
  destruct (IH _ Ht) as [IH1 IH2]. destruct b; simpl.
  - split; [rewrite <-Hs; apply IH2; lia|]. intros p Hp Hlp. apply (IH2 (mkRange (start p) (len p + len x))); simpl; lia.
  - split; [done|]. intros p Hp Hlp. split_and!; [done|done|lia|done|by rewrite Hp].
Qed.

(** No two free tiles touch any more, so a live one lies between. *)
Lemma join_few T cur : zlen (frees (join_tiles cur T)) ≤ zlen (lives T) + 1.
Proof.
  revert cur. induction T as [|[b x] T IH]; intros [p|]; [done|done|..]; destruct b; cbn [join_tiles];
    rewrite ?frees_cons, ?lives_cons; [apply IH| |apply IH|]; specialize (IH None); zlia.
Qed.

Definition paged (T : list tile) : Prop := Forall (λ t, len t.2 mod PAGE_SIZE = 0) T.

Lemma join_paged T cur : paged T → (∀ p, cur = Some p → len p mod PAGE_SIZE = 0) → paged (join_tiles cur T).
Proof.
  unfold paged, PAGE_SIZE. revert cur. induction T as [|[b x] T IH]; intros cur HT Hc.
  { destruct cur; [|done]. constructor; [by apply Hc|constructor]. }
  apply Forall_cons in HT as [Hx HT]. simpl in Hx. destruct cur as [p|]; [specialize (Hc p eq_refl)|]; destruct b; cbn [join_tiles].
  - apply IH; [done|]. intros q [= <-]. simpl. rewrite Z.add_mod, Hc, Hx by done. done.
  - constructor; [done|]. constructor; [done|]. by apply IH.
  - apply IH; [done|]. by intros q [= <-].
  - constructor; [done|]. by apply IH.
Qed.

Lemma tiles_aligned lo hi T b r :
  tiles lo hi T → lo mod PAGE_SIZE = 0 → paged T → (b, r) ∈ T → start r mod PAGE_SIZE = 0 ∧ len r mod PAGE_SIZE = 0.
Proof.
  unfold paged, PAGE_SIZE. revert lo. induction T as [|[c x] T IH]; intros lo; [set_solver|].
  intros (Hs & Hl & Ht) Hlo [Hx HT]%Forall_cons [[= -> ->]|Hin]%elem_of_cons; simpl in *; [by rewrite Hs|].
  apply (IH (lo + len x)); [done| |done|done]. rewrite Z.add_mod, Hlo, Hx by done. done.
Qed.

(** ** Worlds *)
Section worlds.
Context (MAX_RANGES lo size : Z).
Context (HM : 3 ≤ MAX_RANGES ≤ 65535) (Hwin : 0 ≤ lo ∧ 0 < size ∧ lo + size < 2 ^ 64).
Context (Halign : lo mod PAGE_SIZE = 0 ∧ size mod PAGE_SIZE = 0).

(** The allocator and the ranges handed out and not yet freed. *)
Record kva_inv (k : Kva) (lv : list Range) : Prop := {
  ki_rep : ∃ ixs fl spare T, kva_rep MAX_RANGES k ixs fl spare ∧ tiles lo (lo + size) T ∧ paged T ∧
             frees T ≡ₚ fl ∧ lives T ≡ₚ lv;
  ki_live : live k = zlen lv;
  ki_cap : zlen lv ≤ LIVE_CAP MAX_RANGES;
  ki_used : used k = sum_len lv;
  ki_capacity : capacity k = size
}.

Lemma free_window T fl : tiles lo (lo + size) T → frees T ≡ₚ fl → Forall in_window fl.
Proof.
  intros Ht Hp. rewrite <-Hp. apply Forall_forall. intros r Hr%elem_of_frees.
  pose proof (tiles_inside _ _ _ _ _ Ht Hr). unfold in_window. lia.
Qed.

Lemma live_full T : tiles lo (lo + size) T → Forall (λ r, 0 < len r) (lives T).
Proof. intros Ht. apply Forall_forall. intros r Hr%elem_of_lives. by destruct (tiles_inside _ _ _ _ _ Ht Hr) as (_ & ? & _). Qed.

Lemma free_full T : tiles lo (lo + size) T → Forall (λ r, 0 < len r) (frees T).
Proof. intros Ht. apply Forall_forall. intros r Hr%elem_of_frees. by destruct (tiles_inside _ _ _ _ _ Ht Hr) as (_ & ? & _). Qed.

Lemma inv_used k lv : kva_inv k lv → 0 ≤ used k ≤ size.
Proof.
  intros [(ixs & fl & spare & T & _ & Ht & _ & _ & Hl) _ _ -> _]. rewrite <-(sum_len_perm _ _ Hl).
  pose proof (tiles_sum _ _ _ Ht). pose proof (sum_len_nonneg _ (free_full T Ht)). pose proof (sum_len_nonneg _ (live_full T Ht)). lia.
Qed.

(** ** alloc *)
Lemma fit_split n fl s fl' :
  fit n fl = Some (s, fl') → ∃ f1 r f2, fl = f1 ++ r :: f2 ∧ start r = s ∧ n ≤ len r ∧
    fl' = f1 ++ (if len r =? n then [] else [mkRange (s + n) (len r - n)]) ++ f2.
Proof.
  revert s fl'. induction fl as [|r fl IH]; intros s fl'; simpl; [done|]. destruct (Z.leb_spec n (len r)).
  - intros [= <- <-]. exists [], r, fl. split_and!; [done|done|done|]. by destruct (_ =? _).
  - destruct (fit n fl) as [[s0 f0]|]; [|done]. intros [= <- <-].
    destruct (IH s0 f0 eq_refl) as (f1 & x & f2 & -> & ? & ? & ->). by exists (r :: f1), x, f2.
Qed.

Lemma fit_bound n fl s fl' : fit n fl = Some (s, fl') → ∃ r, r ∈ fl ∧ n ≤ len r.
Proof. intros (f1 & r & f2 & -> & _ & Hle & _)%fit_split. exists r. split; [set_solver|done]. Qed.

(** The start of a free tile made live. *)
Lemma carve T fl n s fl' :
  tiles lo (lo + size) T → paged T → frees T ≡ₚ fl → fit n fl = Some (s, fl') → 0 < n → n mod PAGE_SIZE = 0 →
  ∃ T', tiles lo (lo + size) T' ∧ paged T' ∧ frees T' ≡ₚ fl' ∧ lives T' ≡ₚ mkRange s n :: lives T.
Proof.
  intros Ht Hpg Hp (f1 & r & f2 & -> & Hs & Hle & ->)%fit_split Hn Hpn.
  assert (Hr : (true, r) ∈ T) by (apply elem_of_frees; rewrite Hp; set_solver).
  apply list_elem_of_split in Hr as (T1 & T2 & ->). apply tiles_app in Ht as (mid & Ht1 & Hrs & Hl & Ht2).
  unfold paged in Hpg. rewrite Forall_app, Forall_cons in Hpg. destruct Hpg as (Hpg1 & Hpr & Hpg2). simpl in Hpr.
  rewrite frees_app, frees_cons in Hp. rewrite <-!Permutation_middle in Hp. apply Permutation_cons_inv in Hp.
  set (rest := if len r =? n then [] else [mkRange (s + n) (len r - n)]).
  exists (T1 ++ (false, mkRange s n) :: ((λ x, (true, x)) <$> rest) ++ T2). split_and!.
  - apply tiles_app. exists mid. split; [done|]. simpl. split_and!; [lia|lia|]. subst rest.
    destruct (Z.eqb_spec (len r) n) as [<-|]; simpl; [done|]. split_and!; [lia|lia|]. by replace (mid + n + (len r - n)) with (mid + len r) by lia.
  - unfold paged, PAGE_SIZE in *. apply Forall_app. split; [done|]. constructor; [done|]. apply Forall_app. split; [|done].
    subst rest. destruct (_ =? _); [constructor|]. constructor; [|constructor]. simpl.
    rewrite Zminus_mod, Hpr, Hpn. done.
  - rewrite frees_app, frees_cons, frees_app. assert (frees ((λ x, (true, x)) <$> rest) = rest) as ->.
    { subst rest. destruct (_ =? _); done. }
    rewrite (Permutation_app_comm rest (frees T2)), app_assoc, Hp, <-app_assoc. apply Permutation_app_head, Permutation_app_comm.
  - rewrite !lives_app, !lives_cons, lives_app. assert (lives ((λ x, (true, x)) <$> rest) = []) as ->.
    { subst rest. destruct (_ =? _); done. }
    simpl. by rewrite <-Permutation_middle.
Qed.

Lemma alloc_inv k lv n :
  kva_inv k lv → in_width 64 n →
  ∃ o k', alloc MAX_RANGES n k = Ret (o, k') ∧
    match o with Some s => kva_inv k' (mkRange s n :: lv) | None => k' = k end.
Proof.
  intros HI Hn. pose proof (inv_used _ _ HI) as Hu. pose proof HI as [(ixs & fl & spare & T & HR & Ht & Hpg & Hf & Hl) Hlv Hcap Hus Hc].
  unfold alloc. destruct (Z.eqb_spec n 0) as [|Hn0]; [by eexists _, _|].
  destruct (Z.eqb_spec (n mod PAGE_SIZE) 0) as [Hpn|]; [|by eexists _, _]. cbn [negb orb].
  destruct (Z.leb_spec (LIVE_CAP MAX_RANGES) (live k)) as [|Hlt]; [by eexists _, _|].
  destruct (kr_count _ _ _ _ _ HR) as [Hc1 Hc2]. pose proof (kr_next _ _ _ _ _ HR) as Hnx.
  assert (Hlv0 : 0 ≤ live k < 2 ^ 62) by (unfold LIVE_CAP in Hlt; zlia).
  pose proof (tiles_sum _ _ _ Ht) as Hsum. rewrite (sum_len_perm _ _ Hl) in Hsum.
  pose proof (first_fit_spec MAX_RANGES (S (length (next k))) k [] ixs [] fl spare n HR eq_refl) as Hff.
  specialize (Hff ltac:(zlia) ltac:(unfold in_width in Hn; lia) ltac:(lia) (free_window T fl Ht Hf) ltac:(lia)).
  assert (Hroom : ∀ r, r ∈ fl → n ≤ len r → used k + n < 2 ^ 64).
  { intros r Hr Hnr. rewrite <-Hf in Hr. pose proof (sum_len_elem _ _ (free_full T Ht) Hr). lia. }
  specialize (Hff Hroom Hlv0). rewrite (kr_head _ _ _ _ _ HR). cbn [last] in Hff.
  destruct (fit n fl) as [[s fl']|] eqn:E; [|by exists None, k].
  destruct Hff as (k' & ixs' & spare' & Hrun & HR' & H1 & H2 & H3). exists (Some s), k'. split; [done|].
  destruct (carve T fl n s fl' Ht Hpg Hf E) as (T' & Ht' & Hpg' & Hf' & Hl'); [unfold in_width in Hn; lia|done|].
  split; [|zlia|unfold LIVE_CAP in *; zlia|simpl; lia|lia].
  exists ixs', fl', spare', T'. split_and!; [done..|]. by rewrite Hl', Hl.
Qed.

Lemma alloc_guarded_inv k lv pages :
  kva_inv k lv → 0 ≤ pages → (pages + 1) * PAGE_SIZE < 2 ^ 64 →
  ∃ o k', alloc_guarded MAX_RANGES pages k = Ret (o, k') ∧
    match o with Some s => kva_inv k' (mkRange s ((pages + 1) * PAGE_SIZE) :: lv) | None => k' = k end.
Proof.
  intros HI Hp Hlt. unfold alloc_guarded, PAGE_SIZE in *. destruct (Z.eqb_spec pages 0); [by eexists _, _|].
  rewrite addc_ret by (unfold in_width; lia). cbn [obind]. rewrite mulc_ret by (unfold in_width; lia). cbn [obind].
  apply alloc_inv; [done|unfold in_width; lia].
Qed.

(** ** free *)
Lemma makes_room_tiles T fl ns fl' :
  tiles lo (lo + size) T → paged T → frees T ≡ₚ fl → makes_room fl ns fl' →
  ∃ T', tiles lo (lo + size) T' ∧ paged T' ∧ frees T' ≡ₚ fl' ∧ lives T' = lives T ∧
    (ns = 0 → zlen fl' ≤ zlen (lives T) + 1).
Proof.
  intros Ht Hpg Hf Hm. unfold makes_room in Hm. destruct (Z.eqb_spec ns 0) as [H0|H0]; last first.
  { subst fl'. exists T. done. }
  destruct Hm as (X & HX & HsX & ->). assert (X = frees T) as -> by (eapply sorted_frees; [done|by rewrite Hf|done]).
  exists (join_tiles None T). destruct (join_frees _ _ _ Ht) as [Hjf _]. split_and!.
  - by apply join_tiling.
  - by apply join_paged.
  - by rewrite Hjf.
  - apply join_lives.
  - intros _. rewrite <-Hjf. apply join_few.
Qed.

Lemma release T r l1 l2 :
  tiles lo (lo + size) T → lives T ≡ₚ l1 ++ r :: l2 →
  ∃ T', tiles lo (lo + size) T' ∧ (paged T → paged T') ∧ frees T' ≡ₚ frees T ++ [r] ∧ lives T' ≡ₚ l1 ++ l2.
Proof.
  intros Ht Hl. assert (Hr : (false, r) ∈ T) by (apply elem_of_lives; rewrite Hl; set_solver).
  apply list_elem_of_split in Hr as (T1 & T2 & ->). exists (T1 ++ (true, r) :: T2).
  rewrite lives_app, lives_cons, <-!Permutation_middle in Hl. apply Permutation_cons_inv in Hl.
  rewrite !frees_app, !frees_cons, lives_app, lives_cons. split_and!.
  - apply tiles_app in Ht as (mid & Ht1 & Ht2). apply tiles_app. exists mid. done.
  - unfold paged. rewrite !Forall_app, !Forall_cons. done.
  - rewrite <-app_assoc. apply Permutation_app_head. by rewrite (Permutation_app_comm _ [r]).
  - done.
Qed.

Lemma free_inv k l1 r l2 :
  kva_inv k (l1 ++ r :: l2) → ∃ k', free MAX_RANGES (start r) (len r) k = Ret k' ∧ kva_inv k' (l1 ++ l2).
Proof.
  intros HI. pose proof (inv_used _ _ HI) as Hu. destruct HI as [(ixs & fl & spare & T & HR & Ht & Hpg & Hf & Hl) Hlv Hcap Hus Hc].
  assert (Hr : r ∈ lives T) by (rewrite Hl; set_solver). pose proof Hr as Hr'. apply elem_of_lives in Hr'.
  destruct (tiles_aligned _ _ _ _ _ Ht (proj1 Halign) Hpg Hr') as [Has Hal].
  destruct (tiles_inside _ _ _ _ _ Ht Hr') as (_ & Hpos & _).
  pose proof (sum_len_elem _ _ (live_full T Ht) Hr) as Hle. rewrite (sum_len_perm _ _ Hl), <-Hus in Hle.
  destruct (kr_count _ _ _ _ _ HR) as [Hc1 Hc2]. pose proof (Permutation_length Hl) as Hll.
  destruct (free_spec MAX_RANGES ltac:(lia) k ixs fl spare (start r) (len r) HR) as (k' & ixs' & spare' & fl' & Hrun & HMR & HR' & H1 & H2 & H3);
    [by eapply free_window|done|done|done|lia|unfold LIVE_CAP in Hcap; zlia| |].
  { intros fl' HMR. destruct (makes_room_tiles _ _ _ _ Ht Hpg Hf HMR) as (T' & _ & _ & _ & _ & Hfew).
    unfold makes_room in HMR. destruct (Z.eqb_spec (nslots k) 0) as [H0|H0].
    - specialize (Hfew H0). unfold LIVE_CAP in Hcap. zlia.
    - subst fl'. rewrite (kr_nslots _ _ _ _ _ HR) in H0. zlia. }
  exists k'. split; [by destruct r|].
  destruct (makes_room_tiles _ _ _ _ Ht Hpg Hf HMR) as (T1 & Ht1 & Hpg1 & Hf1 & Hl1 & _).
  destruct (release T1 r l1 l2 Ht1) as (T2 & Ht2 & Hpg2 & Hf2 & Hl2); [by rewrite Hl1|].
  rewrite <-(sum_len_perm _ _ (Permutation_middle l1 l2 r)) in Hus. simpl in Hus.
  split; [|zlia|zlia|lia|lia].
  exists ixs', (fl' ++ [mkRange (start r) (len r)]), spare', T2. split_and!; [done|done|by apply Hpg2| |done].
  rewrite Hf2, Hf1. by destruct r.
Qed.

(** ** init *)
Lemma init_inv k0 : ∃ k, init MAX_RANGES lo size k0 = Ret (inl tt, k) ∧ kva_inv k [].
Proof.
  unfold init. destruct Halign as [-> ->]. cbn [oassert obind Z.eqb]. set (n := Z.to_nat MAX_RANGES).
  unfold alloc_slot. cbn [nslots slots]. rewrite (proj2 (Z.eqb_neq MAX_RANGES 0)) by lia.
  rewrite subc_ret by (unfold in_width; lia). cbn [obind].
  assert (Hup : Z.of_nat <$> seq 0 n = upto 0 (n - 1) ++ [MAX_RANGES - 1]).
  { unfold upto. change (Z.to_nat 0) with 0%nat. replace n with (S (n - 1)) at 1 by lia.
    rewrite seq_S, fmap_app. simpl. do 2 f_equal. lia. }
  assert (Hul : zlen (upto 0 (n - 1)) = MAX_RANGES - 1) by (unfold upto; zlia).
  rewrite Hup, index_mid by lia. cbn [obind fst snd set_slots nodes next].
  rewrite store_ret by zlia. cbn [obind]. rewrite store_ret by zlia. cbn [obind].
  eexists. split; [done|]. split; cbn; try done; [|unfold LIVE_CAP; change (zlen (@nil Range)) with 0; lia].
  exists [MAX_RANGES - 1], [mkRange lo size], (upto 0 (n - 1)), [(true, mkRange lo size)].
  split; [|split_and!; [simpl; lia|by constructor; [apply Halign|constructor]|done|done]].
  split; cbn; try done.
  - zlia.
  - zlia.
  - rewrite <-Hup. zlia.
  - split; [|done]. apply list_lookup_insert_eq. zlia.
  - constructor; [|constructor]. apply holds_set_eq. zlia.
  - by eexists.
  - change (Z.of_nat <$> seq 0 (Z.to_nat MAX_RANGES)) with (Z.of_nat <$> seq 0 n). rewrite Hup.
    apply (Permutation_app_comm [MAX_RANGES - 1]).
  - intros i Hi%elem_of_upto; [|done]. exists no_range. split; [|done].
    rewrite list_lookup_insert_ne by lia. apply lookup_replicate. split; [done|]. lia.
  - constructor; [simpl; lia|constructor].
Qed.

(** ** stats *)
Lemma count_free_spec fuel k ixs n :
  chain (next k) ixs → Forall (λ j, 0 ≤ j) ixs → (length ixs < fuel)%nat → 0 ≤ n → n + zlen ixs < 2 ^ 62 →
  count_free fuel k (list.head ixs) n = Ret (n + zlen ixs).
Proof.
  revert ixs n. induction fuel as [|fuel IH]; intros ixs n Hc Hp Hf Hn Hlt; [lia|]. destruct ixs as [|i ixs]; cbn [count_free list.head].
  { f_equal. zlia. }
  destruct Hc as [Hi Hc]. apply Forall_cons in Hp as [Hi0 Hp]. rewrite addc_ret by zlia. cbn [obind].
  rewrite (index_ret _ _ _ Hi0 Hi). cbn [obind]. rewrite IH; [f_equal; zlia|done|done|simpl in Hf; lia|lia|zlia].
Qed.

Lemma kva_stats_spec k lv : kva_inv k lv → ∃ n, stats k = Ret (mkStats (sum_len lv) size n).
Proof.
  intros [(ixs & fl & spare & T & HR & _) _ _ Hu Hc]. destruct (kr_count _ _ _ _ _ HR). pose proof (kr_next _ _ _ _ _ HR).
  unfold stats. rewrite (kr_head _ _ _ _ _ HR), (count_free_spec _ _ ixs 0); [|apply HR|by eapply kr_pos|zlia|lia|zlia].
  cbn [obind]. rewrite Hu, Hc. eauto.
Qed.

(** ** Reachable worlds *)
Inductive kva_step : Kva * list Range → Kva * list Range → Prop :=
  | ks_alloc n s k k' lv :
      in_width 64 n → alloc MAX_RANGES n k = Ret (Some s, k') → kva_step (k, lv) (k', mkRange s n :: lv)
  | ks_alloc_none n k k' lv : in_width 64 n → alloc MAX_RANGES n k = Ret (None, k') → kva_step (k, lv) (k', lv)
  | ks_guarded pages s k k' lv :
      0 ≤ pages → (pages + 1) * PAGE_SIZE < 2 ^ 64 → alloc_guarded MAX_RANGES pages k = Ret (Some s, k') →
      kva_step (k, lv) (k', mkRange s ((pages + 1) * PAGE_SIZE) :: lv)
  | ks_free r k k' l1 l2 :
      free MAX_RANGES (start r) (len r) k = Ret k' → kva_step (k, l1 ++ r :: l2) (k', l1 ++ l2).

Definition kva_reachable (k : Kva) (lv : list Range) : Prop :=
  ∃ k0 k1, init MAX_RANGES lo size k0 = Ret (inl tt, k1) ∧ rtc kva_step (k1, []) (k, lv).

Lemma kva_step_inv w w' : kva_step w w' → kva_inv w.1 w.2 → kva_inv w'.1 w'.2.
Proof.
  intros Hs HI. destruct Hs as [n s k k' lv Hn Hrun|n k k' lv Hn Hrun|pages s k k' lv Hp Hlt Hrun|r k k' l1 l2 Hrun]; simpl in *.
  - destruct (alloc_inv k lv n HI Hn) as (o & k2 & Hrun2 & Ho). rewrite Hrun in Hrun2. by simplify_eq.
  - destruct (alloc_inv k lv n HI Hn) as (o & k2 & Hrun2 & Ho). rewrite Hrun in Hrun2. by simplify_eq.
  - destruct (alloc_guarded_inv k lv pages HI Hp Hlt) as (o & k2 & Hrun2 & Ho). rewrite Hrun in Hrun2. by simplify_eq.
  - destruct (free_inv k l1 r l2 HI) as (k2 & Hrun2 & HI2). rewrite Hrun in Hrun2. by simplify_eq.
Qed.

Lemma kva_reachable_inv k lv : kva_reachable k lv → kva_inv k lv.
Proof.
  intros (k0 & k1 & Hi & Hr). destruct (init_inv k0) as (k2 & Hi2 & HI). rewrite Hi in Hi2. simplify_eq.
  assert (Hrtc : ∀ w w', rtc kva_step w w' → kva_inv w.1 w.2 → kva_inv w'.1 w'.2)
    by (induction 1; eauto using kva_step_inv).
  by apply (Hrtc _ _ Hr).
Qed.

Lemma tiles_nodup a b T : tiles a b T → NoDup T.*2.
Proof.
  revert a. induction T as [|[c r] T IH]; intros a; [constructor|]. intros (Hs & Hl & Ht). simpl. constructor; [|by eapply IH].
  intros ([d x] & -> & Hin)%list_elem_of_fmap. pose proof (tiles_inside _ _ _ _ _ Ht Hin). simpl in *. lia.
Qed.

Definition apart (a b : Range) : Prop := start a + len a ≤ start b ∨ start b + len b ≤ start a.

Lemma lives_apart a b T r x : tiles a b T → r ∈ lives T → x ∈ lives T → r ≠ x → apart r x.
Proof.
  intros Ht [i Hi]%elem_of_lives%list_elem_of_lookup [j Hj]%elem_of_lives%list_elem_of_lookup Hne.
  destruct (Nat.lt_trichotomy i j) as [Hij|[->|Hij]].
  - left. by apply (tiles_apart _ _ _ _ _ _ _ Ht Hi Hj Hij).
  - congruence.
  - right. by apply (tiles_apart _ _ _ _ _ _ _ Ht Hj Hi Hij).
Qed.

(** C20: addresses are never handed out twice: in every state the allocator
    can reach from [init], the live ranges are pairwise disjoint, page aligned
    and inside the window, and [stats] counts exactly their bytes. *)
Theorem kva_live_disjoint k lv :
  kva_reachable k lv →
  NoDup lv ∧ (∀ r x, r ∈ lv → x ∈ lv → r ≠ x → apart r x) ∧
  (∀ r, r ∈ lv → lo ≤ start r ∧ 0 < len r ∧ start r + len r ≤ lo + size ∧
                 start r mod PAGE_SIZE = 0 ∧ len r mod PAGE_SIZE = 0) ∧
  ∃ n, stats k = Ret (mkStats (sum_len lv) size n).
Proof.
  intros HI%kva_reachable_inv. pose proof (kva_stats_spec _ _ HI) as Hst.
  destruct HI as [(ixs & fl & spare & T & _ & Ht & Hpg & _ & Hl) _ _ _ _]. split_and!; [| | |done].
  - rewrite <-Hl. eapply sublist_NoDup; [by eapply tiles_nodup|]. apply fmap_sublist, sublist_filter.
  - intros r x Hr Hx. rewrite <-Hl in Hr, Hx. by eapply lives_apart.
  - intros r Hr. rewrite <-Hl in Hr. apply elem_of_lives in Hr. pose proof (tiles_inside _ _ _ _ _ Ht Hr).
    pose proof (tiles_aligned _ _ _ _ _ Ht (proj1 Halign) Hpg Hr). tauto.
Qed.

(** C21: the allocator always answers: in every reachable state every
    allocation request ends, with an address or without one, and freeing any
    live range succeeds; with no spare node it coalesces first, and that always
    leaves one, because the live-range cap keeps the joined free ranges fewer
    than the nodes. *)
Theorem kva_operations_return k lv :
  kva_reachable k lv →
  (∀ n, in_width 64 n → ∃ o k', alloc MAX_RANGES n k = Ret (o, k')) ∧
  (∀ pages, 0 ≤ pages → (pages + 1) * PAGE_SIZE < 2 ^ 64 → ∃ o k', alloc_guarded MAX_RANGES pages k = Ret (o, k')) ∧
  (∀ r, r ∈ lv → ∃ k', free MAX_RANGES (start r) (len r) k = Ret k').
Proof.
  intros HI%kva_reachable_inv. split_and!.
  - intros n Hn. destruct (alloc_inv k lv n HI Hn) as (o & k' & Hrun & _). eauto.
  - intros pages Hp Hlt. destruct (alloc_guarded_inv k lv pages HI Hp Hlt) as (o & k' & Hrun & _). eauto.
  - intros r (l1 & l2 & ->)%list_elem_of_split. destruct (free_inv k l1 r l2 HI) as (k' & Hrun & _). eauto.
Qed.
End worlds.

(** A pool of three nodes: one live range, and one more refused. *)
Definition kva_demo0 : Kva := match init 3 KVA_START 65536 (Kva_empty 3) with Ret (_, k) => k | _ => Kva_empty 3 end.
Definition kva_demo1 : Kva := match alloc 3 8192 kva_demo0 with Ret (_, k) => k | _ => Kva_empty 3 end.

Lemma kva_demo_reachable : kva_reachable 3 KVA_START 65536 kva_demo1 [mkRange KVA_START 8192].
Proof.
  exists (Kva_empty 3), kva_demo0. split; [by vm_compute|]. apply rtc_once.
  apply (ks_alloc 3 8192 KVA_START kva_demo0 kva_demo1 []); [done|by vm_compute].
Qed.

Lemma kva_live_disjoint_witness : ∃ n, stats kva_demo1 = Ret (mkStats 8192 65536 n).
Proof.
  apply (kva_live_disjoint 3 KVA_START 65536 ltac:(lia) ltac:(vm_compute; repeat split; congruence)
    ltac:(vm_compute; split; reflexivity) kva_demo1 [mkRange KVA_START 8192] kva_demo_reachable).
Defined.

Lemma kva_operations_return_witness : ∃ k', free 3 KVA_START 8192 kva_demo1 = Ret k'.
Proof.
  pose proof (kva_operations_return 3 KVA_START 65536 ltac:(lia) ltac:(vm_compute; repeat split; congruence)
    ltac:(vm_compute; split; reflexivity) kva_demo1 [mkRange KVA_START 8192] kva_demo_reachable) as (_ & _ & Hf).
  apply (Hf (mkRange KVA_START 8192)). by left.
Defined.

(** The in-place heapsort sorts: for every slice it ends without a panic
    and leaves the same ranges in order of their start addresses. *)
Theorem heapsort_sorts v :
  zlen v < 2 ^ 62 → ∃ v', sort_by_start v = Ret v' ∧ v ≡ₚ v' ∧ StronglySorted by_start v'.
Proof. apply sort_by_start_spec. Qed.

Lemma heapsort_sorts_witness :
  ∃ v', sort_by_start [mkRange 9 1; mkRange 2 2; mkRange 5 3; mkRange 7 4] = Ret v' ∧
    v' = [mkRange 2 2; mkRange 5 3; mkRange 7 4; mkRange 9 1].
Proof.
  destruct (heapsort_sorts [mkRange 9 1; mkRange 2 2; mkRange 5 3; mkRange 7 4] ltac:(vm_compute; reflexivity)) as (v' & Hrun & _).
  exists v'. split; [exact Hrun|]. vm_compute in Hrun. congruence.
Defined.
