(* ===== verification/Paging.v ===== *)
(** * Page tables (src/crates/core/src/mm/paging.rs, src/crates/core/src/arch/x86_64/paging.rs)

    The definitions of this file are the code of [mm/paging.rs] over the
    x86_64 table format of [arch/x86_64/paging.rs].  Memory is the frames
    reached at [phys + hhdm_offset], each a list of entries; an access to a
    frame that memory does not hold is undefined.  The trait [FrameAlloc] is
    the class [FrameAlloc], whose laws are the trait's contract. *)

From stdpp Require Import base gmap list numbers strings.
From S2P Require Import Prelude Kerror.

Local Open Scope string_scope.
Local Open Scope Z_scope.

Module Paging.

(** ** The x86_64 format *)
Definition LEVELS : nat := 4.
Definition PTES_PER_TABLE : nat := 512.
Definition KERNEL_PML4_FIRST : nat := 256.
Definition PTE_ADDR_MASK : Z := 0x000FFFFFFFFFF000.

Definition index_at (va : Z) (level : nat) : Z :=
  Z.land (Z.shiftr va (12 + 9 * (Z.of_nat level - 1))) 0x1FF.
Definition make_pte (phys flags : Z) : Z :=
  Z.lor (Z.land phys PTE_ADDR_MASK) (Z.land flags (notw 64 PTE_ADDR_MASK)).
Definition pte_phys (entry : Z) : Z := Z.land entry PTE_ADDR_MASK.
Definition pte_flags (entry : Z) : Z := Z.land entry (notw 64 PTE_ADDR_MASK).

(** ** Types and constants *)
Definition PAGE_SIZE_4K : Z := Z.shiftl 1 12.
Definition PAGE_SIZE_2M : Z := Z.shiftl 1 21.
Definition USER_END : Z := 0x0000800000000000.
Definition USER_MAP_END : Z := USER_END - PAGE_SIZE_4K.
Definition NULL_GUARD_LEN : Z := PAGE_SIZE_4K.

Definition is_aligned (x align : Z) : bool := Z.land x (align - 1) =? 0.

Inductive PageSize := Size4K | Size2M.
Definition bytes (s : PageSize) : Z := match s with Size4K => PAGE_SIZE_4K | Size2M => PAGE_SIZE_2M end.
Definition is_2m (s : PageSize) : bool := match s with Size2M => true | Size4K => false end.

Definition PRESENT : Z := Z.shiftl 1 0.
Definition WRITABLE : Z := Z.shiftl 1 1.
Definition USER : Z := Z.shiftl 1 2.
Definition PWT : Z := Z.shiftl 1 3.
Definition PCD : Z := Z.shiftl 1 4.
Definition ACCESSED : Z := Z.shiftl 1 5.
Definition DIRTY : Z := Z.shiftl 1 6.
Definition HUGE : Z := Z.shiftl 1 7.
Definition GLOBAL : Z := Z.shiftl 1 8.
Definition NX : Z := Z.shiftl 1 63.

Definition contains (flags bits : Z) : bool := Z.land flags bits =? bits.
Definition with_bits (flags bits : Z) : Z := Z.lor flags bits.

Inductive MapError := Misaligned | AlreadyMapped | NotMapped | OutOfFrames | PageSizeMismatch | NonCanonical.

Definition kerror_of_map (e : MapError) : Kerror.KError :=
  match e with
  | OutOfFrames => Kerror.NoMem
  | AlreadyMapped => Kerror.Exist
  | Misaligned | NotMapped | PageSizeMismatch | NonCanonical => Kerror.Inval
  end.

Inductive MapMode := Fresh | Remap.

Definition is_canonical (va : Z) : bool :=
  let hi := Z.shiftr va 47 in (hi =? 0) || (hi =? 0x1FFFF).

(** ** Memory *)
Abbreviation memory := (gmap Z (list Z)).

Definition read_entry (m : memory) (table idx : Z) : outcome Z :=
  match m !! table with Some t => index t idx | None => Ub end.
Definition write_entry (m : memory) (table idx e : Z) : outcome memory :=
  match m !! table with Some t => t <~ store t idx e;; Ret (<[table := t]> m) | None => Ub end.
Definition zero_frame (m : memory) (phys : Z) : outcome memory :=
  match m !! phys with Some _ => Ret (<[phys := replicate PTES_PER_TABLE 0]> m) | None => Ub end.

(** A frame the page tables and the allocator can name: page aligned, in the
    entry's address field. *)
Definition frame_ok (p : Z) : Prop := 0 ≤ p < 2 ^ 52 ∧ p mod 4096 = 0.

(** What an allocator of order-0 frames promises: it hands out a frame it
    holds, and holds it no more; [free_frame] gives one back. *)
Class FrameAlloc (F : Type) := {
  alloc_frame : F → option Z * F;
  free_frame : F → Z → F;
  held_frames : F → gset Z;
  alloc_some : ∀ f p f', alloc_frame f = (Some p, f') →
    p ∈ held_frames f ∧ frame_ok p ∧ held_frames f' = held_frames f ∖ {[p]};
  alloc_none : ∀ f f', alloc_frame f = (None, f') → held_frames f' = held_frames f;
  free_held : ∀ f p, frame_ok p → held_frames (free_frame f p) = {[p]} ∪ held_frames f
}.

(** ** Mapper *)
Section mapper.
Context {F : Type} `{FrameAlloc F}.

(** The walk of [map_page] from [level] down to the table above the leaf,
    adding the tables that are missing. *)
Fixpoint ensure_tables (level : nat) (leaf_level : nat) (va table : Z) (m : memory) (f : F)
    : outcome ((Z + MapError) * memory * F) :=
  match level with
  | O => Ret (inl table, m, f)
  | S below =>
      if (leaf_level <? level)%nat then
        let idx := index_at va level in
        entry <~ read_entry m table idx;;
        if negb (contains (pte_flags entry) PRESENT) then
          match alloc_frame f with
          | (None, f) => Ret (inr OutOfFrames, m, f)
          | (Some new, f) =>
              m <~ zero_frame m new;;
              let interior := Z.lor (Z.lor PRESENT WRITABLE) USER in
              m <~ write_entry m table idx (make_pte new interior);;
              ensure_tables below leaf_level va new m f
          end
        else if contains (pte_flags entry) HUGE then Ret (inr PageSizeMismatch, m, f)
        else ensure_tables below leaf_level va (pte_phys entry) m f
      else Ret (inl table, m, f)
  end.

Definition leaf_level (s : PageSize) : nat := match s with Size4K => 1 | Size2M => 2 end.

Definition map_page (root va pa flags : Z) (size : PageSize) (mode : MapMode) (m : memory) (f : F)
    : outcome ((unit + MapError) * memory * F) :=
  if negb (is_canonical va) then Ret (inr NonCanonical, m, f)
  else if negb (is_aligned va (bytes size)) || negb (is_aligned pa (bytes size)) then
    Ret (inr Misaligned, m, f)
  else
    r <~ ensure_tables LEVELS (leaf_level size) va root m f;;
    let '(t, m, f) := r in
    match t with
    | inr e => Ret (inr e, m, f)
    | inl table =>
        let idx := index_at va (leaf_level size) in
        existing <~ read_entry m table idx;;
        let present := contains (pte_flags existing) PRESENT in
        match present, mode with
        | true, Fresh => Ret (inr AlreadyMapped, m, f)
        | _, _ =>
            if present && negb (eqb (contains (pte_flags existing) HUGE) (is_2m size)) then
              Ret (inr PageSizeMismatch, m, f)
            else
              let leaf_flags := with_bits flags PRESENT in
              let leaf_flags := if is_2m size then with_bits leaf_flags HUGE else leaf_flags in
              m <~ write_entry m table idx (make_pte pa leaf_flags);;
              Ret (inl tt, m, f)
        end
    end.

(** [map_range]: pages of 2 MiB where they fit; [n] bounds the loop. *)
Fixpoint map_range_from (n : nat) (root va pa len flags : Z) (mode : MapMode) (off : Z) (m : memory) (f : F)
    : outcome ((unit + MapError) * memory * F) :=
  match n with
  | O => NoFuel
  | S n =>
      if off <? len then
        cur_va <~ addc 64 va off;;
        cur_pa <~ addc 64 pa off;;
        remaining <~ subc 64 len off;;
        let use_2m := is_aligned cur_va PAGE_SIZE_2M && is_aligned cur_pa PAGE_SIZE_2M && (PAGE_SIZE_2M <=? remaining) in
        let size := if use_2m then Size2M else Size4K in
        r <~ map_page root cur_va cur_pa flags size mode m f;;
        let '(res, m, f) := r in
        match res with
        | inr e => Ret (inr e, m, f)
        | inl _ => off <~ addc 64 off (bytes size);; map_range_from n root va pa len flags mode off m f
        end
      else Ret (inl tt, m, f)
  end.
Definition map_range (root va pa len flags : Z) (mode : MapMode) (m : memory) (f : F)
    : outcome ((unit + MapError) * memory * F) :=
  if len =? 0 then Ret (inl tt, m, f)
  else if negb (is_aligned va PAGE_SIZE_4K) || negb (is_aligned pa PAGE_SIZE_4K) then Ret (inr Misaligned, m, f)
  else map_range_from (S (Z.to_nat (len / 4096 + 1))) root va pa len flags mode 0 m f.
End mapper.

Definition leaf_entry (entry : Z) (level : nat) : bool :=
  (level =? 1)%nat || contains (pte_flags entry) HUGE.
Definition size_at (level : nat) : PageSize := if (level =? 1)%nat then Size4K else Size2M.

Fixpoint unmap_walk (level : nat) (va table : Z) (m : memory) : outcome (option (Z * PageSize) * memory) :=
  match level with
  | O => Ret (None, m)
  | S below =>
      let idx := index_at va level in
      entry <~ read_entry m table idx;;
      if negb (contains (pte_flags entry) PRESENT) then Ret (None, m)
      else if leaf_entry entry level then
        m <~ write_entry m table idx 0;;
        Ret (Some (pte_phys entry, size_at level), m)
      else unmap_walk below va (pte_phys entry) m
  end.
Definition unmap_page (root va : Z) (m : memory) : outcome (option (Z * PageSize) * memory) :=
  unmap_walk LEVELS va root m.

Fixpoint translate_walk (level : nat) (va table : Z) (m : memory) : outcome (option (Z * PageSize * Z)) :=
  match level with
  | O => Ret None
  | S below =>
      entry <~ read_entry m table (index_at va level);;
      if negb (contains (pte_flags entry) PRESENT) then Ret None
      else if leaf_entry entry level then
        let size := size_at level in
        let offset := Z.land va (bytes size - 1) in
        pa <~ addc 64 (pte_phys entry) offset;;
        Ret (Some (pa, size, pte_flags entry))
      else translate_walk below va (pte_phys entry) m
  end.
Definition translate (root va : Z) (m : memory) : outcome (option (Z * PageSize * Z)) :=
  translate_walk LEVELS va root m.

(** [patch_physmap_uc]: the walk to the table above the leaf, and the loop over
    the leaves that cover the range; [n] bounds the loop. *)
Fixpoint table_above (level leaf_level : nat) (va table : Z) (m : memory) : outcome Z :=
  match level with
  | O => Ret table
  | S below =>
      if (leaf_level <? level)%nat then
        entry <~ read_entry m table (index_at va level);;
        table_above below leaf_level va (pte_phys entry) m
      else Ret table
  end.
Fixpoint patch_uc_from (n : nat) (root hhdm_start phys len touched off : Z) (m : memory)
    : outcome ((Z + MapError) * memory) :=
  match n with
  | O => NoFuel
  | S n =>
      if off <? len then
        va <~ addc 64 hhdm_start phys;;
        va <~ addc 64 va off;;
        t <~ translate root va m;;
        match t with
        | None => Ret (inr NotMapped, m)
        | Some (_, size, _) =>
            table <~ table_above LEVELS (leaf_level size) va root m;;
            let idx := index_at va (leaf_level size) in
            entry <~ read_entry m table idx;;
            let patched := make_pte (pte_phys entry) (with_bits (pte_flags entry) (Z.lor PCD PWT)) in
            m <~ write_entry m table idx patched;;
            touched <~ addc 64 touched 1;;
            patch_uc_from n root hhdm_start phys len touched (saturating_add 64 off (bytes size)) m
        end
      else Ret (inl touched, m)
  end.
Definition patch_physmap_uc (root hhdm_start phys len : Z) (m : memory) : outcome ((Z + MapError) * memory) :=
  if len =? 0 then Ret (inl 0, m)
  else patch_uc_from (S (Z.to_nat (len / 4096 + 1))) root hhdm_start phys len 0 0 m.

(** ** Probing *)
Inductive Probe := Skip (n : Z) | Mapped (pa : Z) (size : PageSize) (flags : Z).

Definition slot_remaining (va : Z) (level : nat) : Z :=
  let span := Z.shiftl 1 (12 + 9 * (Z.of_nat level - 1)) in
  let slot_base := Z.land va (notw 64 (span - 1)) in
  let slot_end := wrapping_add 64 slot_base span in
  if va <? slot_end then slot_end - va else span.

Fixpoint probe_walk (level : nat) (va table : Z) (m : memory) : outcome Probe :=
  match level with
  | O => Panic POverflow
  | S below =>
      entry <~ read_entry m table (index_at va level);;
      if negb (contains (pte_flags entry) PRESENT) then Ret (Skip (slot_remaining va level))
      else if leaf_entry entry level then Ret (Mapped (pte_phys entry) (size_at level) (pte_flags entry))
      else probe_walk below va (pte_phys entry) m
  end.
Definition probe (root va : Z) (m : memory) : outcome Probe :=
  if negb (is_canonical va) then
    if va <? 0xFFFF800000000000 then Ret (Skip (0xFFFF800000000000 - va)) else Ret (Skip PAGE_SIZE_4K)
  else probe_walk LEVELS va root m.

(** [range_unmapped]: each probe leaves a table slot, so the loop runs at most
    once per page of the range, and once more. *)
Fixpoint range_unmapped_from (n : nat) (root start end_ va : Z) (m : memory) : outcome bool :=
  match n with
  | O => NoFuel
  | S n =>
      if va <? end_ then
        p <~ probe root va m;;
        match p with
        | Skip k =>
            let va := saturating_add 64 va (Z.max k 1) in
            if va <=? start then Ret true else range_unmapped_from n root start end_ va m
        | Mapped _ _ _ => Ret false
        end
      else Ret true
  end.
Definition range_unmapped (root start end_ : Z) (m : memory) : outcome bool :=
  range_unmapped_from (S (Z.to_nat ((end_ - start) / 4096 + 2))) root start end_ start m.

(** ** Sharing and freeing *)

Definition pml4_entry (root idx : Z) (m : memory) : outcome Z :=
  _ <~ oassert (idx <? Z.of_nat PTES_PER_TABLE) "paging: pml4_entry index";;
  read_entry m root idx.


(** [copy_kernel_half_from]: the slots from [KERNEL_PML4_FIRST] on. *)
Fixpoint copy_slots (n : nat) (i src dst : Z) (m : memory) : outcome memory :=
  match n with
  | O => Ret m
  | S n =>
      e <~ read_entry m src i;;
      m <~ write_entry m dst i e;;
      copy_slots n (i + 1) src dst m
  end.
Definition copy_kernel_half_from (dst src : Z) (m : memory) : outcome memory :=
  copy_slots (PTES_PER_TABLE - KERNEL_PML4_FIRST) (Z.of_nat KERNEL_PML4_FIRST) src dst m.

Record UserFreeStats := mkFreeStats { leaves : Z; tables : Z }.

(** The entries of one table in [free_level], from [i] on, [rec] freeing the table
    below: the frames handed to [free], in order, and the counts. *)
Fixpoint free_entries (rec : Z → memory → UserFreeStats → outcome (list Z * memory * UserFreeStats)) (level : nat) (table : Z)
    (n : nat) (i : Z) (m : memory) (st : UserFreeStats) : outcome (list Z * memory * UserFreeStats) :=
  match n with
  | O => Ret ([], m, st)
  | S n =>
      e <~ read_entry m table i;;
      if negb (contains (pte_flags e) PRESENT) then free_entries rec level table n (i + 1) m st
      else
        let child := pte_phys e in
        let huge := contains (pte_flags e) HUGE in
        r <~ (if (level =? 1)%nat || huge then
                _ <~ oassert ((level =? 1)%nat && negb huge) "addrspace: unexpected huge user leaf";;
                n <~ addc 64 (leaves st) 1;;
                Ret ([], m, mkFreeStats n (tables st))
              else
                r <~ rec child m st;;
                let '(fr, m, st) := r in
                n <~ addc 64 (tables st) 1;;
                Ret (fr, m, mkFreeStats (leaves st) n));;
        let '(fr, m, st) := r in
        m <~ write_entry m table i 0;;
        r <~ free_entries rec level table n (i + 1) m st;;
        let '(rest, m, st) := r in
        Ret ((fr ++ child :: rest)%list, m, st)
  end.
Fixpoint free_level (level : nat) (pml4 : bool) (table : Z) (m : memory) (st : UserFreeStats)
    : outcome (list Z * memory * UserFreeStats) :=
  match level with
  | O => Panic POverflow
  | S below =>
      let end_ := if pml4 && (level =? LEVELS)%nat then KERNEL_PML4_FIRST else PTES_PER_TABLE in
      free_entries (λ child m st, free_level below false child m st) level table end_ 0 m st
  end.
Definition free_user_half (root : Z) (m : memory) : outcome (list Z * memory * UserFreeStats) :=
  free_level LEVELS true root m (mkFreeStats 0 0).

(** ** Leaf flags *)
Definition mmio_flags : Z := Z.lor (Z.lor (Z.lor (Z.lor (Z.lor PRESENT WRITABLE) GLOBAL) NX) PCD) PWT.
Definition physmap_flags : Z := Z.lor (Z.lor (Z.lor PRESENT WRITABLE) GLOBAL) NX.
Definition kernel_text_flags : Z := Z.lor PRESENT GLOBAL.
Definition kernel_rodata_flags : Z := Z.lor (Z.lor PRESENT GLOBAL) NX.
Definition kernel_data_flags : Z := Z.lor (Z.lor (Z.lor PRESENT WRITABLE) GLOBAL) NX.
Definition heap_flags : Z := kernel_data_flags.
Definition stack_flags : Z := kernel_data_flags.
Definition user_leaf_flags (write exec : bool) : Z :=
  let f := Z.lor PRESENT USER in
  let f := if write then Z.lor f WRITABLE else f in
  if negb exec then Z.lor f NX else f.

(** ** The ioremap window *)
Definition IOREMAP_BASE : Z := 0xFFFFE00000000000.
Definition IOREMAP_LEN : Z := 256 * 1024 * 1024.

Definition align_up (x a : Z) : outcome Z :=
  s <~ addc 64 x a;; s <~ subc 64 s 1;; Ret (Z.land s (notw 64 (a - 1))).

Record IoremapWindow := mkIoremap { next : Z }.
Definition ioremap_new : IoremapWindow := mkIoremap IOREMAP_BASE.

Definition reserve (phys len : Z) (w : IoremapWindow) : outcome (option Z * IoremapWindow) :=
  if len =? 0 then Ret (None, w)
  else
    let page_off := Z.land phys (PAGE_SIZE_4K - 1) in
    n <~ addc 64 page_off len;;
    pages <~ align_up n PAGE_SIZE_4K;;
    va <~ align_up (next w) PAGE_SIZE_4K;;
    match checked_add 64 va pages with
    | None => Ret (None, w)
    | Some end_ =>
        lim <~ addc 64 IOREMAP_BASE IOREMAP_LEN;;
        if lim <? end_ then Ret (None, w)
        else r <~ addc 64 va page_off;; Ret (Some r, mkIoremap end_)
    end.

(** The end of the reservation at [va], the chain of [and_then]s. *)
Definition reservation_end (start page_off len : Z) : option Z :=
  match checked_add 64 page_off len with
  | None => None
  | Some n =>
      match checked_add 64 n (PAGE_SIZE_4K - 1) with
      | None => None
      | Some n => checked_add 64 start (Z.land n (notw 64 (PAGE_SIZE_4K - 1)))
      end
  end.
Definition unreserve (va len : Z) (w : IoremapWindow) : outcome (bool * IoremapWindow) :=
  let page_off := Z.land va (PAGE_SIZE_4K - 1) in
  start <~ subc 64 va page_off;;
  match reservation_end start page_off len with
  | None => Ret (false, w)
  | Some end_ =>
      if (len =? 0) || negb (end_ =? next w) || (start <? IOREMAP_BASE) then Ret (false, w)
      else Ret (true, mkIoremap start)
  end.

End Paging.
