(* ===== verification/PagingRep.v ===== *)
(** * The shape of a page table

    [shape] names the table frames of a root: a finite map from the indices that
    lead to a table (the lowest level first) to its frame.  [pt_wf] ties memory
    to it: distinct paths have distinct frames, an entry leads to a table exactly
    where the shape has one, and a 2 MiB leaf is only at level 2.  Under it every
    walk stops at one table, [stop], and the walks of [Paging] are functions of
    the entry found there. *)

From stdpp Require Import base gmap list numbers.
From S2P Require Import Prelude Paging.
Import Paging.

Local Open Scope Z_scope.

(** ** Entries *)

Lemma index_at_range va l : 0 ≤ index_at va l < 512.
Proof. unfold index_at. change 0x1FF with (2 ^ 9 - 1). rewrite land_mask by lia. apply Z.mod_pos_bound. lia. Qed.

Lemma pte_phys_make p fl : pte_phys (make_pte p fl) = Z.land p PTE_ADDR_MASK.
Proof.
  unfold pte_phys, make_pte. rewrite Z.land_lor_distr_l, <-!Z.land_assoc.
  change (Z.land (notw 64 PTE_ADDR_MASK) PTE_ADDR_MASK) with 0.
  change (Z.land PTE_ADDR_MASK PTE_ADDR_MASK) with PTE_ADDR_MASK. by rewrite Z.land_0_r, Z.lor_0_r.
Qed.
Lemma pte_flags_make p fl : pte_flags (make_pte p fl) = pte_flags fl.
Proof.
  unfold pte_flags, make_pte. rewrite Z.land_lor_distr_l, <-!Z.land_assoc.
  change (Z.land (notw 64 PTE_ADDR_MASK) (notw 64 PTE_ADDR_MASK)) with (notw 64 PTE_ADDR_MASK).
  change (Z.land PTE_ADDR_MASK (notw 64 PTE_ADDR_MASK)) with 0. by rewrite Z.land_0_r.
Qed.
Lemma frame_masked p : frame_ok p → Z.land p PTE_ADDR_MASK = p.
Proof.
  intros [Hp Ha]. change PTE_ADDR_MASK with (Z.shiftl (Z.ones 40) 12).
  assert (p = Z.shiftl (p / 4096) 12) as -> by (rewrite Z.shiftl_mul_pow2 by lia; dlia).
  rewrite <-Z.shiftl_land, Z.land_ones by lia. f_equal. apply Z.mod_small. change (2 ^ 52) with (4096 * 2 ^ 40) in Hp. dlia.
Qed.
Lemma pte_phys_range e : 0 ≤ pte_phys e < 2 ^ 52.
Proof.
  unfold pte_phys. change PTE_ADDR_MASK with (Z.land (notw 64 (2 ^ 12 - 1)) (2 ^ 52 - 1)).
  rewrite Z.land_assoc, land_mask by lia. apply Z.mod_pos_bound. lia.
Qed.

Lemma contains_flags e bits :
  Z.land (notw 64 PTE_ADDR_MASK) bits = bits → contains (pte_flags e) bits = contains e bits.
Proof. intros Hb. unfold contains, pte_flags. by rewrite <-Z.land_assoc, Hb. Qed.
Lemma contains_with f bits : contains (with_bits f bits) bits = true.
Proof. unfold contains, with_bits. apply Z.eqb_eq, Z.bits_inj'. intros n _.
  rewrite Z.land_spec, Z.lor_spec. by destruct (Z.testbit f n), (Z.testbit bits n).
Qed.
Lemma contains_with_other f b bits : Z.land b bits = 0 → contains (with_bits f b) bits = contains f bits.
Proof. intros Hb. unfold contains, with_bits. by rewrite Z.land_lor_distr_l, Hb, Z.lor_0_r. Qed.

Definition present (e : Z) : bool := contains (pte_flags e) PRESENT.
Definition huge (e : Z) : bool := contains (pte_flags e) HUGE.
(** An entry that leads to a table. *)
Definition interior (e : Z) (level : nat) : bool := present e && negb (leaf_entry e level).

(** ** Paths *)
Abbreviation path := (list Z).

(** The indices [va] takes to the table at [level]. *)
Definition path_to (va : Z) (level : nat) : path := map (index_at va) (seq (S level) (LEVELS - level)).

Lemma path_to_root va : path_to va LEVELS = [].
Proof. done. Qed.
Lemma path_to_S va l : (l < LEVELS)%nat → path_to va l = index_at va (S l) :: path_to va (S l).
Proof. intros Hl. unfold path_to. replace (LEVELS - l)%nat with (S (LEVELS - S l))%nat by lia. done. Qed.
Lemma path_to_length va l : length (path_to va l) = (LEVELS - l)%nat.
Proof. unfold path_to. by rewrite length_map, length_seq. Qed.

(** The slot of level [l] that holds [va], in the 48 bits the tables translate. *)
Definition slot (va : Z) (l : nat) : Z := (va mod 2 ^ 48) / 2 ^ (12 + 9 * Z.of_nat l).

Lemma slot_div va l : slot va (S l) = slot va l / 512.
Proof.
  unfold slot. rewrite Z.div_div by (try apply Z.pow_nonzero; lia). f_equal.
  change 512 with (2 ^ 9). rewrite <-Z.pow_add_r by lia. f_equal. lia.
Qed.
Lemma slot_mod va l : (l < LEVELS)%nat → slot va l mod 512 = index_at va (S l).
Proof.
  intros Hl. unfold slot, index_at. change 0x1FF with (2 ^ 9 - 1). rewrite land_mask by lia.
  rewrite Z.shiftr_div_pow2 by lia. replace (Z.of_nat (S l) - 1) with (Z.of_nat l) by lia.
  set (k := 12 + 9 * Z.of_nat l). assert (0 ≤ k ∧ k + 9 ≤ 48) as [Hk Hk'] by (unfold LEVELS in *; lia).
  replace (2 ^ 48) with (2 ^ k * (2 ^ 9 * 2 ^ (48 - k - 9))) by (rewrite <-!Z.pow_add_r by lia; f_equal; lia).
  rewrite Z.rem_mul_r by (try apply Z.pow_nonzero; try apply Z.mul_pos_pos; try apply pow2_pos; lia).
  rewrite (Z.mul_comm (2 ^ k)), Z.div_add by (apply Z.pow_nonzero; lia).
  rewrite (Z.div_small (va mod 2 ^ k)) by (apply Z.mod_pos_bound, pow2_pos; lia). rewrite Z.add_0_l.
  change 512 with (2 ^ 9). rewrite Z.rem_mul_r by (try apply Z.pow_nonzero; try apply pow2_pos; lia).
  rewrite (Z.mul_comm (2 ^ 9)), Z.mod_add by lia. by rewrite Z.mod_mod by lia.
Qed.
Lemma path_slot va va' l : (l ≤ LEVELS)%nat → path_to va l = path_to va' l ↔ slot va l = slot va' l.
Proof.
  intros Hl. replace l with (LEVELS - (LEVELS - l))%nat by lia. generalize (LEVELS - l)%nat (Nat.le_sub_l LEVELS l).
  clear l Hl. induction n as [|n IH]; intros Hn.
  { rewrite Nat.sub_0_r, !path_to_root. split; [intros _|done]. unfold slot.
    rewrite !Z.div_small by (apply Z.mod_pos_bound; lia). done. }
  assert (S (LEVELS - S n) = LEVELS - n)%nat as E by lia.
  rewrite (path_to_S va), (path_to_S va'), <-(slot_mod va), <-(slot_mod va'), E by lia. specialize (IH ltac:(lia)). pose proof (slot_div va (LEVELS - S n)) as D.
  pose proof (slot_div va' (LEVELS - S n)) as D'. rewrite E in D, D'. rewrite D, D' in IH. split.
  - intros Hc. pose proof (f_equal (hd 0) Hc) as Hm. pose proof (f_equal tl Hc) as Hp. cbn [hd tl] in Hm, Hp.
    apply IH in Hp. pose proof (Z.div_mod (slot va (LEVELS - S n)) 512).
    pose proof (Z.div_mod (slot va' (LEVELS - S n)) 512). lia.
  - intros Hs. rewrite Hs. f_equal. apply IH. by rewrite Hs.
Qed.

(** ** The shape *)
Definition look (m : memory) (a i : Z) : option Z := m !! a ≫= (λ t, t !! Z.to_nat i).

Record pt_wf (root : Z) (T : gmap path Z) (m : memory) : Prop := {
  wf_root : T !! [] = Some root;
  wf_inj p q a : T !! p = Some a → T !! q = Some a → p = q;
  wf_parent i p a : T !! (i :: p) = Some a → is_Some (T !! p);
  wf_len p a : T !! p = Some a → (length p < LEVELS)%nat;
  wf_mem p a : T !! p = Some a → ∃ t, m !! a = Some t ∧ length t = PTES_PER_TABLE;
  wf_child p a i e : T !! p = Some a → 0 ≤ i < 512 → look m a i = Some e →
    T !! (i :: p) = if interior e (LEVELS - length p) then Some (pte_phys e) else None;
  wf_huge p a i e : T !! p = Some a → 0 ≤ i < 512 → look m a i = Some e →
    present e = true → huge e = true → (LEVELS - length p ≤ 2)%nat
}.

Lemma look_some root T m p a i :
  pt_wf root T m → T !! p = Some a → 0 ≤ i < 512 → ∃ e, look m a i = Some e ∧ read_entry m a i = Ret e.
Proof.
  intros HW Hp Hi. destruct (wf_mem _ _ _ HW p a Hp) as (t & Ht & Hlen). unfold look, read_entry. rewrite Ht. cbn.
  destruct (lookup_lt_is_Some_2 t (Z.to_nat i)) as [e He]; [rewrite Hlen; unfold PTES_PER_TABLE; lia|].
  exists e. split; [done|]. apply index_ret; [lia|done].
Qed.

(** The memory after one entry of a table changes. *)
Definition poke (m : memory) (a i e : Z) : memory := alter (<[Z.to_nat i := e]>) a m.

Lemma write_known m a i e t :
  m !! a = Some t → length t = PTES_PER_TABLE → 0 ≤ i < 512 → write_entry m a i e = Ret (poke m a i e).
Proof.
  intros Ht Hlen Hi. unfold write_entry, poke. rewrite Ht.
  rewrite store_ret by (unfold zlen; rewrite Hlen; unfold PTES_PER_TABLE; lia). cbn [obind]. f_equal.
  apply map_eq. intros k. destruct (decide (k = a)) as [->|].
  - by rewrite lookup_insert_eq, lookup_alter_eq, Ht.
  - by rewrite lookup_insert_ne, lookup_alter_ne.
Qed.
Lemma write_poke root T m p a i e :
  pt_wf root T m → T !! p = Some a → 0 ≤ i < 512 → write_entry m a i e = Ret (poke m a i e).
Proof. intros HW Hp Hi. destruct (wf_mem _ _ _ HW p a Hp) as (t & Ht & Hlen). by eapply write_known. Qed.
Lemma look_poke_eq root T m p a i e :
  pt_wf root T m → T !! p = Some a → 0 ≤ i < 512 → look (poke m a i e) a i = Some e.
Proof.
  intros HW Hp Hi. destruct (wf_mem _ _ _ HW p a Hp) as (t & Ht & Hlen). unfold look, poke.
  rewrite lookup_alter_eq, Ht. cbn. apply list_lookup_insert_eq. rewrite Hlen. unfold PTES_PER_TABLE. lia.
Qed.
Lemma look_poke_ne m a i e a' i' :
  0 ≤ i → 0 ≤ i' → (a', i') ≠ (a, i) → look (poke m a i e) a' i' = look m a' i'.
Proof.
  intros Hi Hi' Hne. unfold look, poke. destruct (decide (a' = a)) as [->|]; [|by rewrite lookup_alter_ne].
  rewrite lookup_alter_eq. destruct (m !! a) as [t|]; [|done]. cbn. apply list_lookup_insert_ne.
  intros E. apply Hne. f_equal. lia.
Qed.
Lemma poke_mem m a i e a' t n :
  m !! a' = Some t → length t = n → ∃ t', poke m a i e !! a' = Some t' ∧ length t' = n.
Proof.
  intros Ht Hn. unfold poke. destruct (decide (a' = a)) as [->|]; [rewrite lookup_alter_eq, Ht|rewrite lookup_alter_ne by done; eauto].
  eexists. split; [done|]. by rewrite length_insert.
Qed.

(** ** Where a walk stops *)
Record stop (T : gmap path Z) (va : Z) (k : nat) (a : Z) : Prop := {
  stop_pos : (1 ≤ k ≤ LEVELS)%nat;
  stop_table : T !! path_to va k = Some a;
  stop_below : T !! path_to va (pred k) = None
}.

Section walks.
Context (root : Z) (T : gmap path Z) (m : memory) (HW : pt_wf root T m).

(** Paths above a table are tables. *)
Lemma above_table va k l : (k ≤ l ≤ LEVELS)%nat → is_Some (T !! path_to va k) → is_Some (T !! path_to va l).
Proof.
  intros [Hk Hl]. induction Hk as [|l Hk IH]; [done|]. intros Hs. destruct IH as [a Ha]; [lia|done|].
  rewrite path_to_S in Ha by lia. by eapply wf_parent.
Qed.
Lemma table_levels va k a : T !! path_to va k = Some a → (k ≤ LEVELS)%nat → (1 ≤ k)%nat.
Proof. intros Ha Hk. apply wf_len with (1 := HW) in Ha. rewrite path_to_length in Ha. lia. Qed.

Lemma stop_exists va : ∃ k a, stop T va k a.
Proof.
  assert (∀ n, (n ≤ LEVELS)%nat → (∃ k a, stop T va k a) ∨ ∃ a, T !! path_to va (LEVELS - n) = Some a) as Hn.
  { induction n as [|n IH]; intros Hle; [right; exists root; by apply wf_root with (m := m)|].
    destruct IH as [?|[a Ha]]; [lia|by left|].
    destruct (T !! path_to va (LEVELS - S n)) as [b|] eqn:E; [right; eauto|left].
    exists (LEVELS - n)%nat, a. split; [lia|done|]. by replace (pred (LEVELS - n))%nat with (LEVELS - S n)%nat by lia. }
  destruct (Hn LEVELS) as [?|[a Ha]]; [lia|done|]. apply table_levels in Ha; lia.
Qed.
Lemma stop_unique va k a k' a' : stop T va k a → stop T va k' a' → k = k' ∧ a = a'.
Proof.
  intros [P1 P2 P3] [Q1 Q2 Q3]. assert (k = k') as ->; [|split; [done|congruence]].
  destruct (Nat.lt_trichotomy k k') as [Hlt|[?|Hlt]]; [|done|]; exfalso.
  - destruct (above_table va k (pred k')) as [b Hb]; [lia|eauto|congruence].
  - destruct (above_table va k' (pred k)) as [b Hb]; [lia|eauto|congruence].
Qed.

(** The entry a step of a walk reads. *)
Lemma walk_entry va l a :
  (1 ≤ l ≤ LEVELS)%nat → T !! path_to va l = Some a → ∃ e, read_entry m a (index_at va l) = Ret e ∧
    look m a (index_at va l) = Some e ∧
    T !! path_to va (pred l) = if interior e l then Some (pte_phys e) else None.
Proof.
  intros Hl Ha. destruct (look_some root T m _ a (index_at va l) HW Ha (index_at_range _ _)) as (e & He & Hr).
  exists e. split; [done|]. split; [done|]. rewrite path_to_S by lia. replace (S (pred l)) with l by lia.
  rewrite (wf_child _ _ _ HW _ a _ e Ha (index_at_range _ _) He), path_to_length.
  by replace (LEVELS - (LEVELS - l))%nat with l by lia.
Qed.
Lemma stop_entry va k a : stop T va k a → ∃ e, look m a (index_at va k) = Some e ∧ interior e k = false.
Proof.
  intros [Hk Ha Hb]. destruct (walk_entry va k a Hk Ha) as (e & _ & He & Hc). exists e. split; [done|].
  rewrite Hb in Hc. by destruct (interior e k).
Qed.

(** One step of a walk: it goes on to the next table, or it has stopped. *)
Lemma walk_step va l a k b :
  stop T va k b → T !! path_to va l = Some a → (k ≤ l ≤ LEVELS)%nat →
  ∃ e, read_entry m a (index_at va l) = Ret e ∧
    ((k < l)%nat ∧ interior e l = true ∧ T !! path_to va (pred l) = Some (pte_phys e) ∨
     k = l ∧ a = b ∧ look m b (index_at va k) = Some e ∧ interior e k = false).
Proof.
  intros HS Ha Hl. pose proof (stop_pos _ _ _ _ HS).
  destruct (walk_entry va l a ltac:(lia) Ha) as (e & Hr & He & Hc). exists e. split; [done|].
  destruct (decide (k = l)) as [->|Hne].
  - right. assert (a = b) as -> by (pose proof (stop_table _ _ _ _ HS); congruence). split; [done|]. split; [done|].
    split; [done|]. rewrite (stop_below _ _ _ _ HS) in Hc. by destruct (interior e l).
  - left. split; [lia|]. destruct (above_table va k (pred l)) as [c Hd]; [lia|exists b; apply HS|].
    rewrite Hd in Hc. rewrite Hd. destruct (interior e l); [by rewrite Hc|done].
Qed.

(** What [translate] answers for the entry a walk stops at. *)
Definition leaf_result (va : Z) (k : nat) (e : Z) : option (Z * PageSize * Z) :=
  if present e then Some (pte_phys e + Z.land va (bytes (size_at k) - 1), size_at k, pte_flags e) else None.

Lemma interior_true e l : interior e l = true → present e = true ∧ leaf_entry e l = false.
Proof. unfold interior. intros [? H%negb_true_iff]%andb_true_iff. done. Qed.
Lemma interior_false e l : interior e l = false → present e = false ∨ present e = true ∧ leaf_entry e l = true.
Proof. unfold interior. destruct (present e), (leaf_entry e l); naive_solver. Qed.

(** A walk that follows interior entries and finishes at the first other one
    finishes where the shape stops. *)
Lemma walk_stops {R} (W : nat → Z → outcome R) (fin : nat → Z → Z → outcome R) va k b e :
  (∀ l a e, read_entry m a (index_at va (S l)) = Ret e →
     W (S l) a = if interior e (S l) then W l (pte_phys e) else fin (S l) a e) →
  stop T va k b → look m b (index_at va k) = Some e → W LEVELS root = fin k b e.
Proof.
  intros HWalk HS He. pose proof (stop_pos _ _ _ _ HS) as Hk.
  assert (∀ l a, (l ≤ LEVELS)%nat → (k ≤ l)%nat → T !! path_to va l = Some a → W l a = fin k b e) as Hind;
    [|apply Hind; [lia|lia|by apply wf_root with (m := m)]].
  induction l as [|l IH]; intros a Hl Hkl Ha; [lia|].
  destruct (walk_step va (S l) a k b HS Ha ltac:(lia)) as (e' & Hr & [(Hlt & Hi & Hn)|(-> & -> & He' & Hi)]);
    rewrite (HWalk _ _ _ Hr), Hi; [apply IH; [lia|lia|done]|congruence].
Qed.

Ltac walk_cases e l :=
  unfold interior, present; destruct (contains (pte_flags e) PRESENT), (leaf_entry e l); cbn [negb andb].

Lemma translate_stop va k b e :
  stop T va k b → look m b (index_at va k) = Some e → translate root va m = Ret (leaf_result va k e).
Proof.
  intros HS He. unfold translate.
  rewrite (walk_stops (λ l a, translate_walk l va a m) (λ k _ e, Ret (leaf_result va k e)) va k b e); [done| |done|done].
  clear. intros l a e Hr. cbn [translate_walk]. rewrite Hr. cbn [obind]. unfold leaf_result.
  walk_cases e (S l); try done. rewrite addc_ret; [done|]. pose proof (pte_phys_range e).
  assert (0 ≤ Z.land va (bytes (size_at (S l)) - 1) < 2 ^ 21).
  { destruct (size_at (S l)); cbn [bytes]; [change (PAGE_SIZE_4K - 1) with (2 ^ 12 - 1)|change (PAGE_SIZE_2M - 1) with (2 ^ 21 - 1)];
      rewrite land_mask by lia; dlia. }
  unfold in_width. lia.
Qed.

Lemma probe_stop va k b e :
  stop T va k b → look m b (index_at va k) = Some e → probe_walk LEVELS va root m =
    Ret (if present e then Mapped (pte_phys e) (size_at k) (pte_flags e) else Skip (slot_remaining va k)).
Proof.
  intros HS He. rewrite (walk_stops (λ l a, probe_walk l va a m) (λ k _ e, Ret (if present e then
    Mapped (pte_phys e) (size_at k) (pte_flags e) else Skip (slot_remaining va k))) va k b e); [done| |done|done].
  clear. intros l a e Hr. cbn [probe_walk]. rewrite Hr. cbn [obind]. by walk_cases e (S l).
Qed.

Lemma unmap_stop va k b e :
  stop T va k b → look m b (index_at va k) = Some e → unmap_page root va m =
    Ret (if present e then (Some (pte_phys e, size_at k), poke m b (index_at va k) 0) else (None, m)).
Proof.
  intros HS He. unfold unmap_page.
  rewrite (walk_stops (λ l a, unmap_walk l va a m) (λ k a e, if present e then
    m <~ write_entry m a (index_at va k) 0;; Ret (Some (pte_phys e, size_at k), m) else Ret (None, m)) va k b e); [|clear|done|done].
  - destruct (present e); [|done]. by erewrite write_poke by (done || apply HS || apply index_at_range).
  - intros l a e Hr. cbn [unmap_walk]. rewrite Hr. cbn [obind]. by walk_cases e (S l).
Qed.
End walks.
