(* ===== verification/PagingSpec.v ===== *)
(** * Page tables refine a page map

    What a root promises its clients is a map from addresses to pages, [view]:
    which page covers an address, and which 2 MiB slots hold a table of 4 KiB
    pages.  [map_page], [unmap_page] and [translate] answer as that map does,
    for every sequence of calls and every frame allocator that keeps the
    [FrameAlloc] contract; running out of frames changes nothing. *)

From stdpp Require Import base gmap list numbers.
From S2P Require Import Prelude Trace Paging PagingRep.
Import Paging.

Local Open Scope Z_scope.

(** ** Changing one entry *)
Section change.
Context (root : Z) (T : gmap path Z) (m : memory) (HW : pt_wf root T m).

(** The table at [p], reached by a walk from the address [va] at level [l]. *)
Lemma table_at_level va p : (length p < LEVELS)%nat →
  ∀ i, path_to va (pred (LEVELS - length p)) = i :: p →
    index_at va (LEVELS - length p) = i ∧ path_to va (LEVELS - length p) = p.
Proof. intros Hp i. rewrite path_to_S by lia. replace (S (pred (LEVELS - length p))) with (LEVELS - length p)%nat by lia. by intros [= -> ->]. Qed.

(** Two walks that reach one entry share its path. *)
Lemma entry_path va k p a i :
  (1 ≤ k ≤ LEVELS)%nat → T !! p = Some a → T !! path_to va k = Some a → index_at va k = i →
  k = (LEVELS - length p)%nat ∧ path_to va (pred k) = i :: p.
Proof.
  intros Hk Hp Hv <-. pose proof (wf_inj _ _ _ HW _ _ _ Hp Hv) as ->. rewrite path_to_length. split; [lia|].
  rewrite path_to_S by lia. by replace (S (pred k)) with k by lia.
Qed.

Lemma poke_wf p a i e :
  T !! p = Some a → 0 ≤ i < 512 → T !! (i :: p) = None → interior e (LEVELS - length p) = false →
  (present e = true → huge e = true → (LEVELS - length p ≤ 2)%nat) → pt_wf root T (poke m a i e).
Proof.
  intros Hp Hi Hn Hint Hh. split; try apply HW.
  - intros q b Hq. destruct (wf_mem _ _ _ HW q b Hq) as (t & Ht & Hl). by eapply poke_mem.
  - intros q b j e' Hq Hj He'. destruct (decide ((b, j) = (a, i))) as [[= -> ->]|Hne].
    + assert (q = p) as -> by (by eapply wf_inj). erewrite look_poke_eq in He' by done. injection He' as <-. by rewrite Hint, Hn.
    + rewrite look_poke_ne in He' by (done || lia). by eapply wf_child.
  - intros q b j e' Hq Hj He'. destruct (decide ((b, j) = (a, i))) as [[= -> ->]|Hne].
    + assert (q = p) as -> by (by eapply wf_inj). erewrite look_poke_eq in He' by done. by injection He' as <-.
    + rewrite look_poke_ne in He' by (done || lia). by eapply wf_huge.
Qed.

Lemma poke_translate p a i e va :
  T !! p = Some a → 0 ≤ i < 512 → T !! (i :: p) = None → pt_wf root T (poke m a i e) →
  translate root va (poke m a i e) =
    if decide (path_to va (pred (LEVELS - length p)) = i :: p) then Ret (leaf_result va (LEVELS - length p) e)
    else translate root va m.
Proof.
  intros Hp Hi Hn HW'. pose proof (wf_len _ _ _ HW _ _ Hp) as Hl. case_decide as E.
  - destruct (table_at_level va p Hl i E) as [E1 E2]. apply (translate_stop _ T _ HW' va _ a).
    + split; [lia|by rewrite E2|by rewrite E].
    + rewrite E1. by eapply look_poke_eq.
  - destruct (stop_exists _ _ _ HW va) as (k & b & HS). destruct (stop_entry _ _ _ HW _ _ _ HS) as (e' & He' & _).
    rewrite (translate_stop _ _ _ HW va k b e' HS He'). apply (translate_stop _ _ _ HW' va k b e' HS).
    pose proof (index_at_range va k). rewrite look_poke_ne; [done|lia|lia|]. intros [= -> Hix]. apply E.
    pose proof (stop_pos _ _ _ _ HS). destruct (entry_path va k p a i) as [<- ?]; [lia|done|apply HS|done|done].
Qed.

(** ** Adding a table *)
Definition interior_flags : Z := Z.lor (Z.lor PRESENT WRITABLE) USER.
Definition grow (a i new : Z) : memory :=
  poke (<[new := replicate PTES_PER_TABLE 0]> m) a i (make_pte new interior_flags).

Context (p : path) (a i new : Z).
Context (Hp : T !! p = Some a) (Hi : 0 ≤ i < 512) (Hn : T !! (i :: p) = None)
  (Hlev : (2 ≤ LEVELS - length p)%nat) (Hnew : frame_ok new) (Hfresh : ∀ q, T !! q ≠ Some new).

Lemma grow_look_new j : 0 ≤ j < 512 → look (grow a i new) new j = Some 0.
Proof.
  intros Hj. assert (new ≠ a) by (intros ->; by apply (Hfresh p)). unfold grow. rewrite look_poke_ne; [|lia|lia|congruence].
  unfold look. rewrite lookup_insert_eq. cbn [mbind option_bind]. apply lookup_replicate_2. unfold PTES_PER_TABLE. lia.
Qed.
Lemma grow_look_at : look (grow a i new) a i = Some (make_pte new interior_flags).
Proof.
  assert (new ≠ a) by (intros ->; by apply (Hfresh p)). destruct (wf_mem _ _ _ HW p a Hp) as (t & Ht & Hlen).
  unfold look, grow, poke. rewrite lookup_alter_eq, lookup_insert_ne, Ht by done. cbn.
  apply list_lookup_insert_eq. rewrite Hlen. unfold PTES_PER_TABLE. lia.
Qed.
Lemma grow_look_other q b j : T !! q = Some b → 0 ≤ j → (b, j) ≠ (a, i) → look (grow a i new) b j = look m b j.
Proof.
  intros Hq Hj Hne. unfold grow. rewrite look_poke_ne by (done || lia). unfold look.
  rewrite lookup_insert_ne; [done|]. intros ->. by apply (Hfresh q).
Qed.

Lemma grow_entry_interior l : (2 ≤ l)%nat → interior (make_pte new interior_flags) l = true.
Proof.
  intros Hl. unfold interior, present, leaf_entry. rewrite !pte_flags_make.
  destruct l as [|[|l]]; [lia|lia|]. reflexivity.
Qed.

Lemma grow_wf : pt_wf root (<[i :: p := new]> T) (grow a i new).
Proof.
  pose proof HW as [W1 W2 W3 W4 W5 W6 W7]. split.
  - by rewrite lookup_insert_ne.
  - intros q r b. rewrite !lookup_insert_Some. intros [[<- <-]|[_ Hq]] [[<- E]|[_ Hr]]; try done; [by destruct (Hfresh r)| |by eapply W2].
    subst b. by destruct (Hfresh q).
  - intros j q b [[[= -> ->] _]|[Hne Hq]]%lookup_insert_Some.
    + rewrite lookup_insert_ne by (intros E%(f_equal length); cbn in E; lia). eauto.
    + destruct (W3 _ _ _ Hq) as [c Hc]. destruct (decide (q = i :: p)) as [->|]; [by rewrite Hc in Hn|]. rewrite lookup_insert_ne by done. eauto.
  - intros q b [[<- _]|[_ Hq]]%lookup_insert_Some; [cbn; lia|by eapply W4].
  - intros q b Hq. unfold grow. apply lookup_insert_Some in Hq as [[<- <-]|[_ Hq]].
    + eapply poke_mem; [apply lookup_insert_eq|apply length_replicate].
    + destruct (W5 q b Hq) as (t & Ht & Hl). eapply poke_mem; [|done]. rewrite lookup_insert_ne; [done|]. intros ->. by apply (Hfresh q).
  - intros q b j e Hq Hj He. apply lookup_insert_Some in Hq as [[<- <-]|[Hne Hq]].
    + rewrite grow_look_new in He by done. injection He as <-. change (interior 0 _) with false. cbn [andb].
      rewrite lookup_insert_ne by (intros E%(f_equal length); cbn in E; lia).
      destruct (T !! (j :: i :: p)) eqn:E; [|done]. destruct (W3 _ _ _ E) as [? E']. by rewrite Hn in E'.
    + destruct (decide ((b, j) = (a, i))) as [[= -> ->]|Hab].
      * assert (q = p) as -> by (by eapply W2). rewrite grow_look_at in He. injection He as <-.
        by rewrite lookup_insert_eq, grow_entry_interior, pte_phys_make, frame_masked.
      * rewrite (grow_look_other q) in He by (done || lia). rewrite lookup_insert_ne; [by eapply W6|].
        intros [= -> ->]. apply Hab. congruence.
  - intros q b j e Hq Hj He. apply lookup_insert_Some in Hq as [[<- <-]|[Hne Hq]].
    + rewrite grow_look_new in He by done. by injection He as <-.
    + destruct (decide ((b, j) = (a, i))) as [[= -> ->]|Hab].
      * rewrite grow_look_at in He. injection He as <-. unfold huge. by rewrite pte_flags_make.
      * rewrite (grow_look_other q) in He by (done || lia). by eapply W7.
Qed.

Lemma grow_translate e0 va :
  look m a i = Some e0 → present e0 = false → translate root va (grow a i new) = translate root va m.
Proof.
  intros He0 Hnp. pose proof grow_wf as HW'. destruct (stop_exists _ _ _ HW va) as (k & b & HS).
  destruct (stop_entry _ _ _ HW _ _ _ HS) as (e & He & _). rewrite (translate_stop _ _ _ HW va k b e HS He).
  pose proof (stop_pos _ _ _ _ HS) as Hk. pose proof HS as [_ S2 S3].
  destruct (decide (path_to va (pred k) = i :: p)) as [E|E].
  - assert (k = LEVELS - length p)%nat as ->.
    { pose proof (path_to_length va (pred k)) as El. rewrite E in El. cbn [length] in El. lia. }
    destruct (table_at_level va p ltac:(lia) i E) as [E1 E2]. rewrite E2 in S2. assert (b = a) as -> by congruence.
    rewrite E1 in He. assert (e = e0) as -> by congruence. unfold leaf_result at 1. rewrite Hnp.
    erewrite (translate_stop _ _ _ HW' va (pred (LEVELS - length p)) new 0); [done| |apply grow_look_new, index_at_range].
    split; [lia|by rewrite E, lookup_insert_eq|].
    rewrite path_to_S by lia. replace (S (pred (pred (LEVELS - length p)))) with (pred (LEVELS - length p)) by lia. rewrite E.
    rewrite lookup_insert_ne by (intros Ec%(f_equal length); cbn in Ec; lia).
    match goal with |- T !! (?j :: _) = _ => destruct (T !! (j :: i :: p)) eqn:Ex end; [|done].
    destruct (wf_parent _ _ _ HW _ _ _ Ex) as [? Ey]. by rewrite Hn in Ey.
  - apply (translate_stop _ _ _ HW' va k b e).
    + split; [done| |by rewrite lookup_insert_ne]. rewrite lookup_insert_ne; [done|]. intros Ec. congruence.
    + rewrite (grow_look_other (path_to va k)); [done|done|apply index_at_range|]. intros [= -> Hix]. apply E.
      by destruct (entry_path va k p a i) as [_ ?]; [lia|done|done|done|].
Qed.
End change.

(** ** The walk of [map_page] *)
Section ensure.
Context {F : Type} `{FrameAlloc F}.

(** The allocator's frames are memory, and none of them is a table. *)
Definition frames_free (T : gmap path Z) (m : memory) (f : F) : Prop :=
  ∀ p, p ∈ held_frames f → is_Some (m !! p) ∧ ∀ q, T !! q ≠ Some p.

(** The page table after some tables on the way to [va], above [leaf], are
    added, their frames from [h]: every address translates as before. *)
Record grown (root va : Z) (leaf : nat) (h : gset Z) (T : gmap path Z) (m : memory) (T' : gmap path Z) (m' : memory) (f' : F) : Prop := {
  grown_wf : pt_wf root T' m';
  grown_free : frames_free T' m' f';
  grown_sub : T ⊆ T';
  grown_new q : is_Some (T' !! q) → is_Some (T !! q) ∨ ∃ j, (leaf ≤ j ≤ LEVELS)%nat ∧ q = path_to va j;
  grown_same va' : translate root va' m' = translate root va' m;
  grown_from q a : T' !! q = Some a → T !! q = Some a ∨ a ∈ h
}.

Lemma grown_refl root va leaf h T m f : pt_wf root T m → frames_free T m f → grown root va leaf h T m T m f.
Proof. intros. by split; [..|left| |left]. Qed.

Lemma frames_free_poke T m f a i e : frames_free T m f → frames_free T (poke m a i e) f.
Proof.
  intros HF p Hp. destruct (HF p Hp) as [[t Ht] Hq]. split; [|done].
  destruct (poke_mem m a i e p t _ Ht eq_refl) as (t' & -> & _). eauto.
Qed.
Lemma frames_free_grow T m f new f' p a i :
  alloc_frame f = (Some new, f') → frames_free T m f → frames_free (<[i :: p := new]> T) (grow m a i new) f'.
Proof.
  intros (Hin & Hok & Hh)%alloc_some HF. apply frames_free_poke. intros q Hq. rewrite Hh in Hq.
  apply elem_of_difference in Hq as [Hq Hne%not_elem_of_singleton]. destruct (HF q Hq) as [[t Ht] Hr]. split.
  - rewrite lookup_insert_ne by done. eauto.
  - intros r [[_ ?]|[_ Hx]]%lookup_insert_Some; [done|]. by apply (Hr r).
Qed.

(** What the walk answers: the table above the leaf; no frame, and nothing maps
    [va]; or a 2 MiB page on the way to a 4 KiB one. *)
Definition ensured (root va : Z) (leaf : nat) (m : memory) (T' : gmap path Z) (r : Z + MapError) : Prop :=
  match r with
  | inl t => T' !! path_to va leaf = Some t
  | inr OutOfFrames => T' !! path_to va leaf = None ∧ translate root va m = Ret None
  | inr PageSizeMismatch => leaf = 1%nat ∧ T' !! path_to va 1 = None ∧ ∃ pa fl, translate root va m = Ret (Some (pa, Size2M, fl))
  | inr _ => False
  end.

Lemma ensure_tables_spec root va leaf level T m f table :
  pt_wf root T m → frames_free T m f → (1 ≤ leaf ≤ 2)%nat → (leaf ≤ level ≤ LEVELS)%nat →
  T !! path_to va level = Some table →
  ∃ r m' f' T', ensure_tables level leaf va table m f = Ret (r, m', f') ∧
    grown root va leaf (held_frames f) T m T' m' f' ∧ ensured root va leaf m T' r.
Proof.
  intros HW HF Hleaf. revert T m f table HW HF. induction level as [|l IH]; intros T m f table HW HF Hl Ht; [lia|].
  cbn [ensure_tables]. destruct (Nat.ltb_spec leaf (S l)) as [Hlt|Hge].
  2:{ assert (leaf = S l) as -> by lia. do 4 eexists. split; [done|]. split; [by apply grown_refl|done]. }
  destruct (walk_entry _ _ _ HW va (S l) table ltac:(lia) Ht) as (e & -> & He & Hc). cbn [obind pred] in *.
  pose proof (index_at_range va (S l)) as Hix. destruct (contains (pte_flags e) PRESENT) eqn:Hpr; cbn [negb].
  - destruct (contains (pte_flags e) HUGE) eqn:Hh.
    + pose proof (wf_huge _ _ _ HW _ _ _ _ Ht Hix He Hpr Hh) as Hlev. rewrite path_to_length in Hlev.
      assert (l = 1%nat ∧ leaf = 1%nat) as [-> ->] by lia.
      assert (T !! path_to va 1 = None) as Hc1.
      { rewrite Hc. unfold interior, leaf_entry. by rewrite Hh, orb_true_r, andb_false_r. }
      do 4 eexists. split; [done|]. split; [by apply grown_refl|]. split; [done|]. split; [done|].
      do 2 eexists. rewrite (translate_stop _ _ _ HW va 2 table e); [|by split; [lia|..]|done].
      unfold leaf_result, present. by rewrite Hpr.
    + assert (interior e (S l) = true) as Hi.
      { unfold interior, present, leaf_entry. rewrite Hpr, Hh, orb_false_r. cbn. by destruct l; [lia|]. }
      rewrite Hi in Hc. apply IH; [done|done|lia|done].
  - assert (interior e (S l) = false) as Hi by (unfold interior, present; by rewrite Hpr). rewrite Hi in Hc.
    assert (translate root va m = Ret None) as Hnone.
    { rewrite (translate_stop _ _ _ HW va (S l) table e); [|split; [lia|done|done]|done]. unfold leaf_result, present. by rewrite Hpr. }
    destruct (alloc_frame f) as [[new|] f'] eqn:Ha.
    + destruct (alloc_some _ _ _ Ha) as (Hin & Hok & Hh). destruct (HF new Hin) as [[t0 Ht0] Hfr].
      unfold zero_frame. rewrite Ht0. cbn [obind]. destruct (wf_mem _ _ _ HW _ _ Ht) as (t & Htm & Htl).
      rewrite (write_known _ _ _ _ t) by (done || rewrite lookup_insert_ne by (intros ->; by apply (Hfr (path_to va (S l)))); done).
      cbn [obind]. rewrite path_to_S in Hc by lia.
      assert (LEVELS - length (path_to va (S l)) = S l)%nat as Elev by (rewrite path_to_length; lia).
      pose proof (grow_wf root T m HW _ _ _ new Ht Hix Hc ltac:(lia) Hok Hfr) as HW'.
      pose proof (λ va', grow_translate root T m HW _ _ _ new Ht Hix Hc ltac:(lia) Hok Hfr e va' He Hpr) as Htr.
      pose proof (frames_free_grow T m f new f' (path_to va (S l)) table (index_at va (S l)) Ha HF) as HF'.
      rewrite <-path_to_S in HW', HF' by lia. rewrite <-path_to_S in Hc by lia.
      destruct (IH _ _ f' new HW' HF' ltac:(lia) (lookup_insert_eq _ _ _)) as (r & m' & f'' & T' & Hr & [G1 G2 G3 G4 G5 G6] & Hens).
      exists r, m', f'', T'. split; [exact Hr|]. split.
      * split; [done|done| | |intros va'; by rewrite G5|].
        -- etrans; [|done]. by apply insert_subseteq.
        -- intros q [Hq|?]%G4; [|by right]. apply lookup_insert_is_Some in Hq as [<-|[_ ?]]; [right|by left]. exists l. split; [lia|done].
        -- intros q b [[[_ <-]|[_ ?]]%lookup_insert_Some|Hb]%G6; [by right|by left|right]. rewrite Hh in Hb. by apply elem_of_difference in Hb as [? _].
      * destruct r as [?|[]]; try done; cbn in *; by rewrite Htr in Hens.
    + do 4 eexists. split; [done|]. split.
      * apply grown_refl; [done|]. intros p Hp. apply alloc_none in Ha. rewrite Ha in Hp. by apply HF.
      * split; [|done]. destruct (T !! path_to va leaf) as [b|] eqn:Hb; [|done].
        destruct (above_table _ _ _ HW va leaf l) as [? E]; [lia|eauto|congruence].
Qed.
End ensure.
