(* ===== verification/PagingProps.v ===== *)
(** * The page map of a root

    The abstract page map [view], its operations, and the theorem that the
    calls on a root answer as it does.  [pool] is an allocator that keeps the
    [FrameAlloc] contract. *)

From stdpp Require Import base gmap list numbers.
From S2P Require Import Prelude Trace Paging PagingRep PagingSpec.
Import Paging.

Local Open Scope Z_scope.

(** ** The specification *)

(** The page that covers an address (where the address goes, the page's size
    and its flags), and whether its 2 MiB slot holds a table of 4 KiB pages. *)
Record view := mkView { pages : Z → option (Z * PageSize * Z); small : Z → bool }.
Definition empty_view : view := mkView (λ _, None) (λ _, false).

(** Whether the page of [size] at [va] covers [va'], in the 48 bits translated. *)
Definition covers (va : Z) (size : PageSize) (va' : Z) : bool :=
  (va mod 2 ^ 48) / bytes size =? (va' mod 2 ^ 48) / bytes size.

Definition leaf_flags (size : PageSize) (flags : Z) : Z :=
  let fl := with_bits flags PRESENT in
  pte_flags (match size with Size4K => fl | Size2M => with_bits fl HUGE end).

(** The map with a page of [size] at [va]; the entry keeps bits 12 to 51 of [pa]. *)
Definition vset (va pa flags : Z) (size : PageSize) (V : view) : view :=
  mkView (λ va', if covers va size va' then Some (pte_phys pa + Z.land va' (bytes size - 1), size, leaf_flags size flags)
                 else pages V va')
         (λ va', match size with Size4K => small V va' || covers va Size2M va' | Size2M => small V va' end).
Definition vclear (va : Z) (size : PageSize) (V : view) : view :=
  mkView (λ va', if covers va size va' then None else pages V va') (small V).

(** Why a page of [size] may not be mapped at [va]. *)
Definition refusal (va : Z) (size : PageSize) (mode : MapMode) (V : view) : option MapError :=
  match size, pages V va with
  | Size4K, Some (_, Size2M, _) => Some PageSizeMismatch
  | Size4K, Some (_, Size4K, fl) =>
      match mode with Fresh => Some AlreadyMapped | Remap => if contains fl HUGE then Some PageSizeMismatch else None end
  | Size4K, None => None
  | Size2M, o =>
      if small V va then Some (match mode with Fresh => AlreadyMapped | Remap => PageSizeMismatch end)
      else match o, mode with Some _, Fresh => Some AlreadyMapped | _, _ => None end
  end.
Definition bad_address (va pa : Z) (size : PageSize) : option MapError :=
  if negb (is_canonical va) then Some NonCanonical
  else if negb (is_aligned va (bytes size)) || negb (is_aligned pa (bytes size)) then Some Misaligned
  else None.

Inductive pt_op := OMap (va pa flags : Z) (size : PageSize) (mode : MapMode) | OUnmap (va : Z) | OTranslate (va : Z).
Inductive pt_out := RMap (r : unit + MapError) | RUnmap (r : option (Z * PageSize)) | RTranslate (r : option (Z * PageSize * Z)).

(** What a call may answer, and the map after it. *)
Inductive vspec : view → pt_op → outcome pt_out → view → Prop :=
  | vspec_bad V va pa fl size mode e :
      bad_address va pa size = Some e → vspec V (OMap va pa fl size mode) (Ret (RMap (inr e))) V
  | vspec_refused V va pa fl size mode e :
      bad_address va pa size = None → refusal va size mode V = Some e →
      vspec V (OMap va pa fl size mode) (Ret (RMap (inr e))) V
  | vspec_map V va pa fl size mode :
      bad_address va pa size = None → refusal va size mode V = None →
      vspec V (OMap va pa fl size mode) (Ret (RMap (inl tt))) (vset va pa fl size V)
  | vspec_frames V va pa fl size mode :
      bad_address va pa size = None → refusal va size mode V = None → pages V va = None →
      vspec V (OMap va pa fl size mode) (Ret (RMap (inr OutOfFrames))) V
  | vspec_unmap V va pa size fl :
      pages V va = Some (pa, size, fl) →
      vspec V (OUnmap va) (Ret (RUnmap (Some (pa - Z.land va (bytes size - 1), size)))) (vclear va size V)
  | vspec_unmapped V va : pages V va = None → vspec V (OUnmap va) (Ret (RUnmap None)) V
  | vspec_translate V va : vspec V (OTranslate va) (Ret (RTranslate (pages V va))) V.

(** ** The implementation's steps *)
Section refinement.
Context {F : Type} `{FrameAlloc F} (root : Z).

Definition pt_step (o : pt_op) (s : memory * F) : outcome (pt_out * (memory * F)) :=
  let '(m, f) := s in
  match o with
  | OMap va pa fl size mode =>
      r <~ map_page root va pa fl size mode m f;; let '(r, m, f) := r in Ret (RMap r, (m, f))
  | OUnmap va => r <~ unmap_page root va m;; let '(r, m) := r in Ret (RUnmap r, (m, f))
  | OTranslate va => r <~ translate root va m;; Ret (RTranslate r, (m, f))
  end.

Record pt_rep (T : gmap path Z) (m : memory) (f : F) (V : view) : Prop := {
  rep_wf : pt_wf root T m;
  rep_free : frames_free T m f;
  rep_pages va : translate root va m = Ret (pages V va);
  rep_small va : small V va = bool_decide (is_Some (T !! path_to va 1))
}.

Lemma covers_path va size va' :
  covers va size va' = bool_decide (path_to va' (pred (leaf_level size)) = path_to va (pred (leaf_level size))).
Proof.
  apply Bool.eq_iff_eq_true. rewrite bool_decide_eq_true, path_slot by (destruct size; unfold LEVELS; cbn; lia).
  unfold covers. rewrite Z.eqb_eq. destruct size; cbn [leaf_level pred];
    change (bytes Size4K) with (2 ^ (12 + 9 * Z.of_nat 0)); change (bytes Size2M) with (2 ^ (12 + 9 * Z.of_nat 1)); unfold slot; naive_solver.
Qed.
Lemma covers_self va size : covers va size va = true.
Proof. unfold covers. apply Z.eqb_refl. Qed.

Lemma leaf_level_range size : (1 ≤ leaf_level size ≤ 2)%nat.
Proof. destruct size; cbn; lia. Qed.
Lemma size_leaf_level size : size_at (leaf_level size) = size.
Proof. by destruct size. Qed.

(** A leaf or an empty entry written where a walk for [va] stops. *)
Lemma rep_poke T m f V va l size e :
  pt_rep T m f V → l = leaf_level size → ∀ a, stop T va l a → interior e l = false →
  pt_rep T (poke m a (index_at va l) e) f
    (mkView (λ va', if covers va size va' then leaf_result va' l e else pages V va') (small V)).
Proof.
  intros [HW HF HP HS] -> a [Hl Ha Hb] Hi. rewrite path_to_S in Hb by lia. replace (S (pred (leaf_level size))) with (leaf_level size) in Hb by lia.
  assert (LEVELS - length (path_to va (leaf_level size)) = leaf_level size)%nat as El by (rewrite path_to_length; lia).
  pose proof (leaf_level_range size).
  assert (pt_wf root T (poke m a (index_at va (leaf_level size)) e)) as HW'.
  { eapply poke_wf; [done|done|apply index_at_range|done|by rewrite El|rewrite El; lia]. }
  split; [done|by apply frames_free_poke| |done]. intros va'. cbn [pages].
  rewrite (poke_translate root T m HW (path_to va (leaf_level size))) by (done || apply index_at_range).
  rewrite El, covers_path. rewrite (path_to_S va (pred _)) by lia. replace (S (pred (leaf_level size))) with (leaf_level size) by lia.
  case_decide; case_bool_decide; done.
Qed.

Lemma rep_view T m f V V' :
  pt_rep T m f V → (∀ va, pages V va = pages V' va) → (∀ va, small V va = small V' va) → pt_rep T m f V'.
Proof. intros [HW HF HP HS] E1 E2. split; [done|done| |]; intros va; [by rewrite <-E1|by rewrite <-E2]. Qed.

(** Tables added on the way to [va] change the map only by the slot of small pages. *)
Lemma rep_grown T m f V T' m' f' va size :
  pt_rep T m f V → grown root va (leaf_level size) (held_frames f) T m T' m' f' →
  pt_rep T' m' f' (mkView (pages V) (λ va', small V va' ||
    match size with Size4K => bool_decide (is_Some (T' !! path_to va 1)) && covers va Size2M va' | Size2M => false end)).
Proof.
  intros [HW HF HP HS] [G1 G2 G3 G4 G5 _]. split; [done|done|intros va'; by rewrite G5, HP|].
  intros va'. cbn [small]. rewrite HS. apply Bool.eq_iff_eq_true. rewrite orb_true_iff, !bool_decide_eq_true. split.
  - intros [[a Ha]|Hc]; [exists a; by eapply lookup_weaken|]. destruct size; [|done].
    rewrite covers_path in Hc. apply andb_true_iff in Hc as [Hc%bool_decide_eq_true E%bool_decide_eq_true]. 
    change (pred (leaf_level Size2M)) with 1%nat in E. by rewrite E.
  - intros Hs. destruct (G4 _ Hs) as [?|(j & Hj & E)]; [by left|right].
    assert (j = 1)%nat as -> by (apply (f_equal length) in E; rewrite !path_to_length in E; unfold LEVELS in *; lia).
    destruct size; cbn in Hj; [|lia]. rewrite E in Hs. apply andb_true_iff. split; [by apply bool_decide_eq_true|].
    rewrite covers_path. by apply bool_decide_eq_true.
Qed.

Lemma rep_write T m f V va pa fl size a :
  pt_rep T m f V → stop T va (leaf_level size) a →
  pt_rep T (poke m a (index_at va (leaf_level size)) (make_pte pa
      (if is_2m size then with_bits (with_bits fl PRESENT) HUGE else with_bits fl PRESENT))) f
    (mkView (pages (vset va pa fl size V)) (small V)).
Proof.
  intros HR HS. set (e := make_pte pa _).
  assert (pte_flags e = leaf_flags size fl) as Ef by (unfold e, leaf_flags; rewrite pte_flags_make; by destruct size).
  assert (present e = true) as Ep.
  { unfold present. rewrite Ef. unfold leaf_flags. rewrite contains_flags by done.
    destruct size; [apply contains_with|]. rewrite contains_with_other by done. apply contains_with. }
  assert (interior e (leaf_level size) = false) as Hi.
  { unfold interior, leaf_entry. rewrite Ep, Ef. destruct size; [done|]. unfold leaf_flags.
    rewrite contains_flags by done. by rewrite contains_with, orb_true_r. }
  eapply rep_view; [by apply (rep_poke T m f V va (leaf_level size) size e)| |done]. intros va'. cbn [pages vset].
  destruct (covers va size va'); [|done]. unfold leaf_result. rewrite Ep, Ef, size_leaf_level. unfold e. rewrite pte_phys_make. done.
Qed.

(** A 4 KiB page needs the table of its slot. *)
Lemma small_of_4k T m f V va pa fl :
  pt_rep T m f V → pages V va = Some (pa, Size4K, fl) → small V va = true.
Proof.
  intros [HW HF HP HS] Hv. rewrite HS. apply bool_decide_eq_true. destruct (stop_exists _ _ _ HW va) as (k & b & Hst).
  destruct (stop_entry _ _ _ HW _ _ _ Hst) as (e & He & _). pose proof (HP va) as Ht.
  rewrite (translate_stop _ _ _ HW va k b e Hst He), Hv in Ht. unfold leaf_result in Ht. destruct (present e); [|done].
  pose proof (stop_pos _ _ _ _ Hst). destruct k as [|[|k]]; [lia| |done]. exists b. apply Hst.
Qed.
Lemma small_covers T m f V va va' :
  pt_rep T m f V → covers va Size2M va' = true → small V va' = small V va.
Proof. intros HR E. rewrite covers_path in E. apply bool_decide_eq_true in E. rewrite !(rep_small _ _ _ _ HR). cbn [leaf_level pred] in E. by rewrite E. Qed.

(** The end of [map_page]: the entry found at the leaf's level. *)
Definition place (va pa fl : Z) (size : PageSize) (mode : MapMode) (table : Z) (m : memory) (f : F)
    : outcome ((unit + MapError) * memory * F) :=
  existing <~ read_entry m table (index_at va (leaf_level size));;
  match contains (pte_flags existing) PRESENT, mode with
  | true, Fresh => Ret (inr AlreadyMapped, m, f)
  | _, _ =>
      if contains (pte_flags existing) PRESENT && negb (eqb (contains (pte_flags existing) HUGE) (is_2m size)) then
        Ret (inr PageSizeMismatch, m, f)
      else
        m <~ write_entry m table (index_at va (leaf_level size)) (make_pte pa
          (if is_2m size then with_bits (with_bits fl PRESENT) HUGE else with_bits fl PRESENT));;
        Ret (inl tt, m, f)
  end.

(** Where the walk for [va] stops at the leaf's level, [place] decides by the page there. *)
Lemma place_stop T m f V va pa fl size mode a :
  pt_rep T m f V → stop T va (leaf_level size) a →
  ∃ r m', place va pa fl size mode a m f = Ret (r, m', f) ∧
    match pages V va, mode with
    | Some _, Fresh => r = inr AlreadyMapped ∧ m' = m
    | Some (_, _, ofl), Remap =>
        if eqb (contains ofl HUGE) (is_2m size)
        then r = inl tt ∧ pt_rep T m' f (mkView (pages (vset va pa fl size V)) (small V))
        else r = inr PageSizeMismatch ∧ m' = m
    | None, _ => r = inl tt ∧ pt_rep T m' f (mkView (pages (vset va pa fl size V)) (small V))
    end.
Proof.
  intros HR HS. pose proof HR as [HW HF HP HSm]. destruct (stop_entry _ _ _ HW _ _ _ HS) as (e & He & Hi).
  pose proof (HP va) as Ht. rewrite (translate_stop _ _ _ HW va _ a e HS He) in Ht. injection Ht as Ht. rewrite <-Ht. clear Ht.
  destruct (look_some root T m _ a (index_at va (leaf_level size)) HW (stop_table _ _ _ _ HS) (index_at_range _ _)) as (e' & He' & Hr).
  assert (e' = e) as -> by congruence. unfold place. rewrite Hr. cbn [obind]. unfold leaf_result, present.
  pose proof (rep_write T m f V va pa fl size a HR HS) as Hw.
  rewrite (write_poke root T m _ a _ _ HW (stop_table _ _ _ _ HS) (index_at_range _ _)). cbn [obind].
  destruct (contains (pte_flags e) PRESENT); cbn [andb].
  - destruct mode; [by do 2 eexists|]. destruct (eqb (contains (pte_flags e) HUGE) (is_2m size)); cbn [negb]; by do 2 eexists.
  - destruct mode; by do 2 eexists.
Qed.

(** The page a walk stops at is of that level's size. *)
Lemma stop_page T m f V va size a x s fl :
  pt_rep T m f V → stop T va (leaf_level size) a → pages V va = Some (x, s, fl) →
  s = size ∧ (size = Size2M → contains fl HUGE = true).
Proof.
  intros [HW HF HP HSm] HS Hv. destruct (stop_entry _ _ _ HW _ _ _ HS) as (e & He & Hi).
  pose proof (HP va) as Ht. rewrite (translate_stop _ _ _ HW va _ a e HS He), Hv in Ht. unfold leaf_result in Ht.
  destruct (present e) eqn:Hp; [|done]. rewrite size_leaf_level in Ht. injection Ht as _ <- <-. split; [done|]. intros ->.
  unfold interior, leaf_entry in Hi. rewrite Hp in Hi. by destruct (contains (pte_flags e) HUGE).
Qed.

(** The map of [V] with the small slots a walk may have added. *)
Lemma rep_same T m f V (sm : Z → bool) :
  pt_rep T m f (mkView (pages V) sm) → (∀ va, sm va = small V va) → pt_rep T m f V.
Proof. intros HR E. eapply rep_view; [done|done|done]. Qed.

Section placed.
Context (T : gmap path Z) (m : memory) (f : F) (V : view) (T' : gmap path Z) (m' : memory) (f' : F) (va pa fl : Z) (mode : MapMode) (t : Z).
Context (HR : pt_rep T m f V).

Lemma place_4k :
  bad_address va pa Size4K = None → grown root va 1 (held_frames f) T m T' m' f' → T' !! path_to va 1 = Some t →
  ∃ r m'' V', place va pa fl Size4K mode t m' f' = Ret (r, m'', f') ∧
    vspec V (OMap va pa fl Size4K mode) (Ret (RMap r)) V' ∧ pt_rep T' m'' f' V'.
Proof.
  intros Hbad HG Ht. pose proof (rep_grown T m f V T' m' f' va Size4K HR HG) as HR'. cbn beta iota in HR'.
  rewrite bool_decide_eq_true_2 in HR' by eauto. cbn [andb] in HR'.
  assert (stop T' va 1 t) as HS.
  { split; [unfold LEVELS; lia|done|]. destruct (T' !! path_to va (pred 1)) eqn:E; [|done].
    apply (wf_len _ _ _ (grown_wf _ _ _ _ _ _ _ _ _ HG)) in E. rewrite path_to_length in E. cbn [pred] in E. lia. }
  destruct (place_stop T' m' f' _ va pa fl Size4K mode t HR' HS) as (r & m'' & Hpl & Hres). exists r, m''.
  cbn [pages] in Hres. destruct (pages V va) as [[[x s] ofl]|] eqn:Hv.
  - destruct (stop_page T' m' f' _ va Size4K t x s ofl HR' HS Hv) as [-> _].
    pose proof (small_of_4k T m f V va x ofl HR Hv) as Hsm.
    assert (∀ va', small V va' || covers va Size2M va' = small V va') as Esm.
    { intros va'. destruct (covers va Size2M va') eqn:Ec; [|by rewrite orb_false_r]. rewrite orb_true_r.
      by rewrite (small_covers T m f V va va' HR Ec). }
    pose proof (rep_same _ _ _ _ _ HR' Esm) as HV. destruct mode.
    + destruct Hres as [-> ->]. exists V. split; [done|]. split; [|done]. constructor; [done|]. unfold refusal. by rewrite Hv.
    + destruct (contains ofl HUGE) eqn:Hh; cbn [eqb is_2m] in Hres.
      * destruct Hres as [-> ->]. exists V. split; [done|]. split; [|done]. constructor; [done|]. unfold refusal. by rewrite Hv, Hh.
      * destruct Hres as [-> Hr]. exists (vset va pa fl Size4K V). split; [done|].
        split; [constructor; [done|]; unfold refusal; by rewrite Hv, Hh|]. exact Hr.
  - destruct Hres as [-> Hr]. exists (vset va pa fl Size4K V). split; [done|].
    split; [constructor; [done|]; unfold refusal; by rewrite Hv|]. exact Hr.
Qed.

Lemma place_2m :
  bad_address va pa Size2M = None → grown root va 2 (held_frames f) T m T' m' f' → T' !! path_to va 2 = Some t →
  ∃ r m'' V', place va pa fl Size2M mode t m' f' = Ret (r, m'', f') ∧
    vspec V (OMap va pa fl Size2M mode) (Ret (RMap r)) V' ∧ pt_rep T' m'' f' V'.
Proof.
  intros Hbad HG Ht. pose proof (rep_grown T m f V T' m' f' va Size2M HR HG) as HR'. cbn beta iota in HR'.
  assert (pt_rep T' m' f' V) as HV by (apply (rep_same _ _ _ _ _ HR'); intros va'; apply orb_false_r).
  pose proof (rep_small _ _ _ _ HV va) as Hsm. destruct (T' !! path_to va 1) as [b|] eqn:Hb.
  - rewrite bool_decide_eq_true_2 in Hsm by eauto.
    destruct (walk_entry _ _ _ (rep_wf _ _ _ _ HV) va 2 t) as (e & Hr & He & Hc); [unfold LEVELS; lia|done|].
    cbn [pred] in Hc. rewrite Hb in Hc. destruct (interior e 2) eqn:Hi; [|done]. apply interior_true in Hi as [Hp Hl].
    unfold place. cbn [leaf_level]. rewrite Hr. cbn [obind]. unfold present in Hp. rewrite Hp. cbn [andb].
    assert (contains (pte_flags e) HUGE = false) as -> by exact Hl.
    destruct mode; cbn [eqb is_2m negb]; do 2 eexists; exists V; (split; [done|]); (split; [|done]); (constructor; [done|]);
      unfold refusal; by rewrite Hsm; destruct (pages V va) as [[[]]|].
  - rewrite bool_decide_eq_false_2 in Hsm by (intros [? ?]; congruence).
    assert (stop T' va 2 t) as HS by (split; [unfold LEVELS; lia|done|done]).
    destruct (place_stop T' m' f' _ va pa fl Size2M mode t HV HS) as (r & m'' & Hpl & Hres). exists r, m''.
    destruct (pages V va) as [[[x s] ofl]|] eqn:Hv.
    + destruct (stop_page T' m' f' _ va Size2M t x s ofl HV HS Hv) as [-> Hh]. rewrite Hh in Hres by done. destruct mode.
      * destruct Hres as [-> ->]. exists V. split; [done|]. split; [|done]. constructor; [done|]. unfold refusal. by rewrite Hv, Hsm.
      * destruct Hres as [-> Hr]. exists (vset va pa fl Size2M V). split; [done|].
        split; [constructor; [done|]; unfold refusal; by rewrite Hv, Hsm|exact Hr].
    + destruct Hres as [-> Hr]. exists (vset va pa fl Size2M V). split; [done|].
      split; [constructor; [done|]; unfold refusal; by rewrite Hv, Hsm|exact Hr].
Qed.
End placed.

Lemma map_step T m f V va pa fl size mode :
  pt_rep T m f V → ∃ r m' f' T' V', map_page root va pa fl size mode m f = Ret (r, m', f') ∧
    vspec V (OMap va pa fl size mode) (Ret (RMap r)) V' ∧ pt_rep T' m' f' V' ∧
    (∀ q a, T' !! q = Some a → T !! q = Some a ∨ a ∈ held_frames f).
Proof.
  intros HR. destruct (bad_address va pa size) as [e|] eqn:Hbad.
  { exists (inr e), m, f, T, V. split; [|split; [by constructor|split; [done|by left]]]. revert Hbad. unfold bad_address, map_page.
    destruct (negb (is_canonical va)); [by intros [= <-]|]. destruct (_ || _); [by intros [= <-]|done]. }
  assert (map_page root va pa fl size mode m f = obind (ensure_tables LEVELS (leaf_level size) va root m f)
    (λ r, match r with (inr e, m, f) => Ret (inr e, m, f) | (inl t, m, f) => place va pa fl size mode t m f end)) as ->.
  { revert Hbad. unfold bad_address, map_page. destruct (negb (is_canonical va)); [done|]. destruct (_ || _); [done|]. intros _.
    destruct (ensure_tables _ _ _ _ _ _) as [[[[t|e] m1] f1]| | |]; done. }
  pose proof HR as [HW HF HP HSm]. pose proof (leaf_level_range size) as Hlv.
  destruct (ensure_tables_spec root va (leaf_level size) LEVELS T m f root HW HF Hlv) as (r & m' & f' & T' & -> & HG & Hens);
    [unfold LEVELS; lia|apply HW|]. cbn [obind]. pose proof (rep_grown T m f V T' m' f' va size HR HG) as HR'.
  destruct r as [t|e].
  { destruct size; [destruct (place_4k T m f V T' m' f' va pa fl mode t) as (r & m'' & V' & Hr & Hs & HV)|
      destruct (place_2m T m f V T' m' f' va pa fl mode t) as (r & m'' & V' & Hr & Hs & HV)]; try done;
      (exists r, m'', f', T', V'; split_and!; [done|done|done|apply HG]). }
  exists (inr e), m', f', T', V. split; [done|]. destruct e; try done; cbn [ensured] in Hens.
  - destruct Hens as [Hn Htr]. rewrite HP in Htr. injection Htr as Htr.
    assert (T' !! path_to va 1 = None) as Hn1.
    { destruct (T' !! path_to va 1) eqn:E; [|done].
      destruct (above_table _ _ _ (grown_wf _ _ _ _ _ _ _ _ _ HG) va 1 (leaf_level size)) as [? E']; [unfold LEVELS; lia|eauto|congruence]. }
    assert (small V va = false) as Hsm.
    { rewrite HSm. apply bool_decide_eq_false. intros [b Hb]. pose proof (lookup_weaken _ _ _ _ Hb (grown_sub _ _ _ _ _ _ _ _ _ HG)). congruence. }
    rewrite Hn1 in HR'. split; [|split; [|apply HG]].
    + constructor; [done| |done]. unfold refusal. rewrite Htr, Hsm. by destruct size.
    + eapply rep_same; [done|]. intros va'. cbn. destruct size; by rewrite orb_false_r.
  - destruct Hens as (Hl & Hn & x & fl' & Htr). rewrite HP in Htr. injection Htr as Htr. destruct size; [|done]. rewrite Hn in HR'. split; [|split; [|apply HG]].
    + constructor; [done|]. unfold refusal. by rewrite Htr.
    + eapply rep_same; [done|]. intros va'. cbn. by rewrite orb_false_r.
Qed.

(** A present entry a walk stops at is a page of level 1 or 2. *)
Lemma stop_level T m va k a e :
  pt_wf root T m → stop T va k a → look m a (index_at va k) = Some e → present e = true → leaf_level (size_at k) = k.
Proof.
  intros HW HS He Hp. destruct (stop_entry _ _ _ HW _ _ _ HS) as (e' & He' & Hi). assert (e' = e) as -> by congruence.
  pose proof (stop_pos _ _ _ _ HS) as Hk. apply interior_false in Hi as [?|[_ Hl]]; [congruence|]. unfold leaf_entry in Hl.
  destruct k as [|[|[|k]]]; [lia|done|done|]. cbn in Hl.
  pose proof (wf_huge _ _ _ HW _ _ _ _ (stop_table _ _ _ _ HS) (index_at_range _ _) He Hp Hl) as Hlv.
  rewrite path_to_length in Hlv. lia.
Qed.

Lemma unmap_step T m f V va :
  pt_rep T m f V → ∃ r m' V', unmap_page root va m = Ret (r, m') ∧
    vspec V (OUnmap va) (Ret (RUnmap r)) V' ∧ pt_rep T m' f V'.
Proof.
  intros HR. pose proof HR as [HW HF HP HSm]. destruct (stop_exists _ _ _ HW va) as (k & b & HS).
  destruct (stop_entry _ _ _ HW _ _ _ HS) as (e & He & _). pose proof (HP va) as Ht.
  rewrite (translate_stop _ _ _ HW va k b e HS He) in Ht. injection Ht as Ht. rewrite (unmap_stop _ _ _ HW va k b e HS He).
  unfold leaf_result in Ht. destruct (present e) eqn:Hp; do 2 eexists.
  - exists (vclear va (size_at k) V). split; [done|]. split.
    + replace (pte_phys e) with (pte_phys e + Z.land va (bytes (size_at k) - 1) - Z.land va (bytes (size_at k) - 1)) by lia.
      econstructor. by symmetry.
    + pose proof (stop_level T m va k b e HW HS He Hp) as El.
      eapply rep_view; [apply (rep_poke T m f V va k (size_at k) 0 HR); [done|done|]| |done]; [by destruct k as [|[|k]]|].
      intros va'. cbn [pages vclear]. by destruct (covers va (size_at k) va').
  - exists V. split; [done|]. split; [by constructor|done].
Qed.

Definition related (s : memory * F) (V : view) : Prop := ∃ T, pt_rep T (fst s) (snd s) V.

Lemma pt_simulates : simulates pt_step related vspec.
Proof.
  intros o [m f] V [T HR]. cbn [fst snd] in HR. destruct o as [va pa fl size mode|va|va]; cbn [pt_step].
  - destruct (map_step T m f V va pa fl size mode HR) as (r & m' & f' & T' & V' & -> & Hs & HR' & _). cbn [obind]. exists V'. split; [done|]. by exists T'.
  - destruct (unmap_step T m f V va HR) as (r & m' & V' & -> & Hs & HR'). cbn [obind]. exists V'. split; [done|]. by exists T.
  - rewrite (rep_pages _ _ _ _ HR). cbn [obind]. exists V. split; [constructor|]. by exists T.
Qed.

(** A zeroed root maps nothing. *)
Lemma fresh_root m f :
  m !! root = Some (replicate PTES_PER_TABLE 0) → (∀ p, p ∈ held_frames f → is_Some (m !! p) ∧ p ≠ root) →
  pt_rep {[ [] := root ]} m f empty_view.
Proof.
  intros Hm Hf. assert (∀ i e, look m root i = Some e → e = 0) as Hz.
  { intros i e. unfold look. rewrite Hm. cbn [mbind option_bind]. by intros [-> _]%lookup_replicate. }
  assert (pt_wf root {[ [] := root ]} m) as HW.
  { split.
    - apply lookup_singleton_eq.
    - intros p q a [<- _]%lookup_singleton_Some [<- _]%lookup_singleton_Some. done.
    - intros i p a [? _]%lookup_singleton_Some. done.
    - intros p a [<- _]%lookup_singleton_Some. cbn. unfold LEVELS. lia.
    - intros p a [_ <-]%lookup_singleton_Some. eexists. split; [done|]. apply length_replicate.
    - intros p a i e [<- <-]%lookup_singleton_Some _ ->%Hz. by rewrite lookup_singleton_ne.
    - intros p a i e [<- <-]%lookup_singleton_Some _ ->%Hz. done. }
  split; [done| | |].
  - intros p Hp. destruct (Hf p Hp) as [? Hne]. split; [done|]. intros q [_ ?]%lookup_singleton_Some. congruence.
  - intros va. destruct (stop_exists _ _ _ HW va) as (k & b & HS). destruct (stop_entry _ _ _ HW _ _ _ HS) as (e & He & _).
    rewrite (translate_stop _ _ _ HW va k b e HS He). pose proof (stop_table _ _ _ _ HS) as [_ <-]%lookup_singleton_Some.
    apply Hz in He as ->. done.
  - intros va. cbn [small empty_view]. symmetry. apply bool_decide_eq_false. rewrite path_to_S by (unfold LEVELS; lia).
    rewrite lookup_singleton_ne by done. by intros [? ?].
Qed.

End refinement.

(** ** An allocator that keeps the contract *)
Definition is_frame (p : Z) : bool := (0 <=? p) && (p <? 2 ^ 52) && (p mod 4096 =? 0).
Lemma is_frame_ok p : is_frame p = true ↔ frame_ok p.
Proof. unfold is_frame, frame_ok. rewrite !andb_true_iff, Z.leb_le, Z.ltb_lt, Z.eqb_eq. lia. Qed.

Definition pool_frames (s : gset Z) : gset Z := filter (λ p, is_frame p = true) s.

#[global, refine] Instance pool : FrameAlloc (gset Z) := {|
  alloc_frame s := match elements (pool_frames s) with [] => (None, s) | p :: _ => (Some p, s ∖ {[p]}) end;
  free_frame s p := {[p]} ∪ s;
  held_frames := pool_frames
|}.
Proof.
  - intros s p s' Ha. destruct (elements (pool_frames s)) as [|q l] eqn:E; [done|]. injection Ha as <- <-.
    assert (q ∈ pool_frames s) as Hq by (apply elem_of_elements; rewrite E; left). split; [done|]. split.
    + apply elem_of_filter in Hq as [Hq _]. by apply is_frame_ok.
    + apply set_eq. intros x. unfold pool_frames. rewrite elem_of_difference, !elem_of_filter, elem_of_difference. naive_solver.
  - intros s s'. destruct (elements (pool_frames s)); congruence.
  - intros s p Hp%is_frame_ok. apply set_eq. intros x. unfold pool_frames.
    rewrite elem_of_union, !elem_of_filter, elem_of_union, elem_of_singleton. naive_solver.
Defined.

Definition demo_ops : list pt_op :=
  [OMap 0x400000 0x9000 (user_leaf_flags true false) Size4K Fresh; OTranslate 0x400abc;
   OMap 0x400000 0xA000 0 Size4K Fresh; OMap 0x400000 0x200000 0 Size2M Remap; OUnmap 0x400000; OTranslate 0x400abc].
Definition demo_pool : gset Z := {[0x2000; 0x3000; 0x4000; 0x5000]}.
Definition demo_memory : memory :=
  let z := replicate PTES_PER_TABLE 0 in <[0x1000 := z]> (<[0x2000 := z]> (<[0x3000 := z]> (<[0x4000 := z]> {[0x5000 := z]}))).

Lemma demo_outside p : p ∈ held_frames demo_pool → is_Some (demo_memory !! p) ∧ p ≠ 0x1000.
Proof.
  intros [_ Hp]%elem_of_filter. unfold demo_pool in Hp. rewrite !elem_of_union, !elem_of_singleton in Hp.
  destruct Hp as [[[-> | ->]| ->]| ->]; (split; [eexists; reflexivity|lia]).
Qed.

