(* ===== verification/PagingRange.v ===== *)
(** * Ranges of addresses: the sweep of [range_unmapped] and the ioremap window *)

From stdpp Require Import base gmap list numbers.
From S2P Require Import Prelude Paging PagingRep PagingSpec PagingProps.
Import Paging.

Local Open Scope Z_scope.

(** ** [range_unmapped] *)
Section sweep.
Context {F : Type} `{FrameAlloc F} (root : Z) (T : gmap path Z) (m : memory) (f : F) (V : view).
Context (HR : pt_rep root T m f V).

(** Nothing canonical below [b] and from [a] on is mapped. *)
Definition clear (a b : Z) : Prop := ∀ va, a ≤ va < b → is_canonical va = true → pages V va = None.

Lemma clear_join a b c : clear a b → clear b c → clear a c.
Proof. intros H1 H2 va Hva. destruct (Z.lt_ge_cases va b); [apply H1|apply H2]; lia. Qed.

(** The next page boundary, or the end of the address space. *)
Definition advances (va next : Z) : Prop := va < next < 2 ^ 64 ∧ (va / 4096 < next / 4096 ∨ next = 2 ^ 64 - 1).

Lemma slot_same va va' k : (1 ≤ k)%nat →
  va / 2 ^ (12 + 9 * (Z.of_nat k - 1)) = va' / 2 ^ (12 + 9 * (Z.of_nat k - 1)) → (k ≤ LEVELS)%nat → slot va (pred k) = slot va' (pred k).
Proof.
  intros Hk E Hl. unfold slot. replace (Z.of_nat (pred k)) with (Z.of_nat k - 1) by lia.
  set (n := 12 + 9 * (Z.of_nat k - 1)) in *. assert (0 ≤ n ≤ 48) by (unfold LEVELS in *; lia).
  replace (2 ^ 48) with (2 ^ n * 2 ^ (48 - n)) by (rewrite <-Z.pow_add_r by lia; f_equal; lia).
  pose proof (pow2_pos n ltac:(lia)). pose proof (pow2_pos (48 - n) ltac:(lia)).
  rewrite !Z.rem_mul_r by lia. rewrite !(Z.mul_comm (2 ^ n)), !Z.div_add by lia.
  rewrite !(Z.div_small (_ mod 2 ^ n)) by (apply Z.mod_pos_bound; lia). by rewrite E.
Qed.

(** An empty slot: no address of it is mapped, and the skip leaves the page. *)
Lemma skip_clear va k b e :
  u64 va → stop T va k b → look m b (index_at va k) = Some e → present e = false → va < 2 ^ 64 - 1 →
  let next := saturating_add 64 va (Z.max (slot_remaining va k) 1) in
  advances va next ∧ (∀ va', va ≤ va' < next → pages V va' = None).
Proof.
  intros Hva HS He Hp Hlast. pose proof (stop_pos _ _ _ _ HS) as Hk. cbv zeta. unfold slot_remaining.
  rewrite Z.shiftl_1_l. set (n := 12 + 9 * (Z.of_nat k - 1)). assert (12 ≤ n ≤ 39) as Hn by (unfold LEVELS in *; lia).
  assert (Hspan : 2 ^ n = 4096 * 2 ^ (n - 12)) by (change 4096 with (2 ^ 12); rewrite <-Z.pow_add_r by lia; f_equal; lia).
  assert (Htop : 2 ^ 64 = 2 ^ n * 2 ^ (64 - n)) by (rewrite <-Z.pow_add_r by lia; f_equal; lia).
  pose proof (pow2_pos (n - 12) ltac:(lia)) as Hq. pose proof (pow2_pos (64 - n) ltac:(lia)) as Hr.
  rewrite land_notw by (done || lia). unfold u64, in_width in Hva.
  assert (∃ x, va = 2 ^ n * x + va mod 2 ^ n ∧ x = va / 2 ^ n ∧ 0 ≤ va mod 2 ^ n < 2 ^ n ∧ 0 ≤ x < 2 ^ (64 - n)) as (x & Ex & Ed & Em & Hx).
  { exists (va / 2 ^ n). pose proof (Z.div_mod va (2 ^ n) ltac:(lia)). pose proof (Z.mod_pos_bound va (2 ^ n) ltac:(lia)). split_and!; try lia; nia. }
  assert (∀ va', 2 ^ n * x ≤ va' < 2 ^ n * (x + 1) → pages V va' = None) as Hclear.
  { intros va' Hva'. assert (va' / 2 ^ n = x) as Ev by (symmetry; apply Z.div_unique with (va' - 2 ^ n * x); lia).
    assert (path_to va' (pred k) = path_to va (pred k)) as Epath.
    { apply path_slot; [lia|]. apply slot_same; [lia| |lia]. fold n. congruence. }
    assert (path_to va' k = path_to va k ∧ index_at va' k = index_at va k) as [Ek Ei].
    { rewrite (path_to_S va' (pred k)), (path_to_S va (pred k)) in Epath by lia. replace (S (pred k)) with k in Epath by lia. by injection Epath. }
    assert (stop T va' k b) as HS' by (destruct HS; split; rewrite ?Ek, ?Epath; done).
    pose proof (rep_pages _ _ _ _ _ HR va') as Ht.
    rewrite (translate_stop _ _ _ (rep_wf _ _ _ _ _ HR) va' k b e HS') in Ht by (by rewrite Ei). injection Ht as <-.
    unfold leaf_result. by rewrite Hp. }
  replace (va - va mod 2 ^ n) with (2 ^ n * x) by lia. unfold saturating_add, wrapping_add, wrap, advances.
  assert (va / 4096 < 2 ^ (n - 12) * (x + 1)) as Hpg by (apply Z.div_lt_upper_bound; nia).
  destruct (Z.eq_dec (x + 1) (2 ^ (64 - n))) as [Et|Et].
  - replace (2 ^ n * x + 2 ^ n) with (1 * 2 ^ 64) by nia. rewrite Z.mod_mul by lia. destruct (Z.ltb_spec va 0); [lia|].
    assert (2 ^ n * (x + 1) = 2 ^ 64) by nia. rewrite Z.min_r by lia. split; [lia|]. intros va' ?. apply Hclear. lia.
  - assert (2 ^ n * (x + 1) ≤ 2 ^ 64 - 2 ^ n) by nia. rewrite Z.mod_small by lia. destruct (Z.ltb_spec va (2 ^ n * x + 2 ^ n)); [|lia].
    rewrite Z.max_l by lia. rewrite Z.min_l by lia. replace (va + (2 ^ n * x + 2 ^ n - va)) with (2 ^ n * (x + 1)) by lia.
    split; [split; [lia|left]|intros va' ?; apply Hclear; lia]. rewrite Hspan. replace (4096 * 2 ^ (n - 12) * (x + 1)) with (2 ^ (n - 12) * (x + 1) * 4096) by lia.
    by rewrite Z.div_mul by lia.
Qed.

(** One probe: a mapped page at [va], or a clear stretch up to the next address. *)
Lemma probe_spec va : u64 va → va < 2 ^ 64 - 1 →
  ∃ p, probe root va m = Ret p ∧
    match p with
    | Mapped _ _ _ => is_canonical va = true ∧ pages V va ≠ None
    | Skip n => let next := saturating_add 64 va (Z.max n 1) in advances va next ∧ clear va next
    end.
Proof.
  intros Hva Hlast. unfold probe. destruct (is_canonical va) eqn:Hc; cbn [negb].
  - pose proof (rep_wf _ _ _ _ _ HR) as HW. destruct (stop_exists _ _ _ HW va) as (k & b & HS).
    destruct (stop_entry _ _ _ HW _ _ _ HS) as (e & He & _). rewrite (probe_stop _ _ _ HW va k b e HS He).
    eexists. split; [done|]. destruct (present e) eqn:Hp.
    + split; [done|]. pose proof (rep_pages _ _ _ _ _ HR va) as Ht.
      rewrite (translate_stop _ _ _ HW va k b e HS He) in Ht. injection Ht as <-. unfold leaf_result. by rewrite Hp.
    + destruct (skip_clear va k b e Hva HS He Hp Hlast) as [Ha Hcl]. split; [done|]. intros va' Hv _. by apply Hcl.
  - unfold is_canonical in Hc. apply orb_false_iff in Hc as [H1%Z.eqb_neq H2%Z.eqb_neq]. unfold u64, in_width in Hva.
    rewrite Z.shiftr_div_pow2 in H1, H2 by lia. change (2 ^ 64) with (131072 * 2 ^ 47) in Hva.
    assert (2 ^ 47 ≤ va < 131071 * 2 ^ 47) as Hr by dlia. change 0xFFFF800000000000 with (131071 * 2 ^ 47).
    destruct (Z.ltb_spec va (131071 * 2 ^ 47)); [|lia]. eexists. split; [done|]. cbv zeta. unfold saturating_add.
    rewrite Z.max_l, Z.min_l by lia. replace (va + (131071 * 2 ^ 47 - va)) with (131071 * 2 ^ 47) by lia. split.
    + split; [lia|left]. dlia.
    + intros va' Hv Hcan. unfold is_canonical in Hcan. rewrite Z.shiftr_div_pow2 in Hcan by lia.
      apply orb_true_iff in Hcan as [E%Z.eqb_eq|E%Z.eqb_eq]; exfalso; dlia.
Qed.

Lemma range_unmapped_run n start end_ va :
  u64 start → u64 end_ → start ≤ va → u64 va → (va < end_ → (end_ - va / 4096 * 4096) / 4096 + 1 < Z.of_nat n) → (0 < n)%nat →
  clear start va → ∃ b, range_unmapped_from n root start end_ va m = Ret b ∧ (b = true ↔ clear start end_).
Proof.
  unfold u64, in_width. intros Hs He. revert va. induction n as [|n IH]; intros va Hsv Hva Hfuel Hn Hcl; [lia|].
  cbn [range_unmapped_from]. destruct (Z.ltb_spec va end_) as [Hlt|Hge].
  2:{ exists true. split; [done|]. split; [|done]. intros _ va' ?. apply Hcl. lia. }
  destruct (probe_spec va Hva ltac:(lia)) as (p & -> & Hp). cbn [obind]. destruct p as [k|pa size fl].
  - destruct Hp as [[Hadv Hpg] Hk]. set (next := saturating_add 64 va (Z.max k 1)) in *.
    destruct (Z.leb_spec next start); [lia|]. specialize (Hfuel Hlt). apply IH; [lia|lia| | |].
    + intros Hne. destruct Hpg as [Hpg|Hpg]; [|lia]. clear - Hpg Hfuel Hne Hlt. dlia.
    + clear - Hfuel Hlt. dlia.
    + by eapply clear_join.
  - exists false. split; [done|]. split; [done|]. intros Hall. destruct Hp as [Hc Hm]. destruct (Hm (Hall va ltac:(lia) Hc)).
Qed.

(** [range_unmapped] returns on every range, within the bound on its probes,
    and answers whether no canonical address of the range is mapped, though it
    reads one table slot per step and not one page. *)
Theorem range_unmapped_exact start end_ :
  u64 start → u64 end_ → ∃ b, range_unmapped root start end_ m = Ret b ∧ (b = true ↔ clear start end_).
Proof.
  intros Hs He. unfold range_unmapped. unfold u64, in_width in *. apply range_unmapped_run; [done|done|lia|done| | |intros va ?; lia].
  - intros Hlt. clear - Hlt Hs. rewrite Nat2Z.inj_succ, Z2Nat.id by dlia. dlia.
  - lia.
Qed.
End sweep.

Lemma range_unmapped_exact_witness :
  ∃ b, range_unmapped 0x1000 0x400123 0x800000 demo_memory = Ret b ∧ (b = true ↔ clear empty_view 0x400123 0x800000).
Proof.
  apply (range_unmapped_exact 0x1000 {[ [] := 0x1000 ]} demo_memory demo_pool empty_view).
  - apply fresh_root; [reflexivity|apply demo_outside].
  - unfold u64, in_width. lia.
  - unfold u64, in_width. lia.
Defined.

(** ** The ioremap window *)

(** The cursor stays page aligned and inside the window. *)
Definition window_ok (w : IoremapWindow) : Prop :=
  IOREMAP_BASE ≤ next w ≤ IOREMAP_BASE + IOREMAP_LEN ∧ next w mod 4096 = 0.

Lemma align_up_page x : 0 ≤ x → x + 4096 < 2 ^ 64 → align_up x PAGE_SIZE_4K = Ret ((x + 4095) / 4096 * 4096).
Proof.
  intros Hx Hb. unfold align_up. change PAGE_SIZE_4K with 4096. rewrite addc_ret by (unfold in_width; lia). cbn [obind].
  rewrite subc_ret by (unfold in_width; lia). cbn [obind]. f_equal. change (4096 - 1) with (2 ^ 12 - 1).
  rewrite land_notw by (unfold in_width; lia). change (2 ^ 12) with 4096. dlia.
Qed.

(** A reservation lies inside the window, past every earlier one, at the
    page offset of the physical address; giving it back with [unreserve] restores
    the window as it was.  A reservation that does not fit changes nothing. *)
Theorem ioremap_roundtrip phys len w :
  window_ok w → u64 phys → 0 < len < 2 ^ 63 →
  ∃ r w', reserve phys len w = Ret (r, w') ∧
    match r with
    | None => w' = w ∧ IOREMAP_BASE + IOREMAP_LEN < next w + phys mod 4096 + len
    | Some va => window_ok w' ∧ next w ≤ va ∧ va + len ≤ next w' ∧ va mod 4096 = phys mod 4096 ∧
                 unreserve va len w' = Ret (true, w)
    end.
Proof.
  intros [Hw Hal] Hp Hlen. unfold u64, in_width in Hp. unfold reserve. destruct (Z.eqb_spec len 0); [lia|].
  change (PAGE_SIZE_4K - 1) with (2 ^ 12 - 1). rewrite land_mask by lia. change (2 ^ 12) with 4096.
  assert (0 ≤ phys mod 4096 < 4096) as Ho by (apply Z.mod_pos_bound; lia). set (o := phys mod 4096) in *.
  unfold IOREMAP_BASE, IOREMAP_LEN in *. rewrite addc_ret by (unfold in_width; lia). cbn [obind].
  rewrite align_up_page by lia. cbn [obind]. rewrite align_up_page by lia. cbn [obind].
  assert ((next w + 4095) / 4096 * 4096 = next w) as -> by dlia. set (pg := (o + len + 4095) / 4096 * 4096).
  assert (o + len ≤ pg < o + len + 4096 ∧ pg mod 4096 = 0) as [Hpg Hpm] by (unfold pg; dlia).
  unfold checked_add. destruct (Z.ltb_spec (next w + pg) (2 ^ 64)); [|do 2 eexists; split; [done|]; split; [done|lia]].
  rewrite addc_ret by (unfold in_width; lia). cbn [obind].
  destruct (Z.ltb_spec (0xFFFFE00000000000 + 256 * 1024 * 1024) (next w + pg)) as [Hbig|Hfit].
  { do 2 eexists. split; [done|]. split; [done|]. dlia. }
  rewrite addc_ret by (unfold in_width; lia). cbn [obind]. do 2 eexists. split; [done|]. cbn [next]. split.
  { split; cbn [next]; [unfold IOREMAP_BASE, IOREMAP_LEN; lia|dlia]. }
  assert ((next w + o) mod 4096 = o) as Emod by dlia. split; [lia|]. split; [lia|]. split; [done|].
  unfold unreserve. change (PAGE_SIZE_4K - 1) with (2 ^ 12 - 1). rewrite land_mask by lia. change (2 ^ 12) with 4096. rewrite Emod.
  rewrite subc_ret by (unfold in_width; lia). cbn [obind]. replace (next w + o - o) with (next w) by lia.
  unfold reservation_end, checked_add. change (PAGE_SIZE_4K - 1) with 4095.
  destruct (Z.ltb_spec (o + len) (2 ^ 64)); [|lia]. destruct (Z.ltb_spec (o + len + 4095) (2 ^ 64)); [|lia].
  assert (Z.land (o + len + 4095) (notw 64 4095) = pg) as ->.
  { change 4095 with (2 ^ 12 - 1) at 2. rewrite land_notw by (unfold in_width; lia). change (2 ^ 12) with 4096. unfold pg. dlia. }
  destruct (Z.ltb_spec (next w + pg) (2 ^ 64)); [|lia]. cbn [next].
  rewrite Z.eqb_refl. destruct (Z.eqb_spec len 0); [lia|]. destruct (Z.ltb_spec (next w) IOREMAP_BASE); [unfold IOREMAP_BASE in *; lia|].
  cbn. by destruct w.
Qed.

Lemma ioremap_roundtrip_witness :
  ∃ r w', reserve 0xFEE00010 0x1000 ioremap_new = Ret (r, w') ∧
    match r with
    | None => w' = ioremap_new ∧ IOREMAP_BASE + IOREMAP_LEN < next ioremap_new + 0xFEE00010 mod 4096 + 0x1000
    | Some va => window_ok w' ∧ next ioremap_new ≤ va ∧ va + 0x1000 ≤ next w' ∧ va mod 4096 = 0xFEE00010 mod 4096 ∧
                 unreserve va 0x1000 w' = Ret (true, ioremap_new)
    end.
Proof. apply (ioremap_roundtrip 0xFEE00010 0x1000 ioremap_new); [split; vm_compute; [split; congruence|done]|split; vm_compute; congruence|lia]. Defined.
