(* ===== verification/PagingTeardown.v ===== *)
(** * Freeing the user half (src/crates/core/src/mm/paging.rs)

    [free_user_half] clears and frees while it walks.  An entry is named by its
    indices from its table up to the root; the walk visits each present entry of
    the user half once, the entries below a table before the table's own, and
    touches no other entry. *)

From stdpp Require Import base strings numbers gmap list sorting.
From S2P Require Import Prelude Paging PagingRep.
Import Paging.

Local Open Scope Z_scope.

Section Teardown.
Context (root : Z) (T : gmap path Z) (m0 : memory) (HW : pt_wf root T m0).

Definition idx (i : Z) : Prop := 0 ≤ i < 512.
(** The present entry [q] holds the frame [x]. *)
Definition entry (q : path) (x : Z) : Prop :=
  ∃ i p a e, q = i :: p ∧ Forall idx q ∧ T !! p = Some a ∧ look m0 a i = Some e ∧ present e = true ∧ x = pte_phys e.
(** The entries at or below indices [i] to [i + n] of the table [p]. *)
Definition below (p : path) (i n : Z) (q : path) : Prop := ∃ s j, q = s ++ j :: p ∧ i ≤ j < i + n.

Definition tables_ok (m : memory) : Prop := ∀ p a, T !! p = Some a → ∃ t, m !! a = Some t ∧ length t = PTES_PER_TABLE.
(** Nothing in [U] has been written yet. *)
Definition agree (U : path → Prop) (m : memory) : Prop :=
  ∀ p a i, T !! p = Some a → idx i → U (i :: p) → look m a i = look m0 a i.
Definition small_leaves (U : path → Prop) : Prop :=
  ∀ i p a e, U (i :: p) → Forall idx (i :: p) → T !! p = Some a → look m0 a i = Some e → present e = true → huge e = false.

(** The entries of [U] were freed, in the order [fr], and cleared. *)
Record freed (U : path → Prop) (m m' : memory) (fr : list Z) (qs : list path) : Prop := {
  fd_frames : Forall2 entry qs fr;
  fd_nodup : NoDup qs;
  fd_exact q : q ∈ qs ↔ U q ∧ ∃ x, entry q x;
  fd_clear i p a : i :: p ∈ qs → T !! p = Some a → look m' a i = Some 0;
  fd_same a i : 0 ≤ i → (∀ p, T !! p = Some a → i :: p ∉ qs) → look m' a i = look m a i;
  fd_tables : tables_ok m'
}.

(** ** Entries below a path *)
Lemma parent_chain s p a : T !! (s ++ p) = Some a → is_Some (T !! p).
Proof.
  revert a. induction s as [|j s IH]; intros a Ha; [by exists a|]. destruct (wf_parent _ _ _ HW j (s ++ p) a Ha) as [b Hb]. by eapply IH.
Qed.

Lemma below_split p i n q : 0 < n → below p i n q ↔ below p i 1 q ∨ below p (i + 1) (n - 1) q.
Proof.
  intros Hn. split.
  - intros (s & j & -> & Hj). destruct (decide (j = i)) as [->|]; [left|right]; exists s; eexists; (split; [done|lia]).
  - intros [(s & j & -> & Hj)|(s & j & -> & Hj)]; exists s, j; (split; [done|lia]).
Qed.
Lemma below_one p i q : below p i 1 q ↔ q = i :: p ∨ below (i :: p) 0 512 q ∨ ∃ s j, q = s ++ j :: i :: p ∧ ¬ idx j.
Proof.
  split.
  - intros (s & j & -> & Hj). assert (j = i) as -> by lia. destruct s as [|k s _] using rev_ind; [by left|right].
    rewrite <-app_assoc. cbn. destruct (decide (0 ≤ k < 512)) as [Hk|Hk]; [left|right]; exists s, k; (split; [done|]); [lia|done].
  - intros [->|[(s & j & -> & Hj)|(s & j & -> & Hj)]]; [exists [], i; split; [done|lia]|exists (s ++ [j]), i..]; (split; [by rewrite <-app_assoc|lia]).
Qed.
Lemma app_same_suffix {A} (s s' : list A) j j' p : s ++ j :: p = s' ++ j' :: p → j = j'.
Proof.
  intros E. assert (E' : (s ++ [j]) ++ p = (s' ++ [j']) ++ p) by (by rewrite <-!app_assoc).
  apply app_inv_tail in E'. by apply app_inj_2 in E' as [_ [= ->]].
Qed.
Lemma below_disjoint p i n i' n' q : below p i n q → below p i' n' q → i + n ≤ i' → False.
Proof. intros (s & j & -> & Hj) (s' & j' & E & Hj') Hle. apply app_same_suffix in E as ->. lia. Qed.

Lemma entry_idx s j p x : entry (s ++ j :: p) x → idx j.
Proof. intros (i & p' & a & e & Hq & Hf & _). apply Forall_app in Hf as [_ Hf]. by inversion Hf. Qed.
Lemma entry_fun q x y : entry q x → entry q y → x = y.
Proof. intros (i & p & a & e & -> & _ & Ha & He & _ & ->) (i' & p' & a' & e' & [= <- <-] & _ & Ha' & He' & _ & ->). congruence. Qed.

(** Under an entry that leads to no table there is at most the entry itself. *)
Lemma entry_no_table i p q x : T !! (i :: p) = None → below p i 1 q → entry q x → q = i :: p.
Proof.
  intros Hn (s & j & -> & Hj) He. assert (j = i) as -> by lia. destruct s as [|k s]; [done|exfalso].
  destruct He as (k' & p' & a & e & [= <- <-] & _ & Ha & _). destruct (parent_chain s (i :: p) a Ha) as [b Hb]. congruence.
Qed.

(** ** Composing steps *)
Lemma freed_none U m : tables_ok m → (∀ q x, U q → ¬ entry q x) → freed U m m [] [].
Proof.
  intros Hm Hn. constructor; [constructor|constructor| |set_solver|done|done]. intros q. split; [set_solver|]. intros [HU [x Hx]]. by destruct (Hn q x).
Qed.

Lemma freed_ext U U' m m' fr qs : (∀ q x, entry q x → U q ↔ U' q) → freed U m m' fr qs → freed U' m m' fr qs.
Proof.
  intros HU []. constructor; try done. intros q. rewrite fd_exact0. split; intros [Hq [x Hx]]; (split; [by apply (HU q x)|by exists x]).
Qed.

(** A step on [U1] keeps what [U2] needs. *)
Lemma agree_after U1 U2 m m' fr qs : freed U1 m m' fr qs → (∀ q, U1 q → U2 q → False) → agree U2 m → agree U2 m'.
Proof.
  intros HF Hd Ha p a i Hp Hi HU. rewrite (fd_same _ _ _ _ _ HF); [exact (Ha p a i Hp Hi HU)|apply Hi|].
  intros p' Hp' Hin. assert (p' = p) as -> by (by eapply wf_inj).
  apply (fd_exact _ _ _ _ _ HF) in Hin as [H1 _]. by eapply Hd.
Qed.
Lemma agree_sub (U U' : path → Prop) m : (∀ q, U' q → U q) → agree U m → agree U' m.
Proof. intros HU Ha p a i Hp Hi Hq. apply (Ha p a i Hp Hi). auto. Qed.

Lemma freed_app (U1 U2 U : path → Prop) m m1 m2 fr1 fr2 qs1 qs2 :
  freed U1 m m1 fr1 qs1 → freed U2 m1 m2 fr2 qs2 → (∀ q, U1 q → U2 q → False) → (∀ q x, entry q x → U q ↔ U1 q ∨ U2 q) →
  freed U m m2 (fr1 ++ fr2) (qs1 ++ qs2).
Proof.
  intros H1 H2 Hd HU. constructor.
  - apply Forall2_app; [apply H1|apply H2].
  - apply NoDup_app. split_and!; [apply H1| |apply H2]. intros q Hq1 Hq2. apply (fd_exact _ _ _ _ _ H1) in Hq1 as [? _].
    apply (fd_exact _ _ _ _ _ H2) in Hq2 as [? _]. by eapply Hd.
  - intros q. rewrite elem_of_app, (fd_exact _ _ _ _ _ H1), (fd_exact _ _ _ _ _ H2). split.
    + intros [[Hq [x Hx]]|[Hq [x Hx]]]; (split; [apply (HU q x); auto|by exists x]).
    + intros [Hq [x Hx]]. apply (HU q x Hx) in Hq as [Hq|Hq]; [left|right]; (split; [done|by exists x]).
  - intros i p a Hin Hp. apply elem_of_app in Hin as [Hin|Hin]; [|by eapply H2].
    rewrite (fd_same _ _ _ _ _ H2); [by eapply H1| |].
    + apply (fd_exact _ _ _ _ _ H1) in Hin as [_ [x (i' & p' & ? & ? & [= <- <-] & Hf & _)]]. inversion Hf as [|?? [Hi _]]. done.
    + intros p' Hp' Hin2. assert (p' = p) as -> by (by eapply wf_inj). apply (fd_exact _ _ _ _ _ H1) in Hin as [? _].
      apply (fd_exact _ _ _ _ _ H2) in Hin2 as [? _]. by eapply Hd.
  - intros a i Hi Hn. rewrite (fd_same _ _ _ _ _ H2) by (done || (intros p Hp Hin; by apply (Hn p Hp), elem_of_app; right)).
    apply (fd_same _ _ _ _ _ H1); [done|]. intros p Hp Hin. by apply (Hn p Hp), elem_of_app; left.
  - apply H2.
Qed.

(** Clearing one entry. *)
Lemma freed_one i p a e m :
  Forall idx (i :: p) → T !! p = Some a → look m0 a i = Some e → present e = true → tables_ok m →
  write_entry m a i 0 = Ret (poke m a i 0) ∧ freed (λ q, q = i :: p) m (poke m a i 0) [pte_phys e] [i :: p].
Proof.
  intros Hf Hp He Hpr Hm. destruct (Hm p a Hp) as (t & Ht & Hlen). assert (Hi : idx i) by (by inversion Hf). split; [by eapply write_known|].
  assert (Hen : entry (i :: p) (pte_phys e)) by (by exists i, p, a, e). constructor.
  - by repeat constructor.
  - apply NoDup_singleton.
  - intros q. rewrite list_elem_of_singleton. split; [intros ->; eauto|by intros [? _]].
  - intros i' p' a' [= -> ->]%list_elem_of_singleton Hp'. assert (a' = a) as -> by congruence. unfold look, poke.
    rewrite lookup_alter_eq, Ht. cbn. apply list_lookup_insert_eq. rewrite Hlen. unfold PTES_PER_TABLE, idx in *. lia.
  - intros a' i' Hi' Hn. apply look_poke_ne; [apply Hi|done|]. intros [= -> ->]. apply (Hn p Hp), list_elem_of_singleton. done.
  - intros p' a' Hp'. destruct (Hm p' a' Hp') as (t' & Ht' & Hl'). by eapply poke_mem.
Qed.

(** ** The walk *)
Definition nleaf (qs : list path) : Z := zlen (filter (λ q, length q = LEVELS) qs).
Definition counts (st st' : UserFreeStats) (qs : list path) : Prop :=
  leaves st' = leaves st + nleaf qs ∧ leaves st' + tables st' = leaves st + tables st + zlen qs.

Lemma nleaf_app a b : nleaf (a ++ b) = nleaf a + nleaf b.
Proof. unfold nleaf. rewrite filter_app. unfold zlen. rewrite length_app. lia. Qed.
Lemma nleaf_one q : nleaf [q] = if decide (length q = LEVELS) then 1 else 0.
Proof. unfold nleaf. rewrite filter_cons. by case_decide. Qed.
Lemma nleaf_bound qs : 0 ≤ nleaf qs ≤ zlen qs.
Proof. unfold nleaf, zlen. pose proof (length_filter (λ q : path, length q = LEVELS) qs). lia. Qed.
Lemma counts_app st st1 st2 a b : counts st st1 a → counts st1 st2 b → counts st st2 (a ++ b).
Proof. intros [H1 H2] [H3 H4]. unfold counts. rewrite nleaf_app. unfold zlen in *. rewrite length_app. lia. Qed.

(** The most entries under a table of level [l]. *)
Fixpoint cap (l : nat) : Z := match l with O => 0 | S l => 512 * (1 + cap l) end.
Lemma cap_pos l : 0 ≤ cap l.
Proof. induction l; cbn [cap]; lia. Qed.

Definition stats_ok (st : UserFreeStats) (n : Z) : Prop := 0 ≤ leaves st ∧ 0 ≤ tables st ∧ leaves st + tables st + n < 2 ^ 64.
Definition walks (U : path → Prop) (m : memory) (st : UserFreeStats) (n : Z) (o : outcome (list Z * memory * UserFreeStats)) : Prop :=
  ∃ fr m' st' qs, o = Ret (fr, m', st') ∧ freed U m m' fr qs ∧ counts st st' qs ∧ zlen qs ≤ n.

Definition walks_table (l : nat) (rec : Z → memory → UserFreeStats → outcome (list Z * memory * UserFreeStats)) : Prop :=
  ∀ p a m st, T !! p = Some a → (length p + l = LEVELS)%nat → Forall idx p → agree (below p 0 512) m →
    small_leaves (below p 0 512) → tables_ok m → stats_ok st (cap l) → walks (below p 0 512) m st (cap l) (rec a m st).

Lemma stats_after st st' qs n k : stats_ok st (n + k) → counts st st' qs → zlen qs ≤ n → stats_ok st' k.
Proof.
  intros (H1 & H2 & H3) [H4 H5] Hn. pose proof (nleaf_bound qs). unfold stats_ok. lia.
Qed.

Lemma below_child p i q : below (i :: p) 0 512 q → below p i 1 q.
Proof. intros H. apply below_one. auto. Qed.
Lemma below_first p i n q : 0 < n → below p i 1 q → below p i n q.
Proof. intros Hn H. apply below_split; auto. Qed.

(** The entry [i] of a table: its subtree, then the entry. *)
Definition free_one (rec : Z → memory → UserFreeStats → outcome (list Z * memory * UserFreeStats)) (level : nat) (table i e : Z)
    (m : memory) (st : UserFreeStats) : outcome (list Z * memory * UserFreeStats) :=
  r <~ (if (level =? 1)%nat || huge e then
          _ <~ oassert ((level =? 1)%nat && negb (huge e)) "addrspace: unexpected huge user leaf"%string;;
          n <~ addc 64 (leaves st) 1;;
          Ret ([], m, mkFreeStats n (tables st))
        else
          r <~ rec (pte_phys e) m st;;
          let '(fr, m, st) := r in
          n <~ addc 64 (tables st) 1;;
          Ret (fr, m, mkFreeStats (leaves st) n));;
  let '(fr, m, st) := r in
  m <~ write_entry m table i 0;;
  Ret (fr ++ [pte_phys e], m, st).

Lemma free_entries_S rec level table n i m st e : read_entry m table i = Ret e →
  free_entries rec level table (S n) i m st =
  if present e then
    r <~ free_one rec level table i e m st;;
    let '(fr, m, st) := r in
    r <~ free_entries rec level table n (i + 1) m st;;
    let '(rest, m, st) := r in Ret (fr ++ rest, m, st)
  else free_entries rec level table n (i + 1) m st.
Proof.
  intros Hr. cbn [free_entries]. rewrite Hr. cbn [obind]. unfold present, free_one, huge. destruct (contains (pte_flags e) PRESENT); [|done].
  cbn [negb]. set (o := if _ || _ then _ else _). destruct o as [[[fr m1] st1]| | |]; cbn [obind]; try done.
  destruct (write_entry m1 table i 0) as [m2| | |]; cbn [obind]; try done.
  destruct (free_entries rec level table n (i + 1) m2 st1) as [[[rest m3] st3]| | |]; cbn [obind]; try done. by rewrite <-app_assoc.
Qed.

Section Table.
Context (rec : Z → memory → UserFreeStats → outcome (list Z * memory * UserFreeStats)) (l : nat) (Hrec : (0 < l)%nat → walks_table l rec).
Context (p : path) (a : Z) (Hp : T !! p = Some a) (Hlen : (length p + S l = LEVELS)%nat) (Hidx : Forall idx p).

Lemma free_one_ok i e m st :
  idx i → look m0 a i = Some e → present e = true → agree (below p i 1) m → small_leaves (below p i 1) → tables_ok m →
  stats_ok st (1 + cap l) → walks (below p i 1) m st (1 + cap l) (free_one rec (S l) a i e m st).
Proof.
  intros Hi He Hpr Hag Hsm Hm Hst. assert (Hf : Forall idx (i :: p)) by (by constructor).
  assert (Hin : below p i 1 (i :: p)) by (apply below_one; auto).
  assert (Hh : huge e = false) by (by eapply Hsm).
  pose proof (wf_child _ _ _ HW p a i e Hp Hi He) as Hc. replace (LEVELS - length p)%nat with (S l) in Hc by lia.
  unfold interior, leaf_entry in Hc. fold (huge e) in Hc. rewrite Hpr, Hh, orb_false_r in Hc. cbn [andb] in Hc.
  pose proof (cap_pos l). pose proof Hst as (Hs1 & Hs2 & Hs3). unfold free_one. rewrite Hh, orb_false_r, andb_true_r.
  destruct (Nat.eqb_spec (S l) 1) as [El|El]; cbn [oassert obind negb] in *.
  - rewrite addc_ret by (unfold in_width; lia). cbn [obind].
    destruct (freed_one i p a e m Hf Hp He Hpr Hm) as [Hw HF]. rewrite Hw. cbn [obind].
    eexists [pte_phys e], (poke m a i 0), _, [i :: p]. split_and!; [done| | |unfold zlen; cbn [length]; lia].
    + eapply freed_ext; [|exact HF]. intros q x Hx. split; [by intros ->|]. intros Hq. by eapply entry_no_table.
    + unfold counts. rewrite nleaf_one, decide_True by (cbn [length]; lia). unfold zlen. cbn [length leaves tables]. lia.
  - destruct (Hrec ltac:(lia) (i :: p) (pte_phys e) m st) as (fr & m1 & st1 & qs & Hr & HF1 & Hct & Hn); try done.
    + cbn [length]. lia.
    + eapply agree_sub; [|exact Hag]. apply below_child.
    + intros j p' a' e' HU. apply Hsm. by apply below_child.
    + unfold stats_ok. lia.
    + rewrite Hr. cbn [obind]. pose proof (nleaf_bound qs). pose proof Hct as [Hct1 Hct2].
      rewrite addc_ret by (unfold in_width; lia). cbn [obind].
      destruct (freed_one i p a e m1 Hf Hp He Hpr (fd_tables _ _ _ _ _ HF1)) as [Hw HF2]. rewrite Hw. cbn [obind].
      eexists (fr ++ [pte_phys e]), (poke m1 a i 0), _, (qs ++ [i :: p]). split_and!; [done| | |].
      * eapply freed_app; [exact HF1|exact HF2| |].
        -- intros q (s & j & -> & _) E. apply (f_equal length) in E. rewrite length_app in E. cbn in E. lia.
        -- intros q x Hx. rewrite below_one. split; [|tauto]. intros [?|[?|(s & j & -> & Hj)]]; [by right|by left|]. by apply entry_idx in Hx.
      * unfold counts. rewrite nleaf_app, nleaf_one, decide_False by (cbn [length]; lia). unfold zlen in *. rewrite length_app. cbn [length leaves tables]. lia.
      * unfold zlen in *. rewrite length_app. cbn [length]. lia.
Qed.

Lemma free_entries_ok n i m st :
  0 ≤ i → i + Z.of_nat n ≤ 512 → agree (below p i (Z.of_nat n)) m → small_leaves (below p i (Z.of_nat n)) → tables_ok m →
  stats_ok st (Z.of_nat n * (1 + cap l)) →
  walks (below p i (Z.of_nat n)) m st (Z.of_nat n * (1 + cap l)) (free_entries rec (S l) a n i m st).
Proof.
  revert i m st. induction n as [|n IH]; intros i m st Hi Hin Hag Hsm Hm Hst.
  - exists [], m, st, []. split_and!; [done| |unfold counts; change (nleaf []) with 0; change (zlen []) with 0; lia|done].
    apply freed_none; [done|]. intros q x (s & j & -> & Hj). lia.
  - assert (Hii : idx i) by (unfold idx; lia). destruct (look_some root T m0 p a i HW Hp Hii) as (e & He & _).
    assert (Hsplit : ∀ q, below p i (Z.of_nat (S n)) q ↔ below p i 1 q ∨ below p (i + 1) (Z.of_nat n) q).
    { intros q. rewrite below_split by lia. by replace (Z.of_nat (S n) - 1) with (Z.of_nat n) by lia. }
    assert (Hdis : ∀ q, below p i 1 q → below p (i + 1) (Z.of_nat n) q → False) by (intros q H1 H2; eapply below_disjoint; [exact H1|exact H2|lia]).
    assert (Hread : read_entry m a i = Ret e).
    { destruct (Hm p a Hp) as (t & Ht & Hl). assert (Hlk : look m a i = Some e).
      { rewrite <-He. apply (Hag p a i Hp Hii), Hsplit. left. apply below_one. auto. }
      unfold look in Hlk. unfold read_entry. rewrite Ht in Hlk |- *. cbn in Hlk. apply index_ret; [apply Hii|done]. }
    assert (Hsm2 : small_leaves (below p (i + 1) (Z.of_nat n))) by (intros j p' a' e' HU; apply Hsm; apply Hsplit; auto).
    pose proof (cap_pos l). rewrite Nat2Z.inj_succ, Z.mul_succ_l in *.
    rewrite (free_entries_S _ _ _ _ _ _ _ e Hread). destruct (present e) eqn:Hpr.
    + destruct (free_one_ok i e m st) as (fr & m1 & st1 & qs & Hr & HF & Hct & Hn); try done.
      * eapply agree_sub; [|exact Hag]. intros q Hq. apply Hsplit. auto.
      * intros j p' a' e' HU. apply Hsm, Hsplit. auto.
      * destruct Hst as (? & ? & ?). unfold stats_ok. lia.
      * rewrite Hr. cbn [obind].
        destruct (IH (i + 1) m1 st1) as (rest & m2 & st2 & qs2 & Hr2 & HF2 & Hct2 & Hn2); try done; [lia|lia| | | |].
        -- eapply agree_after; [exact HF|exact Hdis|]. eapply agree_sub; [|exact Hag]. intros q Hq. apply Hsplit. auto.
        -- apply HF.
        -- eapply (stats_after st st1 qs (1 + cap l)); [|done|done]. rewrite Z.add_comm. done.
        -- rewrite Hr2. cbn [obind]. exists (fr ++ rest), m2, st2, (qs ++ qs2). split_and!; [done| |by eapply counts_app|unfold zlen in *; rewrite length_app; lia].
           eapply freed_app; [exact HF|exact HF2|exact Hdis|]. intros q x _. apply Hsplit.
    + destruct (IH (i + 1) m st) as (rest & m2 & st2 & qs2 & Hr2 & HF2 & Hct2 & Hn2); try done; [lia|lia| | |].
      * eapply agree_sub; [|exact Hag]. intros q Hq. apply Hsplit. auto.
      * destruct Hst as (? & ? & ?). unfold stats_ok. lia.
      * rewrite Hr2. exists rest, m2, st2, qs2. split_and!; [done| |done|lia]. eapply freed_ext; [|exact HF2]. intros q x Hx. rewrite Hsplit.
        split; [by right|]. intros [Hq|?]; [exfalso|done].
        pose proof (wf_child _ _ _ HW p a i e Hp Hii He) as Hc. unfold interior in Hc. rewrite Hpr in Hc. cbn [andb] in Hc.
        pose proof (entry_no_table _ _ _ _ Hc Hq Hx) as ->. destruct Hx as (i' & p' & a' & e' & [= <- <-] & _ & Ha' & He' & Hpr' & _). congruence.
Qed.
End Table.

Lemma free_level_ok l : (0 < l)%nat → walks_table l (free_level l false).
Proof.
  induction l as [|l IH]; [lia|]. intros _ p a m st Hp Hlen Hidx Hag Hsm Hm Hst. cbn [free_level andb].
  change PTES_PER_TABLE with (Z.to_nat 512). change 512 with (Z.of_nat (Z.to_nat 512)) in Hag, Hsm |- * at 1.
  cbn [cap] in *. apply (free_entries_ok (λ c m st, free_level l false c m st) l IH p a Hp Hlen Hidx); try done; lia.
Qed.

(** ** The user half *)
Definition user : path → Prop := below [] 0 256.

Lemma free_level_S l b t m st :
  free_level (S l) b t m st =
  free_entries (λ c m st, free_level l false c m st) (S l) t
    (if b && (S l =? LEVELS)%nat then KERNEL_PML4_FIRST else PTES_PER_TABLE) 0 m st.
Proof. reflexivity. Qed.

Lemma free_user_half_ok : small_leaves user →
  ∃ fr m' st qs, free_user_half root m0 = Ret (fr, m', st) ∧ freed user m0 m' fr qs ∧
    leaves st = nleaf qs ∧ leaves st + tables st = zlen qs.
Proof.
  intros Hsm. destruct (free_entries_ok (λ c m st, free_level 3 false c m st) 3 (free_level_ok 3) [] root
    (wf_root _ _ _ HW) eq_refl (Forall_nil_2 _) KERNEL_PML4_FIRST 0 m0 (mkFreeStats 0 0)) as (fr & m' & st & qs & Hr & HF & [H1 H2] & _).
  - lia.
  - unfold KERNEL_PML4_FIRST. lia.
  - done.
  - exact Hsm.
  - intros p a. by apply (wf_mem _ _ _ HW).
  - by vm_compute.
  - cbn [leaves tables] in H1, H2. exists fr, m', st, qs. split; [|split; [exact HF|lia]].
    unfold free_user_half, LEVELS. rewrite free_level_S. exact Hr.
Qed.

Lemma path_top va l : (l < LEVELS)%nat → ∃ s, path_to va l = s ++ [index_at va LEVELS].
Proof.
  unfold LEVELS. intros Hl. unfold path_to. destruct l as [|[|[|[|l]]]]; [| | | |lia].
  - by exists [index_at va 1; index_at va 2; index_at va 3].
  - by exists [index_at va 2; index_at va 3].
  - by exists [index_at va 3].
  - by exists [].
Qed.
Lemma user_top va l : (l < LEVELS)%nat → user (path_to va l) ↔ index_at va LEVELS < 256.
Proof.
  intros Hl. destruct (path_top va l Hl) as [s ->]. pose proof (index_at_range va LEVELS). split.
  - intros (s' & j & E & Hj). apply app_inj_tail in E as [_ ->]. lia.
  - intros Hi. exists s, (index_at va LEVELS). split; [done|lia].
Qed.

Section After.
Context (m' : memory) (fr : list Z) (qs : list path) (HF : freed user m0 m' fr qs).

Lemma read_after p a i e : T !! p = Some a → idx i → look m' a i = Some e → read_entry m' a i = Ret e.
Proof.
  intros Hp Hi He. destruct (fd_tables _ _ _ _ _ HF p a Hp) as (t & Ht & _). unfold look in He. unfold read_entry.
  rewrite Ht in He |- *. cbn in He. apply index_ret; [apply Hi|done].
Qed.

(** No user address is mapped any more. *)
Lemma user_unmapped va : index_at va LEVELS < 256 → translate root va m' = Ret None.
Proof.
  intros Hva. pose proof (index_at_range va LEVELS) as Hi. pose proof (wf_root _ _ _ HW) as Hroot.
  destruct (look_some root T m0 [] root (index_at va LEVELS) HW Hroot Hi) as (e & He & _).
  assert (∃ e', look m' root (index_at va LEVELS) = Some e' ∧ present e' = false) as (e' & He' & Hp).
  { destruct (present e) eqn:Hpr.
    - exists 0. split; [|done]. apply (fd_clear _ _ _ _ _ HF _ [] root); [|done]. apply (fd_exact _ _ _ _ _ HF). split.
      + exists [], (index_at va LEVELS). split; [done|lia].
      + exists (pte_phys e), (index_at va LEVELS), [], root, e. split_and!; [done|by constructor|done|done|done|done].
    - exists e. split; [|done]. rewrite (fd_same _ _ _ _ _ HF); [done|lia|]. intros p Hp Hin.
      assert (p = []) as -> by (by eapply wf_inj). apply (fd_exact _ _ _ _ _ HF) in Hin as [_ [x Hx]].
      destruct Hx as (i & p & a & e2 & [= <- <-] & _ & Ha & He2 & Hpr2 & _). congruence. }
  unfold translate. change LEVELS with 4%nat in *. cbn [translate_walk]. rewrite (read_after [] root _ e' Hroot Hi He'). cbn [obind].
  unfold present in Hp. by rewrite Hp.
Qed.

(** Every other address is mapped as before. *)
Lemma kernel_same_walk va l a : (l ≤ LEVELS)%nat → 256 ≤ index_at va LEVELS → T !! path_to va l = Some a →
  translate_walk l va a m' = translate_walk l va a m0.
Proof.
  intros Hl Hva. revert a. induction l as [|l IH]; intros a Ha; [done|]. pose proof (index_at_range va (S l)) as Hi.
  destruct (look_some root T m0 _ a _ HW Ha Hi) as (e & He & Hr). cbn [translate_walk]. rewrite Hr.
  rewrite (read_after _ a _ e Ha Hi).
  2: { rewrite (fd_same _ _ _ _ _ HF); [done|lia|]. intros p Hp Hin. assert (p = path_to va (S l)) as -> by (by eapply wf_inj).
       apply (fd_exact _ _ _ _ _ HF) in Hin as [HU _]. rewrite <-path_to_S in HU by lia. apply user_top in HU; lia. }
  cbn [obind]. destruct (negb (contains (pte_flags e) PRESENT)) eqn:Epr; [done|]. destruct (leaf_entry e (S l)) eqn:El; [done|].
  apply IH; [lia|]. rewrite path_to_S by lia. rewrite (wf_child _ _ _ HW _ a _ e Ha Hi He), path_to_length.
  replace (LEVELS - (LEVELS - S l))%nat with (S l) by lia. unfold interior, present. apply negb_false_iff in Epr. by rewrite Epr, El.
Qed.
Lemma kernel_same va : 256 ≤ index_at va LEVELS → translate root va m' = translate root va m0.
Proof. intros Hva. apply kernel_same_walk; [done|done|]. rewrite path_to_root. apply (wf_root _ _ _ HW). Qed.

(** With each frame held by one entry, no frame is freed twice. *)
Lemma frames_once : (∀ q q' x, user q → user q' → entry q x → entry q' x → q = q') → NoDup fr.
Proof.
  intros Hinj. pose proof (fd_frames _ _ _ _ _ HF) as H2. pose proof (fd_nodup _ _ _ _ _ HF) as Hnd.
  assert (HU : ∀ q, q ∈ qs → user q) by (intros q Hq; by apply (fd_exact _ _ _ _ _ HF) in Hq as [? _]).
  clear HF. revert Hnd HU. induction H2 as [|q x qs' fr' Hx H2 IH]; intros Hnd HU; [constructor|].
  apply NoDup_cons in Hnd as [Hni Hnd]. constructor; [|apply IH; [done|set_solver]]. intros Hin. apply Hni.
  apply list_elem_of_lookup in Hin as [k Hk]. destruct (Forall2_lookup_r _ _ _ _ _ H2 Hk) as (q' & Hq' & Hx').
  apply list_elem_of_lookup_2 in Hq'. rewrite (Hinj q q' x); [done|set_solver|set_solver|done|done].
Qed.

Lemma frames_exact x : x ∈ fr ↔ ∃ q, user q ∧ entry q x.
Proof.
  pose proof (fd_frames _ _ _ _ _ HF) as H2. split.
  - intros [k Hk]%list_elem_of_lookup. destruct (Forall2_lookup_r _ _ _ _ _ H2 Hk) as (q & Hq & Hx).
    apply list_elem_of_lookup_2 in Hq. apply (fd_exact _ _ _ _ _ HF) in Hq as [? _]. by exists q.
  - intros (q & HU & Hx). assert (Hq : q ∈ qs) by (apply (fd_exact _ _ _ _ _ HF); eauto).
    apply list_elem_of_lookup in Hq as [k Hk]. destruct (Forall2_lookup_l _ _ _ _ _ H2 Hk) as (y & Hy & Hxy).
    rewrite (entry_fun _ _ _ Hx Hxy). by apply list_elem_of_lookup_2 in Hy.
Qed.
End After.
End Teardown.
