(* ===== verification/AddrSpace.v ===== *)
(** * User address spaces (src/crates/core/src/proc/addr_space/mod.rs)

    The definitions of this file are the code of [proc/addr_space/mod.rs]: the
    user half of a root table with its region slots, the counts of its frames
    and the program break.  Calls that change pages thread the space, memory and
    the frame allocator; [events] is what the [flush] and [free_frame] calls did,
    in order.  A region's [core] reference is of any type [C]. *)

From stdpp Require Import base gmap list numbers strings.
From S2P Require Import Prelude Kerror Paging.
Import Paging.

Local Open Scope Z_scope.

Module AddrSpace.

Definition PROT_READ : Z := 0x1.
Definition PROT_WRITE : Z := 0x2.
Definition PROT_EXEC : Z := 0x4.
Definition MAP_SHARED : Z := 0x1.
Definition MAP_PRIVATE : Z := 0x2.
Definition MAP_TYPE : Z := 0xf.
Definition MAP_FIXED : Z := 0x10.
Definition MAP_ANONYMOUS : Z := 0x20.
Definition MAP_NORESERVE : Z := 0x4000.
Definition MAP_POPULATE : Z := 0x8000.
Definition MAP_STACK : Z := 0x20000.
Definition MAP_FIXED_NOREPLACE : Z := 0x100000.
Definition MAP_ACCEPTED : Z :=
  Z.lor (Z.lor (Z.lor (Z.lor (Z.lor (Z.lor MAP_TYPE MAP_FIXED) MAP_ANONYMOUS) MAP_NORESERVE) MAP_POPULATE) MAP_STACK)
    MAP_FIXED_NOREPLACE.
Definition MMAP_TOP : Z := USER_MAP_END - Z.shiftl 128 20.
Definition MAX_REGIONS : nat := 256.

Record UserPerms := mkPerms { write : bool; exec : bool }.
#[global] Instance UserPerms_eq_dec : EqDecision UserPerms.
Proof. solve_decision. Defined.
Definition RW : UserPerms := mkPerms true false.
Definition perms_flags (p : UserPerms) : Z := user_leaf_flags (write p) (exec p).

Inductive Backing := Anonymous | Reserved.
#[global] Instance Backing_eq_dec : EqDecision Backing.
Proof. solve_decision. Defined.

Inductive AsError :=
  | Misaligned | Overflow | KernelRange | NullGuard | Overlap | OutOfFrames | AlreadyMapped | NoRegionSlot
  | NotMapped | NoVaSpace | Map (e : MapError).

Definition kerror_of_as (e : AsError) : Kerror.KError :=
  match e with
  | Misaligned | Overflow | KernelRange | NotMapped => Kerror.Inval
  | NullGuard => Kerror.Perm
  | Overlap | AlreadyMapped => Kerror.Exist
  | OutOfFrames | NoRegionSlot | NoVaSpace => Kerror.NoMem
  | Map m => kerror_of_map m
  end.

Inductive BrkPlan := Current | SamePage | Grow (va len : Z) | Shrink (va len : Z).
Inductive Fixed := No | Replace | NoReplace.
Record MmapReq := mkReq { addr : Z; req_len : Z; req_perms : option UserPerms; fixed : Fixed }.
Inductive MmapError := Inval | NoMem | NotAnon.
Definition kerror_of_mmap (e : MmapError) : Kerror.KError :=
  match e with Inval => Kerror.Inval | NoMem => Kerror.NoMem | NotAnon => Kerror.NoDev end.

Inductive UserMemError := NonCanonical | Kernel | MemOverflow | Unmapped | MemNullGuard.

Definition checked_sub (a b : Z) : option Z := if b <=? a then Some (a - b) else None.
Definition is_multiple_of (x n : Z) : bool := x mod n =? 0.

(** [UserMemError::refused] *)
Definition refused (ptr len : Z) : UserMemError :=
  if len =? 0 then if is_canonical ptr then Kernel else NonCanonical
  else
    match checked_add 64 ptr len with
    | None => MemOverflow
    | Some end_ =>
        if negb (is_canonical ptr) || negb (is_canonical (wrapping_sub 64 end_ 1)) then NonCanonical
        else if (USER_MAP_END <=? ptr) || (USER_MAP_END <? end_) then Kernel
        else MemNullGuard
    end.

(** [uaccess::user_range_ok] *)
Definition user_range_ok (addr len : Z) : bool :=
  if len =? 0 then addr <? USER_MAP_END
  else
    match checked_add 64 addr len with
    | Some end_ => (NULL_GUARD_LEN <=? addr) && (end_ <=? USER_MAP_END)
    | None => false
    end.

Definition page_up (x : Z) : option Z :=
  match checked_add 64 x (PAGE_SIZE_4K - 1) with
  | Some y => Some (Z.land y (notw 64 (PAGE_SIZE_4K - 1)))
  | None => None
  end.

Definition mmap_request (addr len prot flags off : Z) : MmapReq + MmapError :=
  if negb (is_multiple_of off PAGE_SIZE_4K) then inr Inval
  else if Z.land flags MAP_ANONYMOUS =? 0 then inr NotAnon
  else if len =? 0 then inr Inval
  else if negb (Z.land flags MAP_TYPE =? MAP_PRIVATE) || negb (Z.land flags (notw 64 MAP_ACCEPTED) =? 0) then inr Inval
  else if negb (Z.land prot (notw 64 (Z.lor (Z.lor PROT_READ PROT_WRITE) PROT_EXEC)) =? 0) then inr Inval
  else
    match page_up len with
    | None => inr NoMem
    | Some len =>
        if negb (len <=? USER_MAP_END) then inr NoMem
        else
          let fixed :=
            if negb (Z.land flags MAP_FIXED_NOREPLACE =? 0) then NoReplace
            else if negb (Z.land flags MAP_FIXED =? 0) then Replace else No in
          if match fixed with No => false | _ => true end && negb (is_multiple_of addr PAGE_SIZE_4K) then inr Inval
          else
            inl (mkReq addr len
              (if prot =? 0 then None
               else Some (mkPerms (negb (Z.land prot PROT_WRITE =? 0)) (negb (Z.land prot PROT_EXEC =? 0)))) fixed)
    end.

Definition check_map_range (va len : Z) : unit + AsError :=
  if len =? 0 then inl tt
  else if negb (is_multiple_of va PAGE_SIZE_4K) || negb (is_multiple_of len PAGE_SIZE_4K) then inr Misaligned
  else
    match checked_add 64 va len with
    | None => inr Overflow
    | Some end_ =>
        if va <? NULL_GUARD_LEN then inr NullGuard
        else if (USER_MAP_END <=? va) || (USER_MAP_END <? end_) then inr KernelRange
        else if negb (is_canonical va) || negb (is_canonical (end_ - 1)) then inr KernelRange
        else inl tt
    end.

(** ** The space *)
Section space.
Context {C : Type}.

Record Region := mkRegion { start : Z; len : Z; perms : UserPerms; backing : Backing; core : C }.

Record AddressSpace := mkSpace {
  root : Z;
  regions : list (option Region);
  user_frames : Z;
  pt_frames : Z;
  brk_start : Z;
  brk : Z
}.

Definition set_regions (rs : list (option Region)) (s : AddressSpace) : AddressSpace :=
  mkSpace (root s) rs (user_frames s) (pt_frames s) (brk_start s) (brk s).
Definition set_frames (u p : Z) (s : AddressSpace) : AddressSpace :=
  mkSpace (root s) (regions s) u p (brk_start s) (brk s).

(** The regions in the slots, [iter().flatten()]. *)
Definition flatten (rs : list (option Region)) : list Region := omap id rs.
Definition slot_free (r : option Region) : bool := match r with None => true | Some _ => false end.
Definition r_end (r : Region) : Z := saturating_add 64 (start r) (len r).

Definition overlaps (va len : Z) (s : AddressSpace) : bool :=
  let end_ := saturating_add 64 va len in
  existsb (λ r, (va <? r_end r) && (start r <? end_)) (flatten (regions s)).

Definition check_new_region (va len : Z) (s : AddressSpace) : unit + AsError :=
  match check_map_range va len with
  | inr e => inr e
  | inl _ =>
      if overlaps va len s then inr Overlap
      else if negb (existsb slot_free (regions s)) then inr NoRegionSlot
      else inl tt
  end.

(** [find] the first free slot and fill it. *)
Fixpoint fill_slot (r : Region) (rs : list (option Region)) : option (list (option Region)) :=
  match rs with
  | [] => None
  | None :: rs => Some (Some r :: rs)
  | Some r' :: rs => match fill_slot r rs with Some rs => Some (Some r' :: rs) | None => None end
  end.
Definition insert_region (r : Region) (s : AddressSpace) : (unit + AsError) * AddressSpace :=
  match fill_slot r (regions s) with
  | Some rs => (inl tt, set_regions rs s)
  | None => (inr NoRegionSlot, s)
  end.

(** ** The break *)
Definition set_brk_start (va : Z) (s : AddressSpace) : AddressSpace :=
  let start := match page_up va with Some x => x | None => USER_MAP_END end in
  mkSpace (root s) (regions s) (user_frames s) (pt_frames s) start start.
Definition set_brk (want : Z) (s : AddressSpace) : AddressSpace :=
  mkSpace (root s) (regions s) (user_frames s) (pt_frames s) (brk_start s) want.

Definition brk_plan (want : Z) (s : AddressSpace) : BrkPlan :=
  if (brk_start s =? 0) || (want =? 0) || (want <? brk_start s) || (USER_MAP_END <? want) then Current
  else
    match page_up (brk s), page_up want with
    | Some top, Some new_top =>
        if new_top =? top then SamePage
        else if top <? new_top then
          if overlaps top (new_top - top) s then Current else Grow top (new_top - top)
        else Shrink new_top (top - new_top)
    | _, _ => Current
    end.

Definition is_heap (s : AddressSpace) (top : Z) (r : option Region) : bool :=
  match r with
  | Some r => (brk_start s <=? start r) && (r_end r =? top) && bool_decide (backing r = Anonymous) && bool_decide (perms r = RW)
  | None => false
  end.
(** [position] *)
Fixpoint position {A} (f : A → bool) (l : list A) : option Z :=
  match l with
  | [] => None
  | x :: l => if f x then Some 0 else match position f l with Some i => Some (i + 1) | None => None end
  end.
Definition heap_slot (top : Z) (s : AddressSpace) : option Z := position (is_heap s top) (regions s).

Definition heap_grow_check (va len : Z) (s : AddressSpace) : unit + AsError :=
  match check_map_range va len with
  | inr e => inr e
  | inl _ =>
      if overlaps va len s then inr Overlap
      else if match heap_slot va s with None => true | Some _ => false end && negb (existsb slot_free (regions s)) then inr NoRegionSlot
      else inl tt
  end.

Definition heap_grow_commit (va n want : Z) (c : C) (s : AddressSpace) : outcome ((unit + AsError) * AddressSpace) :=
  match heap_slot va s with
  | Some i =>
      slot <~ index (regions s) i;;
      match slot with
      | Some r =>
          match checked_add 64 (len r) n with
          | None => Ret (inr Overflow, s)
          | Some l =>
              rs <~ store (regions s) i (Some (mkRegion (start r) l (perms r) (backing r) (core r)));;
              Ret (inl tt, set_brk want (set_regions rs s))
          end
      | None => Ret (inl tt, set_brk want s)
      end
  | None =>
      match insert_region (mkRegion va n RW Anonymous c) s with
      | (inr e, s) => Ret (inr e, s)
      | (inl _, s) => Ret (inl tt, set_brk want s)
      end
  end.

(** ** Placement *)

(** The lowest start of the regions that meet [[start, end)]. *)
Definition meets (s e : Z) (r : Region) : bool := (start r <? e) && (s <? r_end r).
Definition min_start (rs : list Region) : option Z :=
  foldr (λ r acc, match acc with None => Some (start r) | Some m => Some (Z.min (start r) m) end) None rs.

(** Each turn moves [end] below a region, so one more than the regions are enough. *)
Fixpoint place_below (n : nat) (length_ end_ : Z) (rs : list Region) : outcome (Z + AsError) :=
  match n with
  | O => NoFuel
  | S n =>
      match checked_sub end_ length_ with
      | None => Ret (inr NoVaSpace)
      | Some st =>
          if negb (NULL_GUARD_LEN <=? st) then Ret (inr NoVaSpace)
          else
            match min_start (List.filter (meets st end_) rs) with
            | None => Ret (inl st)
            | Some e => place_below n length_ e rs
            end
      end
  end.

Definition mmap_place (req : MmapReq) (s : AddressSpace) : outcome (Z + AsError) :=
  let n := req_len req in
  match fixed req with
  | Replace | NoReplace =>
      if addr req <? NULL_GUARD_LEN then Ret (inr NullGuard)
      else
        match checked_add 64 (addr req) n with
        | None => Ret (inr KernelRange)
        | Some end_ =>
            if USER_MAP_END <? end_ then Ret (inr KernelRange)
            else if overlaps (addr req) n s then Ret (inr Overlap)
            else Ret (inl (addr req))
        end
  | No =>
      let hint := Z.land (addr req) (notw 64 (PAGE_SIZE_4K - 1)) in
      if (NULL_GUARD_LEN <=? hint) &&
         match checked_add 64 hint n with
         | Some e => (e <=? USER_MAP_END) && negb (overlaps hint n s)
         | None => false
         end
      then Ret (inl hint)
      else place_below (S (length (flatten (regions s)))) n MMAP_TOP (flatten (regions s))
  end.

(** ** Pages *)
Context {F : Type} `{FrameAlloc F}.

Inductive event := Flush (va : Z) | Free (pa : Z).

(** What a call on a space changes. *)
Record world := mkWorld { space : AddressSpace; mem : memory; pool : F; events : list event }.

(** [Counting]: an allocator that counts the frames it hands out. *)
#[global, refine] Instance Counting : FrameAlloc (F * Z) := {|
  alloc_frame c := match alloc_frame (fst c) with (Some p, f) => (Some p, (f, snd c + 1)) | (None, f) => (None, (f, snd c)) end;
  free_frame c p := (free_frame (fst c) p, snd c);
  held_frames c := held_frames (fst c)
|}.
Proof.
  - intros [f n] p [f' n']. cbn. destruct (alloc_frame f) as [[q|] g] eqn:E; [|done]. intros [= <- <- <-]. by apply alloc_some.
  - intros [f n] [f' n']. cbn. destruct (alloc_frame f) as [[q|] g] eqn:E; [done|]. intros [= <- <-]. by apply alloc_none.
  - intros [f n] p Hp. by apply free_held.
Defined.

Definition free_to (pa : Z) (w : world) : world :=
  mkWorld (space w) (mem w) (free_frame (pool w) pa) (events w ++ [Free pa]).

(** [unmap_pages]; [flush] is the caller's closure, as the events it makes. *)
Fixpoint unmap_from (n : nat) (flush : Z → list event) (va length_ off : Z) (w : world)
    : outcome ((unit + AsError) * world) :=
  match n with
  | O => NoFuel
  | S n =>
      if off <? length_ then
        page <~ addc 64 va off;;
        t <~ translate (root (space w)) page (mem w);;
        match t with
        | Some (_, Size2M, _) => Ret (inr (Map PageSizeMismatch), w)
        | None => off <~ addc 64 off PAGE_SIZE_4K;; unmap_from n flush va length_ off w
        | Some (_, Size4K, _) =>
            r <~ unmap_page (root (space w)) page (mem w);;
            let '(r, m) := r in
            let w := mkWorld (space w) m (pool w) (events w) in
            let w :=
              match r with
              | None => w
              | Some (pa, _) =>
                  let w := free_to pa (mkWorld (space w) m (pool w) (events w ++ flush page)) in
                  let s := space w in
                  mkWorld (set_frames (saturating_sub (user_frames s) 1) (pt_frames s) s) (mem w) (pool w) (events w)
              end in
            off <~ addc 64 off PAGE_SIZE_4K;;
            unmap_from n flush va length_ off w
        end
      else Ret (inl tt, w)
  end.
Definition unmap_pages (flush : Z → list event) (va n : Z) (w : world) : outcome ((unit + AsError) * world) :=
  match check_map_range va n with
  | inr e => Ret (inr e, w)
  | inl _ => unmap_from (S (Z.to_nat (n / 4096 + 1))) flush va n 0 w
  end.
Definition no_flush : Z → list event := λ _, [].

Definition as_of_map (e : MapError) : AsError :=
  match e with Paging.OutOfFrames => OutOfFrames | Paging.AlreadyMapped => AlreadyMapped | e => Map e end.

(** The end of a failed [map_pages]: every leaf this call mapped goes back. *)
Definition map_failed (va mapped : Z) (e : AsError) (w : world) : outcome ((unit + AsError) * world) :=
  r <~ unmap_pages no_flush va mapped w;;
  let '(r, w) := r in
  match r with inr e' => Ret (inr e', w) | inl _ => Ret (inr e, w) end.

Fixpoint map_pages_from (n : nat) (va length_ flags mapped : Z) (w : world) : outcome ((unit + AsError) * world) :=
  match n with
  | O => NoFuel
  | S n =>
      if mapped <? length_ then
        page <~ addc 64 va mapped;;
        match alloc_frame (pool w) with
        | (None, f) => map_failed va mapped OutOfFrames (mkWorld (space w) (mem w) f (events w))
        | (Some pa, f) =>
            r <~ map_page (root (space w)) page pa flags Size4K Fresh (mem w) (f, 0);;
            let '(rc, m, (f, n_pt)) := r in
            pt <~ addc 64 (pt_frames (space w)) n_pt;;
            let w := mkWorld (set_frames (user_frames (space w)) pt (space w)) m f (events w) in
            match rc with
            | inl _ =>
                u <~ addc 64 (user_frames (space w)) 1;;
                mapped <~ addc 64 mapped PAGE_SIZE_4K;;
                map_pages_from n va length_ flags mapped
                  (mkWorld (set_frames u (pt_frames (space w)) (space w)) (mem w) (pool w) (events w))
            | inr e => map_failed va mapped (as_of_map e) (free_to pa w)
            end
        end
      else Ret (inl tt, w)
  end.
Definition map_pages (va n : Z) (p : UserPerms) (w : world) : outcome ((unit + AsError) * world) :=
  match check_map_range va n with
  | inr e => Ret (inr e, w)
  | inl _ => map_pages_from (S (Z.to_nat (n / 4096 + 1))) va n (perms_flags p) 0 w
  end.

Definition on_space (s : AddressSpace) (w : world) : world := mkWorld s (mem w) (pool w) (events w).

Definition map_anon (va n : Z) (p : UserPerms) (c : C) (w : world) : outcome ((unit + AsError) * world) :=
  match check_new_region va n (space w) with
  | inr e => Ret (inr e, w)
  | inl _ =>
      r <~ map_pages va n p w;;
      let '(r, w) := r in
      match r with
      | inr e => Ret (inr e, w)
      | inl _ =>
          match insert_region (mkRegion va n p Anonymous c) (space w) with
          | (inl _, s) => Ret (inl tt, on_space s w)
          | (inr e, _) => map_failed va n e w
          end
      end
  end.

(** ** munmap *)

(** What is left of a region when [[va, end)] goes. *)
Definition trim (va end_ : Z) (r : Region) : option Region * option Region :=
  let below := if start r <? va then Some (va - start r) else None in
  let above := if end_ <? r_end r then Some (r_end r - end_) else None in
  match below, above with
  | Some lo, Some hi =>
      (Some (mkRegion (start r) lo (perms r) (backing r) (core r)), Some (mkRegion end_ hi (perms r) (backing r) (core r)))
  | Some lo, None => (Some (mkRegion (start r) lo (perms r) (backing r) (core r)), None)
  | None, Some hi => (Some (mkRegion end_ hi (perms r) (backing r) (core r)), None)
  | None, None => (None, None)
  end.

(** The loop over the slots from [i] on; [n] is how many are left. *)
Fixpoint unmap_regions (n : nat) (flush : Z → list event) (va end_ i : Z) (w : world) : outcome ((unit + AsError) * world) :=
  match n with
  | O => Ret (inl tt, w)
  | S n =>
      slot <~ index (regions (space w)) i;;
      match slot with
      | None => unmap_regions n flush va end_ (i + 1) w
      | Some r =>
          if (r_end r <=? va) || (end_ <=? start r) then unmap_regions n flush va end_ (i + 1) w
          else
            let lo := Z.max (start r) va in
            let hi := Z.min (r_end r) end_ in
            x <~ (if bool_decide (backing r = Reserved) then Ret (inl tt, w)
                  else d <~ subc 64 hi lo;; unmap_pages flush lo d w);;
            let '(x, w) := x in
            match x with
            | inr e => Ret (inr e, w)
            | inl _ =>
                let '(keep, up) := trim va end_ r in
                rs <~ store (regions (space w)) i keep;;
                let s := set_regions rs (space w) in
                match up with
                | None => unmap_regions n flush va end_ (i + 1) (on_space s w)
                | Some up =>
                    match insert_region up s with
                    | (inl _, s) => unmap_regions n flush va end_ (i + 1) (on_space s w)
                    | (inr e, s) => Ret (inr e, on_space s w)
                    end
                end
            end
      end
  end.

Definition unmap_free (flush : Z → list event) (va n : Z) (w : world) : outcome ((unit + AsError) * world) :=
  if negb (is_multiple_of va PAGE_SIZE_4K) || negb (is_multiple_of n PAGE_SIZE_4K) then Ret (inr Misaligned, w)
  else
    match checked_add 64 va n with
    | None => Ret (inr Overflow, w)
    | Some end_ =>
        if USER_MAP_END <? end_ then Ret (inr KernelRange, w)
        else if n =? 0 then Ret (inl tt, w)
        else
          let split := existsb (λ r, (start r <? va) && (end_ <? r_end r)) (flatten (regions (space w))) in
          if split && negb (existsb slot_free (regions (space w))) then Ret (inr NoRegionSlot, w)
          else unmap_regions (length (regions (space w))) flush va end_ 0 w
    end.

(** ** The life of a space *)
Record TeardownStats := mkStats { freed_user : Z; freed_pt : Z }.

(** [AddressSpace::new] over a zeroed root with the kernel's half. *)
Definition new (kernel_root root : Z) (rs : option (list (option Region))) (m : memory) : outcome (option AddressSpace * memory) :=
  match rs with
  | None => Ret (None, m)
  | Some rs =>
      m <~ zero_frame m root;;
      m <~ copy_kernel_half_from root kernel_root m;;
      Ret (Some (mkSpace root rs 0 1 0 0), m)
  end.

Definition teardown (w : world) : outcome (TeardownStats * world) :=
  r <~ free_user_half (root (space w)) (mem w);;
  let '(freed, m, st) := r in
  let s := set_regions (map (λ _, None) (regions (space w))) (set_frames 0 1 (space w)) in
  Ret (mkStats (leaves st) (tables st),
       mkWorld s m (foldl free_frame (pool w) freed) (events w ++ map Free freed)).

(** [check_user_range] *)
Fixpoint user_mapped_from (n : nat) (rt va end_ : Z) (m : memory) : outcome (unit + UserMemError) :=
  match n with
  | O => NoFuel
  | S n =>
      if va <? end_ then
        p <~ probe rt va m;;
        match p with
        | Skip _ => Ret (inr Unmapped)
        | Mapped _ size flags =>
            if negb (contains flags USER) then Ret (inr Unmapped)
            else
              let span := bytes size in
              let next := saturating_add 64 (Z.land va (notw 64 (span - 1))) span in
              if next <=? va then Ret (inl tt) else user_mapped_from n rt next end_ m
        end
      else Ret (inl tt)
  end.
Definition check_user_range (ptr n : Z) (s : AddressSpace) (m : memory) : outcome (unit + UserMemError) :=
  if negb (user_range_ok ptr n) then Ret (inr (refused ptr n))
  else if n =? 0 then Ret (inl tt)
  else user_mapped_from (S (Z.to_nat (n / 4096 + 2))) (root s) ptr (wrapping_add 64 ptr n) m.
End space.
Arguments Region : clear implicits.
Arguments AddressSpace : clear implicits.
Arguments world : clear implicits.

End AddrSpace.
