(* ===== verification/AddrSpacePlace.v ===== *)
(** * Where [mmap] puts a mapping

    [place_below] walks down past the regions in its way; it is shown to return,
    and to find the highest free range there is. *)

From stdpp Require Import base gmap list numbers.
From S2P Require Import Prelude Paging AddrSpace.
Import Paging AddrSpace.

Local Open Scope Z_scope.

Section place.
Context {C : Type}.
Implicit Types (rs : list (Region C)) (r : Region C).

(** No region meets [[s, s + n)]. *)
Definition range_free (rs : list (Region C)) (s n : Z) : Prop := ∀ r, r ∈ rs → meets s (s + n) r = false.

Lemma meets_true s e r : meets s e r = true ↔ start r < e ∧ s < r_end r.
Proof. unfold meets. rewrite andb_true_iff, !Z.ltb_lt. done. Qed.
Lemma meets_false s e r : meets s e r = false ↔ ¬ (start r < e ∧ s < r_end r).
Proof. rewrite <-meets_true. by destruct (meets s e r). Qed.

Lemma min_start_none rs : min_start rs = None → rs = [].
Proof. destruct rs as [|r rs]; [done|]. cbn. by destruct (foldr _ _ _). Qed.
Lemma min_start_some rs m : min_start rs = Some m → ∃ r, r ∈ rs ∧ start r = m.
Proof.
  revert m. induction rs as [|r rs IH]; intros m; [done|]. cbn [min_start foldr]. fold (min_start rs).
  destruct (min_start rs) as [m'|]; intros [= <-]; [|exists r; split; [left|done]].
  destruct (Z.min_spec (start r) m') as [[_ ->]|[_ ->]]; [exists r; split; [left|done]|].
  destruct (IH m' eq_refl) as (r' & ? & ?). exists r'. split; [by right|done].
Qed.

Definition below (e : Z) (rs : list (Region C)) : list (Region C) := List.filter (λ r, start r <? e) rs.

Lemma below_le e rs : (length (below e rs) ≤ length rs)%nat.
Proof. unfold below. induction rs as [|r rs IH]; cbn; [done|]. destruct (start r <? e); cbn; lia. Qed.
Lemma below_lt e e' rs r : r ∈ rs → start r = e' → e' < e → (length (below e' rs) < length (below e rs))%nat.
Proof.
  intros Hin <- Hlt. induction rs as [|r' rs IH]; [by apply not_elem_of_nil in Hin|].
  assert (length (below (start r) rs) ≤ length (below e rs))%nat as Hmono.
  { clear IH Hin. unfold below. induction rs as [|r'' rs IH]; cbn; [done|].
    destruct (Z.ltb_spec (start r'') (start r)), (Z.ltb_spec (start r'') e); cbn; lia. }
  unfold below in *. cbn. apply elem_of_cons in Hin as [<-|Hin].
  - destruct (Z.ltb_spec (start r) (start r)); [lia|]. destruct (Z.ltb_spec (start r) e); [cbn; lia|lia].
  - specialize (IH Hin). destruct (Z.ltb_spec (start r') (start r)), (Z.ltb_spec (start r') e); cbn; lia.
Qed.

(** What a walk down from [end_] finds, when nothing above [end_] is free. *)
Definition highest (rs : list (Region C)) (n top : Z) (res : Z + AsError) : Prop :=
  match res with
  | inl s => NULL_GUARD_LEN ≤ s ∧ s + n ≤ top ∧ range_free rs s n ∧ (∀ s', s < s' → s' + n ≤ top → ¬ range_free rs s' n)
  | inr e => e = NoVaSpace ∧ ∀ s', NULL_GUARD_LEN ≤ s' → s' + n ≤ top → ¬ range_free rs s' n
  end.

Lemma place_below_spec k rs n top end_ :
  0 < n → end_ ≤ top → (length (below end_ rs) < k)%nat → (∀ s', end_ < s' + n → s' + n ≤ top → ¬ range_free rs s' n) →
  ∃ res, place_below k n end_ rs = Ret res ∧ highest rs n top res.
Proof.
  intros Hn. assert (0 < NULL_GUARD_LEN) by (vm_compute; done). revert end_. induction k as [|k IH]; intros e He Hk Hall; [lia|]. cbn [place_below]. unfold checked_sub.
  assert (∀ s', NULL_GUARD_LEN ≤ s' → e - n < NULL_GUARD_LEN → s' + n ≤ top → ¬ range_free rs s' n) as Hno by (intros; apply Hall; lia).
  destruct (Z.leb_spec n e); [|eexists; split; [done|]; split; [done|]; intros; apply Hno; lia].
  destruct (Z.leb_spec NULL_GUARD_LEN (e - n)); cbn [negb]; [|eexists; split; [done|]; split; [done|]; auto].
  destruct (min_start (List.filter (meets (e - n) e) rs)) as [m|] eqn:Em.
  - apply min_start_some in Em as (r & Hin & Hr). apply list_elem_of_In, filter_In in Hin as [Hin [Hm1 Hm2]%meets_true]. apply list_elem_of_In in Hin.
    apply IH; [lia| |].
    + pose proof (below_lt e m rs r Hin Hr). lia.
    + intros s' Hlo Hhi Hf. destruct (Z.le_gt_cases (s' + n) e) as [Hle|]; [|by apply (Hall s')].
      specialize (Hf r Hin). apply meets_false in Hf. apply Hf. lia.
  - apply min_start_none in Em. eexists. split; [done|]. split; [done|]. split; [lia|]. split.
    + intros r Hin. replace (e - n + n) with e by lia. destruct (meets (e - n) e r) eqn:E; [|done].
      assert (r ∈ List.filter (meets (e - n) e) rs) as Hx by (by apply list_elem_of_In, filter_In; split; [apply list_elem_of_In|]).
      rewrite Em in Hx. by apply not_elem_of_nil in Hx.
    + intros s' Hs' Ht. apply Hall; lia.
Qed.

(** The code's overlap test is the range test, below the saturation. *)
Lemma overlaps_free (s : AddressSpace C) va n :
  0 ≤ va → va + n < 2 ^ 64 → overlaps va n s = false ↔ range_free (flatten (regions s)) va n.
Proof.
  intros Hva Hn. unfold overlaps, range_free.
  rewrite <-not_true_iff_false, existsb_exists. setoid_rewrite meets_false.
  assert (saturating_add 64 va n = va + n) as -> by (unfold saturating_add; lia). split.
  - intros Hno r Hr Hm. apply Hno. exists r. split; [by apply list_elem_of_In|]. rewrite andb_true_iff, !Z.ltb_lt. lia.
  - intros Hf (r & Hr%list_elem_of_In & Hm). rewrite andb_true_iff, !Z.ltb_lt in Hm. apply (Hf r Hr). lia.
Qed.

(** A hint the code takes: its page is free and inside the user half. *)
Definition page_of (a : Z) : Z := a - a mod 4096.
Definition hint_free (s : AddressSpace C) (req : MmapReq) : Prop :=
  NULL_GUARD_LEN ≤ page_of (addr req) ∧ page_of (addr req) + req_len req ≤ USER_MAP_END ∧
  range_free (flatten (regions s)) (page_of (addr req)) (req_len req).

(** The answer to a fixed request. *)
Definition fixed_answer (s : AddressSpace C) (a n : Z) (res : Z + AsError) : Prop :=
  match res with
  | inl a' => a' = a ∧ NULL_GUARD_LEN ≤ a ∧ a + n ≤ USER_MAP_END ∧ range_free (flatten (regions s)) a n
  | inr e => (e = NullGuard ∧ a < NULL_GUARD_LEN) ∨ (e = KernelRange ∧ USER_MAP_END < a + n) ∨
             (e = Overlap ∧ ¬ range_free (flatten (regions s)) a n)
  end.

Lemma fixed_place (s : AddressSpace C) a n :
  0 ≤ a → 0 < n → ∃ res,
    (if a <? NULL_GUARD_LEN then Ret (inr NullGuard)
     else match checked_add 64 a n with
          | None => Ret (inr KernelRange)
          | Some end_ => if USER_MAP_END <? end_ then Ret (inr KernelRange)
                         else if overlaps a n s then Ret (inr Overlap) else Ret (inl a)
          end) = Ret res ∧ fixed_answer s a n res.
Proof.
  intros Ha Hn. assert (USER_MAP_END < 2 ^ 63) as Hend by (vm_compute; done). unfold checked_add, fixed_answer.
  destruct (Z.ltb_spec a NULL_GUARD_LEN); [eexists; split; [done|]; by left|].
  destruct (Z.ltb_spec (a + n) (2 ^ 64)); [|eexists; split; [done|]; right; left; split; [done|lia]].
  destruct (Z.ltb_spec USER_MAP_END (a + n)); [eexists; split; [done|]; right; left; split; [done|lia]|].
  pose proof (overlaps_free s a n Ha ltac:(lia)) as Ho. destruct (overlaps a n s); (eexists; split; [done|]).
  - do 2 right. split; [done|]. intros Hf. by apply Ho in Hf.
  - split_and!; [done|lia|lia|by apply Ho].
Qed.

(** [mmap_place] returns for every request.  A fixed request gets its own
    address exactly when that range is inside the user half and free.  Another
    gets its hint's page when that is free, and otherwise the highest free range
    below [MMAP_TOP]; [NoVaSpace] means no range there is free. *)
Theorem mmap_place_highest (s : AddressSpace C) req :
  u64 (addr req) → 0 < req_len req ≤ USER_MAP_END →
  ∃ res, mmap_place req s = Ret res ∧
    match fixed req with
    | No => hint_free s req ∧ res = inl (page_of (addr req)) ∨
            ¬ hint_free s req ∧ highest (flatten (regions s)) (req_len req) MMAP_TOP res
    | _ => fixed_answer s (addr req) (req_len req) res
    end.
Proof.
  intros Ha Hn. unfold mmap_place. unfold u64, in_width in Ha.
  assert (USER_MAP_END < 2 ^ 63 ∧ 0 < NULL_GUARD_LEN) as [Hend Hgd] by (vm_compute; done).
  destruct (fixed req) eqn:Hfix.
  - replace (PAGE_SIZE_4K - 1) with (2 ^ 12 - 1) by done. rewrite land_notw by (unfold in_width; lia).
    change (2 ^ 12) with 4096. change (addr req - addr req mod 4096) with (page_of (addr req)).
    assert (0 ≤ page_of (addr req) ≤ addr req) as Hp by (unfold page_of; dlia).
    assert ((NULL_GUARD_LEN <=? page_of (addr req)) &&
      match checked_add 64 (page_of (addr req)) (req_len req) with
      | Some e => (e <=? USER_MAP_END) && negb (overlaps (page_of (addr req)) (req_len req) s) | None => false end = true ↔
      hint_free s req) as Hr.
    { unfold hint_free, checked_add. destruct (Z.ltb_spec (page_of (addr req) + req_len req) (2 ^ 64)) as [Hlt|].
      - rewrite !andb_true_iff, !Z.leb_le, negb_true_iff, overlaps_free by lia. done.
      - rewrite andb_false_r. split; [done|lia]. }
    destruct (_ && _); [eexists; split; [done|]; left; split; [by apply Hr|done]|].
    assert (¬ hint_free s req) as Hh by (intros Hh; by apply Hr in Hh).
    destruct (place_below_spec (S (length (flatten (regions s)))) (flatten (regions s)) (req_len req) MMAP_TOP MMAP_TOP) as (res & Hres & Hhi);
      [lia|lia|pose proof (below_le MMAP_TOP (flatten (regions s))); lia|intros; lia|]. exists res. split; [done|]. by right.
  - apply fixed_place; lia.
  - apply fixed_place; lia.
Qed.
End place.

Definition demo_req : MmapReq := mkReq 0 0x3000 None No.
Definition demo_space : AddressSpace unit :=
  mkSpace 0x1000 [Some (mkRegion (MMAP_TOP - 0x2000) 0x1000 RW Anonymous tt); None] 0 1 0 0.

Lemma mmap_place_highest_witness :
  ∃ res, mmap_place demo_req demo_space = Ret res ∧
    (hint_free demo_space demo_req ∧ res = inl (page_of 0) ∨
     ¬ hint_free demo_space demo_req ∧ highest (flatten (regions demo_space)) 0x3000 MMAP_TOP res).
Proof. apply (mmap_place_highest demo_space demo_req); [split; vm_compute; congruence|split; vm_compute; congruence]. Defined.
