(* ===== verification/AddrSpacePages.v ===== *)
(** * The pages of an address space

    [as_rep] says which frames a space owns: [leaves_of], a map from the pages of the user
    half to their frames, is what the tables translate; no frame is used twice,
    none is a table, and none is in the allocator.  [map_pages] and
    [unmap_pages] keep it: a failed [map_pages] leaves the same pages, and the
    frames of the space and the allocator together do not change in number. *)

From stdpp Require Import base gmap list numbers.
From S2P Require Import Prelude Paging PagingRep PagingSpec PagingProps AddrSpace AddrSpacePlace.
Import Paging AddrSpace.

Local Open Scope Z_scope.

(** ** What [map_page] does to the allocator and to memory's extent *)
Section frame.
Context {F : Type} `{FrameAlloc F}.

Lemma write_entry_dom m a i e m' p : write_entry m a i e = Ret m' → is_Some (m !! p) → is_Some (m' !! p).
Proof.
  unfold write_entry. destruct (m !! a) as [t|] eqn:E; [|done]. unfold store. case_match; [|done]. cbn. intros [= <-] Hp.
  destruct (decide (p = a)) as [->|]; [rewrite lookup_insert_eq; eauto|by rewrite lookup_insert_ne].
Qed.
Lemma zero_frame_dom m a m' p : zero_frame m a = Ret m' → is_Some (m !! p) → is_Some (m' !! p).
Proof.
  unfold zero_frame. destruct (m !! a) as [t|] eqn:E; [|done]. intros [= <-] Hp.
  destruct (decide (p = a)) as [->|]; [rewrite lookup_insert_eq; eauto|by rewrite lookup_insert_ne].
Qed.

Context (P : F → Prop) (HP : ∀ f r f', alloc_frame f = (r, f') → P f → P f').

Lemma ensure_tables_frame level leaf va table m f r m' f' :
  ensure_tables level leaf va table m f = Ret (r, m', f') →
  (P f → P f') ∧ ∀ p, is_Some (m !! p) → is_Some (m' !! p).
Proof.
  revert table m f. induction level as [|l IH]; intros table m f; cbn [ensure_tables]; [by intros [= <- <- <-]|].
  destruct (leaf <? S l)%nat; [|by intros [= <- <- <-]]. destruct (read_entry m table _) as [e| | |]; cbn [obind]; try done.
  destruct (negb _).
  - destruct (alloc_frame f) as [[new|] f1] eqn:Ha; [|intros [= <- <- <-]; eauto].
    destruct (zero_frame m new) as [m1| | |] eqn:Ez; cbn [obind]; try done.
    destruct (write_entry m1 table _ _) as [m2| | |] eqn:Ew; cbn [obind]; try done.
    intros [H1 H2]%IH. split; [eauto|]. intros p Hp. apply H2. eapply write_entry_dom; [done|]. by eapply zero_frame_dom.
  - destruct (contains (pte_flags e) HUGE); [by intros [= <- <- <-]|]. apply IH.
Qed.

Lemma map_page_frame root va pa fl size mode m f r m' f' :
  map_page root va pa fl size mode m f = Ret (r, m', f') →
  (P f → P f') ∧ ∀ p, is_Some (m !! p) → is_Some (m' !! p).
Proof.
  unfold map_page. destruct (negb (is_canonical va)); [by intros [= <- <- <-]|]. destruct (_ || _); [by intros [= <- <- <-]|].
  destruct (ensure_tables LEVELS (leaf_level size) va root m f) as [[[t m1] f1]| | |] eqn:E; cbn [obind]; try done.
  apply ensure_tables_frame in E as [E1 E2]. destruct t as [t|e]; [|by intros [= <- <- <-]].
  destruct (read_entry m1 t _) as [e| | |]; cbn [obind]; try done.
  assert (∀ e' (b : bool), (if b then Ret (inr PageSizeMismatch, m1, f1) else m2 <~ write_entry m1 t (index_at va (leaf_level size)) e';;
    Ret (inl tt, m2, f1)) = Ret (r, m', f') → (P f → P f') ∧ ∀ p, is_Some (m !! p) → is_Some (m' !! p)) as Hw.
  { intros e' [|]; [by intros [= <- <- <-]|]. destruct (write_entry _ _ _ _) as [m2| | |] eqn:Ew; cbn [obind]; try done.
    intros [= <- <- <-]. split; [done|]. intros p Hp. eapply write_entry_dom; [done|]. by apply E2. }
  destruct (contains (pte_flags e) PRESENT), mode; cbn [andb]; try (by intros [= <- <- <-]); first [apply (Hw _ false)|apply Hw].
Qed.
End frame.

(** ** Owned pages *)
Section pages.
Context {C F : Type} `{FrameAlloc F}.
Implicit Types (w : world C F) (L : gmap Z Z).

Definition held (w : world C F) : gset Z := held_frames (pool w).
(** The frames of the space and of the allocator. *)
Definition total (w : world C F) : Z := pt_frames (space w) + user_frames (space w) + Z.of_nat (size (held w)).

Record as_rep (T : gmap path Z) (V : view) (L : gmap Z Z) (w : world C F) : Prop := {
  ar_pt : pt_rep (root (space w)) T (mem w) (pool w) V;
  ar_leaf va : 0 ≤ va < USER_END →
    match L !! page_of va with
    | Some pa => ∃ fl, pages V va = Some (pa + va mod 4096, Size4K, fl)
    | None => pages V va = None
    end;
  ar_user page pa : L !! page = Some pa → 0 ≤ page < USER_END ∧ page mod 4096 = 0;
  ar_frame page pa : L !! page = Some pa →
    frame_ok pa ∧ is_Some (mem w !! pa) ∧ pa ∉ held w ∧ ∀ q, T !! q ≠ Some pa;
  ar_inj p q pa : L !! p = Some pa → L !! q = Some pa → p = q;
  ar_count : user_frames (space w) = Z.of_nat (size L);
  ar_total : 0 ≤ pt_frames (space w) ∧ total w < 2 ^ 64
}.

Lemma page_of_aligned a : a mod 4096 = 0 → page_of a = a.
Proof. unfold page_of. lia. Qed.

Lemma covers_page page va :
  0 ≤ page < USER_END → page mod 4096 = 0 → 0 ≤ va < USER_END → covers page Size4K va = bool_decide (page_of va = page).
Proof.
  intros Hp Ha Hv. unfold covers, page_of, USER_END in *. change (bytes Size4K) with 4096.
  rewrite !Z.mod_small by lia. apply Bool.eq_iff_eq_true. rewrite Z.eqb_eq, bool_decide_eq_true. dlia.
Qed.

(** The translation of a page's first address. *)
Lemma page_view T V L w page :
  as_rep T V L w → 0 ≤ page < USER_END → page mod 4096 = 0 →
  match L !! page with Some pa => ∃ fl, pages V page = Some (pa, Size4K, fl) | None => pages V page = None end.
Proof.
  intros HR Hp Ha. pose proof (ar_leaf _ _ _ _ HR page Hp) as Hl. rewrite page_of_aligned in Hl by done.
  destruct (L !! page) as [pa|]; [|done]. destruct Hl as [fl Hl]. exists fl. by rewrite Hl, Ha, Z.add_0_r.
Qed.

Lemma size_free h (p : Z) : p ∉ h → Z.of_nat (size ({[p]} ∪ h : gset Z)) = Z.of_nat (size h) + 1.
Proof. intros Hp. rewrite size_union, size_singleton by set_solver. lia. Qed.
Lemma size_take h (p : Z) : p ∈ h → Z.of_nat (size (h ∖ {[p]} : gset Z)) = Z.of_nat (size h) - 1.
Proof.
  intros Hp. rewrite size_difference, size_singleton by set_solver.
  assert (size h ≠ 0%nat) by (intros E%size_empty_inv; set_solver). lia.
Qed.

(** The world after the page [page] is unmapped, its frame [pa] given back. *)
Definition dropped (m : memory) (pa : Z) (ev : list event) (w : world C F) : world C F :=
  mkWorld (set_frames (saturating_sub (user_frames (space w)) 1) (pt_frames (space w)) (space w)) m
    (free_frame (pool w) pa) ev.

Lemma unmap_one T V L w page pa ev :
  as_rep T V L w → L !! page = Some pa →
  ∃ m', unmap_page (root (space w)) page (mem w) = Ret (Some (pa, Size4K), m') ∧
    as_rep T (vclear page Size4K V) (delete page L) (dropped m' pa ev w) ∧ total (dropped m' pa ev w) = total w.
Proof.
  intros HR Hl. pose proof (ar_user _ _ _ _ HR _ _ Hl) as [Hp Ha]. destruct (ar_frame _ _ _ _ HR _ _ Hl) as (Hok & Hm & Hh & Ht).
  pose proof (page_view _ _ _ _ page HR Hp Ha) as Hv. rewrite Hl in Hv. destruct Hv as [fl Hv].
  destruct (unmap_step _ _ _ _ _ page (ar_pt _ _ _ _ HR)) as (r & m' & V' & Hu & Hs & HP).
  assert (∀ p, is_Some (mem w !! p) → is_Some (m' !! p)) as Hdom.
  { pose proof (rep_wf _ _ _ _ _ (ar_pt _ _ _ _ HR)) as HW. destruct (stop_exists _ _ _ HW page) as (k & b & HS).
    destruct (stop_entry _ _ _ HW _ _ _ HS) as (e & He & _). rewrite (unmap_stop _ _ _ HW page k b e HS He) in Hu.
    injection Hu as Hu. destruct (present e); injection Hu as _ <-; [|done].
    intros p [t Htm]. destruct (poke_mem (mem w) b (index_at page k) 0 p t _ Htm eq_refl) as (t' & -> & _). eauto. }
  assert (Z.land page (bytes Size4K - 1) = 0) as Hoff by (change (bytes Size4K - 1) with (2 ^ 12 - 1); by rewrite land_mask by lia).
  inversion Hs; subst; [|congruence]. match goal with E : pages V page = Some (?x, ?s, ?f) |- _ => assert (x = pa ∧ s = Size4K) as [-> ->] by (split; congruence) end.
  rewrite Hoff, Z.sub_0_r in Hu. exists m'. split; [done|].
  assert (size (delete page L) = pred (size L) ∧ (0 < size L)%nat) as [Hsz Hpos].
  { split; [by rewrite map_size_delete, Hl|]. apply Nat.neq_0_lt_0. intros E%map_size_empty_inv. by rewrite E in Hl. }
  assert (held (dropped m' pa ev w) = {[pa]} ∪ held w) as Eh by (unfold held; cbn; by apply free_held).
  assert (total (dropped m' pa ev w) = total w) as Etot.
  { unfold total. rewrite Eh, size_free by done. cbn. rewrite (ar_count _ _ _ _ HR). unfold saturating_sub. lia. }
  split; [|done]. split.
  - destruct HP as [P1 P2 P3 P4]. split; [exact P1| |exact P3|exact P4]. cbn.
    intros p Hin. change (p ∈ held (dropped m' pa ev w)) in Hin. rewrite Eh in Hin.
    apply elem_of_union in Hin as [->%elem_of_singleton|Hin]; [split; [by apply Hdom|done]|by apply P2].
  - intros va Hva. cbn [pages vclear]. rewrite covers_page by done. pose proof (ar_leaf _ _ _ _ HR va Hva) as Hlf.
    case_bool_decide as E; [rewrite E, lookup_delete_eq; done|by rewrite lookup_delete_ne].
  - intros q x [_ Hq]%lookup_delete_Some. by eapply ar_user.
  - intros q x [Hne Hq]%lookup_delete_Some. destruct (ar_frame _ _ _ _ HR _ _ Hq) as (K1 & K2 & K3 & K4). split_and!; [done| | |done].
    + by apply Hdom.
    + rewrite Eh. intros [->%elem_of_singleton|?]%elem_of_union; [|done]. apply Hne. by eapply ar_inj.
  - intros a b x [_ Hq]%lookup_delete_Some [_ Hr]%lookup_delete_Some. by eapply ar_inj.
  - cbn. rewrite (ar_count _ _ _ _ HR), Hsz. unfold saturating_sub. lia.
  - rewrite Etot. cbn. apply HR.
Qed.

(** ** Ranges *)

(** Addresses the hardware accepts: the user half, and the half above it. *)
Definition real (va : Z) : Prop := 0 ≤ va < USER_END ∨ USER_END ≤ va mod 2 ^ 48.

Lemma real_covers page va :
  0 ≤ page < USER_END → page mod 4096 = 0 → real va → covers page Size4K va = bool_decide (page ≤ va < page + 4096 ∧ va < USER_END ∧ 0 ≤ va).
Proof.
  intros Hp Ha Hv. apply Bool.eq_iff_eq_true. rewrite bool_decide_eq_true. destruct Hv as [Hv|Hv].
  - rewrite covers_page by done. rewrite bool_decide_eq_true. unfold page_of. dlia.
  - unfold covers, USER_END in *. change (bytes Size4K) with 4096. rewrite Z.eqb_eq, (Z.mod_small page) by lia. split; [dlia|].
    intros (H1 & H2 & H3). rewrite Z.mod_small in Hv by lia. lia.
Qed.

(** [V'] is [V] with the range cleared. *)
Definition cleared (lo hi : Z) (V V' : view) : Prop :=
  ∀ va, real va → pages V' va = if decide (lo ≤ va < hi) then None else pages V va.

Definition without (lo hi : Z) (L : gmap Z Z) : gmap Z Z := filter (λ kv, ¬ (lo ≤ fst kv < hi)) L.
Lemma lookup_without lo hi L p :
  without lo hi L !! p = if decide (lo ≤ p < hi) then None else L !! p.
Proof.
  unfold without. rewrite map_lookup_filter. destruct (L !! p) as [x|]; cbn; [|by case_decide].
  case_guard as E; cbn in *; by case_decide.
Qed.

(** The events of unmapping pages of [L] one at a time: each page is flushed
    before its frame is freed. *)
Inductive freed_by (flush : Z → list event) (L : gmap Z Z) : list event → Prop :=
  | freed_nil : freed_by flush L []
  | freed_cons page pa ev : L !! page = Some pa → freed_by flush L ev → freed_by flush L (flush page ++ Free pa :: ev).

Lemma freed_by_mono flush L L' ev : L ⊆ L' → freed_by flush L ev → freed_by flush L' ev.
Proof. intros Hs. induction 1; [constructor|]. constructor; [by eapply lookup_weaken|done]. Qed.
Lemma freed_by_app flush L ev1 ev2 : freed_by flush L ev1 → freed_by flush L ev2 → freed_by flush L (ev1 ++ ev2).
Proof. induction 1; intros; [done|]. rewrite <-app_assoc. cbn. constructor; auto. Qed.

(** The parts of a space only the region code changes. *)
Definition same_regions (w w' : world C F) : Prop :=
  root (space w') = root (space w) ∧ regions (space w') = regions (space w) ∧
  brk_start (space w') = brk_start (space w) ∧ brk (space w') = brk (space w).

Lemma same_regions_trans w1 w2 w3 : same_regions w1 w2 → same_regions w2 w3 → same_regions w1 w3.
Proof. unfold same_regions. naive_solver congruence. Qed.

(** The pages past the first one of a range. *)
Lemma without_step T V L w lo off hi :
  as_rep T V L w → (lo + off) mod 4096 = 0 → lo + off + 4096 ≤ hi →
  without (lo + (off + 4096)) hi (delete (lo + off) L) = without (lo + off) hi L.
Proof.
  intros HR Hm Hle. apply map_eq. intros p. rewrite !lookup_without. destruct (decide (p = lo + off)) as [->|Hne].
  - rewrite lookup_delete_eq. repeat case_decide; try done; lia.
  - rewrite lookup_delete_ne by done. repeat case_decide; try done; [lia|]. destruct (L !! p) as [x|] eqn:E; [|done].
    destruct (ar_user _ _ _ _ HR _ _ E) as [_ Hp]. exfalso. dlia.
Qed.

Lemma unmap_from_spec n flush va len off T V L w :
  as_rep T V L w → 0 ≤ va → va + len ≤ USER_END → va mod 4096 = 0 → len mod 4096 = 0 → off mod 4096 = 0 → 0 ≤ off ≤ len →
  (len - off) / 4096 < Z.of_nat n →
  ∃ V' w' ev, unmap_from n flush va len off w = Ret (inl tt, w') ∧ as_rep T V' (without (va + off) (va + len) L) w' ∧
    total w' = total w ∧ same_regions w w' ∧ events w' = (events w ++ ev)%list ∧ freed_by flush L ev ∧
    cleared (va + off) (va + len) V V'.
Proof.
  intros HR Hva Hend Ma Ml. revert off V L w HR. induction n as [|n IH]; intros off V L w HR Mo Hoff Hn; [dlia|].
  cbn [unmap_from]. destruct (Z.ltb_spec off len) as [Hlt|Hge].
  2:{ assert (off = len) as -> by lia. exists V, w, []. split; [done|]. split.
      { assert (without (va + len) (va + len) L = L) as ->; [|done]. apply map_eq. intros p. rewrite lookup_without. by case_decide; [lia|]. }
      split; [done|]. split; [done|]. split; [by rewrite app_nil_r|]. split; [constructor|]. intros a _. by case_decide; [lia|]. }
  assert (va + off + 4096 ≤ va + len) as Hstep by dlia. unfold USER_END in Hend. rewrite addc_ret by (unfold in_width; lia). cbn [obind].
  rewrite (rep_pages _ _ _ _ _ (ar_pt _ _ _ _ HR)). cbn [obind].
  assert (0 ≤ va + off < USER_END ∧ (va + off) mod 4096 = 0) as [Hpg Hpm] by (unfold USER_END; split; [lia|dlia]).
  pose proof (page_view _ _ _ _ (va + off) HR Hpg Hpm) as Hv.
  assert (∀ V' , cleared (va + (off + 4096)) (va + len) (vclear (va + off) Size4K V) V' → cleared (va + off) (va + len) V V') as Hcl.
  { intros V' Hc a Ha. rewrite (Hc a Ha). cbn [pages vclear]. rewrite real_covers by done.
    repeat case_decide; repeat case_bool_decide; try done; unfold USER_END in *; lia. }
  destruct (L !! (va + off)) as [pa|] eqn:Hl.
  - destruct Hv as [fl Hv]. rewrite Hv.
    destruct (unmap_one T V L w (va + off) pa ((events w ++ flush (va + off)) ++ [Free pa]) HR Hl) as (m' & -> & HR' & Ht). cbn [obind].
    rewrite addc_ret by (change PAGE_SIZE_4K with 4096; unfold in_width; lia). cbn [obind]. change PAGE_SIZE_4K with 4096.
    destruct (IH (off + 4096) _ _ _ HR' ltac:(dlia) ltac:(lia) ltac:(dlia)) as (V' & w' & ev & Hr & HR2 & Ht2 & Hsame & Hev & Hfr & Hc).
    exists V', w', ((flush (va + off) ++ Free pa :: ev)%list). split; [exact Hr|]. split; [by rewrite <-(without_step T V L w)|].
    split; [congruence|]. split; [exact Hsame|]. split; [rewrite Hev; cbn; by rewrite <-!app_assoc|].
    split; [constructor; [done|]; eapply freed_by_mono; [apply delete_subseteq|done]|by apply Hcl].
  - rewrite Hv. rewrite addc_ret by (change PAGE_SIZE_4K with 4096; unfold in_width; lia). cbn [obind]. change PAGE_SIZE_4K with 4096.
    destruct (IH (off + 4096) _ _ _ HR ltac:(dlia) ltac:(lia) ltac:(dlia)) as (V' & w' & ev & Hr & HR2 & Ht2 & Hsame & Hev & Hfr & Hc).
    exists V', w', ev. split; [exact Hr|]. split.
    { rewrite <-(without_step T V L w) by done. by rewrite delete_id. }
    split_and!; [done|exact Hsame|done|done|]. intros x Hx. rewrite (Hc x Hx). repeat case_decide; try done; [lia|].
    assert (page_of x = va + off) as Ex by (unfold page_of; dlia).
    pose proof (ar_leaf _ _ _ _ HR x ltac:(unfold USER_END; lia)) as Hlf. by rewrite Ex, Hl in Hlf.
Qed.

(** A range a region may cover. *)
Definition map_range_ok (va n : Z) : Prop :=
  va mod 4096 = 0 ∧ n mod 4096 = 0 ∧ NULL_GUARD_LEN ≤ va ∧ va + n ≤ USER_MAP_END.

Lemma canonical_low va : 0 ≤ va < USER_END → is_canonical va = true.
Proof. unfold USER_END, is_canonical. intros Hv. rewrite Z.shiftr_div_pow2 by lia. rewrite Z.div_small by lia. done. Qed.

Lemma check_map_range_ok va n : 0 ≤ va → 0 < n → check_map_range va n = inl tt ↔ map_range_ok va n.
Proof.
  intros Hva Hn. unfold check_map_range, map_range_ok, is_multiple_of. change PAGE_SIZE_4K with 4096.
  assert (USER_MAP_END < USER_END ∧ USER_END < 2 ^ 64 ∧ 0 < NULL_GUARD_LEN) as (E1 & E2 & E3) by (vm_compute; done).
  destruct (Z.eqb_spec n 0); [lia|]. destruct (Z.eqb_spec (va mod 4096) 0), (Z.eqb_spec (n mod 4096) 0); cbn [negb orb];
    try (split; [done|intros (? & ? & _); lia]).
  unfold checked_add. destruct (Z.ltb_spec (va + n) (2 ^ 64)); [|split; [done|lia]].
  destruct (Z.ltb_spec va NULL_GUARD_LEN); [split; [done|lia]|].
  destruct (Z.leb_spec USER_MAP_END va), (Z.ltb_spec USER_MAP_END (va + n)); cbn [orb]; try (split; [done|lia]).
  rewrite !canonical_low by lia. cbn [negb orb]. split; [|done]. intros _. split_and!; lia.
Qed.

Lemma unmap_pages_spec flush va n T V L w :
  as_rep T V L w → 0 ≤ va → 0 ≤ n → (0 < n → map_range_ok va n) →
  ∃ V' w' ev, unmap_pages flush va n w = Ret (inl tt, w') ∧ as_rep T V' (without va (va + n) L) w' ∧
    total w' = total w ∧ same_regions w w' ∧ events w' = (events w ++ ev)%list ∧ freed_by flush L ev ∧ cleared va (va + n) V V'.
Proof.
  intros HR Hva Hn Hok. unfold unmap_pages. destruct (decide (n = 0)) as [->|Hne].
  - cbn [check_map_range Z.eqb]. change (unmap_from _ flush va 0 0 w) with (@Ret ((unit + AsError) * world C F) (inl tt, w)).
    exists V, w, []. split; [done|]. split.
    { assert (without va (va + 0) L = L) as ->; [|done]. apply map_eq. intros p. rewrite lookup_without. by case_decide; [lia|]. }
    split; [done|]. split; [done|]. split; [by rewrite app_nil_r|]. split; [constructor|]. intros a _. by case_decide; [lia|].
  - destruct (Hok ltac:(lia)) as (M1 & M2 & M3 & M4).
    assert (check_map_range va n = inl tt) as -> by (apply check_map_range_ok; [lia|lia|done]).
    assert (USER_MAP_END < USER_END) by (vm_compute; done).
    destruct (unmap_from_spec (S (Z.to_nat (n / 4096 + 1))) flush va n 0 T V L w) as (V' & w' & ev & Hr); try done; try lia; [dlia|].
    rewrite Z.add_0_r in Hr. by exists V', w', ev.
Qed.

(** ** Mapping one page *)
Lemma counting_rep (rt : Z) T m (f : F) V n :
  pt_rep rt T m f V → pt_rep rt T m (f, n) V.
Proof. intros [P1 P2 P3 P4]. by split. Qed.
Lemma uncount_rep (rt : Z) T m (f : F) V n :
  pt_rep rt T m (f, n) V → pt_rep rt T m f V.
Proof. intros [P1 P2 P3 P4]. by split. Qed.

(** The counter adds up what the allocator lost. *)
Lemma counting_alloc (h : gset Z) (k : Z) (c : F * Z) r (c' : F * Z) :
  alloc_frame c = (r, c') →
  0 ≤ snd c ∧ snd c + Z.of_nat (size (held_frames (fst c))) = k ∧ held_frames (fst c) ⊆ h →
  0 ≤ snd c' ∧ snd c' + Z.of_nat (size (held_frames (fst c'))) = k ∧ held_frames (fst c') ⊆ h.
Proof.
  destruct c as [f n]. cbn. destruct (alloc_frame f) as [[p|] f'] eqn:E; intros [= <- <-]; cbn.
  - destruct (alloc_some _ _ _ E) as (Hp & _ & ->). intros (? & ? & ?). rewrite size_take by done. split_and!; [lia|lia|set_solver].
  - by rewrite (alloc_none _ _ E).
Qed.

Definition with_frames (u p : Z) (m : memory) (f : F) (w : world C F) : world C F :=
  mkWorld (set_frames u p (space w)) m f (events w).

Lemma map_one T V L w page pa f fl :
  as_rep T V L w → alloc_frame (pool w) = (Some pa, f) → 0 ≤ page < USER_END → page mod 4096 = 0 → L !! page = None →
  ∃ rc m' f' n T', map_page (root (space w)) page pa fl Size4K Fresh (mem w) (f, 0) = Ret (rc, m', (f', n)) ∧
    0 ≤ n ∧ pt_frames (space w) + n < 2 ^ 64 ∧ user_frames (space w) + 1 < 2 ^ 64 ∧
    match rc with
    | inl _ =>
        let w' := with_frames (user_frames (space w) + 1) (pt_frames (space w) + n) m' f' w in
        as_rep T' (vset page pa fl Size4K V) (<[page := pa]> L) w' ∧ total w' = total w
    | inr e =>
        let w' := free_to pa (with_frames (user_frames (space w)) (pt_frames (space w) + n) m' f' w) in
        e = Paging.OutOfFrames ∧ as_rep T' V L w' ∧ total w' = total w
    end.
Proof.
  intros HR Ha Hp Hal Hnone. destruct (alloc_some _ _ _ Ha) as (Hin & Hok & Hh). pose proof (ar_pt _ _ _ _ HR) as HPt.
  destruct (rep_free _ _ _ _ _ HPt pa Hin) as [Hpam Hpat].
  assert (pt_rep (root (space w)) T (mem w) (f, 0) V) as HPc.
  { apply counting_rep. destruct HPt as [P1 P2 P3 P4]. split; [done| |done|done]. intros p Hpx. rewrite Hh in Hpx.
    apply elem_of_difference in Hpx as [Hpx _]. by apply P2. }
  destruct (map_step _ T (mem w) (f, 0) V page pa fl Size4K Fresh HPc) as (rc & m' & [f' n] & T' & V' & Hmap & Hs & HP' & HT').
  pose proof (map_page_frame _ (counting_alloc (held_frames f) (Z.of_nat (size (held_frames f)))) _ _ _ _ _ _ _ _ _ _ _ Hmap) as [Hcnt Hdom].
  cbn [fst snd] in Hcnt. destruct (Hcnt ltac:(split_and!; [lia|lia|done])) as (Hn0 & Hcount & Hsub). clear Hcnt. cbn [held_frames Counting fst] in HT'.
  assert (Z.of_nat (size (held_frames f)) = Z.of_nat (size (held w)) - 1) as Hsz by (rewrite Hh; by apply size_take).
  assert (pa ∉ held_frames f') as Hpaf by (intros Hx%Hsub; rewrite Hh in Hx; set_solver).
  assert (∀ q, T' !! q ≠ Some pa) as HpaT.
  { intros q [Hq|Hq]%HT'; [by apply (Hpat q)|]. rewrite Hh in Hq. set_solver. }
  destruct (ar_total _ _ _ _ HR) as [Hpt Htot]. unfold total in Htot. pose proof (ar_count _ _ _ _ HR) as Hcu.
  exists rc, m', f', n, T'. split; [done|]. split; [done|]. split; [lia|]. split; [lia|].
  assert (∀ q x, L !! q = Some x → frame_ok x ∧ is_Some (m' !! x) ∧ x ∉ held_frames f' ∧ (∀ r, T' !! r ≠ Some x) ∧ x ≠ pa) as Hold.
  { intros q x Hq. destruct (ar_frame _ _ _ _ HR _ _ Hq) as (K1 & K2 & K3 & K4). unfold held in K3. split_and!; [done|by apply Hdom| | |].
    - intros Hx%Hsub. rewrite Hh in Hx. set_solver.
    - intros r [Hr|Hr]%HT'; [by apply (K4 r)|]. rewrite Hh in Hr. set_solver.
    - intros ->. done. }
  pose proof (page_view _ _ _ _ page HR Hp Hal) as Hv. rewrite Hnone in Hv.
  assert (bad_address page pa Size4K = None) as Hbad.
  { unfold bad_address. rewrite canonical_low by done. unfold is_aligned. change (bytes Size4K - 1) with (2 ^ 12 - 1).
    destruct Hok as [_ Hok]. rewrite !land_mask by lia. change (2 ^ 12) with 4096. by rewrite Hal, Hok. }
  assert (refusal page Size4K Fresh V = None) as Href by (unfold refusal; by rewrite Hv).
  apply uncount_rep in HP'. inversion Hs; subst; try congruence.
  - cbv zeta. set (w' := with_frames _ _ _ _ _).
    assert (total w' = total w) as Et by (unfold total, held; cbn; rewrite Hcu in *; unfold held in *; lia).
    split; [|done]. split.
    + exact HP'.
    + intros va Hva. cbn [pages vset]. rewrite covers_page by done. case_bool_decide as E.
      * rewrite E, lookup_insert_eq. eexists. unfold pte_phys. rewrite frame_masked by done.
        change (bytes Size4K - 1) with (2 ^ 12 - 1). rewrite land_mask by lia. done.
      * rewrite lookup_insert_ne by done. by apply (ar_leaf _ _ _ _ HR).
    + intros q x [[<- <-]|[_ Hq]]%lookup_insert_Some; [done|by eapply ar_user].
    + intros q x [[<- <-]|[_ Hq]]%lookup_insert_Some; [split_and!; [done|by apply Hdom|done|done]|].
      destruct (Hold _ _ Hq) as (? & ? & ? & ? & _). done.
    + intros a b x [[<- <-]|[_ Hq]]%lookup_insert_Some [[<- E]|[_ Hr]]%lookup_insert_Some; try done.
      * by destruct (Hold _ _ Hr) as (_ & _ & _ & _ & ?).
      * subst x. by destruct (Hold _ _ Hq) as (_ & _ & _ & _ & ?).
      * by eapply ar_inj.
    + cbn. rewrite map_size_insert, Hnone. cbn. lia.
    + rewrite Et. cbn. unfold total. lia.
  - cbv zeta. set (w' := free_to _ _).
    assert (held w' = {[pa]} ∪ held_frames f') as Eh by (unfold held; cbn; by apply free_held).
    assert (total w' = total w) as Et.
    { unfold total. rewrite Eh, size_free by done. cbn. rewrite Hcu in *. unfold held in *. lia. }
    split; [done|]. split; [|done]. split.
    + destruct HP' as [P1 P2 P3 P4]. split; [exact P1| |exact P3|exact P4]. intros p Hpx. change (p ∈ held w') in Hpx. rewrite Eh in Hpx.
      apply elem_of_union in Hpx as [->%elem_of_singleton|Hpx]; [split; [by apply Hdom|done]|by apply P2].
    + apply (ar_leaf _ _ _ _ HR).
    + apply (ar_user _ _ _ _ HR).
    + intros q x Hq. destruct (Hold _ _ Hq) as (K1 & K2 & K3 & K4 & K5). split_and!; [done|done| |done]. rewrite Eh. set_solver.
    + apply (ar_inj _ _ _ _ HR).
    + cbn. done.
    + rewrite Et. cbn. unfold total. lia.
Qed.

(** ** Mapping a range *)

(** [V'] and [L'] are [V] and [L] with every page of the range mapped. *)
Record filled (lo hi fl : Z) (V : view) (L : gmap Z Z) (V' : view) (L' : gmap Z Z) : Prop := {
  filled_out p : ¬ (lo ≤ p < hi) → L' !! p = L !! p;
  filled_in p : lo ≤ p < hi → p mod 4096 = 0 → is_Some (L' !! p);
  filled_view va : real va → pages V' va =
    if decide (lo ≤ va < hi) then (λ pa, (pa + va mod 4096, Size4K, leaf_flags Size4K fl)) <$> L' !! page_of va else pages V va
}.

(** Nothing of the range is mapped. *)
Definition vacant (lo hi : Z) (L : gmap Z Z) : Prop := ∀ p, lo ≤ p < hi → L !! p = None.

Lemma filled_nil lo fl V L : filled lo lo fl V L V L.
Proof. split; [done|lia|]. intros va _. by case_decide; [lia|]. Qed.

Lemma filled_next lo k fl V L V' L' pa :
  filled lo (lo + k) fl V L V' L' → 0 ≤ lo → 0 ≤ k → lo + k < USER_END → lo mod 4096 = 0 → k mod 4096 = 0 → frame_ok pa →
  filled lo (lo + (k + 4096)) fl V L (vset (lo + k) pa fl Size4K V') (<[lo + k := pa]> L').
Proof.
  intros [F1 F2 F3] Hlo Hk Hu Ml Mk Hok. split.
  - intros p Hp. rewrite lookup_insert_ne by lia. apply F1. lia.
  - intros p Hp Hm. destruct (decide (p = lo + k)) as [->|]; [rewrite lookup_insert_eq; eauto|].
    rewrite lookup_insert_ne by done. apply F2; [dlia|done].
  - intros va Hva. cbn [pages vset]. rewrite real_covers; [|lia|dlia|done]. rewrite (F3 va Hva).
    assert (0 ≤ va < USER_END ∨ ¬ 0 ≤ va < USER_END ∧ USER_END ≤ va mod 2 ^ 48) as Hcase.
    { destruct (decide (0 ≤ va < USER_END)); [by left|right]. by destruct Hva. }
    destruct (decide (lo + k ≤ va < lo + k + 4096 ∧ va < USER_END ∧ 0 ≤ va)) as [Hin|Hout].
    + rewrite bool_decide_eq_true_2 by done. rewrite decide_True by lia.
      assert (page_of va = lo + k) as -> by (unfold page_of; dlia). rewrite lookup_insert_eq. cbn [fmap option_fmap option_map].
      unfold pte_phys. rewrite frame_masked by done. change (bytes Size4K - 1) with (2 ^ 12 - 1). by rewrite land_mask by lia.
    + rewrite bool_decide_eq_false_2 by done. unfold USER_END in *. repeat case_decide; try done; [|lia|].
      * rewrite lookup_insert_ne; [done|]. unfold page_of. dlia.
      * exfalso. assert (lo + k + 4096 ≤ 0x0000800000000000) by dlia. lia.
Qed.

(** What a failed [map_pages] leaves: the pages, and the frames' number, as they were. *)
Definition unchanged (L : gmap Z Z) (V : view) (w w' : world C F) : Prop :=
  ∃ T' V' ev, as_rep T' V' L w' ∧ (∀ va, real va → pages V' va = pages V va) ∧ total w' = total w ∧ same_regions w w' ∧
    events w' = (events w ++ ev)%list.

Lemma map_failed_spec T V L w va k n fl T' V' L' w' e :
  as_rep T V L w → as_rep T' V' L' w' → total w' = total w → same_regions w w' → (∃ ev, events w' = (events w ++ ev)%list) →
  filled va (va + k) fl V L V' L' → vacant va (va + n) L → 0 ≤ k ≤ n → 0 ≤ va → map_range_ok va n → k mod 4096 = 0 →
  ∃ w'', map_failed va k e w' = Ret (inr e, w'') ∧ unchanged L V w w''.
Proof.
  intros HR HR' Ht Hs [ev0 Hev] [F1 F2 F3] Hvac Hk Hva (M1 & M2 & M3 & M4) Mk.
  destruct (unmap_pages_spec no_flush va k T' V' L' w' HR' Hva ltac:(lia)) as (V2 & w2 & ev & Hr & HR2 & Ht2 & Hs2 & Hev2 & _ & Hc);
    [intros; split_and!; [done|done|done|lia]|].
  unfold map_failed. rewrite Hr. cbn [obind]. exists w2. split; [done|]. exists T', V2, (ev0 ++ ev)%list.
  assert (without va (va + k) L' = L) as EL.
  { apply map_eq. intros p. rewrite lookup_without. case_decide; [symmetry; apply Hvac; lia|by apply F1]. }
  rewrite EL in HR2. split; [done|]. split.
  - intros a Ha. rewrite (Hc a Ha). case_decide as Hin; [|rewrite (F3 a Ha); by rewrite decide_False].
    assert (USER_MAP_END < USER_END) by (vm_compute; done).
    pose proof (ar_leaf _ _ _ _ HR a ltac:(lia)) as Hl. rewrite Hvac in Hl; [done|]. unfold page_of. dlia.
  - split; [congruence|]. split; [by eapply same_regions_trans|]. by rewrite Hev2, Hev, app_assoc.
Qed.

Lemma map_pages_from_spec j va n fl k T V L w T' V' L' w' :
  as_rep T V L w → as_rep T' V' L' w' → total w' = total w → same_regions w w' → events w' = events w →
  filled va (va + k) fl V L V' L' → vacant va (va + n) L → 0 ≤ k ≤ n → map_range_ok va n → k mod 4096 = 0 →
  (n - k) / 4096 < Z.of_nat j →
  ∃ r w'', map_pages_from j va n fl k w' = Ret (r, w'') ∧
    match r with
    | inl _ => ∃ T'' V'' L'', as_rep T'' V'' L'' w'' ∧ filled va (va + n) fl V L V'' L'' ∧ total w'' = total w ∧
                 same_regions w w'' ∧ events w'' = events w
    | inr e => e = OutOfFrames ∧ unchanged L V w w''
    end.
Proof.
  intros HR. revert k T' V' L' w'. induction j as [|j IH]; intros k T' V' L' w' HR' Ht Hs Hev HF Hvac Hk Hok Mk Hj; [dlia|].
  pose proof Hok as (M1 & M2 & M3 & M4). assert (USER_MAP_END < USER_END ∧ 0 < NULL_GUARD_LEN) as [E1 E2] by (vm_compute; done).
  cbn [map_pages_from]. destruct (Z.ltb_spec k n) as [Hlt|Hge].
  2:{ assert (k = n) as -> by lia. eexists _, _. split; [done|]. by exists T', V', L'. }
  assert (k + 4096 ≤ n) as Hstep by dlia. rewrite addc_ret by (unfold in_width, USER_END in *; lia). cbn [obind].
  destruct (alloc_frame (pool w')) as [[pa|] f] eqn:Ha.
  - destruct (alloc_some _ _ _ Ha) as (_ & Hpok & _).
    assert (L' !! (va + k) = None) as Hn by (rewrite (filled_out _ _ _ _ _ _ _ HF) by lia; apply Hvac; lia).
    destruct (map_one T' V' L' w' (va + k) pa f fl HR' Ha ltac:(lia) ltac:(dlia) Hn) as (rc & m' & f' & q & T2 & -> & Hq & Hpt & Hus & Hrc).
    cbn [obind]. pose proof (ar_total _ _ _ _ HR') as [Hpt0 _]. rewrite addc_ret by (unfold in_width; lia). cbn [obind]. destruct rc as [u|e].
    + destruct Hrc as [HR2 Ht2]. pose proof (ar_count _ _ _ _ HR') as Hcu.
      rewrite addc_ret by (cbn; unfold in_width; lia). cbn [obind]. change PAGE_SIZE_4K with 4096.
      rewrite addc_ret by (unfold in_width, USER_END in *; lia). cbn [obind].
      eapply (IH (k + 4096)); [exact HR2|etrans; [exact Ht2|exact Ht]|exact Hs|exact Hev| |done|lia|done|dlia|dlia].
      apply filled_next; [done|lia|lia|lia|done|done|done].
    + destruct Hrc as (-> & HR2 & Ht2).
      destruct (map_failed_spec T V L w va k n fl T2 V' L' _ (as_of_map Paging.OutOfFrames) HR HR2) as (w2 & Hw2 & Hun);
        [etrans; [exact Ht2|exact Ht]|exact Hs|exists [Free pa]; cbn; by rewrite Hev|done|done|lia|lia|done|done|].
      eexists _, w2. split; [exact Hw2|]. done.
  - assert (as_rep T' V' L' (mkWorld (space w') (mem w') f (events w')) ∧ total (mkWorld (space w') (mem w') f (events w')) = total w') as [HR2 Ht2].
    { pose proof (alloc_none _ _ Ha) as Eh. split; [|unfold total, held; cbn; by rewrite Eh]. destruct HR' as [[P1 P2 P3 P4] R2 R3 R4 R5 R6 R7].
      split; [split; [exact P1| |exact P3|exact P4]|exact R2|exact R3| |exact R5|exact R6|unfold total, held in *; cbn; by rewrite Eh].
      - intros p Hp. cbn in Hp. rewrite Eh in Hp. by apply P2.
      - unfold held in *. cbn. rewrite Eh. exact R4. }
    destruct (map_failed_spec T V L w va k n fl T' V' L' _ OutOfFrames HR HR2) as (w2 & Hw2 & Hun);
      [congruence|exact Hs|exists []; cbn; by rewrite app_nil_r|done|done|lia|lia|done|done|].
    eexists _, w2. split; [exact Hw2|]. done.
Qed.

Lemma map_pages_run T V L w va n p :
  as_rep T V L w → 0 < n → map_range_ok va n → vacant va (va + n) L →
  ∃ r w', map_pages va n p w = Ret (r, w') ∧
    match r with
    | inl _ => ∃ T' V' L', as_rep T' V' L' w' ∧ filled va (va + n) (perms_flags p) V L V' L' ∧ total w' = total w ∧
                 same_regions w w' ∧ events w' = events w
    | inr e => e = OutOfFrames ∧ unchanged L V w w'
    end.
Proof.
  intros HR Hn Hok Hvac. assert (0 < NULL_GUARD_LEN) by (vm_compute; done). pose proof Hok as (M1 & M2 & M3 & M4). unfold map_pages.
  assert (check_map_range va n = inl tt) as -> by (apply check_map_range_ok; [lia|lia|done]).
  eapply (map_pages_from_spec _ va n (perms_flags p) 0 T V L w T V L w); try done; [|lia|dlia].
  rewrite Z.add_0_r. apply filled_nil.
Qed.
End pages.
