(* ===== verification/AddrSpaceRegions.v ===== *)
(** * The regions of an address space

    [regions_ok] is the invariant of the slots: every region is a page-aligned
    range of the user half and no address is in two of them.  [trim] and the
    slot updates of [unmap_free] are described by the addresses the regions
    claim. *)

From stdpp Require Import base gmap list numbers.
From S2P Require Import Prelude Paging AddrSpace AddrSpacePlace AddrSpacePages.
Import Paging AddrSpace.

Local Open Scope Z_scope.

Section regions.
Context {C : Type}.
Implicit Types (r : Region C) (rs : list (option (Region C))).

Definition in_region (r : Region C) (a : Z) : Prop := start r ≤ a < start r + len r.
Definition attrs (r : Region C) : UserPerms * Backing * C := (perms r, backing r, core r).
Definition at_slot (rs : list (option (Region C))) (j : nat) (r : Region C) : Prop := rs !! j = Some (Some r).

(** An address is claimed with the attributes [x]. *)
Definition claims (rs : list (option (Region C))) (a : Z) (x : UserPerms * Backing * C) : Prop :=
  ∃ j r, at_slot rs j r ∧ in_region r a ∧ attrs r = x.

Definition region_ok (r : Region C) : Prop :=
  0 ≤ start r ∧ 0 ≤ len r ∧ start r + len r < 2 ^ 64 ∧ (0 < len r → map_range_ok (start r) (len r)).

Record regions_ok (rs : list (option (Region C))) : Prop := {
  ok_each j r : at_slot rs j r → region_ok r;
  ok_apart i j r r' a : at_slot rs i r → at_slot rs j r' → in_region r a → in_region r' a → i = j
}.

Lemma r_end_ok r : region_ok r → r_end r = start r + len r.
Proof. intros (? & ? & ? & _). unfold r_end, saturating_add. lia. Qed.

(** ** Slots *)
Lemma at_insert rs i o j r :
  at_slot (<[i := o]> rs) j r → (j = i ∧ o = Some r) ∨ (j ≠ i ∧ at_slot rs j r).
Proof.
  unfold at_slot. destruct (decide (j = i)) as [->|]; [|rewrite list_lookup_insert_ne by done; auto].
  intros Hl. left. split; [done|]. assert (i < length rs)%nat.
  { apply lookup_lt_Some in Hl. by rewrite length_insert in Hl. }
  rewrite list_lookup_insert_eq in Hl by done. congruence.
Qed.
Lemma at_insert_same rs i o r : (i < length rs)%nat → o = Some r → at_slot (<[i := o]> rs) i r.
Proof. intros Hi ->. unfold at_slot. by apply list_lookup_insert_eq. Qed.
Lemma at_insert_other rs i o j r : j ≠ i → at_slot rs j r → at_slot (<[i := o]> rs) j r.
Proof. intros Hne. unfold at_slot. by rewrite list_lookup_insert_ne. Qed.

Lemma fill_slot_spec r rs :
  match fill_slot r rs with
  | Some rs' => ∃ k, rs !! k = Some None ∧ rs' = <[k := Some r]> rs
  | None => ∀ k, rs !! k ≠ Some None
  end.
Proof.
  induction rs as [|[r'|] rs IH]; cbn [fill_slot]; [done| |by exists 0%nat].
  destruct (fill_slot r rs) as [rs'|].
  - destruct IH as (k & Hk & ->). by exists (S k).
  - intros [|k]; [done|apply IH].
Qed.

Lemma slot_free_exists rs : existsb slot_free rs = true ↔ ∃ k, rs !! k = Some None.
Proof.
  rewrite existsb_exists. split.
  - intros (o & Ho & E). destruct o; [done|]. apply list_elem_of_In, list_elem_of_lookup in Ho. done.
  - intros (k & Hk). exists None. split; [|done]. apply list_elem_of_In, list_elem_of_lookup. by exists k.
Qed.

Lemma flatten_at rs r : r ∈ flatten rs ↔ ∃ j, at_slot rs j r.
Proof.
  unfold flatten, at_slot. rewrite list_elem_of_omap. split.
  - intros (o & Ho & E). cbn in E. subst o. by apply list_elem_of_lookup.
  - intros [j Hj]. exists (Some r). split; [|done]. apply list_elem_of_lookup. by exists j.
Qed.

(** A region put in a free slot, where no other region is. *)
Lemma insert_ok rs k r :
  regions_ok rs → rs !! k = Some None → region_ok r → (∀ j r' a, at_slot rs j r' → in_region r a → ¬ in_region r' a) →
  regions_ok (<[k := Some r]> rs) ∧
  ∀ a x, claims (<[k := Some r]> rs) a x ↔ claims rs a x ∨ in_region r a ∧ attrs r = x.
Proof.
  intros [O1 O2] Hk Hr Hap. assert (k < length rs)%nat as Hlen by (by apply lookup_lt_Some in Hk). split.
  - split.
    + intros j r' [[-> [= <-]]|[_ Hj]]%at_insert; [done|by eapply O1].
    + intros i j r1 r2 a [[-> [= <-]]|[Hi1 Hi]]%at_insert [[-> E]|[Hj1 Hj]]%at_insert H1 H2; try done.
      * by destruct (Hap _ _ _ Hj H1).
      * injection E as <-. by destruct (Hap _ _ _ Hi H2).
      * by eapply O2.
  - intros a x. split.
    + intros (j & r' & [[-> [= <-]]|[_ Hj]]%at_insert & Hin & Hx); [by right|left]. by exists j, r'.
    + intros [(j & r' & Hj & Hin & Hx)|[Hin Hx]].
      * exists j, r'. split; [|done]. apply at_insert_other; [|done]. intros ->. unfold at_slot in Hj. congruence.
      * exists k, r. split; [by apply at_insert_same|done].
Qed.

(** A region replaced by a part of itself, or by nothing. *)
Lemma narrow_ok rs i r o :
  regions_ok rs → at_slot rs i r →
  (∀ r', o = Some r' → region_ok r' ∧ attrs r' = attrs r ∧ ∀ a, in_region r' a → in_region r a) →
  regions_ok (<[i := o]> rs) ∧
  ∀ a x, claims (<[i := o]> rs) a x ↔ claims rs a x ∧ (in_region r a → ∃ r', o = Some r' ∧ in_region r' a).
Proof.
  intros [O1 O2] Hi Ho. assert (i < length rs)%nat as Hlen by (by apply lookup_lt_Some in Hi). split.
  - split.
    + intros j r' [[-> E]|[_ Hj]]%at_insert; [by apply Ho|by eapply O1].
    + intros k j r1 r2 a [[-> E1]|[Hi1 Hk]]%at_insert [[-> E2]|[Hj1 Hj]]%at_insert H1 H2; try done.
      * apply (Ho r1 E1) in H1. by eapply O2.
      * apply (Ho r2 E2) in H2. by eapply O2.
      * by eapply O2.
  - intros a x. split.
    + intros (j & r' & [[-> E]|[Hne Hj]]%at_insert & Hin & Hx).
      * destruct (Ho r' E) as (_ & Ea & Hsub). split; [exists i, r; split_and!; [done|by apply Hsub|congruence]|eauto].
      * split; [by exists j, r'|]. intros Hr. destruct Hne. by eapply O2.
    + intros [(j & r' & Hj & Hin & Hx) Himp]. destruct (decide (j = i)) as [->|Hne].
      * assert (r' = r) as -> by (unfold at_slot in *; congruence). destruct (Himp Hin) as (r' & E & Hin'). destruct (Ho r' E) as (_ & Ea & _).
        exists i, r'. split_and!; [by apply at_insert_same|done|congruence].
      * exists j, r'. split; [by apply at_insert_other|done].
Qed.

(** ** Trimming *)
Lemma trim_spec va end_ r keep up :
  region_ok r → va < end_ → va mod 4096 = 0 → end_ mod 4096 = 0 → trim va end_ r = (keep, up) →
  start r < end_ → va < start r + len r →
  (∀ r', keep = Some r' → region_ok r' ∧ attrs r' = attrs r ∧ ∀ a, in_region r' a → in_region r a ∧ ¬ va ≤ a < end_) ∧
  (∀ u, up = Some u → region_ok u ∧ attrs u = attrs r ∧ start u = end_ ∧ start r < va ∧ end_ < start r + len r ∧
     ∀ a, in_region u a ↔ end_ ≤ a < start r + len r) ∧
  (∀ a, in_region r a → ¬ va ≤ a < end_ → (∃ r', keep = Some r' ∧ in_region r' a) ∨ ∃ u, up = Some u ∧ in_region u a) ∧
  (∀ r' u a, keep = Some r' → up = Some u → in_region r' a → ¬ in_region u a).
Proof.
  intros Hok Hlt Mv Me Htrim Hm1 Hm2. pose proof (r_end_ok r Hok) as Er. destruct Hok as (K1 & K2 & K3 & K4).
  unfold trim in Htrim. rewrite Er in Htrim. unfold in_region, region_ok, map_range_ok in *.
  destruct (Z.ltb_spec (start r) va), (Z.ltb_spec end_ (start r + len r)); injection Htrim as <- <-;
    repeat match goal with K : 0 < len r → _ |- _ => specialize (K ltac:(lia)); destruct K as (? & ? & ? & ?) end;
    split_and!; try done; intros; simplify_eq; cbn [start len perms backing core] in *; unfold attrs; cbn [perms backing core];
    try (split_and!; intros; try done; try lia; try dlia); try (exfalso; lia).
  - destruct (decide (a < va)); [left|right]; (eexists; split; [done|]); cbn; lia.
  - lia.
  - left. eexists. split; [done|]. cbn. lia.
  - left. eexists. split; [done|]. cbn. lia.
Qed.
End regions.
