(* ===== verification/AddrSpaceProps.v ===== *)
(** * munmap and mmap on an address space

    [unmap_free] cuts a range out of the regions and gives back exactly the
    frames of its pages; [map_anon] adds a region whose pages are all mapped. *)

From stdpp Require Import base gmap list numbers.
From S2P Require Import Prelude Paging PagingRep PagingProps AddrSpace AddrSpacePlace AddrSpacePages AddrSpaceRegions.
Import Paging AddrSpace.

Local Open Scope Z_scope.

(** ** One region cut *)
Section cut.
Context {C : Type} (va end_ : Z) (Hlt : va < end_) (Mv : va mod 4096 = 0) (Me : end_ mod 4096 = 0).
Implicit Types (r : Region C) (rs : list (option (Region C))).

(** No address of the region is in the range, and the range is not inside it. *)
Definition clear_of (r : Region C) : Prop :=
  (∀ a, in_region r a → ¬ va ≤ a < end_) ∧ ¬ (start r < va ∧ end_ < start r + len r).

Record cut_slots (i : nat) (r : Region C) (rs rs' : list (option (Region C))) : Prop := {
  cs_ok : regions_ok rs';
  cs_len : length rs' = length rs;
  cs_claims a x : claims rs' a x ↔ claims rs a x ∧ ¬ (in_region r a ∧ va ≤ a < end_);
  cs_slots j r' : at_slot rs' j r' → (j ≠ i ∧ at_slot rs j r') ∨ clear_of r';
  cs_free : len r = 0 → rs' !! i = Some None
}.

Lemma cut_region rs i r :
  regions_ok rs → at_slot rs i r → start r < end_ → va < start r + len r →
  (start r < va ∧ end_ < start r + len r → ∃ k, rs !! k = Some None) →
  ∃ keep up rs', trim va end_ r = (keep, up) ∧ cut_slots i r rs rs' ∧
    match up with None => rs' = <[i := keep]> rs | Some u => fill_slot u (<[i := keep]> rs) = Some rs' end.
Proof.
  intros Hok Hi Hm1 Hm2 Hfree. pose proof (ok_each _ Hok _ _ Hi) as Hr. destruct (trim va end_ r) as [keep up] eqn:Et.
  destruct (trim_spec va end_ r keep up Hr Hlt Mv Me Et Hm1 Hm2) as (TK & TU & TC & TD).
  assert (i < length rs)%nat as Hlen by (by apply lookup_lt_Some in Hi).
  destruct (narrow_ok rs i r keep Hok Hi) as [Hok1 Hcl1].
  { intros r' E. destruct (TK r' E) as (? & ? & Hsub). split_and!; [done|done|]. intros a Ha. by apply Hsub. }
  assert (∀ j r', at_slot (<[i := keep]> rs) j r' → (j ≠ i ∧ at_slot rs j r') ∨ clear_of r') as Hsl.
  { intros j r' [[-> E]|?]%at_insert; [right|by left]. destruct (TK r' E) as (Hr' & _ & Hsub). split; [intros a Ha; by apply Hsub|].
    intros [? ?]. destruct (Hsub va) as [_ Hn]; [unfold in_region; destruct Hr' as (? & ? & ? & _); lia|]. lia. }
  destruct up as [u|].
  - destruct (TU u eq_refl) as (Hu & Ea & Eu & Hs1 & Hs2 & Hua). destruct (Hfree (conj Hs1 Hs2)) as [k Hk].
    assert (k ≠ i) as Hki by (intros ->; unfold at_slot in Hi; congruence).
    pose proof (fill_slot_spec u (<[i := keep]> rs)) as Hf. destruct (fill_slot u (<[i := keep]> rs)) as [rs'|] eqn:Ef;
      [|destruct (Hf k); by rewrite list_lookup_insert_ne].
    destruct Hf as (k' & Hk' & ->). exists keep, (Some u), (<[k' := Some u]> (<[i := keep]> rs)). split; [done|]. split; [|exact Ef].
    destruct (insert_ok (<[i := keep]> rs) k' u Hok1 Hk' Hu) as [Hok2 Hcl2].
    { intros j r' a [[-> E]|[Hne Hj]]%at_insert Ha Ha'; [by eapply TD|]. apply Hne. eapply (ok_apart _ Hok); [done|done|done|].
      apply Hua in Ha. unfold in_region. lia. }
    assert (end_ < start r + len r) as Hgt by lia. split.
    + done.
    + by rewrite !length_insert.
    + intros a x. rewrite Hcl2, Hcl1. split.
      * intros [[Hc Himp]|[Ha Hx]].
        -- split; [done|]. intros [Hin Hrg]. destruct (Himp Hin) as (r' & E & Hin'). by destruct (TK r' E) as (_ & _ & Hsub); apply Hsub in Hin' as [_ ?].
        -- apply Hua in Ha. split; [|lia]. exists i, r. split_and!; [done|unfold in_region; lia|congruence].
      * intros [Hc Hn]. destruct (decide (start r ≤ a < start r + len r)) as [Hin|Hin]; [|left; split; [done|]; by intros ?].
        destruct (TC a Hin) as [?|(u' & [= <-] & Hu')]; [intros ?; by apply Hn|by left|]. right. split; [done|].
        destruct Hc as (j & r' & Hj & Hin' & Hx). assert (j = i) as -> by (by eapply (ok_apart _ Hok)).
        assert (r' = r) as -> by (unfold at_slot in *; congruence). congruence.
    + intros j r' [[-> [= <-]]|[_ Hj]]%at_insert; [right|by apply Hsl]. split; [intros a Ha; apply Hua in Ha; lia|lia].
    + intros E0. lia.
  - exists keep, None, (<[i := keep]> rs). split; [done|]. split; [|done]. split; [done|by rewrite length_insert| |done|].
    + intros a x. rewrite Hcl1. split; intros [Hc Himp]; (split; [done|]).
      * intros [Hin Hrg]. destruct (Himp Hin) as (r' & E & Hin'). by destruct (TK r' E) as (_ & _ & Hsub); apply Hsub in Hin' as [_ ?].
      * intros Hin. destruct (TC a Hin) as [?|(u & ? & _)]; [intros ?; by apply Himp|done|done].
    + intros E0. rewrite list_lookup_insert_eq by done. destruct keep as [r'|]; [|done]. exfalso. unfold trim in Et.
      rewrite (r_end_ok r Hr), E0 in Et. destruct (Z.ltb_spec (start r) va); [lia|]. destruct (Z.ltb_spec end_ (start r + 0)); [lia|done].
Qed.
End cut.

(** ** The loop of [unmap_free] *)
Section unmap.
Context {C F : Type} `{FrameAlloc F} (flush : Z → list event) (va end_ : Z).
Context (Hlt : va < end_) (Mv : va mod 4096 = 0) (Me : end_ mod 4096 = 0).
Implicit Types (w : world C F) (L : gmap Z Z).

(** Every mapped page is in an anonymous region. *)
Definition owned (L : gmap Z Z) (rs : list (option (Region C))) : Prop :=
  ∀ p pa, L !! p = Some pa → ∃ pm c, claims rs p (pm, Anonymous, c).

(** From one world to another, nothing outside the range changes, and the frames
    of the range's pages only go back to the allocator. *)
Record cut (V : view) (L : gmap Z Z) (w : world C F) (V' : view) (L' : gmap Z Z) (w' : world C F) : Prop := {
  cut_len : length (regions (space w')) = length (regions (space w));
  cut_claims a x : ¬ va ≤ a < end_ → claims (regions (space w')) a x ↔ claims (regions (space w)) a x;
  cut_total : total w' = total w;
  cut_space : root (space w') = root (space w) ∧ brk_start (space w') = brk_start (space w) ∧ brk (space w') = brk (space w);
  cut_leaf p : ¬ va ≤ p < end_ → L' !! p = L !! p;
  cut_sub : L' ⊆ L;
  cut_view a : real a → ¬ va ≤ a < end_ → pages V' a = pages V a;
  cut_events : ∃ ev, events w' = (events w ++ ev)%list ∧ freed_by flush L ev
}.

Lemma cut_refl V L w : cut V L w V L w.
Proof. split; try done. exists []. split; [by rewrite app_nil_r|constructor]. Qed.
Lemma cut_trans V1 L1 w1 V2 L2 w2 V3 L3 w3 : cut V1 L1 w1 V2 L2 w2 → cut V2 L2 w2 V3 L3 w3 → cut V1 L1 w1 V3 L3 w3.
Proof.
  intros [A1 A2 A3 A4 A5 A6 A7 (e1 & A8 & A9)] [B1 B2 B3 B4 B5 B6 B7 (e2 & B8 & B9)]. split.
  - congruence.
  - intros a x Ha. by rewrite (B2 a x Ha), (A2 a x Ha).
  - congruence.
  - destruct A4 as (? & ? & ?), B4 as (? & ? & ?). split_and!; congruence.
  - intros p Hp. by rewrite (B5 p Hp), (A5 p Hp).
  - by etrans.
  - intros a Ha Hr. by rewrite (B7 a Ha Hr), (A7 a Ha Hr).
  - exists (e1 ++ e2)%list. split; [by rewrite B8, A8, app_assoc|]. apply freed_by_app; [done|]. by eapply freed_by_mono.
Qed.

(** The pages of one region go. *)
Lemma pages_step T V L w i r :
  as_rep T V L w → regions_ok (regions (space w)) → owned L (regions (space w)) → at_slot (regions (space w)) i r →
  0 ≤ va → start r < end_ → va < start r + len r →
  ∃ V1 L1 w1,
    (if bool_decide (backing r = Reserved) then Ret (inl tt, w)
     else d <~ subc 64 (Z.min (r_end r) end_) (Z.max (start r) va);; unmap_pages flush (Z.max (start r) va) d w) = Ret (inl tt, w1) ∧
    as_rep T V1 L1 w1 ∧ cut V L w V1 L1 w1 ∧ regions (space w1) = regions (space w) ∧
    ∀ p, in_region r p → va ≤ p < end_ → L1 !! p = None.
Proof.
  intros HR Hok Hown Hi Hva Hm1 Hm2. pose proof (ok_each _ Hok _ _ Hi) as Hr. case_bool_decide as Eb.
  - exists V, L, w. split; [done|]. split; [done|]. split; [apply cut_refl|]. split; [done|]. intros p Hp Hrg.
    destruct (L !! p) as [x|] eqn:E; [|done]. destruct (Hown _ _ E) as (pm & c & j & r' & Hj & Hin & [= _ Hb _]).
    assert (j = i) as -> by (by eapply (ok_apart _ Hok)). assert (r' = r) as -> by (unfold at_slot in *; congruence). congruence.
  - rewrite (r_end_ok r Hr). destruct Hr as (K1 & K2 & K3 & K4). set (lo := Z.max (start r) va). set (hi := Z.min (start r + len r) end_).
    rewrite subc_ret by (unfold in_width; lia). cbn [obind].
    destruct (unmap_pages_spec flush lo (hi - lo) T V L w HR) as (V1 & w1 & ev & Hr & HR1 & Ht & (S1 & S2 & S3 & S4) & Hev & Hfr & Hc); [lia|lia| |].
    { intros Hpos. destruct K4 as (M1 & M2 & M3 & M4); [lia|]. unfold map_range_ok, lo, hi. split_and!; [dlia|dlia|lia|lia]. }
    replace (lo + (hi - lo)) with hi in * by lia. exists V1, (without lo hi L), w1. split; [done|]. split; [done|]. split.
    + split; [by rewrite S2|by rewrite S2|done|done| | | |by exists ev].
      * intros p Hp. rewrite lookup_without, decide_False by lia. done.
      * apply map_filter_subseteq.
      * intros a Ha Hrg. rewrite (Hc a Ha), decide_False by lia. done.
    + split; [done|]. intros p [Hp1 Hp2] Hrg. rewrite lookup_without, decide_True by lia. done.
Qed.

Lemma as_rep_regions T V L w s' :
  as_rep T V L w → root s' = root (space w) → user_frames s' = user_frames (space w) → pt_frames s' = pt_frames (space w) →
  as_rep T V L (on_space s' w) ∧ total (on_space s' w) = total w.
Proof.
  intros [R1 R2 R3 R4 R5 R6 R7] E1 E2 E3.
  assert (total (on_space s' w) = total w) as Et by (unfold total, held; cbn; by rewrite E2, E3).
  split; [|done]. split; [cbn; by rewrite E1|done|done|done|done|cbn; by rewrite E2|]. rewrite Et. cbn. by rewrite E3.
Qed.

(** What holds of the slots when the first [i] are done. *)
Record swept (i : nat) (rs : list (option (Region C))) : Prop := {
  sw_done j r a : (j < i)%nat → at_slot rs j r → in_region r a → ¬ va ≤ a < end_;
  sw_room : (∃ j r, at_slot rs j r ∧ start r < va ∧ end_ < start r + len r) → ∃ k, rs !! k = Some None
}.

Lemma swept_skip i rs : swept i rs → (∀ r a, at_slot rs i r → in_region r a → ¬ va ≤ a < end_) → swept (S i) rs.
Proof.
  intros [S1 S2] Hs. split; [|done]. intros j r a Hj Hat Hin. destruct (decide (j = i)) as [->|]; [by eapply Hs|].
  eapply S1; [|done|done]. lia.
Qed.

Lemma swept_cut i rs rs' r :
  regions_ok rs → swept i rs → at_slot rs i r → start r < end_ → va < start r + len r → cut_slots va end_ i r rs rs' → swept (S i) rs'.
Proof.
  intros Hok [S1 S2] Hi Hm1 Hm2 [C1 C2 C3 C4 C5]. split.
  - intros j r' a Hj Hat Hin. destruct (C4 _ _ Hat) as [[Hne Hat']|[Hcl _]]; [|by apply Hcl]. eapply S1; [|done|done]. lia.
  - intros (j & r' & Hat & Hs1 & Hs2). destruct (C4 _ _ Hat) as [[Hne Hat']|[_ []]]; [|done].
    destruct (decide (len r = 0)) as [E0|]; [eauto|]. destruct Hne. pose proof (ok_each _ Hok _ _ Hi) as (? & ? & _).
    eapply (ok_apart _ Hok _ _ _ _ (Z.max va (start r))); [done|done|unfold in_region; lia|unfold in_region; lia].
Qed.

Lemma unmap_regions_spec n i T V L w :
  as_rep T V L w → regions_ok (regions (space w)) → owned L (regions (space w)) → swept i (regions (space w)) → 0 ≤ va →
  length (regions (space w)) = (i + n)%nat →
  ∃ V' L' w', unmap_regions n flush va end_ (Z.of_nat i) w = Ret (inl tt, w') ∧ as_rep T V' L' w' ∧ cut V L w V' L' w' ∧
    regions_ok (regions (space w')) ∧ owned L' (regions (space w')) ∧ swept (i + n) (regions (space w')).
Proof.
  intros HR Hok Hown Hsw Hva. revert i V L w HR Hok Hown Hsw. induction n as [|n IH]; intros i V L w HR Hok Hown Hsw Hlen.
  { exists V, L, w. split; [done|]. split; [done|]. split; [apply cut_refl|]. by rewrite Nat.add_0_r. }
  cbn [unmap_regions]. destruct (lookup_lt_is_Some_2 (regions (space w)) i ltac:(lia)) as [o Ho].
  rewrite (index_ret _ _ o) by (lia || by rewrite Nat2Z.id). cbn [obind]. replace (Z.of_nat i + 1) with (Z.of_nat (S i)) by lia.
  replace (i + S n)%nat with (S i + n)%nat in * by lia. destruct o as [r|]; [|apply IH; [done|done|done| |done]; apply swept_skip; [done|]; unfold at_slot; congruence].
  assert (at_slot (regions (space w)) i r) as Hi by done. pose proof (ok_each _ Hok _ _ Hi) as Hr. pose proof (r_end_ok r Hr) as Er.
  destruct (Z.leb_spec (r_end r) va) as [?|Hm2]; [|destruct (Z.leb_spec end_ (start r)) as [?|Hm1]]; cbn [orb];
    [apply IH; [done|done|done| |done]; apply swept_skip; [done|]; unfold at_slot, in_region; intros r' a; rewrite Ho; intros [= <-]; lia..|].
  rewrite Er in Hm2. destruct (pages_step T V L w i r HR Hok Hown Hi Hva Hm1 Hm2) as (V1 & L1 & w1 & Hpg & HR1 & HC1 & Hrs1 & Hgone).
  rewrite Hpg. cbn [obind].
  destruct (cut_region va end_ Hlt Mv Me (regions (space w)) i r Hok Hi Hm1 Hm2) as (keep & up & rs' & Et & HCS & Hrs');
    [intros ?; apply (sw_room _ _ Hsw); by exists i, r|]. rewrite Et, Hrs1, store_ret, Nat2Z.id by zlia. cbn [obind].
  set (w2 := on_space (set_regions rs' (space w1)) w1).
  destruct (as_rep_regions T V1 L1 w1 (set_regions rs' (space w1)) HR1 eq_refl eq_refl eq_refl) as [HR2 Ht2].
  assert (cut V1 L1 w1 V1 L1 w2) as HC2.
  { split; cbn; try done; [by rewrite Hrs1, (cs_len _ _ _ _ _ _ HCS)| |exists []; split; [by rewrite app_nil_r|constructor]].
    intros a x Ha. rewrite Hrs1, (cs_claims _ _ _ _ _ _ HCS). split; [by intros [? _]|]. intros ?. split; [done|]. by intros [_ ?]. }
  assert (owned L1 rs') as Hown1.
  { intros p pa Hp. destruct (Hown p pa) as (pm & c & Hc); [by eapply lookup_weaken, (cut_sub _ _ _ _ _ _ HC1)|].
    exists pm, c. apply (cs_claims _ _ _ _ _ _ HCS). split; [done|]. intros [Hin Hrg]. by rewrite (Hgone p Hin Hrg) in Hp. }
  destruct (IH (S i) V1 L1 w2 HR2 (cs_ok _ _ _ _ _ _ HCS) Hown1) as (V' & L' & w' & Hrun & HR' & HC' & Hfin);
    [by eapply swept_cut|cbn; by rewrite (cs_len _ _ _ _ _ _ HCS)|].
  exists V', L', w'. split; [|split; [done|split; [|done]]].
  - destruct up as [u|]; [|by rewrite <-Hrs']. unfold insert_region. cbn [regions set_regions]. rewrite Hrs'. exact Hrun.
  - eapply cut_trans; [done|]. by eapply cut_trans.
Qed.
End unmap.

(** ** The calls *)
Section calls.
Context {C F : Type} `{FrameAlloc F}.
Implicit Types (w : world C F) (L : gmap Z Z).

(** The invariant of a space: its tables, its pages and its regions agree. *)
Definition space_ok (T : gmap path Z) (V : view) (L : gmap Z Z) (w : world C F) : Prop :=
  as_rep T V L w ∧ regions_ok (regions (space w)) ∧ owned L (regions (space w)).

Lemma is_multiple x : is_multiple_of x PAGE_SIZE_4K = true ↔ x mod 4096 = 0.
Proof. unfold is_multiple_of. apply Z.eqb_eq. Qed.

(** Why [unmap_free] may refuse. *)
Definition unmap_refusal (va n : Z) (rs : list (option (Region C))) (e : AsError) : Prop :=
  match e with
  | Misaligned => ¬ (va mod 4096 = 0 ∧ n mod 4096 = 0)
  | Overflow => 2 ^ 64 ≤ va + n
  | KernelRange => USER_MAP_END < va + n
  | NoRegionSlot => (∀ k, rs !! k ≠ Some None) ∧ ∃ j r, at_slot rs j r ∧ start r < va ∧ va + n < start r + len r
  | _ => False
  end.

Lemma split_exists va end_ rs :
  regions_ok rs → existsb (λ r : Region C, (start r <? va) && (end_ <? r_end r)) (flatten rs) = true ↔
  ∃ j r, at_slot rs j r ∧ start r < va ∧ end_ < start r + len r.
Proof.
  intros Hok. rewrite existsb_exists. split.
  - intros (r & [j Hj]%list_elem_of_In%flatten_at & [H1%Z.ltb_lt H2%Z.ltb_lt]%andb_true_iff).
    rewrite (r_end_ok r (ok_each _ Hok _ _ Hj)) in H2. by exists j, r.
  - intros (j & r & Hj & H1 & H2). exists r. split; [apply list_elem_of_In, flatten_at; by exists j|].
    rewrite (r_end_ok r (ok_each _ Hok _ _ Hj)). apply andb_true_iff. by rewrite !Z.ltb_lt.
Qed.

(** The loop's result, when every slot is done. *)
Lemma munmap_done flush T V L w va n V' L' w' :
  as_rep T V' L' w' → cut flush va (va + n) V L w V' L' w' → regions_ok (regions (space w')) → owned L' (regions (space w')) →
  swept va (va + n) (length (regions (space w'))) (regions (space w')) → 0 ≤ va → va mod 4096 = 0 → va + n ≤ USER_MAP_END →
  ∃ V2, space_ok T V2 (without va (va + n) L) w' ∧ cleared va (va + n) V V2 ∧ total w' = total w ∧
    (∀ a x, claims (regions (space w')) a x ↔ claims (regions (space w)) a x ∧ ¬ va ≤ a < va + n) ∧
    ∃ ev, events w' = (events w ++ ev)%list ∧ freed_by flush L ev.
Proof.
  intros HR' HC Hok' Hown' Hsw Hva Mv Hend. exists V'.
  assert (∀ a x, claims (regions (space w')) a x → ¬ va ≤ a < va + n) as Hno.
  { intros a x (j & r & Hj & Hin & _). eapply (sw_done _ _ _ _ Hsw); [|done|done]. by apply lookup_lt_Some in Hj. }
  assert (without va (va + n) L = L') as ->.
  { apply map_eq. intros p. rewrite lookup_without. case_decide as Hp; [|symmetry; by apply (cut_leaf _ _ _ _ _ _ _ _ _ HC)].
    destruct (L' !! p) as [x|] eqn:E; [|done]. destruct (Hown' _ _ E) as (pm & c & Hc). by destruct (Hno _ _ Hc). }
  split; [done|]. split; [|split; [apply HC|split; [|apply HC]]].
  - intros a Ha. case_decide as Hrg; [|by apply (cut_view _ _ _ _ _ _ _ _ _ HC)].
    assert (USER_MAP_END < USER_END) by (vm_compute; done). pose proof (ar_leaf _ _ _ _ HR' a ltac:(lia)) as Hl.
    destruct (L' !! page_of a) as [x|] eqn:E; [|done]. destruct (Hown' _ _ E) as (pm & c & Hc). exfalso. apply (Hno _ _ Hc).
    unfold page_of. clear - Hva Mv Hrg. dlia.
  - intros a x. split.
    + intros Hc. pose proof (Hno _ _ Hc). split; [|done]. by apply (cut_claims _ _ _ _ _ _ _ _ _ HC).
    + intros [Hc Hrg]. by apply (cut_claims _ _ _ _ _ _ _ _ _ HC).
Qed.

(** C23: [munmap] of a range returns; on success every address of the range is
    claimed by no region and mapped by no page, every other address keeps its
    region, its permissions and its page, each frame freed is the frame of a page
    of the range, freed right after that page's flush, and the space's frames and
    the allocator's stay the same in number.  On an error nothing changed, and the
    error says why; a split fails only when every slot is taken. *)
Theorem munmap_exact flush T V L w va n :
  space_ok T V L w → u64 va → u64 n →
  ∃ r w', unmap_free flush va n w = Ret (r, w') ∧
    match r with
    | inl _ => ∃ V', space_ok T V' (without va (va + n) L) w' ∧ cleared va (va + n) V V' ∧ total w' = total w ∧
        (∀ a x, claims (regions (space w')) a x ↔ claims (regions (space w)) a x ∧ ¬ va ≤ a < va + n) ∧
        ∃ ev, events w' = (events w ++ ev)%list ∧ freed_by flush L ev
    | inr e => w' = w ∧ unmap_refusal va n (regions (space w)) e
    end.
Proof.
  intros (HR & Hok & Hown) Hva Hn. unfold u64, in_width in *. unfold unmap_free.
  destruct (is_multiple_of va PAGE_SIZE_4K) eqn:E1; cbn [negb orb];
    [|eexists _, _; split; [done|]; split; [done|]; intros [E%is_multiple _]; congruence]. apply is_multiple in E1.
  destruct (is_multiple_of n PAGE_SIZE_4K) eqn:E2; cbn [negb orb];
    [|eexists _, _; split; [done|]; split; [done|]; intros [_ E%is_multiple]; congruence]. apply is_multiple in E2.
  unfold checked_add. destruct (Z.ltb_spec (va + n) (2 ^ 64)); [|eexists _, _; split; [done|]; split; [done|]; done].
  destruct (Z.ltb_spec USER_MAP_END (va + n)); [eexists _, _; split; [done|]; done|].
  destruct (Z.eqb_spec n 0) as [->|Hne].
  { eexists _, _. split; [done|]. exists V. rewrite Z.add_0_r. assert (without va va L = L) as ->.
    { apply map_eq. intros p. rewrite lookup_without. by case_decide; [lia|]. }
    split; [done|]. split; [intros a _; by case_decide; [lia|]|]. split; [done|]. split; [|exists []; split; [by rewrite app_nil_r|constructor]].
    intros a x. split; [intros ?; split; [done|lia]|by intros [? _]]. }
  pose proof (split_exists va (va + n) (regions (space w)) Hok) as Hsp. pose proof (slot_free_exists (regions (space w))) as Hfr.
  destruct (existsb _ (flatten _)) eqn:Es; [destruct (existsb slot_free _) eqn:Ef|]; cbn [negb andb].
  2:{ eexists _, _. split; [done|]. split; [done|]. split; [|by apply Hsp]. intros k Hk. assert (false = true); [|done]. apply Hfr. by exists k. }
  all: destruct (unmap_regions_spec flush va (va + n) ltac:(lia) E1 ltac:(dlia) (length (regions (space w))) 0 T V L w HR Hok Hown) as (V' & L' & w' & Hrun & HR' & HC & Hok' & Hown' & Hsw);
    [split; [lia|]|lia|done|].
  1: intros _; by apply Hfr. 2: intros Hx; apply Hsp in Hx; congruence.
  all: exists (inl tt), w'; split; [exact Hrun|]; rewrite <-(cut_len _ _ _ _ _ _ _ _ _ HC), Nat.add_0_l in Hsw; apply (munmap_done flush T V L w va n V' L' w'); done || lia.
Qed.

(** Why [map_anon] may refuse before it maps anything. *)
Definition map_refusal (va n : Z) (s : AddressSpace C) (e : AsError) : Prop :=
  match e with
  | Misaligned | Overflow | NullGuard | KernelRange => ¬ map_range_ok va n
  | Overlap => ¬ range_free (flatten (regions s)) va n
  | NoRegionSlot => ∀ k, regions s !! k ≠ Some None
  | _ => False
  end.

Lemma check_map_range_error va n e : check_map_range va n = inr e → e ∈ [Misaligned; Overflow; NullGuard; KernelRange].
Proof.
  unfold check_map_range. rewrite !elem_of_cons. destruct (n =? 0); [done|]. destruct (_ || _); [intros [= <-]; auto|].
  destruct (checked_add 64 va n) as [x|]; [|intros [= <-]; auto]. destruct (va <? NULL_GUARD_LEN); [intros [= <-]; auto|].
  destruct (_ || _); [intros [= <-]; auto|]. destruct (_ || _); [intros [= <-]; auto|done].
Qed.

Lemma check_new_region_spec va n (s : AddressSpace C) :
  0 ≤ va → 0 < n →
  match check_new_region va n s with
  | inl _ => map_range_ok va n ∧ range_free (flatten (regions s)) va n ∧ ∃ k, regions s !! k = Some None
  | inr e => map_refusal va n s e
  end.
Proof.
  intros Hva Hn. unfold check_new_region. pose proof (check_map_range_ok va n Hva Hn) as Hc.
  destruct (check_map_range va n) as [[]|e] eqn:Ec.
  - assert (map_range_ok va n) as Hok by (by apply Hc). assert (USER_MAP_END < 2 ^ 63) by (vm_compute; done).
    pose proof Hok as (_ & _ & _ & Hend). pose proof (overlaps_free s va n Hva ltac:(lia)) as Ho. destruct (overlaps va n s).
    + intros Hf. by apply Ho in Hf.
    + pose proof (slot_free_exists (regions s)) as Hs. destruct (existsb slot_free (regions s)); cbn [negb].
      * split_and!; [done|by apply Ho|by apply Hs].
      * intros k Hk. assert (false = true); [|done]. apply Hs. by exists k.
  - assert (¬ map_range_ok va n) as Hno by (intros Hx; apply Hc in Hx; congruence).
    apply check_map_range_error in Ec. rewrite !elem_of_cons, elem_of_nil in Ec. by destruct Ec as [->|[->|[->|[->|[]]]]].
Qed.

Lemma free_vacant L (rs : list (option (Region C))) va n :
  regions_ok rs → owned L rs → range_free (flatten rs) va n → vacant va (va + n) L.
Proof.
  intros Hok Hown Hf p Hp. destruct (L !! p) as [x|] eqn:E; [|done]. destruct (Hown _ _ E) as (pm & c & j & r & Hj & Hin & _).
  exfalso. specialize (Hf r ltac:(apply flatten_at; by exists j)). apply meets_false in Hf. apply Hf.
  rewrite (r_end_ok r (ok_each _ Hok _ _ Hj)). unfold in_region in Hin. lia.
Qed.

End calls.

(** ** A space to apply them to *)
Definition demo_world (rs : list (option (Region unit))) : world unit (gset Z) :=
  mkWorld (mkSpace 0x1000 rs 0 1 0 0) demo_memory demo_pool [].

Lemma demo_rep rs : as_rep {[ [] := 0x1000 ]} empty_view ∅ (demo_world rs).
Proof.
  split; cbn.
  - apply fresh_root; [reflexivity|apply demo_outside].
  - intros va _. by rewrite lookup_empty.
  - done.
  - done.
  - done.
  - done.
  - split; [lia|]. unfold total, held. cbn. vm_compute. done.
Qed.

Definition demo_regions : list (option (Region unit)) := [Some (mkRegion 0x400000 0x4000 RW Reserved tt); None].
Lemma demo_regions_ok : regions_ok demo_regions.
Proof.
  assert (∀ j r, at_slot demo_regions j r → j = 0%nat ∧ r = mkRegion 0x400000 0x4000 RW Reserved tt) as Hone.
  { intros [|[|j]] r Hj; cbn in Hj; [by injection Hj|done|done]. }
  split.
  - intros j r [_ ->]%Hone. unfold region_ok, map_range_ok. vm_compute. intuition congruence.
  - intros i j r r' a [-> _]%Hone [-> _]%Hone. done.
Qed.
Lemma demo_ok : space_ok {[ [] := 0x1000 ]} empty_view ∅ (demo_world demo_regions).
Proof. split; [apply demo_rep|]. split; [apply demo_regions_ok|]. done. Qed.

Lemma munmap_exact_witness :
  ∃ r w', unmap_free (λ a, [Flush a]) 0x401000 0x1000 (demo_world demo_regions) = Ret (r, w') ∧
    match r with
    | inl _ => ∃ V', space_ok {[ [] := 0x1000 ]} V' (without 0x401000 (0x401000 + 0x1000) ∅) w' ∧
        cleared 0x401000 (0x401000 + 0x1000) empty_view V' ∧ total w' = total (demo_world demo_regions) ∧
        (∀ a x, claims (regions (space w')) a x ↔ claims demo_regions a x ∧ ¬ 0x401000 ≤ a < 0x401000 + 0x1000) ∧
        ∃ ev, events w' = ([] ++ ev)%list ∧ freed_by (λ a, [Flush a]) ∅ ev
    | inr e => w' = demo_world demo_regions ∧ unmap_refusal 0x401000 0x1000 demo_regions e
    end.
Proof. apply (munmap_exact (λ a, [Flush a]) _ _ _ (demo_world demo_regions) _ _ demo_ok); unfold u64, in_width; lia. Defined.

