(* ===== verification/AddrSpaceHeap.v ===== *)
(** * The break and user ranges

    Growing the heap: after [heap_grow_check] and the mapping of its pages,
    [heap_grow_commit] cannot fail and keeps the space's invariant.  A user range
    passes [check_user_range] exactly when every address of it is mapped for user
    access. *)

From stdpp Require Import base gmap list numbers.
From S2P Require Import Prelude Paging PagingRep PagingProps PagingRange.
From S2P Require Import AddrSpace AddrSpacePlace AddrSpacePages AddrSpaceRegions AddrSpaceProps.
Import Paging AddrSpace.

Local Open Scope Z_scope.

(** ** The break *)
Section heap.
Context {C F : Type} `{FrameAlloc F}.
Implicit Types (r : Region C) (rs : list (option (Region C))) (s : AddressSpace C) (w : world C F).

Lemma position_first {A} (f : A → bool) l :
  match position f l with
  | Some i => 0 ≤ i ∧ ∃ x, l !! Z.to_nat i = Some x ∧ f x = true
  | None => Forall (λ x, f x = false) l
  end.
Proof.
  induction l as [|x l IH]; cbn [position]; [constructor|]. destruct (f x) eqn:E; [split; [lia|]; by exists x|].
  destruct (position f l) as [i|]; [|by constructor]. destruct IH as (Hi & y & Hy & Hf). split; [lia|]. exists y.
  by replace (Z.to_nat (i + 1)) with (S (Z.to_nat i)) by lia.
Qed.

(** A region extended over a free range that starts where it ends. *)
Lemma extend_ok rs i r n :
  regions_ok rs → at_slot rs i r → 0 < n → map_range_ok (start r + len r) n →
  (∀ j r' a, at_slot rs j r' → start r + len r ≤ a < start r + len r + n → ¬ in_region r' a) →
  let r' := mkRegion (start r) (len r + n) (perms r) (backing r) (core r) in
  regions_ok (<[i := Some r']> rs) ∧
  ∀ a x, claims (<[i := Some r']> rs) a x ↔ claims rs a x ∨ start r + len r ≤ a < start r + len r + n ∧ attrs r = x.
Proof.
  intros [O1 O2] Hi Hn (M1 & M2 & M3 & M4) Hfree r'. assert (i < length rs)%nat as Hlen by (by apply lookup_lt_Some in Hi).
  destruct (O1 _ _ Hi) as (K1 & K2 & K3 & K4). assert (USER_MAP_END < 2 ^ 63 ∧ 0 < NULL_GUARD_LEN) as [Hend Hgd] by (vm_compute; done).
  assert (∀ a, in_region r' a ↔ in_region r a ∨ start r + len r ≤ a < start r + len r + n) as Hin by (intros a; unfold in_region, r'; cbn; lia).
  split.
  - split.
    + intros j q [[-> [= <-]]|[_ Hj]]%at_insert; [|by eapply O1]. unfold region_ok, map_range_ok, r'. cbn. split_and!; [lia|lia|lia|]. intros _.
      destruct (decide (len r = 0)) as [E|]; [rewrite E, Z.add_0_r in *; split_and!; try lia; dlia|].
      destruct K4 as (L1 & L2 & L3 & L4); [lia|]. split_and!; try lia. dlia.
    + intros j k q1 q2 a [[-> [= <-]]|[Hne Hj]]%at_insert [[-> E]|[Hne' Hk]]%at_insert H1 H2; try done.
      * apply Hin in H1 as [H1|H1]; [by eapply O2|]. by destruct (Hfree _ _ _ Hk H1).
      * injection E as <-. apply Hin in H2 as [H2|H2]; [by eapply O2|]. by destruct (Hfree _ _ _ Hj H2).
      * by eapply O2.
  - intros a x. split.
    + intros (j & q & [[-> [= <-]]|[_ Hj]]%at_insert & Ha & Hx); [|left; by exists j, q].
      apply Hin in Ha as [Ha|Ha]; [left; by exists i, r|by right].
    + intros [(j & q & Hj & Ha & Hx)|[Ha Hx]].
      * destruct (decide (j = i)) as [->|Hne]; [|exists j, q; split; [by apply at_insert_other|done]].
        assert (q = r) as -> by (unfold at_slot in *; congruence). exists i, r'. split; [by apply at_insert_same|]. split; [apply Hin; by left|done].
      * exists i, r'. split; [by apply at_insert_same|]. split; [apply Hin; by right|done].
Qed.

Lemma free_range_slots rs va n j r a :
  regions_ok rs → range_free (flatten rs) va n → at_slot rs j r → va ≤ a < va + n → ¬ in_region r a.
Proof.
  intros Hok Hfree Hj Ha Hin. specialize (Hfree r ltac:(apply flatten_at; by exists j)). apply meets_false in Hfree. apply Hfree.
  rewrite (r_end_ok r (ok_each _ Hok _ _ Hj)). unfold in_region in Hin. lia.
Qed.

(** What the check of a growth establishes. *)
Lemma heap_grow_check_spec va n s :
  0 ≤ va → 0 < n → heap_grow_check va n s = inl tt →
  map_range_ok va n ∧ range_free (flatten (regions s)) va n ∧ (heap_slot va s = None → ∃ k, regions s !! k = Some None).
Proof.
  intros Hva Hn. unfold heap_grow_check. pose proof (check_map_range_ok va n Hva Hn) as Hc. destruct (check_map_range va n) as [[]|]; [|done].
  assert (map_range_ok va n) as Hok by (by apply Hc). assert (USER_MAP_END < 2 ^ 63) by (vm_compute; done).
  pose proof Hok as (_ & _ & _ & Hend). pose proof (overlaps_free s va n Hva ltac:(lia)) as Ho. destruct (overlaps va n s); [done|].
  pose proof (slot_free_exists (regions s)) as Hs. intros Hr. split; [done|]. split; [by apply Ho|]. intros Eh. rewrite Eh in Hr. cbn in Hr.
  apply Hs. by destruct (existsb slot_free (regions s)).
Qed.

(** The slots after a commit. *)
Lemma heap_commit_slots va n want c s :
  regions_ok (regions s) → 0 < n → map_range_ok va n → range_free (flatten (regions s)) va n →
  (heap_slot va s = None → ∃ k, regions s !! k = Some None) →
  ∃ rs k, heap_grow_commit va n want c s = Ret (inl tt, set_brk want (set_regions rs s)) ∧ regions_ok rs ∧
    ∀ a x, claims rs a x ↔ claims (regions s) a x ∨ va ≤ a < va + n ∧ x = (RW, Anonymous, k).
Proof.
  intros Hok Hn Hrng Hfree Hroom. unfold heap_grow_commit. pose proof (position_first (is_heap s va) (regions s)) as Hpos.
  fold (heap_slot va s) in Hpos. pose proof Hrng as (M1 & M2 & M3 & M4). assert (USER_MAP_END < 2 ^ 63) as Hend by (vm_compute; done).
  destruct (heap_slot va s) as [i|] eqn:Eh.
  - destruct Hpos as (Hi & [r|] & Hat & Hh); [|done]. cbn [is_heap] in Hh. rewrite !andb_true_iff, !bool_decide_eq_true in Hh.
    destruct Hh as [[[_ Hend'%Z.eqb_eq] Hb] Hp]. pose proof (ok_each _ Hok _ _ Hat) as Hr. rewrite (r_end_ok r Hr) in Hend'. subst va.
    rewrite (index_ret _ _ (Some r)) by done. cbn [obind]. unfold checked_add. destruct Hr as (K1 & K2 & K3 & K4).
    destruct (Z.ltb_spec (len r + n) (2 ^ 64)); [|lia].
    assert (Z.to_nat i < length (regions s))%nat as Hil by (by apply lookup_lt_Some in Hat).
    rewrite store_ret by (unfold zlen; lia). cbn [obind].
    destruct (extend_ok (regions s) (Z.to_nat i) r n Hok Hat Hn Hrng) as [Hok' Hcl]; [intros j r' a Hj; by eapply free_range_slots|].
    eexists _, (core r). split; [done|]. split; [done|]. intros a x. rewrite Hcl. unfold attrs. rewrite Hb, Hp. naive_solver.
  - destruct (Hroom eq_refl) as [k Hk]. unfold insert_region. pose proof (fill_slot_spec (mkRegion va n RW Anonymous c) (regions s)) as Hfs.
    destruct (fill_slot _ (regions s)) as [rs'|]; [|by destruct (Hfs k)]. destruct Hfs as (k' & Hk' & ->).
    destruct (insert_ok (regions s) k' (mkRegion va n RW Anonymous c) Hok Hk') as [Hok' Hcl].
    { assert (0 < NULL_GUARD_LEN) by (vm_compute; done). unfold region_ok, map_range_ok; cbn. split_and!; lia. }
    { intros j r' a Hj Ha. eapply free_range_slots; [done|done|done|exact Ha]. }
    eexists _, c. split; [done|]. split; [done|]. intros a x. rewrite Hcl. unfold in_region, attrs. cbn. naive_solver.
Qed.

(** C25: when [heap_grow_check] passes and [map_pages] has mapped the growth,
    [heap_grow_commit] succeeds: the heap's region, old or new, covers exactly the
    new range beyond what it did, no other region changes, the break is the one
    asked for, and the space's invariant holds. *)
Theorem heap_growth_commits T V L w va n want c w1 :
  space_ok T V L w → 0 ≤ va → 0 < n → heap_grow_check va n (space w) = inl tt → map_pages va n RW w = Ret (inl tt, w1) →
  ∃ s' T' V' L' k, heap_grow_commit va n want c (space w1) = Ret (inl tt, s') ∧ space_ok T' V' L' (on_space s' w1) ∧ brk s' = want ∧
    ∀ a x, claims (regions s') a x ↔ claims (regions (space w)) a x ∨ va ≤ a < va + n ∧ x = (RW, Anonymous, k).
Proof.
  intros (HR & Hok & Hown) Hva Hn Hchk Hmap. apply heap_grow_check_spec in Hchk as (Hrng & Hfree & Hroom); [|done|done].
  destruct (map_pages_run T V L w va n RW HR Hn Hrng) as (r & w1' & Hmap' & Hres); [by eapply free_vacant|].
  rewrite Hmap in Hmap'. injection Hmap' as <- <-. destruct Hres as (T1 & V1 & L1 & HR1 & HF & Ht & (S1 & S2 & S3 & S4) & _).
  assert (heap_slot va (space w1) = heap_slot va (space w)) as Eh by (unfold heap_slot, is_heap; by rewrite S2, S3).
  destruct (heap_commit_slots va n want c (space w1)) as (rs & k & Hc & Hok' & Hcl); [by rewrite S2|done|done|by rewrite S2|by rewrite Eh, S2|].
  destruct (as_rep_regions T1 V1 L1 w1 (set_brk want (set_regions rs (space w1))) HR1 eq_refl eq_refl eq_refl) as [HR2 _].
  rewrite S2 in Hcl. exists (set_brk want (set_regions rs (space w1))), T1, V1, L1, k. split; [done|]. split; [split; [done|split; [done|]]|done].
  intros p pa Hp. cbn. destruct (decide (va ≤ p < va + n)) as [Hin|Hout].
  - exists RW, k. apply Hcl. by right.
  - rewrite (filled_out _ _ _ _ _ _ _ HF p Hout) in Hp. destruct (Hown _ _ Hp) as (pm & c' & Hcc). exists pm, c'. apply Hcl. by left.
Qed.
End heap.

Definition demo_grown : world unit (gset Z) :=
  match map_pages 0x800000 0x1000 RW (demo_world demo_regions) with Ret (_, w) => w | _ => demo_world demo_regions end.

Lemma heap_growth_commits_witness :
  ∃ s' T' V' L' k, heap_grow_commit 0x800000 0x1000 0x800800 tt (space demo_grown) = Ret (inl tt, s') ∧
    space_ok T' V' L' (on_space s' demo_grown) ∧ brk s' = 0x800800 ∧
    ∀ a x, claims (regions s') a x ↔ claims demo_regions a x ∨ 0x800000 ≤ a < 0x800000 + 0x1000 ∧ x = (RW, Anonymous, k).
Proof.
  apply (heap_growth_commits _ _ _ (demo_world demo_regions) 0x800000 0x1000 0x800800 tt demo_grown demo_ok); [lia|lia|reflexivity|].
  vm_compute. reflexivity.
Defined.

(** ** User ranges *)
Section user_range.
Context {C F : Type} `{FrameAlloc F} (rt : Z) (T : gmap path Z) (m : memory) (f : F) (V : view).
Context (HR : pt_rep rt T m f V).

(** An address a user access may reach. *)
Definition user_page (a : Z) : Prop := ∃ pa size fl, pages V a = Some (pa, size, fl) ∧ contains fl USER = true.

(** A probe that finds a page finds it for every address the page covers. *)
Lemma probe_page va pa size fl va' :
  0 ≤ va < USER_END → probe rt va m = Ret (Mapped pa size fl) → covers va size va' = true → ∃ x, pages V va' = Some (x, size, fl).
Proof.
  intros Hva Hpr Hcov. unfold probe in Hpr. rewrite canonical_low in Hpr by done. cbn [negb] in Hpr.
  pose proof (rep_wf _ _ _ _ _ HR) as HW. destruct (stop_exists _ _ _ HW va) as (k & b & HS).
  destruct (stop_entry _ _ _ HW _ _ _ HS) as (e & He & _). rewrite (probe_stop _ _ _ HW va k b e HS He) in Hpr. injection Hpr as Hpr.
  destruct (present e) eqn:Hp; [|done]. injection Hpr as _ <- <-.
  pose proof (stop_level rt T m va k b e HW HS He Hp) as El. rewrite covers_path, El, bool_decide_eq_true in Hcov.
  pose proof (stop_pos _ _ _ _ HS) as Hk.
  assert (path_to va' k = path_to va k ∧ index_at va' k = index_at va k) as [Ek Ei].
  { rewrite (path_to_S va' (pred k)), (path_to_S va (pred k)) in Hcov by lia. replace (S (pred k)) with k in Hcov by lia. by injection Hcov. }
  assert (stop T va' k b) as HS' by (destruct HS; split; rewrite ?Ek, ?Hcov; done).
  pose proof (rep_pages _ _ _ _ _ HR va') as Ht. rewrite (translate_stop _ _ _ HW va' k b e HS') in Ht by (by rewrite Ei).
  injection Ht as <-. unfold leaf_result. rewrite Hp. eauto.
Qed.

(** A probe that finds no page: the address is not mapped. *)
Lemma probe_skip va k : 0 ≤ va < USER_END → probe rt va m = Ret (Skip k) → pages V va = None.
Proof.
  intros Hva Hpr. unfold probe in Hpr. rewrite canonical_low in Hpr by done. cbn [negb] in Hpr.
  pose proof (rep_wf _ _ _ _ _ HR) as HW. destruct (stop_exists _ _ _ HW va) as (j & b & HS).
  destruct (stop_entry _ _ _ HW _ _ _ HS) as (e & He & _). rewrite (probe_stop _ _ _ HW va j b e HS He) in Hpr. injection Hpr as Hpr.
  pose proof (rep_pages _ _ _ _ _ HR va) as Ht. rewrite (translate_stop _ _ _ HW va j b e HS He) in Ht. injection Ht as <-.
  unfold leaf_result. by destruct (present e).
Qed.

(** The end of the page at [va], and the addresses up to it. *)
Lemma page_end va size :
  0 ≤ va < USER_END → let next := saturating_add 64 (Z.land va (notw 64 (bytes size - 1))) (bytes size) in
  va < next ∧ va / 4096 < next / 4096 ∧ ∀ a, va ≤ a < next → covers va size a = true.
Proof.
  intros Hva. cbv zeta. unfold USER_END in Hva.
  assert (∃ n, bytes size = 2 ^ n ∧ 12 ≤ n ≤ 21) as (n & Hb & Hn) by (destruct size; [exists 12|exists 21]; split; (done || lia)).
  rewrite Hb, land_notw by (unfold in_width; lia). unfold saturating_add.
  assert (Hspan : 2 ^ n = 4096 * 2 ^ (n - 12)) by (change 4096 with (2 ^ 12); rewrite <-Z.pow_add_r by lia; f_equal; lia).
  pose proof (pow2_pos (n - 12) ltac:(lia)) as Hq. pose proof (pow2_le n 21 ltac:(lia)) as Hle. change (2 ^ 21) with 2097152 in Hle.
  pose proof (Z.div_mod va (2 ^ n) ltac:(lia)) as Hd. pose proof (Z.mod_pos_bound va (2 ^ n) ltac:(lia)) as Hm.
  rewrite Z.min_l by lia. set (x := va / 2 ^ n) in *. assert (va - va mod 2 ^ n + 2 ^ n = 2 ^ n * (x + 1)) as -> by lia.
  split; [lia|]. split.
  - rewrite Hspan. replace (4096 * 2 ^ (n - 12) * (x + 1)) with (2 ^ (n - 12) * (x + 1) * 4096) by lia. rewrite Z.div_mul by lia.
    apply Z.div_lt_upper_bound; nia.
  - intros a Ha. assert (2 ^ n * (x + 1) ≤ 0x0000800000000000) as Htop.
    { assert (Hu : 0x0000800000000000 = 2 ^ n * 2 ^ (47 - n)) by (rewrite <-Z.pow_add_r by lia; by replace (n + (47 - n)) with 47 by lia).
      assert (2 ^ n * x < 2 ^ n * 2 ^ (47 - n)) as Hx by lia. apply Z.mul_lt_mono_pos_l in Hx; [|lia].
      rewrite Hu. apply Z.mul_le_mono_nonneg_l; lia. }
    unfold covers. rewrite Hb, !Z.mod_small by lia. apply Z.eqb_eq. fold x. apply Z.div_unique with (a - 2 ^ n * x); lia.
Qed.

Lemma user_mapped_run n ptr end_ va :
  0 ≤ ptr ≤ va → end_ ≤ USER_MAP_END → (va < end_ → (end_ - va / 4096 * 4096) / 4096 + 1 < Z.of_nat n) → (0 < n)%nat →
  (∀ a, ptr ≤ a < va → user_page a) →
  ∃ r, user_mapped_from n rt va end_ m = Ret r ∧
    match r with inl _ => ∀ a, ptr ≤ a < end_ → user_page a | inr e => e = Unmapped ∧ ∃ a, ptr ≤ a < end_ ∧ ¬ user_page a end.
Proof.
  intros Hptr Hend. revert va Hptr. induction n as [|n IH]; intros va Hptr Hfuel Hn Hall; [lia|]. cbn [user_mapped_from].
  assert (USER_MAP_END < USER_END) as Hu by (vm_compute; done). destruct (Z.ltb_spec va end_) as [Hlt|Hge].
  2:{ exists (inl tt). split; [done|]. intros a Ha. apply Hall. lia. }
  destruct (probe_spec rt T m f V HR va) as (p & Hpr & _); [unfold u64, in_width, USER_END in *; lia|unfold USER_END in *; lia|].
  rewrite Hpr. cbn [obind]. destruct p as [k|pa size fl].
  - exists (inr Unmapped). split; [done|]. split; [done|]. exists va. split; [lia|]. intros (x & sz & fl & Hx & _).
    rewrite (probe_skip va k) in Hx by (done || lia). done.
  - destruct (contains fl USER) eqn:Hus; cbn [negb].
    + destruct (page_end va size) as (H1 & H2 & H3); [lia|]. set (next := saturating_add 64 _ _) in *.
      destruct (Z.leb_spec next va); [lia|]. specialize (Hfuel Hlt). apply IH; [lia| | |].
      * intros Hne. clear - H2 Hfuel Hne Hlt. dlia.
      * clear - Hfuel Hlt. dlia.
      * intros a Ha. destruct (Z.lt_ge_cases a va); [apply Hall; lia|].
        destruct (probe_page va pa size fl a ltac:(lia) Hpr) as [x Hx]; [apply H3; lia|]. by exists x, size, fl.
    + exists (inr Unmapped). split; [done|]. split; [done|]. exists va. split; [lia|]. intros (x & sz & fl' & Hx & Hc).
      destruct (probe_page va pa size fl va ltac:(lia) Hpr (covers_self va size)) as [y Hy]. congruence.
Qed.

(** What each refusal says of the range. *)
Definition refusal_means (ptr n : Z) (e : UserMemError) : Prop :=
  match e with
  | MemNullGuard => 0 < n ∧ ptr < NULL_GUARD_LEN
  | MemOverflow => 2 ^ 64 ≤ ptr + n
  | Kernel => USER_MAP_END ≤ ptr ∨ USER_MAP_END < ptr + n
  | NonCanonical => is_canonical ptr = false ∨ is_canonical (ptr + n - 1) = false
  | Unmapped => user_range_ok ptr n = true ∧ ∃ a, ptr ≤ a < ptr + n ∧ ¬ user_page a
  end.

Lemma refused_means ptr n : u64 ptr → u64 n → user_range_ok ptr n = false → refusal_means ptr n (refused ptr n).
Proof.
  unfold u64, in_width, user_range_ok, refused, checked_add. intros Hp Hn. destruct (Z.eqb_spec n 0) as [->|Hne].
  - intros H1%Z.ltb_ge. destruct (is_canonical ptr) eqn:E; cbn; [by left|by left].
  - destruct (Z.ltb_spec (ptr + n) (2 ^ 64)); [|done]. intros Hr. unfold wrapping_sub, wrap. rewrite Z.mod_small by lia.
    destruct (is_canonical ptr) eqn:E1; cbn [negb orb]; [|by left]. destruct (is_canonical (ptr + n - 1)) eqn:E2; cbn [negb]; [|by right].
    destruct (Z.leb_spec USER_MAP_END ptr); [by left|]. destruct (Z.ltb_spec USER_MAP_END (ptr + n)); cbn [orb]; [by right|].
    split; [lia|]. apply andb_false_iff in Hr as [Hr%Z.leb_gt|Hr%Z.leb_gt]; lia.
Qed.

(** [check_user_range] returns for every range and never panics.  It accepts
    a range exactly when it is in the user half and every address of it is mapped
    for user access; otherwise the error is true of the range. *)
Theorem user_range_checked (s : AddressSpace C) ptr n :
  root s = rt → u64 ptr → u64 n →
  ∃ r, check_user_range ptr n s m = Ret r ∧
    match r with
    | inl _ => user_range_ok ptr n = true ∧ ∀ a, ptr ≤ a < ptr + n → user_page a
    | inr e => refusal_means ptr n e
    end.
Proof.
  intros Hroot Hp Hn. unfold check_user_range. rewrite Hroot. destruct (user_range_ok ptr n) eqn:Hok; cbn [negb].
  2:{ eexists. split; [done|]. by apply refused_means. }
  destruct (Z.eqb_spec n 0) as [->|Hne]; [eexists; split; [done|]; split; [done|lia]|].
  pose proof Hok as Hok'. unfold u64, in_width, user_range_ok, checked_add in *. destruct (Z.eqb_spec n 0); [done|].
  destruct (Z.ltb_spec (ptr + n) (2 ^ 64)); [|done]. apply andb_true_iff in Hok' as [_ Hend%Z.leb_le].
  unfold wrapping_add, wrap. rewrite Z.mod_small by lia.
  destruct (user_mapped_run (S (Z.to_nat (n / 4096 + 2))) ptr (ptr + n) ptr) as (r & Hr & Hres); [lia|done| |lia|lia|].
  { intros _. rewrite Nat2Z.inj_succ, Z2Nat.id by dlia. clear - Hp Hn. dlia. }
  exists r. split; [done|]. destruct r as [u|e]; [done|]. destruct Hres as [-> Hres]. split; [|done].
  unfold user_range_ok, checked_add. destruct (Z.eqb_spec n 0); [done|]. destruct (Z.ltb_spec (ptr + n) (2 ^ 64)); [done|lia].
Qed.
End user_range.

Lemma user_range_checked_witness :
  ∃ r, check_user_range 0x400123 0x2000 (space (demo_world demo_regions)) demo_memory = Ret r ∧
    match r with
    | inl _ => user_range_ok 0x400123 0x2000 = true ∧ ∀ a, 0x400123 ≤ a < 0x400123 + 0x2000 → user_page empty_view a
    | inr e => refusal_means empty_view 0x400123 0x2000 e
    end.
Proof.
  apply (user_range_checked 0x1000 {[ [] := 0x1000 ]} demo_memory demo_pool empty_view).
  - apply fresh_root; [reflexivity|apply demo_outside].
  - reflexivity.
  - unfold u64, in_width. lia.
  - unfold u64, in_width. lia.
Defined.
