(* ===== verification/AddrSpaceTeardown.v ===== *)
(** * The end of an address space (src/crates/core/src/proc/addr_space/mod.rs)

    [teardown] over the walk of the user half. *)

From stdpp Require Import base strings numbers gmap list sorting.
From S2P Require Import Prelude Paging PagingRep PagingProps PagingTeardown AddrSpace.
Import Paging AddrSpace.

Local Open Scope Z_scope.

Lemma user_index va : 0 ≤ va < USER_END → index_at va LEVELS < 256.
Proof.
  unfold USER_END, index_at, LEVELS. intros Hva. change 0x1FF with (2 ^ 9 - 1). rewrite land_mask, Z.shiftr_div_pow2 by lia.
  change (12 + 9 * (Z.of_nat 4 - 1)) with 39. assert (va / 2 ^ 39 < 256) by (apply Z.div_lt_upper_bound; lia).
  pose proof (Z.div_pos va (2 ^ 39)). rewrite Z.mod_small; lia.
Qed.

Section Teardown.
Context {C F : Type} `{FrameAlloc F}.

(** C26: Tearing a space down frees everything its user half holds, once, and nothing
    else. When every user leaf is a 4 KiB page and no two user entries hold the same
    frame, as the code's safety contract has it, [teardown] returns. The frames it
    hands to the allocator are exactly those the present entries of the user half
    held, tables and pages alike, none twice; the counts it reports are those of the
    leaves and of the tables; no user address translates afterwards, every
    kernel address translates as before, the regions are empty and the counters
    are those of a space with only its root. *)
Theorem teardown_frees_all (w : world C F) T :
  let rt := root (space w) in
  pt_wf rt T (mem w) → small_leaves T (mem w) user →
  (∀ q q' x, user q → user q' → entry T (mem w) q x → entry T (mem w) q' x → q = q') →
  ∃ st w' fr qs, teardown w = Ret (st, w') ∧
    NoDup fr ∧ (∀ x, x ∈ fr ↔ ∃ q, user q ∧ entry T (mem w) q x) ∧
    Forall2 (entry T (mem w)) qs fr ∧ freed_user st = nleaf qs ∧ freed_user st + freed_pt st = zlen fr ∧
    pool w' = foldl free_frame (pool w) fr ∧ events w' = events w ++ map Free fr ∧
    (∀ va, 0 ≤ va < USER_END → translate rt va (mem w') = Ret None) ∧
    (∀ va, 256 ≤ index_at va LEVELS → translate rt va (mem w') = translate rt va (mem w)) ∧
    root (space w') = rt ∧ Forall (λ r, r = None) (regions (space w')) ∧ user_frames (space w') = 0 ∧ pt_frames (space w') = 1.
Proof.
  intros rt HW Hsm Hinj. destruct (free_user_half_ok rt T (mem w) HW Hsm) as (fr & m' & fs & qs & Hr & HF & Hl & Ht).
  unfold teardown. fold rt. rewrite Hr. cbn [obind]. do 2 eexists. exists fr, qs. split; [done|].
  cbn [freed_user freed_pt pool events mem space root regions user_frames pt_frames set_regions set_frames].
  pose proof (fd_frames _ _ _ _ _ _ _ HF) as H2. assert (Hlen : zlen qs = zlen fr) by (unfold zlen; by rewrite (Forall2_length _ _ _ H2)).
  split_and!; try done; [by eapply frames_once|by eapply frames_exact|lia| | |].
  - intros va Hva. eapply user_unmapped; [done|done|by apply user_index].
  - intros va Hva. by eapply kernel_same.
  - apply Forall_map, Forall_true. done.
Qed.
End Teardown.

(** ** A space with one page *)
Definition chain_table (e : Z) : list Z := e :: replicate 511 0.
Definition chain_memory : memory :=
  {[ 0x1000 := chain_table 0x2007; 0x2000 := chain_table 0x3007; 0x3000 := chain_table 0x4007; 0x4000 := chain_table 0x5007 ]}.
Definition chain : gmap path Z := {[ [] := 0x1000; [0] := 0x2000; [0; 0] := 0x3000; [0; 0; 0] := 0x4000 ]}.
Definition chain_world : world unit (gset Z) := mkWorld (mkSpace 0x1000 [None] 1 4 0 0) chain_memory ∅ [].

Lemma chain_inv p a : chain !! p = Some a →
  (p = [] ∧ a = 0x1000 ∨ p = [0] ∧ a = 0x2000 ∨ p = [0; 0] ∧ a = 0x3000 ∨ p = [0; 0; 0] ∧ a = 0x4000) ∧
  chain_memory !! a = Some (chain_table (a + 0x1007)).
Proof.
  unfold chain. rewrite !lookup_insert_Some, lookup_singleton_Some.
  intros [[<- <-]|[_ [[<- <-]|[_ [[<- <-]|[_ [<- <-]]]]]]]; (split; [tauto|reflexivity]).
Qed.
Lemma chain_look p a i e : chain !! p = Some a → idx i → look chain_memory a i = Some e → e = (if decide (i = 0) then a + 0x1007 else 0).
Proof.
  intros [_ Ht]%chain_inv Hi. unfold look. rewrite Ht. cbn. case_decide as Hd; [subst i; intros Hl; by injection Hl as <-|].
  unfold chain_table. rewrite lookup_cons_ne_0 by (unfold idx in Hi; lia). intros Hl. apply lookup_replicate in Hl as [-> _]. done.
Qed.
Lemma chain_wf : pt_wf 0x1000 chain chain_memory.
Proof.
  constructor.
  - reflexivity.
  - intros p q a Hp Hq. apply chain_inv in Hp as [Hp _], Hq as [Hq _]. naive_solver lia.
  - intros i p a [Hp _]%chain_inv. destruct Hp as [[? _]|[[[= -> ->] _]|[[[= -> ->] _]|[[= -> ->] _]]]]; [done|by eexists..].
  - intros p a [Hp _]%chain_inv. unfold LEVELS. destruct Hp as [[-> _]|[[-> _]|[[-> _]|[-> _]]]]; cbn; lia.
  - intros p a [_ Ht]%chain_inv. eexists. split; [exact Ht|]. reflexivity.
  - intros p a i e Hp Hi He. pose proof (chain_look _ _ _ _ Hp Hi He) as ->. apply chain_inv in Hp as [Hp _]. case_decide as Hd.
    + subst i. destruct Hp as [[-> ->]|[[-> ->]|[[-> ->]|[-> ->]]]]; reflexivity.
    + change (interior 0 _) with false. destruct (chain !! (i :: p)) eqn:E; [|done]. apply chain_inv in E as [E _]. naive_solver.
  - intros p a i e Hp Hi He Hpr Hh. pose proof (chain_look _ _ _ _ Hp Hi He) as ->. apply chain_inv in Hp as [Hp _]. exfalso. case_decide; [|done].
    destruct Hp as [[-> ->]|[[-> ->]|[[-> ->]|[-> ->]]]]; done.
Qed.
Lemma chain_entry q x : entry chain chain_memory q x → ∃ p a, q = 0 :: p ∧ chain !! p = Some a ∧ x = a + 0x1000.
Proof.
  intros (i & p & a & e & -> & Hf & Ha & He & Hpr & ->). assert (Hi : idx i) by (by inversion Hf).
  pose proof (chain_look _ _ _ _ Ha Hi He) as ->. case_decide; [subst|done]. exists p, a. split_and!; [done|done|].
  apply chain_inv in Ha as [Ha _]. destruct Ha as [[_ ->]|[[_ ->]|[[_ ->]|[_ ->]]]]; reflexivity.
Qed.

Lemma teardown_frees_all_witness :
  ∃ st w' fr, teardown chain_world = Ret (st, w') ∧ NoDup fr ∧ events w' = map Free fr ∧
    (∀ va, 0 ≤ va < USER_END → translate 0x1000 va (mem w') = Ret None).
Proof.
  destruct (teardown_frees_all chain_world chain) as (st & w' & fr & qs & H1 & H2 & _ & _ & _ & _ & _ & H3 & H4 & _).
  - exact chain_wf.
  - intros i p a e _ Hf Hp He Hpr. assert (Hi : idx i) by (by inversion Hf). pose proof (chain_look _ _ _ _ Hp Hi He) as ->.
    apply chain_inv in Hp as [Hp _]. case_decide; [|done]. destruct Hp as [[-> ->]|[[-> ->]|[[-> ->]|[-> ->]]]]; reflexivity.
  - intros q q' x _ _ (p & a & -> & Ha & ->)%chain_entry (p' & a' & -> & Ha' & Hx)%chain_entry. f_equal.
    apply (wf_inj _ _ _ chain_wf p p' a); [done|]. by replace a with a' by lia.
  - exists st, w', fr. exact (conj H1 (conj H2 (conj H3 H4))).
Defined.
