(* ===== verification/Bytes.v ===== *)
(** * Bytes, little-endian words and results

    What the decoders and encoders share: slices of a byte string, little-endian
    words with their round trip, and the error monad [A + E] the fallible
    functions that never panic are written in. *)

From stdpp Require Import base list numbers.
From S2P Require Import Prelude.

Local Open Scope Z_scope.

(** ** Results *)
Definition rbind {E A B} (r : A + E) (k : A → B + E) : B + E :=
  match r with inl a => k a | inr e => inr e end.
(** [o.ok_or(e)] and an early [return Err(e)]. *)
Definition ok_or {E A} (o : option A) (e : E) : A + E := match o with Some a => inl a | None => inr e end.
Definition refuse_if {E} (b : bool) (e : E) : unit + E := if b then inr e else inl tt.

Notation "x <! r ;; k" := (rbind r (λ x, k))
  (at level 20, r at level 99, k at level 200, right associativity) : kernel_scope.

Lemma rbind_inl {E A B} (r : A + E) (k : A → B + E) b : rbind r k = inl b ↔ ∃ a, r = inl a ∧ k a = inl b.
Proof. destruct r; cbn; naive_solver. Qed.
Lemma ok_or_inl {E A} (o : option A) (e : E) a : ok_or o e = inl a ↔ o = Some a.
Proof. destruct o; cbn; naive_solver. Qed.
Lemma refuse_if_inl {E} b (e : E) u : refuse_if b e = inl u ↔ b = false.
Proof. destruct b, u; cbn; naive_solver. Qed.

(** Every step of a computation that succeeded. *)
Ltac invert_ok :=
  repeat match goal with
  | H : rbind _ _ = inl _ |- _ => apply rbind_inl in H as (? & ? & H)
  | H : ok_or _ _ = inl _ |- _ => apply ok_or_inl in H
  | H : refuse_if _ _ = inl _ |- _ => apply refuse_if_inl in H
  end.

(** Checked arithmetic that stays in range. *)
Lemma checked_add_in w a b : a + b < 2 ^ w → checked_add w a b = Some (a + b).
Proof. intros H. unfold checked_add. by rewrite (proj2 (Z.ltb_lt _ _)). Qed.

(** ** Bytes *)
Definition is_byte (b : Z) : Prop := 0 ≤ b < 256.
Abbreviation bytes_ok := (Forall is_byte).

(** [b.get(o..o + n)] *)
Definition slice (b : list Z) (o n : Z) : option (list Z) :=
  if (0 <=? o) && (0 <=? n) && (o + n <=? zlen b) then Some (take (Z.to_nat n) (drop (Z.to_nat o) b)) else None.

Lemma slice_Some b o n s :
  slice b o n = Some s → 0 ≤ o ∧ 0 ≤ n ∧ o + n ≤ zlen b ∧ s = take (Z.to_nat n) (drop (Z.to_nat o) b) ∧ zlen s = n.
Proof.
  unfold slice. destruct (Z.leb_spec 0 o), (Z.leb_spec 0 n), (Z.leb_spec (o + n) (zlen b)); try done. cbn. intros [= <-].
  split_and!; [done|done|done|done|]. unfold zlen in *. rewrite length_take, length_drop. lia.
Qed.
Lemma slice_mid (p s q : list Z) o n : o = zlen p → n = zlen s → slice (p ++ s ++ q) o n = Some s.
Proof.
  intros -> ->. unfold slice, zlen. rewrite !length_app.
  destruct (Z.leb_spec 0 (Z.of_nat (length p))), (Z.leb_spec 0 (Z.of_nat (length s))),
    (Z.leb_spec (Z.of_nat (length p) + Z.of_nat (length s)) (Z.of_nat (length p + (length s + length q)))); try lia.
  cbn. rewrite !Nat2Z.id, drop_app_length, take_app_length. done.
Qed.
Lemma slice_head (s q : list Z) n : n = zlen s → slice (s ++ q) 0 n = Some s.
Proof. by apply (slice_mid [] s q 0). Qed.
Lemma slice_app_r p b o n : 0 ≤ o → slice (p ++ b) (zlen p + o) n = slice b o n.
Proof.
  intros Ho. unfold slice. rewrite (proj2 (Z.leb_le 0 (zlen p + o))), (proj2 (Z.leb_le 0 o)) by zlia.
  replace (zlen p + o + n <=? zlen (p ++ b)) with (o + n <=? zlen b).
  2: { destruct (Z.leb_spec (o + n) (zlen b)), (Z.leb_spec (zlen p + o + n) (zlen (p ++ b))); try done; zlia. }
  destruct (_ && _); [|done]. f_equal. f_equal. rewrite drop_app_ge by zlia. f_equal. zlia.
Qed.
Lemma slice_ok b o n s : bytes_ok b → slice b o n = Some s → bytes_ok s.
Proof. intros Hb (_ & _ & _ & -> & _)%slice_Some. by apply Forall_take, Forall_drop. Qed.

(** ** Little-endian words *)
Definition le_val (b : list Z) : Z := foldr (λ x acc, x + 256 * acc) 0 b.
Fixpoint le_bytes (n : nat) (x : Z) : list Z :=
  match n with O => [] | S n => x mod 256 :: le_bytes n (x / 256) end.

Lemma length_le_bytes n x : length (le_bytes n x) = n.
Proof. revert x. induction n; intros; cbn; auto. Qed.
Lemma le_bytes_ok n x : bytes_ok (le_bytes n x).
Proof. revert x. induction n; intros; cbn; constructor; [apply Z.mod_pos_bound; lia|done]. Qed.
Lemma le_val_bytes n x : le_val (le_bytes n x) = x mod 256 ^ Z.of_nat n.
Proof.
  revert x. induction n as [|n IH]; intros x; cbn [le_bytes le_val foldr]; [by rewrite Z.mod_1_r|].
  fold (le_val (le_bytes n (x / 256))). rewrite IH, Nat2Z.inj_succ, Z.pow_succ_r by lia.
  rewrite Z.rem_mul_r by lia. lia.
Qed.
Lemma le_val_range b : bytes_ok b → 0 ≤ le_val b < 256 ^ zlen b.
Proof.
  unfold zlen. induction 1 as [|x b [Hx1 Hx2] Hb IH]; cbn [le_val foldr length]; [lia|]. fold (le_val b).
  rewrite Nat2Z.inj_succ, Z.pow_succ_r by lia. lia.
Qed.
Lemma le_bytes_val b : bytes_ok b → le_bytes (length b) (le_val b) = b.
Proof.
  induction 1 as [|x b [Hx1 Hx2] Hb IH]; cbn [le_val foldr length le_bytes]; [done|]. fold (le_val b).
  replace (x + 256 * le_val b) with (x + le_val b * 256) by lia. rewrite Z.mod_add, Z.div_add by lia.
  rewrite Z.mod_small, Z.div_small, Z.add_0_l, IH by lia. done.
Qed.

(** [to_le_bytes] of a [w]-byte word that fits comes back. *)
Lemma le_roundtrip n x : 0 ≤ x < 256 ^ Z.of_nat n → le_val (le_bytes n x) = x.
Proof. intros Hx. rewrite le_val_bytes. by apply Z.mod_small. Qed.
