(* ===== verification/Crc.v ===== *)
(** * CRC-32

    The checksum of superblocks, metadata blocks, file extents and GPT headers:
    [crc32_ieee] of block/part.rs, bit by bit as the source computes it.  The
    register is a 32-bit word; one bit step is linear over exclusive or and
    loses no information, so two strings that differ only inside four
    consecutive bytes never share a checksum. *)

From stdpp Require Import base list numbers.
From S2P Require Import Prelude Bytes.

Local Open Scope Z_scope.

(** ** The code *)

(** One turn of the inner loop, one turn of the outer one. *)
Definition crc_bit (crc : Z) : Z :=
  if negb (Z.land crc 1 =? 0) then Z.lxor (Z.shiftr crc 1) 0xEDB88320 else Z.shiftr crc 1.
Definition crc_byte (crc byte : Z) : Z := Nat.iter 8 crc_bit (Z.lxor crc byte).

Definition crc32_ieee (data : list Z) : Z := notw 32 (fold_left crc_byte data 0xFFFFFFFF).

(** ** The bit step *)
Lemma crc_bit_odd x : crc_bit x = Z.lxor (Z.div2 x) (if Z.odd x then 0xEDB88320 else 0).
Proof.
  unfold crc_bit. change 1 with (Z.ones 1) at 1. rewrite Z.land_ones, Z.pow_1_r, Zmod_odd, <-Z.div2_spec by lia.
  destruct (Z.odd x); cbn [negb Z.eqb]; [done|by rewrite Z.lxor_0_r].
Qed.

Lemma crc_bit_lxor x y : crc_bit (Z.lxor x y) = Z.lxor (crc_bit x) (crc_bit y).
Proof.
  rewrite !crc_bit_odd. rewrite !Z.div2_spec, Z.shiftr_lxor, <-!Z.bit0_odd, Z.lxor_spec.
  set (a := Z.shiftr x 1). set (b := Z.shiftr y 1). set (p := 0xEDB88320).
  destruct (Z.testbit x 0), (Z.testbit y 0); cbn [xorb]; rewrite ?Z.lxor_0_r; try done.
  - rewrite (Z.lxor_comm b p), Z.lxor_assoc, <-(Z.lxor_assoc p p b), Z.lxor_nilpotent, Z.lxor_0_l. done.
  - rewrite (Z.lxor_assoc a p b), (Z.lxor_comm p b), Z.lxor_assoc. done.
  - by rewrite Z.lxor_assoc.
Qed.

Lemma lxor_in_width w x y : 0 ≤ w → in_width w x → in_width w y → in_width w (Z.lxor x y).
Proof.
  intros Hw [Hx1 Hx2] [Hy1 Hy2]. assert (0 ≤ Z.lxor x y) by (by apply Z.lxor_nonneg).
  split; [done|]. destruct (Z.eq_dec (Z.lxor x y) 0) as [->|]; [by apply pow2_pos|].
  apply Z.log2_lt_pow2; [lia|].
  assert (Hlog : ∀ z, 0 ≤ z < 2 ^ w → z = 0 ∨ Z.log2 z < w).
  { intros z Hz. destruct (Z.eq_dec z 0); [by left|right]. apply Z.log2_lt_pow2; lia. }
  pose proof (Z.log2_lxor x y Hx1 Hy1).
  destruct (Hlog x (conj Hx1 Hx2)) as [->|], (Hlog y (conj Hy1 Hy2)) as [->|];
    rewrite ?Z.lxor_0_l, ?Z.lxor_0_r in *; lia.
Qed.

Lemma crc_bit_width x : u32 x → u32 (crc_bit x).
Proof.
  intros Hx. rewrite crc_bit_odd. apply lxor_in_width; [lia| |destruct (Z.odd x); by compute].
  rewrite Z.div2_div. unfold in_width in *. dlia.
Qed.

Lemma crc_bit_kernel x : u32 x → crc_bit x = 0 → x = 0.
Proof.
  unfold in_width. intros Hx. rewrite crc_bit_odd. intros Hz%Z.lxor_eq.
  pose proof (Z.div2_odd x) as Hd. destruct (Z.odd x); cbn [Z.b2z] in Hd; [|lia].
  rewrite Hz in Hd. lia.
Qed.

(** A shift up is undone without feedback. *)
Lemma crc_bit_double x : crc_bit (2 * x) = x.
Proof. rewrite crc_bit_odd, Z.odd_mul, Z.lxor_0_r, Z.div2_div. dlia. Qed.

(** ** Many bit steps *)
Definition crc_bits (n : nat) (x : Z) : Z := Nat.iter n crc_bit x.

Lemma crc_bits_lxor n x y : crc_bits n (Z.lxor x y) = Z.lxor (crc_bits n x) (crc_bits n y).
Proof. induction n as [|n IH]; [done|]. cbn. rewrite <-crc_bit_lxor. f_equal. apply IH. Qed.

Lemma crc_bits_width n x : u32 x → u32 (crc_bits n x).
Proof. intros Hx. induction n as [|n IH]; [done|]. cbn. by apply crc_bit_width. Qed.

Lemma crc_bits_inj n x y : u32 x → u32 y → crc_bits n x = crc_bits n y → x = y.
Proof.
  intros Hx Hy Heq. apply Z.lxor_eq. pose proof (lxor_in_width 32 x y ltac:(lia) Hx Hy) as Hz.
  assert (Hn : crc_bits n (Z.lxor x y) = 0) by (by rewrite crc_bits_lxor, Heq, Z.lxor_nilpotent).
  clear Heq. induction n as [|n IH]; [done|]. apply IH.
  apply crc_bit_kernel; [by apply crc_bits_width|done].
Qed.

Lemma crc_bits_shift n x : crc_bits n (2 ^ Z.of_nat n * x) = x.
Proof.
  revert x. induction n as [|n IH]; intros x; [cbn; lia|].
  rewrite Nat2Z.inj_succ, Z.pow_succ_r by lia. unfold crc_bits. rewrite Nat.iter_succ_r.
  replace (2 * 2 ^ Z.of_nat n * x) with (2 * (2 ^ Z.of_nat n * x)) by lia.
  rewrite crc_bit_double. apply IH.
Qed.

Lemma crc_bits_add m n x : crc_bits (m + n) x = crc_bits m (crc_bits n x).
Proof. apply Nat.iter_add. Qed.

(** ** Strings *)
Lemma lxor_high x y : is_byte x → Z.lxor x (256 * y) = x + 256 * y.
Proof.
  intros Hx. symmetry. apply Z.add_nocarry_lxor.
  rewrite Z.land_comm. apply (land_disjoint _ _ 8); [lia| |exact Hx].
  change (2 ^ 8) with 256. rewrite Z.mul_comm. by apply Z.mod_mul.
Qed.

(** The register after a string, from its little-endian value. *)
Lemma crc_fold_word (l : list Z) s :
  bytes_ok l → fold_left crc_byte l s = crc_bits (8 * length l) (Z.lxor s (le_val l)).
Proof.
  intros Hl. revert s. induction Hl as [|x l Hx Hl IH]; intros s; cbn [fold_left le_val foldr length].
  { by rewrite Z.lxor_0_r. }
  fold (le_val l). rewrite IH, <-(lxor_high x (le_val l)), <-Z.lxor_assoc by done.
  replace (8 * S (length l))%nat with (8 * length l + 8)%nat by lia.
  rewrite crc_bits_add, (crc_bits_lxor 8 (Z.lxor s x)). f_equal. f_equal.
  symmetry. exact (crc_bits_shift 8 (le_val l)).
Qed.

Lemma crc_byte_width s x : u32 s → is_byte x → u32 (crc_byte s x).
Proof.
  intros Hs Hx. apply (crc_bits_width 8), lxor_in_width; [lia|done|].
  unfold is_byte, in_width in *. lia.
Qed.

Lemma crc_fold_width l s : bytes_ok l → u32 s → u32 (fold_left crc_byte l s).
Proof.
  intros Hl. revert s. induction Hl as [|x l Hx Hl IH]; intros s Hs; [done|].
  cbn [fold_left]. by apply IH, crc_byte_width.
Qed.

Lemma crc_fold_inj l s t :
  bytes_ok l → u32 s → u32 t → fold_left crc_byte l s = fold_left crc_byte l t → s = t.
Proof.
  intros Hl. revert s t. induction Hl as [|x l Hx Hl IH]; intros s t Hs Ht; [done|].
  cbn [fold_left]. intros Heq%IH; [|by apply crc_byte_width..].
  assert (Hw : u32 x) by (unfold is_byte, in_width in *; lia).
  apply (crc_bits_inj 8) in Heq; [|by apply lxor_in_width..].
  apply (f_equal (Z.lxor x)) in Heq.
  rewrite !(Z.lxor_comm _ x), <-!Z.lxor_assoc, Z.lxor_nilpotent, !Z.lxor_0_l in Heq. done.
Qed.

Lemma crc32_width l : bytes_ok l → u32 (crc32_ieee l).
Proof.
  intros Hl. pose proof (crc_fold_width l 0xFFFFFFFF Hl ltac:(by compute)) as Hw.
  unfold crc32_ieee, notw, in_width in *. lia.
Qed.

(** Two strings that differ only inside at most four consecutive bytes. *)
Lemma crc32_burst p w w' q :
  bytes_ok p → bytes_ok w → bytes_ok w' → bytes_ok q →
  length w = length w' → (length w ≤ 4)%nat →
  crc32_ieee (p ++ w ++ q) = crc32_ieee (p ++ w' ++ q) → w = w'.
Proof.
  intros Hp Hw Hw' Hq Hlen Hle Heq.
  assert (Hi : u32 0xFFFFFFFF) by (by compute).
  pose proof (crc_fold_width p _ Hp Hi) as Hs.
  assert (Hf : fold_left crc_byte w (fold_left crc_byte p 0xFFFFFFFF) =
               fold_left crc_byte w' (fold_left crc_byte p 0xFFFFFFFF)).
  { apply (crc_fold_inj q); [done|by apply crc_fold_width..|].
    unfold crc32_ieee, notw in Heq. rewrite !fold_left_app in Heq. lia. }
  assert (Hval : ∀ l, bytes_ok l → (length l ≤ 4)%nat → u32 (le_val l)).
  { intros l Hl Hll. pose proof (le_val_range l Hl) as Hr. unfold in_width.
    pose proof (Z.pow_le_mono_r 256 (zlen l) 4 ltac:(lia) ltac:(zlia)) as Hm.
    change (256 ^ 4) with (2 ^ 32) in Hm. lia. }
  set (s := fold_left crc_byte p 0xFFFFFFFF) in *. rewrite !crc_fold_word, <-Hlen in Hf by done.
  apply crc_bits_inj in Hf; [|apply lxor_in_width; [lia|done|apply Hval; [done|lia]]..].
  apply (f_equal (Z.lxor s)) in Hf. rewrite <-!Z.lxor_assoc, Z.lxor_nilpotent, !Z.lxor_0_l in Hf.
  rewrite <-(le_bytes_val w), <-(le_bytes_val w'), Hlen, Hf by done. done.
Qed.
