(* ===== verification/Buf.v ===== *)
(** * Byte buffers

    Buffers the code writes fields into and reads them back from: slices and
    words at an offset, both of which panic past the end, and [holds], that a
    buffer carries given bytes at an offset, which a write elsewhere leaves
    alone. *)

From stdpp Require Import base numbers list.
From S2P Require Import Prelude Bytes.

Local Open Scope Z_scope.

(** [b[o..o + n]], [b[o..o + bs.len()].copy_from_slice(bs)] *)
Definition sub (b : list Z) (o n : Z) : outcome (list Z) :=
  match slice b o n with Some s => Ret s | None => Panic PIndex end.
Definition splice (b : list Z) (o : Z) (bs : list Z) : list Z :=
  take (Z.to_nat o) b ++ bs ++ drop (Z.to_nat o + length bs) b.
Definition copy_into (b : list Z) (o : Z) (bs : list Z) : outcome (list Z) :=
  if (0 <=? o) && (o + zlen bs <=? zlen b) then Ret (splice b o bs) else Panic PIndex.

(** A little-endian word of [n] bytes at [o]. *)
Definition load (n : nat) (b : list Z) (o : Z) : outcome Z :=
  s <~ sub b o (Z.of_nat n) ;; Ret (le_val s).
Definition save (n : nat) (b : list Z) (o v : Z) : outcome (list Z) := copy_into b o (le_bytes n v).

(** The indices [a..b], and a loop over them that may panic. *)
Definition range (a b : Z) : list Z := seqZ a (b - a).
Fixpoint ofor {A B} (l : list A) (f : A → B → outcome B) (b : B) : outcome B :=
  match l with [] => Ret b | x :: l => b <~ f x b ;; ofor l f b end.

(** ** Slices of a spliced buffer *)
Lemma zlen_app {A} (l k : list A) : zlen (l ++ k) = zlen l + zlen k.
Proof. zlia. Qed.
Lemma zlen_nonneg {A} (l : list A) : 0 ≤ zlen l.
Proof. zlia. Qed.
Lemma zlen_le_bytes n x : zlen (le_bytes n x) = Z.of_nat n.
Proof. unfold zlen. by rewrite length_le_bytes. Qed.

Lemma zlen_splice b o bs : 0 ≤ o → o + zlen bs ≤ zlen b → zlen (splice b o bs) = zlen b.
Proof. intros. unfold splice. zlia. Qed.

Lemma splice_mid (p s q bs : list Z) o : o = zlen p → length bs = length s → splice (p ++ s ++ q) o bs = p ++ bs ++ q.
Proof.
  intros -> Hl. unfold splice, zlen. rewrite Nat2Z.id, take_app_length. f_equal. f_equal.
  rewrite Hl, app_assoc, <-length_app. apply drop_app_length.
Qed.

(** A buffer opened at a range. *)
Lemma buf_open (b : list Z) o n :
  0 ≤ o → 0 ≤ n → o + n ≤ zlen b → ∃ p s q, b = p ++ s ++ q ∧ zlen p = o ∧ zlen s = n.
Proof.
  intros Ho Hn Hl. exists (take (Z.to_nat o) b), (take (Z.to_nat n) (drop (Z.to_nat o) b)),
    (drop (Z.to_nat n) (drop (Z.to_nat o) b)).
  rewrite !take_drop. split; [done|]. zlia.
Qed.

Lemma slice_in b o n : 0 ≤ o → 0 ≤ n → o + n ≤ zlen b → slice b o n = Some (take (Z.to_nat n) (drop (Z.to_nat o) b)).
Proof. intros. unfold slice. by rewrite !(proj2 (Z.leb_le _ _)) by done. Qed.

Lemma slice_splice_eq b o bs : 0 ≤ o → o + zlen bs ≤ zlen b → slice (splice b o bs) o (zlen bs) = Some bs.
Proof.
  intros Ho Hl. destruct (buf_open b o (zlen bs)) as (p & s & q & -> & Hp & Hs); [zlia..|].
  rewrite splice_mid by zlia. by apply slice_mid.
Qed.

Lemma slice_splice_in b o bs o' n :
  0 ≤ o → o + zlen bs ≤ zlen b → o ≤ o' → o' + n ≤ o + zlen bs →
  slice (splice b o bs) o' n = slice bs (o' - o) n.
Proof.
  intros Ho Hl H1 H2. destruct (buf_open b o (zlen bs)) as (p & s & q & -> & Hp & Hs); [zlia..|].
  rewrite splice_mid by zlia. replace o' with (zlen p + (o' - o)) at 1 by lia.
  rewrite slice_app_r by lia. destruct (Z_lt_le_dec n 0) as [Hn|Hn].
  { unfold slice. rewrite (proj2 (Z.leb_gt 0 n)) by lia. by rewrite !andb_false_r. }
  rewrite !slice_in by zlia. f_equal. rewrite drop_app_le, take_app_le by zlia. done.
Qed.

Lemma slice_splice_ne b o bs o' n :
  0 ≤ o → o + zlen bs ≤ zlen b → o' + n ≤ o ∨ o + zlen bs ≤ o' →
  slice (splice b o bs) o' n = slice b o' n.
Proof.
  intros Ho Hl Hd. pose proof (zlen_splice b o bs Ho Hl) as Hz. unfold slice. rewrite Hz.
  destruct (Z.leb_spec 0 o'), (Z.leb_spec 0 n), (Z.leb_spec (o' + n) (zlen b)); try done. cbn. f_equal.
  unfold splice. destruct Hd as [Hd|Hd].
  - rewrite drop_app_le, take_app_le by zlia. rewrite <-(take_drop (Z.to_nat o) b) at 2.
    rewrite drop_app_le, take_app_le by zlia. done.
  - rewrite app_assoc, drop_app_ge by zlia. rewrite drop_drop. f_equal. f_equal. zlia.
Qed.

Lemma splice_bytes b o bs : bytes_ok b → bytes_ok bs → bytes_ok (splice b o bs).
Proof. intros. unfold splice. apply Forall_app. split; [by apply Forall_take|]. apply Forall_app. split; [done|by apply Forall_drop]. Qed.

Lemma splice_splice b o bs bs' :
  0 ≤ o → o + zlen bs ≤ zlen b → length bs = length bs' → splice (splice b o bs) o bs' = splice b o bs'.
Proof.
  intros Ho Hl He. destruct (buf_open b o (zlen bs)) as (p & s & q & -> & Hp & Hs); [zlia..|].
  rewrite !splice_mid by zlia. done.
Qed.

(** ** What a buffer holds *)
Definition holds (b : list Z) (o : Z) (bs : list Z) : Prop := slice b o (zlen bs) = Some bs.

Lemma holds_splice b o bs : 0 ≤ o → o + zlen bs ≤ zlen b → holds (splice b o bs) o bs.
Proof. apply slice_splice_eq. Qed.
Lemma holds_splice_ne b o bs o' bs' :
  0 ≤ o → o + zlen bs ≤ zlen b → o' + zlen bs' ≤ o ∨ o + zlen bs ≤ o' →
  holds b o' bs' → holds (splice b o bs) o' bs'.
Proof. intros. unfold holds. by rewrite slice_splice_ne. Qed.
Lemma holds_fits b o bs : holds b o bs → 0 ≤ o ∧ o + zlen bs ≤ zlen b.
Proof. by intros (? & ? & ? & _)%slice_Some. Qed.
Lemma holds_mid (p bs q : list Z) o : o = zlen p → holds (p ++ bs ++ q) o bs.
Proof. intros ->. by apply slice_mid. Qed.
Lemma holds_inv b o bs : holds b o bs → ∃ p q, b = p ++ bs ++ q ∧ zlen p = o.
Proof.
  intros H. pose proof (holds_fits _ _ _ H) as [Ho Hl].
  destruct (buf_open b o (zlen bs)) as (p & s & q & -> & Hp & Hs); [zlia..|].
  exists p, q. split; [|done]. unfold holds in H. rewrite slice_mid in H by done. naive_solver.
Qed.
(** A part of what is held. *)
Lemma holds_in b o bs o' bs' : holds b o bs → holds bs o' bs' → holds b (o + o') bs'.
Proof.
  intros (p & q & -> & <-)%holds_inv (p' & q' & -> & <-)%holds_inv.
  rewrite <-!app_assoc, (app_assoc p p'). apply holds_mid. zlia.
Qed.

Lemma sub_holds b o n s : holds b o s → n = zlen s → sub b o n = Ret s.
Proof. unfold sub, holds. intros H ->. by rewrite H. Qed.
Lemma load_holds n b o x : holds b o (le_bytes n x) → 0 ≤ x < 256 ^ Z.of_nat n → load n b o = Ret x.
Proof.
  intros H Hx. unfold load. rewrite (sub_holds _ _ _ _ H) by (by rewrite zlen_le_bytes).
  cbn. by rewrite le_roundtrip.
Qed.
Lemma index_holds b o x : holds b o [x] → index b o = Ret x.
Proof. intros (p & q & -> & <-)%holds_inv. by apply index_mid. Qed.

Lemma copy_into_ret b o bs : 0 ≤ o → o + zlen bs ≤ zlen b → copy_into b o bs = Ret (splice b o bs).
Proof. intros. unfold copy_into. by rewrite !(proj2 (Z.leb_le _ _)). Qed.
Lemma save_ret n b o v : 0 ≤ o → o + Z.of_nat n ≤ zlen b → save n b o v = Ret (splice b o (le_bytes n v)).
Proof. intros. apply copy_into_ret; rewrite ?zlen_le_bytes; done. Qed.
Lemma store_splice b o x : 0 ≤ o < zlen b → store b o x = Ret (splice b o [x]).
Proof.
  intros Ho. destruct (list_open b o Ho) as (p & y & q & -> & Hp). rewrite store_mid by done.
  f_equal. symmetry. by apply (splice_mid p [y] q).
Qed.

Lemma load_ret n b o :
  0 ≤ o → o + Z.of_nat n ≤ zlen b → ∃ x, load n b o = Ret x ∧ (bytes_ok b → 0 ≤ x < 256 ^ Z.of_nat n).
Proof.
  intros Ho Hl. unfold load, sub. destruct (slice b o (Z.of_nat n)) as [s|] eqn:Hs.
  - exists (le_val s). split; [done|]. intros Hb. pose proof (slice_ok _ _ _ _ Hb Hs) as Hok.
    apply slice_Some in Hs as (_ & _ & _ & _ & Hz). rewrite <-Hz. by apply le_val_range.
  - rewrite slice_in in Hs by lia. done.
Qed.

(** ** Bits of a byte *)
Lemma is_byte_bits x : is_byte x ↔ 0 ≤ x ∧ ∀ i, 8 ≤ i → Z.testbit x i = false.
Proof.
  unfold is_byte. change 256 with (2 ^ 8). split.
  - intros [H0 H]. split; [done|]. by apply Z.bounded_iff_bits_nonneg.
  - intros [H0 H]. split; [done|]. by apply Z.bounded_iff_bits_nonneg.
Qed.
Lemma is_byte_land x y : is_byte x → is_byte (Z.land x y).
Proof.
  rewrite !is_byte_bits. intros [H0 H]. split; [apply Z.land_nonneg; by left|].
  intros i Hi. by rewrite Z.land_spec, H.
Qed.
Lemma is_byte_lor x y : is_byte x → is_byte y → is_byte (Z.lor x y).
Proof.
  rewrite !is_byte_bits. intros [H0 H] [H0' H']. split; [by apply Z.lor_nonneg|].
  intros i Hi. by rewrite Z.lor_spec, H, H'.
Qed.

(** ** Loops *)
Lemma ofor_app {A B} (l k : list A) (f : A → B → outcome B) b :
  ofor (l ++ k) f b = obind (ofor l f b) (ofor k f).
Proof. revert b. induction l as [|x l IH]; intros b; [done|]. cbn. destruct (f x b); cbn; auto. Qed.

Lemma ofor_inv {A B} (I : list A → B → Prop) (l : list A) (f : A → B → outcome B) b :
  I [] b →
  (∀ done x rest b, l = done ++ x :: rest → I done b → owp (f x b) (I (done ++ [x]))) →
  owp (ofor l f b) (I l).
Proof.
  intros H0 Hstep.
  assert (Hgen : ∀ rest done b, l = done ++ rest → I done b → owp (ofor rest f b) (I l)).
  { induction rest as [|x rest IH]; intros dn b' Hl HI; cbn.
    - rewrite app_nil_r in Hl. by subst.
    - apply owp_bind. eapply owp_mono; [by eapply Hstep|]. cbn. intros b'' HI'.
      apply (IH (dn ++ [x])); [by rewrite <-app_assoc|done]. }
  by apply (Hgen l []).
Qed.

Lemma range_nil a b : b ≤ a → range a b = [].
Proof. intros. unfold range. by rewrite seqZ_nil by lia. Qed.
Lemma range_cons a b : a < b → range a b = a :: range (a + 1) b.
Proof. intros. unfold range. rewrite seqZ_cons by lia. f_equal. f_equal; lia. Qed.
Lemma range_snoc a b : a < b → range a b = range a (b - 1) ++ [b - 1].
Proof.
  intros. unfold range. replace (b - a) with (b - 1 - a + 1) by lia. rewrite seqZ_app by lia.
  f_equal. rewrite (seqZ_cons _ 1) by lia. rewrite seqZ_nil by lia. f_equal; lia.
Qed.
Lemma elem_of_range a b x : x ∈ range a b ↔ a ≤ x < b.
Proof. unfold range. rewrite elem_of_seqZ. lia. Qed.
Lemma zlen_range a b : zlen (range a b) = Z.max 0 (b - a).
Proof. unfold zlen, range. rewrite length_seqZ. lia. Qed.

(** ** Layouts

    A table of offsets and the bytes a buffer carries there. *)
Definition layout : Type := list (Z * list Z).
Definition carries (b : list Z) (ly : layout) : Prop := Forall (λ p, holds b p.1 p.2) ly.
Definition shift (d : Z) (ly : layout) : layout := map (λ p, (d + p.1, p.2)) ly.
Definition ends_by (c : Z) (ly : layout) : Prop := Forall (λ p : Z * list Z, p.1 + zlen p.2 ≤ c) ly.

Lemma carries_elem b ly o bs : carries b ly → (o, bs) ∈ ly → holds b o bs.
Proof. intros Hc Hin. unfold carries in Hc. rewrite Forall_forall in Hc. exact (Hc _ Hin). Qed.

Lemma carries_ne b ly o bs :
  0 ≤ o → o + zlen bs ≤ zlen b → Forall (λ p : Z * list Z, p.1 + zlen p.2 ≤ o ∨ o + zlen bs ≤ p.1) ly →
  carries b ly → carries (splice b o bs) ly.
Proof.
  intros Ho Hl Hd Hc. unfold carries in *. rewrite !Forall_forall in *. intros p Hp.
  apply holds_splice_ne; [done|done| |by apply Hc]. by apply Hd.
Qed.

Lemma carries_app b ly ly' : carries b (ly ++ ly') ↔ carries b ly ∧ carries b ly'.
Proof. apply Forall_app. Qed.

Lemma carries_1 b o bs : carries b [(o, bs)] ↔ holds b o bs.
Proof. unfold carries. by rewrite Forall_singleton. Qed.

Lemma carries_shift b o n s ly : holds b o s → n = zlen s → carries s ly → carries b (shift o ly).
Proof.
  intros Hs _ Hc. unfold carries, shift in *. rewrite Forall_map. eapply Forall_impl; [exact Hc|].
  intros [o' bs] H'. by eapply holds_in.
Qed.

Lemma ends_by_weaken c c' ly : c ≤ c' → ends_by c ly → ends_by c' ly.
Proof. intros Hc He. eapply Forall_impl; [exact He|]. cbn. lia. Qed.

(** A buffer of [n] bytes written front to back as far as [c]. *)
Record filled (n : Z) (b : list Z) (ly : layout) (c : Z) : Prop := {
  fl_len : zlen b = n;
  fl_bytes : bytes_ok b;
  fl_carries : carries b ly;
  fl_ends : ends_by c ly;
}.

Lemma filled_zero n : 0 ≤ n → filled n (replicate (Z.to_nat n) 0) [] 0.
Proof.
  intros Hn. split; [zlia| |constructor|constructor].
  apply Forall_replicate. unfold is_byte. lia.
Qed.

Lemma filled_splice n b ly c o bs :
  filled n b ly c → c ≤ o → 0 ≤ o → o + zlen bs ≤ n → bytes_ok bs →
  filled n (splice b o bs) (ly ++ [(o, bs)]) (o + zlen bs).
Proof.
  intros [Hl Hb Hc He] Hco Ho Hn Hbs. pose proof (zlen_nonneg bs). split.
  - rewrite zlen_splice; lia.
  - by apply splice_bytes.
  - apply carries_app. split; [|apply Forall_singleton; cbn [fst snd]; apply holds_splice; lia].
    apply carries_ne; [lia|lia| |done]. eapply Forall_impl; [exact He|]. cbn. lia.
  - apply Forall_app. split; [|apply Forall_singleton; cbn [fst snd]; lia]. eapply Forall_impl; [exact He|]. cbn. lia.
Qed.

Lemma filled_copy n b ly c o bs (Q : list Z → Prop) :
  filled n b ly c → c ≤ o → 0 ≤ o → o + zlen bs ≤ n → bytes_ok bs →
  (∀ b', filled n b' (ly ++ [(o, bs)]) (o + zlen bs) → Q b') → owp (copy_into b o bs) Q.
Proof.
  intros Hf Hco Ho Hn Hbs HQ. pose proof (fl_len _ _ _ _ Hf). rewrite copy_into_ret by lia.
  by apply HQ, filled_splice with (c := c).
Qed.

Lemma filled_save n b ly c o w v (Q : list Z → Prop) :
  filled n b ly c → c ≤ o → 0 ≤ o → o + Z.of_nat w ≤ n →
  (∀ b', filled n b' (ly ++ [(o, le_bytes w v)]) (o + Z.of_nat w) → Q b') → owp (save w b o v) Q.
Proof.
  intros Hf Hco Ho Hn HQ. eapply filled_copy; [done|done|done|by rewrite zlen_le_bytes|apply le_bytes_ok|].
  rewrite zlen_le_bytes. done.
Qed.

Lemma filled_store n b ly c o x (Q : list Z → Prop) :
  filled n b ly c → c ≤ o → 0 ≤ o → o + 1 ≤ n → is_byte x →
  (∀ b', filled n b' (ly ++ [(o, [x])]) (o + 1) → Q b') → owp (store b o x) Q.
Proof.
  intros Hf Hco Ho Hn Hx HQ. pose proof (fl_len _ _ _ _ Hf). rewrite store_splice by lia.
  apply HQ. apply (filled_splice n b ly c o [x]); [done|done|done|done|by apply Forall_singleton].
Qed.
