(* ===== verification/Elf.v ===== *)
(** * ELF images (src/crates/core/src/proc/elf.rs)

    The definitions of this file are the code of [proc/elf.rs]: the header and
    program-header decoders, the [Builder] that checks each record, the image's
    size, the plan of page runs the loader maps, and the thread-local block.  A
    file is its list of bytes.  An array with a count of used entries ([loads] with
    [nload], the edges and the runs of the plan) is the list of the used ones, with
    the array's length as the cap. *)

From stdpp Require Import base list numbers sorting strings.
From S2P Require Import Prelude Bytes Kerror Paging AddrSpace.
Import Paging.

Local Open Scope Z_scope.

Module Elf.

Definition ELFMAG0 : Z := 0x7F.
Definition ELFCLASS64 : Z := 2.
Definition ELFDATA2LSB : Z := 1.
Definition EV_CURRENT : Z := 1.
Definition ET_EXEC : Z := 2.
Definition EM_X86_64 : Z := 62.
Definition PT_LOAD : Z := 1.
Definition PT_INTERP : Z := 3.
Definition PT_PHDR : Z := 6.
Definition PT_TLS : Z := 7.
Definition PT_GNU_STACK : Z := 0x6474E551.
Definition PF_X : Z := 1.
Definition PF_W : Z := 2.
Definition PF_R : Z := 4.
Definition EI_NIDENT : Z := 16.
Definition EHDR_SIZE : Z := 64.
Definition PHDR_SIZE : Z := 56.
Definition MAX_LOADS : Z := 8.
Definition EXEC_IMAGE_MAX : Z := Z.shiftl 1 30.

Inductive ElfError :=
  | Truncated | BadMagic | BadClass | BadEndian | BadVersion | BadMachine | BadType | BadPhentsize | HasInterp
  | FileszGtMemsz | BadAlign | KernelVa | NullGuard | TooManyLoads | NoLoad | Overlap | Stack | ImageTooBig.

Definition kerror_of_elf (e : ElfError) : Kerror.KError := Kerror.NoExec.

Definition as_str (e : ElfError) : string :=
  match e with
  | Truncated => "truncated" | BadMagic => "bad magic" | BadClass => "bad class" | BadEndian => "bad endian"
  | BadVersion => "bad version" | BadMachine => "bad machine" | BadType => "bad type" | BadPhentsize => "bad phentsize"
  | HasInterp => "pt_interp" | FileszGtMemsz => "filesz>memsz" | BadAlign => "bad align" | KernelVa => "kernel va"
  | NullGuard => "null guard" | TooManyLoads => "too many loads" | NoLoad => "no pt_load" | Overlap => "overlap"
  | Stack => "stack" | ImageTooBig => "image too big"
  end.

Record LoadSeg := mkLoad { vaddr : Z; memsz : Z; offset : Z; filesz : Z; write : bool; exec : bool }.
Record TlsSeg := mkTls { t_vaddr : Z; t_offset : Z; t_filesz : Z; t_memsz : Z; t_align : Z }.

Record Image := mkImage {
  file_len : Z;
  entry : Z;
  loads : list LoadSeg;
  stack_exec : bool;
  tls : option TlsSeg;
  phoff : Z;
  phentsize : Z;
  phnum : Z;
  phdr_va : option Z
}.

(** ** Pages and words *)
Definition page_mask : Z := notw 64 (PAGE_SIZE_4K - 1).
Definition page_down (x : Z) : Z := Z.land x page_mask.
Definition page_up (x : Z) : Z := Z.land (saturating_add 64 x (PAGE_SIZE_4K - 1)) page_mask.

Definition bytes_at (n : Z) (b : list Z) (o : Z) : list Z + ElfError :=
  end_ <! ok_or (checked_add 64 o n) Truncated;;
  ok_or (slice b o n) Truncated.
Definition le_at (n : Z) (b : list Z) (o : Z) : Z + ElfError := s <! bytes_at n b o;; inl (le_val s).
Definition le16 := le_at 2.
Definition le32 := le_at 4.
Definition le64 := le_at 8.

Definition check_user_va (va len : Z) : unit + ElfError :=
  if len =? 0 then inl tt
  else
    end_ <! ok_or (checked_add 64 va len) KernelVa;;
    _ <! refuse_if (negb (is_canonical va) || negb (is_canonical (wrapping_sub 64 end_ 1))) KernelVa;;
    _ <! refuse_if ((USER_MAP_END <=? va) || (USER_MAP_END <? end_)) KernelVa;;
    refuse_if (va <? NULL_GUARD_LEN) NullGuard.

Definition ranges_overlap (a alen b blen : Z) : bool :=
  (a <? saturating_add 64 b blen) && (b <? saturating_add 64 a alen).

(** ** Thread-local storage *)
Definition block_len (t : TlsSeg) : option Z :=
  if t_align t <=? 1 then Some (t_memsz t)
  else
    mask ← AddrSpace.checked_sub (t_align t) 1;
    x ← checked_add 64 (t_memsz t) mask;
    Some (Z.land x (notw 64 mask)).
Definition map_len (t : TlsSeg) : option Z :=
  len ← block_len t;
  n ← checked_add 64 len 8;
  x ← checked_add 64 (Z.max n PAGE_SIZE_4K) (PAGE_SIZE_4K - 1);
  Some (Z.land x page_mask).
Definition map_align (t : TlsSeg) : Z := Z.max (t_align t) PAGE_SIZE_4K.
Definition thread_pointer (t : TlsSeg) (map : Z) : option (Z * Z) :=
  am ← AddrSpace.checked_sub (map_align t) 1;
  if negb (Z.land map am =? 0) then None
  else
    let a := Z.max (t_align t) 8 in
    len ← map_len t;
    top ← checked_add 64 map len;
    x ← AddrSpace.checked_sub top 8;
    mask ← AddrSpace.checked_sub a 1;
    let tp := Z.land x (notw 64 mask) in
    blen ← block_len t;
    start ← AddrSpace.checked_sub tp blen;
    if map <=? start then Some (tp, start) else None.

(** ** The ELF header *)
Record Ehdr := mkEhdr { eh_entry : Z; eh_phoff : Z; eh_phnum : Z }.

Definition checked_mul (w a b : Z) : option Z := if a * b <? 2 ^ w then Some (a * b) else None.
Definition ph_end (eh : Ehdr) : option Z :=
  n ← checked_mul 64 (eh_phnum eh) PHDR_SIZE; checked_add 64 (eh_phoff eh) n.

Definition parse_ehdr (b : list Z) (flen : Z) : Ehdr + ElfError :=
  _ <! refuse_if ((zlen b <? EHDR_SIZE) || (flen <? EHDR_SIZE)) Truncated;;
  ident <! bytes_at EI_NIDENT b 0;;
  match ident with
  | m0 :: m1 :: m2 :: m3 :: class :: endian :: version :: _ =>
      _ <! refuse_if (negb ((m0 =? ELFMAG0) && (m1 =? 69) && (m2 =? 76) && (m3 =? 70))) BadMagic;;
      _ <! refuse_if (negb (class =? ELFCLASS64)) BadClass;;
      _ <! refuse_if (negb (endian =? ELFDATA2LSB)) BadEndian;;
      _ <! refuse_if (negb (version =? EV_CURRENT)) BadVersion;;
      typ <! le16 b 16;;
      _ <! refuse_if (negb (typ =? ET_EXEC)) BadType;;
      machine <! le16 b 18;;
      _ <! refuse_if (negb (machine =? EM_X86_64)) BadMachine;;
      version <! le32 b 20;;
      _ <! refuse_if (negb (version =? 1)) BadVersion;;
      entry <! le64 b 24;;
      phoff <! le64 b 32;;
      ehsize <! le16 b 52;;
      _ <! refuse_if (negb (ehsize =? EHDR_SIZE)) Truncated;;
      phentsize <! le16 b 54;;
      _ <! refuse_if (negb (phentsize =? PHDR_SIZE)) BadPhentsize;;
      phnum <! le16 b 56;;
      _ <! refuse_if (phnum =? 0) NoLoad;;
      let eh := mkEhdr entry phoff phnum in
      e <! ok_or (ph_end eh) Truncated;;
      _ <! refuse_if (flen <? e) Truncated;;
      inl eh
  | _ => inr Truncated
  end.

(** ** Program headers *)
Record Builder := mkBuilder {
  b_eh : Ehdr;
  b_file_len : Z;
  pushed : Z;
  b_loads : list LoadSeg;
  b_stack_exec : bool;
  saw_gnu_stack : bool;
  b_tls : option TlsSeg;
  b_phdr_va : option Z
}.

Definition Builder_new (eh : Ehdr) (flen : Z) : Builder := mkBuilder eh flen 0 [] false false None None.

Definition check_file_bytes (b : Builder) (off size : Z) : unit + ElfError :=
  end_ <! ok_or (checked_add 64 off size) Truncated;;
  refuse_if (b_file_len b <? end_) Truncated.

Definition bad_align (align : Z) : bool := negb (align =? 0) && negb (is_power_of_two align).

(** A [PT_LOAD] record. *)
Definition push_load (flags off va fsz msz align : Z) (b : Builder) : Builder + ElfError :=
  _ <! refuse_if (msz <? fsz) FileszGtMemsz;;
  _ <! refuse_if (bad_align align) BadAlign;;
  _ <! check_user_va va (Z.max msz 1);;
  _ <! refuse_if ((1 <? align) && negb (va mod align =? off mod align)) BadAlign;;
  _ <! check_file_bytes b off fsz;;
  _ <! refuse_if (existsb (λ l, ranges_overlap (vaddr l) (memsz l) va msz) (b_loads b)) Overlap;;
  _ <! refuse_if (negb (zlen (b_loads b) <? MAX_LOADS)) TooManyLoads;;
  inl (mkBuilder (b_eh b) (b_file_len b) (pushed b)
         (b_loads b ++ [mkLoad va msz off fsz (negb (Z.land flags PF_W =? 0)) (negb (Z.land flags PF_X =? 0))])
         (b_stack_exec b) (saw_gnu_stack b) (b_tls b) (b_phdr_va b)).

(** A [PT_TLS] record. *)
Definition push_tls (off va fsz msz align : Z) (b : Builder) : Builder + ElfError :=
  _ <! refuse_if (msz <? fsz) FileszGtMemsz;;
  _ <! refuse_if (bad_align align) BadAlign;;
  _ <! check_file_bytes b off fsz;;
  inl (mkBuilder (b_eh b) (b_file_len b) (pushed b) (b_loads b) (b_stack_exec b) (saw_gnu_stack b)
         (Some (mkTls va off fsz msz (if align =? 0 then 1 else align))) (b_phdr_va b)).

(** A record of the builder that has counted it. *)
Definition push_record (ph : list Z) (b : Builder) : Builder + ElfError :=
  p_type <! le32 ph 0;;
  p_flags <! le32 ph 4;;
  p_offset <! le64 ph 8;;
  p_vaddr <! le64 ph 16;;
  p_filesz <! le64 ph 32;;
  p_memsz <! le64 ph 40;;
  p_align <! le64 ph 48;;
  if p_type =? PT_INTERP then inr HasInterp
  else if p_type =? PT_LOAD then push_load p_flags p_offset p_vaddr p_filesz p_memsz p_align b
  else if p_type =? PT_GNU_STACK then
    inl (mkBuilder (b_eh b) (b_file_len b) (pushed b) (b_loads b) (negb (Z.land p_flags PF_X =? 0)) true (b_tls b) (b_phdr_va b))
  else if p_type =? PT_TLS then push_tls p_offset p_vaddr p_filesz p_memsz p_align b
  else if p_type =? PT_PHDR then
    inl (mkBuilder (b_eh b) (b_file_len b) (pushed b) (b_loads b) (b_stack_exec b) (saw_gnu_stack b) (b_tls b) (Some p_vaddr))
  else inl b.

(** The builder after a refused record has counted it. *)
Definition counted (n : Z) (b : Builder) : Builder :=
  mkBuilder (b_eh b) (b_file_len b) n (b_loads b) (b_stack_exec b) (saw_gnu_stack b) (b_tls b) (b_phdr_va b).
Definition push (ph : list Z) (b : Builder) : (unit + ElfError) * Builder :=
  if (eh_phnum (b_eh b) <=? pushed b) || (zlen ph <? PHDR_SIZE) then (inr Truncated, b)
  else
    match checked_add 16 (pushed b) 1 with
    | None => (inr Truncated, b)
    | Some n =>
        match push_record ph (counted n b) with
        | inl b' => (inl tt, b')
        | inr e => (inr e, counted n b)
        end
    end.

(** The bytes the loader maps. *)
Definition seg_span (s : LoadSeg) : Z + ElfError :=
  end_ <! ok_or (checked_add 64 (vaddr s) (memsz s)) ImageTooBig;;
  end_ <! ok_or (checked_add 64 end_ (PAGE_SIZE_4K - 1)) ImageTooBig;;
  ok_or (AddrSpace.checked_sub (Z.land end_ page_mask) (page_down (vaddr s))) ImageTooBig.
Fixpoint spans (ls : list LoadSeg) (total : Z) : Z + ElfError :=
  match ls with
  | [] => inl total
  | s :: ls =>
      if memsz s =? 0 then spans ls total
      else
        span <! seg_span s;;
        total <! ok_or (checked_add 64 total span) ImageTooBig;;
        spans ls total
  end.
Definition image_bytes (ls : list LoadSeg) (t : option TlsSeg) : Z + ElfError :=
  total <! spans ls 0;;
  total <! (match t with
            | None => inl total
            | Some t =>
                len <! ok_or (map_len t) ImageTooBig;;
                ok_or (checked_add 64 total len) ImageTooBig
            end);;
  _ <! refuse_if (EXEC_IMAGE_MAX <? total) ImageTooBig;;
  inl total.

(** The address of the program headers in the first segment that maps them. *)
Definition phdr_in (off e : Z) (s : LoadSeg) : option Z :=
  delta ← AddrSpace.checked_sub off (offset s);
  fe ← checked_add 64 (offset s) (filesz s);
  if e <=? fe then checked_add 64 (vaddr s) delta else None.
Fixpoint find_map {A B} (f : A → option B) (l : list A) : option B :=
  match l with [] => None | x :: l => match f x with Some y => Some y | None => find_map f l end end.

Definition saturating_mul (w a b : Z) : Z := Z.min (a * b) (2 ^ w - 1).

Definition finish (b : Builder) : Image + ElfError :=
  let eh := b_eh b in
  _ <! refuse_if (negb (pushed b =? eh_phnum eh)) Truncated;;
  _ <! refuse_if (zlen (b_loads b) =? 0) NoLoad;;
  _ <! image_bytes (b_loads b) (b_tls b);;
  let stack_exec := if saw_gnu_stack b then b_stack_exec b else false in
  _ <! check_user_va (eh_entry eh) 1;;
  e <! ok_or (ph_end eh) Truncated;;
  let phdr_va := match b_phdr_va b with Some va => Some va | None => find_map (phdr_in (eh_phoff eh) e) (b_loads b) end in
  _ <! (match phdr_va with
        | Some va => check_user_va va (Z.max (saturating_mul 64 (eh_phnum eh) PHDR_SIZE) 1)
        | None => inl tt
        end);;
  inl (mkImage (b_file_len b) (eh_entry eh) (b_loads b) stack_exec (b_tls b) (eh_phoff eh) PHDR_SIZE (eh_phnum eh) phdr_va).

(** [table.as_chunks()]: whole records only. *)
Fixpoint chunks (n : nat) (t : list Z) : list (list Z) :=
  match n with
  | O => []
  | S n => match slice t 0 PHDR_SIZE with Some c => c :: chunks n (drop (Z.to_nat PHDR_SIZE) t) | None => [] end
  end.
Fixpoint push_all (phs : list (list Z)) (b : Builder) : Builder + ElfError :=
  match phs with
  | [] => inl b
  | ph :: phs => match push ph b with (inl _, b) => push_all phs b | (inr e, _) => inr e end
  end.

Definition parse (data : list Z) : Image + ElfError :=
  let flen := zlen data in
  eh <! parse_ehdr data flen;;
  e <! ok_or (ph_end eh) Truncated;;
  table <! ok_or (slice data (eh_phoff eh) (e - eh_phoff eh)) Truncated;;
  b <! push_all (chunks (S (length table)) table) (Builder_new eh flen);;
  finish b.

(** ** The load plan *)
Record PageRun := mkRun { run_start : Z; run_len : Z; run_write : bool; run_exec : bool }.

Definition span (s : LoadSeg) : Z * Z := (page_down (vaddr s), page_up (saturating_add 64 (vaddr s) (memsz s))).
Definition nonempty (s : LoadSeg) : bool := negb (memsz s =? 0).

Definition add_edge (edges : list Z) (e : Z) : list Z :=
  if existsb (Z.eqb e) edges then edges
  else if zlen edges <? 2 * MAX_LOADS then edges ++ [e] else edges.
Definition add_edges (edges : list Z) (s : LoadSeg) : list Z :=
  if nonempty s then add_edge (add_edge edges (fst (span s))) (snd (span s)) else edges.

Definition top_seg (ls : list LoadSeg) (a b : Z) : option LoadSeg :=
  List.find (λ s, (fst (span s) <=? a) && (b <=? snd (span s))) (List.filter nonempty (rev ls)).

(** One pair of neighbouring edges: extend the last run or start one. *)
Definition add_run (ls : list LoadSeg) (runs : list PageRun) (a b : Z) : list PageRun :=
  match top_seg ls a b with
  | None => runs
  | Some top =>
      let len := saturating_sub b a in
      let fresh :=
        if zlen runs <? 2 * MAX_LOADS then runs ++ [mkRun a len (write top) (exec top)] else runs in
      match last runs with
      | Some r =>
          if (saturating_add 64 (run_start r) (run_len r) =? a) && eqb (run_write r) (write top) && eqb (run_exec r) (exec top)
          then removelast runs ++ [mkRun (run_start r) (saturating_add 64 (run_len r) len) (run_write r) (run_exec r)]
          else fresh
      | None => fresh
      end
  end.
Fixpoint add_runs (ls : list LoadSeg) (runs : list PageRun) (edges : list Z) : list PageRun :=
  match edges with
  | a :: (b :: _) as rest => add_runs ls (add_run ls runs a b) rest
  | _ => runs
  end.

Definition load_plan (img : Image) : list PageRun :=
  let edges := merge_sort Z.le (foldl add_edges [] (loads img)) in
  add_runs (loads img) [] edges.

(** ** Loading

    The trait [LoadTarget]; an operation that fails may have changed the target. *)
Class LoadTarget (S E : Type) := {
  map_zeroed : PageRun → S → (unit + E) * S;
  copy : LoadSeg → S → (unit + E) * S
}.

Section Load.
Context {S E : Type} `{LoadTarget S E}.

Fixpoint each {A} (f : A → S → (unit + E) * S) (l : list A) (t : S) : (unit + E) * S :=
  match l with
  | [] => (inl tt, t)
  | x :: l => match f x t with (inl _, t) => each f l t | r => r end
  end.
Definition copy_file (s : LoadSeg) (t : S) : (unit + E) * S :=
  if negb (filesz s =? 0) then copy s t else (inl tt, t).
Definition load_segments (img : Image) (t : S) : (unit + E) * S :=
  match each map_zeroed (load_plan img) t with
  | (inl _, t) => each copy_file (loads img) t
  | r => r
  end.
End Load.
End Elf.
