(* ===== verification/ElfProps.v ===== *)
(** * What an accepted ELF image guarantees (src/crates/core/src/proc/elf.rs)

    The invariant of the [Builder], kept by every record it takes, and the
    well-formedness of every image [parse] returns: the loader maps nothing outside
    the user half, reads nothing outside the file and never more than the cap. *)

From stdpp Require Import base gmap list numbers sorting.
From S2P Require Import Prelude Bytes Paging AddrSpace AddrSpacePages Elf.
Import Paging Elf.

Local Open Scope Z_scope.

(** The constants as numbers, for [lia]. *)
Ltac numerals :=
  change NULL_GUARD_LEN with 4096 in *; change USER_MAP_END with 0x7FFFFFFFF000 in *; change USER_END with 0x800000000000 in *;
  change PAGE_SIZE_4K with 4096 in *; change PHDR_SIZE with 56 in *; change MAX_LOADS with 8 in *.

(** ** Words and pages *)
Lemma checked_add_Some w a b c : checked_add w a b = Some c ↔ c = a + b ∧ a + b < 2 ^ w.
Proof. unfold checked_add. destruct (Z.ltb_spec (a + b) (2 ^ w)); naive_solver lia. Qed.
Lemma checked_sub_Some a b c : AddrSpace.checked_sub a b = Some c ↔ c = a - b ∧ b ≤ a.
Proof. unfold AddrSpace.checked_sub. destruct (Z.leb_spec b a); naive_solver lia. Qed.

Lemma page_down_eq x : u64 x → page_down x = x - x mod 4096.
Proof. intros Hx. unfold page_down, page_mask. apply (land_notw 64 x 12); [done|lia]. Qed.
Lemma page_up_eq x : 0 ≤ x < 2 ^ 63 → page_up x = x + 4095 - (x + 4095) mod 4096.
Proof.
  intros Hx. unfold page_up, page_mask, saturating_add. change (PAGE_SIZE_4K - 1) with 4095.
  rewrite Z.min_l by lia. apply (land_notw 64 (x + 4095) 12); [unfold in_width; lia|lia].
Qed.

Lemma le_at_ok n b o x : bytes_ok b → le_at n b o = inl x → 0 ≤ x < 256 ^ n.
Proof.
  intros Hb H. unfold le_at, bytes_at in H. invert_ok. simplify_eq.
  pose proof (slice_Some _ _ _ _ H0) as (_ & _ & _ & _ & <-). by eapply le_val_range, slice_ok.
Qed.

(** ** The user half *)
Definition in_user (va len : Z) : Prop := NULL_GUARD_LEN ≤ va ∧ va + len ≤ USER_MAP_END.

Lemma check_user_va_ok va len : 0 ≤ va → 0 < len → check_user_va va len = inl tt ↔ in_user va len.
Proof.
  intros Hva Hlen. unfold check_user_va, in_user. rewrite (proj2 (Z.eqb_neq len 0)) by lia. split.
  - intros H. invert_ok. apply checked_add_Some in H0 as [-> _]. apply orb_false_iff in H2 as [H3%Z.leb_gt H4%Z.ltb_ge].
    apply Z.ltb_ge in H. lia.
  - intros [H1 H2]. numerals.
    unfold checked_add. rewrite (proj2 (Z.ltb_lt _ _)) by lia. cbn [ok_or rbind]. unfold wrapping_sub, wrap.
    rewrite Z.mod_small, !canonical_low by (numerals; lia). cbn [negb orb refuse_if rbind].
    rewrite (proj2 (Z.leb_gt _ _)), (proj2 (Z.ltb_ge _ _)), (proj2 (Z.ltb_ge _ _)) by (numerals; lia). done.
Qed.

(** ** The image *)
Definition seg_ok (flen : Z) (s : LoadSeg) : Prop :=
  in_user (vaddr s) (Z.max (memsz s) 1) ∧ 0 ≤ filesz s ≤ memsz s ∧ 0 ≤ offset s ∧ offset s + filesz s ≤ flen.
Definition apart (a b : LoadSeg) : Prop := vaddr a + memsz a ≤ vaddr b ∨ vaddr b + memsz b ≤ vaddr a.
Definition tls_ok (flen : Z) (t : TlsSeg) : Prop :=
  0 ≤ t_filesz t ≤ t_memsz t ∧ 0 ≤ t_offset t ∧ t_offset t + t_filesz t ≤ flen ∧ is_power_of_two (t_align t) = true ∧
  t_align t < 2 ^ 64 ∧ t_memsz t < 2 ^ 64.

(** The pages a segment touches, in bytes. *)
Definition pages_of (s : LoadSeg) : Z := if memsz s =? 0 then 0 else page_up (vaddr s + memsz s) - page_down (vaddr s).
Definition mapped_bytes (ls : list LoadSeg) (t : option TlsSeg) : Z :=
  foldr (λ s n, pages_of s + n) 0 ls + from_option (λ t, default 0 (map_len t)) 0 t.

Record image_ok (flen : Z) (img : Image) : Prop := {
  io_len : file_len img = flen;
  io_count : 1 ≤ zlen (loads img) ≤ MAX_LOADS;
  io_segs : Forall (seg_ok flen) (loads img);
  io_apart : ForallOrdPairs apart (loads img);
  io_size : mapped_bytes (loads img) (tls img) ≤ EXEC_IMAGE_MAX;
  io_entry : in_user (entry img) 1;
  io_tls : ∀ t, tls img = Some t → tls_ok flen t ∧ is_Some (map_len t);
  io_phdrs : 0 ≤ phoff img ∧ 0 < phnum img ∧ phoff img + phnum img * phentsize img ≤ flen;
  io_phdr_va : ∀ va, phdr_va img = Some va → in_user va (phnum img * phentsize img)
}.

(** ** The builder *)
Record builder_ok (flen : Z) (b : Builder) : Prop := {
  bo_len : b_file_len b = flen;
  bo_eh : u64 (eh_entry (b_eh b)) ∧ u64 (eh_phoff (b_eh b)) ∧ 0 < eh_phnum (b_eh b) < 2 ^ 16 ∧
          eh_phoff (b_eh b) + eh_phnum (b_eh b) * PHDR_SIZE ≤ flen;
  bo_count : zlen (b_loads b) ≤ MAX_LOADS;
  bo_segs : Forall (seg_ok flen) (b_loads b);
  bo_apart : ForallOrdPairs apart (b_loads b);
  bo_tls : ∀ t, b_tls b = Some t → tls_ok flen t;
  bo_phdr : ∀ va, b_phdr_va b = Some va → 0 ≤ va
}.

Lemma ForallOrdPairs_snoc {A} (R : A → A → Prop) l x :
  ForallOrdPairs R l → Forall (λ y, R y x) l → ForallOrdPairs R (l ++ [x]).
Proof.
  induction 1 as [|y l Hy _ IH]; intros Hx; cbn; [repeat constructor|].
  apply Forall_cons in Hx as [Hyx Hx]. constructor; [apply Forall_app; auto|by apply IH].
Qed.

Lemma seg_small flen s : seg_ok flen s → 4096 ≤ vaddr s ∧ vaddr s + memsz s < 2 ^ 47 ∧ 0 ≤ memsz s.
Proof. intros ([H1 H2] & H3 & _). numerals. lia. Qed.

Lemma overlap_apart flen a b : seg_ok flen a → seg_ok flen b →
  ranges_overlap (vaddr a) (memsz a) (vaddr b) (memsz b) = false → apart a b.
Proof.
  intros Ha%seg_small Hb%seg_small. unfold ranges_overlap, apart, saturating_add. rewrite !Z.min_l by lia.
  intros [H%Z.ltb_ge|H%Z.ltb_ge]%andb_false_iff; lia.
Qed.

Lemma check_file_ok b off n : check_file_bytes b off n = inl tt → off + n ≤ b_file_len b.
Proof. unfold check_file_bytes. intros H. invert_ok. apply checked_add_Some in H0 as [-> _]. by apply Z.ltb_ge in H. Qed.

Lemma push_load_ok flen flags off va fsz msz align b b' :
  0 ≤ off → 0 ≤ va → 0 ≤ fsz → builder_ok flen b → push_load flags off va fsz msz align b = inl b' → builder_ok flen b'.
Proof.
  intros Ho Hv Hf HB H. unfold push_load in H. invert_ok. injection H as <-.
  repeat match goal with u : unit |- _ => destruct u end.
  apply Z.ltb_ge in H0. apply check_user_va_ok in H2; [|lia..]. apply check_file_ok in H4. rewrite (bo_len _ _ HB) in H4.
  apply negb_false_iff, Z.ltb_lt in H6. destruct HB as [Hl He Hc Hs Ha Ht Hp].
  set (s := mkLoad _ _ _ _ _ _). assert (Hok : seg_ok flen s) by (split_and!; done).
  constructor; cbn; try done.
  - zlia.
  - apply Forall_app; auto.
  - apply ForallOrdPairs_snoc; [done|]. apply Forall_forall. intros l Hin.
    eapply overlap_apart; [by eapply Forall_forall in Hs|done|].
    destruct (ranges_overlap (vaddr l) _ _ _) eqn:E; [|done]. exfalso.
    assert (existsb (λ l, ranges_overlap (vaddr l) (memsz l) va msz) (b_loads b) = true) as Hex; [|congruence].
    apply existsb_exists. exists l. split; [by apply list_elem_of_In|done].
Qed.

Lemma pow2_align align : 0 ≤ align → bad_align align = false → is_power_of_two (if align =? 0 then 1 else align) = true.
Proof.
  unfold bad_align. intros Hp. destruct (Z.eqb_spec align 0); [done|]. cbn. by intros ?%negb_false_iff.
Qed.

Lemma push_tls_ok flen off va fsz msz align b b' :
  0 ≤ off → 0 ≤ fsz → u64 msz → u64 align → builder_ok flen b → push_tls off va fsz msz align b = inl b' → builder_ok flen b'.
Proof.
  intros Ho Hf Hm Ha HB H. unfold push_tls in H. invert_ok. injection H as <-.
  repeat match goal with u : unit |- _ => destruct u end.
  apply Z.ltb_ge in H0. apply check_file_ok in H2. rewrite (bo_len _ _ HB) in H2. destruct HB. constructor; cbn; try done.
  intros t [= <-]. unfold in_width in *. split_and!; cbn; try lia; [by apply pow2_align; [lia|]|]. destruct (align =? 0); lia.
Qed.

Lemma counted_ok flen n b : builder_ok flen b → builder_ok flen (counted n b).
Proof. by intros []. Qed.

Lemma push_record_ok flen ph b b' : bytes_ok ph → builder_ok flen b → push_record ph b = inl b' → builder_ok flen b'.
Proof.
  intros Hph HB H. unfold push_record, le32, le64 in H. invert_ok.
  repeat match goal with H : le_at _ ph _ = inl _ |- _ => apply (le_at_ok _ _ _ _ Hph) in H; cbn in H end.
  repeat case_match; simplify_eq; [|by destruct HB| |destruct HB; constructor; cbn; naive_solver lia|done].
  - eapply push_load_ok; [..|done]; [lia..|done].
  - eapply push_tls_ok; [..|done]; unfold in_width; [lia..|done].
Qed.

(** Every record, accepted or refused, keeps the builder well formed. *)
Lemma push_ok flen ph b : bytes_ok ph → builder_ok flen b → builder_ok flen (push ph b).2.
Proof.
  intros Hph HB. unfold push. destruct (_ || _); [done|]. destruct (checked_add _ _ _) as [n|]; [|done].
  pose proof (counted_ok _ n _ HB) as HB'. destruct (push_record ph (counted n b)) eqn:E; cbn; [|done].
  by eapply push_record_ok.
Qed.

Lemma push_all_ok flen phs b b' : Forall bytes_ok phs → builder_ok flen b → push_all phs b = inl b' → builder_ok flen b'.
Proof.
  intros Hphs. revert b. induction Hphs as [|ph phs Hph _ IH]; intros b HB; cbn; [by intros [= <-]|].
  pose proof (push_ok flen ph b Hph HB) as HB'. destruct (push ph b) as [[]  b1]; [by apply IH|done].
Qed.

Lemma chunks_ok n t : bytes_ok t → Forall bytes_ok (chunks n t).
Proof.
  revert t. induction n as [|n IH]; intros t Ht; cbn; [constructor|]. destruct (slice t 0 PHDR_SIZE) eqn:E; [|constructor].
  constructor; [by eapply slice_ok|]. by apply IH, Forall_drop.
Qed.

(** ** The size of the image *)
Lemma seg_span_ok flen s n : seg_ok flen s → memsz s ≠ 0 → seg_span s = inl n → n = pages_of s.
Proof.
  intros Hs%seg_small Hm H. unfold seg_span in H. invert_ok.
  apply checked_add_Some in H0 as [-> _]. apply checked_add_Some in H1 as [-> _]. apply checked_sub_Some in H as [-> _].
  unfold pages_of. rewrite (proj2 (Z.eqb_neq _ _)) by done. f_equal. unfold page_up, saturating_add.
  rewrite Z.min_l; [done|]. numerals. lia.
Qed.

Lemma spans_ok flen ls t n : Forall (seg_ok flen) ls → spans ls t = inl n → n = t + foldr (λ s n, pages_of s + n) 0 ls.
Proof.
  intros Hls. revert t. induction Hls as [|s ls Hs _ IH]; intros t; cbn; [intros [= <-]; lia|].
  destruct (Z.eqb_spec (memsz s) 0) as [E|E].
  - intros ->%IH. unfold pages_of. rewrite E. cbn. lia.
  - intros H. invert_ok. apply (seg_span_ok flen) in H0 as ->; [|done..]. apply checked_add_Some in H1 as [-> _].
    apply IH in H as ->. lia.
Qed.

Lemma image_bytes_ok flen ls t n :
  Forall (seg_ok flen) ls → image_bytes ls t = inl n →
  mapped_bytes ls t ≤ EXEC_IMAGE_MAX ∧ (∀ t', t = Some t' → is_Some (map_len t')).
Proof.
  intros Hls H. unfold image_bytes in H. invert_ok. apply (spans_ok flen) in H0 as ->; [|done]. apply Z.ltb_ge in H2.
  unfold mapped_bytes. destruct t as [t|]; cbn.
  - invert_ok. apply checked_add_Some in H1 as [-> _]. rewrite H0. cbn. split; [lia|]. intros ? [= <-]. by eexists.
  - simplify_eq. split; [lia|done].
Qed.

Lemma find_map_Some {A B} (f : A → option B) l y : find_map f l = Some y → ∃ x, x ∈ l ∧ f x = Some y.
Proof.
  induction l as [|x l IH]; cbn; [done|]. destruct (f x) eqn:E; [intros [= <-]; set_solver|].
  intros (z & ? & ?)%IH. set_solver.
Qed.

Lemma finish_ok flen b img : builder_ok flen b → finish b = inl img → image_ok flen img.
Proof.
  intros HB H. unfold finish in H. invert_ok. injection H as <-. destruct HB as [Hl (Hen & Hpo & Hpn & Hend) Hc Hs Ha Ht Hp].
  repeat match goal with u : unit |- _ => destruct u end.
  apply Z.eqb_neq in H1. apply (image_bytes_ok flen) in H2 as [Hsz Hml]; [|done].
  apply check_user_va_ok in H3; [|apply Hen|lia]. constructor; cbn; try done.
  - zlia.
  - intros t Et. split; [by apply Ht|by apply Hml].
  - split_and!; [apply Hpo|lia|done].
  - intros va Hva. rewrite Hva in H5.
    assert (Hva0 : 0 ≤ va).
    { destruct (b_phdr_va b) as [va'|] eqn:E; [simplify_eq; by apply Hp|].
      apply find_map_Some in Hva as (s & Hin & Hva). rewrite Forall_forall in Hs. apply Hs, seg_small in Hin.
      unfold phdr_in in Hva. apply bind_Some in Hva as (d & [-> ?]%checked_sub_Some & Hva).
      apply bind_Some in Hva as (fe & _ & Hva). destruct (_ <=? _); [|done]. apply checked_add_Some in Hva as [-> _]. lia. }
    unfold saturating_mul in H5. rewrite Z.min_l, Z.max_l in H5 by (unfold PHDR_SIZE; lia).
    apply check_user_va_ok in H5; [done|done|unfold PHDR_SIZE; lia].
Qed.

Lemma parse_ehdr_ok data flen eh :
  bytes_ok data → parse_ehdr data flen = inl eh → builder_ok flen (Builder_new eh flen).
Proof.
  intros Hd H. unfold parse_ehdr in H. apply rbind_inl in H as (? & _ & H). apply rbind_inl in H as (id & _ & H).
  destruct id as [|m0 [|m1 [|m2 [|m3 [|c [|en [|v id]]]]]]]; try done. unfold le16, le32, le64 in H. invert_ok. injection H as <-.
  repeat match goal with H : le_at _ data _ = inl _ |- _ => apply (le_at_ok _ _ _ _ Hd) in H; cbn in H end.
  constructor; cbn; try first [done | apply FOP_nil | by apply Forall_nil].
  match goal with H : ph_end _ = Some _ |- _ => unfold ph_end in H; apply bind_Some in H as (n & Hn & H); cbn in Hn;
    unfold checked_mul in Hn; destruct (_ <? _) in Hn; [injection Hn as <-|done]; apply checked_add_Some in H as [-> _] end.
  repeat match goal with H : (_ <? _) = false |- _ => apply Z.ltb_ge in H | H : (_ =? 0) = false |- _ => apply Z.eqb_neq in H end.
  cbn in *. unfold in_width. lia.
Qed.

(** C27: Whatever bytes it is given, an image [parse] accepts is safe to load: one to
    eight segments, each inside the user half above the null guard, with its file
    bytes inside the file and no larger than its memory; the segments pairwise
    disjoint; the page-rounded total of segments and thread-local block at most the
    cap; the entry point and the program headers' address in the user half; and the
    thread-local alignment a power of two. *)
Theorem elf_image_safe data img : bytes_ok data → parse data = inl img → image_ok (zlen data) img.
Proof.
  intros Hd H. unfold parse in H. invert_ok. eapply finish_ok; [|done]. eapply push_all_ok; [..|done].
  - apply chunks_ok. by eapply slice_ok.
  - by eapply parse_ehdr_ok.
Qed.

(** A file of one read-execute segment at 4 MiB. *)
Definition tiny_words : list (nat * Z) :=
  [(8%nat, 0x00010102464C457F); (8%nat, 0); (8%nat, 0x00000001003E0002); (8%nat, 0x400078); (8%nat, 64); (8%nat, 0); (8%nat, 0x0038004000000000);
   (8%nat, 1); (8%nat, 0x0000000500000001); (8%nat, 0); (8%nat, 0x400000); (8%nat, 0x400000); (8%nat, 120); (8%nat, 0x1000); (8%nat, 4096)].
Definition tiny : list Z := concat (map (λ f, le_bytes f.1 f.2) tiny_words).
Lemma elf_image_safe_witness : ∃ img, parse tiny = inl img ∧ image_ok 120 img.
Proof.
  eexists. split; [by vm_compute|]. apply (elf_image_safe tiny); [|by vm_compute].
  apply Forall_concat, Forall_map, Forall_forall. intros f _. apply le_bytes_ok.
Defined.
