(* ===== verification/ElfFile.v ===== *)
(** * ELF files the loader accepts (src/crates/core/src/proc/elf.rs)

    The other direction of the image's safety: a file laid out as the ELF64 format
    has it, with a header, a table of [PT_LOAD] records and a body, is accepted
    whenever its segments are well formed, and the image has those segments. *)

From stdpp Require Import base gmap list numbers sorting.
From S2P Require Import Prelude Bytes Paging AddrSpace AddrSpacePages Elf ElfProps.
Import Paging Elf.

Local Open Scope Z_scope.

(** ** Fields

    A record of the file as its fields in order, each a width in bytes and a value. *)
Definition field_bytes (f : nat * Z) : list Z := le_bytes f.1 f.2.
Definition fields (fs : list (nat * Z)) : list Z := concat (map field_bytes fs).
Fixpoint field_at (fs : list (nat * Z)) (o : nat) : option (nat * Z) :=
  match fs, o with
  | [], _ => None
  | f :: _, O => Some f
  | f :: fs, o => if (f.1 <=? o)%nat then field_at fs (o - f.1) else None
  end.

Lemma slice_field fs rest o n x :
  field_at fs o = Some (n, x) → (0 < n)%nat → slice (fields fs ++ rest) (Z.of_nat o) (Z.of_nat n) = Some (le_bytes n x).
Proof.
  revert o. induction fs as [|[k y] fs IH]; intros o Hf Hn; [by destruct o|].
  change (fields ((k, y) :: fs)) with (le_bytes k y ++ fields fs). rewrite <-app_assoc. destruct o as [|o].
  - injection Hf as -> ->. apply slice_head. unfold zlen. by rewrite length_le_bytes.
  - cbn [field_at fst] in Hf. destruct (Nat.leb_spec k (S o)); [|done].
    replace (Z.of_nat (S o)) with (zlen (le_bytes k y) + Z.of_nat (S o - k)) by (unfold zlen; rewrite length_le_bytes; lia).
    rewrite slice_app_r by lia. by apply IH.
Qed.

Lemma le_at_field fs rest o n x :
  field_at fs (Z.to_nat o) = Some (Z.to_nat n, x) → 0 ≤ o < 2 ^ 32 → 0 < n < 2 ^ 32 → 0 ≤ x < 256 ^ n →
  le_at n (fields fs ++ rest) o = inl x.
Proof.
  intros Hf Ho Hn Hx. unfold le_at, bytes_at, checked_add. rewrite (proj2 (Z.ltb_lt _ _)) by lia. cbn [ok_or rbind].
  pose proof (slice_field fs rest _ _ _ Hf ltac:(lia)) as Hs. rewrite !Z2Nat.id in Hs by lia. rewrite Hs. cbn [ok_or rbind].
  f_equal. apply le_roundtrip. rewrite Z2Nat.id by lia. done.
Qed.

(** ** Files *)
Definition ehdr_fields (entry phnum : Z) : list (nat * Z) :=
  [(1%nat, ELFMAG0); (1%nat, 69); (1%nat, 76); (1%nat, 70); (1%nat, ELFCLASS64); (1%nat, ELFDATA2LSB); (1%nat, EV_CURRENT); (1%nat, 0); (8%nat, 0);
   (2%nat, ET_EXEC); (2%nat, EM_X86_64); (4%nat, 1); (8%nat, entry); (8%nat, EHDR_SIZE); (8%nat, 0); (4%nat, 0); (2%nat, EHDR_SIZE); (2%nat, PHDR_SIZE);
   (2%nat, phnum); (2%nat, 0); (2%nat, 0); (2%nat, 0)].

Definition seg_flags (s : LoadSeg) : Z := PF_R + (if write s then PF_W else 0) + (if exec s then PF_X else 0).
Definition phdr_fields (sa : LoadSeg * Z) : list (nat * Z) :=
  let '(s, align) := sa in
  [(4%nat, PT_LOAD); (4%nat, seg_flags s); (8%nat, offset s); (8%nat, vaddr s); (8%nat, vaddr s); (8%nat, filesz s); (8%nat, memsz s); (8%nat, align)].

Definition elf_file (entry : Z) (segs : list (LoadSeg * Z)) (body : list Z) : list Z :=
  fields (ehdr_fields entry (zlen segs)) ++ concat (map (λ sa, fields (phdr_fields sa)) segs) ++ body.

Definition align_ok (sa : LoadSeg * Z) : Prop :=
  let '(s, align) := sa in
  u64 align ∧ (align = 0 ∨ is_power_of_two align = true ∧ vaddr s mod align = offset s mod align).

Lemma length_fields fs : length (fields fs) = sum_list (map fst fs).
Proof.
  induction fs as [|f fs IH]; [done|]. change (fields (f :: fs)) with (field_bytes f ++ fields fs).
  rewrite length_app, IH. unfold field_bytes. by rewrite length_le_bytes.
Qed.
Lemma zlen_phdr sa : zlen (fields (phdr_fields sa)) = PHDR_SIZE.
Proof. unfold zlen. rewrite length_fields. by destruct sa. Qed.
Lemma zlen_table segs : zlen (concat (map (λ sa, fields (phdr_fields sa)) segs)) = zlen segs * PHDR_SIZE.
Proof.
  induction segs as [|sa segs IH]; [done|]. cbn [map concat]. pose proof (zlen_phdr sa). unfold zlen in *.
  rewrite length_app. cbn [length]. change PHDR_SIZE with 56 in *. lia.
Qed.
Lemma zlen_ehdr entry n : zlen (fields (ehdr_fields entry n)) = EHDR_SIZE.
Proof. unfold zlen. by rewrite length_fields. Qed.

Lemma zlen_elf_file entry segs body : zlen (elf_file entry segs body) = 64 + zlen segs * 56 + zlen body.
Proof.
  unfold elf_file. pose proof (zlen_ehdr entry (zlen segs)) as H1. pose proof (zlen_table segs) as H2.
  change EHDR_SIZE with 64 in *. change PHDR_SIZE with 56 in *. unfold zlen in *. rewrite !length_app. lia.
Qed.

Lemma chunks_table segs n :
  (length segs < n)%nat →
  chunks n (concat (map (λ sa, fields (phdr_fields sa)) segs)) = map (λ sa, fields (phdr_fields sa)) segs.
Proof.
  revert n. induction segs as [|sa segs IH]; intros n Hn; (destruct n as [|n]; [cbn in Hn; lia|]); [done|].
  cbn [map concat chunks]. rewrite slice_head by (by rewrite zlen_phdr).
  f_equal. pose proof (zlen_phdr sa) as Hl. rewrite drop_app_length'; [|unfold zlen in Hl; lia]. apply IH. cbn in Hn. lia.
Qed.

Lemma parse_ehdr_file entry n rest flen :
  u64 entry → 0 < n < 2 ^ 16 → EHDR_SIZE + n * PHDR_SIZE ≤ flen →
  parse_ehdr (fields (ehdr_fields entry n) ++ rest) flen = inl (mkEhdr entry EHDR_SIZE n).
Proof.
  intros He Hn Hf. unfold parse_ehdr. change EHDR_SIZE with 64 in *. change PHDR_SIZE with 56 in *.
  assert (64 ≤ zlen (fields (ehdr_fields entry n) ++ rest)).
  { pose proof (zlen_ehdr entry n) as Hl. unfold zlen in *. rewrite length_app. change EHDR_SIZE with 64 in Hl. lia. }
  rewrite (proj2 (Z.ltb_ge _ _)), (proj2 (Z.ltb_ge flen _)) by lia. cbn [orb refuse_if rbind].
  replace (bytes_at EI_NIDENT (fields (ehdr_fields entry n) ++ rest) 0)
    with (@inl (list Z) ElfError ([0x7F; 69; 76; 70; 2; 1; 1; 0] ++ replicate 8 0)).
  2: { unfold bytes_at, checked_add, slice. rewrite (proj2 (Z.leb_le (0 + EI_NIDENT) _)) by (change EI_NIDENT with 16; lia). done. }
  cbn [app rbind]. unfold le16, le32, le64, in_width in *.
  rewrite (le_at_field _ _ 16 _ 2), (le_at_field _ _ 18 _ 62), (le_at_field _ _ 20 _ 1), (le_at_field _ _ 24 _ entry),
    (le_at_field _ _ 32 _ 64), (le_at_field _ _ 52 _ 64), (le_at_field _ _ 54 _ 56), (le_at_field _ _ 56 _ n)
    by first [reflexivity | lia].
  cbn -[ph_end Z.mul Z.add]. rewrite (proj2 (Z.eqb_neq n 0)) by lia. cbn -[ph_end Z.mul Z.add].
  unfold ph_end, checked_mul, checked_add. cbn [eh_phnum eh_phoff mbind option_bind]. change PHDR_SIZE with 56.
  rewrite (proj2 (Z.ltb_lt (n * 56) _)) by lia. cbn [mbind option_bind]. rewrite (proj2 (Z.ltb_lt (64 + n * 56) _)) by lia.
  cbn [ok_or rbind]. rewrite (proj2 (Z.ltb_ge flen _)) by lia. done.
Qed.

(** ** Records *)
Lemma flags_read s : negb (Z.land (seg_flags s) PF_W =? 0) = write s ∧ negb (Z.land (seg_flags s) PF_X =? 0) = exec s.
Proof. unfold seg_flags. by destruct (write s), (exec s). Qed.

Lemma apart_no_overlap flen a b : seg_ok flen a → seg_ok flen b → apart a b →
  ranges_overlap (vaddr a) (memsz a) (vaddr b) (memsz b) = false.
Proof.
  intros Ha%seg_small Hb%seg_small Hab. unfold ranges_overlap, apart, saturating_add in *. rewrite !Z.min_l by lia.
  apply andb_false_iff. rewrite !Z.ltb_ge. lia.
Qed.

Definition with_load (s : LoadSeg) (b : Builder) : Builder :=
  mkBuilder (b_eh b) (b_file_len b) (pushed b) (b_loads b ++ [s]) (b_stack_exec b) (saw_gnu_stack b) (b_tls b) (b_phdr_va b).

Lemma align_accepted s align : align_ok (s, align) →
  bad_align align = false ∧ (1 <? align) && negb (vaddr s mod align =? offset s mod align) = false.
Proof.
  intros [_ [->|[Hp Hm]]]; [done|]. unfold bad_align. rewrite Hp, Hm, Z.eqb_refl. cbn. by rewrite !andb_false_r.
Qed.

Lemma push_load_accepts flen s align b :
  flen < 2 ^ 64 → b_file_len b = flen → seg_ok flen s → align_ok (s, align) → Forall (seg_ok flen) (b_loads b) →
  Forall (λ l, apart l s) (b_loads b) → zlen (b_loads b) < MAX_LOADS →
  push_load (seg_flags s) (offset s) (vaddr s) (filesz s) (memsz s) align b = inl (with_load s b).
Proof.
  intros Hfl Hlen Hs [Ha1 Ha2]%align_accepted Hls Hap Hn. pose proof (seg_small _ _ Hs).
  pose proof Hs as (Hu & Hf & Ho & Hof). unfold push_load. rewrite (proj2 (Z.ltb_ge (memsz s) _)) by lia. rewrite Ha1, Ha2.
  cbn [refuse_if rbind]. rewrite (proj2 (check_user_va_ok (vaddr s) (Z.max (memsz s) 1) ltac:(lia) ltac:(lia)) Hu). cbn [rbind].
  unfold check_file_bytes, checked_add. rewrite (proj2 (Z.ltb_lt (offset s + filesz s) _)) by lia. cbn [ok_or rbind].
  rewrite Hlen, (proj2 (Z.ltb_ge flen _)) by lia. cbn [refuse_if rbind].
  destruct (existsb _ _) eqn:E.
  - apply existsb_exists in E as (l & Hin%list_elem_of_In & E). rewrite Forall_forall in Hls, Hap.
    by rewrite (apart_no_overlap flen l s (Hls l Hin) Hs (Hap l Hin)) in E.
  - cbn [refuse_if rbind]. rewrite (proj2 (Z.ltb_lt _ _)) by done. cbn [negb refuse_if rbind].
    destruct (flags_read s) as [-> ->]. unfold with_load. rewrite Hlen. by destruct s.
Qed.

Lemma push_accepts flen s align b :
  flen < 2 ^ 64 → b_file_len b = flen → seg_ok flen s → align_ok (s, align) → Forall (seg_ok flen) (b_loads b) →
  Forall (λ l, apart l s) (b_loads b) → zlen (b_loads b) < MAX_LOADS → 0 ≤ pushed b < eh_phnum (b_eh b) → eh_phnum (b_eh b) < 2 ^ 16 →
  push (fields (phdr_fields (s, align))) b = (inl tt, with_load s (counted (pushed b + 1) b)).
Proof.
  intros Hfl Hlen Hs Ha Hls Hap Hn Hp Hph. pose proof (seg_small _ _ Hs). pose proof Ha as [Hal _].
  pose proof Hs as (_ & Hf & Ho & Hof). unfold push. rewrite zlen_phdr, (proj2 (Z.leb_gt (eh_phnum _) _)), Z.ltb_irrefl by lia. cbn [orb].
  unfold checked_add at 1. rewrite (proj2 (Z.ltb_lt _ _)) by lia.
  unfold push_record, le32, le64, in_width in *. rewrite <-(app_nil_r (fields _)).
  assert (0 ≤ seg_flags s < 256 ^ 4) by (unfold seg_flags; by destruct (write s), (exec s)).
  rewrite (le_at_field _ _ 0 _ 1), (le_at_field _ _ 4 _ (seg_flags s)), (le_at_field _ _ 8 _ (offset s)),
    (le_at_field _ _ 16 _ (vaddr s)), (le_at_field _ _ 32 _ (filesz s)), (le_at_field _ _ 40 _ (memsz s)), (le_at_field _ _ 48 _ align)
    by first [reflexivity | lia].
  cbn [rbind Z.eqb PT_INTERP PT_LOAD Pos.eqb]. by rewrite (push_load_accepts flen).
Qed.

Lemma push_all_accepts flen segs b :
  flen < 2 ^ 64 → b_file_len b = flen → Forall (seg_ok flen) (map fst segs) → Forall align_ok segs →
  Forall (seg_ok flen) (b_loads b) → ForallOrdPairs apart (b_loads b ++ map fst segs) →
  zlen (b_loads b) + zlen segs ≤ MAX_LOADS → 0 ≤ pushed b → pushed b + zlen segs ≤ eh_phnum (b_eh b) < 2 ^ 16 →
  push_all (map (λ sa, fields (phdr_fields sa)) segs) b =
  inl (mkBuilder (b_eh b) flen (pushed b + zlen segs) (b_loads b ++ map fst segs) (b_stack_exec b) (saw_gnu_stack b) (b_tls b) (b_phdr_va b)).
Proof.
  intros Hfl. revert b. induction segs as [|[s al] segs IH]; intros b Hlen Hs Ha Hls Hap Hn Hp Hph; cbn [map push_all].
  - cbn [map]. rewrite app_nil_r, Z.add_0_r, <-Hlen. by destruct b.
  - apply Forall_cons in Ha as [Ha1 Ha2]. cbn in Hs. apply Forall_cons in Hs as [Hs1 Hs2].
    assert (Hl : zlen ((s, al) :: segs) = 1 + zlen segs) by zlia. rewrite Hl in *.
    assert (Hap1 : Forall (λ l, apart l s) (b_loads b)).
    { clear -Hap. revert Hap. induction (b_loads b) as [|l ls IH]; intros Hap; [constructor|]. inversion Hap; subst.
      constructor; [|by apply IH]. by apply Forall_app in H1 as [_ [H1 _]%Forall_cons]. }
    assert (0 ≤ zlen segs) by zlia.
    rewrite (push_accepts flen) by (done || lia). rewrite IH; cbn [with_load counted b_loads b_file_len pushed b_eh b_stack_exec saw_gnu_stack b_tls b_phdr_va]; try done.
    + cbn [map fst]. rewrite <-app_assoc. cbn. by rewrite Z.add_assoc.
    + apply Forall_app; auto.
    + by rewrite <-app_assoc.
    + zlia.
    + lia.
    + lia.
Qed.

(** ** The size and the program headers *)
Lemma page_bounds x : 0 ≤ x < 2 ^ 63 → page_down x ≤ x ≤ page_up x ∧ page_up x < x + 4096 ∧ 0 ≤ page_down x.
Proof.
  intros Hx. rewrite page_down_eq, page_up_eq by (unfold in_width; lia).
  pose proof (Z.mod_pos_bound x 4096). pose proof (Z.mod_pos_bound (x + 4095) 4096). pose proof (Z.mod_le x 4096). lia.
Qed.

Lemma pages_of_pos flen s : seg_ok flen s → 0 ≤ pages_of s.
Proof.
  intros Hs%seg_small. unfold pages_of. destruct (_ =? _); [lia|].
  pose proof (page_bounds (vaddr s + memsz s)). pose proof (page_bounds (vaddr s)). lia.
Qed.

Lemma seg_span_accepts flen s : seg_ok flen s → memsz s ≠ 0 → seg_span s = inl (pages_of s).
Proof.
  intros Hok Hm. pose proof (pages_of_pos _ _ Hok) as Hp. pose proof (seg_small _ _ Hok) as Hs. unfold seg_span, pages_of in *.
  rewrite (proj2 (Z.eqb_neq _ _)) in * by done. unfold checked_add. numerals.
  rewrite (proj2 (Z.ltb_lt _ _)) by lia. cbn [ok_or rbind]. rewrite (proj2 (Z.ltb_lt _ _)) by lia. cbn [ok_or rbind].
  replace (Z.land (vaddr s + memsz s + (4096 - 1)) page_mask) with (page_up (vaddr s + memsz s)).
  2: { unfold page_up, saturating_add. numerals. by rewrite Z.min_l by lia. }
  unfold AddrSpace.checked_sub. by rewrite (proj2 (Z.leb_le _ _)) by lia.
Qed.

Lemma spans_accepts flen ls t :
  Forall (seg_ok flen) ls → 0 ≤ t → t + foldr (λ s n, pages_of s + n) 0 ls < 2 ^ 64 →
  spans ls t = inl (t + foldr (λ s n, pages_of s + n) 0 ls) ∧ 0 ≤ foldr (λ s n, pages_of s + n) 0 ls.
Proof.
  intros Hls. revert t. induction Hls as [|s ls Hs Hls IH]; intros t Ht; cbn [foldr spans]; [rewrite Z.add_0_r; by split|].
  intros Hsum. pose proof (pages_of_pos _ _ Hs). destruct (IH (t + pages_of s)) as [IH1 IH2]; [lia..|].
  rewrite <-Z.add_assoc in IH1. split; [|lia]. destruct (Z.eqb_spec (memsz s) 0) as [E|E].
  - rewrite <-IH1. unfold pages_of. rewrite E. cbn. by rewrite Z.add_0_r.
  - rewrite (seg_span_accepts flen) by done. cbn [rbind]. unfold checked_add. rewrite (proj2 (Z.ltb_lt _ _)) by lia. done.
Qed.

Lemma image_bytes_accepts flen ls :
  Forall (seg_ok flen) ls → mapped_bytes ls None ≤ EXEC_IMAGE_MAX → image_bytes ls None = inl (mapped_bytes ls None).
Proof.
  unfold mapped_bytes, image_bytes. cbn [from_option]. rewrite Z.add_0_r. change EXEC_IMAGE_MAX with 1073741824. intros Hls Hsz.
  destruct (spans_accepts flen ls 0) as [-> _]; [done|lia|lia|]. cbn [rbind]. by rewrite (proj2 (Z.ltb_ge _ _)) by lia.
Qed.

(** The address found for the program headers is inside the segment that holds them. *)
Lemma phdr_in_user flen off e ls va :
  Forall (seg_ok flen) ls → 0 ≤ off < e → find_map (phdr_in off e) ls = Some va → in_user va (e - off).
Proof.
  intros Hls Hoe (s & Hin & Hva)%find_map_Some. rewrite Forall_forall in Hls. apply Hls in Hin as ([Hu1 Hu2] & Hf & Ho & Hof).
  unfold phdr_in in Hva. apply bind_Some in Hva as (d & [-> ?]%checked_sub_Some & Hva).
  apply bind_Some in Hva as (fe & [-> _]%checked_add_Some & Hva). destruct (Z.leb_spec e (offset s + filesz s)); [|done].
  apply checked_add_Some in Hva as [-> _]. split; lia.
Qed.

Lemma finish_accepts flen eh ls :
  Forall (seg_ok flen) ls → 1 ≤ zlen ls → mapped_bytes ls None ≤ EXEC_IMAGE_MAX → in_user (eh_entry eh) 1 →
  0 < eh_phnum eh < 2 ^ 16 → 0 ≤ eh_phoff eh < 2 ^ 32 →
  finish (mkBuilder eh flen (eh_phnum eh) ls false false None None) =
  inl (mkImage flen (eh_entry eh) ls false None (eh_phoff eh) PHDR_SIZE (eh_phnum eh)
         (find_map (phdr_in (eh_phoff eh) (eh_phoff eh + eh_phnum eh * PHDR_SIZE)) ls)).
Proof.
  intros Hls Hn Hsz He Hph Hpo. unfold finish. cbn [b_eh pushed b_loads b_tls saw_gnu_stack b_phdr_va b_file_len].
  rewrite Z.eqb_refl, (proj2 (Z.eqb_neq (zlen ls) 0)) by lia. cbn [negb refuse_if rbind].
  rewrite (image_bytes_accepts flen) by done. cbn [rbind].
  pose proof He as [He1 He2]. numerals. rewrite (proj2 (check_user_va_ok (eh_entry eh) 1 ltac:(lia) ltac:(lia)) He). cbn [rbind].
  unfold ph_end, checked_mul, checked_add. change PHDR_SIZE with 56. rewrite (proj2 (Z.ltb_lt (eh_phnum eh * 56) _)) by lia.
  cbn [mbind option_bind]. rewrite (proj2 (Z.ltb_lt (eh_phoff eh + _) _)) by lia. cbn [ok_or rbind].
  destruct (find_map _ ls) as [va|] eqn:E; [|done]. apply (phdr_in_user flen) in E; [|done|lia].
  replace (eh_phoff eh + eh_phnum eh * 56 - eh_phoff eh) with (eh_phnum eh * 56) in E by lia.
  unfold saturating_mul. rewrite Z.min_l, Z.max_l by lia. pose proof E as [E1 _]. numerals.
  by rewrite (proj2 (check_user_va_ok va (eh_phnum eh * 56) ltac:(lia) ltac:(lia)) E).
Qed.

(** C28: The loader refuses no well-formed program. A file that lays out a header, a
    table of [PT_LOAD] records and a body, whose segments lie in the user half and
    in the file, are pairwise disjoint, properly aligned and within the size cap,
    is parsed into the image with exactly those segments, in order, and the
    program headers' address is found in the segment that maps them. *)
Theorem elf_file_accepted entry segs body :
  let flen := zlen (elf_file entry segs body) in
  let n := zlen segs in
  flen < 2 ^ 64 → 1 ≤ n ≤ MAX_LOADS → Forall (seg_ok flen) (map fst segs) → Forall align_ok segs →
  ForallOrdPairs apart (map fst segs) → mapped_bytes (map fst segs) None ≤ EXEC_IMAGE_MAX → in_user entry 1 →
  parse (elf_file entry segs body) =
  inl (mkImage flen entry (map fst segs) false None EHDR_SIZE PHDR_SIZE n
         (find_map (phdr_in EHDR_SIZE (EHDR_SIZE + n * PHDR_SIZE)) (map fst segs))).
Proof.
  intros flen n Hfl Hn Hs Ha Hap Hsz He. unfold parse. fold flen. numerals.
  pose proof (zlen_elf_file entry segs body) as Hlen. fold flen n in Hlen.
  assert (0 ≤ zlen body) by zlia. pose proof He as [He1 He2]. numerals.
  unfold elf_file at 1. fold n. rewrite parse_ehdr_file; [|unfold in_width; lia|lia|change EHDR_SIZE with 64; numerals; lia].
  cbn [rbind]. assert (Hend : ph_end (mkEhdr entry EHDR_SIZE n) = Some (64 + n * 56)).
  { unfold ph_end, checked_mul, checked_add. cbn [eh_phnum eh_phoff]. numerals. rewrite (proj2 (Z.ltb_lt (n * 56) _)) by lia.
    cbn [mbind option_bind]. change EHDR_SIZE with 64. by rewrite (proj2 (Z.ltb_lt (64 + n * 56) _)) by lia. }
  rewrite Hend. cbn [ok_or rbind eh_phoff]. change EHDR_SIZE with 64.
  unfold elf_file. rewrite (slice_mid _ (concat _));
    [|by rewrite zlen_ehdr|rewrite zlen_table; fold n; numerals; lia].
  cbn [ok_or rbind]. rewrite chunks_table.
  2: { pose proof (zlen_table segs) as Ht. numerals. unfold zlen in Ht. lia. }
  rewrite (push_all_accepts flen); try done; cbn [Builder_new b_loads pushed b_eh eh_phnum]; [|numerals; fold n; zlia..].
  cbn [rbind app b_stack_exec saw_gnu_stack b_tls b_phdr_va Z.add]. fold n.
  assert (zlen (map fst segs) = n) by (unfold n, zlen; by rewrite length_map).
  rewrite (finish_accepts flen (mkEhdr entry 64 n)); try done; cbn [eh_phnum eh_phoff]; lia.
Qed.

(** A program of one read-execute segment at 4 MiB that maps its own headers. *)
Definition tiny_seg : LoadSeg := mkLoad 0x400000 0x1000 0 120 false true.
Lemma elf_file_accepted_witness :
  parse (elf_file 0x400078 [(tiny_seg, 4096)] []) =
  inl (mkImage 120 0x400078 [tiny_seg] false None 64 56 1 (Some 0x400040)).
Proof.
  apply (elf_file_accepted 0x400078 [(tiny_seg, 4096)] []); rewrite ?zlen_elf_file; cbn [map fst].
  - done.
  - by vm_compute.
  - constructor; [|constructor]. split_and!; by vm_compute.
  - constructor; [|constructor]. split; [unfold in_width; lia|by right].
  - repeat constructor.
  - by vm_compute.
  - unfold in_user. numerals. lia.
Defined.
