(* ===== verification/ElfPlan.v ===== *)
(** * The load plan (src/crates/core/src/proc/elf.rs)

    [load_plan] cuts the pages the segments touch at every edge of a segment and
    joins neighbours of equal permissions.  Its runs are exactly the pages of the
    segments, each with the permissions of the last segment that covers it. *)

From stdpp Require Import base gmap list numbers sorting.
From S2P Require Import Prelude Bytes Paging AddrSpace Elf ElfProps ElfFile.
Import Paging Elf.

Local Open Scope Z_scope.

(** ** What the plan promises *)
Definition covers (va : Z) (s : LoadSeg) : bool := nonempty s && ((fst (span s) <=? va) && (va <? snd (span s))).
(** The permissions the last covering segment gives the page at [va]. *)
Definition perms_at (ls : list LoadSeg) (va : Z) : option (bool * bool) :=
  (λ s, (write s, exec s)) <$> List.find (covers va) (rev ls).

Definition perm (r : PageRun) : bool * bool := (run_write r, run_exec r).
Definition run_end (r : PageRun) : Z := run_start r + run_len r.
Definition in_run (va : Z) (r : PageRun) : Prop := run_start r ≤ va < run_end r.
Definition runs_at (runs : list PageRun) (va : Z) (p : bool * bool) : Prop := ∃ r, r ∈ runs ∧ in_run va r ∧ perm r = p.

(** One run is below the next, and not joined to it only when their permissions differ. *)
Definition before (r r' : PageRun) : Prop := run_end r ≤ run_start r' ∧ (run_end r = run_start r' → perm r ≠ perm r').
Definition run_ok (a : Z) (r : PageRun) : Prop :=
  0 ≤ run_start r ∧ 0 < run_len r ∧ run_end r ≤ a ∧ (4096 | run_start r) ∧ (4096 | run_len r).

Record plan_ok (ls : list LoadSeg) (runs : list PageRun) (a : Z) : Prop := {
  po_sorted : StronglySorted before runs;
  po_runs : Forall (run_ok a) runs;
  po_exact : ∀ va p, va < a → runs_at runs va p ↔ perms_at ls va = Some p
}.

(** ** Lists *)
Lemma StronglySorted_snoc {A} (R : A → A → Prop) l x : StronglySorted R (l ++ [x]) ↔ StronglySorted R l ∧ Forall (λ y, R y x) l.
Proof.
  induction l as [|y l IH]; cbn.
  - split; [by repeat constructor|]. intros _. repeat constructor.
  - split.
    + intros [H1 H2]%StronglySorted_inv. apply IH in H1 as [H1 H3]. apply Forall_app in H2 as [H2 [H4 _]%Forall_cons].
      split; constructor; done.
    + intros [[H1 H2]%StronglySorted_inv [H3 H4]%Forall_cons]. constructor; [by apply IH|]. apply Forall_app. by repeat constructor.
Qed.

Lemma find_filter {A} (f g : A → bool) l : List.find f (List.filter g l) = List.find (λ x, g x && f x) l.
Proof. induction l as [|x l IH]; [done|]. cbn. destruct (g x); cbn; [|done]. by destruct (f x). Qed.
Lemma find_ext_in {A} (f g : A → bool) l : (∀ x, x ∈ l → f x = g x) → List.find f l = List.find g l.
Proof.
  induction l as [|x l IH]; intros H; [done|]. cbn. rewrite <-(H x), IH by set_solver. done.
Qed.
Lemma find_None_in {A} (f : A → bool) l : (∀ x, x ∈ l → f x = false) → List.find f l = None.
Proof. induction l as [|x l IH]; intros H; [done|]. cbn. rewrite H, IH by set_solver. done. Qed.

(** ** One interval between neighbouring edges *)
Section Step.
Context (ls : list LoadSeg).

(** No segment starts or ends strictly between [a] and [b]. *)
Definition cut (a b : Z) : Prop :=
  ∀ s, s ∈ ls → nonempty s = true → (fst (span s) ≤ a ∨ b ≤ fst (span s)) ∧ (snd (span s) ≤ a ∨ b ≤ snd (span s)).

Lemma top_seg_between a b va : cut a b → a ≤ va < b → perms_at ls va = (λ s, (write s, exec s)) <$> top_seg ls a b.
Proof.
  intros Hcut Hva. unfold perms_at, top_seg. f_equal. rewrite find_filter. apply find_ext_in. intros s Hs.
  rewrite list_elem_of_In, <-in_rev, <-list_elem_of_In in Hs. unfold covers. destruct (nonempty s) eqn:E; [|done]. cbn [andb].
  destruct (Hcut s Hs E). destruct (Z.leb_spec (fst (span s)) va), (Z.ltb_spec va (snd (span s))),
    (Z.leb_spec (fst (span s)) a), (Z.leb_spec b (snd (span s))); try done; lia.
Qed.

Lemma runs_at_snoc runs r va p : runs_at (runs ++ [r]) va p ↔ runs_at runs va p ∨ (in_run va r ∧ perm r = p).
Proof. unfold runs_at. set_solver. Qed.

Lemma run_ok_mono a b r : run_ok a r → a ≤ b → run_ok b r.
Proof. unfold run_ok. intuition lia. Qed.
Lemma runs_at_below a runs va p : Forall (run_ok a) runs → runs_at runs va p → va < a.
Proof. intros H (r & Hr & Hin & _). rewrite Forall_forall in H. apply H in Hr. unfold run_ok, in_run in *. lia. Qed.

(** The run that ends at [a] is the last one. *)
Lemma last_ends a runs r : StronglySorted before (runs ++ [r]) → Forall (run_ok a) (runs ++ [r]) →
  Forall (λ y, run_end y < a) runs.
Proof.
  intros [_ Hb]%StronglySorted_snoc [_ [Hr _]%Forall_cons]%Forall_app. eapply Forall_impl; [exact Hb|].
  intros y [Hy _]. unfold run_ok in Hr. unfold run_end in *. lia.
Qed.

(** Adding a run for [[a, b)] with permissions [p], not joined to the last. *)
Lemma append_run_ok runs a b top :
  plan_ok ls runs a → cut a b → 0 ≤ a < b → (4096 | a) → (4096 | b) → top_seg ls a b = Some top →
  (∀ r, last runs = Some r → run_end r = a → perm r ≠ (write top, exec top)) →
  plan_ok ls (runs ++ [mkRun a (b - a) (write top) (exec top)]) b.
Proof.
  intros [Hs Hr He] Hcut Hab Ha Hb Htop Hlast. set (n := mkRun _ _ _ _).
  assert (run_ok b n) by (unfold run_ok, n, run_end; cbn; split_and!; [lia|lia|lia|done|by apply Z.divide_sub_r]).
  constructor.
  - apply StronglySorted_snoc. split; [done|]. destruct (last runs) as [r|] eqn:El.
    + apply last_Some in El as [pre ->]. pose proof (last_ends _ _ _ Hs Hr) as Hpre.
      apply Forall_app in Hr as [_ [Hr _]%Forall_cons]. apply Forall_app. split.
      * eapply Forall_impl; [exact Hpre|]. intros y Hy. cbn in Hy. split; cbn; lia.
      * constructor; [|constructor]. split; [apply Hr|]. cbn. intros Hea. apply Hlast; [|done]. by rewrite ?last_snoc.
    + apply last_None in El as ->. constructor.
  - apply Forall_app. split; [|by apply Forall_singleton]. eapply Forall_impl; [exact Hr|]. intros. eapply run_ok_mono; [done|lia].
  - intros va p Hva. rewrite runs_at_snoc. unfold in_run, run_end. cbn. destruct (Z.lt_ge_cases va a).
    + rewrite He by done. split; [intros [|[? _]]; [done|lia]|by left].
    + rewrite (top_seg_between a b), Htop by (done || lia). cbn. split.
      * intros [Hx|[_ <-]]; [apply (runs_at_below a) in Hx; [lia|done]|done].
      * intros [= <-]. right. split; [lia|done].
Qed.

(** Extending the last run, which ends at [a] with the same permissions. *)
Lemma extend_run_ok pre r a b top :
  plan_ok ls (pre ++ [r]) a → cut a b → 0 ≤ a < b → (4096 | a) → (4096 | b) → top_seg ls a b = Some top →
  run_end r = a → perm r = (write top, exec top) →
  plan_ok ls (pre ++ [mkRun (run_start r) (run_len r + (b - a)) (run_write r) (run_exec r)]) b.
Proof.
  intros [Hs Hr He] Hcut Hab Ha Hb Htop Hre Hp. set (n := mkRun _ _ _ _).
  pose proof Hr as [Hpre [Hrr _]%Forall_cons]%Forall_app. pose proof Hs as [Hs1 Hs2]%StronglySorted_snoc.
  unfold run_end in Hre. constructor.
  - apply StronglySorted_snoc. split; [done|]. eapply Forall_impl; [exact Hs2|]. intros y [Hy1 Hy2]. by split.
  - apply Forall_app. split; [eapply Forall_impl; [exact Hpre|]; intros; eapply run_ok_mono; [done|lia]|].
    constructor; [|constructor]. destruct Hrr as (H1 & H2 & H3 & H4 & H5). unfold run_ok, run_end, n. cbn.
    split_and!; [done|lia|lia|done|]. apply Z.divide_add_r; [done|by apply Z.divide_sub_r].
  - intros va p Hva. rewrite runs_at_snoc. unfold in_run, run_end, n. cbn. change (perm _) with (perm r). destruct (Z.lt_ge_cases va a).
    + rewrite <-He, runs_at_snoc by done. unfold in_run, run_end. intuition lia.
    + rewrite (top_seg_between a b), Htop by (done || lia). cbn. rewrite <-Hp. split.
      * intros [Hx|[_ <-]]; [apply (runs_at_below a) in Hx; [lia|done]|done].
      * intros [= <-]. right. destruct Hrr. unfold perm. split; [lia|done].
Qed.

Lemma add_run_ok runs a b :
  plan_ok ls runs a → cut a b → 0 ≤ a < b → b < 2 ^ 63 → (4096 | a) → (4096 | b) → zlen runs < 2 * MAX_LOADS →
  plan_ok ls (add_run ls runs a b) b ∧ zlen (add_run ls runs a b) ≤ zlen runs + 1.
Proof.
  intros HP Hcut Hab Hb2 Ha Hb Hn. unfold add_run. destruct (top_seg ls a b) as [top|] eqn:Et.
  - unfold saturating_sub. rewrite Z.max_r, (proj2 (Z.ltb_lt _ _)) by lia. destruct (last runs) as [r|] eqn:El.
    + pose proof El as [pre ->]%last_Some. pose proof (po_runs _ _ _ HP) as [_ [Hr _]%Forall_cons]%Forall_app.
      destruct Hr as (Hr1 & Hr2 & Hr3 & _). unfold run_end in Hr3. unfold saturating_add. rewrite !Z.min_l by lia.
      destruct (Z.eqb_spec (run_start r + run_len r) a) as [Ee|Ee]; cbn [andb].
      * destruct (eqb (run_write r) (write top)) eqn:Ew, (eqb (run_exec r) (exec top)) eqn:Ex; cbn [andb].
        1: { apply eqb_prop in Ew, Ex. rewrite removelast_last. split; [|zlia]. eapply extend_run_ok; try done. unfold perm. congruence. }
        all: split; [|zlia]; apply append_run_ok; try done; intros r' Hr'; rewrite El in Hr'; injection Hr' as <-; intros _;
          unfold perm; intros [= H1 H2]; rewrite ?H1, ?H2, ?eqb_reflx in *; done.
      * split; [|zlia]. apply append_run_ok; try done. intros r' Hr'. rewrite El in Hr'. by injection Hr' as <-.
    + split; [|zlia]. apply append_run_ok; try done. intros r' Hr'. congruence.
  - split; [|zlia]. destruct HP as [Hs Hr He]. constructor; [done| |].
    + eapply Forall_impl; [exact Hr|]. intros. eapply run_ok_mono; [done|lia].
    + intros va p Hva. destruct (Z.lt_ge_cases va a); [by apply He|]. rewrite (top_seg_between a b), Et by (done || lia). cbn.
      split; [|done]. intros Hx%(runs_at_below a); [lia|done].
Qed.
End Step.

(** ** The edges *)
Lemma span_ok flen s : seg_ok flen s →
  span s = (page_down (vaddr s), page_up (vaddr s + memsz s)) ∧ (4096 | fst (span s)) ∧ (4096 | snd (span s)) ∧
  0 ≤ fst (span s) ≤ vaddr s ∧ vaddr s + memsz s ≤ snd (span s) < 2 ^ 63.
Proof.
  intros Hs%seg_small. pose proof (page_bounds (vaddr s)). pose proof (page_bounds (vaddr s + memsz s)).
  assert (Hsp : span s = (page_down (vaddr s), page_up (vaddr s + memsz s))).
  { unfold span, saturating_add. by rewrite Z.min_l by lia. }
  rewrite Hsp. cbn [fst snd]. split_and!; [done| | |lia..].
  - rewrite page_down_eq by (unfold in_width; lia). exists (vaddr s / 4096). pose proof (Z.div_mod (vaddr s) 4096). lia.
  - rewrite page_up_eq by lia. exists ((vaddr s + memsz s + 4095) / 4096). pose proof (Z.div_mod (vaddr s + memsz s + 4095) 4096). lia.
Qed.

Definition is_edge (ls : list LoadSeg) (e : Z) : Prop :=
  ∃ s, s ∈ ls ∧ nonempty s = true ∧ (e = fst (span s) ∨ e = snd (span s)).

Lemma add_edge_ok es e : NoDup es → zlen es < 2 * MAX_LOADS →
  NoDup (add_edge es e) ∧ zlen (add_edge es e) ≤ zlen es + 1 ∧ (∀ x, x ∈ add_edge es e ↔ x ∈ es ∨ x = e).
Proof.
  intros Hnd Hn. unfold add_edge. destruct (existsb (Z.eqb e) es) eqn:E.
  - apply existsb_exists in E as (y & Hy%list_elem_of_In & ->%Z.eqb_eq). split_and!; [done|lia|]. set_solver.
  - rewrite (proj2 (Z.ltb_lt _ _)) by done. assert (e ∉ es).
    { intros Hin. assert (existsb (Z.eqb e) es = true); [|congruence]. apply existsb_exists. exists e.
      split; [by apply list_elem_of_In|apply Z.eqb_refl]. }
    split_and!; [|zlia|set_solver]. apply NoDup_app. split_and!; [done|set_solver|apply NoDup_singleton].
Qed.

Lemma is_edge_snoc ls s e :
  is_edge (ls ++ [s]) e ↔ is_edge ls e ∨ (nonempty s = true ∧ (e = fst (span s) ∨ e = snd (span s))).
Proof.
  unfold is_edge. split.
  - intros (x & [?| ->%list_elem_of_singleton]%elem_of_app & Hx); [left; by exists x|by right].
  - intros [(x & ? & ?)|?]; [exists x|exists s]; (split; [apply elem_of_app|done]); [by left|right; by apply list_elem_of_singleton].
Qed.

Lemma edges_ok ls : zlen ls ≤ MAX_LOADS →
  let es := foldl add_edges [] ls in NoDup es ∧ zlen es ≤ 2 * zlen ls ∧ (∀ e, e ∈ es ↔ is_edge ls e).
Proof.
  cbn zeta. induction ls as [|s ls IH] using rev_ind; intros Hn.
  - split_and!; [constructor|done|]. intros e. split; [set_solver|]. intros (? & ? & _). set_solver.
  - assert (Hl : zlen (ls ++ [s]) = zlen ls + 1) by zlia. rewrite Hl in *. destruct IH as (H1 & H2 & H3); [lia|].
    rewrite foldl_app. cbn [foldl]. set (es := foldl add_edges [] ls) in *. unfold add_edges. destruct (nonempty s) eqn:E.
    + destruct (add_edge_ok es (fst (span s))) as (G1 & G2 & G3); [done|lia|].
      destruct (add_edge_ok (add_edge es (fst (span s))) (snd (span s))) as (K1 & K2 & K3); [done|lia|].
      split_and!; [done|lia|]. intros e. rewrite K3, G3, H3, is_edge_snoc, E. tauto.
    + split_and!; [done|lia|]. intros e. rewrite H3, is_edge_snoc, E. intuition congruence.
Qed.

Lemma sorted_strict es : Sorted Z.le es → NoDup es → StronglySorted Z.lt es.
Proof.
  intros Hs%Sorted_StronglySorted; [|intros ???; lia]. induction Hs as [|e es Hs IH He]; intros Hnd; constructor.
  - apply IH. by apply NoDup_cons in Hnd as [_ ?].
  - apply NoDup_cons in Hnd as [Hni _]. rewrite Forall_forall in *. intros x Hx. specialize (He x Hx).
    assert (x ≠ e) by (by intros ->). lia.
Qed.

(** ** The whole plan *)
Section Plan.
Context (flen : Z) (ls : list LoadSeg).
Context (Hls : Forall (seg_ok flen) ls).

Lemma edge_ok e : is_edge ls e → 0 ≤ e < 2 ^ 63 ∧ (4096 | e).
Proof.
  intros (s & Hs & _ & He). rewrite Forall_forall in Hls. apply Hls in Hs. pose proof (seg_small _ _ Hs).
  destruct (span_ok _ _ Hs) as (_ & ? & ? & ? & ?). destruct He as [-> | ->]; split; (done || lia).
Qed.

(** [es] is the rest of the edges above [a]; every other edge is at or below it. *)
Lemma add_runs_ok es a runs :
  StronglySorted Z.lt (a :: es) → (∀ e, e ∈ a :: es → is_edge ls e) → (∀ e, is_edge ls e → e ≤ a ∨ e ∈ es) →
  plan_ok ls runs a → zlen runs + zlen es ≤ 2 * MAX_LOADS →
  ∃ z, plan_ok ls (add_runs ls runs (a :: es)) z ∧ zlen (add_runs ls runs (a :: es)) ≤ zlen runs + zlen es ∧ (∀ e, is_edge ls e → e ≤ z).
Proof.
  revert a runs. induction es as [|b es IH]; intros a runs Hsort Hed Hall HP Hn.
  - exists a. cbn. split_and!; [done|zlia|]. intros e [?|?]%Hall; [done|set_solver].
  - apply StronglySorted_inv in Hsort as [Hsort Ha]. pose proof Ha as [Hab _]%Forall_cons.
    destruct (edge_ok a) as [Ha1 Ha2]; [set_solver|]. destruct (edge_ok b) as [Hb1 Hb2]; [set_solver|].
    pose proof Hsort as [_ Hb]%StronglySorted_inv. rewrite Forall_forall in Hb.
    assert (Hgap : ∀ e, is_edge ls e → e ≤ a ∨ b ≤ e).
    { intros e He. destruct (Hall e He) as [?|Hin]; [by left|right]. apply elem_of_cons in Hin as [->|Hin]; [lia|]. apply Hb in Hin. lia. }
    assert (Hcut : cut ls a b) by (intros s Hs Hne; split; apply Hgap; exists s; auto).
    destruct (add_run_ok ls runs a b) as [HP' Hn']; [done|done|lia|lia|done|done|zlia|].
    destruct (IH b (add_run ls runs a b)) as (z & H1 & H2 & H3); [done|set_solver| |done|zlia|].
    + intros e He. destruct (Hall e He) as [?|Hin]; [left; lia|]. apply elem_of_cons in Hin as [->|?]; [left; lia|by right].
    + exists z. split_and!; [done| |done]. change (add_runs ls runs (a :: b :: es)) with (add_runs ls (add_run ls runs a b) (b :: es)). zlia.
Qed.

Lemma no_edge_no_perms va : (∀ s, s ∈ ls → nonempty s = true → va < fst (span s) ∨ snd (span s) ≤ va) → perms_at ls va = None.
Proof.
  intros H. unfold perms_at. rewrite find_None_in; [done|]. intros s Hs. rewrite list_elem_of_In, <-in_rev, <-list_elem_of_In in Hs.
  unfold covers. destruct (nonempty s) eqn:E; [|done]. cbn [andb]. destruct (H s Hs E);
    destruct (Z.leb_spec (fst (span s)) va), (Z.ltb_spec va (snd (span s))); try done; lia.
Qed.

Lemma plan_from_edges es :
  zlen es ≤ 2 * MAX_LOADS → StronglySorted Z.lt es → (∀ e, e ∈ es ↔ is_edge ls e) →
  let runs := add_runs ls [] es in
  StronglySorted before runs ∧ (∃ z, Forall (run_ok z) runs) ∧ (∀ va p, runs_at runs va p ↔ perms_at ls va = Some p) ∧
  zlen runs ≤ 2 * MAX_LOADS.
Proof.
  intros Hn Hsort Hes. destruct es as [|a es].
  - cbn. split_and!; [constructor|by exists 0| |done]. intros va p. rewrite no_edge_no_perms.
    + split; [|done]. intros (r & Hr & _). set_solver.
    + intros s Hs Hne. exfalso. assert (fst (span s) ∈ ([] : list Z)); [|set_solver]. apply Hes. exists s. auto.
  - cbn zeta. pose proof Hsort as [_ Hmin]%StronglySorted_inv. rewrite Forall_forall in Hmin.
    assert (Hlow : ∀ e, is_edge ls e → a ≤ e).
    { intros e He%Hes. apply elem_of_cons in He as [->|He]; [lia|]. apply Hmin in He. lia. }
    destruct (add_runs_ok es a []) as (z & HP & Hc & Hz); [done|intros; by apply Hes| | |zlia|].
    + intros e He%Hes. apply elem_of_cons in He as [->|?]; [left; lia|by right].
    + constructor; [constructor|constructor|]. intros va p Hva. rewrite no_edge_no_perms.
      * split; [|done]. intros (r & Hr & _). set_solver.
      * intros s Hs Hne. left. enough (a ≤ fst (span s)) by lia. apply Hlow. exists s. auto.
    + destruct HP as [H1 H2 H3]. split_and!; [done|by exists z| |zlia]. intros va p.
      destruct (Z.lt_ge_cases va z) as [Hva|Hva]; [by apply H3|]. rewrite no_edge_no_perms.
      * split; [|done]. intros Hr. apply (runs_at_below z) in Hr; [lia|done].
      * intros s Hs Hne. right. enough (snd (span s) ≤ z) by lia. apply Hz. exists s. auto.
Qed.
End Plan.

Lemma plan_facts flen img : image_ok flen img →
  let runs := load_plan img in
  StronglySorted before runs ∧ (∃ z, Forall (run_ok z) runs) ∧ (∀ va p, runs_at runs va p ↔ perms_at (loads img) va = Some p) ∧
  zlen runs ≤ 2 * MAX_LOADS.
Proof.
  intros HI. destruct (edges_ok (loads img)) as (H1 & H2 & H3); [apply (io_count _ _ HI)|]. pose proof (io_count _ _ HI).
  unfold load_plan. set (es := foldl add_edges [] (loads img)) in *. pose proof (merge_sort_Permutation Z.le es) as Hp.
  apply (plan_from_edges flen).
  - apply (io_segs _ _ HI).
  - unfold zlen in *. rewrite Hp. lia.
  - apply sorted_strict; [apply Sorted_merge_sort; intros ??; lia|by rewrite Hp].
  - intros e. by rewrite Hp.
Qed.

(** C29: The plan of an accepted image maps exactly the pages its segments touch. The
    runs are in address order, page-aligned, nonempty and disjoint, neighbours that
    touch differ in permissions, there are at most sixteen of them so the array
    drops none, and the page at an address is in a run with given permissions
    exactly when the last segment in header order that covers the page has them. *)
Theorem load_plan_exact flen img : image_ok flen img →
  StronglySorted before (load_plan img) ∧ (∃ z, Forall (run_ok z) (load_plan img)) ∧
  (∀ va p, runs_at (load_plan img) va p ↔ perms_at (loads img) va = Some p) ∧ zlen (load_plan img) ≤ 2 * MAX_LOADS.
Proof. apply plan_facts. Qed.

(** A read-execute segment and a writable one that share the page at 0x401000, which
    takes the permissions of the second. *)
Definition shared_page : Image :=
  mkImage 0x2000 0x400100 [mkLoad 0x400000 0x1800 0 0x1800 false true; mkLoad 0x401800 0x900 0x1800 0x700 true false]
    false None 64 56 2 None.
Lemma shared_page_ok : image_ok 0x2000 shared_page.
Proof.
  constructor; try done.
  - repeat (apply Forall_cons; split; [split_and!; by vm_compute|]). constructor.
  - constructor; [|constructor; constructor]. apply Forall_singleton. left. by vm_compute.
Qed.
Lemma load_plan_exact_witness :
  load_plan shared_page = [mkRun 0x400000 0x1000 false true; mkRun 0x401000 0x2000 true false] ∧
  runs_at (load_plan shared_page) 0x401000 (true, false).
Proof. split; [by vm_compute|]. apply (load_plan_exact 0x2000 shared_page shared_page_ok). by vm_compute. Defined.
