(* ===== verification/ElfLoad.v ===== *)
(** * Loading the segments (src/crates/core/src/proc/elf.rs)

    [load_segments] against its trait [LoadTarget]: what an implementation promises
    about its memory, given the trait's contract that runs never overlap and copies
    go into mapped pages, and the proof that [load_segments] keeps that contract
    and leaves exactly the image. *)

From stdpp Require Import base gmap list numbers sorting.
From S2P Require Import Prelude Bytes Paging AddrSpace Elf ElfProps ElfFile ElfPlan.
Import Paging Elf.

Local Open Scope Z_scope.

Definition in_file (va : Z) (s : LoadSeg) : bool := (vaddr s <=? va) && (va <? vaddr s + filesz s).
Definition file_byte (file : list Z) (s : LoadSeg) (va : Z) : Z := nth (Z.to_nat (offset s + (va - vaddr s))) file 0.
Definition run_holds (va : Z) (r : PageRun) : bool := (run_start r <=? va) && (va <? run_end r).

(** What a target promises: the byte and permissions at each mapped address, and
    what each operation that succeeds within its contract does to them. *)
Class LoadMemory (S E : Type) `{LoadTarget S E} (file : list Z) := {
  view : S → Z → option (Z * (bool * bool));
  map_zeroed_view r t t' :
    (∀ va, run_holds va r = true → view t va = None) → map_zeroed r t = (inl tt, t') →
    ∀ va, view t' va = if run_holds va r then Some (0, perm r) else view t va;
  copy_view s t t' :
    (∀ va, in_file va s = true → is_Some (view t va)) → copy s t = (inl tt, t') →
    ∀ va, view t' va = if in_file va s then (λ x, (file_byte file s va, x.2)) <$> view t va else view t va
}.

(** The memory of a loaded image. *)
Definition image_at (file : list Z) (ls : list LoadSeg) (va : Z) : option (Z * (bool * bool)) :=
  (λ p, (match List.find (in_file va) ls with Some s => file_byte file s va | None => 0 end, p)) <$> perms_at ls va.

Section Loading.
Context {S E : Type} (file : list Z) `{LoadMemory S E file}.

(** The target failed with [e] on a call its contract allows. *)
Definition target_failed (e : E) : Prop :=
  (∃ r t, (∀ va, run_holds va r = true → view t va = None) ∧ (map_zeroed r t).1 = inr e) ∨
  (∃ s t, (∀ va, in_file va s = true → is_Some (view t va)) ∧ (copy s t).1 = inr e).

Lemma run_holds_in va r : run_holds va r = true ↔ in_run va r.
Proof. unfold run_holds, in_run. rewrite andb_true_iff, Z.leb_le, Z.ltb_lt. done. Qed.

Lemma map_runs runs t z :
  StronglySorted before runs → Forall (run_ok z) runs → (∀ r va, r ∈ runs → in_run va r → view t va = None) →
  match each map_zeroed runs t with
  | (inl _, t') => ∀ va, view t' va = match List.find (run_holds va) runs with Some r => Some (0, perm r) | None => view t va end
  | (inr e, _) => target_failed e
  end.
Proof.
  intros Hs. revert t. induction Hs as [|r runs Hs IH Hr]; intros t Hok Hfree; [done|]. cbn [each List.find].
  apply Forall_cons in Hok as [_ Hok].
  assert (Hc : ∀ va, run_holds va r = true → view t va = None) by (intros va Hva%run_holds_in; apply (Hfree r); set_solver).
  destruct (map_zeroed r t) as [[[]|e] t1] eqn:Em; [|left; exists r, t; by rewrite Em].
  pose proof (map_zeroed_view r t t1 Hc Em) as Hv. rewrite Forall_forall in Hr. specialize (IH t1 Hok).
  destruct (each map_zeroed runs t1) as [[[]|e] t2].
  - intros va. rewrite IH.
    + rewrite Hv. destruct (run_holds va r) eqn:Eh; [|done]. rewrite find_None_in; [done|]. intros r' Hr'.
      destruct (run_holds va r') eqn:E'; [|done]. apply run_holds_in in Eh, E'. destruct (Hr r' Hr'). unfold in_run in *. lia.
    + intros r' va' Hr' Hin. rewrite Hv. destruct (run_holds va' r) eqn:Eh; [|by apply (Hfree r'); set_solver].
      apply run_holds_in in Eh. destruct (Hr r' Hr'). unfold in_run in *. lia.
  - apply IH. intros r' va' Hr' Hin. rewrite Hv. destruct (run_holds va' r) eqn:Eh; [|by apply (Hfree r'); set_solver].
    apply run_holds_in in Eh. destruct (Hr r' Hr'). unfold in_run in *. lia.
Qed.

Lemma in_file_spec va s : in_file va s = true ↔ vaddr s ≤ va < vaddr s + filesz s.
Proof. unfold in_file. rewrite andb_true_iff, Z.leb_le, Z.ltb_lt. done. Qed.

(** [copy_file] skips a segment without file bytes, whose copy would change nothing. *)
Lemma copy_file_view flen s t t' :
  seg_ok flen s → (∀ va, in_file va s = true → is_Some (view t va)) → copy_file s t = (inl tt, t') →
  ∀ va, view t' va = if in_file va s then (λ x, (file_byte file s va, x.2)) <$> view t va else view t va.
Proof.
  intros Hs Hm Hc va. unfold copy_file in Hc. destruct (Z.eqb_spec (filesz s) 0) as [E0|E0]; cbn in Hc; [|by eapply copy_view].
  injection Hc as <-. destruct (in_file va s) eqn:Ei; [|done]. apply in_file_spec in Ei. lia.
Qed.

Lemma copy_segs flen ls t :
  Forall (seg_ok flen) ls → ForallOrdPairs apart ls → (∀ s va, s ∈ ls → in_file va s = true → is_Some (view t va)) →
  match each copy_file ls t with
  | (inl _, t') => ∀ va, view t' va =
      match List.find (in_file va) ls with Some s => (λ x, (file_byte file s va, x.2)) <$> view t va | None => view t va end
  | (inr e, _) => target_failed e
  end.
Proof.
  intros Hok Hap. revert t. induction Hap as [|s ls Hs Hap IH]; intros t Hm; [done|]. cbn [each List.find].
  apply Forall_cons in Hok as [Hoks Hok].
  assert (Hc : ∀ va, in_file va s = true → is_Some (view t va)) by (intros va; apply Hm; set_solver).
  destruct (copy_file s t) as [[[]|e] t1] eqn:Em.
  2: { unfold copy_file in Em. destruct (negb _); [|done]. right. exists s, t. by rewrite Em. }
  pose proof (copy_file_view flen s t t1 Hoks Hc Em) as Hv.
  assert (Hm1 : ∀ s' va, s' ∈ ls → in_file va s' = true → is_Some (view t1 va)).
  { intros s' va Hs' Hin. rewrite Hv. destruct (Hm s' va) as [x Hx]; [set_solver|done|]. rewrite Hx. by destruct (in_file va s). }
  specialize (IH Hok t1 Hm1). destruct (each copy_file ls t1) as [[[]|e] t2]; [|done]. intros va. rewrite IH, Hv.
  destruct (in_file va s) eqn:Ei; [|done]. rewrite find_None_in; [done|]. intros s' Hs'. destruct (in_file va s') eqn:E'; [|done].
  rewrite Forall_forall in Hs, Hok. specialize (Hs s' Hs'). destruct Hoks as (_ & ? & _). destruct (Hok s' Hs') as (_ & ? & _).
  apply in_file_spec in Ei, E'. unfold apart in Hs. lia.
Qed.

Lemma find_run runs ls va :
  (∀ p, runs_at runs va p ↔ perms_at ls va = Some p) → perm <$> List.find (run_holds va) runs = perms_at ls va.
Proof.
  intros Hx. destruct (List.find (run_holds va) runs) as [r|] eqn:Ef; cbn.
  - symmetry. apply Hx. apply find_some in Ef as [Hr Hh]. exists r. split_and!; [by apply list_elem_of_In|by apply run_holds_in|done].
  - destruct (perms_at ls va) as [p|] eqn:Ep; [|done]. destruct (proj2 (Hx p) eq_refl) as (r & Hr & Hin & _).
    apply list_elem_of_In in Hr. eapply find_none in Ef; [|done]. apply run_holds_in in Hin. congruence.
Qed.

(** The pages of a segment's file bytes are in the plan. *)
Lemma file_bytes_mapped flen ls s va : Forall (seg_ok flen) ls → s ∈ ls → in_file va s = true → is_Some (perms_at ls va).
Proof.
  intros Hls Hs Hin%in_file_spec. unfold perms_at. apply fmap_is_Some. rewrite Forall_forall in Hls. pose proof (Hls s Hs) as Hok.
  destruct (List.find (covers va) (rev ls)) as [x|] eqn:Ef; [by exists x|].
  eapply find_none in Ef; [|by rewrite <-in_rev; apply list_elem_of_In]. destruct (span_ok _ _ Hok) as (_ & _ & _ & Hlo & Hhi).
  destruct Hok as (_ & Hfs & _). unfold covers, nonempty in Ef. rewrite (proj2 (Z.eqb_neq (memsz s) 0)) in Ef by lia.
  rewrite (proj2 (Z.leb_le (fst (span s)) va)), (proj2 (Z.ltb_lt va (snd (span s)))) in Ef by lia. done.
Qed.

(** C30: Loading an accepted image keeps the target's contract and leaves the image.
    From a target with nothing mapped where the image goes, [load_segments] only
    maps runs over free pages and only copies into mapped ones. Either it returns
    an error the target gave to such a call, or it succeeds and every address of the
    image's pages holds the byte of the file the covering segment has there, or
    zero, with the permissions of the plan, and every other address is unchanged. *)
Theorem load_segments_exact flen img t :
  image_ok flen img → (∀ va, is_Some (perms_at (loads img) va) → view t va = None) →
  match load_segments img t with
  | (inl _, t') => ∀ va, view t' va = if perms_at (loads img) va then image_at file (loads img) va else view t va
  | (inr e, _) => target_failed e
  end.
Proof.
  intros HI Hfree. destruct (plan_facts _ _ HI) as (Hs & [z Hz] & Hx & _). unfold load_segments.
  pose proof (map_runs (load_plan img) t z Hs Hz) as Hm. destruct (each map_zeroed (load_plan img) t) as [[[]|e] t1].
  2: { apply Hm. intros r va Hr Hin. apply Hfree. exists (perm r). apply Hx. by exists r. }
  assert (Hv : ∀ va, view t1 va = match perms_at (loads img) va with Some p => Some (0, p) | None => view t va end).
  { intros va. rewrite Hm by (intros r va' Hr Hin; apply Hfree; exists (perm r); apply Hx; by exists r).
    rewrite <-(find_run (load_plan img)) by (intros; apply Hx). by destruct (List.find _ _). }
  pose proof (copy_segs flen (loads img) t1 (io_segs _ _ HI) (io_apart _ _ HI)) as Hc.
  assert (Hmapped : ∀ s va, s ∈ loads img → in_file va s = true → is_Some (perms_at (loads img) va))
    by (intros s va; eapply file_bytes_mapped, io_segs, HI).
  assert (Hpre : ∀ s va, s ∈ loads img → in_file va s = true → is_Some (view t1 va)).
  { intros s va H1 H2. rewrite Hv. by destruct (Hmapped s va H1 H2) as [p ->]. }
  specialize (Hc Hpre). destruct (each copy_file (loads img) t1) as [[[]|e] t2]; [|done]. intros va. rewrite Hc, Hv. unfold image_at.
  destruct (List.find (in_file va) (loads img)) as [s|] eqn:Ef; [|by destruct (perms_at (loads img) va)].
  apply find_some in Ef as [Hin Hf]. by destruct (Hmapped s va) as [p ->]; [apply list_elem_of_In| |].
Qed.
End Loading.

(** ** A target that is a byte memory *)
Abbreviation bytemap := (gmap Z (Z * (bool * bool))).
Definition range (a n : Z) : list Z := (λ i, a + Z.of_nat i) <$> seq 0 (Z.to_nat n).
Definition fill_run (r : PageRun) (m : bytemap) : bytemap :=
  list_to_map ((λ va, (va, (0, perm r))) <$> range (run_start r) (run_len r)) ∪ m.
Definition copy_in (file : list Z) (s : LoadSeg) (m : bytemap) : bytemap :=
  map_imap (λ va x, Some (if in_file va s then (file_byte file s va, x.2) else x)) m.

Lemma elem_of_addresses a n va : va ∈ range a n ↔ a ≤ va < a + n.
Proof.
  unfold range. rewrite list_elem_of_fmap. split.
  - intros (i & -> & Hi%elem_of_seq). lia.
  - intros Hva. exists (Z.to_nat (va - a)). split; [lia|]. apply elem_of_seq. lia.
Qed.
Lemma lookup_fill r m va : fill_run r m !! va = if run_holds va r then Some (0, perm r) else m !! va.
Proof.
  unfold fill_run. rewrite lookup_union.
  assert (Hl : (list_to_map ((λ va, (va, (0, perm r))) <$> range (run_start r) (run_len r)) : bytemap) !! va =
               if run_holds va r then Some (0, perm r) else None).
  { destruct (run_holds va r) eqn:E.
    - apply run_holds_in in E. apply elem_of_list_to_map_1'; [|apply list_elem_of_fmap; exists va; split; [done|by apply elem_of_addresses]].
      intros y (va' & [= -> ->] & _)%list_elem_of_fmap. done.
    - apply not_elem_of_list_to_map_1. rewrite <-list_fmap_compose. intros (va' & Heq & Hin%elem_of_addresses)%list_elem_of_fmap. cbn in Heq.
      subst va'. assert (run_holds va r = true); [|congruence]. by apply run_holds_in. }
  rewrite Hl. destruct (run_holds va r); [by rewrite union_Some_l|by rewrite (left_id_L None _)].
Qed.

Definition byte_target (file : list Z) : LoadTarget bytemap Empty_set := {|
  map_zeroed r m := (inl tt, fill_run r m);
  copy s m := (inl tt, copy_in file s m)
|}.
#[local] Existing Instance byte_target.
Lemma copy_in_view file s (m : bytemap) va :
  copy_in file s m !! va = if in_file va s then (λ x, (file_byte file s va, x.2)) <$> m !! va else m !! va.
Proof. unfold copy_in. rewrite map_lookup_imap. by destruct (m !! va), (in_file va s). Qed.
Definition byte_memory (file : list Z) : @LoadMemory bytemap Empty_set (byte_target file) file.
Proof.
  refine (@Build_LoadMemory bytemap Empty_set (byte_target file) file (λ m va, m !! va) _ _).
  - intros r t t' _ [= <-] va. apply lookup_fill.
  - intros s t t' _ [= <-] va. apply copy_in_view.
Defined.

(** Three of a file's last four bytes at 4 MiB; the target never fails, so the byte
    at 0x400001 is the second of them. *)
Definition small_file : list Z := replicate 60 0 ++ [10; 20; 30; 40].
Definition small_image : Image := mkImage 64 0x400000 [mkLoad 0x400000 16 60 3 false true] false None 0 56 1 None.
Lemma small_image_ok : image_ok 64 small_image.
Proof.
  constructor; try done.
  - apply Forall_singleton. split_and!; by vm_compute.
  - constructor; constructor.
Qed.
Lemma load_segments_exact_witness :
  match @load_segments _ _ (byte_target small_file) small_image ∅ with
  | (inl _, m) => m !! 0x400001 = Some (20, (false, true))
  | (inr e, _) => False
  end.
Proof.
  pose proof (@load_segments_exact _ _ small_file (byte_target small_file) (byte_memory small_file) 64 small_image ∅
    small_image_ok (λ va _, lookup_empty va)) as Hl.
  destruct (@load_segments _ _ (byte_target small_file) small_image ∅) as [[[]|[]] m].
  etransitivity; [apply (Hl 0x400001)|]. by vm_compute.
Defined.
