(* ===== verification/ElfTls.v ===== *)
(** * Thread-local storage of an image (src/crates/core/src/proc/elf.rs)

    The size of the thread-local block's mapping and the thread pointer in it. *)

From stdpp Require Import base list numbers.
From S2P Require Import Prelude Bytes Paging AddrSpace Elf ElfProps.
Import Paging Elf.

Local Open Scope Z_scope.

(** [x & !(2^k - 1)], written with the alignment [a = 2^k]. *)
Lemma land_align x a k : u64 x → 0 ≤ k ≤ 64 → a = 2 ^ k → Z.land x (notw 64 (a - 1)) = x - x mod a.
Proof. intros Hx Hk ->. by apply land_notw. Qed.

Lemma power_of_two_inv a : is_power_of_two a = true → a < 2 ^ 64 → ∃ k, 0 ≤ k < 64 ∧ a = 2 ^ k.
Proof.
  unfold is_power_of_two. intros [Ha%Z.ltb_lt He%Z.eqb_eq]%andb_true_iff Hlt. exists (Z.log2 a). split; [|done].
  split; [apply Z.log2_nonneg|]. apply Z.log2_lt_pow2; lia.
Qed.

Lemma block_len_ok t n : 0 ≤ t_memsz t → is_power_of_two (t_align t) = true → t_align t < 2 ^ 64 → block_len t = Some n →
  t_memsz t ≤ n ∧ (t_align t | n).
Proof.
  intros Hm Hp Hlt. destruct (power_of_two_inv _ Hp Hlt) as (k & Hk & Ha). pose proof (pow2_pos k ltac:(lia)).
  unfold block_len. destruct (Z.leb_spec (t_align t) 1).
  - intros [= <-]. split; [lia|]. replace (t_align t) with 1 by lia. apply Z.divide_1_l.
  - intros Hb. apply bind_Some in Hb as (m & [-> _]%checked_sub_Some & Hb).
    apply bind_Some in Hb as (x & [-> Hx]%checked_add_Some & [= <-]).
    rewrite (land_align _ _ k) by (done || unfold in_width; lia). set (y := t_memsz t + (t_align t - 1)) in *.
    pose proof (Z.mod_pos_bound y (t_align t)). split; [lia|]. exists (y / t_align t). pose proof (Z.div_mod y (t_align t)). lia.
Qed.

Lemma map_len_ok t bl n : 0 ≤ bl → block_len t = Some bl → map_len t = Some n → bl + 8 ≤ n ∧ 4096 ≤ n ∧ (4096 | n) ∧ n < 2 ^ 64.
Proof.
  intros Hbl Hb Hm. unfold map_len in Hm. rewrite Hb in Hm. cbn [mbind option_bind] in Hm.
  apply bind_Some in Hm as (y & [-> _]%checked_add_Some & Hm). apply bind_Some in Hm as (x & [-> Hx]%checked_add_Some & [= <-]).
  unfold page_mask. numerals. rewrite (land_align _ _ 12) by (done || unfold in_width; lia).
  set (y := Z.max (bl + 8) 4096 + (4096 - 1)) in *. pose proof (Z.mod_pos_bound y 4096). split_and!; [lia|lia| |lia].
  exists (y / 4096). pose proof (Z.div_mod y 4096). lia.
Qed.

(** Rounding a multiple of [a] plus slack down to [a] stays at or above it. *)
Lemma round_down_ge a x m : 0 < a → (a | m) → m ≤ x → m ≤ x - x mod a.
Proof. intros Ha [q ->] Hx. pose proof (Z.div_mod x a). pose proof (Z.div_le_lower_bound x a q). nia. Qed.

Lemma align_divide a b i j : 0 ≤ i ≤ j → a = 2 ^ i → b = 2 ^ j → (a | b).
Proof. intros Hij -> ->. by apply pow2_divide. Qed.

Lemma align_max a b i j : a = 2 ^ i → b = 2 ^ j → 0 ≤ i → 0 ≤ j → ∃ k, Z.max i j = k ∧ Z.max a b = 2 ^ k.
Proof.
  intros -> -> Hi Hj. exists (Z.max i j). split; [done|].
  destruct (Z.le_ge_cases i j); [rewrite !Z.max_r|rewrite !Z.max_l]; try lia; apply Z.pow_le_mono_r; lia.
Qed.

(** C31: The thread pointer exists and is where the psABI wants it. For a thread-local
    segment of an accepted image, mapped at a base aligned as asked and inside the
    address space, the pointer is aligned to the segment's alignment and to eight,
    its eight-byte slot and the whole block lie inside the mapping, and the block,
    which holds the segment's memory, ends exactly at the pointer. *)
Theorem thread_pointer_placed flen t map len :
  tls_ok flen t → map_len t = Some len → 0 ≤ map → map + len < 2 ^ 64 → (map_align t | map) →
  ∃ tp start blen, thread_pointer t map = Some (tp, start) ∧ (t_align t | tp) ∧ (8 | tp) ∧ map ≤ start ∧
    start + blen = tp ∧ tp + 8 ≤ map + len ∧ t_memsz t ≤ blen ∧ (t_align t | start).
Proof.
  intros (Hf & _ & _ & Hp & Hlt & Hm) Hlen Hmap Hend Hal. destruct (power_of_two_inv _ Hp Hlt) as (k & Hk & Ha).
  pose proof (pow2_pos k ltac:(lia)) as Hpos. destruct (block_len t) as [bl|] eqn:Hb; [|by unfold map_len in Hlen; rewrite Hb in Hlen].
  destruct (block_len_ok t bl) as [Hb1 Hb2]; [lia|done|done|done|]. destruct (map_len_ok t bl len) as (Hl1 & Hl2 & Hl3 & Hl4); [lia|done|done|].
  destruct (align_max (t_align t) 8 k 3) as (j & Hj & Hmx); [done|done|lia|lia|].
  destruct (align_max (t_align t) 4096 k 12) as (i & Hi & Hmy); [done|done|lia|lia|].
  set (x := map + len - 8). set (tp := x - x mod 2 ^ j).
  assert (H8 : (8 | 2 ^ j)) by (apply (align_divide _ _ 3 j); [lia|done|done]).
  assert (Ha2 : (t_align t | 2 ^ j)) by (apply (align_divide _ _ k j); [lia|done|done]).
  assert (Htp : (2 ^ j | tp)) by (exists (x / 2 ^ j); unfold tp; pose proof (Z.div_mod x (2 ^ j)); pose proof (pow2_pos j); lia).
  assert (Hge : map + bl ≤ tp).
  { unfold map_align in Hal. numerals. rewrite Hmy in Hal. destruct (Z.le_ge_cases 3 k) as [Hk3|Hk3].
    - apply round_down_ge; [apply pow2_pos; lia| |unfold x; lia]. replace (2 ^ j) with (t_align t) by (rewrite Ha; f_equal; lia).
      apply Z.divide_add_r; [|done]. etransitivity; [|exact Hal]. apply (align_divide _ _ k i); [lia|done|done].
    - assert (x mod 2 ^ j = 0); [|unfold tp, x in *; lia]. replace j with 3 by lia. apply Z.mod_divide; [lia|].
      apply Z.divide_sub_r; [|by exists 1]. apply Z.divide_add_r; (etransitivity; [|eassumption]); [|by exists 512].
      apply (align_divide _ _ 3 i); [lia|done|done]. }
  exists tp, (tp - bl), bl. assert (Htx : tp ≤ x) by (unfold tp; pose proof (Z.mod_pos_bound x (2 ^ j)); pose proof (pow2_pos j); lia).
  split_and!; [|by etransitivity|by etransitivity|lia|lia|unfold x in Htx; lia|lia|apply Z.divide_sub_r; [by etransitivity|done]].
  unfold thread_pointer, AddrSpace.checked_sub. unfold map_align in *. numerals. rewrite Hmy in *.
  pose proof (pow2_pos i ltac:(lia)). rewrite (proj2 (Z.leb_le 1 (2 ^ i))) by lia. cbn [mbind option_bind].
  rewrite land_mask by lia. rewrite (proj2 (Z.mod_divide map (2 ^ i) ltac:(lia)) Hal). cbn [Z.eqb negb].
  rewrite Hlen. cbn [mbind option_bind]. unfold checked_add. rewrite (proj2 (Z.ltb_lt (map + len) _)) by lia. cbn [mbind option_bind].
  rewrite (proj2 (Z.leb_le 8 (map + len))) by lia. cbn [mbind option_bind]. pose proof (pow2_pos j ltac:(lia)).
  rewrite Hmx, (proj2 (Z.leb_le 1 (2 ^ j))) by lia. cbn [mbind option_bind].
  rewrite (land_align _ _ j) by (done || unfold in_width; lia). fold x tp. rewrite Hb. cbn [mbind option_bind].
  rewrite (proj2 (Z.leb_le bl tp)) by lia. cbn [mbind option_bind]. by rewrite (proj2 (Z.leb_le map (tp - bl))) by lia.
Qed.

Lemma thread_pointer_placed_witness :
  thread_pointer (mkTls 0x500000 0 16 40 64) 0x700000 = Some (0x700FC0, 0x700F80) ∧
  ∃ tp start blen, thread_pointer (mkTls 0x500000 0 16 40 64) 0x700000 = Some (tp, start) ∧ (64 | tp) ∧ (8 | tp) ∧ 0x700000 ≤ start ∧
    start + blen = tp ∧ tp + 8 ≤ 0x700000 + 4096 ∧ 40 ≤ blen ∧ (64 | start).
Proof.
  split; [by vm_compute|]. apply (thread_pointer_placed 64 (mkTls 0x500000 0 16 40 64) 0x700000 4096); [|by vm_compute|done|done|by exists 0x700].
  split_and!; by vm_compute.
Defined.
