(* ===== verification/ElfStack.v ===== *)
(** * The arguments of [execve] and the initial stack (src/crates/core/src/proc/elf/stack.rs)

    The definitions of this file are the code of [proc/elf/stack.rs]: the argument
    block with its limits, and the table of the initial stack.  The allocator behind
    the block's buffer is outside the sources; an operation that may allocate takes
    its answer as the argument [mem].  Debug assertions are panics.  A failed
    [build] returns no table: its caller drops the buffer. *)

From stdpp Require Import base list numbers strings.
From S2P Require Import Prelude Bytes Kerror Paging AddrSpace Elf.

Local Open Scope Z_scope.

Module ElfStack.

Definition AT_NULL : Z := 0.
Definition AT_PHDR : Z := 3.
Definition AT_PHENT : Z := 4.
Definition AT_PHNUM : Z := 5.
Definition AT_PAGESZ : Z := 6.
Definition AT_BASE : Z := 7.
Definition AT_FLAGS : Z := 8.
Definition AT_ENTRY : Z := 9.
Definition AT_UID : Z := 11.
Definition AT_EUID : Z := 12.
Definition AT_GID : Z := 13.
Definition AT_EGID : Z := 14.
Definition AT_CLKTCK : Z := 17.
Definition AT_SECURE : Z := 23.
Definition AT_RANDOM : Z := 25.
Definition AT_EXECFN : Z := 31.

Definition MAX_ARG_STRLEN : Z := 131072.
Definition ARG_SPACE_MIN : Z := Z.shiftl 128 10.
Definition ARG_SPACE_MAX : Z := Z.shiftl 6 20.

Record Auxv := mkAux { tag : Z; val : Z }.
Inductive ArgError := TooBig | NoMem.
Definition kerror_of_arg (e : ArgError) : Kerror.KError := match e with TooBig => Kerror.TooBig | NoMem => Kerror.NoMem end.

Definition arg_space_limit (rlimit_stack : Z) : Z := Z.min (Z.max (rlimit_stack / 4) ARG_SPACE_MIN) ARG_SPACE_MAX.

Record ExecArgs := mkArgs {
  strings : list Z;
  argc : Z;
  envc : Z;
  used : Z;
  limit : Z;
  cur : option Z;
  cur_env : bool;
  argv_done : bool
}.

Definition new (limit : Z) : ExecArgs := mkArgs [] 0 0 0 limit None false false.

Definition charge (n : Z) (a : ExecArgs) : Z + ArgError :=
  match checked_add 64 (used a) n with
  | Some u => if u <=? limit a then inl u else inr TooBig
  | None => inr TooBig
  end.

Definition is_none {A} (o : option A) : bool := match o with None => true | Some _ => false end.

Definition begin_ (env : bool) : M ExecArgs (unit + ArgError) :=
  a <- get;;
  assert (is_none (cur a)) "ExecArgs::begin inside a string";;
  assert (env || negb (argv_done a)) "an argv string after finish_argv";;
  match charge 8 a with
  | inr e => ret (inr e)
  | inl u => put (mkArgs (strings a) (argc a) (envc a) u (limit a) (Some 0) env (argv_done a));; ret (inl tt)
  end.

Definition extend (mem : bool) (part : list Z) : M ExecArgs (unit + ArgError) :=
  a <- get;;
  assert (negb (is_none (cur a))) "ExecArgs::extend outside a string";;
  match checked_add 64 (default 0 (cur a)) (zlen part) with
  | None => ret (inr TooBig)
  | Some len =>
      if negb (len <? MAX_ARG_STRLEN) then ret (inr TooBig)
      else
        match charge (zlen part) a with
        | inr e => ret (inr e)
        | inl u =>
            if mem then
              put (mkArgs (strings a ++ part) (argc a) (envc a) u (limit a) (Some len) (cur_env a) (argv_done a));; ret (inl tt)
            else ret (inr NoMem)
        end
  end.

Definition end_ (mem : bool) : M ExecArgs (unit + ArgError) :=
  a <- get;;
  match charge 1 a with
  | inr e => ret (inr e)
  | inl u =>
      if mem then
        put (mkArgs (strings a ++ [0])
               (if cur_env a then argc a else saturating_add 64 (argc a) 1)
               (if cur_env a then saturating_add 64 (envc a) 1 else envc a)
               u (limit a) None (cur_env a) (argv_done a));;
        ret (inl tt)
      else ret (inr NoMem)
  end.

(** [r?] in the middle of a handler. *)
Definition try_ {S} (m : M S (unit + ArgError)) (k : M S (unit + ArgError)) : M S (unit + ArgError) :=
  r <- m;; match r with inl _ => k | inr e => ret (inr e) end.

(** [push_arg] is [push false], [push_env] is [push true]. *)
Definition push (mem : bool * bool) (env : bool) (s : list Z) : M ExecArgs (unit + ArgError) :=
  try_ (begin_ env) (try_ (extend (fst mem) s) (end_ (snd mem))).
Definition push_arg (mem : bool * bool) (s : list Z) : M ExecArgs (unit + ArgError) := push mem false s.
Definition push_env (mem : bool * bool) (s : list Z) : M ExecArgs (unit + ArgError) := push mem true s.

Definition finish_argv (mem : bool * bool) : M ExecArgs (unit + ArgError) :=
  n <- gets argc;;
  try_ (if n =? 0 then push_arg mem [] else ret (inl tt))
    (modify (λ a, mkArgs (strings a) (argc a) (envc a) (used a) (limit a) (cur a) (cur_env a) true);; ret (inl tt)).

(** [exec_args] of src/src/proc/user_init.rs; [mem] is the allocator's answers to the
    block's calls, by number. *)
Definition RLIMIT_STACK_DEFAULT : Z := Z.shiftl 8 20.
Fixpoint push_all (mem : nat → bool * bool) (i : nat) (env : bool) (ss : list (list Z)) : M ExecArgs (unit + ArgError) :=
  match ss with
  | [] => ret (inl tt)
  | s :: ss => try_ (push (mem i) env s) (push_all mem (S i) env ss)
  end.
Definition exec_args (mem : nat → bool * bool) (argv envp : list (list Z)) : outcome (ExecArgs + ArgError) :=
  x <~ try_ (push_all mem 0 false argv)
         (try_ (finish_argv (mem (length argv))) (push_all mem (S (length argv)) true envp))
         (new (arg_space_limit RLIMIT_STACK_DEFAULT));;
  Ret (match fst x with inl _ => inl (snd x) | inr e => inr e end).

(** ** The stack *)
Record StackImage := mkStack { rsp : Z; strings_va : Z }.

Definition table_words (a : ExecArgs) (naux : Z) : option Z :=
  x ← checked_add 64 (argc a) (envc a);
  ptrs ← checked_add 64 x 3;
  y ← checked_add 64 naux 2;
  z ← Elf.checked_mul 64 y 2;
  checked_add 64 z ptrs.

Definition align16 (x : Z) : option Z := y ← checked_add 64 x 15; Some (Z.land y (notw 64 15)).

Definition stack_offsets (a : ExecArgs) (naux : Z) : option (Z * Z * Z) :=
  strs ← checked_add 64 (zlen (strings a)) 8;
  x ← checked_add 64 strs 16;
  random ← align16 x;
  w ← table_words a naux;
  table ← Elf.checked_mul 64 w 8;
  y ← checked_add 64 random table;
  rsp ← align16 y;
  Some (strs, random, rsp).

Definition initial_stack_len (a : ExecArgs) (naux : Z) : option Z := (λ o, snd o) <$> stack_offsets a naux.

(** [mem.get_mut(off..off + n)?.copy_from_slice(bs)] *)
Definition write_at (t : list Z) (off : Z) (bs : list Z) : option (list Z) :=
  if (0 <=? off) && (off + zlen bs <=? zlen t)
  then Some (take (Z.to_nat off) t ++ bs ++ drop (Z.to_nat off + length bs) t) else None.

(** The table and the offset of the next word. *)
Definition cursor : Type := list Z * Z.
Definition poke_u64 (v : Z) (c : cursor) : option cursor :=
  e ← checked_add 64 (snd c) 8;
  t ← write_at (fst c) (snd c) (le_bytes 8 v);
  Some (t, e).

(** The string pointers, byte by byte. *)
Fixpoint string_ptrs (va argc : Z) (bs : list Z) (i start n : Z) (c : cursor) : option (cursor * Z) :=
  match bs with
  | [] => Some (c, n)
  | b :: bs =>
      if negb (b =? 0) then string_ptrs va argc bs (i + 1) start n c
      else
        p ← checked_add 64 va start;
        c ← poke_u64 p c;
        n ← checked_add 64 n 1;
        c ← (if n =? argc then poke_u64 0 c else Some c);
        start ← checked_add 64 i 1;
        string_ptrs va argc bs (i + 1) start n c
  end.

Fixpoint poke_aux (aux : list Auxv) (c : cursor) : option cursor :=
  match aux with
  | [] => Some c
  | a :: aux => c ← poke_u64 (tag a) c; c ← poke_u64 (val a) c; poke_aux aux c
  end.

Definition build_table (stack_top : Z) (a : ExecArgs) (aux : list Auxv) (random table : list Z) : option (StackImage * list Z) :=
  if negb (Z.land stack_top 15 =? 0) then None
  else
    offs ← stack_offsets a (zlen aux);
    let '(strings_off, random_off, rsp_off) := offs in
    strings_va ← AddrSpace.checked_sub stack_top strings_off;
    random_va ← AddrSpace.checked_sub stack_top random_off;
    rsp ← AddrSpace.checked_sub stack_top rsp_off;
    table_len ← AddrSpace.checked_sub rsp_off strings_off;
    if negb (zlen table =? table_len) then None
    else
      let t := replicate (length table) 0 in
      r ← AddrSpace.checked_sub rsp_off random_off;
      r_end ← checked_add 64 r (zlen random);
      t ← write_at t r random;
      c ← poke_u64 (argc a) (t, 0);
      c ← (if argc a =? 0 then poke_u64 0 c else Some c);
      cn ← string_ptrs strings_va (argc a) (strings a) 0 0 0 c;
      let '(c, n) := cn in
      total ← checked_add 64 (argc a) (envc a);
      if negb (n =? total) then None
      else
        c ← poke_u64 0 c;
        c ← poke_aux aux c;
        c ← poke_u64 AT_RANDOM c;
        c ← poke_u64 random_va c;
        c ← poke_u64 AT_NULL c;
        c ← poke_u64 0 c;
        Some (mkStack rsp strings_va, fst c).

Definition build (stack_top : Z) (a : ExecArgs) (aux : list Auxv) (random table : list Z) : outcome (option (StackImage * list Z)) :=
  _ <~ oassert (is_none (cur a)) "an unfinished ExecArgs string";;
  Ret (build_table stack_top a aux random table).

(** [elf::build_initial_stack] *)
Definition build_initial_stack (stack_top : Z) (a : ExecArgs) (aux : list Auxv) (random table : list Z) :
    outcome ((StackImage * list Z) + Elf.ElfError) :=
  r <~ build stack_top a aux random table;;
  Ret (ok_or r Elf.Stack).
End ElfStack.
