(* ===== verification/ElfArgs.v ===== *)
(** * The argument block's limits (src/crates/core/src/proc/elf/stack.rs)

    The block [exec_args] builds: what it holds, when it is refused and why. *)

From stdpp Require Import base list numbers strings.
From S2P Require Import Prelude Bytes ElfProps ElfStack.
Import ElfStack.

Local Open Scope Z_scope.

(** ** The block of given strings *)
Definition cat (ss : list (list Z)) : list Z := concat (map (λ s, s ++ [0]) ss).
(** A string's bytes, its NUL and its pointer. *)
Definition cost (s : list Z) : Z := zlen s + 9.
Definition costs (ss : list (list Z)) : Z := foldr (λ s n, cost s + n) 0 ss.
Definition short (s : list Z) : Prop := zlen s < MAX_ARG_STRLEN.
Definition fits (lim : Z) (ss : list (list Z)) : Prop := Forall short ss ∧ costs ss ≤ lim.

Definition block (lim : Z) (argv envp : list (list Z)) (ce dn : bool) : ExecArgs :=
  mkArgs (cat (argv ++ envp)) (zlen argv) (zlen envp) (costs (argv ++ envp)) lim None ce dn.

Lemma cat_app a b : cat (a ++ b) = cat a ++ cat b.
Proof. unfold cat. by rewrite map_app, concat_app. Qed.
Lemma cat_snoc ss s : cat (ss ++ [s]) = cat ss ++ s ++ [0].
Proof. rewrite cat_app. unfold cat at 2. cbn. by rewrite app_nil_r. Qed.
Lemma costs_cons s ss : costs (s :: ss) = cost s + costs ss.
Proof. done. Qed.
Lemma costs_app a b : costs (a ++ b) = costs a + costs b.
Proof. induction a as [|s a IH]; [done|]. cbn [app]. rewrite !costs_cons, IH. lia. Qed.
Lemma costs_bound ss : 9 * zlen ss ≤ costs ss.
Proof. induction ss as [|s ss IH]; [done|]. rewrite costs_cons. unfold cost, zlen in *. cbn [length]. lia. Qed.
Lemma fits_app lim a b : fits lim (a ++ b) → fits lim a.
Proof.
  intros [[H1 _]%Forall_app H2]. split; [done|]. rewrite costs_app in H2. pose proof (costs_bound b). unfold zlen in *. lia.
Qed.
#[export] Hint Resolve fits_app : core.

(** ** One string *)
Section Push.
Context (lim : Z) (Hlim : lim < 2 ^ 64 - 1).

(** What a call that may be refused establishes. *)
Definition answers (m : bool * bool) (after : list (list Z)) (next : ExecArgs) (o : outcome ((unit + ArgError) * ExecArgs)) : Prop :=
  match o with
  | Ret (inl _, a) => fits lim after ∧ a = next
  | Ret (inr TooBig, _) => ¬ fits lim after
  | Ret (inr NoMem, _) => m ≠ (true, true)
  | _ => False
  end.

Lemma charge_ok n a : 0 ≤ used a → 0 ≤ n → limit a = lim → charge n a = if used a + n <=? lim then inl (used a + n) else inr TooBig.
Proof.
  intros Hu Hn Hl. unfold charge, checked_add. rewrite Hl. destruct (Z.ltb_spec (used a + n) (2 ^ 64)); [done|].
  by rewrite (proj2 (Z.leb_gt _ _)) by lia.
Qed.

Lemma begin_run (env : bool) a : cur a = None → env || negb (argv_done a) = true → 0 ≤ used a → limit a = lim →
  begin_ env a = if used a + 8 <=? lim
                 then Ret (inl tt, mkArgs (strings a) (argc a) (envc a) (used a + 8) lim (Some 0) env (argv_done a))
                 else Ret (inr TooBig, a).
Proof.
  intros Hc He Hu Hl. unfold begin_, bind, get, obind, assert. rewrite Hc, He. cbn [is_none ret]. rewrite charge_ok by (done || lia).
  rewrite Hl. by destruct (_ <=? _).
Qed.

Lemma extend_run (mem : bool) part a : cur a = Some 0 → 0 ≤ used a → limit a = lim →
  extend mem part a =
  if (zlen part <? MAX_ARG_STRLEN) && (used a + zlen part <=? lim) then
    if mem then Ret (inl tt, mkArgs (strings a ++ part) (argc a) (envc a) (used a + zlen part) lim (Some (zlen part)) (cur_env a) (argv_done a))
    else Ret (inr NoMem, a)
  else Ret (inr TooBig, a).
Proof.
  intros Hc Hu Hl. assert (0 ≤ zlen part) by (unfold zlen; lia).
  unfold extend, bind, get, obind, assert, checked_add. rewrite Hc. cbn [is_none negb ret default]. rewrite Z.add_0_l.
  rewrite charge_ok by (done || lia). change MAX_ARG_STRLEN with 131072. rewrite Hl.
  destruct (Z.ltb_spec (zlen part) (2 ^ 64)), (Z.ltb_spec (zlen part) 131072), (Z.leb_spec (used a + zlen part) lim), mem;
    try done; lia.
Qed.

Lemma end_run (mem : bool) a : 0 ≤ used a → limit a = lim → 0 ≤ argc a < 2 ^ 64 - 1 → 0 ≤ envc a < 2 ^ 64 - 1 →
  end_ mem a =
  if used a + 1 <=? lim then
    if mem then Ret (inl tt, mkArgs (strings a ++ [0]) (if cur_env a then argc a else argc a + 1) (if cur_env a then envc a + 1 else envc a)
                       (used a + 1) lim None (cur_env a) (argv_done a))
    else Ret (inr NoMem, a)
  else Ret (inr TooBig, a).
Proof.
  intros Hu Hl Ha He. unfold end_, bind, get, obind. rewrite charge_ok by (done || lia). rewrite Hl. unfold saturating_add.
  rewrite !Z.min_l by lia. by destruct (_ <=? _), mem.
Qed.

Lemma block_snoc_env argv envp s ce dn :
  block lim argv (envp ++ [s]) ce dn =
  mkArgs ((cat (argv ++ envp) ++ s) ++ [0]) (zlen argv) (zlen envp + 1) (costs (argv ++ envp) + 8 + zlen s + 1) lim None ce dn.
Proof.
  unfold block. rewrite (app_assoc argv), cat_snoc, costs_app, <-app_assoc. unfold costs at 2. cbn [foldr]. unfold cost.
  f_equal; [unfold zlen; rewrite length_app; cbn; lia|lia].
Qed.
Lemma block_snoc_arg argv s ce dn :
  block lim (argv ++ [s]) [] ce dn =
  mkArgs ((cat (argv ++ []) ++ s) ++ [0]) (zlen argv + 1) 0 (costs (argv ++ []) + 8 + zlen s + 1) lim None ce dn.
Proof.
  unfold block. rewrite !app_nil_r, cat_snoc, costs_app, <-app_assoc. unfold costs at 2. cbn [foldr]. unfold cost.
  f_equal; [unfold zlen; rewrite length_app; cbn; lia|lia].
Qed.

Lemma fits_snoc ss s : fits lim ss → fits lim (ss ++ [s]) ↔ zlen s < MAX_ARG_STRLEN ∧ costs ss + 8 + zlen s + 1 ≤ lim.
Proof.
  intros [H1 H2]. unfold fits. rewrite Forall_app, Forall_singleton, costs_app, costs_cons. unfold short, cost.
  change (costs []) with 0. intuition lia.
Qed.

Lemma push_block_ok (m : bool * bool) (env : bool) (s : list Z) (argv envp : list (list Z)) (ce dn : bool) :
  (if env then True else envp = [] ∧ dn = false) → fits lim (argv ++ envp) →
  answers m ((argv ++ envp) ++ [s])
    (if env then block lim argv (envp ++ [s]) true dn else block lim (argv ++ [s]) [] false false)
    (push m env s (block lim argv envp ce dn)).
Proof.
  intros Henv Hf. pose proof (costs_bound (argv ++ envp)) as Hb. unfold zlen in Hb. rewrite length_app in Hb.
  pose proof (fits_snoc _ s Hf) as Hs. destruct Hf as [_ Hf].
  assert (0 ≤ zlen s) by (unfold zlen; lia). unfold push, try_, bind, obind.
  rewrite begin_run; [|done|cbn; destruct env; [done|by destruct Henv as [_ ->]]|cbn; lia|done]. cbn [used block strings argc envc argv_done].
  set (c := costs (argv ++ envp)) in *. destruct (Z.leb_spec (c + 8) lim); [|cbn; rewrite Hs; lia].
  rewrite extend_run by (done || cbn; lia). cbn [used strings argc envc cur_env argv_done].
  destruct (Z.ltb_spec (zlen s) MAX_ARG_STRLEN), (Z.leb_spec (c + 8 + zlen s) lim); cbn [andb]; [|cbn; rewrite Hs; lia..].
  destruct m as [[] m2]; cbn [fst snd]; [|done].
  rewrite end_run; [|cbn; lia|done|cbn; unfold zlen; lia..]. cbn [used strings argc envc cur_env argv_done].
  destruct (Z.leb_spec (c + 8 + zlen s + 1) lim); [|cbn; rewrite Hs; lia]. destruct m2; [|done]. cbn [answers].
  split; [by apply Hs|]. destruct env; [by rewrite block_snoc_env|]. destruct Henv as [-> ->]. by rewrite block_snoc_arg.
Qed.

Lemma push_all_env mem i ss argv envp ce dn :
  fits lim (argv ++ envp) →
  match push_all mem i true ss (block lim argv envp ce dn) with
  | Ret (inl _, a) => fits lim (argv ++ envp ++ ss) ∧ ∃ ce, a = block lim argv (envp ++ ss) ce dn
  | Ret (inr TooBig, _) => ¬ fits lim (argv ++ envp ++ ss)
  | Ret (inr NoMem, _) => ∃ j, mem j ≠ (true, true)
  | _ => False
  end.
Proof.
  revert i envp ce. induction ss as [|s ss IH]; intros i envp ce Hf; cbn [push_all].
  - cbn. rewrite !app_nil_r. eauto.
  - pose proof (push_block_ok (mem i) true s argv envp ce dn I Hf) as Hp. unfold try_, bind, obind.
    destruct (push (mem i) true s _) as [[[[]|[]] a]| | |]; cbn in Hp; try done.
    + destruct Hp as [Hf' ->]. rewrite <-app_assoc in Hf'. specialize (IH (S i) (envp ++ [s]) true Hf'). rewrite <-!app_assoc in IH. exact IH.
    + cbn. intros Hx. apply Hp. apply (fits_app _ _ ss). by rewrite <-!app_assoc.
    + cbn. by exists i.
Qed.

Lemma push_all_arg mem i ss argv ce :
  fits lim argv →
  match push_all mem i false ss (block lim argv [] ce false) with
  | Ret (inl _, a) => fits lim (argv ++ ss) ∧ ∃ ce, a = block lim (argv ++ ss) [] ce false
  | Ret (inr TooBig, _) => ¬ fits lim (argv ++ ss)
  | Ret (inr NoMem, _) => ∃ j, mem j ≠ (true, true)
  | _ => False
  end.
Proof.
  revert i argv ce. induction ss as [|s ss IH]; intros i argv ce Hf; cbn [push_all].
  - cbn. rewrite !app_nil_r. eauto.
  - pose proof (push_block_ok (mem i) false s argv [] ce false (conj eq_refl eq_refl)) as Hp. rewrite app_nil_r in Hp. specialize (Hp Hf).
    unfold try_, bind, obind. destruct (push (mem i) false s _) as [[[[]|[]] a]| | |]; cbn in Hp; try done.
    + destruct Hp as [Hf' ->]. specialize (IH (S i) (argv ++ [s]) false Hf'). rewrite <-!app_assoc in IH. exact IH.
    + cbn. intros Hx. apply Hp. apply (fits_app _ _ ss). by rewrite <-!app_assoc.
    + cbn. by exists i.
Qed.

(** An empty [argv] becomes one empty string. *)
Definition with_arg0 (argv : list (list Z)) : list (list Z) := match argv with [] => [[]] | _ => argv end.

Lemma finish_argv_ok m argv ce : fits lim argv →
  match finish_argv m (block lim argv [] ce false) with
  | Ret (inl _, a) => fits lim (with_arg0 argv) ∧ ∃ ce, a = block lim (with_arg0 argv) [] ce true
  | Ret (inr TooBig, _) => ¬ fits lim (with_arg0 argv)
  | Ret (inr NoMem, _) => m ≠ (true, true)
  | _ => False
  end.
Proof.
  intros Hf. unfold finish_argv, bind, gets, obind. cbn [argc block]. destruct argv as [|s argv].
  - pose proof (push_block_ok m false [] [] [] ce false (conj eq_refl eq_refl) Hf) as Hp. change (zlen [] =? 0) with true. unfold push_arg, try_, bind, obind.
    destruct (push m false [] _) as [[[[]|[]] a]| | |]; cbn in Hp; try done. destruct Hp as [? ->]. cbn. eauto.
  - rewrite (proj2 (Z.eqb_neq _ _)) by (unfold zlen; cbn; lia). cbn. eauto.
Qed.
End Push.

(** C32: The argument block holds exactly what it was given, within the limits, and is
    refused for no other reason. Whatever the allocator answers, [exec_args] returns,
    and no debug assertion fails. It returns a block only when each string is shorter
    than [MAX_ARG_STRLEN] and all of them, with their NULs and pointers, are within
    the limit, and then the block is the strings in order, with the counts of both
    lists and one empty argument for an empty [argv]; it says [TooBig] only when a
    limit is passed, and [NoMem] only when the allocator refused a call. *)
Theorem exec_args_exact mem argv envp :
  let lim := arg_space_limit RLIMIT_STACK_DEFAULT in
  let argv' := with_arg0 argv in
  match exec_args mem argv envp with
  | Ret (inl a) => fits lim (argv' ++ envp) ∧ ∃ ce, a = block lim argv' envp ce true
  | Ret (inr TooBig) => ¬ fits lim (argv' ++ envp)
  | Ret (inr NoMem) => ∃ i, mem i ≠ (true, true)
  | _ => False
  end.
Proof.
  intros lim argv'. assert (Hlim : lim < 2 ^ 64 - 1) by by vm_compute. unfold exec_args. fold lim.
  change (new lim) with (block lim [] [] false false). unfold try_, bind, obind.
  assert (Hnil : fits lim []) by (split; [constructor|by vm_compute]).
  assert (Hsub : ∀ ss, fits lim ((with_arg0 argv) ++ ss) → fits lim argv).
  { intros ss Hx%fits_app. by destruct argv. }
  pose proof (push_all_arg lim Hlim mem 0 argv [] false Hnil) as H1.
  destruct (push_all mem 0 false argv _) as [[[[]|[]] a]| | |]; try done; cbn -[finish_argv push_all block].
  2: { intros Hx%Hsub. by apply H1. }
  destruct H1 as [Hf1 [ce1 ->]]. cbn [app] in *. pose proof (finish_argv_ok lim Hlim (mem (length argv)) argv ce1 Hf1) as H2.
  destruct (finish_argv _ _) as [[[[]|[]] a]| | |]; try done; cbn -[push_all block].
  2: { intros Hx%fits_app. by apply H2. }
  2: { by exists (length argv). }
  destruct H2 as [Hf2 [ce2 ->]]. rewrite <-(app_nil_r (with_arg0 argv)) in Hf2.
  pose proof (push_all_env lim Hlim mem (S (length argv)) envp (with_arg0 argv) [] ce2 true Hf2) as H3.
  destruct (push_all _ _ true envp _) as [[[[]|[]] a]| | |]; done.
Qed.
