(* ===== verification/ElfStackProps.v ===== *)
(** * The initial stack reads back (src/crates/core/src/proc/elf/stack.rs)

    The table [build] writes, word by word, and where its pointers lead. *)

From stdpp Require Import base list numbers strings.
From S2P Require Import Prelude Bytes Paging AddrSpace Elf ElfProps ElfTls ElfStack ElfArgs.
Import ElfStack.

Local Open Scope Z_scope.

(** ** Words *)
Definition words (ws : list Z) : list Z := concat (map (le_bytes 8) ws).

Lemma words_app a b : words (a ++ b) = words a ++ words b.
Proof. unfold words. by rewrite map_app, concat_app. Qed.
Lemma length_words ws : length (words ws) = (8 * length ws)%nat.
Proof.
  induction ws as [|w ws IH]; [done|]. change (words (w :: ws)) with (le_bytes 8 w ++ words ws).
  rewrite length_app, length_le_bytes, IH. cbn [length]. lia.
Qed.

Fixpoint pokes (vs : list Z) (c : cursor) : option cursor :=
  match vs with [] => Some c | v :: vs => c ← poke_u64 v c; pokes vs c end.

Lemma pokes_app a b c : pokes (a ++ b) c = pokes a c ≫= pokes b.
Proof. revert c. induction a as [|v a IH]; intros c; [done|]. cbn. destruct (poke_u64 v c); cbn; auto. Qed.

(** The words written so far, then the rest of the table. *)
Definition at_word (ds rest : list Z) : cursor := (words ds ++ rest, 8 * zlen ds).

Lemma poke_ok v ds rest : 8 ≤ zlen rest → 8 * zlen ds + 8 < 2 ^ 64 → poke_u64 v (at_word ds rest) = Some (at_word (ds ++ [v]) (drop 8 rest)).
Proof.
  intros Hr Hd. unfold poke_u64, at_word, checked_add, write_at. cbn [fst snd]. rewrite (proj2 (Z.ltb_lt _ _)) by lia. cbn [mbind option_bind].
  assert (Hlb : length (le_bytes 8 v) = 8%nat) by apply length_le_bytes. pose proof (length_words ds) as Hw. unfold zlen in *.
  rewrite Hlb, length_app, Hw, (proj2 (Z.leb_le 0 _)), (proj2 (Z.leb_le _ (Z.of_nat _))) by lia. cbn [andb mbind option_bind].
  replace (Z.to_nat (8 * Z.of_nat (length ds))) with (length (words ds)) by lia.
  rewrite take_app_length, drop_app_add. f_equal. f_equal.
  - by rewrite words_app, <-app_assoc.
  - rewrite length_app. cbn [length]. lia.
Qed.

Lemma pokes_ok vs ds rest : 8 * zlen vs ≤ zlen rest → 8 * (zlen ds + zlen vs) < 2 ^ 64 →
  pokes vs (at_word ds rest) = Some (at_word (ds ++ vs) (drop (8 * length vs) rest)).
Proof.
  revert ds rest. induction vs as [|v vs IH]; intros ds rest Hr Hd; [by rewrite app_nil_r, drop_0|]. cbn [pokes].
  unfold zlen in *. cbn [length] in *. rewrite poke_ok by (unfold zlen; lia). cbn [mbind option_bind].
  rewrite IH by (rewrite ?length_drop, ?length_app; cbn [length]; lia). rewrite <-app_assoc, drop_drop.
  do 3 f_equal. lia.
Qed.

(** ** The string pointers *)
Definition no_nul (s : list Z) : Prop := Forall (λ b, b ≠ 0) s.

Fixpoint addrs (va : Z) (ss : list (list Z)) : list Z :=
  match ss with [] => [] | s :: ss => va :: addrs (va + zlen s + 1) ss end.
Fixpoint ptrs (va argc start n : Z) (ss : list (list Z)) : list Z :=
  match ss with
  | [] => []
  | s :: ss => (va + start) :: (if n + 1 =? argc then [0] else []) ++ ptrs va argc (start + zlen s + 1) (n + 1) ss
  end.

Lemma skip_string va ac s bs i start n c : no_nul s → string_ptrs va ac (s ++ bs) i start n c = string_ptrs va ac bs (i + zlen s) start n c.
Proof.
  intros Hs. revert i. induction Hs as [|b s Hb _ IH]; intros i; cbn [app string_ptrs]; [by rewrite Z.add_0_r|].
  rewrite (proj2 (Z.eqb_neq b 0)) by done. cbn [negb]. rewrite IH. f_equal. unfold zlen. cbn [length]. lia.
Qed.

Lemma cat_cons s ss : cat (s :: ss) = s ++ 0 :: cat ss.
Proof. unfold cat. cbn. by rewrite <-app_assoc. Qed.
Lemma zlen_cat_cons s ss : zlen (cat (s :: ss)) = zlen s + 1 + zlen (cat ss).
Proof. rewrite cat_cons. unfold zlen. rewrite length_app. cbn [length]. lia. Qed.

Lemma string_ptrs_ok va ac ss i n c :
  Forall no_nul ss → 0 ≤ va → 0 ≤ i → 0 ≤ n → va + i + zlen (cat ss) < 2 ^ 64 → n + zlen ss < 2 ^ 64 →
  string_ptrs va ac (cat ss) i i n c = (λ c, (c, n + zlen ss)) <$> pokes (ptrs va ac i n ss) c.
Proof.
  intros Hss. revert i n c. induction Hss as [|s ss Hs _ IH]; intros i n c Hva Hi Hn Hend Hcnt.
  - cbn. by rewrite Z.add_0_r.
  - rewrite zlen_cat_cons in Hend. assert (0 ≤ zlen s ∧ 0 ≤ zlen ss ∧ 0 ≤ zlen (cat ss)) as (? & ? & ?) by (unfold zlen; lia).
    assert (Hl : zlen (s :: ss) = zlen ss + 1) by (unfold zlen; cbn [length]; lia). rewrite Hl in *.
    rewrite cat_cons, skip_string by done. cbn [string_ptrs ptrs pokes Z.eqb negb]. unfold checked_add.
    rewrite (proj2 (Z.ltb_lt (va + i) _)) by lia. cbn [mbind option_bind]. destruct (poke_u64 (va + i) c) as [c1|]; [|done]. cbn [mbind option_bind].
    rewrite (proj2 (Z.ltb_lt (n + 1) _)) by lia. cbn [mbind option_bind]. rewrite pokes_app.
    rewrite (proj2 (Z.ltb_lt (i + zlen s + 1) _)) by lia. cbn [mbind option_bind].
    replace (n + (zlen ss + 1)) with (n + 1 + zlen ss) by lia.
    destruct (n + 1 =? ac); cbn [pokes].
    + destruct (poke_u64 0 c1) as [c2|]; [|done]. cbn [mbind option_bind]. by rewrite IH by lia.
    + cbn [mbind option_bind]. by rewrite IH by lia.
Qed.

(** After the last argument, only environment strings. *)
Lemma ptrs_env va ac start n ss : ac ≤ n → ptrs va ac start n ss = addrs (va + start) ss.
Proof.
  revert start n. induction ss as [|s ss IH]; intros start n Hn; [done|]. cbn. rewrite (proj2 (Z.eqb_neq _ _)) by lia. cbn.
  rewrite IH by lia. do 2 f_equal. lia.
Qed.
Lemma ptrs_args va start n argv envp : argv ≠ [] →
  ptrs va (n + zlen argv) start n (argv ++ envp) = addrs (va + start) argv ++ 0 :: addrs (va + start + zlen (cat argv)) envp.
Proof.
  revert start n. induction argv as [|s argv IH]; intros start n Hne; [done|]. cbn [app ptrs addrs].
  rewrite zlen_cat_cons. replace (n + zlen (s :: argv)) with (n + 1 + zlen argv) by (unfold zlen; cbn [length]; lia). f_equal.
  destruct argv as [|s' argv].
  - change (zlen (@nil (list Z))) with 0. change (zlen (cat [])) with 0. rewrite (proj2 (Z.eqb_eq _ _)) by lia. cbn [app addrs].
    f_equal. rewrite ptrs_env by lia. f_equal. lia.
  - rewrite (proj2 (Z.eqb_neq _ _)) by (unfold zlen; cbn [length]; lia). cbn [app]. rewrite IH by done. f_equal; [f_equal; lia|]. f_equal. f_equal. lia.
Qed.

(** A pointer of the table leads to its string and its NUL. *)
Lemma addrs_lead ss va i s p : ss !! i = Some s → addrs va ss !! i = Some p →
  slice (cat ss) (p - va) (zlen s + 1) = Some (s ++ [0]) ∧ va ≤ p.
Proof.
  revert va i. induction ss as [|s' ss IH]; intros va i Hs Hp; [done|]. destruct i as [|i]; cbn in Hs, Hp.
  - simplify_eq. rewrite Z.sub_diag, cat_cons. replace (s ++ 0 :: cat ss) with ((s ++ [0]) ++ cat ss) by (by rewrite <-app_assoc).
    split; [|lia]. apply slice_head. unfold zlen. rewrite length_app. cbn [length]. lia.
  - destruct (IH _ _ Hs Hp) as [IH1 IH2]. assert (0 ≤ zlen s') by (unfold zlen; lia). split; [|lia].
    rewrite cat_cons. replace (s' ++ 0 :: cat ss) with ((s' ++ [0]) ++ cat ss) by (by rewrite <-app_assoc).
    replace (p - va) with (zlen (s' ++ [0]) + (p - (va + zlen s' + 1))) by (unfold zlen; rewrite length_app; cbn [length]; lia).
    by rewrite slice_app_r by lia.
Qed.

(** ** The layout *)
Lemma checked_mul_in w a b : a * b < 2 ^ w → Elf.checked_mul w a b = Some (a * b).
Proof. intros H. unfold Elf.checked_mul. by rewrite (proj2 (Z.ltb_lt _ _)). Qed.
Definition up16 (x : Z) : Z := x + 15 - (x + 15) mod 16.
Lemma up16_ok x : x ≤ up16 x < x + 16 ∧ (16 | up16 x).
Proof.
  unfold up16. pose proof (Z.mod_pos_bound (x + 15) 16). split; [lia|]. exists ((x + 15) / 16). pose proof (Z.div_mod (x + 15) 16). lia.
Qed.
Lemma align16_ok x : 0 ≤ x < 2 ^ 63 → align16 x = Some (up16 x).
Proof.
  intros Hx. unfold align16, checked_add. rewrite (proj2 (Z.ltb_lt _ _)) by lia. cbn [mbind option_bind]. f_equal.
  apply (land_align _ 16 4); [unfold in_width; lia|lia|done].
Qed.

Lemma costs_cat ss : costs ss = zlen (cat ss) + 8 * zlen ss.
Proof. induction ss as [|s ss IH]; [done|]. rewrite costs_cons, zlen_cat_cons, IH. unfold cost, zlen. cbn [length]. lia. Qed.

Definition aux_words (aux : list Auxv) : list Z := concat (map (λ a, [tag a; val a]) aux).
Lemma zlen_aux_words aux : zlen (aux_words aux) = 2 * zlen aux.
Proof.
  induction aux as [|a aux IH]; [done|]. change (aux_words (a :: aux)) with (tag a :: val a :: aux_words aux).
  unfold zlen in *. cbn [length]. lia.
Qed.
Lemma poke_aux_pokes aux c : poke_aux aux c = pokes (aux_words aux) c.
Proof.
  revert c. induction aux as [|a aux IH]; intros c; [done|]. change (aux_words (a :: aux)) with (tag a :: val a :: aux_words aux). cbn.
  destruct (poke_u64 (tag a) c) as [c1|]; [|done]. cbn. destruct (poke_u64 (val a) c1); cbn; auto.
Qed.
Lemma length_addrs va ss : zlen (addrs va ss) = zlen ss.
Proof. revert va. induction ss as [|s ss IH]; intros va; [done|]. cbn [addrs]. specialize (IH (va + zlen s + 1)). unfold zlen in *. cbn [length]. lia. Qed.

(** The words of the table. *)
Definition stack_words (va rva : Z) (argv envp : list (list Z)) (aux : list Auxv) : list Z :=
  zlen argv :: addrs va argv ++ 0 :: addrs (va + zlen (cat argv)) envp ++ 0 :: aux_words aux ++ [AT_RANDOM; rva; AT_NULL; 0].
Definition nwords (argv envp : list (list Z)) (aux : list Auxv) : Z := zlen argv + zlen envp + 3 + 2 * (zlen aux + 2).
Lemma zlen_stack_words va rva argv envp aux : zlen (stack_words va rva argv envp aux) = nwords argv envp aux.
Proof.
  unfold stack_words, nwords. pose proof (length_addrs va argv). pose proof (length_addrs (va + zlen (cat argv)) envp).
  pose proof (zlen_aux_words aux). unfold zlen in *. cbn [length]. rewrite !length_app. cbn [length]. rewrite !length_app. cbn [length].
  rewrite length_app. cbn [length]. lia.
Qed.

Section Layout.
Context (argv envp : list (list Z)) (aux : list Auxv).
Definition strs_off : Z := zlen (cat (argv ++ envp)) + 8.
Definition random_off : Z := up16 (strs_off + 16).
Definition rsp_off : Z := up16 (random_off + 8 * nwords argv envp aux).

Context (Hcost : costs (argv ++ envp) ≤ 2 ^ 32) (Haux : zlen aux ≤ 2 ^ 32).

Lemma small_counts : 0 ≤ zlen argv ∧ 0 ≤ zlen envp ∧ 0 ≤ zlen aux ∧ 0 ≤ zlen (cat (argv ++ envp)) ∧
  zlen (cat (argv ++ envp)) + 8 * (zlen argv + zlen envp) ≤ 2 ^ 32.
Proof. rewrite costs_cat in Hcost. unfold zlen in *. rewrite length_app in Hcost. lia. Qed.

Lemma offsets_ok lim ce dn : stack_offsets (block lim argv envp ce dn) (zlen aux) = Some (strs_off, random_off, rsp_off).
Proof.
  destruct small_counts as (? & ? & ? & ? & ?). unfold stack_offsets, table_words. cbn [strings argc envc block].
  pose proof (up16_ok (strs_off + 16)) as [Hr _]. fold random_off in Hr.
  assert (Hs : strs_off = zlen (cat (argv ++ envp)) + 8) by done. rewrite (checked_add_in 64 (zlen (cat _)) 8) by lia. fold strs_off.
  cbn [mbind option_bind]. rewrite (checked_add_in 64 strs_off 16) by lia. cbn [mbind option_bind].
  rewrite align16_ok by lia. fold random_off. cbn [mbind option_bind].
  rewrite (checked_add_in 64 (zlen argv)) by lia. cbn [mbind option_bind]. rewrite (checked_add_in 64 (zlen argv + zlen envp)) by lia.
  cbn [mbind option_bind]. rewrite (checked_add_in 64 (zlen aux)) by lia. cbn [mbind option_bind].
  rewrite (checked_mul_in 64 (zlen aux + 2)) by lia. cbn [mbind option_bind]. rewrite (checked_add_in 64 ((zlen aux + 2) * 2)) by lia.
  cbn [mbind option_bind]. rewrite checked_mul_in by lia. cbn [mbind option_bind].
  rewrite (checked_add_in 64 random_off) by lia. cbn [mbind option_bind]. rewrite align16_ok by lia. cbn [mbind option_bind].
  unfold rsp_off, nwords. do 3 f_equal. lia.
Qed.
End Layout.

(** The writes of [build] as one list of words. *)
Lemma build_pokes (st : StackImage) (ac n rva : Z) (ps axs : list Z) (c : cursor) :
  (c ← poke_u64 ac c;
   cn ← (λ c, (c, n)) <$> pokes ps c;
   c ← poke_u64 0 (fst cn);
   c ← pokes axs c;
   c ← poke_u64 AT_RANDOM c;
   c ← poke_u64 rva c;
   c ← poke_u64 AT_NULL c;
   c ← poke_u64 0 c;
   Some (st, fst c)) =
  (λ c, (st, fst c)) <$> pokes (ac :: ps ++ 0 :: axs ++ [AT_RANDOM; rva; AT_NULL; 0]) c.
Proof.
  cbn [pokes]. destruct (poke_u64 ac c) as [c1|]; [|done]. cbn [mbind option_bind]. rewrite pokes_app.
  destruct (pokes ps c1) as [c2|]; [|done]. cbn [fmap option_fmap option_map mbind option_bind fst pokes].
  destruct (poke_u64 0 c2) as [c3|]; [|done]. cbn [mbind option_bind]. rewrite pokes_app.
  destruct (pokes axs c3) as [c4|]; [|done]. cbn [mbind option_bind pokes].
  do 4 (match goal with |- context [poke_u64 ?v ?c ≫= _] => destruct (poke_u64 v c); [|done] end; cbn [mbind option_bind]). done.
Qed.

Lemma write_zeros (n r : nat) (bs : list Z) : (r + length bs ≤ n)%nat →
  write_at (replicate n 0) (Z.of_nat r) bs = Some (replicate r 0 ++ bs ++ replicate (n - r - length bs) 0).
Proof.
  intros Hn. unfold write_at, zlen. rewrite length_replicate, (proj2 (Z.leb_le 0 _)), (proj2 (Z.leb_le _ (Z.of_nat n))) by lia. cbn [andb].
  rewrite Nat2Z.id, take_replicate, drop_replicate. do 2 f_equal; [f_equal; lia|]. do 2 f_equal. lia.
Qed.

Section Build.
Context (lim : Z) (argv envp : list (list Z)) (ce : bool) (aux : list Auxv) (random table : list Z) (top : Z).
Context (Hne : argv ≠ []) (Hnul : Forall no_nul (argv ++ envp)) (Hcost : costs (argv ++ envp) ≤ 2 ^ 32) (Haux : zlen aux ≤ 2 ^ 32).
Context (Hrnd : zlen random = 16) (Htop : (16 | top)) (Htop64 : top < 2 ^ 64) (Hroom : rsp_off argv envp aux ≤ top).
Context (Htab : zlen table = rsp_off argv envp aux - strs_off argv envp).

Notation so := (strs_off argv envp).
Notation ro := (random_off argv envp).
Notation rs := (rsp_off argv envp aux).
Notation W := (nwords argv envp aux).
Notation ws := (stack_words (top - so) (top - ro) argv envp aux).
Definition gap : nat := Z.to_nat (rs - ro - 8 * W).
Definition pad : nat := Z.to_nat (ro - so - 16).
Notation t0 := (replicate (Z.to_nat (rs - ro)) 0 ++ random ++ replicate pad 0).

Lemma offsets_order : so = zlen (cat (argv ++ envp)) + 8 ∧ 0 ≤ zlen (cat (argv ++ envp)) ∧ 0 < W ∧ so + 16 ≤ ro < so + 32 ∧ (16 | ro) ∧
  ro + 8 * W ≤ rs < ro + 8 * W + 16 ∧ (16 | rs) ∧ rs < 2 ^ 40.
Proof.
  destruct (small_counts argv envp aux Hcost) as (Hc1 & Hc2 & Hc3 & Hc4 & Hc5).
  pose proof (up16_ok (so + 16)) as [Hro1 Hro2]. pose proof (up16_ok (ro + 8 * W)) as [Hrs1 Hrs2].
  unfold rsp_off. unfold random_off at 1 2 5. unfold strs_off, nwords in *. unfold random_off, strs_off in *. split_and!; (done || lia).
Qed.

Lemma strings_pokes c :
  string_ptrs (top - so) (zlen argv) (cat (argv ++ envp)) 0 0 0 c =
  (λ c, (c, zlen argv + zlen envp)) <$> pokes (addrs (top - so) argv ++ 0 :: addrs (top - so + zlen (cat argv)) envp) c.
Proof.
  destruct offsets_order as (Hs & Hc & HW & Hr & _ & Hrs & _ & _). destruct (small_counts argv envp aux Hcost) as (Hc1 & Hc2 & Hc3 & Hc4 & Hc5).
  assert (Hl : zlen (argv ++ envp) = zlen argv + zlen envp) by (unfold zlen; rewrite length_app; lia).
  rewrite string_ptrs_ok by (done || lia). rewrite Hl, Z.add_0_l.
  pose proof (ptrs_args (top - so) 0 0 argv envp Hne) as Hp. rewrite Z.add_0_l, Z.add_0_r in Hp. by rewrite Hp.
Qed.

Lemma build_run :
  build_table top (block lim argv envp ce true) aux random table =
  (λ c, (mkStack (top - rs) (top - so), fst c)) <$> pokes ws (t0, 0).
Proof.
  destruct offsets_order as (Hs & Hc & HW & Hr & _ & Hrs & _ & Hsm). destruct (small_counts argv envp aux Hcost) as (Hc1 & Hc2 & Hc3 & Hc4 & Hc5).
  unfold build_table. change 15 with (2 ^ 4 - 1). rewrite land_mask by lia. change (2 ^ 4) with 16.
  rewrite (proj2 (Z.mod_divide top 16 ltac:(lia)) Htop). change (negb (0 =? 0)) with false. cbn iota.
  rewrite offsets_ok by done. cbn [mbind option_bind]. unfold AddrSpace.checked_sub.
  rewrite (proj2 (Z.leb_le so top)), (proj2 (Z.leb_le ro top)), (proj2 (Z.leb_le rs top)), (proj2 (Z.leb_le so rs)),
    (proj2 (Z.leb_le ro rs)) by lia. cbn [mbind option_bind]. rewrite Htab, Z.eqb_refl. cbn [negb].
  rewrite (checked_add_in 64 (rs - ro)) by lia. cbn [mbind option_bind].
  replace (write_at (replicate (length table) 0) (rs - ro) random) with (Some t0).
  2: { unfold zlen in Htab, Hrnd. rewrite <-(Z2Nat.id (rs - ro)) at 2 by lia. rewrite write_zeros by lia. unfold pad. do 4 f_equal. lia. }
  cbn [mbind option_bind argc envc strings block].
  rewrite (proj2 (Z.eqb_neq (zlen argv) 0)) by (destruct argv; [done|unfold zlen; cbn [length]; lia]).
  rewrite (checked_add_in 64 (zlen argv)) by lia.
  transitivity (c ← poke_u64 (zlen argv) (t0, 0);
     cn ← (λ c, (c, zlen argv + zlen envp)) <$> pokes (addrs (top - so) argv ++ 0 :: addrs (top - so + zlen (cat argv)) envp) c;
     c ← poke_u64 0 (fst cn); c ← pokes (aux_words aux) c; c ← poke_u64 AT_RANDOM c; c ← poke_u64 (top - ro) c;
     c ← poke_u64 AT_NULL c; c ← poke_u64 0 c; Some (mkStack (top - rs) (top - so), fst c)).
  - destruct (poke_u64 (zlen argv) (t0, 0)) as [c1|]; [|done]. cbn [mbind option_bind]. rewrite strings_pokes.
    destruct (pokes _ c1) as [c2|]; [|done]. cbn [fmap option_fmap option_map mbind option_bind fst]. rewrite Z.eqb_refl. cbn [negb].
    destruct (poke_u64 0 c2) as [c3|]; [|done]. cbn [mbind option_bind]. by rewrite poke_aux_pokes.
  - rewrite build_pokes. unfold stack_words. by rewrite <-app_assoc.
Qed.

Lemma table_written : pokes ws (t0, 0) = Some (at_word ws (replicate gap 0 ++ random ++ replicate pad 0)).
Proof.
  destruct offsets_order as (Hs & Hc & HW & Hr & _ & Hrs & _ & Hsm). pose proof (zlen_stack_words (top - so) (top - ro) argv envp aux) as Hw.
  change (t0, 0) with (at_word [] t0). rewrite pokes_ok.
  - do 2 f_equal. unfold zlen in Hw. rewrite drop_app_le by (rewrite length_replicate; lia). rewrite drop_replicate. unfold gap. do 2 f_equal. lia.
  - rewrite Hw. unfold zlen. rewrite !length_app, !length_replicate. lia.
  - rewrite Hw. change (zlen []) with 0. lia.
Qed.
End Build.

(** C33: The initial stack reads back as the program's arguments. For any arguments
    without embedded NULs within the limits, an aligned top with room and a buffer of
    the right length, [build_initial_stack] succeeds. RSP and the random bytes are
    16-aligned; the table starts with [argc], the [argv] pointers and a NULL, the
    [envp] pointers and a NULL, the auxiliary vector, [AT_RANDOM] with the address
    of the random bytes, and [AT_NULL]; after it come only zeros and the random
    bytes, at that address; the table ends where the strings start; and each pointer
    leads to its string and its NUL. *)
Theorem initial_stack_reads_back lim argv envp ce aux random table top :
  argv ≠ [] → Forall no_nul (argv ++ envp) → costs (argv ++ envp) ≤ 2 ^ 32 → zlen aux ≤ 2 ^ 32 → zlen random = 16 →
  (16 | top) → top < 2 ^ 64 → rsp_off argv envp aux ≤ top → zlen table = rsp_off argv envp aux - strs_off argv envp →
  ∃ st t rva k1 k2,
    build_initial_stack top (block lim argv envp ce true) aux random table = Ret (inl (st, t)) ∧
    t = words (stack_words (strings_va st) rva argv envp aux) ++ replicate k1 0 ++ random ++ replicate k2 0 ∧
    rva = rsp st + 8 * nwords argv envp aux + Z.of_nat k1 ∧ (16 | rsp st) ∧ (16 | rva) ∧
    rsp st + zlen t = strings_va st ∧ strings_va st + zlen (cat (argv ++ envp)) + 8 = top ∧
    (∀ i s p, argv !! i = Some s → addrs (strings_va st) argv !! i = Some p →
       slice (cat argv) (p - strings_va st) (zlen s + 1) = Some (s ++ [0])) ∧
    (∀ i s p, envp !! i = Some s → addrs (strings_va st + zlen (cat argv)) envp !! i = Some p →
       slice (cat envp) (p - strings_va st - zlen (cat argv)) (zlen s + 1) = Some (s ++ [0])).
Proof.
  intros Hne Hnul Hcost Haux Hrnd Htop Htop64 Hroom Htab.
  destruct (offsets_order argv envp aux Hcost Haux) as (Hs & Hc & HW & Hr & Hro & Hrs & Hrsd & Hsm).
  exists (mkStack (top - rsp_off argv envp aux) (top - strs_off argv envp)). do 4 eexists. split_and!.
  - unfold build_initial_stack, build. cbn [cur block is_none oassert obind]. rewrite build_run by done. rewrite (table_written argv envp aux random table) by done. done.
  - done.
  - cbn. unfold gap. lia.
  - cbn. by apply Z.divide_sub_r.
  - by apply Z.divide_sub_r.
  - unfold at_word. cbn [strings_va rsp fst]. pose proof (zlen_stack_words (top - strs_off argv envp) (top - random_off argv envp) argv envp aux) as Hw.
    unfold zlen in *. rewrite !length_app, length_words, !length_replicate. unfold gap, pad. lia.
  - cbn. lia.
  - cbn [strings_va]. intros i s p Hi Hp. by apply (addrs_lead _ _ i).
  - cbn [strings_va]. intros i s p Hi Hp. destruct (addrs_lead _ _ i s p Hi Hp) as [Hl _]. rewrite <-Hl. f_equal. lia.
Qed.

Lemma initial_stack_reads_back_witness :
  ∃ st t rva k1 k2,
    build_initial_stack 0x1000 (block 1000 [[97; 98]] [[120]] false true) [mkAux AT_PAGESZ 4096] (replicate 16 7) (replicate 115 1) = Ret (inl (st, t)) ∧
    t = words (stack_words (strings_va st) rva [[97; 98]] [[120]] [mkAux AT_PAGESZ 4096]) ++ replicate k1 0 ++ replicate 16 7 ++ replicate k2 0.
Proof.
  destruct (initial_stack_reads_back 1000 [[97; 98]] [[120]] false [mkAux AT_PAGESZ 4096] (replicate 16 7) (replicate 115 1) 0x1000)
    as (st & t & rva & k1 & k2 & H1 & H2 & _).
  - done.
  - repeat constructor; done.
  - by vm_compute.
  - by vm_compute.
  - done.
  - by exists 256.
  - done.
  - by vm_compute.
  - by vm_compute.
  - exists st, t, rva, k1, k2. exact (conj H1 H2).
Defined.
