(* ===== verification/FsError.v ===== *)
(** * The file system error (src/crates/core/src/fs/error.rs)

    One type for the VFS and every backend, with its conversion into the
    kernel's errno table. *)

From stdpp Require Import base decidable list.
From S2P Require Import Prelude Kerror.

Module FsError.

Inductive FsError :=
  | NotFound
  | Exists
  | NotDir
  | IsDir
  | Inval
  | NoSpace
  | Loop
  | NameTooLong
  | NotEmpty
  | Busy
  | Badf
  | NotSupp
  | Io
  | FileTooBig
  | NoMem
  | Again
  | Corrupt
  | NFile
  | Perm
  | SPipe
  | XDev
  | Acces
  | Stale
  | NxIo.

#[global] Instance FsError_eq_dec : EqDecision FsError.
Proof. solve_decision. Defined.

(** [impl From<FsError> for KError] *)
Definition to_kerror (e : FsError) : Kerror.KError :=
  match e with
  | NotFound | Stale => Kerror.NoEnt
  | Exists => Kerror.Exist
  | NotDir => Kerror.NotDir
  | IsDir => Kerror.IsDir
  | Inval => Kerror.Inval
  | NoSpace => Kerror.NoSpc
  | NFile => Kerror.NFile
  | FileTooBig => Kerror.FBig
  | Loop => Kerror.Loop
  | NameTooLong => Kerror.NameTooLong
  | NotEmpty => Kerror.NotEmpty
  | Busy => Kerror.Busy
  | Badf => Kerror.BadF
  | NotSupp => Kerror.OpNotSupp
  | Io | Corrupt => Kerror.Io
  | Perm => Kerror.Perm
  | SPipe => Kerror.SPipe
  | XDev => Kerror.XDev
  | Acces => Kerror.Acces
  | NxIo => Kerror.NxIo
  | NoMem => Kerror.NoMem
  | Again => Kerror.Again
  end.

End FsError.

(** ** Computations that fail with a file system error

    [outcome (A + FsError)] where nothing is mutated, [M S (A + FsError)] where
    state is: an error keeps the state reached. *)
Definition oebind {A B} (o : outcome (A + FsError.FsError)) (k : A → outcome (B + FsError.FsError)) :
    outcome (B + FsError.FsError) :=
  obind o (λ r, match r with inl a => k a | inr e => Ret (inr e) end).
Definition ebind {S A B} (m : M S (A + FsError.FsError)) (k : A → M S (B + FsError.FsError)) :
    M S (B + FsError.FsError) :=
  bind m (λ r, match r with inl a => k a | inr e => ret (inr e) end).
Definition ok {S A} (a : A) : M S (A + FsError.FsError) := ret (inl a).
Definition err {S A} (e : FsError.FsError) : M S (A + FsError.FsError) := ret (inr e).
(** [if b { return Err(e) }] *)
Definition bail_if {S} (b : bool) (e : FsError.FsError) : M S (unit + FsError.FsError) :=
  ret (if b then inr e else inl tt).

Notation "x <~? o ;; k" := (oebind o (λ x, k))
  (at level 20, o at level 99, k at level 200, right associativity) : kernel_scope.
Notation "x <-? m ;; k" := (ebind m (λ x, k))
  (at level 20, m at level 99, k at level 200, right associativity) : kernel_scope.
Notation "m ?;; k" := (ebind m (λ _, k))
  (at level 100, k at level 200, right associativity) : kernel_scope.

(** Weakest preconditions with a postcondition for each exit: [Q] for a value,
    [X] for an error.  Neither exit is a panic. *)
Definition ewp {S A} (m : M S (A + FsError.FsError)) (s : S) (Q : A → S → Prop) (X : FsError.FsError → S → Prop) : Prop :=
  wp m s (λ r s', match r with inl a => Q a s' | inr e => X e s' end).

Section ewp_rules.
Context {S : Type}.
Implicit Types (s : S) (X : FsError.FsError → S → Prop).

Lemma ewp_run {A} (m : M S (A + FsError.FsError)) s Q X :
  ewp m s Q X ↔ ∃ r s', m s = Ret (r, s') ∧ match r with inl a => Q a s' | inr e => X e s' end.
Proof. apply wp_run. Qed.
Lemma ewp_bind {A B} (m : M S (A + FsError.FsError)) (k : A → M S (B + FsError.FsError)) s Q X :
  ewp m s (λ a s', ewp (k a) s' Q X) X → ewp (ebind m k) s Q X.
Proof.
  intros H. apply wp_bind. eapply wp_mono; [exact H|]. cbn. intros [a|e] s'; [done|]. intros HX. by apply wp_ret.
Qed.
Lemma ewp_pbind {A B} (m : M S A) (k : A → M S (B + FsError.FsError)) s Q X :
  wp m s (λ a s', ewp (k a) s' Q X) → ewp (bind m k) s Q X.
Proof. apply wp_bind. Qed.
Lemma ewp_ok {A} (a : A) s Q X : Q a s → ewp (ok a) s Q X.
Proof. done. Qed.
Lemma ewp_err {A} e s (Q : A → S → Prop) X : X e s → ewp (err e) s Q X.
Proof. done. Qed.
Lemma ewp_ret {A} (r : A + FsError.FsError) s Q X :
  match r with inl a => Q a s | inr e => X e s end → ewp (ret r) s Q X.
Proof. done. Qed.
Lemma ewp_bail (b : bool) e s (Q : unit → S → Prop) X :
  (b = true → X e s) → (b = false → Q tt s) → ewp (bail_if b e) s Q X.
Proof. destruct b; intros; apply ewp_ret; auto. Qed.
Lemma ewp_lift {A} (o : outcome (A + FsError.FsError)) s Q X :
  owp o (λ r, match r with inl a => Q a s | inr e => X e s end) → ewp (lift o) s Q X.
Proof. intros H. unfold ewp. by apply wp_lift. Qed.
Lemma ewp_mono {A} (m : M S (A + FsError.FsError)) s (P Q : A → S → Prop) (Y X : FsError.FsError → S → Prop) :
  ewp m s P Y → (∀ a s', P a s' → Q a s') → (∀ e s', Y e s' → X e s') → ewp m s Q X.
Proof. intros H HQ HX. eapply wp_mono; [exact H|]. intros [a|e] s'; auto. Qed.
Lemma ewp_if {A} (b : bool) (m1 m2 : M S (A + FsError.FsError)) s Q X :
  (b = true → ewp m1 s Q X) → (b = false → ewp m2 s Q X) → ewp (if b then m1 else m2) s Q X.
Proof. destruct b; auto. Qed.
End ewp_rules.
