(* ===== verification/Vibefs.v ===== *)
(** * vibefs: on-disk format and volume tables (src/crates/core/src/fs/vibefs/)

    The constants, records and byte helpers of [mod.rs], the packing and parsing
    of [layout.rs], the block, inode and name tables of [vol.rs], and the [Disk]
    interface with its in-memory implementation ([disk.rs]).  A block is a list
    of bytes; a fixed-size array is a list whose length the volume's
    well-formedness fixes, and an index past it panics.  The test-only defect
    planting ([Plant]) is compiled out, as in the kernel. *)

From stdpp Require Import base strings numbers list.
From S2P Require Import Prelude Bytes Crc Buf FsError.

Local Open Scope Z_scope.

Module Vibefs.
Export FsError.
Abbreviation Error := FsError.FsError.

(** ** Constants *)
Definition VERSION : Z := 1.
Definition BLOCK : Z := 4096.
Definition MAGIC_SUPER : Z := 0x45424956.
Definition MAGIC_META : Z := 0x4B4C4256.
Definition MAX_BLOCKS : Z := 1024.
Definition MAX_INODES : Z := 64.
Definition MAX_DENTS : Z := 96.
Definition MAX_NAME : Z := 64.
Definition INLINE : Z := 128.
Definition MAX_EXT : Z := 4.
Definition MAX_SNAPS : Z := 4.
Definition ROOT_INO : Z := 1.
Definition MIN_BLOCKS : Z := 16.
Definition FLAG_DATA_CRC : Z := 1.
Definition F_INLINE : Z := 1.
Definition KIND_REG : Z := 1.
Definition KIND_DIR : Z := 2.
Definition KIND_LNK : Z := 3.
Definition META_ALLOC : Z := 1.
Definition META_INODE_LEAF : Z := 2.
Definition META_INODE_INT : Z := 3.
Definition META_DIR_LEAF : Z := 4.
Definition META_DIR_INT : Z := 5.
Definition INODE_REC : Z := 256.
Definition DENT_REC : Z := 72.
Definition HDR : Z := 32.
Definition INODE_PER_LEAF : Z := (BLOCK - HDR) / INODE_REC.
Definition DENT_PER_LEAF : Z := (BLOCK - HDR) / DENT_REC.
(** [a.div_ceil(b)] *)
Definition div_ceil (a b : Z) : Z := (a + b - 1) / b.
Definition MAX_META : Z := 1 + (div_ceil MAX_INODES INODE_PER_LEAF + 1) + (MAX_INODES + 2).
Definition MAX_DROP : Z := 96.
Definition SB_CRC_OFF : Z := 4092.
Definition MAX_FILE_SIZE : Z := (2 ^ 32 - 1) * BLOCK.

(** ** The disk *)

(** The [Disk] trait.  A call may fail; a read leaves in its buffer whatever the
    implementation put there. *)
Class Disk (D : Type) := {
  disk_nblocks : D → Z;
  read_block : Z → list Z → D → (unit + Error) * list Z * D;
  write_block : Z → list Z → D → (unit + Error) * D;
  flush : D → (unit + Error) * D;
}.

(** ** Words and checksums *)
Definition le16 (b : list Z) (o : Z) : outcome Z := load 2 b o.
Definition le32 (b : list Z) (o : Z) : outcome Z := load 4 b o.
Definition le64 (b : list Z) (o : Z) : outcome Z := load 8 b o.
Definition put16 (b : list Z) (o v : Z) : outcome (list Z) := save 2 b o v.
Definition put32 (b : list Z) (o v : Z) : outcome (list Z) := save 4 b o v.
Definition put64 (b : list Z) (o v : Z) : outcome (list Z) := save 8 b o v.

(** The loop of [crc_block] from index [i], over the bytes left. *)
Fixpoint crc_block_loop (buf : list Z) (i crc_off crc : Z) : Z :=
  match buf with
  | [] => crc
  | x :: buf =>
      let byte := if (crc_off <=? i) && (i <? crc_off + 4) then 0 else x in
      crc_block_loop buf (i + 1) crc_off (crc_byte crc byte)
  end.
Definition crc_block (buf : list Z) (crc_off : Z) : Z :=
  notw 32 (crc_block_loop buf 0 crc_off 0xFFFFFFFF).

Definition set_crc (buf : list Z) (crc_off : Z) : outcome (list Z) :=
  buf <~ put32 buf crc_off 0 ;;
  put32 buf crc_off (crc32_ieee buf).

Definition check_crc (buf : list Z) (crc_off : Z) : outcome (unit + Error) :=
  stored <~ le32 buf crc_off ;;
  Ret (if negb (stored =? crc_block buf crc_off) then inr Corrupt else inl tt).

(** ** Records *)
Inductive InodeKind := Reg | Dir | Lnk | Chr | Blk.
#[global] Instance InodeKind_eq_dec : EqDecision InodeKind.
Proof. solve_decision. Defined.

Record Extent := mkExtent { e_log : Z; e_phys : Z; e_len : Z; e_crc : Z }.
Definition Extent_EMPTY : Extent := mkExtent 0 0 0 0.

Record Snap := mkSnap {
  s_used : bool;
  s_name : list Z;
  s_generation : Z;
  s_inode_root : Z;
  s_alloc_root : Z;
  s_next_ino : Z;
}.
Definition Snap_EMPTY : Snap := mkSnap false (replicate 16 0) 0 0 0 0.

#[projections(primitive)]
Record Inode := mkInode {
  i_used : bool;
  i_ino : Z;
  i_kind : Z;
  i_flags : Z;
  i_mode : Z;
  i_nlink : Z;
  i_uid : Z;
  i_gid : Z;
  i_size : Z;
  i_atime : Z;
  i_mtime : Z;
  i_ctime : Z;
  i_dir_root : Z;
  i_n_ext : Z;
  i_inline_len : Z;
  i_extents : list Extent;
  i_inline_data : list Z;
}.
Definition Inode_EMPTY : Inode :=
  mkInode false 0 0 0 0 0 0 0 0 0 0 0 0 0 0 (replicate 4 Extent_EMPTY) (replicate 128 0).

Record Dent := mkDent {
  d_used : bool;
  d_parent : Z;
  d_ino : Z;
  d_kind : Z;
  d_nlen : Z;
  d_name : list Z;
}.
Definition Dent_EMPTY : Dent := mkDent false 0 0 0 0 (replicate 64 0).
(** [de.name()] *)
Definition dent_name (de : Dent) : outcome (list Z) := sub (d_name de) 0 (d_nlen de).

#[projections(primitive)]
Record Vol := mkVol {
  v_nblocks : Z;
  v_generation : Z;
  v_inode_root : Z;
  v_alloc_root : Z;
  v_next_ino : Z;
  v_root_ino : Z;
  v_uuid : list Z;
  v_label : list Z;
  v_flags : Z;
  v_dirty : bool;
  v_now : Z;
  v_bitmap : list Z;
  v_refc : list Z;
  v_txn : list Z;
  v_inodes : list Inode;
  v_dents : list Dent;
  v_snaps : list Snap;
  v_meta : list Z;
  v_nmeta : Z;
  v_drop : list Z;
  v_ndrop : Z;
  v_iobuf : list Z;
}.

(** Functional updates, one per field the code assigns. *)
Definition set_nblocks (v : Vol) (x : Z) : Vol :=
  mkVol x (v_generation v) (v_inode_root v) (v_alloc_root v) (v_next_ino v) (v_root_ino v) (v_uuid v)
    (v_label v) (v_flags v) (v_dirty v) (v_now v) (v_bitmap v) (v_refc v) (v_txn v) (v_inodes v) (v_dents v)
    (v_snaps v) (v_meta v) (v_nmeta v) (v_drop v) (v_ndrop v) (v_iobuf v).
Definition set_generation (v : Vol) (x : Z) : Vol :=
  mkVol (v_nblocks v) x (v_inode_root v) (v_alloc_root v) (v_next_ino v) (v_root_ino v) (v_uuid v) (v_label v)
    (v_flags v) (v_dirty v) (v_now v) (v_bitmap v) (v_refc v) (v_txn v) (v_inodes v) (v_dents v) (v_snaps v)
    (v_meta v) (v_nmeta v) (v_drop v) (v_ndrop v) (v_iobuf v).
Definition set_inode_root (v : Vol) (x : Z) : Vol :=
  mkVol (v_nblocks v) (v_generation v) x (v_alloc_root v) (v_next_ino v) (v_root_ino v) (v_uuid v) (v_label v)
    (v_flags v) (v_dirty v) (v_now v) (v_bitmap v) (v_refc v) (v_txn v) (v_inodes v) (v_dents v) (v_snaps v)
    (v_meta v) (v_nmeta v) (v_drop v) (v_ndrop v) (v_iobuf v).
Definition set_alloc_root (v : Vol) (x : Z) : Vol :=
  mkVol (v_nblocks v) (v_generation v) (v_inode_root v) x (v_next_ino v) (v_root_ino v) (v_uuid v) (v_label v)
    (v_flags v) (v_dirty v) (v_now v) (v_bitmap v) (v_refc v) (v_txn v) (v_inodes v) (v_dents v) (v_snaps v)
    (v_meta v) (v_nmeta v) (v_drop v) (v_ndrop v) (v_iobuf v).
Definition set_next_ino (v : Vol) (x : Z) : Vol :=
  mkVol (v_nblocks v) (v_generation v) (v_inode_root v) (v_alloc_root v) x (v_root_ino v) (v_uuid v)
    (v_label v) (v_flags v) (v_dirty v) (v_now v) (v_bitmap v) (v_refc v) (v_txn v) (v_inodes v) (v_dents v)
    (v_snaps v) (v_meta v) (v_nmeta v) (v_drop v) (v_ndrop v) (v_iobuf v).
Definition set_root_ino (v : Vol) (x : Z) : Vol :=
  mkVol (v_nblocks v) (v_generation v) (v_inode_root v) (v_alloc_root v) (v_next_ino v) x (v_uuid v)
    (v_label v) (v_flags v) (v_dirty v) (v_now v) (v_bitmap v) (v_refc v) (v_txn v) (v_inodes v) (v_dents v)
    (v_snaps v) (v_meta v) (v_nmeta v) (v_drop v) (v_ndrop v) (v_iobuf v).
Definition set_uuid (v : Vol) (x : list Z) : Vol :=
  mkVol (v_nblocks v) (v_generation v) (v_inode_root v) (v_alloc_root v) (v_next_ino v) (v_root_ino v) x
    (v_label v) (v_flags v) (v_dirty v) (v_now v) (v_bitmap v) (v_refc v) (v_txn v) (v_inodes v) (v_dents v)
    (v_snaps v) (v_meta v) (v_nmeta v) (v_drop v) (v_ndrop v) (v_iobuf v).
Definition set_label (v : Vol) (x : list Z) : Vol :=
  mkVol (v_nblocks v) (v_generation v) (v_inode_root v) (v_alloc_root v) (v_next_ino v) (v_root_ino v)
    (v_uuid v) x (v_flags v) (v_dirty v) (v_now v) (v_bitmap v) (v_refc v) (v_txn v) (v_inodes v) (v_dents v)
    (v_snaps v) (v_meta v) (v_nmeta v) (v_drop v) (v_ndrop v) (v_iobuf v).
Definition set_flags (v : Vol) (x : Z) : Vol :=
  mkVol (v_nblocks v) (v_generation v) (v_inode_root v) (v_alloc_root v) (v_next_ino v) (v_root_ino v)
    (v_uuid v) (v_label v) x (v_dirty v) (v_now v) (v_bitmap v) (v_refc v) (v_txn v) (v_inodes v) (v_dents v)
    (v_snaps v) (v_meta v) (v_nmeta v) (v_drop v) (v_ndrop v) (v_iobuf v).
Definition set_dirty (v : Vol) (x : bool) : Vol :=
  mkVol (v_nblocks v) (v_generation v) (v_inode_root v) (v_alloc_root v) (v_next_ino v) (v_root_ino v)
    (v_uuid v) (v_label v) (v_flags v) x (v_now v) (v_bitmap v) (v_refc v) (v_txn v) (v_inodes v) (v_dents v)
    (v_snaps v) (v_meta v) (v_nmeta v) (v_drop v) (v_ndrop v) (v_iobuf v).
Definition set_bitmap (v : Vol) (x : list Z) : Vol :=
  mkVol (v_nblocks v) (v_generation v) (v_inode_root v) (v_alloc_root v) (v_next_ino v) (v_root_ino v)
    (v_uuid v) (v_label v) (v_flags v) (v_dirty v) (v_now v) x (v_refc v) (v_txn v) (v_inodes v) (v_dents v)
    (v_snaps v) (v_meta v) (v_nmeta v) (v_drop v) (v_ndrop v) (v_iobuf v).
Definition set_refc (v : Vol) (x : list Z) : Vol :=
  mkVol (v_nblocks v) (v_generation v) (v_inode_root v) (v_alloc_root v) (v_next_ino v) (v_root_ino v)
    (v_uuid v) (v_label v) (v_flags v) (v_dirty v) (v_now v) (v_bitmap v) x (v_txn v) (v_inodes v) (v_dents v)
    (v_snaps v) (v_meta v) (v_nmeta v) (v_drop v) (v_ndrop v) (v_iobuf v).
Definition set_txn (v : Vol) (x : list Z) : Vol :=
  mkVol (v_nblocks v) (v_generation v) (v_inode_root v) (v_alloc_root v) (v_next_ino v) (v_root_ino v)
    (v_uuid v) (v_label v) (v_flags v) (v_dirty v) (v_now v) (v_bitmap v) (v_refc v) x (v_inodes v) (v_dents v)
    (v_snaps v) (v_meta v) (v_nmeta v) (v_drop v) (v_ndrop v) (v_iobuf v).
Definition set_inodes (v : Vol) (x : list Inode) : Vol :=
  mkVol (v_nblocks v) (v_generation v) (v_inode_root v) (v_alloc_root v) (v_next_ino v) (v_root_ino v)
    (v_uuid v) (v_label v) (v_flags v) (v_dirty v) (v_now v) (v_bitmap v) (v_refc v) (v_txn v) x (v_dents v)
    (v_snaps v) (v_meta v) (v_nmeta v) (v_drop v) (v_ndrop v) (v_iobuf v).
Definition set_dents (v : Vol) (x : list Dent) : Vol :=
  mkVol (v_nblocks v) (v_generation v) (v_inode_root v) (v_alloc_root v) (v_next_ino v) (v_root_ino v)
    (v_uuid v) (v_label v) (v_flags v) (v_dirty v) (v_now v) (v_bitmap v) (v_refc v) (v_txn v) (v_inodes v) x
    (v_snaps v) (v_meta v) (v_nmeta v) (v_drop v) (v_ndrop v) (v_iobuf v).
Definition set_snaps (v : Vol) (x : list Snap) : Vol :=
  mkVol (v_nblocks v) (v_generation v) (v_inode_root v) (v_alloc_root v) (v_next_ino v) (v_root_ino v)
    (v_uuid v) (v_label v) (v_flags v) (v_dirty v) (v_now v) (v_bitmap v) (v_refc v) (v_txn v) (v_inodes v)
    (v_dents v) x (v_meta v) (v_nmeta v) (v_drop v) (v_ndrop v) (v_iobuf v).
Definition set_meta (v : Vol) (x : list Z) : Vol :=
  mkVol (v_nblocks v) (v_generation v) (v_inode_root v) (v_alloc_root v) (v_next_ino v) (v_root_ino v)
    (v_uuid v) (v_label v) (v_flags v) (v_dirty v) (v_now v) (v_bitmap v) (v_refc v) (v_txn v) (v_inodes v)
    (v_dents v) (v_snaps v) x (v_nmeta v) (v_drop v) (v_ndrop v) (v_iobuf v).
Definition set_nmeta (v : Vol) (x : Z) : Vol :=
  mkVol (v_nblocks v) (v_generation v) (v_inode_root v) (v_alloc_root v) (v_next_ino v) (v_root_ino v)
    (v_uuid v) (v_label v) (v_flags v) (v_dirty v) (v_now v) (v_bitmap v) (v_refc v) (v_txn v) (v_inodes v)
    (v_dents v) (v_snaps v) (v_meta v) x (v_drop v) (v_ndrop v) (v_iobuf v).
Definition set_drop (v : Vol) (x : list Z) : Vol :=
  mkVol (v_nblocks v) (v_generation v) (v_inode_root v) (v_alloc_root v) (v_next_ino v) (v_root_ino v)
    (v_uuid v) (v_label v) (v_flags v) (v_dirty v) (v_now v) (v_bitmap v) (v_refc v) (v_txn v) (v_inodes v)
    (v_dents v) (v_snaps v) (v_meta v) (v_nmeta v) x (v_ndrop v) (v_iobuf v).
Definition set_ndrop (v : Vol) (x : Z) : Vol :=
  mkVol (v_nblocks v) (v_generation v) (v_inode_root v) (v_alloc_root v) (v_next_ino v) (v_root_ino v)
    (v_uuid v) (v_label v) (v_flags v) (v_dirty v) (v_now v) (v_bitmap v) (v_refc v) (v_txn v) (v_inodes v)
    (v_dents v) (v_snaps v) (v_meta v) (v_nmeta v) (v_drop v) x (v_iobuf v).
Definition set_iobuf (v : Vol) (x : list Z) : Vol :=
  mkVol (v_nblocks v) (v_generation v) (v_inode_root v) (v_alloc_root v) (v_next_ino v) (v_root_ino v)
    (v_uuid v) (v_label v) (v_flags v) (v_dirty v) (v_now v) (v_bitmap v) (v_refc v) (v_txn v) (v_inodes v)
    (v_dents v) (v_snaps v) (v_meta v) (v_nmeta v) (v_drop v) (v_ndrop v) x.

Record SuperInfo := mkSuper {
  sb_generation : Z;
  sb_nblocks : Z;
  sb_inode_root : Z;
  sb_alloc_root : Z;
  sb_next_ino : Z;
  sb_root_ino : Z;
  sb_flags : Z;
  sb_uuid : list Z;
  sb_label : list Z;
  sb_snaps : list Snap;
}.

Definition kind_of (k : Z) : InodeKind + Error :=
  if k =? KIND_REG then inl Reg else if k =? KIND_DIR then inl Dir
  else if k =? KIND_LNK then inl Lnk else inr Corrupt.
Definition kind_to (k : InodeKind) : Z :=
  match k with Reg => KIND_REG | Dir => KIND_DIR | Lnk => KIND_LNK | Chr | Blk => KIND_REG end.

(** ** Bit maps, names and references *)
Definition bit_get (map : list Z) (i : Z) : outcome bool :=
  x <~ index map (i / 8) ;;
  Ret (negb (Z.land (Z.shiftr x (i mod 8)) 1 =? 0)).
Definition bit_set (map : list Z) (i : Z) (v : bool) : outcome (list Z) :=
  x <~ index map (i / 8) ;;
  store map (i / 8) (if v then Z.lor x (Z.shiftl 1 (i mod 8)) else Z.land x (notw 8 (Z.shiftl 1 (i mod 8)))).

Definition name_ok (n : list Z) : unit + Error :=
  _ <! refuse_if (zlen n =? 0) Inval ;;
  _ <! refuse_if (MAX_NAME <? zlen n) NameTooLong ;;
  _ <! refuse_if (existsb (λ c, (c =? 0) || (c =? 47)) n) Inval ;;
  refuse_if (bool_decide (n = [46]) || bool_decide (n = [46; 46])) Inval.

(** [a.cmp(b)] on byte strings, whether it is [Greater]. *)
Fixpoint name_gt (a b : list Z) : bool :=
  match a, b with
  | [], _ => false
  | _ :: _, [] => true
  | x :: a, y :: b => if x =? y then name_gt a b else y <? x
  end.

(** Bitmap and reference counts, as [drop_ref] borrows them. *)
Definition drop_ref (nblocks b : Z) (m : list Z * list Z) : list Z * list Z :=
  let '(bitmap, refc) := m in
  if (b <? 2) || (nblocks <=? b) then m else
  match refc !! Z.to_nat b with
  | None => m
  | Some r =>
      if r =? 0 then m else
      let refc := <[Z.to_nat b := r - 1]> refc in
      if r - 1 =? 0 then
        match bitmap !! Z.to_nat (b / 8) with
        | Some byte => (<[Z.to_nat (b / 8) := Z.land byte (notw 8 (Z.shiftl 1 (b mod 8)))]> bitmap, refc)
        | None => (bitmap, refc)
        end
      else (bitmap, refc)
  end.
Definition drop_refs (nblocks : Z) (bs : list Z) (m : list Z * list Z) : list Z * list Z :=
  fold_left (λ m b, drop_ref nblocks b m) bs m.

(** ** layout.rs: inodes *)
Definition pack_extent (rec : Inode) (i : Z) (buf : list Z) : outcome (list Z) :=
  let o := 60 + i * 16 in
  e <~ index (i_extents rec) i ;;
  buf <~ put32 buf o (e_log e) ;;
  buf <~ put32 buf (o + 4) (e_phys e) ;;
  buf <~ put32 buf (o + 8) (e_len e) ;;
  put32 buf (o + 12) (e_crc e).

Definition pack_inode (buf : list Z) (rec : Inode) : outcome (list Z) :=
  buf <~ copy_into buf 0 (replicate (Z.to_nat INODE_REC) 0) ;;
  buf <~ put32 buf 0 (i_ino rec) ;;
  buf <~ store buf 4 (i_kind rec) ;;
  buf <~ store buf 5 (i_flags rec) ;;
  buf <~ put16 buf 6 (i_mode rec) ;;
  buf <~ put32 buf 8 (i_nlink rec) ;;
  buf <~ put32 buf 12 (i_uid rec) ;;
  buf <~ put32 buf 16 (i_gid rec) ;;
  buf <~ put64 buf 20 (i_size rec) ;;
  buf <~ put64 buf 28 (i_atime rec) ;;
  buf <~ put64 buf 36 (i_mtime rec) ;;
  buf <~ put64 buf 44 (i_ctime rec) ;;
  buf <~ put32 buf 52 (i_dir_root rec) ;;
  buf <~ store buf 56 (i_n_ext rec) ;;
  buf <~ store buf 57 (i_inline_len rec) ;;
  buf <~ ofor (range 0 MAX_EXT) (pack_extent rec) buf ;;
  copy_into buf 128 (i_inline_data rec).

Definition unpack_extent (buf : list Z) (i : Z) (l : list Extent) : outcome (list Extent) :=
  let o := 60 + i * 16 in
  log <~ le32 buf o ;;
  phys <~ le32 buf (o + 4) ;;
  len <~ le32 buf (o + 8) ;;
  crc <~ le32 buf (o + 12) ;;
  store l i (mkExtent log phys len crc).

Definition unpack_inode (buf : list Z) : outcome (Inode + Error) :=
  ino <~ le32 buf 0 ;;
  kind <~ index buf 4 ;;
  flags <~ index buf 5 ;;
  mode <~ le16 buf 6 ;;
  nlink <~ le32 buf 8 ;;
  uid <~ le32 buf 12 ;;
  gid <~ le32 buf 16 ;;
  size <~ le64 buf 20 ;;
  atime <~ le64 buf 28 ;;
  mtime <~ le64 buf 36 ;;
  ctime <~ le64 buf 44 ;;
  dir_root <~ le32 buf 52 ;;
  n_ext <~ index buf 56 ;;
  inline_len <~ index buf 57 ;;
  if (MAX_EXT <? n_ext) || (INLINE <? inline_len) then Ret (inr Corrupt) else
  match kind_of kind with
  | inr e => Ret (inr e)
  | inl _ =>
      extents <~ ofor (range 0 MAX_EXT) (unpack_extent buf) (i_extents Inode_EMPTY) ;;
      inline_data <~ sub buf 128 INLINE ;;
      Ret (inl (mkInode true ino kind flags mode nlink uid gid size atime mtime ctime dir_root n_ext
        inline_len extents inline_data))
  end.

(** ** layout.rs: metadata blocks *)
Definition meta_hdr (buf : list Z) (kind level count g owner : Z) : outcome (list Z) :=
  let buf := replicate (length buf) 0 in
  buf <~ put32 buf 0 MAGIC_META ;;
  buf <~ store buf 4 kind ;;
  buf <~ store buf 5 level ;;
  buf <~ put16 buf 6 count ;;
  buf <~ put64 buf 8 g ;;
  buf <~ put32 buf 16 0 ;;
  put32 buf 20 owner.

Definition finish_meta (buf : list Z) : outcome (list Z) := set_crc buf 16.

Definition parse_meta (buf : list Z) (want : Z) : outcome ((Z * Z * Z) + Error) :=
  magic <~ le32 buf 0 ;;
  if negb (magic =? MAGIC_META) then Ret (inr Corrupt) else
  _ <~? check_crc buf 16 ;;
  kind <~ index buf 4 ;;
  if negb (kind =? want) then Ret (inr Corrupt) else
  level <~ index buf 5 ;;
  count <~ le16 buf 6 ;;
  owner <~ le32 buf 20 ;;
  Ret (inl (level, count, owner)).

(** ** layout.rs: superblocks *)
Definition count_used_snaps (snaps : list Snap) : Z := zlen (filter (λ s, s_used s = true) snaps).

Definition pack_snap (snaps : list Snap) (i : Z) (buf : list Z) : outcome (list Z) :=
  let o := 96 + i * 40 in
  s <~ index snaps i ;;
  buf <~ copy_into buf o (s_name s) ;;
  buf <~ put64 buf (o + 16) (s_generation s) ;;
  buf <~ put32 buf (o + 24) (s_inode_root s) ;;
  buf <~ put32 buf (o + 28) (s_alloc_root s) ;;
  put32 buf (o + 32) (s_next_ino s).

(** [pack_super_parts], with the parts read from the volume as [pack_super] and
    [super_into_iobuf] do. *)
Definition pack_super (buf : list Z) (v : Vol) (slot : Z) : outcome (list Z) :=
  let buf := replicate (length buf) 0 in
  buf <~ put32 buf 0 MAGIC_SUPER ;;
  buf <~ put16 buf 4 VERSION ;;
  buf <~ store buf 6 slot ;;
  buf <~ store buf 7 (v_flags v) ;;
  buf <~ put32 buf 8 BLOCK ;;
  buf <~ put32 buf 12 (v_nblocks v) ;;
  buf <~ put64 buf 16 (v_generation v) ;;
  buf <~ put32 buf 24 (v_inode_root v) ;;
  buf <~ put32 buf 28 (v_alloc_root v) ;;
  buf <~ put32 buf 32 (v_next_ino v) ;;
  buf <~ put32 buf 36 (v_root_ino v) ;;
  buf <~ copy_into buf 40 (v_uuid v) ;;
  buf <~ copy_into buf 56 (v_label v) ;;
  buf <~ store buf 88 (count_used_snaps (v_snaps v)) ;;
  buf <~ ofor (range 0 MAX_SNAPS) (pack_snap (v_snaps v)) buf ;;
  set_crc buf SB_CRC_OFF.

Definition parse_snap (buf : list Z) (ns i : Z) (l : list Snap) : outcome (list Snap) :=
  let o := 96 + i * 40 in
  name <~ sub buf o 16 ;;
  generation <~ le64 buf (o + 16) ;;
  inode_root <~ le32 buf (o + 24) ;;
  alloc_root <~ le32 buf (o + 28) ;;
  next_ino <~ le32 buf (o + 32) ;;
  store l i (mkSnap ((i <? ns) && negb (inode_root =? 0)) name generation inode_root alloc_root next_ino).

Definition parse_super (buf : list Z) (slot : Z) : outcome (SuperInfo + Error) :=
  magic <~ le32 buf 0 ;;
  if negb (magic =? MAGIC_SUPER) then Ret (inr Corrupt) else
  _ <~? check_crc buf SB_CRC_OFF ;;
  version <~ le16 buf 4 ;;
  if negb (version =? VERSION) then Ret (inr Inval) else
  sl <~ index buf 6 ;;
  if negb (sl =? slot) then Ret (inr Corrupt) else
  bs <~ le32 buf 8 ;;
  if negb (bs =? BLOCK) then Ret (inr Inval) else
  nblocks <~ le32 buf 12 ;;
  if (nblocks <? MIN_BLOCKS) || (MAX_BLOCKS <? nblocks) then Ret (inr Inval) else
  uuid <~ sub buf 40 16 ;;
  label <~ sub buf 56 32 ;;
  ns <~ index buf 88 ;;
  if MAX_SNAPS <? ns then Ret (inr Corrupt) else
  snaps <~ ofor (range 0 MAX_SNAPS) (parse_snap buf ns) (replicate (Z.to_nat MAX_SNAPS) Snap_EMPTY) ;;
  generation <~ le64 buf 16 ;;
  inode_root <~ le32 buf 24 ;;
  alloc_root <~ le32 buf 28 ;;
  next_ino <~ le32 buf 32 ;;
  root_ino <~ le32 buf 36 ;;
  flags <~ index buf 7 ;;
  Ret (inl (mkSuper generation nblocks inode_root alloc_root next_ino root_ino flags uuid label snaps)).

(** Whether slot [slot]'s superblock [s] replaces the best one so far. *)
Definition take_super (best : option SuperInfo) (slot : Z) (s : SuperInfo) : bool :=
  match best with
  | None => true
  | Some b => (sb_generation b <? sb_generation s) || ((sb_generation s =? sb_generation b) && (slot =? 0))
  end.

Fixpoint pick_slots `{Disk D} (slots : list Z) (best : option SuperInfo) (buf : list Z) (d : D) :
    outcome ((option SuperInfo + Error) * list Z * D) :=
  match slots with
  | [] => Ret (inl best, buf, d)
  | slot :: slots =>
      let '(r, buf, d) := read_block slot buf d in
      match r with
      | inr e => Ret (inr e, buf, d)
      | inl _ =>
          p <~ parse_super buf slot ;;
          let best := match p with
                      | inl s => if take_super best slot s then Some s else best
                      | inr _ => best
                      end in
          pick_slots slots best buf d
      end
  end.

Definition pick_super `{Disk D} (buf : list Z) (d : D) : outcome ((SuperInfo + Error) * list Z * D) :=
  r <~ pick_slots (range 0 2) None buf d ;;
  let '(r, buf, d) := r in
  Ret (best <! r ;; ok_or best Corrupt, buf, d).

Definition probe `{Disk D} (d : D) : outcome (bool * D) :=
  r <~ pick_super (replicate (Z.to_nat BLOCK) 0) d ;;
  let '(r, _, d) := r in
  Ret (match r with inl _ => true | inr _ => false end, d).

(** ** layout.rs: the allocation map *)
Definition alloc_into (buf : list Z) (nblocks generation : Z) (bitmap_src refc_src dropped old_meta : list Z) :
    outcome (list Z) :=
  let nbytes := div_ceil nblocks 8 in
  buf <~ meta_hdr buf META_ALLOC 0 (wrap 16 nblocks) generation 0 ;;
  bm <~ sub bitmap_src 0 nbytes ;;
  buf <~ copy_into buf HDR bm ;;
  rc <~ sub refc_src 0 nblocks ;;
  buf <~ copy_into buf (HDR + nbytes) rc ;;
  bitmap <~ sub buf HDR nbytes ;;
  refc <~ sub buf (HDR + nbytes) nblocks ;;
  let '(bitmap, refc) := drop_refs nblocks (old_meta ++ dropped) (bitmap, refc) in
  buf <~ copy_into buf HDR bitmap ;;
  buf <~ copy_into buf (HDR + nbytes) refc ;;
  finish_meta buf.

Definition write_alloc_into (v : Vol) (old_meta buf : list Z) : outcome (list Z) :=
  drop <~ sub (v_drop v) 0 (v_ndrop v) ;;
  alloc_into buf (v_nblocks v) (v_generation v) (v_bitmap v) (v_refc v) drop old_meta.

(** ** Computations on a volume *)
Abbreviation VM A := (M Vol (A + Error)).

Definition alloc_into_iobuf (old_meta : list Z) : VM unit :=
  v <- get ;;
  buf <- lift (write_alloc_into v old_meta (v_iobuf v)) ;;
  modify (λ v, set_iobuf v buf) ;;
  ok tt.

Definition super_into_iobuf (slot : Z) : VM unit :=
  v <- get ;;
  buf <- lift (pack_super (v_iobuf v) v slot) ;;
  modify (λ v, set_iobuf v buf) ;;
  ok tt.

Definition load_alloc : VM unit :=
  v <- get ;;
  let buf := v_iobuf v in
  let nblocks := v_nblocks v in
  _ <-? lift (parse_meta buf META_ALLOC) ;;
  let nbytes := div_ceil nblocks 8 in
  if BLOCK <? HDR + nbytes + nblocks then err Corrupt else
  bm <- lift (sub buf HDR nbytes) ;;
  bitmap <- lift (copy_into (v_bitmap v) 0 bm) ;;
  modify (λ v, set_bitmap v bitmap) ;;
  rc <- lift (sub buf (HDR + nbytes) nblocks) ;;
  refc <- lift (copy_into (v_refc v) 0 rc) ;;
  modify (λ v, set_refc v refc) ;;
  ok tt.

(** ** vol.rs *)

(** [Vol::new], and [clear], which writes the same values in place. *)
Definition Vol_new : Vol :=
  mkVol 0 0 0 0 2 ROOT_INO (replicate 16 0) (replicate 32 0) FLAG_DATA_CRC false 0
    (replicate (Z.to_nat (div_ceil MAX_BLOCKS 8)) 0) (replicate (Z.to_nat MAX_BLOCKS) 0)
    (replicate (Z.to_nat (div_ceil MAX_BLOCKS 8)) 0) (replicate (Z.to_nat MAX_INODES) Inode_EMPTY)
    (replicate (Z.to_nat MAX_DENTS) Dent_EMPTY) (replicate (Z.to_nat MAX_SNAPS) Snap_EMPTY)
    (replicate (Z.to_nat MAX_META) 0) 0 (replicate (Z.to_nat MAX_DROP) 0) 0 (replicate (Z.to_nat BLOCK) 0).
Definition clear : M Vol unit := put Vol_new.

Definition mark_meta (bno : Z) : VM unit :=
  v <- get ;;
  if MAX_META <=? v_nmeta v then err NoSpace else
  meta <- lift (store (v_meta v) (v_nmeta v) bno) ;;
  nmeta <- lift (addc 8 (v_nmeta v) 1) ;;
  modify (λ v, set_nmeta (set_meta v meta) nmeta) ;;
  ok tt.

Definition pending_drop (bno : Z) : VM unit :=
  if bno <? 2 then ok tt else
  v <- get ;;
  t <- lift (bit_get (v_txn v) bno) ;;
  if (t : bool) then
    r <- lift (index (v_refc v) bno) ;;
    let r := if 0 <? r then r - 1 else r in
    refc <- lift (store (v_refc v) bno r) ;;
    modify (λ v, set_refc v refc) ;;
    (if r =? 0 then bm <- lift (bit_set (v_bitmap v) bno false) ;; modify (λ v, set_bitmap v bm) else ret tt) ;;
    txn <- lift (bit_set (v_txn v) bno false) ;;
    modify (λ v, set_txn v txn) ;;
    ok tt
  else
  if MAX_DROP <=? v_ndrop v then err NoSpace else
  drop <- lift (store (v_drop v) (v_ndrop v) bno) ;;
  ndrop <- lift (addc 8 (v_ndrop v) 1) ;;
  modify (λ v, set_ndrop (set_drop v drop) ndrop) ;;
  ok tt.

Definition drops_needed (v : Vol) (phys len : Z) : outcome Z :=
  ofor (range 0 len) (λ b n,
    match checked_add 32 phys b with
    | None => Ret n
    | Some bno => if 2 <=? bno then t <~ bit_get (v_txn v) bno ;; Ret (if (t : bool) then n else n + 1) else Ret n
    end) 0.

Definition drop_room (v : Vol) (n : Z) : unit + Error := refuse_if (MAX_DROP <? v_ndrop v + n) NoSpace.

(** The first block of [l] that has no reference. *)
Fixpoint first_free (refc : list Z) (l : list Z) : outcome (option Z) :=
  match l with
  | [] => Ret None
  | i :: l => r <~ index refc i ;; if r =? 0 then Ret (Some i) else first_free refc l
  end.

Definition alloc_block : VM Z :=
  v <- get ;;
  f <- lift (first_free (v_refc v) (range 2 (v_nblocks v))) ;;
  match f with
  | None => err NoSpace
  | Some i =>
      refc <- lift (store (v_refc v) i 1) ;;
      bitmap <- lift (bit_set (v_bitmap v) i true) ;;
      txn <- lift (bit_set (v_txn v) i true) ;;
      modify (λ v, set_txn (set_bitmap (set_refc v refc) bitmap) txn) ;;
      ok i
  end.

Definition free_count (v : Vol) : outcome Z :=
  ofor (range 2 (v_nblocks v)) (λ i n, r <~ index (v_refc v) i ;; Ret (if r =? 0 then n + 1 else n)) 0.

(** The index of the first element that satisfies [p]. *)
Fixpoint position_from {A} (p : A → bool) (l : list A) (i : Z) : option Z :=
  match l with [] => None | x :: l => if p x then Some i else position_from p l (i + 1) end.

Definition inode_slot (v : Vol) (ino : Z) : Z + Error :=
  ok_or (position_from (λ r, i_used r && (i_ino r =? ino)) (v_inodes v) 0) NotFound.
Definition alloc_ino_slot (v : Vol) : Z + Error :=
  ok_or (position_from (λ r, negb (i_used r)) (v_inodes v) 0) NoSpace.
Definition alloc_dent (v : Vol) : Z + Error :=
  ok_or (position_from (λ r, negb (d_used r)) (v_dents v) 0) NoSpace.

Fixpoint find_dent_from (parent : Z) (name : list Z) (l : list Dent) (i : Z) : outcome (Z + Error) :=
  match l with
  | [] => Ret (inr NotFound)
  | de :: l =>
      if d_used de && (d_parent de =? parent) then
        n <~ dent_name de ;;
        if bool_decide (n = name) then Ret (inl i) else find_dent_from parent name l (i + 1)
      else find_dent_from parent name l (i + 1)
  end.
Definition find_dent (v : Vol) (parent : Z) (name : list Z) : outcome (Z + Error) :=
  find_dent_from parent name (v_dents v) 0.

Definition dir_count (v : Vol) (parent : Z) : Z :=
  zlen (filter (λ de, d_used de && (d_parent de =? parent) = true) (v_dents v)).

Record Node := mkNode {
  n_ino : Z;
  n_kind : InodeKind;
  n_size : Z;
  n_mode : Z;
  n_nlink : Z;
  n_atime : Z;
  n_mtime : Z;
  n_ctime : Z;
  n_name_len : Z;
  n_name : list Z;
}.

Definition node_from (v : Vol) (ino : Z) (name : list Z) : outcome (Node + Error) :=
  s <~? Ret (inode_slot v ino) ;;
  r <~ index (v_inodes v) s ;;
  kind <~? Ret (kind_of (i_kind r)) ;;
  let set t := if negb (t =? 0) then t else i_mtime r in
  let l := Z.min (zlen name) MAX_NAME in
  src <~ sub name 0 l ;;
  nm <~ copy_into (replicate (Z.to_nat MAX_NAME) 0) 0 src ;;
  Ret (inl (mkNode (i_ino r) kind (i_size r) (i_mode r) (i_nlink r) (set (i_atime r)) (i_mtime r)
    (set (i_ctime r)) l nm)).

(** Updates of one inode record. *)
Definition set_times (r : Inode) (mtime ctime : Z) : Inode :=
  mkInode (i_used r) (i_ino r) (i_kind r) (i_flags r) (i_mode r) (i_nlink r) (i_uid r) (i_gid r) (i_size r)
    (i_atime r) mtime ctime (i_dir_root r) (i_n_ext r) (i_inline_len r) (i_extents r) (i_inline_data r).
Definition put_inode (s : Z) (r : Inode) : M Vol unit :=
  v <- get ;;
  inodes <- lift (store (v_inodes v) s r) ;;
  modify (λ v, set_inodes v inodes).

Definition bump_mtime (ino : Z) : M Vol unit :=
  v <- get ;;
  (match inode_slot v ino with
   | inl s =>
       r <- lift (index (v_inodes v) s) ;;
       let t := if negb (v_now v =? 0) then v_now v else saturating_add 64 (i_mtime r) 1 in
       put_inode s (set_times r t t)
   | inr _ => ret tt
   end) ;;
  modify (λ v, set_dirty v true).

Definition bump_ctime (ino : Z) : M Vol unit :=
  v <- get ;;
  (if negb (v_now v =? 0) then
     match inode_slot v ino with
     | inl s => r <- lift (index (v_inodes v) s) ;; put_inode s (set_times r (i_mtime r) (v_now v))
     | inr _ => ret tt
     end
   else ret tt) ;;
  modify (λ v, set_dirty v true).

Definition df (v : Vol) : outcome (Z * Z * Z) :=
  tot <~ mulc 64 (v_nblocks v) BLOCK ;;
  free <~ free_count v ;;
  free <~ mulc 64 free BLOCK ;;
  Ret (tot, free, v_nblocks v).

(** ** disk.rs: the in-memory disk *)
Record MemDisk := mkMemDisk { md_data : list Z }.

Definition MemDisk_new (data : list Z) : MemDisk + Error :=
  _ <! refuse_if ((zlen data <? MIN_BLOCKS * BLOCK) || negb (zlen data mod BLOCK =? 0)) Inval ;;
  _ <! refuse_if (MAX_BLOCKS <? zlen data / BLOCK) Inval ;;
  inl (mkMemDisk data).

(** The byte range of a block. *)
Definition md_range (md : MemDisk) (bno : Z) : Z + Error :=
  let off := bno * BLOCK in
  _ <! refuse_if (2 ^ 64 <=? off) Inval ;;
  _ <! refuse_if (2 ^ 64 <=? off + BLOCK) Inval ;;
  _ <! refuse_if (zlen (md_data md) <? off + BLOCK) Io ;;
  inl off.

#[global] Instance MemDisk_Disk : Disk MemDisk := {
  disk_nblocks md := zlen (md_data md) / BLOCK;
  read_block bno buf md :=
    match md_range md bno with
    | inr e => (inr e, buf, md)
    | inl off => (inl tt, take (Z.to_nat BLOCK) (drop (Z.to_nat off) (md_data md)), md)
    end;
  write_block bno buf md :=
    match md_range md bno with
    | inr e => (inr e, md)
    | inl off => (inl tt, mkMemDisk (splice (md_data md) off buf))
    end;
  flush md := (inl tt, md);
}.

End Vibefs.
