(* ===== verification/VibefsCommit.v ===== *)
(** * vibefs: commit, mount and mkfs (src/crates/core/src/fs/vibefs/)

    [commit.rs] and [mkfs.rs], over any disk: a commit writes a whole new
    metadata tree into free blocks, flushes, writes the superblock slot of the
    new generation and flushes again; mount picks the newer superblock and loads
    the tables back. *)

From stdpp Require Import base strings numbers list.
From S2P Require Import Prelude Bytes Crc Buf FsError Vibefs.

Local Open Scope Z_scope.

Module VibefsCommit.
Export Vibefs.

Section commit.
Context `{Disk D}.

(** Computations on a volume and its disk. *)
Abbreviation FM A := (M (Vol * D) (A + Error)).

Definition onvol {A} (m : M Vol A) : M (Vol * D) A :=
  λ s, r <~ m (fst s) ;; Ret (fst r, (snd r, snd s)).
Definition getv : M (Vol * D) Vol := gets fst.
Definition setbuf (buf : list Z) : M (Vol * D) unit := onvol (modify (λ v, set_iobuf v buf)).

(** [d.read_block(bno, &mut self.iobuf)?], [d.write_block(bno, &self.iobuf)?] and
    [d.flush()?] *)
Definition read_iobuf (bno : Z) : FM unit :=
  λ s, let '(r, buf, d) := read_block bno (v_iobuf (fst s)) (snd s) in Ret (r, (set_iobuf (fst s) buf, d)).
Definition write_buf (bno : Z) (buf : list Z) : FM unit :=
  λ s, let '(r, d) := write_block bno buf (snd s) in Ret (r, (fst s, d)).
Definition write_iobuf (bno : Z) : FM unit := λ s, write_buf bno (v_iobuf (fst s)) s.
Definition flush_disk : FM unit := λ s, let '(r, d) := flush (snd s) in Ret (r, (fst s, d)).

(** A loop whose body may return early with an error. *)
Fixpoint efor {S A} (l : list A) (f : A → M S (unit + Error)) : M S (unit + Error) :=
  match l with [] => ok tt | x :: l => f x ?;; efor l f end.

(** ** Counting the blocks a commit needs *)
Definition count_used_inodes (v : Vol) : Z := zlen (filter (λ r, i_used r = true) (v_inodes v)).

Definition inode_need (n : Z) : Z * Z :=
  if n =? 0 then (1, 0) else
  let leaves := div_ceil n INODE_PER_LEAF in
  (leaves, if 1 <? leaves then 1 else 0).

Definition dir_need (n : Z) : Z * Z :=
  if n =? 0 then (0, 0) else
  let leaves := div_ceil n DENT_PER_LEAF in
  (leaves, if 1 <? leaves then 1 else 0).

Definition is_dir (r : Inode) : bool := i_used r && (i_kind r =? KIND_DIR).

Definition dir_blocks (v : Vol) : Z :=
  fold_left (λ n r, if is_dir r then let '(l, t) := dir_need (dir_count v (i_ino r)) in n + (l + t) else n)
    (v_inodes v) 0.

(** ** Collecting and sorting *)

(** The indices of the elements that satisfy [p], into [out] from [n] on. *)
Fixpoint collect {A} (p : A → bool) (l : list A) (i : Z) (out : list Z) (n : Z) : outcome (list Z * Z) :=
  match l with
  | [] => Ret (out, n)
  | x :: l =>
      if p x then out <~ store out n i ;; collect p l (i + 1) out (n + 1)
      else collect p l (i + 1) out n
  end.

(** The inner loop of the insertion sort: [gt] compares two indices. *)
Fixpoint sift (gt : Z → Z → outcome bool) (b : nat) (out : list Z) : outcome (list Z) :=
  match b with
  | O => Ret out
  | S b' =>
      x <~ index out (Z.of_nat b') ;;
      y <~ index out (Z.of_nat b) ;;
      g <~ gt x y ;;
      if (g : bool) then
        out <~ store out (Z.of_nat b') y ;;
        out <~ store out (Z.of_nat b) x ;;
        sift gt b' out
      else Ret out
  end.
Definition insertion_sort (gt : Z → Z → outcome bool) (n : Z) (out : list Z) : outcome (list Z) :=
  ofor (range 1 n) (λ a out, sift gt (Z.to_nat a) out) out.

Definition collect_inodes (v : Vol) (out : list Z) : outcome (list Z * Z) :=
  r <~ collect i_used (v_inodes v) 0 out 0 ;;
  let '(out, n) := r in
  out <~ insertion_sort (λ x y,
           a <~ index (v_inodes v) x ;;
           b <~ index (v_inodes v) y ;;
           Ret (i_ino b <? i_ino a)) n out ;;
  Ret (out, n).

Definition collect_dents (v : Vol) (parent : Z) (out : list Z) : outcome (list Z * Z) :=
  r <~ collect (λ de, d_used de && (d_parent de =? parent)) (v_dents v) 0 out 0 ;;
  let '(out, n) := r in
  out <~ insertion_sort (λ x y,
           a <~ index (v_dents v) x ;;
           an <~ dent_name a ;;
           b <~ index (v_dents v) y ;;
           bn <~ dent_name b ;;
           Ret (name_gt an bn)) n out ;;
  Ret (out, n).

(** ** Allocating the new metadata *)

(** [new_meta] and [n_new], the blocks this commit has allocated. *)
Definition NewMeta : Type := list Z * Z.
(** [*new_meta.get_mut(n_new).ok_or(NoSpace)? = b; n_new += 1] *)
Definition push_new (nm : NewMeta) (b : Z) : NewMeta + Error :=
  match fst nm !! Z.to_nat (snd nm) with
  | None => inr NoSpace
  | Some _ => inl (<[Z.to_nat (snd nm) := b]> (fst nm), snd nm + 1)
  end.

Definition alloc_meta (nm : NewMeta) : VM (Z * NewMeta) :=
  b <-? alloc_block ;;
  nm <-? ret (push_new nm b) ;;
  ok (b, nm).

(** One new block per leaf, into [leaf] ([ileaf] or [dleaf]). *)
Fixpoint alloc_leaves (ks : list Z) (leaf : list Z) (nm : NewMeta) : VM (list Z * NewMeta) :=
  match ks with
  | [] => ok (leaf, nm)
  | k :: ks =>
      b <-? alloc_block ;;
      leaf <- lift (store leaf k b) ;;
      nm <-? ret (push_new nm b) ;;
      alloc_leaves ks leaf nm
  end.

(** The leaves and, past one, the internal node over them: leaves, root, table. *)
Definition alloc_tree (leaves ints : Z) (nm : NewMeta) : VM (list Z * Z * NewMeta) :=
  r <-? alloc_leaves (range 0 leaves) (replicate 8 0) nm ;;
  let '(leaf, nm) := r in
  if 0 <? ints then
    r <-? alloc_meta nm ;;
    let '(b, nm) := r in
    ok (leaf, b, nm)
  else
    b <- lift (index leaf 0) ;;
    ok (leaf, b, nm).

(** ** Directory trees *)
Definition put_dent (v : Vol) (dents : list Z) (start e : Z) (buf : list Z) : outcome (list Z) :=
  j <~ index dents (start + e) ;;
  de <~ index (v_dents v) j ;;
  let o := HDR + e * DENT_REC in
  buf <~ put32 buf o (d_ino de) ;;
  buf <~ store buf (o + 4) (d_kind de) ;;
  buf <~ store buf (o + 5) (d_nlen de) ;;
  copy_into buf (o + 6) (d_name de).

(** The leaf of [dents[start..end]]. *)
Definition dir_leaf_into (v : Vol) (dents : list Z) (start end_ next_gen ino : Z) (buf : list Z) : outcome (list Z) :=
  count <~ subc 64 end_ start ;;
  buf <~ meta_hdr buf META_DIR_LEAF 0 (wrap 16 count) next_gen ino ;;
  buf <~ ofor (range 0 (end_ - start)) (put_dent v dents start) buf ;;
  finish_meta buf.

Definition put_dir_key (v : Vol) (dents dleaf : list Z) (k : Z) (buf : list Z) : outcome (list Z) :=
  j <~ index dents (k * DENT_PER_LEAF) ;;
  de <~ index (v_dents v) j ;;
  let o := HDR + k * DENT_REC in
  b <~ index dleaf k ;;
  buf <~ put32 buf o b ;;
  buf <~ store buf (o + 4) (d_nlen de) ;;
  buf <~ store buf (o + 5) 0 ;;
  copy_into buf (o + 6) (d_name de).

Definition dir_int_into (v : Vol) (dents dleaf : list Z) (leaves next_gen ino : Z) (buf : list Z) : outcome (list Z) :=
  buf <~ meta_hdr buf META_DIR_INT 1 (wrap 16 leaves) next_gen ino ;;
  buf <~ ofor (range 0 leaves) (put_dir_key v dents dleaf) buf ;;
  finish_meta buf.

Definition write_dir_leaf (dents dleaf : list Z) (nd next_gen ino k : Z) : FM unit :=
  v <- getv ;;
  let start := k * DENT_PER_LEAF in
  let end_ := Z.min (start + DENT_PER_LEAF) nd in
  buf <- lift (dir_leaf_into v dents start end_ next_gen ino (v_iobuf v)) ;;
  setbuf buf ;;
  b <- lift (index dleaf k) ;;
  write_iobuf b.

(** The tree of the directory in slot [li]; its root goes into [dir_roots]. *)
Definition write_dir (next_gen li : Z) (dir_roots : list Z) (nm : NewMeta) : FM (list Z * NewMeta) :=
  v <- getv ;;
  r <- lift (index (v_inodes v) li) ;;
  if is_dir r then
    let ino := i_ino r in
    c <- lift (collect_dents v ino (replicate (Z.to_nat MAX_DENTS) 0)) ;;
    let '(dents, nd) := c in
    if nd =? 0 then
      dir_roots <- lift (store dir_roots li 0) ;;
      ok (dir_roots, nm)
    else
    let '(leaves, ints) := dir_need nd in
    t <-? onvol (alloc_tree leaves ints nm) ;;
    let '(dleaf, droot, nm) := t in
    efor (range 0 leaves) (write_dir_leaf dents dleaf nd next_gen ino) ?;;
    (if 0 <? ints then
       v <- getv ;;
       buf <- lift (dir_int_into v dents dleaf leaves next_gen ino (v_iobuf v)) ;;
       setbuf buf ;;
       write_iobuf droot
     else ok tt) ?;;
    dir_roots <- lift (store dir_roots li droot) ;;
    ok (dir_roots, nm)
  else ok (dir_roots, nm).

Fixpoint write_dirs (next_gen : Z) (lis : list Z) (dir_roots : list Z) (nm : NewMeta) : FM (list Z * NewMeta) :=
  match lis with
  | [] => ok (dir_roots, nm)
  | li :: lis =>
      r <-? write_dir next_gen li dir_roots nm ;;
      let '(dir_roots, nm) := r in
      write_dirs next_gen lis dir_roots nm
  end.

Definition with_dir_root (r : Inode) (root : Z) : Inode :=
  mkInode (i_used r) (i_ino r) (i_kind r) (i_flags r) (i_mode r) (i_nlink r) (i_uid r) (i_gid r) (i_size r)
    (i_atime r) (i_mtime r) (i_ctime r) root (i_n_ext r) (i_inline_len r) (i_extents r) (i_inline_data r).
Definition set_dir_roots (dir_roots : list Z) (v : Vol) : outcome Vol :=
  inodes <~ ofor (range 0 MAX_INODES) (λ ii inodes,
    r <~ index inodes ii ;;
    if is_dir r then root <~ index dir_roots ii ;; store inodes ii (with_dir_root r root) else Ret inodes)
    (v_inodes v) ;;
  Ret (set_inodes v inodes).

(** ** The inode tree *)
Definition put_inode_rec (v : Vol) (idx : list Z) (start e : Z) (buf : list Z) : outcome (list Z) :=
  j <~ index idx (start + e) ;;
  rec <~ index (v_inodes v) j ;;
  let o := HDR + e * INODE_REC in
  tail <~ sub buf o (zlen buf - o) ;;
  tail <~ pack_inode tail rec ;;
  copy_into buf o tail.

Definition inode_leaf_into (v : Vol) (idx : list Z) (ni li next_gen : Z) (buf : list Z) : outcome (list Z) :=
  let start := li * INODE_PER_LEAF in
  let end_ := Z.min (start + INODE_PER_LEAF) (Z.max ni 1) in
  count <~ (if ni =? 0 then Ret 0 else subc 64 end_ start) ;;
  buf <~ meta_hdr buf META_INODE_LEAF 0 (wrap 16 count) next_gen 0 ;;
  buf <~ (if 0 <? ni then ofor (range 0 (end_ - start)) (put_inode_rec v idx start) buf else Ret buf) ;;
  finish_meta buf.

Definition write_inode_leaf (idx ileaf : list Z) (ni next_gen li : Z) : FM unit :=
  v <- getv ;;
  buf <- lift (inode_leaf_into v idx ni li next_gen (v_iobuf v)) ;;
  setbuf buf ;;
  b <- lift (index ileaf li) ;;
  write_iobuf b.

Definition put_inode_key (v : Vol) (idx ileaf : list Z) (ni li : Z) (buf : list Z) : outcome (list Z) :=
  key <~ (if ni =? 0 then Ret ROOT_INO else
          j <~ index idx (li * INODE_PER_LEAF) ;; r <~ index (v_inodes v) j ;; Ret (i_ino r)) ;;
  let o := HDR + li * 8 in
  buf <~ put32 buf o key ;;
  b <~ index ileaf li ;;
  put32 buf (o + 4) b.

Definition inode_int_into (v : Vol) (idx ileaf : list Z) (ni ileaves next_gen : Z) (buf : list Z) : outcome (list Z) :=
  buf <~ meta_hdr buf META_INODE_INT 1 (wrap 16 ileaves) next_gen 0 ;;
  buf <~ ofor (range 0 ileaves) (put_inode_key v idx ileaf ni) buf ;;
  finish_meta buf.

(** ** The commit *)

(** Steps 1 to 3: every block of the new tree but the allocation map. *)
Definition write_tree (next_gen ileaves iints : Z) : FM (Z * Z * NewMeta) :=
  a <-? onvol (alloc_meta (replicate (Z.to_nat MAX_META) 0, 0)) ;;
  let '(alloc_bno, nm) := a in
  t <-? onvol (alloc_tree ileaves iints nm) ;;
  let '(ileaf, iroot, nm) := t in
  v <- getv ;;
  c <- lift (collect_inodes v (replicate (Z.to_nat MAX_INODES) 0)) ;;
  let '(idx, ni) := c in
  r <-? write_dirs next_gen (range 0 MAX_INODES) (replicate (Z.to_nat MAX_INODES) 0) nm ;;
  let '(dir_roots, nm) := r in
  v <- getv ;;
  v <- lift (set_dir_roots dir_roots v) ;;
  onvol (put v) ;;
  efor (range 0 ileaves) (write_inode_leaf idx ileaf ni next_gen) ?;;
  (if 0 <? iints then
     v <- getv ;;
     buf <- lift (inode_int_into v idx ileaf ni ileaves next_gen (v_iobuf v)) ;;
     setbuf buf ;;
     write_iobuf iroot
   else ok tt) ?;;
  ok (alloc_bno, iroot, nm).

(** Step 7, in memory. *)
Definition finish_commit (old_meta : list Z) (nm : NewMeta) (need : Z) : VM unit :=
  v <- get ;;
  dropped <- lift (sub (v_drop v) 0 (v_ndrop v)) ;;
  let '(bitmap, refc) := drop_refs (v_nblocks v) (old_meta ++ dropped) (v_bitmap v, v_refc v) in
  modify (λ v, set_nmeta (set_txn (set_ndrop (set_refc (set_bitmap v bitmap) refc) 0)
    (replicate (Z.to_nat (div_ceil MAX_BLOCKS 8)) 0)) 0) ;;
  assert (snd nm =? need) "assertion `left == right` failed" ;;
  new <- lift (sub (fst nm) 0 (snd nm)) ;;
  efor new mark_meta ?;;
  modify (λ v, set_dirty v false) ;;
  ok tt.

Definition commit : FM unit :=
  v <- getv ;;
  next_gen <-? ret (ok_or (checked_add 64 (v_generation v) 1) Corrupt) ;;
  let '(ileaves, iints) := inode_need (Z.max (count_used_inodes v) 1) in
  let need := 1 + ileaves + iints + dir_blocks v in
  bail_if (MAX_META <? need) NoSpace ?;;
  free <- lift (free_count v) ;;
  bail_if (free <? need) NoSpace ?;;
  old_meta <- lift (sub (v_meta v) 0 (v_nmeta v)) ;;
  t <-? write_tree next_gen ileaves iints ;;
  let '(alloc_bno, iroot, nm) := t in
  onvol (modify (λ v, set_alloc_root (set_inode_root (set_generation v next_gen) iroot) alloc_bno)) ;;
  onvol (alloc_into_iobuf old_meta) ?;;
  write_iobuf alloc_bno ?;;
  flush_disk ?;;
  let slot := next_gen mod 2 in
  onvol (super_into_iobuf slot) ?;;
  write_iobuf slot ?;;
  flush_disk ?;;
  onvol (finish_commit old_meta nm need).

Definition sync : FM unit :=
  v <- getv ;;
  if negb (v_dirty v) then flush_disk else commit.

(** One more reference to every block in use. *)
Definition ref_all (v : Vol) : outcome (list Z) :=
  ofor (range 0 (v_nblocks v)) (λ b refc,
    r <~ index refc b ;; if (0 <? r) && (r <? 255) then store refc b (r + 1) else Ret refc) (v_refc v).

Definition snapshot (name : list Z) : FM unit :=
  bail_if ((zlen name =? 0) || (16 <? zlen name)) Inval ?;;
  v <- getv ;;
  (if v_dirty v then sync else ok tt) ?;;
  v <- getv ;;
  i <-? ret (ok_or (position_from (λ s, negb (s_used s)) (v_snaps v) 0) NoSpace) ;;
  nm <- lift (copy_into (replicate 16 0) 0 name) ;;
  snaps <- lift (store (v_snaps v) i
    (mkSnap true nm (v_generation v) (v_inode_root v) (v_alloc_root v) (v_next_ino v))) ;;
  onvol (modify (λ v, set_snaps v snaps)) ;;
  refc <- lift (ref_all v) ;;
  onvol (modify (λ v, set_dirty (set_refc v refc) true)) ;;
  sync.

(** ** Mount *)
Definition load_inode (e : Z) : VM unit :=
  v <- get ;;
  let o := HDR + e * INODE_REC in
  tail <- lift (sub (v_iobuf v) o (zlen (v_iobuf v) - o)) ;;
  rec <-? lift (unpack_inode tail) ;;
  slot <-? ret (alloc_ino_slot v) ;;
  inodes <- lift (store (v_inodes v) slot rec) ;;
  modify (λ v, set_inodes v inodes) ;;
  ok tt.

Definition load_inode_leaf : VM unit :=
  v <- get ;;
  h <-? lift (parse_meta (v_iobuf v) META_INODE_LEAF) ;;
  let '(_, count, _) := h in
  efor (range 0 count) load_inode.

Definition load_dent (parent e : Z) : VM unit :=
  v <- get ;;
  let buf := v_iobuf v in
  let o := HDR + e * DENT_REC in
  nlen <- lift (index buf (o + 5)) ;;
  bail_if ((MAX_NAME <? nlen) || (nlen =? 0)) Corrupt ?;;
  name <- lift (sub buf (o + 6) MAX_NAME) ;;
  ino <- lift (le32 buf o) ;;
  kind <- lift (index buf (o + 4)) ;;
  de <-? ret (alloc_dent v) ;;
  dents <- lift (store (v_dents v) de (mkDent true parent ino kind nlen name)) ;;
  modify (λ v, set_dents v dents) ;;
  ok tt.

Definition load_dir_leaf (parent : Z) : VM unit :=
  v <- get ;;
  h <-? lift (parse_meta (v_iobuf v) META_DIR_LEAF) ;;
  let '(_, count, _) := h in
  efor (range 0 count) (load_dent parent).

(** The child blocks of an internal node, whose entries are [stride] bytes with
    the child at [at_]; at most 8 are kept. *)
Definition node_kids (buf : list Z) (count stride at_ : Z) : outcome (list Z) :=
  ofor (range 0 (Z.min count 8)) (λ i kids,
    b <~ le32 buf (HDR + i * stride + at_) ;; store kids i b) (replicate 8 0).

Definition load_kid (leaf : VM unit) (kids : list Z) (i : Z) : FM unit :=
  b <- lift (index kids i) ;;
  read_iobuf b ?;;
  onvol (mark_meta b) ?;;
  onvol leaf.

Definition load_inode_tree : FM unit :=
  v <- getv ;;
  let root := v_inode_root v in
  read_iobuf root ?;;
  v <- getv ;;
  kind <- lift (index (v_iobuf v) 4) ;;
  if kind =? META_INODE_LEAF then
    lift (check_crc (v_iobuf v) 16) ?;;
    onvol (mark_meta root) ?;;
    onvol load_inode_leaf
  else if kind =? META_INODE_INT then
    lift (parse_meta (v_iobuf v) META_INODE_INT) ?;;
    onvol (mark_meta root) ?;;
    count <- lift (le16 (v_iobuf v) 6) ;;
    kids <- lift (node_kids (v_iobuf v) count 8 4) ;;
    efor (range 0 (Z.min count 8)) (load_kid load_inode_leaf kids)
  else err Corrupt.

Definition load_dir (i : Z) : FM unit :=
  v <- getv ;;
  r <- lift (index (v_inodes v) i) ;;
  let root := i_dir_root r in
  let ino := i_ino r in
  if is_dir r && negb (root =? 0) then
    read_iobuf root ?;;
    v <- getv ;;
    k <- lift (index (v_iobuf v) 4) ;;
    if k =? META_DIR_LEAF then
      onvol (mark_meta root) ?;;
      onvol (load_dir_leaf ino)
    else if k =? META_DIR_INT then
      lift (parse_meta (v_iobuf v) META_DIR_INT) ?;;
      onvol (mark_meta root) ?;;
      count <- lift (le16 (v_iobuf v) 6) ;;
      kids <- lift (node_kids (v_iobuf v) count DENT_REC 0) ;;
      efor (range 0 (Z.min count 8)) (load_kid (load_dir_leaf ino) kids)
    else err Corrupt
  else ok tt.

(** [pick_super(d, &mut v.iobuf)?] *)
Definition pick_super_iobuf : FM SuperInfo :=
  λ s, r <~ pick_super (v_iobuf (fst s)) (snd s) ;;
       let '(r, buf, d) := r in Ret (r, (set_iobuf (fst s) buf, d)).

(** The fields mount takes from the superblock. *)
Definition from_super (sb : SuperInfo) (v : Vol) : Vol :=
  let v := set_generation (set_nblocks v (sb_nblocks sb)) (sb_generation sb) in
  let v := set_alloc_root (set_inode_root v (sb_inode_root sb)) (sb_alloc_root sb) in
  let v := set_root_ino (set_next_ino v (sb_next_ino sb)) (sb_root_ino sb) in
  let v := set_uuid (set_flags v (sb_flags sb)) (sb_uuid sb) in
  set_dirty (set_snaps (set_label v (sb_label sb)) (sb_snaps sb)) false.

Definition mount : FM unit :=
  onvol clear ;;
  sb <-? pick_super_iobuf ;;
  s <- get ;;
  let n := disk_nblocks (snd s) in
  bail_if (negb (sb_nblocks sb =? n) && (n <? sb_nblocks sb)) Inval ?;;
  onvol (modify (from_super sb)) ;;
  read_iobuf (sb_alloc_root sb) ?;;
  onvol load_alloc ?;;
  onvol (mark_meta (sb_alloc_root sb)) ?;;
  load_inode_tree ?;;
  efor (range 0 MAX_INODES) load_dir ?;;
  v <- getv ;;
  ret (match inode_slot v (v_root_ino v) with inl _ => inl tt | inr _ => inr Corrupt end).

(** ** mkfs *)
Definition mkfs_root : Inode :=
  mkInode true ROOT_INO KIND_DIR 0 493 1 0 0 0 0 0 0 0 0 0 (replicate 4 Extent_EMPTY) (replicate 128 0).

(** The volume before its blocks are written. *)
Definition mkfs_vol (nblocks : Z) (label : list Z) : outcome Vol :=
  let v := set_root_ino (set_flags (set_generation (set_nblocks Vol_new nblocks) 1) FLAG_DATA_CRC) ROOT_INO in
  let v := set_next_ino v 2 in
  let n := Z.min (zlen label) 32 in
  src <~ sub label 0 n ;;
  lab <~ copy_into (v_label v) 0 src ;;
  uuid <~ store (v_uuid v) 0 0x76 ;;
  uuid <~ store uuid 1 0x31 ;;
  uuid <~ put32 uuid 4 nblocks ;;
  m <~ ofor (range 0 4) (λ b m,
    refc <~ store (fst m) b 1 ;;
    bitmap <~ bit_set (snd m) b true ;;
    Ret (refc, bitmap)) (v_refc v, v_bitmap v) ;;
  inodes <~ store (v_inodes v) 0 mkfs_root ;;
  let v := set_bitmap (set_refc (set_uuid (set_label v lab) uuid) (fst m)) (snd m) in
  Ret (set_inodes (set_inode_root (set_alloc_root v 2) 3) inodes).

Definition mkfs (label : list Z) : FM unit :=
  s <- get ;;
  let nblocks := disk_nblocks (snd s) in
  bail_if ((nblocks <? MIN_BLOCKS) || (MAX_BLOCKS <? nblocks)) Inval ?;;
  v <- lift (mkfs_vol nblocks label) ;;
  onvol (put v) ;;
  buf <- lift (meta_hdr (v_iobuf v) META_INODE_LEAF 0 1 1 0) ;;
  r <- lift (index (v_inodes v) 0) ;;
  tail <- lift (sub buf HDR (zlen buf - HDR)) ;;
  tail <- lift (pack_inode tail r) ;;
  buf <- lift (copy_into buf HDR tail) ;;
  buf <- lift (finish_meta buf) ;;
  setbuf buf ;;
  write_iobuf 3 ?;;
  v <- getv ;;
  sbuf <- lift (write_alloc_into v [] (replicate (Z.to_nat BLOCK) 0)) ;;
  write_buf 2 sbuf ?;;
  sbuf <- lift (pack_super sbuf v 0) ;;
  write_buf 0 sbuf ?;;
  sbuf <- lift (pack_super sbuf v 1) ;;
  write_buf 1 sbuf ?;;
  flush_disk.

End commit.
End VibefsCommit.
