(* ===== verification/VibefsOps.v ===== *)
(** * vibefs: file operations (src/crates/core/src/fs/vibefs/ops.rs)

    Names (lookup, walk, readdir, create, unlink, rename) on the volume's tables,
    and file contents (read, write, truncate) through extents of checksummed
    blocks.  Data is never overwritten in place: a write goes to a block that is
    free, and the block it replaces is dropped by the next commit. *)

From stdpp Require Import base strings numbers list.
From S2P Require Import Prelude Bytes Crc Buf FsError Vibefs VibefsCommit.

Local Open Scope Z_scope.

Module VibefsOps.
Export VibefsCommit.

(** ** Updates of one record *)
Definition i_with_nlink (r : Inode) (x : Z) : Inode :=
  mkInode (i_used r) (i_ino r) (i_kind r) (i_flags r) (i_mode r) x (i_uid r) (i_gid r) (i_size r)
    (i_atime r) (i_mtime r) (i_ctime r) (i_dir_root r) (i_n_ext r) (i_inline_len r) (i_extents r) (i_inline_data r).
Definition i_with_size (r : Inode) (x : Z) : Inode :=
  mkInode (i_used r) (i_ino r) (i_kind r) (i_flags r) (i_mode r) (i_nlink r) (i_uid r) (i_gid r) x
    (i_atime r) (i_mtime r) (i_ctime r) (i_dir_root r) (i_n_ext r) (i_inline_len r) (i_extents r) (i_inline_data r).
Definition i_with_flags (r : Inode) (x : Z) : Inode :=
  mkInode (i_used r) (i_ino r) (i_kind r) x (i_mode r) (i_nlink r) (i_uid r) (i_gid r) (i_size r)
    (i_atime r) (i_mtime r) (i_ctime r) (i_dir_root r) (i_n_ext r) (i_inline_len r) (i_extents r) (i_inline_data r).
Definition i_with_extents (r : Inode) (n : Z) (x : list Extent) : Inode :=
  mkInode (i_used r) (i_ino r) (i_kind r) (i_flags r) (i_mode r) (i_nlink r) (i_uid r) (i_gid r) (i_size r)
    (i_atime r) (i_mtime r) (i_ctime r) (i_dir_root r) n (i_inline_len r) x (i_inline_data r).
Definition i_with_inline (r : Inode) (n : Z) (x : list Z) : Inode :=
  mkInode (i_used r) (i_ino r) (i_kind r) (i_flags r) (i_mode r) (i_nlink r) (i_uid r) (i_gid r) (i_size r)
    (i_atime r) (i_mtime r) (i_ctime r) (i_dir_root r) (i_n_ext r) n (i_extents r) x.

(** [self.inodes[is]] read, and updated in place. *)
Definition inode_at (is_ : Z) : M Vol Inode := v <- get ;; lift (index (v_inodes v) is_).
Definition upd_inode (is_ : Z) (f : Inode → Inode) : M Vol unit := r <- inode_at is_ ;; put_inode is_ (f r).
Definition put_dent_at (e : Z) (de : Dent) : M Vol unit :=
  v <- get ;;
  dents <- lift (store (v_dents v) e de) ;;
  modify (λ v, set_dents v dents).

(** A name in the fixed array of a directory entry. *)
Definition name_array (name : list Z) : outcome (list Z) := copy_into (replicate (Z.to_nat MAX_NAME) 0) 0 name.

(** ** Names *)

(** The slot of [dir], a directory. *)
Definition dir_slot (dir : Z) : VM Z :=
  v <- get ;;
  ds <-? ret (inode_slot v dir) ;;
  r <- inode_at ds ;;
  bail_if (negb (i_kind r =? KIND_DIR)) NotDir ?;;
  ok ds.

Definition lookup (dir : Z) (name : list Z) : VM Node :=
  _ <-? ret (name_ok name) ;;
  _ <-? dir_slot dir ;;
  v <- get ;;
  e <-? lift (find_dent v dir name) ;;
  de <- lift (index (v_dents v) e) ;;
  lift (node_from v (d_ino de) name).

(** The position of the first [/] of [p], or its length. *)
Fixpoint slash_at (p : list Z) : nat :=
  match p with [] => O | c :: p => if c =? 47 then O else S (slash_at p) end.

Fixpoint walk_from (fuel : nat) (dir : Z) (p : list Z) : VM Node :=
  match fuel with
  | O => no_fuel
  | S fuel =>
      let i := slash_at p in
      let comp := take i p in
      bail_if (zlen comp =? 0) Inval ?;;
      n <-? lookup dir comp ;;
      if Nat.eqb i (length p) then ok n else
      bail_if (negb (bool_decide (n_kind n = Dir))) NotDir ?;;
      let p := drop (S i) p in
      if zlen p =? 0 then ok n else walk_from fuel (n_ino n) p
  end.

Definition walk (path : list Z) : VM Node :=
  v <- get ;;
  if bool_decide (path = []) || bool_decide (path = [47]) then lift (node_from v (v_root_ino v) [47]) else
  let p := match path with c :: p => if c =? 47 then p else path | [] => path end in
  walk_from (S (length p)) (v_root_ino v) p.

(** The first used entry of [dir] at or after index [i]. *)
Fixpoint next_dent (dir : Z) (l : list Dent) (i : Z) : option Z :=
  match l with
  | [] => None
  | de :: l => if d_used de && (d_parent de =? dir) then Some i else next_dent dir l (i + 1)
  end.

Definition readdir (dir cookie : Z) : VM (option (Z * Node)) :=
  _ <-? dir_slot dir ;;
  v <- get ;;
  match next_dent dir (drop (Z.to_nat cookie) (v_dents v)) cookie with
  | None => ok None
  | Some i =>
      de <- lift (index (v_dents v) i) ;;
      name <- lift (dent_name de) ;;
      n <-? lift (node_from v (d_ino de) name) ;;
      ok (Some (i + 1, n))
  end.

(** The target a new symbolic link keeps inline. *)
Definition link_target (kind : InodeKind) (target : option (list Z)) : option (list Z) + Error :=
  match kind with
  | Lnk => match target with
           | None => inr Inval
           | Some t => if (zlen t =? 0) || (INLINE <? zlen t) then inr Inval else inl (Some t)
           end
  | _ => inl None
  end.

Definition new_inode (v : Vol) (ino : Z) (kind : InodeKind) (mode : Z) (t : option (list Z)) : outcome Inode :=
  let flags := if bool_decide (kind = Dir) then 0 else F_INLINE in
  let rec := mkInode true ino (kind_to kind) flags mode 1 0 0 0 (v_now v) (v_now v) (v_now v) 0 0 0
    (i_extents Inode_EMPTY) (i_inline_data Inode_EMPTY) in
  match t with
  | None => Ret rec
  | Some t =>
      data <~ copy_into (i_inline_data rec) 0 t ;;
      Ret (i_with_inline (i_with_size rec (zlen t)) (wrap 8 (zlen t)) data)
  end.

Definition create (dir : Z) (name : list Z) (kind : InodeKind) (mode : Z) (target : option (list Z)) : VM Node :=
  _ <-? ret (name_ok name) ;;
  _ <-? dir_slot dir ;;
  v <- get ;;
  found <- lift (find_dent v dir name) ;;
  bail_if (match found with inl _ => true | inr _ => false end) Exists ?;;
  t <-? ret (link_target kind target) ;;
  bail_if (bool_decide (kind = Chr) || bool_decide (kind = Blk)) Perm ?;;
  let ino := v_next_ino v in
  next <-? ret (ok_or (checked_add 32 ino 1) NoSpace) ;;
  bail_if (ino =? 0) NoSpace ?;;
  slot <-? ret (alloc_ino_slot v) ;;
  de <-? ret (alloc_dent v) ;;
  modify (λ v, set_next_ino v next) ;;
  rec <- lift (new_inode v ino kind mode t) ;;
  put_inode slot rec ;;
  nm <- lift (name_array name) ;;
  put_dent_at de (mkDent true dir ino (i_kind rec) (wrap 8 (zlen name)) nm) ;;
  bump_mtime dir ;;
  v <- get ;;
  lift (node_from v ino name).

(** Queue the blocks [phys .. phys + len). *)
Definition drop_extent (phys from len : Z) : VM unit :=
  efor (range from len) (λ b, bno <- lift (addc 32 phys b) ;; pending_drop bno).

Definition extents_of (r : Inode) : list Extent := take (Z.to_nat (Z.min (i_n_ext r) MAX_EXT)) (i_extents r).

Definition count_drops (v : Vol) (es : list Extent) : outcome Z :=
  ofor es (λ e drops, n <~ drops_needed v (e_phys e) (e_len e) ;; addc 64 drops n) 0.

Definition free_inode_data (ino : Z) : VM unit :=
  v <- get ;;
  is_ <-? ret (inode_slot v ino) ;;
  r <- inode_at is_ ;;
  drops <- lift (count_drops v (extents_of r)) ;;
  _ <-? ret (drop_room v drops) ;;
  efor (extents_of r) (λ e, drop_extent (e_phys e) 0 (e_len e)).

Definition unlink (dir : Z) (name : list Z) (rmdir : bool) : VM unit :=
  _ <-? ret (name_ok name) ;;
  _ <-? dir_slot dir ;;
  v <- get ;;
  e <-? lift (find_dent v dir name) ;;
  de <- lift (index (v_dents v) e) ;;
  let ino := d_ino de in
  is_ <-? ret (inode_slot v ino) ;;
  r <- inode_at is_ ;;
  (if rmdir then
     bail_if (negb (i_kind r =? KIND_DIR)) NotDir ?;;
     bail_if (negb (dir_count v ino =? 0)) NotEmpty
   else bail_if (i_kind r =? KIND_DIR) IsDir) ?;;
  let nlink := saturating_sub (i_nlink r) 1 in
  (if nlink =? 0 then free_inode_data ino else ok tt) ?;;
  put_dent_at e Dent_EMPTY ;;
  upd_inode is_ (λ r, i_with_nlink r nlink) ;;
  (if nlink =? 0 then upd_inode is_ (λ _, Inode_EMPTY) else bump_ctime ino) ;;
  bump_mtime dir ;;
  ok tt.

(** Whether directory [cur] is [top] or lies below it; [steps] names may still be
    followed up. *)
Fixpoint in_subtree_from (v : Vol) (steps : nat) (top cur : Z) : bool + Error :=
  if cur =? top then inl true else
  if cur =? v_root_ino v then inl false else
  match steps with
  | O => inr Corrupt
  | S steps =>
      match list_find (λ de, d_used de && (d_ino de =? cur) = true) (v_dents v) with
      | None => inr Corrupt
      | Some (_, up) => in_subtree_from v steps top (d_parent up)
      end
  end.
Definition in_subtree (v : Vol) (top dir : Z) : bool + Error := in_subtree_from v (Z.to_nat MAX_INODES) top dir.

Definition rename (src_dir : Z) (src_name : list Z) (dst_dir : Z) (dst_name : list Z) : VM unit :=
  _ <-? ret (name_ok src_name) ;;
  _ <-? ret (name_ok dst_name) ;;
  v <- get ;;
  e <-? lift (find_dent v src_dir src_name) ;;
  if (src_dir =? dst_dir) && bool_decide (src_name = dst_name) then ok tt else
  _ <-? dir_slot dst_dir ;;
  de <- lift (index (v_dents v) e) ;;
  let src_ino := d_ino de in
  ss <-? ret (inode_slot v src_ino) ;;
  r <- inode_at ss ;;
  let isd := i_kind r =? KIND_DIR in
  below <-? (if isd then ret (in_subtree v src_ino dst_dir) else ok false) ;;
  bail_if below Inval ?;;
  t <- lift (find_dent v dst_dir dst_name) ;;
  stay <-? (match t with
            | inl t =>
                td <- lift (index (v_dents v) t) ;;
                if d_ino td =? src_ino then ok true else
                unlink dst_dir dst_name isd ?;;
                ok false
            | inr _ => ok false
            end) ;;
  if (stay : bool) then ok tt else
  nm <- lift (name_array dst_name) ;;
  v <- get ;;
  de <- lift (index (v_dents v) e) ;;
  put_dent_at e (mkDent (d_used de) dst_dir (d_ino de) (d_kind de) (wrap 8 (zlen dst_name)) nm) ;;
  bump_mtime src_dir ;;
  bump_mtime dst_dir ;;
  bump_ctime src_ino ;;
  ok tt.

(** ** Reading a record *)
Definition attr (v : Vol) (ino : Z) : outcome (Node + Error) := node_from v ino [].
Definition file_size (v : Vol) (ino : Z) : outcome (Z + Error) :=
  s <~? Ret (inode_slot v ino) ;;
  r <~ index (v_inodes v) s ;;
  Ret (inl (i_size r)).

Definition readlink (ino : Z) (buf : list Z) : VM (Z * list Z) :=
  v <- get ;;
  is_ <-? ret (inode_slot v ino) ;;
  r <- inode_at is_ ;;
  bail_if (negb (i_kind r =? KIND_LNK)) Inval ?;;
  let n := Z.min (i_inline_len r) (zlen buf) in
  src <- lift (sub (i_inline_data r) 0 n) ;;
  buf <- lift (copy_into buf 0 src) ;;
  ok (n, buf).

(** ** Extents *)

(** The extent and physical block of file block [fb] among [es], numbered from [i]. *)
Fixpoint map_extents (es : list Extent) (i fb : Z) : option (Z * Z) + Error :=
  match es with
  | [] => inl None
  | e :: es =>
      match checked_add 64 (e_log e) (e_len e) with
      | None => inr Corrupt
      | Some end_ =>
          if (e_log e <=? fb) && (fb <? end_) then
            match checked_add 32 (e_phys e) (fb - e_log e) with
            | None => inr Corrupt
            | Some phys => inl (Some (i, phys))
            end
          else map_extents es (i + 1) fb
      end
  end.
Definition map_block (v : Vol) (is_ fb : Z) : option (Z * Z) + Error :=
  match v_inodes v !! Z.to_nat is_ with
  | None => inr Corrupt
  | Some r => map_extents (take (Z.to_nat (i_n_ext r)) (i_extents r)) 0 fb
  end.

Definition block_of (pos : Z) : (Z * Z) + Error :=
  if pos / BLOCK <? 2 ^ 32 then inl (pos / BLOCK, pos mod BLOCK) else inr FileTooBig.

Definition add_extent (is_ log phys len crc : Z) : VM unit :=
  r <- inode_at is_ ;;
  let n := i_n_ext r in
  bail_if (MAX_EXT <=? n) NoSpace ?;;
  extents <- lift (store (i_extents r) n (mkExtent log phys len crc)) ;;
  n' <- lift (addc 8 n 1) ;;
  put_inode is_ (i_with_extents r n' extents) ;;
  ok tt.

Section ops.
Context `{Disk D}.
Local Abbreviation FM A := (M (Vol * D) (A + Error)).

(** The running checksum of the blocks [phys + b] for [b] in [bs]. *)
Fixpoint crc_blocks (phys : Z) (bs : list Z) (crc : Z) : FM Z :=
  match bs with
  | [] => ok crc
  | b :: bs =>
      bno <- lift (addc 32 phys b) ;;
      read_iobuf bno ?;;
      v <- getv ;;
      crc_blocks phys bs (fold_left crc_byte (v_iobuf v) crc)
  end.
Definition extent_crc (phys len : Z) : FM Z :=
  crc <-? crc_blocks phys (range 0 len) 0xFFFFFFFF ;;
  ok (notw 32 crc).

Definition check_extent (e : Extent) : FM unit :=
  bail_if (e_len e =? 0) Corrupt ?;;
  got <-? extent_crc (e_phys e) (e_len e) ;;
  bail_if (negb (got =? e_crc e)) Corrupt.

(** Zeroed blocks with [data] from byte [off] on, one after the other. *)
Fixpoint write_blocks (phys : Z) (bs : list Z) (data : list Z) (off : Z) : FM unit :=
  match bs with
  | [] => ok tt
  | b :: bs =>
      rest <- lift (subc 64 (zlen data) off) ;;
      let n := Z.min rest BLOCK in
      let zeros := replicate (Z.to_nat BLOCK) 0 in
      buf <- lift (if 0 <? n then src <~ sub data off n ;; copy_into zeros 0 src else Ret zeros) ;;
      setbuf buf ;;
      bno <- lift (addc 32 phys b) ;;
      write_iobuf bno ?;;
      write_blocks phys bs data (off + n)
  end.
Definition write_extent_bytes (phys len : Z) (data : list Z) : FM Z :=
  write_blocks phys (range 0 len) data 0 ?;;
  extent_crc phys len.

(** [self.pending_drop(b).and(Err(e))] *)
Definition drop_and {A} (b : Z) (e : Error) : FM A := onvol (pending_drop b) ?;; err e.

Definition spill_block (data : list Z) (p : Z) : FM Extent :=
  let start := p * BLOCK in
  let end_ := Z.min (zlen data) (start + BLOCK) in
  chunk <- lift (sub data start (end_ - start)) ;;
  phys <-? onvol alloc_block ;;
  r <- write_extent_bytes phys 1 chunk ;;
  match r with
  | inl crc => ok (mkExtent p phys 1 crc)
  | inr e => drop_and phys e
  end.

(** Every block of [ex] dropped, whatever the drops return; the first error. *)
Fixpoint release_all (ex : list Extent) (rel : unit + Error) : M (Vol * D) (unit + Error) :=
  match ex with
  | [] => ret rel
  | e :: ex =>
      r <- onvol (pending_drop (e_phys e)) ;;
      release_all ex (match rel with inl _ => r | inr _ => rel end)
  end.

Fixpoint spill_blocks (data : list Z) (ps : list Z) (ex : list Extent) : FM (list Extent) :=
  match ps with
  | [] => ok ex
  | p :: ps =>
      r <- spill_block data p ;;
      match r with
      | inl e => ex <- lift (store ex p e) ;; spill_blocks data ps ex
      | inr e => release_all (take (Z.to_nat p) ex) (inl tt) ?;; err e
      end
  end.

Definition spill_inline (ino : Z) : FM unit :=
  v <- getv ;;
  is_ <-? ret (inode_slot v ino) ;;
  r <- onvol (inode_at is_) ;;
  if Z.land (i_flags r) F_INLINE =? 0 then ok tt else
  let size := i_size r in
  bail_if (INLINE <? size) Corrupt ?;;
  if size =? 0 then
    onvol (upd_inode is_ (λ r, i_with_extents (i_with_inline (i_with_flags r (Z.land (i_flags r) (notw 8 F_INLINE))) 0 (i_inline_data r))
      0 (i_extents r))) ;;
    ok tt
  else
  let nb := div_ceil size BLOCK in
  bail_if (MAX_EXT <? nb) NoSpace ?;;
  data <- lift (sub (i_inline_data r) 0 size) ;;
  ex <-? spill_blocks data (range 0 nb) (replicate (Z.to_nat MAX_EXT) Extent_EMPTY) ;;
  v <- getv ;;
  is_ <-? ret (inode_slot v ino) ;;
  onvol (upd_inode is_ (λ r, i_with_extents (i_with_inline (i_with_flags r (Z.land (i_flags r) (notw 8 F_INLINE))) 0 (i_inline_data r))
    (wrap 8 nb) ex)) ;;
  ok tt.

(** ** Reading *)
Fixpoint check_range (es : list Extent) (first last : Z) : FM unit :=
  match es with
  | [] => ok tt
  | e :: es =>
      end_ <-? ret (ok_or (checked_add 64 (e_log e) (e_len e)) Corrupt) ;;
      (if (e_log e <=? last) && (first <? end_) then check_extent e else ok tt) ?;;
      check_range es first last
  end.

(** [buf] is returned beside the result: an error leaves in it what was copied. *)
Fixpoint read_loop (fuel : nat) (is_ off want done : Z) (buf : list Z) : M (Vol * D) ((Z + Error) * list Z) :=
  if want <=? done then ret (inl want, buf) else
  match fuel with
  | O => no_fuel
  | S fuel =>
      v <- getv ;;
      match pos <! ok_or (checked_add 64 off done) FileTooBig ;; block_of pos with
      | inr e => ret (inr e, buf)
      | inl (fblk, pin) =>
          let n := Z.min (BLOCK - pin) (want - done) in
          match map_block v is_ fblk with
          | inr e => ret (inr e, buf)
          | inl None =>
              buf <- lift (copy_into buf done (replicate (Z.to_nat n) 0)) ;;
              read_loop fuel is_ off want (done + n) buf
          | inl (Some (_, phys)) =>
              r <- read_iobuf phys ;;
              match r with
              | inr e => ret (inr e, buf)
              | inl _ =>
                  v <- getv ;;
                  src <- lift (sub (v_iobuf v) pin n) ;;
                  buf <- lift (copy_into buf done src) ;;
                  read_loop fuel is_ off want (done + n) buf
              end
          end
      end
  end.

Definition read (ino off : Z) (buf : list Z) : M (Vol * D) ((Z + Error) * list Z) :=
  v <- getv ;;
  match inode_slot v ino with
  | inr e => ret (inr e, buf)
  | inl is_ =>
  r <- onvol (inode_at is_) ;;
  if i_kind r =? KIND_DIR then ret (inr IsDir, buf) else
  let size := i_size r in
  if (size <=? off) || (zlen buf =? 0) then ret (inl 0, buf) else
  let want := Z.min (zlen buf) (size - off) in
  if negb (Z.land (i_flags r) F_INLINE =? 0) then
    match checked_add 64 off want with
    | None => ret (inr Corrupt, buf)
    | Some end_ =>
        match slice (i_inline_data r) off want with
        | None => ret (inr Corrupt, buf)
        | Some src => buf <- lift (copy_into buf 0 src) ;; ret (inl want, buf)
        end
    end
  else
  match first <! block_of off ;; last <! block_of (off + (want - 1)) ;; inl (fst first, fst last) with
  | inr e => ret (inr e, buf)
  | inl (first, last) =>
      c <- check_range (extents_of r) first last ;;
      match c with
      | inr e => ret (inr e, buf)
      | inl _ => read_loop (Z.to_nat want) is_ off want 0 buf
      end
  end
  end.

(** ** Writing *)
Definition slots_needed (v : Vol) (is_ fblk : Z) : outcome (Z + Error) :=
  match map_block v is_ fblk with
  | inr e => Ret (inr e)
  | inl None => Ret (inl 1)
  | inl (Some (ei, _)) =>
      r <~ index (v_inodes v) is_ ;;
      e <~ index (i_extents r) ei ;;
      l <~ subc 32 (e_len e) 1 ;;
      last <~ addc 32 (e_log e) l ;;
      Ret (inl (if e_len e =? 1 then 0 else if (fblk =? e_log e) || (fblk =? last) then 1 else 2))
  end.

(** Write [iobuf] to the new block [newp] and hand its CRC to [link]; on any error
    release [newp]. *)
Definition place_block (newp : Z) (link : Z → FM unit) : FM unit :=
  r <- (write_iobuf newp ?;; crc <-? extent_crc newp 1 ;; link crc) ;;
  match r with
  | inl _ => ok tt
  | inr e => drop_and newp e
  end.

Definition to32 (x : Z) : Z + Error := if x <? 2 ^ 32 then inl x else inr Corrupt.

(** The parts of extent [e] left and right of file block [fblk]: length left of it,
    first block, physical block and length right of it. *)
Definition split_parts (e : Extent) (fblk : Z) : (Z * Z * Z * Z) + Error :=
  left_len <! (if e_log e <=? fblk then inl (fblk - e_log e) else inr Corrupt) ;;
  right_log <! ok_or (checked_add 64 fblk 1) Corrupt ;;
  right_phys <! ok_or (checked_add 64 (e_phys e) left_len) Corrupt ;;
  right_phys <! ok_or (checked_add 64 right_phys 1) Corrupt ;;
  end_ <! ok_or (checked_add 64 (e_log e) (e_len e)) Corrupt ;;
  right_len <! (if right_log <=? end_ then inl (end_ - right_log) else inr Corrupt) ;;
  left_len <! to32 left_len ;;
  right_log <! to32 right_log ;;
  right_phys <! to32 right_phys ;;
  right_len <! to32 right_len ;;
  inl (left_len, right_log, right_phys, right_len).

Definition set_extent (is_ ei : Z) (e : Extent) : M Vol unit :=
  r <- inode_at is_ ;;
  extents <- lift (store (i_extents r) ei e) ;;
  put_inode is_ (i_with_extents r (i_n_ext r) extents).

Definition split_replace_extent (is_ fblk newp crc : Z) : FM unit :=
  v <- getv ;;
  m <-? ret (map_block v is_ fblk) ;;
  m <-? ret (ok_or m Inval) ;;
  let ei := fst m in
  r <- onvol (inode_at is_) ;;
  e <- lift (index (i_extents r) ei) ;;
  if e_len e =? 1 then
    onvol (set_extent is_ ei (mkExtent (e_log e) newp (e_len e) crc)) ;;
    ok tt
  else
  parts <-? ret (split_parts e fblk) ;;
  let '(left_len, right_log, right_phys, right_len) := parts in
  left_crc <-? (if 0 <? left_len then extent_crc (e_phys e) left_len else ok 0) ;;
  right_crc <-? (if 0 <? right_len then extent_crc right_phys right_len else ok 0) ;;
  (if left_len =? 0 then
     onvol (set_extent is_ ei (mkExtent fblk newp 1 crc)) ;; ok tt
   else
     onvol (set_extent is_ ei (mkExtent (e_log e) (e_phys e) left_len left_crc)) ;;
     onvol (add_extent is_ fblk newp 1 crc)) ?;;
  if 0 <? right_len then onvol (add_extent is_ right_log right_phys right_len right_crc) else ok tt.

Definition write_chunk (ino fblk pin : Z) (data : list Z) : FM unit :=
  v <- getv ;;
  is_ <-? ret (inode_slot v ino) ;;
  r <- onvol (inode_at is_) ;;
  slots <-? lift (slots_needed v is_ fblk) ;;
  bail_if (MAX_EXT <? i_n_ext r + slots) NoSpace ?;;
  existing <-? ret (map_block v is_ fblk) ;;
  setbuf (replicate (Z.to_nat BLOCK) 0) ;;
  match existing with
  | Some (ei, phys) =>
      v <- getv ;;
      drops <- lift (drops_needed v phys 1) ;;
      _ <-? ret (drop_room v drops) ;;
      r <- onvol (inode_at is_) ;;
      old_e <- lift (index (i_extents r) ei) ;;
      check_extent old_e ?;;
      read_iobuf phys ?;;
      v <- getv ;;
      buf <- lift (copy_into (v_iobuf v) pin data) ;;
      setbuf buf ;;
      newp <-? onvol alloc_block ;;
      r <- place_block newp (split_replace_extent is_ fblk newp) ;;
      (match r with inl _ => onvol (pending_drop phys) | inr _ => ok tt end) ?;;
      ret r
  | None =>
      v <- getv ;;
      buf <- lift (copy_into (v_iobuf v) pin data) ;;
      setbuf buf ;;
      newp <-? onvol alloc_block ;;
      place_block newp (λ crc, onvol (add_extent is_ fblk newp 1 crc))
  end.

(** The chunks of [buf] from byte [done] on; the bytes written when an error stops
    it after the first chunk. *)
Fixpoint write_loop (fuel : nat) (ino off : Z) (buf : list Z) (done : Z) : FM Z :=
  if zlen buf <=? done then ok done else
  match fuel with
  | O => no_fuel
  | S fuel =>
      pos <-? ret (ok_or (checked_add 64 off done) FileTooBig) ;;
      b <-? ret (block_of pos) ;;
      let '(fblk, pin) := b in
      let n := Z.min (BLOCK - pin) (zlen buf - done) in
      data <- lift (sub buf done n) ;;
      r <- write_chunk ino fblk pin data ;;
      match r with
      | inl _ => write_loop fuel ino off buf (done + n)
      | inr e => if done =? 0 then err e else ok done
      end
  end.

Definition grow_size (end_ : Z) (r : Inode) : Inode := if i_size r <? end_ then i_with_size r end_ else r.

(** A write that stays in the inline bytes. *)
Definition write_inline (ino is_ off end_ : Z) (buf : list Z) : VM Z :=
  r <- inode_at is_ ;;
  data <- lift (copy_into (i_inline_data r) off buf) ;;
  let k := wrap 8 (off + zlen buf) in
  let r := i_with_inline r (if i_inline_len r <? k then k else i_inline_len r) data in
  put_inode is_ (i_with_flags (grow_size end_ r) (Z.lor (i_flags r) F_INLINE)) ;;
  bump_mtime ino ;;
  ok (zlen buf).

Definition write (ino off : Z) (buf : list Z) : FM Z :=
  v <- getv ;;
  is_ <-? ret (inode_slot v ino) ;;
  r <- onvol (inode_at is_) ;;
  bail_if (i_kind r =? KIND_DIR) IsDir ?;;
  bail_if (i_kind r =? KIND_LNK) Inval ?;;
  if zlen buf =? 0 then ok 0 else
  bail_if (MAX_FILE_SIZE <=? off) FileTooBig ?;;
  buf <- lift (sub buf 0 (Z.min (MAX_FILE_SIZE - off) (zlen buf))) ;;
  let end_ := saturating_add 64 off (zlen buf) in
  if (end_ <=? INLINE) && negb (Z.land (i_flags r) F_INLINE =? 0) && (i_n_ext r =? 0) then
    onvol (write_inline ino is_ off end_ buf)
  else
  (if negb (Z.land (i_flags r) F_INLINE =? 0) then spill_inline ino else ok tt) ?;;
  done <-? write_loop (length buf) ino off buf 0 ;;
  end_ <- lift (addc 64 off done) ;;
  v <- getv ;;
  is_ <-? ret (inode_slot v ino) ;;
  onvol (upd_inode is_ (grow_size end_)) ;;
  onvol (bump_mtime ino) ;;
  ok done.

(** ** Truncating *)

(** The first pass: the drops the truncate needs, and the extent that straddles the
    new end with the checksum of what it keeps. *)
Fixpoint trunc_plan (es : list Extent) (i keep_blks drops : Z) (straddle : option (Z * Z)) : FM (Z * option (Z * Z)) :=
  match es with
  | [] => ok (drops, straddle)
  | e :: es =>
      end_ <-? ret (ok_or (checked_add 64 (e_log e) (e_len e)) Corrupt) ;;
      p <-? (if keep_blks <=? e_log e then ok (e_len e, straddle)
             else if keep_blks <? end_ then
               let keep := keep_blks - e_log e in
               check_extent e ?;;
               crc <-? extent_crc (e_phys e) keep ;;
               gone <- lift (subc 32 (e_len e) keep) ;;
               ok (gone, Some (i, crc))
             else ok (0, straddle)) ;;
      let '(gone, straddle) := p in
      kept <- lift (subc 32 (e_len e) gone) ;;
      from <-? ret (ok_or (checked_add 32 (e_phys e) kept) Corrupt) ;;
      v <- getv ;;
      n <- lift (drops_needed v from gone) ;;
      drops <- lift (addc 64 drops n) ;;
      trunc_plan es (i + 1) keep_blks drops straddle
  end.

(** [pending_drop(e.phys.checked_add(b)?)?] for each [b] of the range. *)
Definition drop_checked (phys from len : Z) : VM unit :=
  efor (range from len) (λ b, bno <-? ret (ok_or (checked_add 32 phys b) Corrupt) ;; pending_drop bno).

(** The second pass, over extent [i] of inode slot [is_]. *)
Definition trunc_extent (is_ keep_blks : Z) (straddle : option (Z * Z)) (i : Z) : VM unit :=
  r <- inode_at is_ ;;
  e <- lift (index (i_extents r) i) ;;
  end_ <-? ret (ok_or (checked_add 64 (e_log e) (e_len e)) Corrupt) ;;
  if keep_blks <=? e_log e then
    drop_checked (e_phys e) 0 (e_len e) ?;;
    set_extent is_ i Extent_EMPTY ;;
    ok tt
  else if keep_blks <? end_ then
    let keep := keep_blks - e_log e in
    drop_checked (e_phys e) keep (e_len e) ?;;
    let crc := match straddle with Some (si, crc) => if si =? i then crc else e_crc e | None => e_crc e end in
    set_extent is_ i (mkExtent (e_log e) (e_phys e) keep crc) ;;
    ok tt
  else ok tt.

(** The extents in use moved to the front. *)
Definition compact (es : list Extent) : list Extent :=
  let used := filter (λ e, negb (e_len e =? 0) = true) es in
  used ++ replicate (length es - length used) Extent_EMPTY.

Definition truncate (ino new : Z) : FM unit :=
  v <- getv ;;
  is_ <-? ret (inode_slot v ino) ;;
  r <- onvol (inode_at is_) ;;
  bail_if (i_kind r =? KIND_DIR) IsDir ?;;
  bail_if (MAX_FILE_SIZE <? new) FileTooBig ?;;
  let old := i_size r in
  let inline := negb (Z.land (i_flags r) F_INLINE =? 0) in
  if old <=? new then
    if inline && (new <=? INLINE) then
      onvol (upd_inode is_ (λ r, i_with_inline (i_with_size r new) (wrap 8 new) (i_inline_data r))) ;;
      onvol (bump_mtime ino) ;;
      ok tt
    else
      (if inline then spill_inline ino else ok tt) ?;;
      v <- getv ;;
      is_ <-? ret (inode_slot v ino) ;;
      onvol (upd_inode is_ (λ r, i_with_size r new)) ;;
      onvol (bump_mtime ino) ;;
      ok tt
  else if inline then
    bail_if (negb ((old <=? INLINE) && (new <=? INLINE))) Corrupt ?;;
    data <- lift (copy_into (i_inline_data r) new (replicate (Z.to_nat (INLINE - new)) 0)) ;;
    onvol (upd_inode is_ (λ r, i_with_inline (i_with_size r new) (wrap 8 new) data)) ;;
    onvol (bump_mtime ino) ;;
    ok tt
  else if new <=? INLINE then
    let tmp := replicate (Z.to_nat INLINE) 0 in
    tmp <-? (if 0 <? new then
               rb <- read ino 0 (take (Z.to_nat new) tmp) ;;
               match fst rb with
               | inr e => err e
               | inl _ => tmp <- lift (copy_into tmp 0 (snd rb)) ;; ok tmp
               end
             else ok tmp) ;;
    onvol (free_inode_data ino) ?;;
    v <- getv ;;
    is_ <-? ret (inode_slot v ino) ;;
    onvol (upd_inode is_ (λ r, i_with_size (i_with_inline
      (i_with_extents (i_with_flags r (Z.lor (i_flags r) F_INLINE)) 0 (replicate (Z.to_nat MAX_EXT) Extent_EMPTY))
      (wrap 8 new) tmp) new)) ;;
    onvol (bump_mtime ino) ;;
    ok tt
  else
    let keep_blks := div_ceil new BLOCK in
    bail_if (2 ^ 32 <=? keep_blks) FileTooBig ?;;
    let n_ext := Z.min (i_n_ext r) MAX_EXT in
    p <-? trunc_plan (extents_of r) 0 keep_blks 0 None ;;
    let '(drops, straddle) := p in
    v <- getv ;;
    _ <-? ret (drop_room v drops) ;;
    onvol (efor (range 0 n_ext) (trunc_extent is_ keep_blks straddle)) ?;;
    v <- getv ;;
    is_ <-? ret (inode_slot v ino) ;;
    onvol (upd_inode is_ (λ r,
      let es := compact (i_extents r) in
      i_with_size (i_with_extents r (wrap 8 (zlen (filter (λ e, negb (e_len e =? 0) = true) es))) es) new)) ;;
    onvol (bump_mtime ino) ;;
    ok tt.

End ops.
End VibefsOps.
