(* ===== verification/VibefsLayout.v ===== *)
(** * vibefs: what the blocks on disk say (src/crates/core/src/fs/vibefs/layout.rs)

    The on-disk tables as layouts, and that packing writes them and parsing reads
    them back: checksums, metadata headers, inode records, superblocks and the
    allocation map. *)

From stdpp Require Import base strings numbers gmap list.
From S2P Require Import Prelude Bytes Crc Buf FsError Vibefs.
Import Vibefs.

Local Open Scope Z_scope.

(** Every read of a buffer whose layout is known. *)
Ltac in_layout := repeat first [exact (list_elem_of_here _ _) | apply list_elem_of_further].
Ltac read_layout Hc :=
  repeat match goal with
  | |- context [load ?n ?b ?o] => erewrite (load_holds n b o);
      [|eapply carries_elem; [exact Hc|in_layout]|try (unfold in_width in *; lia)]
  | |- context [index ?b ?o] => erewrite (index_holds b o); [|eapply carries_elem; [exact Hc|in_layout]]
  end.

(** ** Checksums *)
Lemma crc_loop_outside buf i off crc :
  i + zlen buf ≤ off ∨ off + 4 ≤ i → crc_block_loop buf i off crc = fold_left crc_byte buf crc.
Proof.
  revert i crc. induction buf as [|x buf IH]; intros i crc Hd; [done|]. cbn [crc_block_loop fold_left].
  replace ((off <=? i) && (i <? off + 4)) with false by (symmetry; apply andb_false_iff; rewrite Z.leb_gt, Z.ltb_ge; zlia).
  apply IH. zlia.
Qed.
Lemma crc_loop_app p q i off crc :
  crc_block_loop (p ++ q) i off crc = crc_block_loop q (i + zlen p) off (crc_block_loop p i off crc).
Proof.
  revert i crc. induction p as [|x p IH]; intros i crc; cbn [app crc_block_loop]; [f_equal; zlia|].
  rewrite IH. f_equal. zlia.
Qed.

(** [crc_block] is [crc32_ieee] of the block with the field zeroed. *)
Lemma crc_block_zeroed buf off :
  0 ≤ off → off + 4 ≤ zlen buf → crc_block buf off = crc32_ieee (splice buf off (le_bytes 4 0)).
Proof.
  intros Ho Hl. destruct (buf_open buf off 4) as (p & w & q & -> & Hp & Hw); [lia..|].
  rewrite splice_mid by (rewrite ?length_le_bytes; zlia). unfold crc_block, crc32_ieee. f_equal.
  rewrite crc_loop_app, (crc_loop_outside p), crc_loop_app, (crc_loop_outside q), !fold_left_app by zlia. f_equal.
  destruct w as [|w0 [|w1 [|w2 [|w3 [|]]]]]; try zlia. cbn [crc_block_loop fold_left le_bytes].
  rewrite Hp. rewrite !(proj2 (Z.leb_le off _)), !(proj2 (Z.ltb_lt _ (off + 4))) by lia. done.
Qed.

Lemma check_crc_zeroed buf off :
  0 ≤ off → off + 4 ≤ zlen buf → 
  check_crc buf off = (stored <~ le32 buf off ;;
    Ret (if negb (stored =? crc32_ieee (splice buf off (le_bytes 4 0))) then inr Corrupt else inl tt)).
Proof. intros. unfold check_crc. by rewrite crc_block_zeroed. Qed.

Lemma set_crc_spec buf off :
  0 ≤ off → off + 4 ≤ zlen buf → bytes_ok buf →
  ∃ c, set_crc buf off = Ret (splice buf off (le_bytes 4 c)) ∧
       check_crc (splice buf off (le_bytes 4 c)) off = Ret (inl tt).
Proof.
  intros Ho Hl Hb. set (z := splice buf off (le_bytes 4 0)). exists (crc32_ieee z).
  assert (Hz : bytes_ok z) by (apply splice_bytes; [done|apply le_bytes_ok]).
  assert (Hzl : zlen z = zlen buf) by (apply zlen_splice; rewrite ?zlen_le_bytes; lia).
  split.
  - unfold set_crc, put32. rewrite save_ret by lia. cbn [obind]. fold z. rewrite save_ret by lia. f_equal.
    apply splice_splice; rewrite ?zlen_le_bytes, ?length_le_bytes; lia.
  - rewrite check_crc_zeroed by (rewrite ?zlen_splice; rewrite ?zlen_le_bytes; lia). unfold le32.
    rewrite (load_holds 4 _ _ (crc32_ieee z)).
    + cbn [obind]. rewrite splice_splice by (rewrite ?zlen_le_bytes, ?length_le_bytes; lia).
      fold z. by rewrite Z.eqb_refl.
    + apply holds_splice; rewrite ?zlen_le_bytes; lia.
    + apply crc32_width. done.
Qed.

(** ** Metadata headers *)
Definition hdr_layout (kind level count g owner : Z) : layout :=
  [(0, le_bytes 4 MAGIC_META); (4, [kind]); (5, [level]); (6, le_bytes 2 count); (8, le_bytes 8 g);
   (20, le_bytes 4 owner)].

Lemma filled_sub n b ly ly' c c' : filled n b ly c → carries b ly' → ends_by c' ly' → filled n b ly' c'.
Proof. intros [????] ??. by split. Qed.

Lemma meta_hdr_spec buf kind level count g owner (Q : list Z → Prop) :
  zlen buf = BLOCK → is_byte kind → is_byte level →
  (∀ b, filled BLOCK b (hdr_layout kind level count g owner) 24 → Q b) →
  owp (meta_hdr buf kind level count g owner) Q.
Proof.
  intros Hl Hk Hv HQ. unfold meta_hdr, put32, put16, put64.
  assert (H0 : filled BLOCK (replicate (length buf) 0) [] 0).
  { replace (length buf) with (Z.to_nat BLOCK) by zlia. by apply filled_zero. }
  unfold BLOCK in *.
  apply owp_bind, (filled_save _ _ _ _ _ _ _ _ H0); [lia..|]. intros b1 H1.
  apply owp_bind, (filled_store _ _ _ _ _ _ _ H1); [lia..|done|]. intros b2 H2.
  apply owp_bind, (filled_store _ _ _ _ _ _ _ H2); [lia..|done|]. intros b3 H3.
  apply owp_bind, (filled_save _ _ _ _ _ _ _ _ H3); [lia..|]. intros b4 H4.
  apply owp_bind, (filled_save _ _ _ _ _ _ _ _ H4); [lia..|]. intros b5 H5.
  apply owp_bind, (filled_save _ _ _ _ _ _ _ _ H5); [lia..|]. intros b6 H6.
  apply (filled_save _ _ _ _ _ _ _ _ H6); [lia..|]. intros b7 H7. apply HQ.
  eapply filled_sub; [exact H7| |].
  - pose proof (fl_carries _ _ _ _ H7) as Hc. unfold carries in *. rewrite Forall_forall in Hc.
    apply Forall_forall. intros p Hp. apply Hc. set_solver.
  - repeat (apply Forall_cons; split; [cbn [fst snd]; rewrite ?zlen_le_bytes; zlia|]). by apply Forall_nil.
Qed.

(** A metadata block with its checksum. *)
Record sealed (b : list Z) (ly : layout) : Prop := {
  sl_len : zlen b = BLOCK;
  sl_bytes : bytes_ok b;
  sl_carries : carries b ly;
  sl_crc : check_crc b 16 = Ret (inl tt);
}.

Definition off_crc (ly : layout) : Prop := Forall (λ p : Z * list Z, p.1 + zlen p.2 ≤ 16 ∨ 20 ≤ p.1) ly.

Lemma finish_meta_spec b ly c (Q : list Z → Prop) :
  filled BLOCK b ly c → off_crc ly → (∀ b', sealed b' ly → Q b') → owp (finish_meta b) Q.
Proof.
  intros [Hl Hb Hc He] Hoff HQ. unfold finish_meta, BLOCK in *.
  destruct (set_crc_spec b 16) as (c' & -> & Hk); [lia..|done|]. apply HQ. split.
  - unfold BLOCK. rewrite zlen_splice; rewrite ?zlen_le_bytes; lia.
  - apply splice_bytes; [done|apply le_bytes_ok].
  - apply carries_ne; rewrite ?zlen_le_bytes; [lia|lia| |done]. done.
  - done.
Qed.

Lemma off_crc_hdr kind level count g owner : off_crc (hdr_layout kind level count g owner).
Proof. repeat (apply Forall_cons; split; [cbn [fst snd]; rewrite ?zlen_le_bytes; zlia|]). by apply Forall_nil. Qed.

Lemma off_crc_app ly ly' : off_crc (ly ++ ly') ↔ off_crc ly ∧ off_crc ly'.
Proof. apply Forall_app. Qed.

Lemma parse_meta_sealed b ly kind level count g owner :
  sealed b (hdr_layout kind level count g owner ++ ly) → u16 count → u32 owner →
  parse_meta b kind = Ret (inl (level, count, owner)).
Proof.
  intros [_ _ Hc Hk] Hco Ho. apply carries_app in Hc as [Hc _].
  unfold parse_meta, le32, le16. read_layout Hc; [|by compute]. cbn [obind oebind].
  rewrite Z.eqb_refl. cbn [negb]. rewrite Hk. cbn [oebind obind]. by rewrite Z.eqb_refl.
Qed.

Lemma meta_kind b ly kind level count g owner :
  sealed b (hdr_layout kind level count g owner ++ ly) → index b 4 = Ret kind.
Proof. intros [_ _ Hc _]. apply carries_app in Hc as [Hc _]. by read_layout Hc. Qed.
Lemma meta_count b ly kind level count g owner :
  sealed b (hdr_layout kind level count g owner ++ ly) → u16 count → le16 b 6 = Ret count.
Proof. intros [_ _ Hc _] Hco. apply carries_app in Hc as [Hc _]. unfold le16. by read_layout Hc. Qed.

(** ** Inode records *)
Definition extent_layout (i : Z) (e : Extent) : layout :=
  [(60 + i * 16, le_bytes 4 (e_log e)); (60 + i * 16 + 4, le_bytes 4 (e_phys e));
   (60 + i * 16 + 8, le_bytes 4 (e_len e)); (60 + i * 16 + 12, le_bytes 4 (e_crc e))].
Definition inode_layout (r : Inode) : layout :=
  [(0, le_bytes 4 (i_ino r)); (4, [i_kind r]); (5, [i_flags r]); (6, le_bytes 2 (i_mode r));
   (8, le_bytes 4 (i_nlink r)); (12, le_bytes 4 (i_uid r)); (16, le_bytes 4 (i_gid r));
   (20, le_bytes 8 (i_size r)); (28, le_bytes 8 (i_atime r)); (36, le_bytes 8 (i_mtime r));
   (44, le_bytes 8 (i_ctime r)); (52, le_bytes 4 (i_dir_root r)); (56, [i_n_ext r]); (57, [i_inline_len r])] ++
  concat (imap (λ i, extent_layout (Z.of_nat i)) (i_extents r)) ++ [(128, i_inline_data r)].

Record extent_ok (e : Extent) : Prop := {
  eo_log : u32 (e_log e); eo_phys : u32 (e_phys e); eo_len : u32 (e_len e); eo_crc : u32 (e_crc e) }.

(** The widths of the fields, which the types of the code give. *)
Record inode_typed (r : Inode) : Prop := {
  it_ino : u32 (i_ino r);
  it_kind : u8 (i_kind r);
  it_flags : u8 (i_flags r);
  it_mode : u16 (i_mode r);
  it_nlink : u32 (i_nlink r);
  it_uid : u32 (i_uid r);
  it_gid : u32 (i_gid r);
  it_size : u64 (i_size r);
  it_atime : u64 (i_atime r);
  it_mtime : u64 (i_mtime r);
  it_ctime : u64 (i_ctime r);
  it_dir_root : u32 (i_dir_root r);
  it_n_ext : u8 (i_n_ext r);
  it_inline_len : u8 (i_inline_len r);
  it_extents : length (i_extents r) = 4%nat;
  it_extents_ok : Forall extent_ok (i_extents r);
  it_inline : length (i_inline_data r) = 128%nat;
  it_inline_ok : bytes_ok (i_inline_data r);
}.

(** What mount insists on. *)
Definition inode_valid (r : Inode) : Prop :=
  KIND_REG ≤ i_kind r ≤ KIND_LNK ∧ i_n_ext r ≤ MAX_EXT ∧ i_inline_len r ≤ INLINE.

Lemma list4 {A} (l : list A) : length l = 4%nat → ∃ a b c d, l = [a; b; c; d].
Proof. destruct l as [|a [|b [|c [|d [|]]]]]; try done. intros _. by exists a, b, c, d. Qed.

(** One field after the other, into a buffer filled so far. *)
Ltac fill_step H :=
  let b := fresh "b" in let H' := fresh "F" in
  first [ apply owp_bind | idtac ];
  first [ apply (filled_save _ _ _ _ _ _ _ _ H); [first [lia|zlia]..|]
        | apply (filled_store _ _ _ _ _ _ _ H); [first [lia|zlia]..|assumption|]
        | apply (filled_copy _ _ _ _ _ _ _ H); [zlia..|assumption|] ];
  intros b H'; clear H; rename H' into H.

Lemma is_byte_u8 x : u8 x → is_byte x.
Proof. done. Qed.

Lemma pack_extent_spec n b ly c rec i e (Q : list Z → Prop) :
  filled n b ly c → c ≤ 60 + i * 16 → 0 ≤ i < 4 → 256 ≤ n → i_extents rec !! Z.to_nat i = Some e →
  (∀ b', filled n b' (ly ++ extent_layout i e) (60 + (i + 1) * 16) → Q b') →
  owp (pack_extent rec i b) Q.
Proof.
  intros F Hc Hi Hn He HQ. unfold pack_extent, put32. rewrite (index_ret _ _ e) by (done || lia). cbn [obind].
  do 4 fill_step F. apply HQ. unfold extent_layout. rewrite <-!app_assoc in F.
  replace (60 + (i + 1) * 16) with (60 + i * 16 + 12 + Z.of_nat 4) by lia. exact F.
Qed.

Lemma pack_inode_spec tail r (Q : list Z → Prop) :
  256 ≤ zlen tail → bytes_ok tail → inode_typed r →
  (∀ b, filled (zlen tail) b (inode_layout r) 256 → Q b) →
  owp (pack_inode tail r) Q.
Proof.
  intros Hl Hb [] HQ. unfold pack_inode. apply owp_bind.
  rewrite copy_into_ret by (change INODE_REC with 256 in *; zlia).
  assert (F : filled (zlen tail) (splice tail 0 (replicate (Z.to_nat INODE_REC) 0)) [] 0).
  { split; [|apply splice_bytes; [done|apply Forall_replicate; unfold is_byte; lia]|constructor|constructor].
    apply zlen_splice; change INODE_REC with 256 in *; zlia. }
  set (n := zlen tail) in *. generalize dependent (splice tail 0 (replicate (Z.to_nat INODE_REC) 0)). intros b F.
  unfold put32, put16, put64. cbn [owp].
  do 14 fill_step F.
  destruct (list4 _ it_extents0) as (e0 & e1 & e2 & e3 & He).
  change (range 0 MAX_EXT) with [0; 1; 2; 3]. cbn [ofor]. rewrite <-!app_assoc in F. cbn [app] in F.
  do 2 apply owp_bind. apply (pack_extent_spec _ _ _ _ _ _ e0 _ F); [lia..|by rewrite He|]. clear F. intros b' F.
  apply owp_bind. apply (pack_extent_spec _ _ _ _ _ _ e1 _ F); [lia..|by rewrite He|]. clear F. intros b'' F.
  apply owp_bind. apply (pack_extent_spec _ _ _ _ _ _ e2 _ F); [lia..|by rewrite He|]. clear F. intros c3 F.
  apply owp_bind. apply (pack_extent_spec _ _ _ _ _ _ e3 _ F); [lia..|by rewrite He|]. clear F. intros c4 F.
  apply owp_ret. fill_step F. apply HQ.
  replace (128 + zlen (i_inline_data r)) with 256 in F by zlia.
  rewrite <-!app_assoc in F. unfold inode_layout. rewrite He. exact F.
Qed.

Lemma unpack_inode_spec b r :
  carries b (inode_layout r) → inode_typed r → inode_valid r → i_used r = true →
  unpack_inode b = Ret (inl r).
Proof.
  intros Hc [] ([Hk1 Hk2] & Hx & Hi) Hu. unfold inode_layout in Hc.
  destruct (list4 _ it_extents0) as (e0 & e1 & e2 & e3 & He). rewrite He in *.
  do 5 (apply Forall_cons in it_extents_ok0 as [[] it_extents_ok0] || clear it_extents_ok0).
  change (imap (λ i, extent_layout (Z.of_nat i)) [e0; e1; e2; e3])
    with [extent_layout 0 e0; extent_layout 1 e1; extent_layout 2 e2; extent_layout 3 e3] in Hc.
  cbn [concat app extent_layout] in Hc.
  unfold unpack_inode, le32, le16, le64. read_layout Hc. cbn [obind].
  change MAX_EXT with 4 in *. change INLINE with 128 in *.
  rewrite (proj2 (Z.ltb_ge 4 (i_n_ext r))), (proj2 (Z.ltb_ge 128 (i_inline_len r))) by lia. cbn [orb].
  assert (∃ k, kind_of (i_kind r) = inl k) as [k ->].
  { unfold kind_of, KIND_REG, KIND_DIR, KIND_LNK in *.
    assert (i_kind r = 1 ∨ i_kind r = 2 ∨ i_kind r = 3) as [->|[->| ->]] by lia; by eexists. }
  change (range 0 4) with [0; 1; 2; 3]. cbn [ofor]. unfold unpack_extent, le32.
  read_layout Hc. rewrite (sub_holds b 128 128 (i_inline_data r)); [|eapply carries_elem; [exact Hc|in_layout]|zlia].
  cbn. destruct r, e0, e1, e2, e3; cbn in *. by subst.
Qed.

(** ** Superblocks *)
Definition snap_layout (i : Z) (s : Snap) : layout :=
  [(96 + i * 40, s_name s); (96 + i * 40 + 16, le_bytes 8 (s_generation s));
   (96 + i * 40 + 24, le_bytes 4 (s_inode_root s)); (96 + i * 40 + 28, le_bytes 4 (s_alloc_root s));
   (96 + i * 40 + 32, le_bytes 4 (s_next_ino s))].
Definition super_layout (v : Vol) (slot : Z) : layout :=
  [(0, le_bytes 4 MAGIC_SUPER); (4, le_bytes 2 VERSION); (6, [slot]); (7, [v_flags v]); (8, le_bytes 4 BLOCK);
   (12, le_bytes 4 (v_nblocks v)); (16, le_bytes 8 (v_generation v)); (24, le_bytes 4 (v_inode_root v));
   (28, le_bytes 4 (v_alloc_root v)); (32, le_bytes 4 (v_next_ino v)); (36, le_bytes 4 (v_root_ino v));
   (40, v_uuid v); (56, v_label v); (88, [count_used_snaps (v_snaps v)])] ++
  concat (imap (λ i, snap_layout (Z.of_nat i)) (v_snaps v)).

Record snap_typed (s : Snap) : Prop := {
  st_name : length (s_name s) = 16%nat;
  st_name_ok : bytes_ok (s_name s);
  st_generation : u64 (s_generation s);
  st_inode_root : u32 (s_inode_root s);
  st_alloc_root : u32 (s_alloc_root s);
  st_next_ino : u32 (s_next_ino s);
}.

(** The parts of a volume a superblock records. *)
Record super_typed (v : Vol) : Prop := {
  su_flags : u8 (v_flags v);
  su_nblocks : MIN_BLOCKS ≤ v_nblocks v ≤ MAX_BLOCKS;
  su_generation : u64 (v_generation v);
  su_inode_root : u32 (v_inode_root v);
  su_alloc_root : u32 (v_alloc_root v);
  su_next_ino : u32 (v_next_ino v);
  su_root_ino : u32 (v_root_ino v);
  su_uuid : length (v_uuid v) = 16%nat;
  su_uuid_ok : bytes_ok (v_uuid v);
  su_label : length (v_label v) = 32%nat;
  su_label_ok : bytes_ok (v_label v);
  su_snaps : length (v_snaps v) = 4%nat;
  su_snaps_ok : Forall snap_typed (v_snaps v);
}.

(** The live snapshots come first, and each has an inode tree. *)
Definition snaps_packed (snaps : list Snap) : Prop :=
  ∀ i s, snaps !! i = Some s → s_used s = bool_decide (Z.of_nat i < count_used_snaps snaps) ∧
    (s_used s = true → s_inode_root s ≠ 0).

Definition super_of (v : Vol) : SuperInfo :=
  mkSuper (v_generation v) (v_nblocks v) (v_inode_root v) (v_alloc_root v) (v_next_ino v) (v_root_ino v)
    (v_flags v) (v_uuid v) (v_label v) (v_snaps v).

Lemma pack_snap_spec n b ly c snaps i s (Q : list Z → Prop) :
  filled n b ly c → c ≤ 96 + i * 40 → 0 ≤ i < 4 → 256 ≤ n → snaps !! Z.to_nat i = Some s → snap_typed s →
  (∀ b', filled n b' (ly ++ snap_layout i s) (96 + i * 40 + 36) → Q b') →
  owp (pack_snap snaps i b) Q.
Proof.
  intros F Hc Hi Hn Hs [] HQ. unfold pack_snap, put32, put64. rewrite (index_ret _ _ s) by (done || lia). cbn [obind].
  do 5 fill_step F. apply HQ. unfold snap_layout. rewrite <-!app_assoc in F.
  replace (96 + i * 40 + 36) with (96 + i * 40 + 32 + Z.of_nat 4) by lia. exact F.
Qed.

Lemma count_used_range snaps : 0 ≤ count_used_snaps snaps ≤ zlen snaps.
Proof. unfold count_used_snaps. pose proof (length_filter (λ s, s_used s = true) snaps). zlia. Qed.

Lemma pack_super_spec buf v slot (Q : list Z → Prop) :
  zlen buf = BLOCK → super_typed v → u8 slot →
  (∀ b, zlen b = BLOCK → bytes_ok b → carries b (super_layout v slot) → check_crc b SB_CRC_OFF = Ret (inl tt) → Q b) →
  owp (pack_super buf v slot) Q.
Proof.
  intros Hl [] Hslot HQ. unfold pack_super.
  assert (F : filled BLOCK (replicate (length buf) 0) [] 0).
  { replace (length buf) with (Z.to_nat BLOCK) by zlia. by apply filled_zero. }
  generalize dependent (replicate (length buf) 0). intros b F.
  pose proof (count_used_range (v_snaps v)) as Hcnt.
  assert (Hns : is_byte (count_used_snaps (v_snaps v))) by (unfold is_byte; zlia).
  unfold put32, put16, put64, BLOCK in *. change SB_CRC_OFF with 4092 in *.
  do 14 fill_step F.
  destruct (list4 _ su_snaps0) as (s0 & s1 & s2 & s3 & He). unfold super_layout in HQ. rewrite He in *.
  do 5 (apply Forall_cons in su_snaps_ok0 as [? su_snaps_ok0] || clear su_snaps_ok0).
  change (range 0 MAX_SNAPS) with [0; 1; 2; 3]. cbn [ofor]. rewrite <-!app_assoc in F. cbn [app] in F.
  do 2 apply owp_bind. apply (pack_snap_spec _ _ _ _ _ _ s0 _ F); [zlia|lia|lia|done|done|]. clear F. intros c1 F.
  apply owp_bind. apply (pack_snap_spec _ _ _ _ _ _ s1 _ F); [lia..|done|done|]. clear F. intros c2 F.
  apply owp_bind. apply (pack_snap_spec _ _ _ _ _ _ s2 _ F); [lia..|done|done|]. clear F. intros c3 F.
  apply owp_bind. apply (pack_snap_spec _ _ _ _ _ _ s3 _ F); [lia..|done|done|]. clear F. intros c4 F.
  apply owp_ret. destruct F as [Fl Fb Fc Fe]. rewrite <-!app_assoc in Fc, Fe.
  destruct (set_crc_spec c4 4092) as (crc & -> & Hk); [lia..|done|]. apply HQ.
  - rewrite zlen_splice; rewrite ?zlen_le_bytes; lia.
  - apply splice_bytes; [done|apply le_bytes_ok].
  - apply carries_ne; rewrite ?zlen_le_bytes; [lia|lia| |exact Fc].
    eapply Forall_impl; [exact Fe|]. cbn. lia.
  - done.
Qed.

Lemma parse_snap_ret b ns i s l :
  carries b (snap_layout i s) → snap_typed s → 0 ≤ i < zlen l →
  parse_snap b ns i l = Ret (<[Z.to_nat i := mkSnap ((i <? ns) && negb (s_inode_root s =? 0)) (s_name s)
    (s_generation s) (s_inode_root s) (s_alloc_root s) (s_next_ino s)]> l).
Proof.
  intros Hc [] Hi. unfold snap_layout in Hc. unfold parse_snap, le32, le64. read_layout Hc.
  rewrite (sub_holds b _ 16 (s_name s)); [|eapply carries_elem; [exact Hc|in_layout]|zlia].
  cbn [obind]. by rewrite store_ret.
Qed.

Lemma parse_super_spec b v slot :
  carries b (super_layout v slot) → check_crc b SB_CRC_OFF = Ret (inl tt) → super_typed v →
  snaps_packed (v_snaps v) → parse_super b slot = Ret (inl (super_of v)).
Proof.
  intros Hc Hk [] Hp. unfold super_layout in Hc.
  destruct (list4 _ su_snaps0) as (s0 & s1 & s2 & s3 & He).
  pose proof (count_used_range (v_snaps v)) as Hcnt.
  rewrite He in Hc at 2. rewrite He in su_snaps_ok0.
  do 5 (apply Forall_cons in su_snaps_ok0 as [? su_snaps_ok0] || clear su_snaps_ok0).
  change (imap (λ i, snap_layout (Z.of_nat i)) [s0; s1; s2; s3])
    with [snap_layout 0 s0; snap_layout 1 s1; snap_layout 2 s2; snap_layout 3 s3] in Hc.
  cbn [concat] in Hc. rewrite !carries_app in Hc. destruct Hc as (Hc & Hc0 & Hc1 & Hc2 & Hc3 & _).
  unfold MIN_BLOCKS, MAX_BLOCKS, MAX_SNAPS in *.
  unfold parse_super, le32, le16, le64. read_layout Hc; [|by compute..]. cbn [obind oebind].
  rewrite Hk, !Z.eqb_refl. cbn [negb oebind obind]. unfold MIN_BLOCKS, MAX_BLOCKS, MAX_SNAPS in *.
  rewrite (proj2 (Z.ltb_ge (v_nblocks v) 16)), (proj2 (Z.ltb_ge 1024 (v_nblocks v))) by lia. cbn [orb].
  rewrite (sub_holds b 40 16 (v_uuid v)); [|eapply carries_elem; [exact Hc|in_layout]|zlia].
  rewrite (sub_holds b 56 32 (v_label v)); [|eapply carries_elem; [exact Hc|in_layout]|zlia]. cbn [obind].
  rewrite (proj2 (Z.ltb_ge 4 (count_used_snaps (v_snaps v)))) by zlia.
  set (ns := count_used_snaps (v_snaps v)) in *.
  change (range 0 4) with [0; 1; 2; 3]. cbn [ofor].
  rewrite (parse_snap_ret b ns 0 s0) by (done || zlia). cbn [obind].
  rewrite (parse_snap_ret b ns 1 s1) by (done || zlia). cbn [obind].
  rewrite (parse_snap_ret b ns 2 s2) by (done || zlia). cbn [obind].
  rewrite (parse_snap_ret b ns 3 s3) by (done || zlia). cbn [obind].
  f_equal. f_equal. unfold super_of. f_equal. rewrite He. cbn -[Z.ltb].
  assert (Hs : ∀ i s, v_snaps v !! i = Some s →
    mkSnap ((Z.of_nat i <? ns) && negb (s_inode_root s =? 0)) (s_name s) (s_generation s) (s_inode_root s)
      (s_alloc_root s) (s_next_ino s) = s).
  { intros i s Hi. destruct (Hp i s Hi) as [Hu Hr]. destruct s as [u nm g ir ar nx]; cbn in *. f_equal.
    destruct (Z.ltb_spec (Z.of_nat i) ns) as [Hlt|Hge].
    - rewrite bool_decide_true in Hu by done. subst u. by rewrite (proj2 (Z.eqb_neq _ _)) by auto.
    - by rewrite bool_decide_false in Hu by lia. }
  rewrite He in Hs. apply (f_equal2 cons (Hs 0%nat s0 eq_refl)), (f_equal2 cons (Hs 1%nat s1 eq_refl)),
    (f_equal2 cons (Hs 2%nat s2 eq_refl)), (f_equal2 cons (Hs 3%nat s3 eq_refl)). done.
Qed.

(** ** The allocation map *)
Lemma drop_ref_take nb nblocks b bm rc :
  nblocks ≤ 8 * Z.of_nat nb →
  drop_ref nblocks b (take nb bm, take (Z.to_nat nblocks) rc) =
  (take nb (drop_ref nblocks b (bm, rc)).1, take (Z.to_nat nblocks) (drop_ref nblocks b (bm, rc)).2).
Proof.
  intros Hnb. unfold drop_ref. destruct (Z.ltb_spec b 2), (Z.leb_spec nblocks b); [done..|]. cbn [orb].
  rewrite lookup_take_lt by lia. destruct (rc !! Z.to_nat b) as [r|]; [|done].
  destruct (r =? 0); [done|]. destruct (r - 1 =? 0); cbn [fst snd].
  - rewrite lookup_take_lt by (assert (b / 8 < Z.of_nat nb) by dlia; dlia).
    destruct (bm !! Z.to_nat (b / 8)); cbn [fst snd]; by rewrite ?take_insert_lt by (assert (b / 8 < Z.of_nat nb) by dlia; dlia || lia).
  - by rewrite take_insert_lt by lia.
Qed.

Lemma drop_refs_take nb nblocks bs bm rc :
  nblocks ≤ 8 * Z.of_nat nb →
  drop_refs nblocks bs (take nb bm, take (Z.to_nat nblocks) rc) =
  (take nb (drop_refs nblocks bs (bm, rc)).1, take (Z.to_nat nblocks) (drop_refs nblocks bs (bm, rc)).2).
Proof.
  intros Hnb. unfold drop_refs. revert bm rc. induction bs as [|b bs IH]; intros bm rc; [done|].
  cbn [fold_left]. rewrite drop_ref_take by done. destruct (drop_ref nblocks b (bm, rc)). apply IH.
Qed.

Lemma drop_ref_shape nblocks b m :
  bytes_ok m.1 → bytes_ok m.2 →
  length (drop_ref nblocks b m).1 = length m.1 ∧ length (drop_ref nblocks b m).2 = length m.2 ∧
  bytes_ok (drop_ref nblocks b m).1 ∧ bytes_ok (drop_ref nblocks b m).2.
Proof.
  destruct m as [bm rc]. cbn [fst snd]. intros Hb Hr. unfold drop_ref.
  destruct (_ || _); [done|]. destruct (rc !! Z.to_nat b) as [r|] eqn:Hrb; [|done].
  destruct (Z.eqb_spec r 0); [done|].
  assert (Hbr : is_byte (r - 1)).
  { pose proof (Forall_lookup_1 _ _ _ _ Hr Hrb) as Hx. unfold is_byte in *. lia. }
  destruct (r - 1 =? 0).
  - destruct (bm !! Z.to_nat (b / 8)) as [x|] eqn:Hx; cbn [fst snd]; rewrite !length_insert;
      (split_and!; [done|done| |by apply Forall_insert]); [|done].
    apply Forall_insert; [done|]. apply is_byte_land. exact (Forall_lookup_1 _ _ _ _ Hb Hx).
  - cbn [fst snd]. rewrite length_insert. split_and!; [done|done|done|by apply Forall_insert].
Qed.

Lemma drop_refs_shape nblocks bs m :
  bytes_ok m.1 → bytes_ok m.2 →
  length (drop_refs nblocks bs m).1 = length m.1 ∧ length (drop_refs nblocks bs m).2 = length m.2 ∧
  bytes_ok (drop_refs nblocks bs m).1 ∧ bytes_ok (drop_refs nblocks bs m).2.
Proof.
  unfold drop_refs. revert m. induction bs as [|b bs IH]; intros m Hb Hr; [done|]. cbn [fold_left].
  destruct (drop_ref_shape nblocks b m Hb Hr) as (H1 & H2 & H3 & H4).
  destruct (IH _ H3 H4) as (? & ? & ? & ?). split_and!; [congruence|congruence|done|done].
Qed.

(** The sizes the allocation map's parts have. *)
Definition alloc_layout (nblocks g : Z) (m : list Z * list Z) : layout :=
  hdr_layout META_ALLOC 0 nblocks g 0 ++
  [(HDR, take (Z.to_nat (div_ceil nblocks 8)) m.1);
   (HDR + div_ceil nblocks 8, take (Z.to_nat nblocks) m.2)].

Lemma div_ceil_8 n : 0 ≤ n ≤ 1024 → n ≤ 8 * div_ceil n 8 ∧ 0 ≤ div_ceil n 8 ≤ 128.
Proof. intros. unfold div_ceil. dlia. Qed.

Lemma sub_take l n : 0 ≤ n ≤ zlen l → sub l 0 n = Ret (take (Z.to_nat n) l).
Proof. intros. unfold sub. by rewrite slice_in by lia. Qed.

Lemma alloc_into_spec buf nblocks g bm rc dropped old_meta (Q : list Z → Prop) :
  zlen buf = BLOCK → MIN_BLOCKS ≤ nblocks ≤ MAX_BLOCKS → length bm = 128%nat → length rc = 1024%nat →
  bytes_ok bm → bytes_ok rc →
  (∀ b, sealed b (alloc_layout nblocks g (drop_refs nblocks (old_meta ++ dropped) (bm, rc))) → Q b) →
  owp (alloc_into buf nblocks g bm rc dropped old_meta) Q.
Proof.
  intros Hl Hn Hbm Hrc Hb Hr HQ. unfold alloc_into, alloc_layout in *. change MIN_BLOCKS with 16 in *. change MAX_BLOCKS with 1024 in *.
  destruct (div_ceil_8 nblocks ltac:(lia)) as [Hd1 Hd2]. set (nb := div_ceil nblocks 8) in *.
  replace (wrap 16 nblocks) with nblocks by (unfold wrap; rewrite Z.mod_small; lia).
  apply owp_bind. apply meta_hdr_spec; [done|by compute..|]. intros b0 F.
  rewrite sub_take by zlia. cbn [obind]. set (bmt := take (Z.to_nat nb) bm).
  assert (Hbmt : zlen bmt = nb) by (unfold bmt; zlia).
  apply owp_bind. apply (filled_copy _ _ _ _ _ _ _ F);
    [done|done|change HDR with 32; change BLOCK with 4096; lia|by apply Forall_take|]. intros b1 F1.
  rewrite sub_take by zlia. cbn [obind]. set (rct := take (Z.to_nat nblocks) rc).
  assert (Hrct : zlen rct = nblocks) by (unfold rct; zlia).
  apply owp_bind. apply (filled_copy _ _ _ _ _ _ _ F1);
    [lia|change HDR with 32; lia|change HDR with 32; change BLOCK with 4096; lia|by apply Forall_take|]. intros b2 F2.
  pose proof (fl_carries _ _ _ _ F2) as Hc2. rewrite !carries_app in Hc2. destruct Hc2 as [[Hch Hcb] Hcr].
  rewrite carries_1 in Hcb, Hcr.
  rewrite (sub_holds _ _ _ _ Hcb), (sub_holds _ _ _ _ Hcr) by done. cbn [obind].
  unfold bmt, rct. rewrite drop_refs_take by lia.
  destruct (drop_refs_shape nblocks (old_meta ++ dropped) (bm, rc) Hb Hr) as (L1 & L2 & B1 & B2).
  cbn [fst snd] in L1, L2. destruct (drop_refs nblocks (old_meta ++ dropped) (bm, rc)) as [bm' rc']. cbn [fst snd] in *.
  assert (F3 : filled BLOCK b2 (hdr_layout META_ALLOC 0 nblocks g 0) 24).
  { eapply filled_sub; [exact F2|exact Hch|exact (fl_ends _ _ _ _ F)]. }
  assert (Hbl : zlen (take (Z.to_nat nb) bm') = nb) by zlia.
  assert (Hrl : zlen (take (Z.to_nat nblocks) rc') = nblocks) by zlia.
  apply owp_bind. apply (filled_copy _ _ _ _ _ _ _ F3);
    [done|done|change HDR with 32; change BLOCK with 4096; lia|by apply Forall_take|]. intros b3 F4.
  apply owp_bind. apply (filled_copy _ _ _ _ _ _ _ F4);
    [lia|change HDR with 32; lia|change HDR with 32; change BLOCK with 4096; lia|by apply Forall_take|]. intros b4 F5.
  rewrite <-app_assoc in F5. eapply finish_meta_spec; [exact F5| |exact HQ].
  apply off_crc_app. split; [apply off_crc_hdr|]. change HDR with 32.
  repeat (apply Forall_cons; split; [cbn [fst snd]; lia|]). by apply Forall_nil.
Qed.
