(* ===== verification/VibefsCodec.v ===== *)
(** * vibefs: records on disk (src/crates/core/src/fs/vibefs/layout.rs)

    Packing and unpacking are inverse, and the checksum refuses every block that
    was changed in one place. *)

From stdpp Require Import base strings numbers gmap list.
From S2P Require Import Prelude Bytes Crc Buf FsError Vibefs VibefsLayout.
Import Vibefs.

Local Open Scope Z_scope.

(** ** Round trips *)

(** ** Writes below byte 256 *)
Definition low_write (b : list Z) (o : outcome (list Z)) : Prop := ∀ b', o = Ret b' → drop 256 b' = drop 256 b.

Lemma low_copy b o bs : o + zlen bs ≤ 256 → low_write b (copy_into b o bs).
Proof.
  intros Hl b'. unfold copy_into. destruct (0 <=? o) eqn:Ho; [|done]. cbn [andb]. destruct (o + zlen bs <=? zlen b) eqn:He; [|done].
  intros [= <-]. apply Z.leb_le in Ho, He. unfold splice. rewrite app_assoc, drop_app_ge by (rewrite length_app, length_take; zlia).
  rewrite drop_drop. f_equal. rewrite length_app, length_take. zlia.
Qed.
Lemma low_store b o x : o < 256 → low_write b (store b o x).
Proof.
  intros Hl b' Hb. destruct (decide (0 ≤ o < zlen b)) as [Ho|Ho].
  - rewrite store_splice in Hb by done. apply (low_copy b o [x]); [zlia|]. rewrite copy_into_ret by zlia. done.
  - unfold store in Hb. destruct ((0 <=? o) && (o <? Z.of_nat (length b))) eqn:E; [|done]. apply andb_true_iff in E as [E1%Z.leb_le E2%Z.ltb_lt].
    destruct Ho. unfold zlen. lia.
Qed.
Lemma low_bind b o k : low_write b o → (∀ b', o = Ret b' → low_write b' (k b')) → low_write b (obind o k).
Proof. intros Ho Hk b' Hb. destruct o as [b1| | |]; try done. rewrite (Hk b1 eq_refl b' Hb). by apply Ho. Qed.

Lemma pack_inode_low tail r : length (i_inline_data r) = 128%nat → low_write tail (pack_inode tail r).
Proof.
  intros Hi. unfold pack_inode, put16, put32, put64, save.
  repeat first [apply low_bind; [first [apply low_copy; rewrite ?zlen_le_bytes; by compute|apply low_store; lia]|intros ? _]|idtac].
  apply low_bind.
  - change (range 0 MAX_EXT) with [0; 1; 2; 3]. cbn [ofor].
    assert (He : ∀ i b, 0 ≤ i < 4 → low_write b (pack_extent r i b)).
    { intros i b Hr. unfold pack_extent. destruct (index (i_extents r) i) as [e| | |]; try done. cbn [obind]. unfold put32, save.
      repeat first [apply low_bind; [apply low_copy; rewrite zlen_le_bytes; lia|intros ? _]|apply low_copy; rewrite zlen_le_bytes; lia]. }
    repeat (apply low_bind; [apply He; lia|intros ? _]). intros x [= <-]. done.
  - intros b _. apply low_copy. zlia.
Qed.

(** C37: An inode record with its fields in their types, of a kind the format
    knows, with at most four extents and 128 inline bytes, packs into any buffer of
    at least 256 bytes, touches nothing past them, and unpacks to itself. *)
Theorem inode_roundtrip tail r :
  256 ≤ zlen tail → bytes_ok tail → inode_typed r → inode_valid r → i_used r = true →
  ∃ b, pack_inode tail r = Ret b ∧ zlen b = zlen tail ∧ bytes_ok b ∧ drop 256 b = drop 256 tail ∧ unpack_inode b = Ret (inl r).
Proof.
  intros Hl Hb Ht Hv Hu.
  assert (Hp : owp (pack_inode tail r) (λ b, zlen b = zlen tail ∧ bytes_ok b ∧ unpack_inode b = Ret (inl r))).
  { apply pack_inode_spec; [done..|]. intros b [Fl Fb Fc _]. split_and!; [done|done|]. by apply unpack_inode_spec. }
  destruct (pack_inode tail r) as [b| | |] eqn:Hpk; [|done..]. exists b. destruct Hp as (? & ? & ?). split_and!; try done.
  by apply (pack_inode_low tail r (it_inline _ Ht)).
Qed.

Lemma inode_roundtrip_witness :
  ∃ b, pack_inode (replicate 300 7) (mkInode true 9 KIND_REG 1 420 1 0 0 5 1 2 3 0 1 5 (mkExtent 0 8 1 77 :: replicate 3 Extent_EMPTY) (replicate 128 1)) = Ret b
    ∧ zlen b = 300.
Proof.
  destruct (inode_roundtrip (replicate 300 7) (mkInode true 9 KIND_REG 1 420 1 0 0 5 1 2 3 0 1 5 (mkExtent 0 8 1 77 :: replicate 3 Extent_EMPTY)
    (replicate 128 1))) as (b & Hb & Hl & _).
  - by vm_compute.
  - apply Forall_replicate. by vm_compute.
  - split; try (by vm_compute); [|apply Forall_replicate; by vm_compute].
    apply Forall_cons. split; [split; by vm_compute|]. apply Forall_replicate. split; by vm_compute.
  - by vm_compute.
  - done.
  - exists b. exact (conj Hb Hl).
Defined.

(** A superblock names its slot. *)
Lemma parse_super_slot b s slot slot' :
  parse_super b slot = Ret (inl s) → slot' ≠ slot → parse_super b slot' = Ret (inr Corrupt).
Proof.
  unfold parse_super. intros Hp Hne. destruct (le32 b 0) as [magic| | |]; [|done..]. cbn [obind] in *.
  destruct (negb (magic =? MAGIC_SUPER)); [done|]. destruct (check_crc b SB_CRC_OFF) as [[[]|e]| | |]; [|done..]. cbn [oebind obind] in *.
  destruct (le16 b 4) as [ver| | |]; [|done..]. cbn [obind] in *. destruct (negb (ver =? VERSION)); [done|].
  destruct (index b 6) as [sl| | |]; [|done..]. cbn [obind] in *.
  destruct (Z.eqb_spec sl slot) as [E|]; [|done]. by rewrite (proj2 (Z.eqb_neq sl slot')) by congruence.
Qed.

(** C38: A superblock written to slot 0 or 1 reads back, from that slot, as the
    fields of the volume it was written from; from the other slot it is refused. *)
Theorem super_roundtrip buf v slot :
  zlen buf = BLOCK → super_typed v → snaps_packed (v_snaps v) → slot = 0 ∨ slot = 1 →
  ∃ b, pack_super buf v slot = Ret b ∧ zlen b = BLOCK ∧ parse_super b slot = Ret (inl (super_of v)) ∧
    parse_super b (1 - slot) = Ret (inr Corrupt).
Proof.
  intros Hl Ht Hs Hslot.
  assert (Hp : owp (pack_super buf v slot) (λ b, zlen b = BLOCK ∧ parse_super b slot = Ret (inl (super_of v)) ∧
    parse_super b (1 - slot) = Ret (inr Corrupt))).
  { apply pack_super_spec; [done|done|destruct Hslot as [->| ->]; by compute|]. intros b Hb _ Hc Hk.
    pose proof (parse_super_spec b v slot Hc Hk Ht Hs) as Hps. split_and!; [done|done|]. eapply parse_super_slot; [exact Hps|lia]. }
  destruct (pack_super buf v slot) as [b| | |]; [|done..]. by exists b.
Qed.

Lemma super_roundtrip_witness :
  ∃ b, pack_super (replicate 4096 0) (set_nblocks Vol_new 64) 1 = Ret b ∧ parse_super b 1 = Ret (inl (super_of (set_nblocks Vol_new 64))).
Proof.
  destruct (super_roundtrip (replicate 4096 0) (set_nblocks Vol_new 64) 1) as (b & Hb & _ & Hp & _).
  - by vm_compute.
  - split; try (by vm_compute); try (apply Forall_replicate; by vm_compute).
    apply Forall_replicate. split; try (by vm_compute). apply Forall_replicate. by vm_compute.
  - intros i s Hi. cbn [v_snaps set_nblocks Vol_new] in *. apply lookup_replicate in Hi as [-> _].
    split; [|done]. change (count_used_snaps _) with 0. rewrite bool_decide_eq_false_2; [done|lia].
  - by right.
  - exists b. exact (conj Hb Hp).
Defined.

(** ** Checksums *)

(** The checksum is over the block with its own field zeroed. *)
Lemma check_crc_eq b off x :
  0 ≤ off → off + 4 ≤ zlen b → load 4 b off = Ret x →
  check_crc b off = Ret (if x =? crc32_ieee (splice b off (le_bytes 4 0)) then inl tt else inr Corrupt).
Proof.
  intros Ho Hl Hx. unfold check_crc, le32. rewrite Hx, crc_block_zeroed by done. cbn [obind]. by destruct (x =? _).
Qed.

Lemma load_mid p c q off : zlen p = off → length c = 4%nat → load 4 (p ++ c ++ q) off = Ret (le_val c).
Proof. intros Hp Hc. unfold load. rewrite (sub_holds _ off _ c) by (by apply holds_mid || zlia). done. Qed.

(** Bytes [u] beside the field: the same sum is stored, and [u] is summed. *)
Lemma burst_outside p (u : list Z) q off :
  0 ≤ off → off + 4 ≤ zlen p ∨ zlen p + zlen u ≤ off → off + 4 ≤ zlen p + zlen u + zlen q → bytes_ok p → bytes_ok q →
  ∃ x p' q', bytes_ok p' ∧ bytes_ok q' ∧ ∀ u' : list Z, length u' = length u →
    load 4 (p ++ u' ++ q) off = Ret x ∧ splice (p ++ u' ++ q) off (le_bytes 4 0) = p' ++ u' ++ q'.
Proof.
  intros Ho Hout Hend Hp Hq. pose proof (le_bytes_ok 4 0) as Hz. destruct Hout as [Hin|Hin].
  - destruct (buf_open p off 4) as (p1 & c & p2 & -> & Hp1 & Hc); [lia..|]. exists (le_val c), (p1 ++ le_bytes 4 0 ++ p2), q.
    apply Forall_app in Hp as [Hp Hp2]. apply Forall_app in Hp2 as [_ Hp2].
    split_and!; [apply Forall_app; split; [done|by apply Forall_app]|done|]. intros u' Hu.
    replace ((p1 ++ c ++ p2) ++ u' ++ q) with (p1 ++ c ++ (p2 ++ u' ++ q)) by (by rewrite <-!app_assoc).
    rewrite load_mid, splice_mid by (rewrite ?length_le_bytes; zlia). by rewrite <-!app_assoc.
  - destruct (buf_open q (off - zlen p - zlen u) 4) as (q1 & c & q2 & -> & Hq1 & Hc); [lia..|].
    exists (le_val c), p, (q1 ++ le_bytes 4 0 ++ q2). apply Forall_app in Hq as [Hq Hq2]. apply Forall_app in Hq2 as [_ Hq2].
    split_and!; [done|apply Forall_app; split; [done|by apply Forall_app]|]. intros u' Hu.
    replace (p ++ u' ++ q1 ++ c ++ q2) with ((p ++ u' ++ q1) ++ c ++ q2) by (by rewrite <-!app_assoc).
    rewrite load_mid, splice_mid by (rewrite ?length_le_bytes; zlia). by rewrite <-!app_assoc.
Qed.

(** Bytes [u] inside the field: the sum is of the rest. *)
Lemma burst_inside p (u : list Z) q off :
  0 ≤ off ≤ zlen p → zlen p + zlen u ≤ off + 4 → off + 4 ≤ zlen p + zlen u + zlen q → bytes_ok p → bytes_ok q →
  ∃ z a b, bytes_ok a ∧ bytes_ok b ∧ ∀ u' : list Z, length u' = length u →
    load 4 (p ++ u' ++ q) off = Ret (le_val (a ++ u' ++ b)) ∧ splice (p ++ u' ++ q) off (le_bytes 4 0) = z.
Proof.
  intros Ho Hin Hend Hp Hq. pose proof (zlen_nonneg u) as Hnu.
  set (p1 := take (Z.to_nat off) p). set (a := drop (Z.to_nat off) p).
  set (k := Z.to_nat (off + 4 - zlen p - zlen u)). set (b := take k q). set (q2 := drop k q).
  exists (p1 ++ le_bytes 4 0 ++ q2), a, b. split_and!; [by apply Forall_drop|by apply Forall_take|]. intros u' Hu.
  assert (E : p ++ u' ++ q = p1 ++ (a ++ u' ++ b) ++ q2).
  { rewrite <-(take_drop (Z.to_nat off) p) at 1. rewrite <-(take_drop k q) at 1. fold p1 a b q2. by rewrite <-!app_assoc. }
  assert (L1 : zlen p1 = off) by (unfold p1; zlia). assert (La : zlen a = zlen p - off) by (unfold a; zlia).
  assert (Lb : zlen b = off + 4 - zlen p - zlen u) by (unfold b, k; zlia).
  rewrite E, load_mid, splice_mid by (rewrite ?length_le_bytes; zlia). done.
Qed.

(** C39: A block whose checksum holds, in which up to four consecutive bytes are
    then changed beside the checksum field, or inside it, is refused as corrupt. *)
Theorem crc_refuses_burst p w w' q off :
  bytes_ok p → bytes_ok w → bytes_ok w' → bytes_ok q → length w = length w' → (length w ≤ 4)%nat → w ≠ w' →
  0 ≤ off → off + 4 ≤ zlen p + zlen w + zlen q →
  (off + 4 ≤ zlen p ∨ zlen p + zlen w ≤ off) ∨ (off ≤ zlen p ∧ zlen p + zlen w ≤ off + 4) →
  check_crc (p ++ w ++ q) off = Ret (inl tt) → check_crc (p ++ w' ++ q) off = Ret (inr Corrupt).
Proof.
  intros Hp Hw Hw' Hq Hlen Hle Hne Ho Hend Hpos Hc.
  assert (Hl : ∀ u, length u = length w → off + 4 ≤ zlen (p ++ u ++ q)) by (intros u Hu; zlia).
  destruct Hpos as [Hout|[Hin1 Hin2]].
  - destruct (burst_outside p w q off Ho Hout Hend Hp Hq) as (x & p' & q' & Hp' & Hq' & Hu).
    destruct (Hu w eq_refl) as [Hx Hs], (Hu w' (eq_sym Hlen)) as [Hx' Hs'].
    rewrite (check_crc_eq _ off x), Hs in Hc by (done || by apply Hl). rewrite (check_crc_eq _ off x), Hs' by (done || by apply Hl).
    destruct (Z.eqb_spec x (crc32_ieee (p' ++ w ++ q'))) as [->|]; [|done].
    destruct (Z.eqb_spec (crc32_ieee (p' ++ w ++ q')) (crc32_ieee (p' ++ w' ++ q'))) as [E|]; [|done].
    apply crc32_burst in E; [done..].
  - destruct (burst_inside p w q off) as (z & a & b & Ha & Hb & Hu); [lia|done|done|done|done|].
    destruct (Hu w eq_refl) as [Hx Hs], (Hu w' (eq_sym Hlen)) as [Hx' Hs'].
    rewrite (check_crc_eq _ off _), Hs in Hc by (exact Hx || done || by apply Hl).
    rewrite (check_crc_eq _ off _), Hs' by (exact Hx' || done || by apply Hl).
    destruct (Z.eqb_spec (le_val (a ++ w ++ b)) (crc32_ieee z)) as [<-|]; [|done].
    destruct (Z.eqb_spec (le_val (a ++ w' ++ b)) (le_val (a ++ w ++ b))) as [E|]; [|done].
    apply (f_equal (le_bytes (length (a ++ w ++ b)))) in E. rewrite le_bytes_val in E by (repeat apply Forall_app_2; done).
    replace (length (a ++ w ++ b)) with (length (a ++ w' ++ b)) in E by (by rewrite !length_app, Hlen).
    rewrite le_bytes_val in E by (repeat apply Forall_app_2; done).
    apply app_inv_head in E. apply app_inj_1 in E as [E _]; done.
Qed.

Lemma crc_refuses_burst_witness :
  let c := crc32_ieee (replicate 16 1 ++ [0; 0; 0; 0; 5]) in
  check_crc ((replicate 16 1 ++ le_bytes 4 c) ++ [6] ++ []) 16 = Ret (inr Corrupt).
Proof.
  intros c. apply (crc_refuses_burst (replicate 16 1 ++ le_bytes 4 c) [5] [6] [] 16).
  - apply Forall_app. split; [apply Forall_replicate; by compute|apply le_bytes_ok].
  - apply Forall_singleton. by compute.
  - apply Forall_singleton. by compute.
  - by apply Forall_nil.
  - done.
  - cbn. lia.
  - done.
  - lia.
  - by vm_compute.
  - left. left. by vm_compute.
  - by vm_compute.
Defined.
