(* ===== verification/VibefsSort.v ===== *)
(** * vibefs: the order a commit writes records in (src/crates/core/src/fs/vibefs/commit.rs)

    The collection loops and the insertion sort of [collect_inodes] and
    [collect_dents]: the used slots, each once, in key order. *)

From stdpp Require Import base strings numbers gmap list sorting.
From S2P Require Import Prelude Bytes Crc Buf FsError Vibefs VibefsCommit.
Import VibefsCommit.

Local Open Scope Z_scope.

(** ** Collecting *)
Fixpoint indices {A} (p : A → bool) (l : list A) (i : Z) : list Z :=
  match l with [] => [] | x :: l => if p x then i :: indices p l (i + 1) else indices p l (i + 1) end.

Lemma collect_spec {A} (p : A → bool) (l : list A) i pre rest :
  zlen (indices p l i) ≤ zlen rest →
  ∃ rest', collect p l i (pre ++ rest) (zlen pre) =
    Ret (pre ++ indices p l i ++ rest', zlen pre + zlen (indices p l i)) ∧
    zlen rest = zlen (indices p l i) + zlen rest'.
Proof.
  revert i pre rest. induction l as [|x l IH]; intros i pre rest Hl; cbn [collect indices] in *.
  { exists rest. rewrite Z.add_0_r. cbn. split; [done|zlia]. }
  destruct (p x).
  - destruct rest as [|y rest]; [zlia|]. rewrite store_mid by done. cbn [obind].
    destruct (IH (i + 1) (pre ++ [i]) rest) as (rest' & Heq & Hr); [zlia|].
    exists rest'. rewrite <-!app_assoc in Heq. cbn [app] in Heq.
    rewrite zlen_app in Heq. change (zlen [i]) with 1 in Heq. rewrite Heq.
    split; [|zlia]. f_equal. f_equal. zlia.
  - by apply IH.
Qed.

Lemma elem_of_indices {A} (p : A → bool) (l : list A) i j :
  j ∈ indices p l i ↔ ∃ x, i ≤ j ∧ l !! Z.to_nat (j - i) = Some x ∧ p x = true.
Proof.
  revert i. induction l as [|y l IH]; intros i; cbn [indices].
  { rewrite elem_of_nil. split; [done|]. intros (x & _ & H & _). by rewrite lookup_nil in H. }
  assert (Hcons : (∃ x, i + 1 ≤ j ∧ l !! Z.to_nat (j - (i + 1)) = Some x ∧ p x = true) ↔
                  (∃ x, i < j ∧ (y :: l) !! Z.to_nat (j - i) = Some x ∧ p x = true)).
  { split; intros (x & Hj & Hx & Hp); exists x; (split; [lia|]); (split; [|done]).
    - replace (Z.to_nat (j - i)) with (S (Z.to_nat (j - (i + 1)))) by lia. done.
    - replace (Z.to_nat (j - i)) with (S (Z.to_nat (j - (i + 1)))) in Hx by lia. done. }
  destruct (p y) eqn:Hpy; rewrite ?elem_of_cons, IH, Hcons; split.
  - intros [->|(x & Hj & Hx)]; [exists y; rewrite Z.sub_diag; split_and!; [lia|done|done]|exists x; split; [lia|done]].
  - intros (x & Hj & Hx & Hp). destruct (Z.eq_dec j i) as [->|]; [by left|right; exists x; split; [lia|done]].
  - intros (x & Hj & Hx). exists x. split; [lia|done].
  - intros (x & Hj & Hx & Hp). exists x. split; [|done]. destruct (Z.eq_dec j i) as [->|]; [|lia].
    rewrite Z.sub_diag in Hx. injection Hx as ->. congruence.
Qed.

(** The elements at the indices are the ones that satisfy [p], in order. *)
Lemma indices_filter {A} (p : A → bool) (l pre : list A) :
  omap (λ j, (pre ++ l) !! Z.to_nat j) (indices p l (zlen pre)) = filter (λ x, p x = true) l.
Proof.
  revert pre. induction l as [|y l IH]; intros pre; [done|]. cbn [indices].
  assert (Htl : omap (λ j, (pre ++ y :: l) !! Z.to_nat j) (indices p l (zlen pre + 1)) = filter (λ x, p x = true) l).
  { rewrite <-(IH (pre ++ [y])), <-app_assoc. rewrite zlen_app. done. }
  destruct (p y) eqn:Hpy.
  - rewrite filter_cons_True by done. cbn [omap list_omap]. unfold zlen at 1. rewrite Nat2Z.id, list_lookup_middle by done.
    f_equal. exact Htl.
  - rewrite filter_cons_False by congruence. exact Htl.
Qed.

Lemma indices_ext {A} (p : A → bool) (l l' : list A) i :
  Forall2 (λ a b, p a = p b) l l' → indices p l i = indices p l' i.
Proof. intros H. revert i. induction H as [|a b l l' Hab H IH]; intros i; [done|]. cbn [indices]. by rewrite Hab, !IH. Qed.

Lemma indices_nodup {A} (p : A → bool) (l : list A) i : NoDup (indices p l i).
Proof.
  revert i. induction l as [|x l IH]; intros i; cbn [indices]; [constructor|].
  destruct (p x); [|apply IH]. constructor; [|apply IH]. rewrite elem_of_indices. intros (y & Hy & _). lia.
Qed.

(** ** Sorting *)
Section sort.
Context (gt : Z → Z → outcome bool) (g : Z → Z → bool) (dom : Z → Prop).
Hypothesis gt_ret : ∀ x y, dom x → dom y → gt x y = Ret (g x y).

Lemma sift_spec s y rest :
  Forall dom s → dom y →
  ∃ s1 s2, s = s1 ++ s2 ∧ sift gt (length s) (s ++ y :: rest) = Ret (s1 ++ y :: s2 ++ rest) ∧
    Forall (λ x, g x y = true) s2 ∧ (∀ x, last s1 = Some x → g x y = false).
Proof.
  intros Hs Hy. revert rest. induction s as [|x s IH] using rev_ind; intros rest.
  { exists [], []. by split_and!. }
  apply Forall_app in Hs as [Hs Hx]. rewrite Forall_singleton in Hx.
  rewrite length_app, Nat.add_1_r. cbn [sift]. rewrite <-!app_assoc. cbn [app].
  rewrite (index_mid s _ x) by done. cbn [obind].
  assert (Hidx : index (s ++ x :: y :: rest) (Z.of_nat (S (length s))) = Ret y).
  { change (x :: y :: rest) with ([x] ++ y :: rest). rewrite app_assoc. apply index_mid. zlia. }
  rewrite Hidx. cbn [obind]. rewrite gt_ret by done. cbn [obind]. destruct (g x y) eqn:Hg.
  - rewrite store_mid by done. cbn [obind].
    assert (Hst : store (s ++ y :: y :: rest) (Z.of_nat (S (length s))) x = Ret (s ++ y :: x :: rest)).
    { change (y :: y :: rest) with ([y] ++ y :: rest). rewrite app_assoc, store_mid by zlia. by rewrite <-app_assoc. }
    rewrite Hst. cbn [obind]. destruct (IH Hs (x :: rest)) as (s1 & s2 & -> & -> & Hg2 & Hl).
    exists s1, (s2 ++ [x]). rewrite <-!app_assoc. split_and!; [done|done| |done].
    apply Forall_app. split; [done|]. by apply Forall_singleton.
  - exists (s ++ [x]), []. rewrite app_nil_r, <-app_assoc. split_and!; [done|done|done|].
    intros x'. rewrite last_snoc. by intros [= <-].
Qed.

(** In order: nothing is above what follows it. *)
Definition in_order (l : list Z) : Prop := StronglySorted (λ x y, g x y = false) l.

Hypothesis g_asym : ∀ x y, dom x → dom y → g x y = true → g y x = false.
Hypothesis g_trans : ∀ x y z, dom x → dom y → dom z → g x y = false → g y z = false → g x z = false.

Lemma insert_in_order s1 s2 y :
  Forall dom (s1 ++ s2) → dom y → in_order (s1 ++ s2) → Forall (λ x, g x y = true) s2 →
  (∀ x, last s1 = Some x → g x y = false) → in_order (s1 ++ y :: s2).
Proof.
  unfold in_order. intros Hd Hy Hs H2 H1.
  assert (Hall : Forall (λ x, g x y = false) s1).
  { destruct s1 as [|x0 s1'] eqn:E using rev_ind; [done|]. clear IHs1'.
    pose proof (H1 x0 ltac:(by rewrite last_snoc)) as Hx0.
    apply Forall_app. split; [|by apply Forall_singleton]. apply Forall_forall. intros x Hx.
    rewrite <-app_assoc in Hs, Hd. rewrite Forall_forall in Hd.
    apply (g_trans x x0 y); [apply Hd; set_solver|apply Hd; set_solver|done| |done].
    apply StronglySorted_app_1_elem_of with (x1 := x) (x2 := x0) in Hs; set_solver. }
  rewrite Forall_app in Hd. destruct Hd as [Hd1 Hd2].
  clear H1. induction s1 as [|x s1 IH]; cbn [app] in *.
  - constructor; [done|]. apply Forall_forall. intros z Hz. rewrite Forall_forall in H2, Hd2. apply g_asym; auto.
  - apply StronglySorted_inv in Hs as [Hs Hx]. apply Forall_cons in Hall as [Hxy Hall]. apply Forall_cons in Hd1 as [Hdx Hd1].
    constructor; [by apply IH|]. rewrite Forall_app in Hx |- *. destruct Hx as [Hx1 Hx2].
    split; [done|]. constructor; [done|done].
Qed.

Lemma insertion_sort_spec l rest :
  Forall dom l →
  ∃ l', insertion_sort gt (zlen l) (l ++ rest) = Ret (l' ++ rest) ∧ l' ≡ₚ l ∧ in_order l'.
Proof.
  intros Hd. unfold insertion_sort.
  assert (Hgen : ∀ todo s, Forall dom (s ++ todo) → in_order s → s ≠ [] →
    ∃ l', ofor (range (zlen s) (zlen s + zlen todo)) (λ a out, sift gt (Z.to_nat a) out) (s ++ todo ++ rest) =
      Ret (l' ++ rest) ∧ l' ≡ₚ s ++ todo ∧ in_order l').
  { induction todo as [|y todo IH]; intros s Hdm Hs Hne.
    { exists s. rewrite range_nil by zlia. cbn. by rewrite app_nil_r. }
    rewrite range_cons by zlia. cbn [ofor app]. unfold zlen at 1. rewrite Nat2Z.id.
    apply Forall_app in Hdm as [Hds Hdt]. apply Forall_cons in Hdt as [Hdy Hdt].
    destruct (sift_spec s y (todo ++ rest) Hds Hdy) as (s1 & s2 & -> & -> & H2 & H1). cbn [obind].
    destruct (IH (s1 ++ y :: s2)) as (l' & Heq & Hp & Ho).
    - rewrite !Forall_app, Forall_cons in *. naive_solver.
    - by apply insert_in_order.
    - by destruct s1.
    - exists l'. split_and!; [|rewrite Hp, <-!app_assoc; apply Permutation_app_head, Permutation_middle|done].
      rewrite <-Heq. f_equal; [f_equal; zlia|]. by rewrite <-!app_assoc. }
  destruct l as [|x l].
  { exists []. rewrite range_nil by zlia. split_and!; [done|done|constructor]. }
  destruct (Hgen l [x]) as (l' & Heq & Hp & Ho); [done|repeat constructor|done|].
  exists l'. split_and!; [|done|done]. rewrite <-Heq. f_equal. f_equal. zlia.
Qed.
End sort.

(** ** The order of names *)
Lemma name_gt_asym a b : name_gt a b = true → name_gt b a = false.
Proof.
  revert b. induction a as [|x a IH]; intros [|y b]; cbn; try done.
  destruct (Z.eqb_spec x y) as [->|Hne]; [rewrite Z.eqb_refl; apply IH|].
  rewrite (proj2 (Z.eqb_neq y x)) by done. rewrite Z.ltb_lt, Z.ltb_ge. lia.
Qed.
Lemma name_gt_trans a b c : name_gt a b = false → name_gt b c = false → name_gt a c = false.
Proof.
  revert b c. induction a as [|x a IH]; intros [|y b] [|z c]; cbn; try done.
  destruct (Z.eqb_spec x y), (Z.eqb_spec y z), (Z.eqb_spec x z); subst; try done; try apply IH;
    rewrite ?Z.ltb_ge; intros; try lia. 
Qed.

(** ** The records of a table that an index list picks *)
Definition picked {R} (table : list R) (idx : list Z) (rs : list R) : Prop :=
  Forall2 (λ j r, 0 ≤ j ∧ table !! Z.to_nat j = Some r) idx rs.

Lemma picked_exists {R} (table : list R) idx :
  Forall (λ j, 0 ≤ j < zlen table) idx → ∃ rs, picked table idx rs.
Proof.
  intros H. induction H as [|j idx Hj H IH]; [exists []; constructor|]. destruct IH as [rs Hrs].
  destruct (lookup_lt_is_Some_2 table (Z.to_nat j)) as [r Hr]; [zlia|]. exists (r :: rs). constructor; [split; [lia|done]|done].
Qed.
Lemma picked_omap {R} (table : list R) idx rs : picked table idx rs → omap (λ j, table !! Z.to_nat j) idx = rs.
Proof. induction 1 as [|j r idx rs [_ Hr] H IH]; [done|]. cbn [omap list_omap]. by rewrite Hr, IH. Qed.
Lemma picked_len {R} (table : list R) idx rs : picked table idx rs → zlen idx = zlen rs.
Proof. intros H%Forall2_length. unfold zlen. lia. Qed.

(** What the collection loops promise: the records that satisfy [p], in key
    order, and the array that lists their slots. *)
Definition collected {R} (p : R → bool) (le : R → R → Prop) (table : list R) (r : list Z * Z) (rs : list R) : Prop :=
  ∃ idx rest, r = (idx ++ rest, zlen idx) ∧ picked table idx rs ∧ idx ≡ₚ indices p table 0 ∧
    rs ≡ₚ filter (λ x, p x = true) table ∧ StronglySorted le rs.

Lemma collect_sorted {R} (p : R → bool) (table : list R) (gt : Z → Z → outcome bool) (rgt : R → R → bool) out :
  zlen (filter (λ x, p x = true) table) ≤ zlen out →
  (∀ x y a b, 0 ≤ x → 0 ≤ y → table !! Z.to_nat x = Some a → table !! Z.to_nat y = Some b → p a = true → p b = true →
    gt x y = Ret (rgt a b)) →
  (∀ a b, rgt a b = true → rgt b a = false) → (∀ a b c, rgt a b = false → rgt b c = false → rgt a c = false) →
  ∃ r rs, (r <~ collect p table 0 out 0 ;; let '(out, n) := r in
           out <~ insertion_sort gt n out ;; Ret (out, n)) = Ret r ∧
    collected p (λ a b, rgt a b = false) table r rs.
Proof.
  intros Hl Hgt Has Htr.
  pose proof (indices_filter p table []) as Hfil. cbn [app] in Hfil. change (zlen []) with 0 in Hfil.
  assert (Hdom : Forall (λ j, ∃ a, 0 ≤ j ∧ table !! Z.to_nat j = Some a ∧ p a = true) (indices p table 0)).
  { apply Forall_forall. intros j Hj. apply elem_of_indices in Hj as (a & H1 & H2 & H3). rewrite Z.sub_0_r in H2. by exists a. }
  destruct (picked_exists table (indices p table 0)) as [rs0 Hrs0].
  { eapply Forall_impl; [exact Hdom|]. cbn. intros j (a & Hj & Ha & _). split; [done|]. apply lookup_lt_Some in Ha. zlia. }
  assert (Hlen : zlen (indices p table 0) = zlen (filter (λ x, p x = true) table)).
  { rewrite <-Hfil, (picked_omap _ _ _ Hrs0). by eapply picked_len. }
  destruct (collect_spec p table 0 [] out) as (rest & Hc & _); [lia|]. cbn [app] in Hc. change (zlen []) with 0 in Hc.
  rewrite Hc. cbn [obind]. rewrite Z.add_0_l.
  set (g := λ x y, match table !! Z.to_nat x, table !! Z.to_nat y with Some a, Some b => rgt a b | _, _ => false end).
  set (dom := λ j, ∃ a, 0 ≤ j ∧ table !! Z.to_nat j = Some a ∧ p a = true).
  destruct (insertion_sort_spec gt g dom) with (l := indices p table 0) (rest := rest) as (idx & -> & Hperm & Hord).
  - intros x y (a & Hx & Ha & Hpa) (b & Hy & Hb & Hpb). unfold g. rewrite Ha, Hb. by apply Hgt.
  - intros x y (a & Hx & Ha & Hpa) (b & Hy & Hb & Hpb). unfold g. rewrite Ha, Hb. apply Has.
  - intros x y z (a & Hx & Ha & Hpa) (b & Hy & Hb & Hpb) (c & Hz & Hcc & Hpc). unfold g. rewrite Ha, Hb, Hcc. apply Htr.
  - exact Hdom.
  - cbn [obind]. destruct (picked_exists table idx) as [rs Hrs].
    { rewrite Forall_forall in Hdom |- *. intros j Hj. rewrite Hperm in Hj. destruct (Hdom j Hj) as (a & H0 & Ha & _).
      split; [done|]. apply lookup_lt_Some in Ha. zlia. }
    eexists _, rs. split; [done|]. exists idx, rest. split_and!.
    + f_equal. unfold zlen. by rewrite Hperm.
    + done.
    + done.
    + rewrite <-Hfil, <-(picked_omap _ _ _ Hrs). by rewrite Hperm.
    + clear -Hrs Hord. induction Hrs as [|j r idx rs [Hj Hr] Hrs IH]; [constructor|].
      apply StronglySorted_inv in Hord as [Hord Hall]. constructor; [by apply IH|].
      clear IH Hord. induction Hrs as [|j' r' idx rs [Hj' Hr'] Hrs IH]; [constructor|].
      apply Forall_cons in Hall as [Hh Hall]. unfold g in Hh. rewrite Hr, Hr' in Hh. constructor; [done|by apply IH].
Qed.
