(* ===== verification/VibefsDisk.v ===== *)
(** * vibefs: what a disk promises

    The contract of the [Disk] trait as laws: each call is recorded as an event,
    contents follow the events, and a disk without faults serves every block in
    range.  Two disks satisfy it: the in-memory one of [disk.rs], and a device
    with a volatile write cache whose calls may fail, which keeps the log of
    everything asked of it.  A power loss keeps every write that a completed flush
    followed, and any part of the others. *)

From stdpp Require Import base strings numbers gmap list.
From S2P Require Import Prelude Bytes Crc Buf FsError Vibefs VibefsCommit.
Import VibefsCommit.

Local Open Scope Z_scope.

(** ** Events *)

(** A write that succeeded, one that failed (and may have reached the medium
    all the same), and a flush that succeeded. *)
Inductive event := EWrite (b : Z) (x : list Z) | EMaybe (b : Z) (x : list Z) | EFlush.

Abbreviation blocks := (Z → list Z).
Definition put_block (m : blocks) (b : Z) (x : list Z) : blocks := λ b', if b' =? b then x else m b'.
Definition apply_event (m : blocks) (ev : event) : blocks :=
  match ev with EWrite b x => put_block m b x | _ => m end.
Definition apply_events (evs : list event) (m : blocks) : blocks := fold_left apply_event evs m.
Definition sure (ev : event) : Prop := match ev with EMaybe _ _ => False | _ => True end.

Lemma apply_events_app evs evs' m b : apply_events (evs ++ evs') m b = apply_events evs' (apply_events evs m) b.
Proof. unfold apply_events. by rewrite fold_left_app. Qed.
Lemma apply_events_ext evs m m' b : m b = m' b → apply_events evs m b = apply_events evs m' b.
Proof.
  unfold apply_events. revert m m'. induction evs as [|ev evs IH]; intros m m' Hm; [done|]. cbn [fold_left].
  apply IH. destruct ev; cbn; [|done..]. unfold put_block. by destruct (b =? b0).
Qed.

(** The blocks events write. *)
Definition ev_block (ev : event) : option Z := match ev with EWrite b _ | EMaybe b _ => Some b | EFlush => None end.
Lemma apply_events_outside evs m b : Some b ∉ map ev_block evs → apply_events evs m b = m b.
Proof.
  unfold apply_events. revert m. induction evs as [|ev evs IH]; intros m Hb; [done|]. cbn [fold_left map] in *.
  rewrite IH by set_solver. destruct ev; cbn; [|done..]. unfold put_block.
  destruct (Z.eqb_spec b b0) as [->|]; [|done]. set_solver.
Qed.

(** ** The laws *)
Class DiskLaws (D : Type) `{Disk D} := {
  content : D → blocks;
  did : D → list event → D → Prop;
  good : D → Prop;
  did_refl d : did d [] d;
  did_trans d evs d' evs' d'' : did d evs d' → did d' evs' d'' → did d (evs ++ evs') d'';
  did_nblocks d evs d' : did d evs d' → disk_nblocks d' = disk_nblocks d;
  did_content d evs d' b : did d evs d' → Forall sure evs → 0 ≤ b → content d' b = apply_events evs (content d) b;
  read_did b buf d r buf' d' : read_block b buf d = (r, buf', d') → did d [] d';
  read_len b buf d r buf' d' : read_block b buf d = (r, buf', d') → 0 ≤ b → zlen buf = BLOCK → zlen buf' = BLOCK;
  write_did b buf d r d' : write_block b buf d = (r, d') → 0 ≤ b → zlen buf = BLOCK →
    did d [match r with inl _ => EWrite b buf | inr _ => EMaybe b buf end] d';
  flush_did d r d' : flush d = (r, d') → did d (match r with inl _ => [EFlush] | inr _ => [] end) d';
  good_read b buf d : good d → 0 ≤ b < disk_nblocks d → read_block b buf d = (inl tt, content d b, d);
  good_write b buf d : good d → 0 ≤ b < disk_nblocks d → zlen buf = BLOCK →
    ∃ d', write_block b buf d = (inl tt, d') ∧ good d';
  good_flush d : good d → ∃ d', flush d = (inl tt, d') ∧ good d';
}.

(** ** The in-memory disk *)
Definition mem_event (md : MemDisk) (ev : event) : MemDisk :=
  match ev with EWrite b x => mkMemDisk (splice (md_data md) (b * BLOCK) x) | _ => md end.
(** Data for whole blocks, and every write inside it. *)
Definition mem_in (md : MemDisk) (ev : event) : Prop :=
  match ev with EWrite b x => 0 ≤ b ∧ (b + 1) * BLOCK ≤ zlen (md_data md) ∧ zlen x = BLOCK | _ => True end.

Lemma zlen_mem_event md ev : mem_in md ev → zlen (md_data (mem_event md ev)) = zlen (md_data md).
Proof. destruct ev; [|done..]. cbn. intros (? & ? & ?). apply zlen_splice; unfold BLOCK in *; lia. Qed.

Lemma md_range_ok md b off : md_range md b = inl off → off = b * BLOCK ∧ (b + 1) * BLOCK ≤ zlen (md_data md).
Proof.
  unfold md_range. intros Hr. invert_ok. injection Hr as <-. split; [done|].
  match goal with H : (zlen _ <? _) = false |- _ => apply Z.ltb_ge in H; lia end.
Qed.

Definition mem_content (md : MemDisk) : blocks :=
  λ b, take (Z.to_nat BLOCK) (drop (Z.to_nat (b * BLOCK)) (md_data md)).

Lemma mem_content_splice md b x b' :
  0 ≤ b → 0 ≤ b' → (b + 1) * BLOCK ≤ zlen (md_data md) → zlen x = BLOCK →
  mem_content (mkMemDisk (splice (md_data md) (b * BLOCK) x)) b' = put_block (mem_content md) b x b'.
Proof.
  unfold mem_content, put_block, BLOCK in *. cbn [md_data]. intros Hb Hb' Hl Hx.
  set (data := md_data md) in *. unfold splice.
  destruct (Z.eqb_spec b' b) as [->|Hne].
  - rewrite drop_app_ge, length_take_le, Nat.sub_diag, drop_0, take_app_le by zlia. apply take_ge. zlia.
  - destruct (Z.lt_ge_cases b' b) as [Hlt|Hge].
    + rewrite drop_app_le, take_app_le by zlia. rewrite <-(take_drop (Z.to_nat (b * 4096)) data) at 2.
      rewrite drop_app_le, take_app_le by zlia. done.
    + rewrite app_assoc, drop_app_ge by zlia. rewrite drop_drop. f_equal. f_equal. zlia.
Qed.

#[local] Opaque mem_content.

Lemma mem_events_len md evs : Forall (mem_in md) evs →
  zlen (md_data (fold_left mem_event evs md)) = zlen (md_data md).
Proof.
  revert md. induction evs as [|ev evs IH]; intros md Hin; [done|]. apply Forall_cons in Hin as [Hev Hin]. cbn [fold_left].
  pose proof (zlen_mem_event md ev Hev) as Hlen. rewrite IH; [done|].
  eapply Forall_impl; [exact Hin|]. intros [b x| |]; cbn; [|done..]. by rewrite Hlen.
Qed.

Definition mem_did (md : MemDisk) (evs : list event) (md' : MemDisk) : Prop :=
  md' = fold_left mem_event evs md ∧ Forall (mem_in md) evs.

Lemma mem_did_content md evs md' b :
  mem_did md evs md' → 0 ≤ b → mem_content md' b = apply_events evs (mem_content md) b.
Proof.
  intros [-> Hin] Hb. revert md Hin. induction evs as [|ev evs IH]; intros md Hin; [done|].
  apply Forall_cons in Hin as [Hev Hin]. cbn [fold_left]. rewrite IH.
  - change (apply_events (ev :: evs) (mem_content md) b)
      with (apply_events evs (apply_event (mem_content md) ev) b). apply apply_events_ext.
    destruct ev as [b' x| |]; [|done..]. destruct Hev as (? & ? & ?). by apply mem_content_splice.
  - eapply Forall_impl; [exact Hin|]. intros [b' x| |]; cbn; [|done..]. by rewrite (zlen_mem_event md ev).
Qed.

Lemma md_range_in md b :
  0 ≤ b → (b + 1) * BLOCK ≤ zlen (md_data md) < 2 ^ 64 → md_range md b = inl (b * BLOCK).
Proof.
  intros Hb Hl. unfold md_range. unfold BLOCK in *.
  rewrite !(proj2 (Z.leb_gt (2 ^ 64) _)), (proj2 (Z.ltb_ge _ _)) by lia. done.
Qed.

#[global] Program Instance MemDisk_Laws : DiskLaws MemDisk := {
  content := mem_content;
  did := mem_did;
  good md := zlen (md_data md) < 2 ^ 64;
}.
Next Obligation. by split. Qed.
Next Obligation.
  intros d evs d' evs' d'' [-> H1] [-> H2]. split; [by rewrite fold_left_app|]. apply Forall_app. split; [done|].
  eapply Forall_impl; [exact H2|]. intros [b x| |]; cbn; [|done..]. by rewrite mem_events_len.
Qed.
Next Obligation. intros d evs d' [-> Hin]. cbn. by rewrite mem_events_len. Qed.
Next Obligation. intros d evs d' b Hd _ Hb. by apply mem_did_content. Qed.
Next Obligation. cbn. intros b buf d r buf' d'. destruct (md_range d b); intros [= <- <- <-]; by split. Qed.
Next Obligation.
  cbn. intros b buf d r buf' d' Hr Hb Hl. destruct (md_range d b) as [off|] eqn:E; injection Hr as <- <- <-; [|done].
  apply md_range_ok in E as [-> Hr]. unfold BLOCK in *. zlia.
Qed.
Next Obligation.
  cbn. intros b buf d r d' Hr Hb Hl. destruct (md_range d b) as [off|] eqn:E; injection Hr as <- <-.
  - apply md_range_ok in E as [-> Hr]. split; [done|]. by apply Forall_singleton.
  - split; [done|]. by apply Forall_singleton.
Qed.
Next Obligation. cbn. intros d r d' [= <- <-]. split; [done|]. by apply Forall_singleton. Qed.
Next Obligation.
  cbn. intros b buf d Hg [Hb Hlt]. rewrite md_range_in; [done|done|]. unfold BLOCK in *. dlia.
Qed.
Next Obligation.
  cbn. intros b buf d Hg [Hb Hlt] Hl.
  assert (Hle : (b + 1) * BLOCK ≤ zlen (md_data d)) by (unfold BLOCK in *; dlia).
  rewrite md_range_in by done. eexists. split; [done|]. cbn. rewrite zlen_splice; unfold BLOCK in *; lia.
Qed.
Next Obligation. cbn. eauto. Qed.

(** ** A device with a volatile cache and faults

    [dv_faults] says for each coming call whether it fails; past its end nothing
    does. *)
Record Dev := mkDev { dv_n : Z; dv_medium : blocks; dv_log : list event; dv_faults : list bool }.

Definition next_fault (d : Dev) : bool * Dev :=
  match dv_faults d with
  | [] => (false, d)
  | f :: fs => (f, mkDev (dv_n d) (dv_medium d) (dv_log d) fs)
  end.
Definition in_dev (d : Dev) (b : Z) : bool := (0 <=? b) && (b <? dv_n d).
Definition logged (d : Dev) (ev : event) : Dev := mkDev (dv_n d) (dv_medium d) (dv_log d ++ [ev]) (dv_faults d).

(** A block is [BLOCK] bytes. *)
Definition fit (m : blocks) : blocks := λ b, resize (Z.to_nat BLOCK) 0 (m b).

Lemma zlen_fit m b : zlen (fit m b) = BLOCK.
Proof. unfold zlen, fit. rewrite length_resize. done. Qed.
Lemma fit_full m b : zlen (m b) = BLOCK → fit m b = m b.
Proof. intros Hl. unfold fit. rewrite resize_all_alt; [done|]. unfold zlen in Hl. lia. Qed.

Lemma fit_ext m m' b : m b = m' b → fit m b = fit m' b.
Proof. unfold fit. by intros ->. Qed.
#[local] Opaque fit.

#[global] Instance Dev_Disk : Disk Dev := {
  disk_nblocks := dv_n;
  read_block b buf d :=
    let '(f, d) := next_fault d in
    if f || negb (in_dev d b) then (inr FsError.Io, buf, d)
    else (inl tt, fit (apply_events (dv_log d) (dv_medium d)) b, d);
  write_block b buf d :=
    let '(f, d) := next_fault d in
    if f || negb (in_dev d b) then (inr FsError.Io, logged d (EMaybe b buf)) else (inl tt, logged d (EWrite b buf));
  flush d :=
    let '(f, d) := next_fault d in
    if f then (inr FsError.Io, d) else (inl tt, logged d EFlush);
}.

Definition ev_len (ev : event) : Prop := match ev with EWrite _ x | EMaybe _ x => zlen x = BLOCK | EFlush => True end.
Definition dev_content (d : Dev) : blocks := fit (apply_events (dv_log d) (dv_medium d)).
Definition dev_did (d : Dev) (evs : list event) (d' : Dev) : Prop :=
  dv_n d' = dv_n d ∧ dv_medium d' = dv_medium d ∧ dv_log d' = dv_log d ++ evs ∧ Forall ev_len evs.

Lemma fit_events evs m b : Forall ev_len evs → fit (apply_events evs m) b = apply_events evs (fit m) b.
Proof.
  intros Hl. unfold apply_events. revert m. induction Hl as [|ev evs Hev Hl IH]; intros m; [done|]. cbn [fold_left].
  rewrite IH. apply apply_events_ext. destruct ev as [b' x| |]; [|done..]. cbn in Hev.
  unfold apply_event, put_block. destruct (b =? b') eqn:E; [|apply fit_ext; by rewrite E].
  rewrite fit_full; by rewrite E.
Qed.

Lemma next_fault_did d f d' : next_fault d = (f, d') → dev_did d [] d'.
Proof.
  unfold next_fault, dev_did. destruct (dv_faults d); intros [= <- <-]; cbn; rewrite app_nil_r;
    (split_and!; [done|done|done|by apply Forall_nil]).
Qed.
Lemma logged_did d ev : ev_len ev → dev_did d [ev] (logged d ev).
Proof. intros Hl. unfold dev_did, logged. cbn. split_and!; [done|done|done|by apply Forall_singleton]. Qed.
Lemma dev_did_trans d evs d' evs' d'' : dev_did d evs d' → dev_did d' evs' d'' → dev_did d (evs ++ evs') d''.
Proof.
  intros (H1 & H2 & H3 & H4) (H1' & H2' & H3' & H4'). unfold dev_did. rewrite H1', H2', H3', H3, <-app_assoc.
  split_and!; [done|done|done|]. by apply Forall_app.
Qed.

#[global] Program Instance Dev_Laws : DiskLaws Dev := {
  content := dev_content;
  did := dev_did;
  good d := dv_faults d = [];
}.
Next Obligation. intros d. unfold dev_did. rewrite app_nil_r. split_and!; [done|done|done|by apply Forall_nil]. Qed.
Next Obligation. exact dev_did_trans. Qed.
Next Obligation. by intros d evs d' (? & _). Qed.
Next Obligation.
  intros d evs d' b (_ & Hm & Hl & Hev) _ _. unfold dev_content. rewrite Hm, Hl.
  rewrite <-fit_events by done. apply fit_ext, apply_events_app.
Qed.
Next Obligation.
  cbn. intros b buf d r buf' d'. destruct (next_fault d) as [f d1] eqn:Hf. apply next_fault_did in Hf.
  destruct (f || _); intros [= <- <- <-]; done.
Qed.
Next Obligation.
  cbn. intros b buf d r buf' d' Hr _ Hl. destruct (next_fault d) as [f d1].
  destruct (f || _); injection Hr as <- <- <-; [done|apply zlen_fit].
Qed.
Next Obligation.
  cbn. intros b buf d r d' Hr _ Hl. destruct (next_fault d) as [f d1] eqn:Hf. apply next_fault_did in Hf.
  destruct (f || _); injection Hr as <- <-; apply (dev_did_trans _ [] _ _ _ Hf); by apply logged_did.
Qed.
Next Obligation.
  cbn. intros d r d' Hr. destruct (next_fault d) as [f d1] eqn:Hf. apply next_fault_did in Hf.
  destruct f; injection Hr as <- <-; [done|]. apply (dev_did_trans _ [] _ _ _ Hf). by apply logged_did.
Qed.
Next Obligation.
  cbn. intros b buf d Hg Hb. unfold next_fault. rewrite Hg. unfold in_dev.
  by rewrite (proj2 (Z.leb_le 0 b)), (proj2 (Z.ltb_lt b (dv_n d))) by lia.
Qed.
Next Obligation.
  cbn. intros b buf d Hg Hb Hl. unfold next_fault. rewrite Hg. unfold in_dev.
  rewrite (proj2 (Z.leb_le 0 b)), (proj2 (Z.ltb_lt b (dv_n d))) by lia. cbn. by eexists.
Qed.
Next Obligation. cbn. intros d Hg. unfold next_fault. rewrite Hg. by eexists. Qed.

(** ** Power loss

    The writes that reach the medium: every successful one that a successful flush
    followed, and of the others any part, each whole or torn.  A torn superblock
    does not parse; what else a torn write leaves is arbitrary. *)
Definition torn (b : Z) (y : list Z) : Prop :=
  zlen y = BLOCK ∧ (b = 0 ∨ b = 1 → ∃ e, parse_super y b = Ret (inr e)).

Inductive reached : list event → list (Z * list Z) → Prop :=
  | reached_nil : reached [] []
  | reached_flush evs ws : reached evs ws → reached (EFlush :: evs) ws
  | reached_write b x evs ws : reached evs ws → reached (EWrite b x :: evs) ((b, x) :: ws)
  | reached_lost b x evs ws : reached evs ws → EFlush ∉ evs → reached (EWrite b x :: evs) ws
  | reached_torn b x y evs ws : reached evs ws → EFlush ∉ evs → torn b y → reached (EWrite b x :: evs) ((b, y) :: ws)
  | reached_maybe b x evs ws : reached evs ws → reached (EMaybe b x :: evs) ((b, x) :: ws)
  | reached_not b x evs ws : reached evs ws → reached (EMaybe b x :: evs) ws
  | reached_maybe_torn b x y evs ws : reached evs ws → torn b y → reached (EMaybe b x :: evs) ((b, y) :: ws).

Definition put_blocks (ws : list (Z * list Z)) (m : blocks) : blocks := fold_left (λ m w, put_block m w.1 w.2) ws m.

(** A medium the power loss may leave, when [evs] had been asked of [d]'s medium. *)
Definition crash_image (d : Dev) (evs : list event) (m' : blocks) : Prop :=
  ∃ ws, reached evs ws ∧ m' = put_blocks ws (dv_medium d).

(** The disk a reboot finds. *)
Definition reboot (n : Z) (m : blocks) : Dev := mkDev n m [] [].

(** ** The calls a program makes *)
Section calls.
Context `{DiskLaws D}.

Lemma wp_onvol {A} (m : M Vol A) (s : Vol * D) (Q : A → Vol * D → Prop) :
  wp m (fst s) (λ a v', Q a (v', snd s)) → wp (onvol m) s Q.
Proof. unfold wp, onvol. destruct (m (fst s)) as [[a v']| | |]; done. Qed.
Lemma ewp_onvol {A} (m : VM A) (s : Vol * D) (Q : A → Vol * D → Prop) X :
  ewp m (fst s) (λ a v', Q a (v', snd s)) (λ e v', X e (v', snd s)) → ewp (onvol m) s Q X.
Proof. intros Hm. apply wp_onvol. eapply wp_mono; [exact Hm|]. intros [a|e] v'; done. Qed.

Lemma ewp_flush (s : Vol * D) (Q : unit → Vol * D → Prop) X :
  (∀ d', did (snd s) [EFlush] d' → (good (snd s) → good d') → Q tt (fst s, d')) →
  (∀ e d', did (snd s) [] d' → ¬ good (snd s) → X e (fst s, d')) →
  ewp flush_disk s Q X.
Proof.
  intros HQ HX. unfold flush_disk, ewp, wp. destruct (flush (snd s)) as [[[]|e] d'] eqn:Hf;
    pose proof (flush_did _ _ _ Hf) as Hd.
  - apply HQ; [done|]. intros Hg. destruct (good_flush _ Hg) as (d2 & Hf2 & ?). congruence.
  - apply HX; [done|]. intros Hg. destruct (good_flush _ Hg) as (d2 & Hf2 & ?). congruence.
Qed.

Lemma ewp_write_buf (s : Vol * D) b buf (Q : unit → Vol * D → Prop) X :
  0 ≤ b < disk_nblocks (snd s) → zlen buf = BLOCK →
  (∀ d', did (snd s) [EWrite b buf] d' → (good (snd s) → good d') → Q tt (fst s, d')) →
  (∀ e d', did (snd s) [EMaybe b buf] d' → ¬ good (snd s) → X e (fst s, d')) →
  ewp (write_buf b buf) s Q X.
Proof.
  intros Hb Hl HQ HX. unfold write_buf, ewp, wp. destruct (write_block b buf (snd s)) as [[[]|e] d'] eqn:Hw;
    pose proof (write_did _ _ _ _ _ Hw ltac:(lia) Hl) as Hd.
  - apply HQ; [done|]. intros Hg. destruct (good_write b buf _ Hg Hb Hl) as (d2 & Hw2 & ?). congruence.
  - apply HX; [done|]. intros Hg. destruct (good_write b buf _ Hg Hb Hl) as (d2 & Hw2 & ?). congruence.
Qed.

Lemma ewp_write (s : Vol * D) b (Q : unit → Vol * D → Prop) X :
  0 ≤ b < disk_nblocks (snd s) → zlen (v_iobuf (fst s)) = BLOCK →
  (∀ d', did (snd s) [EWrite b (v_iobuf (fst s))] d' → (good (snd s) → good d') → Q tt (fst s, d')) →
  (∀ e d', did (snd s) [EMaybe b (v_iobuf (fst s))] d' → ¬ good (snd s) → X e (fst s, d')) →
  ewp (write_iobuf b) s Q X.
Proof. apply ewp_write_buf. Qed.
End calls.
