(* ===== verification/VibefsVol.v ===== *)
(** * vibefs: the volume's tables (src/crates/core/src/fs/vibefs/vol.rs)

    The shape every volume keeps, the allocator, and the metadata table a commit
    builds. *)

From stdpp Require Import base strings numbers gmap list.
From S2P Require Import Prelude Bytes Crc Buf FsError Vibefs VibefsCommit VibefsLayout.
Import VibefsCommit.

Local Open Scope Z_scope.

(** ** Shape *)
Record dent_typed (de : Dent) : Prop := {
  dt_parent : u32 (d_parent de);
  dt_ino : u32 (d_ino de);
  dt_kind : u8 (d_kind de);
  dt_nlen : u8 (d_nlen de);
  dt_name : length (d_name de) = 64%nat;
  dt_name_ok : bytes_ok (d_name de);
}.
Definition dent_valid (de : Dent) : Prop := 1 ≤ d_nlen de ≤ MAX_NAME.

(** The maps of the allocator. *)
Record maps_typed (v : Vol) : Prop := {
  mt_bitmap : length (v_bitmap v) = 128%nat;
  mt_bitmap_ok : bytes_ok (v_bitmap v);
  mt_refc : length (v_refc v) = 1024%nat;
  mt_refc_ok : bytes_ok (v_refc v);
  mt_txn : length (v_txn v) = 128%nat;
  mt_txn_ok : bytes_ok (v_txn v);
}.

(** The inode and name tables. *)
Record tables_typed (v : Vol) : Prop := {
  tt_inodes : length (v_inodes v) = 64%nat;
  tt_inodes_ok : Forall inode_typed (v_inodes v);
  tt_inodes_valid : ∀ r, r ∈ v_inodes v → i_used r = true → inode_valid r;
  tt_dents : length (v_dents v) = 96%nat;
  tt_dents_ok : Forall dent_typed (v_dents v);
  tt_dents_valid : ∀ de, de ∈ v_dents v → d_used de = true → dent_valid de;
}.

(** The metadata and drop lists, and the block buffer. *)
Record lists_typed (v : Vol) : Prop := {
  lt_meta : length (v_meta v) = 73%nat;
  lt_nmeta : 0 ≤ v_nmeta v ≤ MAX_META;
  lt_drop : length (v_drop v) = 96%nat;
  lt_ndrop : 0 ≤ v_ndrop v ≤ MAX_DROP;
  lt_iobuf : zlen (v_iobuf v) = BLOCK;
  lt_now : u64 (v_now v);
}.

Record vol_ok (v : Vol) : Prop := {
  vk_super : super_typed v;
  vk_snaps : snaps_packed (v_snaps v);
  vk_maps : maps_typed v;
  vk_tables : tables_typed v;
  vk_lists : lists_typed v;
}.

(** A field that a component's shape does not mention may change. *)
Ltac vol_frame H := destruct H; split; cbn; assumption.

Lemma super_frame v v' :
  v_flags v' = v_flags v → v_nblocks v' = v_nblocks v → v_generation v' = v_generation v →
  v_inode_root v' = v_inode_root v → v_alloc_root v' = v_alloc_root v → v_next_ino v' = v_next_ino v →
  v_root_ino v' = v_root_ino v → v_uuid v' = v_uuid v → v_label v' = v_label v → v_snaps v' = v_snaps v →
  super_typed v → super_typed v'.
Proof. intros E1 E2 E3 E4 E5 E6 E7 E8 E9 E10 []. split; by rewrite ?E1, ?E2, ?E3, ?E4, ?E5, ?E6, ?E7, ?E8, ?E9, ?E10. Qed.

(** ** References and free blocks *)
Definition refc_of (v : Vol) (b : Z) : Z := default 0 (v_refc v !! Z.to_nat b).
Definition is_free (v : Vol) (b : Z) : Prop := 2 ≤ b < v_nblocks v ∧ refc_of v b = 0.
#[global] Instance is_free_dec v b : Decision (is_free v b).
Proof. unfold is_free. apply _. Defined.
Definition free_blocks (v : Vol) : list Z := filter (λ b, refc_of v b = 0) (range 2 (v_nblocks v)).

Lemma refc_index v b : maps_typed v → 0 ≤ b < 1024 → index (v_refc v) b = Ret (refc_of v b).
Proof.
  intros [] Hb. destruct (lookup_lt_is_Some_2 (v_refc v) (Z.to_nat b)) as [x Hx]; [lia|].
  rewrite (index_ret _ _ x) by (done || lia). unfold refc_of. by rewrite Hx.
Qed.

Lemma elem_of_free v b : b ∈ free_blocks v ↔ is_free v b.
Proof. unfold free_blocks, is_free. rewrite list_elem_of_filter, elem_of_range. naive_solver. Qed.

Lemma free_count_ret v : maps_typed v → v_nblocks v ≤ MAX_BLOCKS → free_count v = Ret (zlen (free_blocks v)).
Proof.
  intros Hm Hn. unfold free_count, free_blocks. change MAX_BLOCKS with 1024 in Hn.
  assert (Hgen : ∀ l n, Forall (λ b, 0 ≤ b < 1024) l →
    ofor l (λ i n, r <~ index (v_refc v) i ;; Ret (if r =? 0 then n + 1 else n)) n =
    Ret (n + zlen (filter (λ b, refc_of v b = 0) l))).
  { induction l as [|b l IH]; intros n Hl; [cbn; f_equal; zlia|].
    apply Forall_cons in Hl as [Hb Hl]. cbn [ofor]. rewrite refc_index by done. cbn [obind]. rewrite IH by done. f_equal.
    rewrite filter_cons. destruct (Z.eqb_spec (refc_of v b) 0); [rewrite decide_True by done|rewrite decide_False by done]; zlia. }
  rewrite Hgen; [f_equal; lia|]. apply Forall_forall. intros b Hb%elem_of_range. lia.
Qed.

(** ** The allocator *)
Definition bit_on (m : list Z) (i : Z) : list Z := alter (λ x, Z.lor x (Z.shiftl 1 (i mod 8))) (Z.to_nat (i / 8)) m.
Definition with_alloc (v : Vol) (b : Z) : Vol :=
  set_txn (set_bitmap (set_refc v (<[Z.to_nat b := 1]> (v_refc v))) (bit_on (v_bitmap v) b)) (bit_on (v_txn v) b).

Lemma bit_byte i : is_byte (Z.shiftl 1 (i mod 8)).
Proof.
  unfold is_byte. rewrite Z.shiftl_1_l. pose proof (Z.mod_pos_bound i 8). pose proof (pow2_pos (i mod 8)).
  pose proof (pow2_lt (i mod 8) 8). change (2 ^ 8) with 256 in *. lia.
Qed.

Lemma bit_on_ret m i : 0 ≤ i < 8 * zlen m → bit_set m i true = Ret (bit_on m i).
Proof.
  intros Hi. unfold bit_set, bit_on. destruct (lookup_lt_is_Some_2 m (Z.to_nat (i / 8))) as [x Hx]; [zlia || (unfold zlen in *; dlia)|].
  rewrite (index_ret _ _ x) by (done || dlia). cbn [obind]. rewrite store_ret by (unfold zlen in *; dlia). f_equal.
  apply list_eq. intros k. destruct (decide (k = Z.to_nat (i / 8))) as [->|Hne].
  - rewrite list_lookup_insert_eq, list_lookup_alter_eq, Hx by (by eapply lookup_lt_Some). done.
  - by rewrite list_lookup_insert_ne, list_lookup_alter_ne by done.
Qed.

Lemma bit_on_bytes m i : bytes_ok m → bytes_ok (bit_on m i).
Proof.
  intros Hm. unfold bit_on. apply Forall_alter; [done|]. intros x _ Hx. apply is_byte_lor; [done|apply bit_byte].
Qed.

Lemma with_alloc_maps v b : maps_typed v → maps_typed (with_alloc v b).
Proof.
  intros []. split; cbn; unfold bit_on; rewrite ?length_insert, ?length_alter; try done; try by apply bit_on_bytes.
  apply Forall_insert; [done|]. unfold is_byte. lia.
Qed.

Lemma refc_with_alloc v b b' :
  maps_typed v → 0 ≤ b < 1024 → 0 ≤ b' → refc_of (with_alloc v b) b' = if decide (b' = b) then 1 else refc_of v b'.
Proof.
  intros [] Hb Hb'. unfold refc_of. cbn. case_decide as E.
  - subst. rewrite list_lookup_insert_eq by lia. done.
  - by rewrite list_lookup_insert_ne by lia.
Qed.

Lemma first_free_spec v l :
  maps_typed v → Forall (λ b, 0 ≤ b < 1024) l →
  first_free (v_refc v) l = Ret (head (filter (λ b, refc_of v b = 0) l)).
Proof.
  intros Hm Hl. induction Hl as [|b l Hb Hl IH]; [done|]. cbn [first_free]. rewrite refc_index by done. cbn [obind].
  rewrite filter_cons. destruct (Z.eqb_spec (refc_of v b) 0); [by rewrite decide_True|by rewrite decide_False].
Qed.

Lemma alloc_block_spec v (Q : Z → Vol → Prop) X :
  maps_typed v → v_nblocks v ≤ MAX_BLOCKS →
  (∀ b, is_free v b → Q b (with_alloc v b)) → (free_blocks v = [] → X NoSpace v) → ewp alloc_block v Q X.
Proof.
  intros Hm Hn HQ HX. unfold alloc_block. change MAX_BLOCKS with 1024 in Hn.
  apply ewp_pbind, wp_get, ewp_pbind, wp_lift.
  rewrite first_free_spec; [|done|apply Forall_forall; intros b Hb%elem_of_range; lia].
  fold (free_blocks v). destruct (free_blocks v) as [|b l] eqn:Hf; cbn [head owp]; [apply ewp_err; by apply HX|].
  assert (Hb : is_free v b) by (apply elem_of_free; rewrite Hf; left).
  destruct Hb as [Hb Hr]. pose proof Hm as [].
  apply ewp_pbind, wp_lift. rewrite store_ret by zlia. cbn [owp].
  apply ewp_pbind, wp_lift. rewrite bit_on_ret by zlia. cbn [owp].
  apply ewp_pbind, wp_lift. rewrite bit_on_ret by zlia. cbn [owp].
  apply ewp_pbind, wp_modify, ewp_ok. apply (HQ b). by split.
Qed.

(** ** A run of allocations *)
Definition alloced (v : Vol) (A : list Z) : Vol := fold_left with_alloc A v.
Definition fresh (v : Vol) (A : list Z) : Prop := NoDup A ∧ Forall (is_free v) A.

Lemma alloced_snoc v A b : alloced v (A ++ [b]) = with_alloc (alloced v A) b.
Proof. unfold alloced. by rewrite fold_left_app. Qed.

Lemma alloced_shape v A : ∃ rc bm tx, alloced v A = set_txn (set_bitmap (set_refc v rc) bm) tx.
Proof.
  induction A as [|b A IH] using rev_ind; [by exists (v_refc v), (v_bitmap v), (v_txn v)|].
  rewrite alloced_snoc. destruct IH as (rc & bm & tx & ->). unfold with_alloc. cbn. by do 3 eexists.
Qed.

Lemma alloced_maps v A : maps_typed v → maps_typed (alloced v A).
Proof. intros Hm. induction A as [|b A IH] using rev_ind; [done|]. rewrite alloced_snoc. by apply with_alloc_maps. Qed.

Lemma alloced_nblocks v A : v_nblocks (alloced v A) = v_nblocks v.
Proof. destruct (alloced_shape v A) as (? & ? & ? & ->). done. Qed.

Lemma refc_alloced v A b :
  maps_typed v → v_nblocks v ≤ MAX_BLOCKS → fresh v A → 0 ≤ b →
  refc_of (alloced v A) b = if decide (b ∈ A) then 1 else refc_of v b.
Proof.
  intros Hm Hn [Hd Hf] Hb. change MAX_BLOCKS with 1024 in Hn.
  induction A as [|a A IH] using rev_ind; [done|]. rewrite alloced_snoc.
  apply Forall_app in Hf as [Hf Ha]. rewrite Forall_singleton in Ha. apply NoDup_app in Hd as (Hd & _ & _).
  destruct Ha as [Ha _]. rewrite refc_with_alloc by (by apply alloced_maps || lia). rewrite IH by done.
  repeat case_decide; set_solver.
Qed.

Lemma is_free_alloced v A b :
  maps_typed v → v_nblocks v ≤ MAX_BLOCKS → fresh v A → is_free (alloced v A) b ↔ is_free v b ∧ b ∉ A.
Proof.
  intros Hm Hn Hf. unfold is_free. rewrite alloced_nblocks. split.
  - intros [Hb Hr]. rewrite refc_alloced in Hr by (done || lia). case_decide; [lia|done].
  - intros [[Hb Hr] Hni]. rewrite refc_alloced by (done || lia). by rewrite decide_False.
Qed.

Lemma free_blocks_nodup v : NoDup (free_blocks v).
Proof. unfold free_blocks, range. apply NoDup_filter, NoDup_seqZ. Qed.

Lemma free_alloced v A :
  maps_typed v → v_nblocks v ≤ MAX_BLOCKS → fresh v A → zlen A < zlen (free_blocks v) → free_blocks (alloced v A) ≠ [].
Proof.
  intros Hm Hn Hf Hl He. assert (Hsub : free_blocks v ⊆ A).
  { intros b Hb%elem_of_free. destruct (decide (b ∈ A)); [done|].
    assert (b ∈ free_blocks (alloced v A)) as Hin by (apply elem_of_free; by apply is_free_alloced).
    rewrite He in Hin. by apply elem_of_nil in Hin. }
  pose proof (NoDup_submseteq _ _ (free_blocks_nodup v) Hsub) as Hlen%submseteq_length. zlia.
Qed.

(** One more allocation, which succeeds while free blocks are left. *)
Lemma alloc_more v A buf (Q : Z → Vol → Prop) X :
  maps_typed v → v_nblocks v ≤ MAX_BLOCKS → fresh v A → zlen A < zlen (free_blocks v) →
  (∀ b, fresh v (A ++ [b]) → Q b (set_iobuf (alloced v (A ++ [b])) buf)) →
  ewp alloc_block (set_iobuf (alloced v A) buf) Q X.
Proof.
  intros Hm Hn Hf Hl HQ. apply alloc_block_spec.
  - pose proof (alloced_maps v A Hm) as Hma. vol_frame Hma.
  - cbn. by rewrite alloced_nblocks.
  - intros b Hb. assert (Hb' : is_free v b ∧ b ∉ A) by (by apply is_free_alloced).
    replace (with_alloc (set_iobuf (alloced v A) buf) b) with (set_iobuf (alloced v (A ++ [b])) buf).
    + apply HQ. destruct Hf as [Hd Hf]. split.
      * apply NoDup_app. split_and!; [done|set_solver|by apply NoDup_singleton].
      * apply Forall_app. split; [done|]. rewrite Forall_singleton. by apply Hb'.
    + rewrite alloced_snoc. done.
  - intros He. by destruct (free_alloced v A Hm Hn Hf Hl).
Qed.
