(* ===== verification/VibefsBlocks.v ===== *)
(** * vibefs: the blocks of a tree (src/crates/core/src/fs/vibefs/commit.rs)

    What a commit writes into the leaves and internal nodes of the inode tree and
    of each directory tree, as layouts, and that mount's readers find it. *)

From stdpp Require Import base strings numbers gmap list.
From S2P Require Import Prelude Bytes Crc Buf FsError Vibefs VibefsCommit VibefsLayout VibefsVol.
Import VibefsCommit.

Local Open Scope Z_scope.

(** ** Arrays of records *)
Fixpoint recs_layout {R} (lay : Z → R → layout) (k : Z) (rs : list R) : layout :=
  match rs with [] => [] | r :: rs => lay k r ++ recs_layout lay (k + 1) rs end.

Lemma recs_layout_elem {R} (lay : Z → R → layout) k rs b e r :
  carries b (recs_layout lay k rs) → rs !! e = Some r → carries b (lay (k + Z.of_nat e) r).
Proof.
  revert k e. induction rs as [|x rs IH]; intros k e Hc He; [done|]. cbn [recs_layout] in Hc.
  apply carries_app in Hc as [Hx Hc]. destruct e as [|e].
  - injection He as ->. by rewrite Z.add_0_r.
  - replace (k + Z.of_nat (S e)) with (k + 1 + Z.of_nat e) by lia. by apply IH.
Qed.

(** A loop that writes one record after the other, [stride] bytes apart. *)
Lemma loop_fill {R} (lay : Z → R → layout) (f : Z → list Z → outcome (list Z)) n base stride rs k b ly c :
  filled n b ly c → c ≤ base + k * stride →
  (∀ e r b ly c, rs !! e = Some r → filled n b ly c → c ≤ base + (k + Z.of_nat e) * stride →
    owp (f (k + Z.of_nat e) b) (λ b', filled n b' (ly ++ lay (k + Z.of_nat e) r) (base + (k + Z.of_nat e + 1) * stride))) →
  owp (ofor (range k (k + zlen rs)) f b)
    (λ b', ∃ c', filled n b' (ly ++ recs_layout lay k rs) c' ∧ c' ≤ base + (k + zlen rs) * stride).
Proof.
  revert k b ly c. induction rs as [|r rs IH]; intros k b ly c Hf Hc Hstep.
  { rewrite range_nil by zlia. cbn. rewrite app_nil_r. exists c. split; [done|]. change (zlen []) with 0. lia. }
  rewrite range_cons by zlia. cbn [ofor recs_layout]. apply owp_bind.
  pose proof (Hstep 0%nat r b ly c eq_refl Hf) as H0. rewrite Z.add_0_r in H0.
  eapply owp_mono; [by apply H0|]. cbn. intros b' Hf'.
  replace (k + zlen (r :: rs)) with (k + 1 + zlen rs) by zlia. rewrite app_assoc.
  apply (IH _ _ _ _ Hf'); [lia|].
  intros e r' b'' ly'' c'' He Hf'' Hc''. specialize (Hstep (S e) r' b'' ly'' c'' He Hf'').
  replace (k + 1 + Z.of_nat e) with (k + Z.of_nat (S e)) in * by lia. by apply Hstep.
Qed.

Lemma off_crc_ends ly : Forall (λ p : Z * list Z, 20 ≤ p.1) ly → off_crc ly.
Proof. intros H. eapply Forall_impl; [exact H|]. cbn. lia. Qed.
Lemma recs_layout_from {R} (lay : Z → R → layout) k rs o :
  (∀ i r, k ≤ i → r ∈ rs → Forall (λ p : Z * list Z, o ≤ p.1) (lay i r)) → Forall (λ p : Z * list Z, o ≤ p.1) (recs_layout lay k rs).
Proof.
  revert k. induction rs as [|r rs IH]; intros k H; cbn [recs_layout]; [by apply Forall_nil|].
  apply Forall_app. split; [apply H; [lia|left]|]. apply IH. intros i r' Hi Hr. apply H; [lia|by right].
Qed.

(** ** Directory leaves *)
Definition dent_layout (e : Z) (de : Dent) : layout :=
  let o := HDR + e * DENT_REC in
  [(o, le_bytes 4 (d_ino de)); (o + 4, [d_kind de]); (o + 5, [d_nlen de]); (o + 6, d_name de)].
Definition dir_leaf_layout (g ino : Z) (ds : list Dent) : layout :=
  hdr_layout META_DIR_LEAF 0 (zlen ds) g ino ++ recs_layout dent_layout 0 ds.

(** The records an index array selects. *)
Definition selects {R} (table : list R) (idx : list Z) (start : Z) (rs : list R) : Prop :=
  ∀ e r, rs !! e = Some r → ∃ j, index idx (start + Z.of_nat e) = Ret j ∧ index table j = Ret r.

Lemma put_dent_spec v dents start e de b ly c :
  filled BLOCK b ly c → c ≤ HDR + e * DENT_REC → 0 ≤ e < DENT_PER_LEAF → dent_typed de →
  (∃ j, index dents (start + e) = Ret j ∧ index (v_dents v) j = Ret de) →
  owp (put_dent v dents start e b) (λ b', filled BLOCK b' (ly ++ dent_layout e de) (HDR + (e + 1) * DENT_REC)).
Proof.
  intros F Hc He [] (j & Hj & Hde). unfold put_dent. rewrite Hj. cbn [obind]. rewrite Hde. cbn [obind].
  change DENT_PER_LEAF with 56 in He. unfold HDR, DENT_REC, BLOCK, put32 in *.
  do 4 fill_step F. unfold dent_layout. rewrite <-!app_assoc in F. cbn [app] in F.
  eapply filled_sub; [exact F|exact (fl_carries _ _ _ _ F)|].
  eapply ends_by_weaken; [|exact (fl_ends _ _ _ _ F)]. zlia.
Qed.

Lemma dir_leaf_spec v dents start end_ g ino buf ds (Q : list Z → Prop) :
  zlen buf = BLOCK → 0 ≤ start → zlen ds = end_ - start → 1 ≤ zlen ds ≤ DENT_PER_LEAF → end_ < 2 ^ 64 →
  Forall dent_typed ds → selects (v_dents v) dents start ds →
  (∀ b, sealed b (dir_leaf_layout g ino ds) → Q b) →
  owp (dir_leaf_into v dents start end_ g ino buf) Q.
Proof.
  intros Hl Hs Hd Hn He Ht Hsel HQ. unfold dir_leaf_into.
  rewrite subc_ret by (unfold in_width; lia). cbn [obind]. rewrite <-Hd.
  change DENT_PER_LEAF with 56 in Hn. replace (wrap 16 (zlen ds)) with (zlen ds) by (unfold wrap; rewrite Z.mod_small; lia).
  apply owp_bind. apply meta_hdr_spec; [done|by compute..|]. intros b0 F0.
  apply owp_bind.
  eapply owp_mono; [apply (loop_fill dent_layout _ BLOCK HDR DENT_REC ds 0 _ _ _ F0); [done|]|].
  - intros e de b ly c Hde F Hc. rewrite Z.add_0_l in *. apply lookup_lt_Some in Hde as Hlt.
    apply put_dent_spec with (c := c); [done|done|change DENT_PER_LEAF with 56; zlia|by eapply Forall_lookup_1|by apply Hsel].
  - intros b1 (c' & F1 & _). cbv beta. eapply finish_meta_spec; [exact F1| |exact HQ].
    apply off_crc_app. split; [apply off_crc_hdr|]. apply off_crc_ends, recs_layout_from.
    intros i r Hi _. unfold dent_layout, HDR, DENT_REC.
    repeat (apply Forall_cons; split; [cbn [fst]; lia|]). by apply Forall_nil.
Qed.

(** ** Inode leaves *)
Definition irec_layout (e : Z) (r : Inode) : layout := shift (HDR + e * INODE_REC) (inode_layout r).
Definition inode_leaf_layout (g : Z) (rs : list Inode) : layout :=
  hdr_layout META_INODE_LEAF 0 (zlen rs) g 0 ++ recs_layout irec_layout 0 rs.

Lemma off_crc_inode_leaf g rs : off_crc (inode_leaf_layout g rs).
Proof.
  apply off_crc_app. split; [apply off_crc_hdr|]. apply off_crc_ends, recs_layout_from.
  intros i r Hi _. unfold irec_layout, shift, HDR, INODE_REC. rewrite Forall_map. unfold inode_layout.
  apply Forall_forall. intros p Hp. cbn [fst].
  assert (0 ≤ p.1); [|lia]. revert p Hp. apply Forall_forall. apply Forall_app. split.
  { repeat (apply Forall_cons; split; [cbn [fst]; lia|]). by apply Forall_nil. }
  apply Forall_app. split; [|by apply Forall_singleton]. apply Forall_concat.
  apply Forall_lookup. intros j ly' Hj. apply list_lookup_imap_Some in Hj as (x & _ & ->). unfold extent_layout.
  repeat (apply Forall_cons; split; [cbn [fst]; lia|]). by apply Forall_nil.
Qed.

Lemma put_inode_rec_spec v idx start e r b ly c :
  filled BLOCK b ly c → c ≤ HDR + e * INODE_REC → 0 ≤ e < INODE_PER_LEAF → inode_typed r →
  (∃ j, index idx (start + e) = Ret j ∧ index (v_inodes v) j = Ret r) →
  owp (put_inode_rec v idx start e b) (λ b', filled BLOCK b' (ly ++ irec_layout e r) (HDR + (e + 1) * INODE_REC)).
Proof.
  intros F Hc He Ht (j & Hj & Hr). unfold put_inode_rec. rewrite Hj. cbn [obind]. rewrite Hr. cbn [obind].
  change INODE_PER_LEAF with 15 in He. unfold irec_layout, HDR, INODE_REC, BLOCK in *. destruct F as [Fl Fb Fc Fe].
  set (o := 32 + e * 256) in *. unfold sub. rewrite slice_in by lia. cbn [obind].
  set (tail := take _ _). assert (Htl : zlen tail = 4096 - o) by (unfold tail; zlia).
  assert (Htb : bytes_ok tail) by (by apply Forall_take, Forall_drop).
  apply owp_bind, pack_inode_spec; [lia|done|done|]. intros tail' [Gl Gb Gc Ge]. rewrite Htl in Gl.
  rewrite copy_into_ret by lia. cbn [owp]. split.
  - rewrite zlen_splice; lia.
  - by apply splice_bytes.
  - apply carries_app. split.
    + apply carries_ne; [lia|lia| |done]. eapply Forall_impl; [exact Fe|]. cbn. lia.
    + eapply carries_shift; [apply holds_splice; lia|done|done].
  - apply Forall_app. split; [eapply Forall_impl; [exact Fe|]; cbn; lia|].
    unfold shift. rewrite Forall_map. eapply Forall_impl; [exact Ge|]. cbn. lia.
Qed.

Lemma inode_leaf_spec v idx ni li g buf rs (Q : list Z → Prop) :
  let start := li * INODE_PER_LEAF in
  let end_ := Z.min (start + INODE_PER_LEAF) (Z.max ni 1) in
  zlen buf = BLOCK → 0 < ni → 0 ≤ start → zlen rs = end_ - start → 1 ≤ zlen rs → end_ < 2 ^ 64 →
  Forall inode_typed rs → selects (v_inodes v) idx start rs →
  (∀ b, sealed b (inode_leaf_layout g rs) → Q b) →
  owp (inode_leaf_into v idx ni li g buf) Q.
Proof.
  intros start end_ Hl Hni Hs Hd Hn He Ht Hsel HQ. unfold inode_leaf_into. fold start. fold end_.
  rewrite (proj2 (Z.eqb_neq ni 0)), (proj2 (Z.ltb_lt 0 ni)) by lia.
  assert (Hle : zlen rs ≤ 15) by (unfold end_, start in Hd; change INODE_PER_LEAF with 15 in *; lia).
  rewrite subc_ret by (unfold in_width; lia). cbn [obind]. rewrite <-Hd.
  replace (wrap 16 (zlen rs)) with (zlen rs) by (unfold wrap; rewrite Z.mod_small; lia).
  apply owp_bind. apply meta_hdr_spec; [done|by compute..|]. intros b0 F0.
  apply owp_bind.
  eapply owp_mono; [apply (loop_fill irec_layout _ BLOCK HDR INODE_REC rs 0 _ _ _ F0); [done|]|].
  - intros e r b ly c Hr F Hc. rewrite Z.add_0_l in *. apply lookup_lt_Some in Hr as Hlt.
    apply put_inode_rec_spec with (c := c); [done|done|change INODE_PER_LEAF with 15; zlia|by eapply Forall_lookup_1|by apply Hsel].
  - intros b1 (c' & F1 & _). cbv beta. eapply finish_meta_spec; [exact F1| |exact HQ].
    apply off_crc_inode_leaf.
Qed.

(** ** Internal nodes *)
Definition kid_layout (stride at_ : Z) (k b : Z) : layout := [(HDR + k * stride + at_, le_bytes 4 b)].
Definition int_layout (kind g owner stride at_ : Z) (kids : list Z) : layout :=
  hdr_layout kind 1 (zlen kids) g owner ++ recs_layout (kid_layout stride at_) 0 kids.

Lemma off_crc_kids stride at_ kids : 0 ≤ stride → 0 ≤ at_ → off_crc (recs_layout (kid_layout stride at_) 0 kids).
Proof.
  intros Hs Ha. apply off_crc_ends, recs_layout_from. intros i b Hi _. apply Forall_singleton. unfold HDR. cbn [fst]. nia.
Qed.

Lemma kid_ends stride at_ k b c : HDR + k * stride + at_ + 4 ≤ c → ends_by c (kid_layout stride at_ k b).
Proof. intros. apply Forall_singleton. cbn [fst snd]. by rewrite zlen_le_bytes. Qed.

(** Later entries of a layout may be forgotten. *)
Lemma filled_keep n b ly ly1 ly2 c c' :
  filled n b (ly ++ ly1) c → carries b ly2 → ends_by c ly2 → c ≤ c' → filled n b (ly ++ ly2) c'.
Proof.
  intros [Hl Hb Hc He] H2 He2 Hcc. split; [done|done| |].
  - apply carries_app in Hc as [Hc _]. by apply carries_app.
  - apply Forall_app in He as [He _]. apply Forall_app. split; by eapply ends_by_weaken.
Qed.

Lemma put_dir_key_spec v dents dleaf k kid b ly c de :
  filled BLOCK b ly c → c ≤ HDR + k * DENT_REC → 0 ≤ k < 8 → dent_typed de →
  (∃ j, index dents (k * DENT_PER_LEAF) = Ret j ∧ index (v_dents v) j = Ret de) → index dleaf k = Ret kid →
  owp (put_dir_key v dents dleaf k b)
    (λ b', filled BLOCK b' (ly ++ kid_layout DENT_REC 0 k kid) (HDR + (k + 1) * DENT_REC)).
Proof.
  intros F Hc Hk [] (j & Hj & Hde) Hkid. unfold put_dir_key. rewrite Hj. cbn [obind]. rewrite Hde. cbn [obind].
  rewrite Hkid. cbn [obind]. unfold HDR, DENT_REC, BLOCK, put32 in *.
  assert (H0 : is_byte 0) by (unfold is_byte; lia).
  do 4 fill_step F. rewrite <-!app_assoc in F. pose proof (fl_carries _ _ _ _ F) as Hcar. apply carries_app in Hcar as [_ Hcar].
  eapply filled_keep; [exact F| |apply kid_ends; unfold HDR; zlia|zlia].
  unfold kid_layout, HDR. rewrite Z.add_0_r. apply carries_1. eapply carries_elem; [exact Hcar|]. left.
Qed.

Lemma dir_int_spec v dents dleaf leaves g ino buf kids (Q : list Z → Prop) :
  zlen buf = BLOCK → leaves = zlen kids → zlen kids ≤ 8 →
  (∀ e kid, kids !! e = Some kid → ∃ j de, index dents (Z.of_nat e * DENT_PER_LEAF) = Ret j ∧
     index (v_dents v) j = Ret de ∧ dent_typed de ∧ index dleaf (Z.of_nat e) = Ret kid) →
  (∀ b, sealed b (int_layout META_DIR_INT g ino DENT_REC 0 kids) → Q b) →
  owp (dir_int_into v dents dleaf leaves g ino buf) Q.
Proof.
  intros Hl -> Hn Hsel HQ. unfold dir_int_into.
  replace (wrap 16 (zlen kids)) with (zlen kids) by (unfold wrap; rewrite Z.mod_small; zlia).
  apply owp_bind. apply meta_hdr_spec; [done|by compute..|]. intros b0 F0. apply owp_bind.
  eapply owp_mono; [apply (loop_fill (kid_layout DENT_REC 0) _ BLOCK HDR DENT_REC kids 0 _ _ _ F0); [done|]|].
  - intros e kid b ly c Hkid F Hc. rewrite Z.add_0_l in *. apply lookup_lt_Some in Hkid as Hlt.
    destruct (Hsel e kid Hkid) as (j & de & Hj & Hde & Ht & Hk).
    apply put_dir_key_spec with (c := c) (de := de); [done|done|zlia|done|by exists j|done].
  - intros b1 (c' & F1 & _). cbv beta. eapply finish_meta_spec; [exact F1| |exact HQ].
    apply off_crc_app. split; [apply off_crc_hdr|]. by apply off_crc_kids.
Qed.

Lemma put_inode_key_spec v idx ileaf ni k kid b ly c :
  filled BLOCK b ly c → c ≤ HDR + k * 8 → 0 ≤ k < 8 →
  (∃ j r, index idx (k * INODE_PER_LEAF) = Ret j ∧ index (v_inodes v) j = Ret r) → index ileaf k = Ret kid →
  owp (put_inode_key v idx ileaf ni k b)
    (λ b', filled BLOCK b' (ly ++ kid_layout 8 4 k kid) (HDR + (k + 1) * 8)).
Proof.
  intros F Hc Hk (j & r & Hj & Hr) Hkid. unfold put_inode_key.
  assert (∃ key, (if ni =? 0 then Ret ROOT_INO else
    j <~ index idx (k * INODE_PER_LEAF) ;; r <~ index (v_inodes v) j ;; Ret (i_ino r)) = Ret key) as [key ->].
  { destruct (ni =? 0); [by eexists|]. rewrite Hj. cbn [obind]. rewrite Hr. by eexists. }
  cbn [obind]. unfold HDR, BLOCK, put32 in *. fill_step F. rewrite Hkid. cbn [obind]. fill_step F.
  rewrite <-!app_assoc in F. pose proof (fl_carries _ _ _ _ F) as Hcar. apply carries_app in Hcar as [_ Hcar].
  eapply filled_keep; [exact F| |apply kid_ends; unfold HDR; zlia|zlia].
  unfold kid_layout, HDR. apply carries_1. eapply carries_elem; [exact Hcar|]. right. left.
Qed.

Lemma inode_int_spec v idx ileaf ni leaves g buf kids (Q : list Z → Prop) :
  zlen buf = BLOCK → leaves = zlen kids → zlen kids ≤ 8 →
  (∀ e kid, kids !! e = Some kid → ∃ j r, index idx (Z.of_nat e * INODE_PER_LEAF) = Ret j ∧
     index (v_inodes v) j = Ret r ∧ index ileaf (Z.of_nat e) = Ret kid) →
  (∀ b, sealed b (int_layout META_INODE_INT g 0 8 4 kids) → Q b) →
  owp (inode_int_into v idx ileaf ni leaves g buf) Q.
Proof.
  intros Hl -> Hn Hsel HQ. unfold inode_int_into.
  replace (wrap 16 (zlen kids)) with (zlen kids) by (unfold wrap; rewrite Z.mod_small; zlia).
  apply owp_bind. apply meta_hdr_spec; [done|by compute..|]. intros b0 F0. apply owp_bind.
  eapply owp_mono; [apply (loop_fill (kid_layout 8 4) _ BLOCK HDR 8 kids 0 _ _ _ F0); [done|]|].
  - intros e kid b ly c Hkid F Hc. rewrite Z.add_0_l in *. apply lookup_lt_Some in Hkid as Hlt.
    destruct (Hsel e kid Hkid) as (j & r & Hj & Hr & Hk).
    apply put_inode_key_spec with (c := c); [done|done|zlia|by exists j, r|done].
  - intros b1 (c' & F1 & _). cbv beta. eapply finish_meta_spec; [exact F1| |exact HQ].
    apply off_crc_app. split; [apply off_crc_hdr|]. by apply off_crc_kids.
Qed.

(** Mount finds the children. *)
Lemma node_kids_spec b kind g owner stride at_ kids :
  sealed b (int_layout kind g owner stride at_ kids) → zlen kids ≤ 8 → Forall (λ k, u32 k) kids →
  node_kids b (zlen kids) stride at_ = Ret (kids ++ replicate (8 - length kids) 0).
Proof.
  intros [_ _ Hc _] Hn Hk. unfold int_layout in Hc. apply carries_app in Hc as [_ Hc]. unfold node_kids.
  rewrite Z.min_l by lia.
  assert (Hgen : ∀ todo pre, kids = pre ++ todo →
    ofor (range (zlen pre) (zlen kids)) (λ i l, b' <~ le32 b (HDR + i * stride + at_) ;; store l i b')
      (pre ++ replicate (8 - length pre) 0) = Ret (kids ++ replicate (8 - length kids) 0)).
  { induction todo as [|x todo IH]; intros pre Hpre.
    - rewrite app_nil_r in Hpre. subst. by rewrite range_nil by lia.
    - assert (Hlt : zlen pre < zlen kids) by (rewrite Hpre; zlia). rewrite range_cons by done. cbn [ofor].
      assert (Hx : kids !! length pre = Some x) by (rewrite Hpre; by apply list_lookup_middle).
      pose proof (recs_layout_elem _ _ _ _ _ _ Hc Hx) as Hcx. rewrite Z.add_0_l in Hcx. apply carries_1 in Hcx.
      unfold le32. change (Z.of_nat (length pre)) with (zlen pre) in Hcx. rewrite (load_holds 4 b _ x Hcx).
      2: { rewrite Forall_lookup in Hk. exact (Hk _ _ Hx). }
      cbn [obind]. replace (8 - length pre)%nat with (S (8 - length (pre ++ [x]))) by zlia. cbn [replicate].
      rewrite store_mid by done. cbn [obind]. specialize (IH (pre ++ [x])). rewrite <-app_assoc in IH.
      specialize (IH Hpre). rewrite <-app_assoc in IH. cbn [app] in IH.
      replace (zlen (pre ++ [x])) with (zlen pre + 1) in IH by zlia. exact IH. }
  exact (Hgen kids [] eq_refl).
Qed.
