(* ===== verification/VibefsTree.v ===== *)
(** * vibefs: writing the new tree (src/crates/core/src/fs/vibefs/commit.rs)

    The first half of a commit, on any disk and with any fault: it writes only
    blocks that were free when it began, each once, and when it succeeds the blocks
    written are the inode tree and the directory trees of the volume. *)

From stdpp Require Import base strings numbers gmap list sorting.
From S2P Require Import Prelude Bytes Crc Buf FsError Vibefs VibefsCommit VibefsLayout VibefsSort VibefsVol.
From S2P Require Import VibefsBlocks VibefsDisk.
Import VibefsCommit.

Local Open Scope Z_scope.

(** ** Collected records *)
Definition ino_le (a b : Inode) : Prop := (i_ino b <? i_ino a) = false.
Definition name_of (de : Dent) : list Z := take (Z.to_nat (d_nlen de)) (d_name de).
Definition name_le (a b : Dent) : Prop := name_gt (name_of a) (name_of b) = false.
Definition in_dir (ino : Z) (de : Dent) : bool := d_used de && (d_parent de =? ino).

Lemma length_filter_zlen {A} (P : A → Prop) `{!∀ x, Decision (P x)} (l : list A) : zlen (filter P l) ≤ zlen l.
Proof. pose proof (length_filter P l). unfold zlen. lia. Qed.

Lemma collect_inodes_spec v :
  tables_typed v → ∃ r rs, collect_inodes v (replicate (Z.to_nat MAX_INODES) 0) = Ret r ∧
    collected i_used ino_le (v_inodes v) r rs.
Proof.
  intros []. apply (collect_sorted i_used (v_inodes v) _ (λ a b, i_ino b <? i_ino a)).
  - pose proof (length_filter_zlen (λ x, i_used x = true) (v_inodes v)). change (Z.to_nat MAX_INODES) with 64%nat. zlia.
  - intros x y a b Hx Hy Ha Hb _ _. rewrite (index_ret _ _ a) by done. cbn [obind]. by rewrite (index_ret _ _ b) by done.
  - intros a b. rewrite Z.ltb_lt, Z.ltb_ge. lia.
  - intros a b c. rewrite !Z.ltb_ge. lia.
Qed.

Lemma dent_name_ret v de : tables_typed v → de ∈ v_dents v → d_used de = true → dent_name de = Ret (name_of de).
Proof.
  intros Ht Hin Hu. pose proof (tt_dents_valid _ Ht de Hin Hu) as [H1 H2]. change MAX_NAME with 64 in H2.
  pose proof (tt_dents_ok _ Ht) as Hok. rewrite Forall_forall in Hok. destruct (Hok de Hin). unfold dent_name.
  apply sub_take. zlia.
Qed.

Lemma collect_dents_spec v ino :
  tables_typed v → ∃ r ds, collect_dents v ino (replicate (Z.to_nat MAX_DENTS) 0) = Ret r ∧
    collected (in_dir ino) name_le (v_dents v) r ds.
Proof.
  intros Ht. pose proof Ht as []. apply (collect_sorted (in_dir ino) (v_dents v) _ (λ a b, name_gt (name_of a) (name_of b))).
  - pose proof (length_filter_zlen (λ x, in_dir ino x = true) (v_dents v)). change (Z.to_nat MAX_DENTS) with 96%nat. zlia.
  - intros x y a b Hx Hy Ha Hb Hpa Hpb. apply andb_true_iff in Hpa as [Hua _]. apply andb_true_iff in Hpb as [Hub _].
    rewrite (index_ret _ _ a) by done. cbn [obind].
    rewrite (dent_name_ret v a) by (done || by eapply list_elem_of_lookup_2). cbn [obind].
    rewrite (index_ret _ _ b) by done. cbn [obind].
    by rewrite (dent_name_ret v b) by (done || by eapply list_elem_of_lookup_2).
  - intros a b. apply name_gt_asym.
  - intros a b c. apply name_gt_trans.
Qed.

(** ** Leaves *)
Definition chunk {R} (per : nat) (k : nat) (l : list R) : list R := take per (drop (k * per) l).

Lemma concat_chunks {R} per n (l : list R) :
  concat (map (λ k, chunk per k l) (seq 0 n)) = take (n * per) l.
Proof.
  induction n as [|n IH]; [done|]. rewrite seq_S, map_app, concat_app, IH. cbn. rewrite app_nil_r. unfold chunk.
  rewrite take_take_drop. f_equal. lia.
Qed.

Lemma picked_selects {R} (table : list R) idx rest rs per k :
  picked table idx rs → selects table (idx ++ rest) (Z.of_nat k * Z.of_nat per) (chunk per k rs).
Proof.
  intros Hp e r He. unfold chunk in He. apply lookup_take_Some in He as [He Hlt]. rewrite lookup_drop in He.
  destruct (Forall2_lookup_r _ _ _ _ _ Hp He) as (j & Hj & Hj0 & Hr). exists j. split; [|by apply index_ret].
  apply index_ret; [lia|]. replace (Z.to_nat (Z.of_nat k * Z.of_nat per + Z.of_nat e)) with (k * per + e)%nat by lia.
  by apply lookup_app_l_Some.
Qed.
(** A tree over [kids]: one leaf, or an internal node above several.  [P b x]: block
    [b] has the contents [x]. *)
Definition tree {R} (leaf_ok : list Z → list R → Prop) (int_ok : list Z → list Z → Prop)
    (P : Z → list Z → Prop) (root : Z) (kids : list Z) (rs : list R) : Prop :=
  ∃ chunks, rs = concat chunks ∧ Forall2 (λ b c, ∃ x, P b x ∧ leaf_ok x c) kids chunks ∧ 1 ≤ zlen kids ≤ 8 ∧
    (kids = [root] ∨ 1 < zlen kids ∧ ∃ x, P root x ∧ int_ok x kids).

Lemma tree_mono {R} leaf_ok int_ok (P P' : Z → list Z → Prop) root kids (rs : list R) :
  (∀ b x, P b x → P' b x) → tree leaf_ok int_ok P root kids rs → tree leaf_ok int_ok P' root kids rs.
Proof.
  intros HP (chunks & -> & H2 & Hn & Hr). exists chunks. split_and!; [done| |lia|lia|].
  - eapply Forall2_impl; [exact H2|]. cbn. intros b c (x & Hx & Hc). eauto.
  - destruct Hr as [->|(Hk & x & Hx & Hi)]; [by left|right]. eauto.
Qed.

Definition dir_leaf_ok (g ino : Z) (x : list Z) (ds : list Dent) : Prop :=
  sealed x (dir_leaf_layout g ino ds) ∧ 1 ≤ zlen ds ≤ DENT_PER_LEAF.
Definition dir_int_ok (g ino : Z) (x : list Z) (kids : list Z) : Prop :=
  sealed x (int_layout META_DIR_INT g ino DENT_REC 0 kids).
Definition inode_leaf_ok (g : Z) (x : list Z) (rs : list Inode) : Prop :=
  sealed x (inode_leaf_layout g rs) ∧ 1 ≤ zlen rs ≤ INODE_PER_LEAF.
Definition inode_int_ok (g : Z) (x : list Z) (kids : list Z) : Prop :=
  sealed x (int_layout META_INODE_INT g 0 8 4 kids).

(** The tree of one directory: nothing for an empty one. *)
Definition dir_tree (g : Z) (P : Z → list Z → Prop) (ino root : Z) (kids : list Z) (ds : list Dent) : Prop :=
  (ds = [] ∧ root = 0 ∧ kids = []) ∨ (ds ≠ [] ∧ tree (dir_leaf_ok g ino) (dir_int_ok g ino) P root kids ds).
Definition inode_tree (g : Z) (P : Z → list Z → Prop) (root : Z) (kids : list Z) (rs : list Inode) : Prop :=
  tree (inode_leaf_ok g) (inode_int_ok g) P root kids rs.

(** ** The run of a commit *)
Abbreviation wlist := (list (Z * list Z)).
Definition writes (W : wlist) : list event := map (λ w, EWrite w.1 w.2) W.
Definition fresh_write (v : Vol) (ev : event) : Prop :=
  ∃ b x, (ev = EWrite b x ∨ ev = EMaybe b x) ∧ is_free v b.

(** [new_meta] and [n_new] after the allocations [A]. *)
Definition nm_of (A : list Z) : NewMeta := (A ++ replicate (73 - length A) 0, zlen A).

Lemma push_new_of A b : zlen A < 73 → push_new (nm_of A) b = inl (nm_of (A ++ [b])).
Proof.
  intros Hl. unfold push_new, nm_of. cbn [fst snd].
  replace (73 - length A)%nat with (S (73 - length (A ++ [b]))) by zlia. cbn [replicate].
  unfold zlen at 1 2. rewrite Nat2Z.id, list_lookup_middle by done. f_equal. f_equal; [|zlia].
  rewrite insert_app_r_alt, Nat.sub_diag by lia. cbn. by rewrite <-app_assoc.
Qed.

(** ** Allocating *)
Lemma alloc_leaves_spec v buf leaves n L A :
  maps_typed v → v_nblocks v ≤ MAX_BLOCKS → fresh v A →
  zlen L + Z.of_nat n = leaves → leaves ≤ 8 → zlen A + Z.of_nat n ≤ 73 → zlen A + Z.of_nat n ≤ zlen (free_blocks v) →
  ewp (alloc_leaves (range (zlen L) leaves) (L ++ replicate (8 - length L) 0) (nm_of A)) (set_iobuf (alloced v A) buf)
    (λ r v', ∃ L', zlen L' = Z.of_nat n ∧ r = ((L ++ L') ++ replicate (8 - length (L ++ L')) 0, nm_of (A ++ L')) ∧
       v' = set_iobuf (alloced v (A ++ L')) buf ∧ fresh v (A ++ L'))
    (λ _ _, False).
Proof.
  intros Hm Hn. revert L A. induction n as [|n IH]; intros L A Hf HL H8 H73 Hfr.
  { rewrite range_nil by lia. apply ewp_ok. exists []. rewrite !app_nil_r. by split_and!. }
  rewrite range_cons by lia. cbn [alloc_leaves]. apply ewp_bind, alloc_more; [done|done|done|lia|].
  intros b Hfb. apply ewp_pbind, wp_lift.
  replace (8 - length L)%nat with (S (8 - length (L ++ [b]))) by zlia. cbn [replicate].
  rewrite store_mid by done. cbn [owp]. apply ewp_bind, ewp_ret. rewrite push_new_of by lia.
  replace (zlen L + 1) with (zlen (L ++ [b])) by zlia.
  replace (L ++ b :: replicate (8 - length (L ++ [b])) 0) with ((L ++ [b]) ++ replicate (8 - length (L ++ [b])) 0)
    by (by rewrite <-app_assoc).
  eapply ewp_mono; [apply (IH (L ++ [b]) (A ++ [b])); [done|zlia..]| |done].
  intros r v' (L' & HL' & -> & -> & Hf'). exists (b :: L'). rewrite <-!app_assoc in *. cbn [app] in *.
  split_and!; [zlia|done|done|done].
Qed.

(** The blocks of one tree, and what they add to the allocations. *)
Definition tree_blocks (L : list Z) (root : Z) : list Z := L ++ (if (1 <? zlen L) then [root] else []).

Lemma alloc_tree_spec v buf leaves A :
  maps_typed v → v_nblocks v ≤ MAX_BLOCKS → fresh v A → 1 ≤ leaves ≤ 8 →
  let ints := if 1 <? leaves then 1 else 0 in
  zlen A + leaves + ints ≤ 73 → zlen A + leaves + ints ≤ zlen (free_blocks v) →
  ewp (alloc_tree leaves ints (nm_of A)) (set_iobuf (alloced v A) buf)
    (λ r v', ∃ L root, let A' := A ++ tree_blocks L root in
       zlen L = leaves ∧ r = (L ++ replicate (8 - length L) 0, root, nm_of A') ∧ (leaves = 1 → L = [root]) ∧
       v' = set_iobuf (alloced v A') buf ∧ fresh v A')
    (λ _ _, False).
Proof.
  intros Hm Hn Hf Hl ints H73 Hfr. unfold alloc_tree. apply ewp_bind.
  assert (0 ≤ ints ≤ 1) by (unfold ints; destruct (1 <? leaves); lia).
  eapply ewp_mono; [apply (alloc_leaves_spec v buf leaves (Z.to_nat leaves) [] A); [done|done|done|zlia..]| |done].
  intros r v' (L & HL & -> & -> & Hf'). cbn [app] in *. unfold ints, tree_blocks in *. clear ints.
  destruct (Z.ltb_spec 1 leaves) as [H1|H1]; cbn [Z.ltb Z.compare].
  - apply ewp_bind. unfold alloc_meta. apply ewp_bind, alloc_more; [done|done|done|zlia|]. intros b Hfb.
    apply ewp_bind, ewp_ret. rewrite push_new_of by zlia. apply ewp_ok, ewp_ok. exists L, b.
    rewrite (proj2 (Z.ltb_lt 1 (zlen L))) by lia. rewrite <-app_assoc in *. split_and!; [lia|done|lia|done|done].
  - destruct L as [|b [|]]; [zlia| |zlia]. apply ewp_pbind, wp_lift.
    rewrite (index_ret _ 0 b) by done. apply ewp_ok. exists [b], b. change (1 <? zlen [b]) with false. cbn iota. rewrite app_nil_r. split_and!; [zlia|done|done|done|done].
Qed.

Section run.
Context `{DiskLaws D}.
Context (v : Vol) (d0 : D).
Hypothesis Hmaps : maps_typed v.
Hypothesis Hnb : v_nblocks v ≤ MAX_BLOCKS.
Hypothesis Hdisk : v_nblocks v ≤ disk_nblocks d0.

(** After the allocations [A] and the writes [W]; [v1] is [v] but for its inode
    table. *)
Record at_run (v1 : Vol) (A : list Z) (W : wlist) (s : Vol * D) : Prop := {
  ar_vol : ∃ buf, fst s = set_iobuf (alloced v1 A) buf ∧ zlen buf = BLOCK;
  ar_did : did d0 (writes W) (snd s);
  ar_good : good d0 → good (snd s);
  ar_fresh : fresh v A;
  ar_sub : map fst W ⊆ A;
  ar_nodup : NoDup (map fst W);
}.

(** The commit stopped on a fault, with only new blocks written. *)
Definition stopped (s : Vol * D) : Prop :=
  ∃ evs, did d0 evs (snd s) ∧ Forall (fresh_write v) evs ∧ ¬ good d0.

(** [v1] differs from [v] in its inodes alone. *)
Definition retabled (v1 : Vol) : Prop := v1 = set_inodes v (v_inodes v1).

Lemma retabled_refl : retabled v.
Proof. done. Qed.

Lemma retabled_maps v1 : retabled v1 → maps_typed v1 ∧ v_nblocks v1 ≤ MAX_BLOCKS ∧ (∀ A, fresh v1 A ↔ fresh v A) ∧
  free_blocks v1 = free_blocks v.
Proof. intros ->. pose proof Hmaps as Hm. split_and!; [vol_frame Hm|done|done|done]. Qed.

Lemma fresh_writes A W : fresh v A → map fst W ⊆ A → Forall (fresh_write v) (writes W).
Proof.
  intros [_ Hf] Hs. unfold writes. apply Forall_forall. intros ev Hev. apply list_elem_of_fmap in Hev as ([b x] & -> & Hw).
  exists b, x. split; [by left|]. rewrite Forall_forall in Hf. apply Hf, Hs. apply list_elem_of_fmap. by exists (b, x).
Qed.

Lemma writes_app W W' : writes (W ++ W') = writes W ++ writes W'.
Proof. apply map_app. Qed.

(** One block written from the buffer. *)
Lemma write_run v1 A W s b (Q : unit → Vol * D → Prop) X :
  at_run v1 A W s → b ∈ A → b ∉ map fst W →
  (∀ s', fst s' = fst s → at_run v1 A (W ++ [(b, v_iobuf (fst s))]) s' → Q tt s') →
  (∀ e s', stopped s' → X e s') →
  ewp (write_iobuf b) s Q X.
Proof.
  intros [(buf & Hv & Hl) Hdid Hg Hf Hs Hd] Hb Hnew HQ HX.
  assert (Hfb : is_free v b) by (destruct Hf as [_ Hf]; rewrite Forall_forall in Hf; by apply Hf).
  apply ewp_write.
  - rewrite (did_nblocks _ _ _ Hdid). destruct Hfb. lia.
  - by rewrite Hv.
  - intros d Hw Hgd. apply HQ; [done|]. split; cbn [fst snd].
    + by exists buf.
    + rewrite writes_app. by eapply did_trans.
    + auto.
    + done.
    + rewrite map_app. cbn. set_solver.
    + rewrite map_app. apply NoDup_app. split_and!; [done|set_solver|apply NoDup_singleton].
  - intros e d Hw Hgd. apply HX. exists (writes W ++ [EMaybe b (v_iobuf (fst s))]). split_and!; [by eapply did_trans| |by auto].
    apply Forall_app. split; [by apply fresh_writes with (A := A)|]. apply Forall_singleton. exists b, (v_iobuf (fst s)). split; [by right|done].
Qed.

(** The buffer is rebuilt before each write. *)
Lemma setbuf_run v1 A W s buf (Q : unit → Vol * D → Prop) :
  at_run v1 A W s → zlen buf = BLOCK →
  (∀ s', at_run v1 A W s' → fst s' = set_iobuf (fst s) buf → Q tt s') → wp (setbuf buf) s Q.
Proof.
  intros [(buf0 & Hv & Hl0) Hdid Hg Hf Hs Hd] Hl HQ. apply wp_onvol, wp_modify, HQ; [|done].
  split; cbn [fst snd]; [|done..]. exists buf. split; [by rewrite Hv|done].
Qed.
(** A loop that writes one new block per turn. *)
Lemma efor_writes v1 A W L (f : Z → M (Vol * D) (unit + Error)) (P : nat → list Z → Prop) s :
  at_run v1 A W s → NoDup L → (∀ b, b ∈ L → b ∈ A ∧ b ∉ map fst W) →
  (∀ k b W' s', L !! k = Some b → at_run v1 A W' s' → b ∈ A → b ∉ map fst W' →
    ewp (f (Z.of_nat k)) s' (λ _ s'', ∃ x, P k x ∧ at_run v1 A (W' ++ [(b, x)]) s'') (λ _, stopped)) →
  ewp (efor (range 0 (zlen L)) f) s
    (λ _ s', ∃ xs, length xs = length L ∧ (∀ k x, xs !! k = Some x → P k x) ∧ at_run v1 A (W ++ zip L xs) s')
    (λ _, stopped).
Proof.
  intros Hat Hnd Hin Hstep.
  assert (Hgen : ∀ todo dn xs s, L = dn ++ todo → length xs = length dn → (∀ k x, xs !! k = Some x → P k x) →
    at_run v1 A (W ++ zip dn xs) s →
    ewp (efor (range (zlen dn) (zlen L)) f) s
      (λ _ s', ∃ xs, length xs = length L ∧ (∀ k x, xs !! k = Some x → P k x) ∧ at_run v1 A (W ++ zip L xs) s')
      (λ _, stopped)).
  { induction todo as [|b todo IH]; intros dn xs s' HL Hlen HP Ha.
    - rewrite app_nil_r in HL. subst dn. rewrite range_nil by lia. apply ewp_ok. by exists xs.
    - assert (Hb : L !! length dn = Some b) by (rewrite HL; by apply list_lookup_middle).
      assert (Hbin : b ∈ L) by (by eapply list_elem_of_lookup_2). destruct (Hin b Hbin) as [HbA HbW].
      assert (Hbn : b ∉ map fst (W ++ zip dn xs)).
      { rewrite map_app, not_elem_of_app. split; [done|]. intros Hz.
        assert (b ∈ dn) as Hbd.
        { apply list_elem_of_fmap in Hz as ([b' x] & -> & Hz). by apply elem_of_zip_l in Hz. }
        rewrite HL in Hnd. apply NoDup_app in Hnd as (_ & Hdis & _). apply (Hdis b Hbd). left. }
      rewrite range_cons by (rewrite HL; zlia). cbn [efor]. apply ewp_bind.
      eapply ewp_mono; [by apply Hstep with (b := b) (W' := W ++ zip dn xs)| |done].
      intros _ s'' (x & HPx & Ha''). replace (zlen dn + 1) with (zlen (dn ++ [b])) by zlia.
      apply (IH (dn ++ [b]) (xs ++ [x])).
      + by rewrite <-app_assoc.
      + rewrite !length_app. cbn. lia.
      + intros k y Hy. apply lookup_app_Some in Hy as [Hy|[Hk Hy]]; [by apply HP|].
        apply list_lookup_singleton_Some in Hy as [Hk0 <-]. replace k with (length dn) by lia. done.
      + rewrite zip_with_app by done. by rewrite app_assoc. }
  apply (Hgen L [] []); [done|done|by intros k x Hx|]. cbn. by rewrite app_nil_r.
Qed.

Lemma at_run_alloc v1 A N W s buf :
  at_run v1 A W s → fst s = set_iobuf (alloced v1 A) buf → fresh v (A ++ N) → zlen buf = BLOCK →
  at_run v1 (A ++ N) W (set_iobuf (alloced v1 (A ++ N)) buf, snd s).
Proof.
  intros [] Hv Hf Hl. split; cbn [fst snd]; [by exists buf|done|done|done|set_solver|done].
Qed.

Lemma alloc_tree_run v1 A W s leaves (Q : list Z * Z * NewMeta → Vol * D → Prop) X :
  at_run v1 A W s → retabled v1 → 1 ≤ leaves ≤ 8 →
  let ints := if 1 <? leaves then 1 else 0 in
  zlen A + leaves + ints ≤ 73 → zlen A + leaves + ints ≤ zlen (free_blocks v) →
  (∀ L root s', zlen L = leaves → (leaves = 1 → L = [root]) → at_run v1 (A ++ tree_blocks L root) W s' →
     Q (L ++ replicate (8 - length L) 0, root, nm_of (A ++ tree_blocks L root)) s') →
  ewp (onvol (alloc_tree leaves ints (nm_of A))) s Q X.
Proof.
  intros Hat Hre Hl ints H73 Hfr HQ. destruct (retabled_maps v1 Hre) as (Hm1 & Hn1 & Hf1 & Hfree).
  pose proof Hat as [(buf & Hv & Hlb) _ _ Hfresh _ _].
  apply ewp_onvol. rewrite Hv. eapply ewp_mono.
  - apply alloc_tree_spec; [done|done|by apply Hf1|done|done|by rewrite Hfree].
  - intros r v' (L & root & HL & -> & Hone & -> & Hf'). apply HQ; [done|done|].
    apply at_run_alloc with (s := s); [done|done|by apply Hf1|done].
  - done.
Qed.

(** ** Directory trees *)
Lemma run_dents v1 A W s : at_run v1 A W s → retabled v1 → v_dents (fst s) = v_dents v ∧ zlen (v_iobuf (fst s)) = BLOCK.
Proof.
  intros [(buf & -> & Hl) _ _ _ _ _] ->. cbn. destruct (alloced_shape (set_inodes v (v_inodes v1)) A) as (? & ? & ? & ->). done.
Qed.
Lemma run_inodes v1 A W s : at_run v1 A W s → v_inodes (fst s) = v_inodes v1.
Proof. intros [(buf & -> & Hl) _ _ _ _ _]. cbn. destruct (alloced_shape v1 A) as (? & ? & ? & ->). done. Qed.

Lemma dir_leaf_run v1 A W s idx rest ds L g ino k b :
  tables_typed v → retabled v1 → picked (v_dents v) idx ds → zlen L = div_ceil (zlen ds) DENT_PER_LEAF → zlen ds < 2 ^ 32 →
  at_run v1 A W s → L !! k = Some b → b ∈ A → b ∉ map fst W →
  ewp (write_dir_leaf (idx ++ rest) (L ++ replicate (8 - length L) 0) (zlen ds) g ino (Z.of_nat k)) s
    (λ _ s', ∃ x, dir_leaf_ok g ino x (chunk 56 k ds) ∧ at_run v1 A (W ++ [(b, x)]) s') (λ _, stopped).
Proof.
  intros Ht Hre Hp HL Hds Hat Hk HbA HbW. destruct (run_dents _ _ _ _ Hat Hre) as [Hde Hbuf].
  unfold write_dir_leaf. apply ewp_pbind, wp_gets, ewp_pbind, wp_lift.
  change DENT_PER_LEAF with 56 in *. set (start := Z.of_nat k * 56). set (end_ := Z.min (start + 56) (zlen ds)).
  assert (Hlt : start < zlen ds).
  { apply lookup_lt_Some in Hk. unfold start. unfold div_ceil in HL. unfold zlen in *. dlia. }
  assert (Hlen : zlen (chunk 56 k ds) = end_ - start).
  { unfold chunk, end_, start, zlen in *. rewrite length_take, length_drop. lia. }
  apply dir_leaf_spec with (ds := chunk 56 k ds); [done|unfold start; lia|done|rewrite Hlen; change DENT_PER_LEAF with 56; lia|lia| | |].
  - apply Forall_forall. intros de Hin. apply list_elem_of_lookup in Hin as [e He]. unfold chunk in He.
    apply lookup_take_Some in He as [He _]. rewrite lookup_drop in He.
    destruct (Forall2_lookup_r _ _ _ _ _ Hp He) as (j & _ & _ & Hr).
    exact (Forall_lookup_1 _ _ _ _ (tt_dents_ok _ Ht) Hr).
  - rewrite Hde. exact (picked_selects (v_dents v) idx rest ds 56 k Hp).
  - intros x Hx. apply ewp_pbind. apply setbuf_run with (v1 := v1) (A := A) (W := W); [done|exact (sl_len _ _ Hx)|].
    intros s1 Hat1 Hv1. apply ewp_pbind, wp_lift.
    rewrite (index_ret _ _ b); [|lia|rewrite Nat2Z.id; by apply lookup_app_l_Some]. cbn [owp].
    eapply write_run; [exact Hat1|done|done| |done]. intros s2 _ Hat2. exists x.
    replace (v_iobuf (fst s1)) with x in Hat2 by (by rewrite Hv1). split; [|done].
    split; [done|]. rewrite Hlen. change DENT_PER_LEAF with 56. lia.
Qed.

(** The leaves just written hold the records, in order. *)
Lemma chunks_written {R} (leaf_ok : list Z → list R → Prop) (W : wlist) L xs per (rs : list R) :
  length xs = length L → (∀ k x, xs !! k = Some x → leaf_ok x (chunk per k rs)) → (length rs ≤ length L * per)%nat →
  ∃ chunks, rs = concat chunks ∧ Forall2 (λ b c, ∃ x, (b, x) ∈ W ++ zip L xs ∧ leaf_ok x c) L chunks.
Proof.
  intros Hlen Hok Hle. exists (map (λ k, chunk per k rs) (seq 0 (length L))). split.
  - rewrite concat_chunks. by rewrite take_ge.
  - apply Forall2_same_length_lookup. split; [by rewrite length_map, length_seq|].
    intros i b c Hb Hc. apply list_lookup_fmap_Some in Hc as (k & -> & Hk). apply lookup_seq in Hk as [-> Hi].
    destruct (lookup_lt_is_Some_2 xs i) as [x Hx]; [lia|]. exists x. split; [|by apply Hok].
    apply elem_of_app. right. apply list_elem_of_lookup. exists i. apply lookup_zip_with_Some. by exists b, x.
Qed.

(** What an entry of the inode table contributes. *)
Definition dir_entry (g : Z) (P : Z → list Z → Prop) (r : Inode) (t : Z * list Z * list Dent) : Prop :=
  let '(root, kids, ds) := t in
  if is_dir r then
    dir_tree g P (i_ino r) root kids ds ∧ ds ≡ₚ filter (λ de, in_dir (i_ino r) de = true) (v_dents v) ∧
    StronglySorted name_le ds
  else root = 0 ∧ kids = [] ∧ ds = [].
Definition entry_blocks (t : Z * list Z * list Dent) : list Z :=
  let '(root, kids, ds) := t in match ds with [] => [] | _ => tree_blocks kids root end.
Definition dneed (r : Inode) : Z :=
  if is_dir r then let '(l, t) := dir_need (dir_count v (i_ino r)) in l + t else 0.

Definition on_list (W : wlist) (b : Z) (x : list Z) : Prop := (b, x) ∈ W.

Lemma dir_entry_mono g (P P' : Z → list Z → Prop) r t :
  (∀ b x, P b x → P' b x) → dir_entry g P r t → dir_entry g P' r t.
Proof.
  intros HP. destruct t as [[root kids] ds]. unfold dir_entry. destruct (is_dir r); [|done].
  intros (Ht & Hrest). split; [|done]. destruct Ht as [?|[Hne Ht]]; [by left|right; split; [done|by eapply tree_mono]].
Qed.
(** The internal node, when there is one. *)
Lemma dir_int_run A W s idx rest ds L root g ino :
  tables_typed v → picked (v_dents v) idx ds → zlen L = div_ceil (zlen ds) DENT_PER_LEAF → zlen L ≤ 8 →
  at_run v A W s → root ∈ A → root ∉ map fst W →
  ewp (v <- getv ;;
       buf <- lift (dir_int_into v (idx ++ rest) (L ++ replicate (8 - length L) 0) (zlen L) g ino (v_iobuf v)) ;;
       setbuf buf ;;
       write_iobuf root) s
    (λ _ s', ∃ x, dir_int_ok g ino x L ∧ at_run v A (W ++ [(root, x)]) s') (λ _, stopped).
Proof.
  intros Ht Hp HL H8 Hat HrA HrW. destruct (run_dents _ _ _ _ Hat retabled_refl) as [Hde Hbuf].
  apply ewp_pbind, wp_gets, ewp_pbind, wp_lift.
  apply dir_int_spec with (kids := L); [done|done|done| |].
  - intros e kid Hkid. change DENT_PER_LEAF with 56 in *.
    assert (Hlt : (e * 56 < length ds)%nat).
    { apply lookup_lt_Some in Hkid. unfold div_ceil, zlen in HL. dlia. }
    destruct (lookup_lt_is_Some_2 ds (e * 56) Hlt) as [de Hde'].
    destruct (Forall2_lookup_r _ _ _ _ _ Hp Hde') as (j & Hj & Hj0 & Hr). exists j, de. rewrite Hde. split_and!.
    + apply index_ret; [lia|]. replace (Z.to_nat (Z.of_nat e * 56)) with (e * 56)%nat by lia. by apply lookup_app_l_Some.
    + by apply index_ret.
    + exact (Forall_lookup_1 _ _ _ _ (tt_dents_ok _ Ht) Hr).
    + apply index_ret; [lia|]. rewrite Nat2Z.id. by apply lookup_app_l_Some.
  - intros x Hx. apply ewp_pbind. eapply setbuf_run; [exact Hat|exact (sl_len _ _ Hx)|].
    intros s1 Hat1 Hv1. eapply write_run; [exact Hat1|done|done| |done]. intros s2 _ Hat2. exists x.
    replace (v_iobuf (fst s1)) with x in Hat2 by (by rewrite Hv1). by split.
Qed.

Lemma fresh_app_r A N : fresh v (A ++ N) → NoDup N ∧ (∀ b, b ∈ N → b ∉ A) ∧ (∀ b, b ∈ A ++ N → 2 ≤ b < 1024).
Proof.
  intros [Hd Hf]. apply NoDup_app in Hd as (_ & Hdis & HN). split_and!; [done|set_solver|].
  intros b Hb. rewrite Forall_forall in Hf. destruct (Hf b Hb). change MAX_BLOCKS with 1024 in Hnb. lia.
Qed.

(** The whole tree of a directory that is not empty. *)
Lemma dir_tree_run {B} A W s idx rest ds g ino (K : Z → NewMeta → M (Vol * D) (B + Error)) (Q : B → Vol * D → Prop) :
  tables_typed v → picked (v_dents v) idx ds → 1 ≤ zlen ds ≤ 96 → at_run v A W s →
  let '(leaves, ints) := dir_need (zlen ds) in
  zlen A + leaves + ints ≤ 73 → zlen A + leaves + ints ≤ zlen (free_blocks v) →
  (∀ root kids W' s', let N := tree_blocks kids root in
     at_run v (A ++ N) (W ++ W') s' → map fst W' = N → zlen N = leaves + ints →
     tree (dir_leaf_ok g ino) (dir_int_ok g ino) (on_list W') root kids ds →
     ewp (K root (nm_of (A ++ N))) s' Q (λ _, stopped)) →
  ewp (t <-? onvol (alloc_tree leaves ints (nm_of A)) ;;
       let '(dleaf, droot, nm) := t in
       efor (range 0 leaves) (write_dir_leaf (idx ++ rest) dleaf (zlen ds) g ino) ?;;
       (if 0 <? ints then
          v <- getv ;;
          buf <- lift (dir_int_into v (idx ++ rest) dleaf leaves g ino (v_iobuf v)) ;;
          setbuf buf ;;
          write_iobuf droot
        else ok tt) ?;;
       K droot nm) s Q (λ _, stopped).
Proof.
  intros Ht Hp Hds Hat. unfold dir_need. rewrite (proj2 (Z.eqb_neq _ _)) by lia.
  set (leaves := div_ceil (zlen ds) DENT_PER_LEAF). intros H73 Hfr HK.
  assert (Hlv : 1 ≤ leaves ≤ 2) by (unfold leaves, div_ceil; change DENT_PER_LEAF with 56; dlia).
  apply ewp_bind. eapply alloc_tree_run; [exact Hat|done|lia|done|done|].
  intros L root s1 HL Hone Hat1. apply ewp_bind.
  destruct (fresh_app_r _ _ (ar_fresh _ _ _ _ Hat1)) as (HN & HNA & _).
  assert (HWA : ∀ b, b ∈ map fst W → b ∈ A) by (intros b Hb; apply (ar_sub _ _ _ _ Hat); done).
  unfold tree_blocks in *. rewrite HL in *.
  replace (range 0 leaves) with (range 0 (zlen L)) by (by rewrite HL).
  eapply ewp_mono; [apply efor_writes with (P := λ k x, dir_leaf_ok g ino x (chunk 56 k ds)); [exact Hat1| | |]| |done].
  { by apply NoDup_app in HN as (? & _). }
  { intros b Hb. split; [set_solver|]. intros HbW. apply (HNA b); [set_solver|by apply HWA]. }
  { intros k b W' s' Hk Hat' HbA HbW'. eapply dir_leaf_run; [done|done|done|done|lia|done|done|done|done]. }
  intros _ s2 (xs & Hxl & Hxs & Hat2).
  assert (Hfst : map fst (zip L xs) = L) by (apply fst_zip; lia).
  destruct (chunks_written (dir_leaf_ok g ino) [] L xs 56 ds Hxl Hxs) as (chunks & Hch & Hch2).
  { unfold leaves, div_ceil in HL. change DENT_PER_LEAF with 56 in HL. unfold zlen in *. dlia. }
  cbn [app] in Hch2. apply ewp_bind. destruct (Z.ltb_spec 1 leaves) as [H1|H1].
  - assert (HrN : root ∈ L ++ [root]) by set_solver.
    assert (HrL : root ∉ L) by (apply NoDup_app in HN as (_ & Hdis & _); set_solver). cbn [Z.ltb Z.compare].
    rewrite <-HL. eapply ewp_mono; [apply dir_int_run with (A := A ++ L ++ [root]) (W := W ++ zip L xs) (ds := ds)| |done].
    + done. + done. + done. + lia. + exact Hat2. + set_solver.
    + rewrite map_app, Hfst. intros [Hr|Hr]%elem_of_app; [|done]. apply (HNA root HrN). by apply HWA.
    + intros _ s3 (x & Hx & Hat3). specialize (HK root L (zip L xs ++ [(root, x)]) s3).
      rewrite HL, (proj2 (Z.ltb_lt 1 leaves)) in HK by lia. apply HK.
      * by rewrite <-app_assoc in Hat3.
      * by rewrite map_app, Hfst.
      * zlia.
      * exists chunks. split_and!; [done| |lia|lia|].
        -- eapply Forall2_impl; [exact Hch2|]. intros b c (y & Hy & Hc). exists y. split; [|done]. unfold on_list. set_solver.
        -- right. split; [lia|]. exists x. split; [unfold on_list; set_solver|done].
  - cbn [Z.ltb Z.compare]. apply ewp_ok. rewrite app_nil_r in *. assert (L = [root]) as -> by (apply Hone; lia).
    specialize (HK root [root] (zip [root] xs) s2). change (1 <? zlen [root]) with false in HK. cbn iota in HK.
    rewrite app_nil_r in HK. apply HK.
    + done. + done. + zlia.
    + exists chunks. split_and!; [done| |done|done|by left].
      eapply Forall2_impl; [exact Hch2|]. intros b c (y & Hy & Hc). by exists y.
Qed.
Lemma collect_dents_ext v' ino out : v_dents v' = v_dents v → collect_dents v' ino out = collect_dents v ino out.
Proof. intros Hd. unfold collect_dents. by rewrite Hd. Qed.

Definition root_of (t : Z * list Z * list Dent) : Z := t.1.1.
Definition roots_of (T : list (Z * list Z * list Dent)) : list Z := map root_of T ++ replicate (64 - length T) 0.

Lemma roots_store T root : (length T < 64)%nat → ∀ kids ds,
  store (roots_of T) (zlen T) root = Ret (roots_of (T ++ [(root, kids, ds)])).
Proof.
  intros Hl kids ds. unfold roots_of. replace (64 - length T)%nat with (S (64 - length (T ++ [(root, kids, ds)]))) by zlia.
  cbn [replicate]. rewrite store_mid by (unfold zlen; by rewrite length_map). f_equal. by rewrite map_app, <-app_assoc.
Qed.
Lemma roots_skip T : (length T < 64)%nat → roots_of T = roots_of (T ++ [(0, [], [])]).
Proof.
  intros Hl. unfold roots_of. replace (64 - length T)%nat with (S (64 - length (T ++ [(0, [], []) : Z * list Z * list Dent]))) by zlia.
  cbn [replicate]. by rewrite map_app, <-app_assoc.
Qed.

Lemma dir_count_collected ino ds :
  ds ≡ₚ filter (λ de, in_dir ino de = true) (v_dents v) → dir_count v ino = zlen ds.
Proof. intros Hp. unfold dir_count, zlen. by rewrite Hp. Qed.

Lemma write_dir_run A W s g T r :
  tables_typed v → at_run v A W s → v_inodes v !! length T = Some r →
  zlen A + dneed r ≤ 73 → zlen A + dneed r ≤ zlen (free_blocks v) →
  ewp (write_dir g (zlen T) (roots_of T) (nm_of A)) s
    (λ res s', ∃ t W', let N := entry_blocks t in
       res = (roots_of (T ++ [t]), nm_of (A ++ N)) ∧ at_run v (A ++ N) (W ++ W') s' ∧ map fst W' = N ∧
       zlen N = dneed r ∧ dir_entry g (on_list W') r t)
    (λ _, stopped).
Proof.
  intros Ht Hat Hr H73 Hfr. assert (HT : (length T < 64)%nat).
  { apply lookup_lt_Some in Hr. by rewrite (tt_inodes _ Ht) in Hr. }
  unfold write_dir. apply ewp_pbind, wp_gets, ewp_pbind, wp_lift. rewrite (run_inodes _ _ _ _ Hat).
  rewrite (index_ret _ _ r); [|zlia|unfold zlen; by rewrite Nat2Z.id]. cbn [owp]. unfold dneed in *.
  destruct (is_dir r) eqn:Hdir; cycle 1.
  { apply ewp_ok. exists (0, [], []), []. cbn [entry_blocks map]. rewrite !app_nil_r, <-roots_skip by done.
    unfold dir_entry. rewrite Hdir. by split_and!. }
  destruct (run_dents _ _ _ _ Hat retabled_refl) as [Hde _].
  apply ewp_pbind, wp_lift. rewrite (collect_dents_ext (fst s)) by done.
  destruct (collect_dents_spec v (i_ino r) Ht) as (res & ds & -> & idx & rest & -> & Hp & _ & Hperm & Hsort). cbn [owp].
  rewrite (dir_count_collected _ _ Hperm) in H73, Hfr |- *. rewrite (picked_len _ _ _ Hp).
  destruct (Z.eqb_spec (zlen ds) 0) as [Hz|Hz].
  { apply zlen_nil_inv in Hz. subst ds. apply ewp_pbind, wp_lift. rewrite (roots_store T 0 HT [] []). cbn [owp].
    apply ewp_ok. exists (0, [], []), []. cbn [entry_blocks map]. rewrite !app_nil_r. unfold dir_entry. rewrite Hdir.
    split_and!; [done|done|done|done|by left|done|done]. }
  assert (Hle : zlen ds ≤ 96).
  { unfold zlen. rewrite Hperm. pose proof (length_filter_zlen (λ de, in_dir (i_ino r) de = true) (v_dents v)) as Hlf.
    unfold zlen in Hlf. rewrite (tt_dents _ Ht) in Hlf. lia. }
  pose proof (dir_tree_run A W s idx rest ds g (i_ino r) (λ droot nm,
    dir_roots <- lift (store (roots_of T) (zlen T) droot) ;; ok (dir_roots, nm))) as Hrun.
  destruct (dir_need (zlen ds)) as [leaves ints]. apply Hrun; [done|done|zlia|done|lia|lia|]. clear Hrun.
  intros root kids W' s' N Hat' HN Hlen Htree. apply ewp_pbind, wp_lift. rewrite (roots_store T root HT kids ds).
  cbn [owp]. apply ewp_ok. exists (root, kids, ds), W'.
  assert (Hne : ds ≠ []) by (intros ->; done).
  assert (HeN : entry_blocks (root, kids, ds) = N) by (unfold entry_blocks; by destruct ds).
  rewrite HeN. unfold dir_entry. rewrite Hdir. split_and!; [done|done|done|done| |done|done]. right. by split.
Qed.

Definition dneeds (rs : list Inode) : Z := foldr (λ r n, dneed r + n) 0 rs.
Lemma dneed_nonneg r : 0 ≤ dneed r.
Proof.
  unfold dneed. destruct (is_dir r); [|done]. unfold dir_need, dir_count. destruct (_ =? 0); [done|].
  unfold div_ceil. change DENT_PER_LEAF with 56. set (n := zlen _). assert (0 ≤ n) by apply zlen_nonneg.
  destruct (1 <? (n + 56 - 1) / 56); dlia.
Qed.
Lemma dneeds_nonneg rs : 0 ≤ dneeds rs.
Proof. induction rs as [|r rs IH]; [done|]. cbn. pose proof (dneed_nonneg r). fold (dneeds rs). lia. Qed.
Lemma dir_blocks_needs : dir_blocks v = dneeds (v_inodes v).
Proof.
  unfold dir_blocks. assert (Hgen : ∀ l n, fold_left (λ n r, if is_dir r then
      let '(l, t) := dir_need (dir_count v (i_ino r)) in n + (l + t) else n) l n = n + dneeds l).
  { induction l as [|r l IH]; intros n; cbn [fold_left dneeds foldr]; [lia|]. rewrite IH. fold (dneeds l). unfold dneed.
    destruct (is_dir r); [|lia]. destruct (dir_need _). lia. }
  rewrite Hgen. lia.
Qed.

Definition all_blocks (T : list (Z * list Z * list Dent)) : list Z := concat (map entry_blocks T).

Lemma write_dirs_run g todo : ∀ dn T A W s,
  tables_typed v → v_inodes v = dn ++ todo → length T = length dn → at_run v A W s →
  zlen A + dneeds todo ≤ 73 → zlen A + dneeds todo ≤ zlen (free_blocks v) →
  ewp (write_dirs g (range (zlen dn) MAX_INODES) (roots_of T) (nm_of A)) s
    (λ res s', ∃ T' W', let N := all_blocks T' in
       res = (roots_of (T ++ T'), nm_of (A ++ N)) ∧ at_run v (A ++ N) (W ++ W') s' ∧ map fst W' = N ∧
       zlen N = dneeds todo ∧ Forall2 (dir_entry g (on_list W')) todo T')
    (λ _, stopped).
Proof.
  induction todo as [|r todo IH]; intros dn T A W s Ht Hin HT Hat H73 Hfr.
  { rewrite app_nil_r in Hin. subst dn. rewrite range_nil.
    2: { unfold zlen. rewrite (tt_inodes _ Ht). done. }
    apply ewp_ok. exists [], []. cbn. rewrite !app_nil_r. split_and!; [done|done|done|done|constructor]. }
  assert (Hlt : zlen dn < MAX_INODES).
  { pose proof (tt_inodes _ Ht) as Hl. rewrite Hin in Hl. change MAX_INODES with 64. zlia. }
  cbn [dneeds foldr] in H73, Hfr. fold (dneeds todo) in H73, Hfr.
  pose proof (dneed_nonneg r). pose proof (dneeds_nonneg todo).
  rewrite range_cons by done. cbn [write_dirs]. apply ewp_bind.
  replace (zlen dn) with (zlen T) by (unfold zlen; by rewrite HT).
  eapply ewp_mono; [apply write_dir_run with (r := r) (W := W)| |done].
  { done. } { done. } { rewrite Hin, HT. by apply list_lookup_middle. } { lia. } { lia. }
  intros res s' (t & W' & -> & Hat' & HN & Hlen & Hent).
  replace (zlen T + 1) with (zlen (dn ++ [r])) by (unfold zlen; rewrite length_app; cbn; lia).
  eapply ewp_mono; [apply (IH (dn ++ [r]) (T ++ [t]) (A ++ entry_blocks t) (W ++ W') s')| |done].
  { done. } { by rewrite <-app_assoc. } { rewrite !length_app. cbn. lia. } { done. } { zlia. } { zlia. }
  intros res s2 (T' & W2 & -> & Hat2 & HN2 & Hlen2 & Hall). exists (t :: T'), (W' ++ W2).
  cbn [all_blocks map concat] in *. fold (all_blocks T') in *. split_and!.
  - rewrite <-!app_assoc. done.
  - rewrite !app_assoc. exact Hat2.
  - by rewrite map_app, HN, HN2.
  - cbn [dneeds foldr]. fold (dneeds todo). zlia.
  - constructor; [eapply dir_entry_mono; [|exact Hent]; unfold on_list; set_solver|].
    eapply Forall2_impl; [exact Hall|]. intros r' t' He. eapply dir_entry_mono; [|exact He]. unfold on_list. set_solver.
Qed.
End run.
