(* ===== verification/VibefsInodeTree.v ===== *)
(** * vibefs: the inode tree and the whole new tree (src/crates/core/src/fs/vibefs/commit.rs)

    The second half of [write_tree]: directory roots into the inode records, the
    records into leaves; and what a commit has written when the tree is
    complete. *)

From stdpp Require Import base strings numbers gmap list sorting.
From S2P Require Import Prelude Bytes Crc Buf FsError Vibefs VibefsCommit VibefsLayout VibefsSort VibefsVol.
From S2P Require Import VibefsBlocks VibefsDisk VibefsTree.
Import VibefsCommit.

Local Open Scope Z_scope.

(** ** Directory roots *)
Definition with_root (r : Inode) (root : Z) : Inode := if is_dir r then with_dir_root r root else r.
Definition rooted (inodes : list Inode) (roots : list Z) : list Inode := zip_with with_root inodes roots.

Lemma set_dir_roots_ret v roots :
  length (v_inodes v) = 64%nat → length roots = 64%nat →
  set_dir_roots roots v = Ret (set_inodes v (rooted (v_inodes v) roots)).
Proof.
  intros Hi Hr. unfold set_dir_roots. change MAX_INODES with 64.
  assert (Hgen : ∀ todo rtodo dn rdn, length dn = length rdn → length todo = length rtodo → roots = rdn ++ rtodo →
    (length dn + length todo = 64)%nat →
    ofor (range (zlen dn) 64) (λ ii inodes, r <~ index inodes ii ;;
      if is_dir r then root <~ index roots ii ;; store inodes ii (with_dir_root r root) else Ret inodes) (dn ++ todo) =
    Ret (dn ++ rooted todo rtodo)).
  { induction todo as [|r todo IH]; intros [|root rtodo] dn rdn Hd Hl Hroots H64; try done.
    - rewrite range_nil by zlia. done.
    - rewrite range_cons by zlia. cbn [ofor]. rewrite index_mid by done. cbn [obind].
      assert (Hroot : index roots (zlen dn) = Ret root) by (rewrite Hroots; apply index_mid; zlia).
      assert (Hstep : (if is_dir r then root <~ index roots (zlen dn) ;; store (dn ++ r :: todo) (zlen dn) (with_dir_root r root)
                       else Ret (dn ++ r :: todo)) = Ret (dn ++ with_root r root :: todo)).
      { unfold with_root. destruct (is_dir r); [|done]. rewrite Hroot. cbn [obind]. by rewrite store_mid. }
      rewrite Hstep. cbn [obind]. replace (zlen dn + 1) with (zlen (dn ++ [with_root r root])) by zlia.
      replace (dn ++ with_root r root :: todo) with ((dn ++ [with_root r root]) ++ todo) by (by rewrite <-app_assoc).
      rewrite (IH rtodo (dn ++ [with_root r root]) (rdn ++ [root])); [|zlia|zlia|by rewrite Hroots, <-app_assoc|zlia].
      cbn [rooted zip_with]. by rewrite <-app_assoc. }
  pose proof (Hgen (v_inodes v) roots [] [] eq_refl ltac:(lia) eq_refl ltac:(cbn; lia)) as Hg.
  cbn [app] in Hg. change (zlen []) with 0 in Hg. by rewrite Hg.
Qed.

Lemma with_root_used r root : i_used (with_root r root) = i_used r ∧ i_ino (with_root r root) = i_ino r ∧
  i_kind (with_root r root) = i_kind r ∧ is_dir (with_root r root) = is_dir r.
Proof. unfold with_root. destruct (is_dir r) eqn:E; split_and!; done. Qed.

Lemma with_root_typed r root : inode_typed r → u32 root → inode_typed (with_root r root).
Proof. intros Ht Hr. unfold with_root. destruct (is_dir r); [|done]. destruct Ht. by split. Qed.
Lemma with_root_valid r root : inode_valid r → inode_valid (with_root r root).
Proof. unfold with_root. by destruct (is_dir r). Qed.

Lemma rooted_indices inodes roots i :
  length inodes = length roots → indices i_used (rooted inodes roots) i = indices i_used inodes i.
Proof.
  intros Hl. apply indices_ext. revert roots Hl. induction inodes as [|r inodes IH]; intros [|root roots] Hl; try done.
  constructor; [exact (proj1 (with_root_used r root))|]. apply IH. by injection Hl.
Qed.

(** The collected slots still pick the used records once the roots are in. *)
Lemma rooted_picked inodes roots idx rs :
  length inodes = length roots → idx ≡ₚ indices i_used inodes 0 → picked inodes idx rs → StronglySorted ino_le rs →
  ∃ rs', picked (rooted inodes roots) idx rs' ∧ rs' ≡ₚ filter (λ r, i_used r = true) (rooted inodes roots) ∧
    StronglySorted ino_le rs'.
Proof.
  intros Hl Hidx Hp Hs. assert (Hlen : zlen (rooted inodes roots) = zlen inodes) by (unfold zlen, rooted; rewrite length_zip_with; lia).
  destruct (picked_exists (rooted inodes roots) idx) as [rs' Hp'].
  { rewrite Hlen. eapply Forall2_Forall_l; [exact Hp|]. apply Forall_forall. intros r _ j [Hj Hr].
    apply lookup_lt_Some in Hr. zlia. }
  exists rs'. split_and!; [done| |].
  - rewrite <-(picked_omap _ _ _ Hp'), Hidx, <-(rooted_indices _ roots) by done.
    pose proof (indices_filter i_used (rooted inodes roots) []) as Hf. cbn [app] in Hf. change (zlen []) with 0 in Hf. by rewrite Hf.
  - assert (Hsame : Forall2 (λ r r', i_ino r' = i_ino r) rs rs').
    { clear -Hp Hp'. revert rs' Hp'. induction Hp as [|j r idx rs [Hj Hr] Hp IH]; intros rs' Hp'; inversion Hp' as [|? r' ? ? [_ Hr'] Hp'']; subst; [constructor|].
      constructor; [|by apply IH]. unfold rooted in Hr'. apply lookup_zip_with_Some in Hr' as (x & root & -> & Hx & _).
      rewrite Hr in Hx. injection Hx as <-. by destruct (with_root_used r root) as (_ & ? & _). }
    clear -Hs Hsame. induction Hsame as [|r r' rs rs' Hr Hsame IH]; [constructor|].
    apply StronglySorted_inv in Hs as [Hs Hall]. constructor; [by apply IH|].
    clear IH Hs. induction Hsame as [|x x' rs rs' Hx Hsame IH]; [constructor|].
    apply Forall_cons in Hall as [H1 Hall]. constructor; [unfold ino_le in *; by rewrite Hr, Hx|by apply IH].
Qed.

Lemma alloced_set_inodes v x A : alloced (set_inodes v x) A = set_inodes (alloced v A) x.
Proof. induction A as [|b A IH] using rev_ind; [done|]. by rewrite !alloced_snoc, IH. Qed.

Section run.
Context `{DiskLaws D}.
Context (v : Vol) (d0 : D).
Hypothesis Hmaps : maps_typed v.
Hypothesis Hnb : v_nblocks v ≤ MAX_BLOCKS.
Hypothesis Hdisk : v_nblocks v ≤ disk_nblocks d0.

Abbreviation at_run := (at_run v d0).
Abbreviation stopped := (stopped v d0).

Lemma inode_leaf_run v1 A W s idx rest rs L g k b :
  picked (v_inodes v1) idx rs → Forall inode_typed rs → 1 ≤ zlen rs < 2 ^ 32 →
  zlen L = div_ceil (zlen rs) INODE_PER_LEAF →
  at_run v1 A W s → L !! k = Some b → b ∈ A → b ∉ map fst W →
  ewp (write_inode_leaf (idx ++ rest) (L ++ replicate (8 - length L) 0) (zlen rs) g (Z.of_nat k)) s
    (λ _ s', ∃ x, inode_leaf_ok g x (chunk 15 k rs) ∧ at_run v1 A (W ++ [(b, x)]) s') (λ _, stopped).
Proof.
  intros Hp Ht Hrs HL Hat Hk HbA HbW. pose proof (run_inodes _ _ _ _ _ _ Hat) as Hin.
  assert (Hbuf : zlen (v_iobuf (fst s)) = BLOCK) by (destruct (ar_vol _ _ _ _ _ _ Hat) as (buf & -> & Hl); exact Hl).
  unfold write_inode_leaf. apply ewp_pbind, wp_gets, ewp_pbind, wp_lift.
  change INODE_PER_LEAF with 15 in *. set (start := Z.of_nat k * 15). set (end_ := Z.min (start + 15) (Z.max (zlen rs) 1)).
  assert (Hlt : start < zlen rs).
  { apply lookup_lt_Some in Hk. unfold start. unfold div_ceil in HL. unfold zlen in *. dlia. }
  assert (Hlen : zlen (chunk 15 k rs) = end_ - start).
  { unfold chunk, end_, start, zlen in *. rewrite length_take, length_drop. lia. }
  apply inode_leaf_spec with (rs := chunk 15 k rs); change INODE_PER_LEAF with 15; fold start; fold end_;
    [done|lia|unfold start; lia|done|lia|lia| | |].
  - unfold chunk. by apply Forall_take, Forall_drop.
  - rewrite Hin. exact (picked_selects (v_inodes v1) idx rest rs 15 k Hp).
  - intros x Hx. apply ewp_pbind. eapply setbuf_run; [exact Hat|exact (sl_len _ _ Hx)|].
    intros s1 Hat1 Hv1. apply ewp_pbind, wp_lift.
    rewrite (index_ret _ _ b); [|lia|rewrite Nat2Z.id; by apply lookup_app_l_Some]. cbn [owp].
    eapply write_run; [done|done|done|exact Hat1|done|done| |done]. intros s2 _ Hat2. exists x.
    replace (v_iobuf (fst s1)) with x in Hat2 by (by rewrite Hv1). split; [|done].
    split; [done|]. rewrite Hlen. change INODE_PER_LEAF with 15. lia.
Qed.

Lemma inode_int_run v1 A W s idx rest rs L root g ni :
  picked (v_inodes v1) idx rs → zlen L = div_ceil (zlen rs) INODE_PER_LEAF → zlen L ≤ 8 →
  at_run v1 A W s → root ∈ A → root ∉ map fst W →
  ewp (v <- getv ;;
       buf <- lift (inode_int_into v (idx ++ rest) (L ++ replicate (8 - length L) 0) ni (zlen L) g (v_iobuf v)) ;;
       setbuf buf ;;
       write_iobuf root) s
    (λ _ s', ∃ x, inode_int_ok g x L ∧ at_run v1 A (W ++ [(root, x)]) s') (λ _, stopped).
Proof.
  intros Hp HL H8 Hat HrA HrW. pose proof (run_inodes _ _ _ _ _ _ Hat) as Hin.
  assert (Hbuf : zlen (v_iobuf (fst s)) = BLOCK) by (destruct (ar_vol _ _ _ _ _ _ Hat) as (buf & -> & Hl); exact Hl).
  apply ewp_pbind, wp_gets, ewp_pbind, wp_lift.
  apply inode_int_spec with (kids := L); [done|done|done| |].
  - intros e kid Hkid. change INODE_PER_LEAF with 15 in *.
    assert (Hlt : (e * 15 < length rs)%nat).
    { apply lookup_lt_Some in Hkid. unfold div_ceil, zlen in HL. dlia. }
    destruct (lookup_lt_is_Some_2 rs (e * 15) Hlt) as [r Hr'].
    destruct (Forall2_lookup_r _ _ _ _ _ Hp Hr') as (j & Hj & Hj0 & Hr). exists j, r. rewrite Hin. split_and!.
    + apply index_ret; [lia|]. replace (Z.to_nat (Z.of_nat e * 15)) with (e * 15)%nat by lia. by apply lookup_app_l_Some.
    + by apply index_ret.
    + apply index_ret; [lia|]. rewrite Nat2Z.id. by apply lookup_app_l_Some.
  - intros x Hx. apply ewp_pbind. eapply setbuf_run; [exact Hat|exact (sl_len _ _ Hx)|].
    intros s1 Hat1 Hv1. eapply write_run; [done|done|done|exact Hat1|done|done| |done]. intros s2 _ Hat2. exists x.
    replace (v_iobuf (fst s1)) with x in Hat2 by (by rewrite Hv1). by split.
Qed.

(** The leaves, then the node above them, on blocks already allocated. *)
Lemma inode_tree_run {B} v1 A W s idx rest rs L root g (K : M (Vol * D) (B + Error)) (Q : B → Vol * D → Prop) :
  picked (v_inodes v1) idx rs → Forall inode_typed rs → 1 ≤ zlen rs ≤ 64 → at_run v1 A W s →
  let leaves := div_ceil (zlen rs) INODE_PER_LEAF in
  let ints := if 1 <? leaves then 1 else 0 in
  let N := tree_blocks L root in
  zlen L = leaves → (leaves = 1 → L = [root]) → NoDup N → (∀ b, b ∈ N → b ∈ A ∧ b ∉ map fst W) →
  (∀ W' s', at_run v1 A (W ++ W') s' → map fst W' = N → inode_tree g (on_list W') root L rs → ewp K s' Q (λ _, stopped)) →
  ewp (efor (range 0 leaves) (write_inode_leaf (idx ++ rest) (L ++ replicate (8 - length L) 0) (zlen rs) g) ?;;
       (if 0 <? ints then
          v <- getv ;;
          buf <- lift (inode_int_into v (idx ++ rest) (L ++ replicate (8 - length L) 0) (zlen rs) leaves g (v_iobuf v)) ;;
          setbuf buf ;;
          write_iobuf root
        else ok tt) ?;;
       K) s Q (λ _, stopped).
Proof.
  intros Hp Ht Hrs Hat leaves ints N HL Hone HN HNA HK.
  assert (Hlv : 1 ≤ leaves ≤ 5) by (unfold leaves, div_ceil; change INODE_PER_LEAF with 15; dlia).
  unfold N, tree_blocks in *. clear N. rewrite <-HL. apply ewp_bind.
  eapply ewp_mono; [apply efor_writes with (P := λ k x, inode_leaf_ok g x (chunk 15 k rs)); [exact Hat| | |]| |done].
  { by apply NoDup_app in HN as (? & _). }
  { intros b Hb. apply HNA. set_solver. }
  { intros k b W' s' Hk Hat' HbA HbW'. eapply inode_leaf_run; [done|done|lia|done|done|done|done|done]. }
  intros _ s2 (xs & Hxl & Hxs & Hat2).
  assert (Hfst : map fst (zip L xs) = L) by (apply fst_zip; lia).
  destruct (chunks_written (inode_leaf_ok g) [] L xs 15 rs Hxl Hxs) as (chunks & Hch & Hch2).
  { unfold leaves, div_ceil in HL. change INODE_PER_LEAF with 15 in HL. unfold zlen in *. dlia. }
  cbn [app] in Hch2. apply ewp_bind. unfold ints. rewrite <-HL.
  destruct (Z.ltb_spec 1 (zlen L)) as [H1|H1]; cbn [Z.ltb Z.compare].
  - assert (HrN : root ∈ L ++ [root]) by set_solver.
    assert (HrL : root ∉ L) by (apply NoDup_app in HN as (_ & Hdis & _); set_solver).
    eapply ewp_mono; [apply inode_int_run with (v1 := v1) (A := A) (W := W ++ zip L xs) (rs := rs)| |done].
    + done. + done. + lia. + exact Hat2. + by apply HNA.
    + rewrite map_app, Hfst. intros [Hr|Hr]%elem_of_app; [|done]. by apply (HNA root HrN).
    + intros _ s3 (x & Hx & Hat3). apply (HK (zip L xs ++ [(root, x)])).
      * by rewrite <-app_assoc in Hat3.
      * by rewrite map_app, Hfst.
      * exists chunks. split_and!; [done| |lia|lia|].
        -- eapply Forall2_impl; [exact Hch2|]. intros b c (y & Hy & Hc). exists y. split; [|done]. unfold on_list. set_solver.
        -- right. split; [lia|]. exists x. split; [unfold on_list; set_solver|done].
  - apply ewp_ok. rewrite app_nil_r in *. assert (L = [root]) as -> by (apply Hone; lia).
    apply (HK (zip [root] xs)); [done|done|]. exists chunks. split_and!; [done| |done|done|by left].
    eapply Forall2_impl; [exact Hch2|]. intros b c (y & Hy & Hc). by exists y.
Qed.
Lemma at_run_start : zlen (v_iobuf v) = BLOCK → at_run v [] [] (v, d0).
Proof.
  intros Hl. split; cbn [fst snd]; [by exists (v_iobuf v)|apply did_refl|done| |done|constructor].
  split; [constructor|by apply Forall_nil].
Qed.

(** The roots go into the table: from here on the run is over the new one. *)
Lemma at_run_retable A W s x :
  at_run v A W s → at_run (set_inodes v x) A W (set_inodes (fst s) x, snd s).
Proof.
  intros [(buf & Hv & Hl) ?????]. split; cbn [fst snd]; [|done..]. exists buf. split; [|done].
  by rewrite Hv, alloced_set_inodes.
Qed.

(** What is on disk when [write_tree] is done: the blocks [A], all but the
    allocation map's written, the directory trees [T] and the inode tree. *)
Definition tree_written (g : Z) (A : list Z) (W : wlist) (abno iroot : Z) (v1 : Vol)
    (ikids : list Z) (rs : list Inode) (T : list (Z * list Z * list Dent)) : Prop :=
  A = abno :: tree_blocks ikids iroot ++ all_blocks T ∧
  map fst W ≡ₚ tree_blocks ikids iroot ++ all_blocks T ∧
  v1 = set_inodes v (rooted (v_inodes v) (map root_of T)) ∧
  Forall2 (dir_entry v g (on_list W)) (v_inodes v) T ∧
  inode_tree g (on_list W) iroot ikids rs ∧
  rs ≡ₚ filter (λ r, i_used r = true) (v_inodes v1) ∧ StronglySorted ino_le rs.

Lemma entry_root_u32 (A : list Z) W r t g :
  fresh v A → entry_blocks t ⊆ A → dir_entry v g (on_list W) r t → u32 (root_of t).
Proof using Hnb.
  clear Hmaps Hdisk d0.
  intros [_ Hf] Hsub He. destruct t as [[root kids] ds]. unfold root_of. cbn [fst]. unfold dir_entry in He.
  assert (Hz : u32 0) by (by compute).
  destruct (is_dir r); [|by destruct He as (-> & _)]. destruct He as ([(_ & -> & _)|(Hne & Ht)] & _); [done|].
  assert (Hin : root ∈ tree_blocks kids root).
  { unfold tree_blocks. destruct Ht as (_ & _ & _ & _ & [->|[Hk _]]); [set_solver|]. rewrite (proj2 (Z.ltb_lt _ _)) by lia. set_solver. }
  assert (HA : root ∈ A) by (apply Hsub; unfold entry_blocks; by destruct ds).
  rewrite Forall_forall in Hf. destruct (Hf root HA) as [Hb _]. change MAX_BLOCKS with 1024 in Hnb. unfold in_width. lia.
Qed.

Lemma rooted_typed A W g l T :
  fresh v A → Forall2 (dir_entry v g (on_list W)) l T → all_blocks T ⊆ A → Forall inode_typed l →
  (∀ r, r ∈ l → i_used r = true → inode_valid r) →
  Forall inode_typed (rooted l (map root_of T)) ∧
  (∀ r, r ∈ rooted l (map root_of T) → i_used r = true → inode_valid r).
Proof using Hnb.
  clear Hmaps Hdisk d0.
  intros Hf H2. induction H2 as [|r t l T He H2 IH]; intros Hsub Hok Hval.
  { split; [by apply Forall_nil|]. intros r Hr. by apply elem_of_nil in Hr. }
  apply Forall_cons in Hok as [Hr Hok]. cbn [all_blocks map concat] in Hsub. fold (all_blocks T) in Hsub.
  destruct IH as [IH1 IH2]; [set_solver|done|intros r' Hr'; apply Hval; by right|].
  cbn [rooted map zip_with]. fold (rooted l (map root_of T)). split.
  - apply Forall_cons. split; [|done]. apply with_root_typed; [done|]. eapply entry_root_u32; [done| |done]. set_solver.
  - intros r' [->|Hr']%elem_of_cons Hu; [|by apply IH2]. apply with_root_valid, Hval; [left|].
    by destruct (with_root_used r (root_of t)) as (<- & _).
Qed.
Lemma collect_inodes_ext v' out : v_inodes v' = v_inodes v → collect_inodes v' out = collect_inodes v out.
Proof. intros Hi. unfold collect_inodes. by rewrite Hi. Qed.

Lemma alloc_meta_run A W s (Q : Z * NewMeta → Vol * D → Prop) X :
  at_run v A W s → zlen A < 73 → zlen A < zlen (free_blocks v) →
  (∀ b s', at_run v (A ++ [b]) W s' → Q (b, nm_of (A ++ [b])) s') →
  ewp (onvol (alloc_meta (nm_of A))) s Q X.
Proof.
  intros Hat H73 Hfr HQ. pose proof Hat as [(buf & Hv & Hl) _ _ Hf _ _].
  apply ewp_onvol. rewrite Hv. unfold alloc_meta. apply ewp_bind, alloc_more; [done|done|done|done|]. intros b Hfb.
  apply ewp_bind, ewp_ret. rewrite push_new_of by done. apply ewp_ok. apply HQ.
  by apply at_run_alloc with (s := s).
Qed.

Lemma write_tree_run g :
  tables_typed v → zlen (v_iobuf v) = BLOCK → 1 ≤ count_used_inodes v →
  let '(ileaves, iints) := inode_need (Z.max (count_used_inodes v) 1) in
  let need := 1 + ileaves + iints + dir_blocks v in
  need ≤ 73 → need ≤ zlen (free_blocks v) →
  ewp (write_tree g ileaves iints) (v, d0)
    (λ r s', ∃ A W abno iroot v1 ikids rs T, r = (abno, iroot, nm_of A) ∧ at_run v1 A W s' ∧
       tree_written g A W abno iroot v1 ikids rs T ∧ zlen A = need)
    (λ _, stopped).
Proof.
  intros Ht Hbuf Hused. rewrite Z.max_l by done. unfold inode_need. rewrite (proj2 (Z.eqb_neq _ _)) by lia.
  set (leaves := div_ceil (count_used_inodes v) INODE_PER_LEAF). set (ints := if 1 <? leaves then 1 else 0).
  assert (Hcnt : count_used_inodes v ≤ 64).
  { unfold count_used_inodes. pose proof (length_filter_zlen (λ r, i_used r = true) (v_inodes v)) as Hlf.
    unfold zlen in *. rewrite (tt_inodes _ Ht) in Hlf. lia. }
  assert (Hlv : 1 ≤ leaves ≤ 5) by (unfold leaves, div_ceil; change INODE_PER_LEAF with 15; dlia).
  assert (Hints : 0 ≤ ints ≤ 1) by (unfold ints; destruct (1 <? leaves); lia).
  rewrite dir_blocks_needs. pose proof (dneeds_nonneg v (v_inodes v)) as Hdn. intros H73 Hfr.
  unfold write_tree. apply ewp_bind.
  apply (alloc_meta_run [] []); [by apply at_run_start|change (zlen []) with 0; lia..|]. cbn [app].
  intros abno s1 Hat1. apply ewp_bind.
  apply (alloc_tree_run _ _ Hmaps Hnb Hdisk v [abno] []); [done|done|lia|fold ints; change (zlen [abno]) with 1; lia..|].
  intros L iroot s2 HL Hone Hat2. cbn [app] in Hat2. apply ewp_pbind, wp_gets, ewp_pbind, wp_lift.
  rewrite (collect_inodes_ext (fst s2)) by (by apply run_inodes in Hat2).
  destruct (collect_inodes_spec v Ht) as (res & rs & -> & idx & rest & -> & Hp & Hidx & Hperm & Hsort). cbn [owp].
  assert (Hrs : count_used_inodes v = zlen rs) by (unfold count_used_inodes, zlen; by rewrite Hperm).
  assert (HtbL : zlen (tree_blocks L iroot) = leaves + ints).
  { unfold tree_blocks, ints. rewrite HL. destruct (1 <? leaves); zlia. }
  apply ewp_bind.
  eapply ewp_mono; [apply (write_dirs_run _ _ Hmaps Hnb Hdisk g (v_inodes v) [] [] _ [] s2 Ht eq_refl eq_refl Hat2)| |done].
  { zlia. } { zlia. }
  intros res s3 (T & W & -> & Hat3 & HW & HlenT & Hall). cbn [app] in *.
  assert (HTlen : length T = 64%nat) by (rewrite <-(Forall2_length _ _ _ Hall); exact (tt_inodes _ Ht)).
  assert (Hroots : roots_of T = map root_of T) by (unfold roots_of; rewrite HTlen; apply app_nil_r).
  apply ewp_pbind, wp_gets, ewp_pbind, wp_lift.
  rewrite set_dir_roots_ret, (run_inodes _ _ _ _ _ _ Hat3), Hroots.
  2: { rewrite (run_inodes _ _ _ _ _ _ Hat3). exact (tt_inodes _ Ht). }
  2: { by rewrite Hroots, length_map. }
  cbn [owp]. apply ewp_pbind, wp_onvol, wp_put.
  set (x := rooted (v_inodes v) (map root_of T)). pose proof (at_run_retable _ _ _ x Hat3) as Hat4.
  destruct (rooted_picked (v_inodes v) (map root_of T) idx rs) as (rs' & Hp' & Hperm' & Hsort');
    [by rewrite length_map, HTlen, (tt_inodes _ Ht)|done|done|done|].
  pose proof (ar_fresh _ _ _ _ _ _ Hat3) as Hfresh.
  assert (Hrs' : zlen rs' = zlen rs) by (rewrite <-(picked_len _ _ _ Hp), <-(picked_len _ _ _ Hp'); done).
  assert (Htyped : Forall inode_typed x).
  { apply (rooted_typed _ W g _ _ Hfresh Hall); [set_solver|exact (tt_inodes_ok _ Ht)|exact (tt_inodes_valid _ Ht)]. }
  destruct (fresh_app_r v d0 Hmaps Hnb Hdisk [abno] (tree_blocks L iroot ++ all_blocks T) Hfresh) as (HND & HNA & _).
  apply NoDup_app in HND as (HNL & HNdis & HNT).
  rewrite (picked_len _ _ _ Hp), <-Hrs'. unfold ints, leaves. rewrite Hrs, <-Hrs'.
  eapply (inode_tree_run (set_inodes v x)); [exact Hp'| |lia|exact Hat4| | |done| |].
  - rewrite Forall_forall in Htyped |- *. intros r Hr. apply Htyped. rewrite Hperm' in Hr. by apply list_elem_of_filter in Hr as [_ Hr].
  - rewrite HL. unfold leaves. by rewrite Hrs, Hrs'.
  - rewrite Hrs', <-Hrs. exact Hone.
  - intros b Hb. split; [set_solver|]. rewrite HW. by apply HNdis.
  - intros W' s5 Hat5 HW' Hitree. apply ewp_ok.
    exists (abno :: tree_blocks L iroot ++ all_blocks T), (W ++ W'), abno, iroot, (set_inodes v x), L, rs', T.
    split_and!; [done|exact Hat5| |].
    + split_and!; [done|rewrite map_app, HW, HW'; by rewrite Permutation_app_comm|done| | |done|done].
      * eapply Forall2_impl; [exact Hall|]. intros r t He. eapply dir_entry_mono; [done..| |exact He]. unfold on_list. set_solver.
      * eapply tree_mono; [|exact Hitree]. unfold on_list. set_solver.
    + replace (div_ceil (zlen rs') INODE_PER_LEAF) with leaves by (unfold leaves; by rewrite Hrs, Hrs'). fold ints. zlia.
Qed.
End run.
