(* ===== verification/VibefsProtocol.v ===== *)
(** * vibefs: the commit protocol (src/crates/core/src/fs/vibefs/commit.rs)

    A whole commit on any disk, with any fault at any call: what it has asked of
    the disk when it stops, in which order, and the volume it leaves in memory. *)

From stdpp Require Import base strings numbers gmap list sorting.
From S2P Require Import Prelude Bytes Crc Buf FsError Vibefs VibefsCommit VibefsLayout VibefsSort VibefsVol.
From S2P Require Import VibefsBlocks VibefsDisk VibefsTree VibefsInodeTree.
Import VibefsCommit.

Local Open Scope Z_scope.

(** ** Room *)
Definition commit_need (v : Vol) : Z :=
  let '(ileaves, iints) := inode_need (Z.max (count_used_inodes v) 1) in 1 + ileaves + iints + dir_blocks v.
Definition room (v : Vol) : Prop :=
  v_generation v + 1 < 2 ^ 64 ∧ commit_need v ≤ MAX_META ∧ commit_need v ≤ zlen (free_blocks v).

(** ** The volume a commit leaves *)
Definition old_meta (v : Vol) : list Z := take (Z.to_nat (v_nmeta v)) (v_meta v).
Definition dropped (v : Vol) : list Z := take (Z.to_nat (v_ndrop v)) (v_drop v).

(** With the new generation and roots. *)
Definition next_vol (v1 : Vol) (g iroot abno : Z) : Vol := set_alloc_root (set_inode_root (set_generation v1 g) iroot) abno.

(** The maps with the commit's drops applied. *)
Definition dropped_maps (v : Vol) (A : list Z) : list Z * list Z :=
  drop_refs (v_nblocks v) (old_meta v ++ dropped v) (v_bitmap (alloced v A), v_refc (alloced v A)).

Lemma alloced_next v1 g iroot abno A : alloced (next_vol v1 g iroot abno) A = next_vol (alloced v1 A) g iroot abno.
Proof. induction A as [|b A IH] using rev_ind; [done|]. by rewrite !alloced_snoc, IH. Qed.

(** Everything a complete commit puts on the disk: the tree, then the allocation
    map [abuf], then the superblock [sbuf]. *)
Record new_image (v : Vol) (A : list Z) (W : wlist) (abuf sbuf : list Z) (iroot : Z) (v1 : Vol)
    (ikids : list Z) (rs : list Inode) (T : list (Z * list Z * list Dent)) (abno g : Z) : Prop := {
  ni_gen : g = v_generation v + 1;
  ni_gen64 : g < 2 ^ 64;
  ni_tree : tree_written v g A W abno iroot v1 ikids rs T;
  ni_fresh : fresh v A;
  ni_fit : zlen A ≤ 73;
  ni_alloc : sealed abuf (alloc_layout (v_nblocks v) g (dropped_maps v A));
  ni_slen : zlen sbuf = BLOCK;
  ni_super : carries sbuf (super_layout (next_vol v1 g iroot abno) (g mod 2));
  ni_crc : check_crc sbuf SB_CRC_OFF = Ret (inl tt);
}.

(** What a commit has asked of the disk when it stops. *)
Inductive stage (v : Vol) (evs : list event) : Prop :=
  | stage_tree : Forall (fresh_write v) evs → stage v evs
  | stage_flushed A W abuf sbuf iroot v1 ikids rs T abno g :
      new_image v A W abuf sbuf iroot v1 ikids rs T abno g →
      evs = writes (W ++ [(abno, abuf)]) ++ [EFlush] → stage v evs
  | stage_super A W abuf sbuf iroot v1 ikids rs T abno g ev :
      new_image v A W abuf sbuf iroot v1 ikids rs T abno g →
      ev = EWrite (g mod 2) sbuf ∨ ev = EMaybe (g mod 2) sbuf →
      evs = writes (W ++ [(abno, abuf)]) ++ [EFlush; ev] → stage v evs
  | stage_done A W abuf sbuf iroot v1 ikids rs T abno g :
      new_image v A W abuf sbuf iroot v1 ikids rs T abno g →
      evs = writes (W ++ [(abno, abuf)]) ++ [EFlush; EWrite (g mod 2) sbuf; EFlush] → stage v evs.

(** The volume after step 7. *)
Definition committed_vol (v1 : Vol) (A : list Z) (maps : list Z * list Z) (g iroot abno : Z) (sbuf : list Z) : Vol :=
  let v2 := set_iobuf (next_vol (alloced v1 A) g iroot abno) sbuf in
  let v3 := set_nmeta (set_txn (set_ndrop (set_refc (set_bitmap v2 maps.1) maps.2) 0)
    (replicate (Z.to_nat (div_ceil MAX_BLOCKS 8)) 0)) (zlen A) in
  set_dirty (set_meta v3 (A ++ drop (length A) (v_meta v1))) false.

(** ** Step 7 *)
Lemma mark_all new : ∀ v done,
  length (v_meta v) = 73%nat → v_nmeta v = zlen done → (∃ rest, v_meta v = done ++ rest) →
  zlen done + zlen new ≤ 73 →
  ewp (efor new mark_meta) v
    (λ _ v', v' = set_meta (set_nmeta v (zlen done + zlen new)) (done ++ new ++ drop (length done + length new) (v_meta v)))
    (λ _ _, False).
Proof.
  induction new as [|b new IH]; intros v dn Hl Hn (rest & Hm) H73.
  - apply ewp_ok. cbn [app length]. rewrite Nat.add_0_r, Hm, drop_app_length. change (zlen []) with 0.
    rewrite Z.add_0_r, <-Hn, <-Hm. done.
  - cbn [efor]. apply ewp_bind. unfold mark_meta. apply ewp_pbind, wp_get. change MAX_META with 73.
    rewrite (proj2 (Z.leb_gt 73 (v_nmeta v))) by zlia.
    destruct rest as [|x rest]; [rewrite Hm in Hl; zlia|].
    apply ewp_pbind, wp_lift. rewrite Hm, Hn, store_mid by done. cbn [owp].
    apply ewp_pbind, wp_lift. rewrite addc_ret by (unfold in_width; zlia). cbn [owp].
    apply ewp_pbind, wp_modify, ewp_ok.
    eapply ewp_mono; [apply (IH _ (dn ++ [b]))| |done].
    + cbn. rewrite Hm in Hl. zlia.
    + cbn. zlia.
    + cbn. exists rest. by rewrite <-app_assoc.
    + zlia.
    + intros _ v' ->. cbn [v_meta set_meta set_nmeta].
      assert (Hd : ∀ y : Z, drop (length (dn ++ [b]) + length new) (dn ++ y :: rest) = drop (length new) rest).
      { intros y. change (dn ++ y :: rest) with (dn ++ [y] ++ rest). rewrite app_assoc, <-drop_drop.
        replace (length (dn ++ [b])) with (length (dn ++ [y])) by (by rewrite !length_app). by rewrite drop_app_length. }
      replace (length dn + length (b :: new))%nat with (length (dn ++ [b]) + length new)%nat by zlia.
      rewrite !Hd. replace (zlen dn + zlen (b :: new)) with (zlen (dn ++ [b]) + zlen new) by zlia.
      by rewrite <-app_assoc.
Qed.

Lemma finish_commit_spec v A need :
  length (v_meta v) = 73%nat → need = zlen A → zlen A ≤ 73 → 0 ≤ v_ndrop v ≤ zlen (v_drop v) →
  ∀ old,
  let maps := drop_refs (v_nblocks v) (old ++ dropped v) (v_bitmap v, v_refc v) in
  ewp (finish_commit old (nm_of A) need) v
    (λ _ v', v' = set_dirty (set_meta (set_nmeta (set_txn (set_ndrop (set_refc (set_bitmap v maps.1) maps.2) 0)
       (replicate (Z.to_nat (div_ceil MAX_BLOCKS 8)) 0)) (zlen A)) (A ++ drop (length A) (v_meta v))) false)
    (λ _ _, False).
Proof.
  intros Hl Hneed H73 Hnd old maps. unfold finish_commit. apply ewp_pbind, wp_get, ewp_pbind, wp_lift.
  rewrite sub_take by done. cbn [owp]. fold (dropped v). fold maps. destruct maps as [bm rc] eqn:Hm. cbn [fst snd].
  apply ewp_pbind, wp_modify, ewp_pbind, wp_assert; [cbn [nm_of snd]; apply Z.eqb_eq; lia|].
  apply ewp_pbind, wp_lift. unfold nm_of. cbn [fst snd]. rewrite sub_take by zlia. cbn [owp].
  rewrite take_app_le, take_ge by zlia. apply ewp_bind.
  eapply ewp_mono; [apply (mark_all A _ [])| |done].
  - done. - done. - cbn. by exists (v_meta v). - zlia.
  - intros _ v' ->. apply ewp_pbind, wp_modify, ewp_ok. done.
Qed.

(** ** The protocol *)
Lemma at_run_next `{DiskLaws D} v d0 v1 A W s g iroot abno :
  at_run v d0 v1 A W s → at_run v d0 (next_vol v1 g iroot abno) A W (next_vol (fst s) g iroot abno, snd s).
Proof.
  intros [(buf & Hv & Hl) ?????]. split; cbn [fst snd]; [|done..]. exists buf. split; [|done].
  by rewrite Hv, alloced_next.
Qed.

Lemma super_layout_alloced v1 A g iroot abno buf slot :
  super_layout (set_iobuf (next_vol (alloced v1 A) g iroot abno) buf) slot = super_layout (next_vol v1 g iroot abno) slot.
Proof. destruct (alloced_shape v1 A) as (? & ? & ? & ->). done. Qed.

Lemma next_super_typed v x A g iroot abno buf :
  super_typed v → u64 g → u32 iroot → u32 abno →
  super_typed (set_iobuf (next_vol (alloced (set_inodes v x) A) g iroot abno) buf).
Proof. intros Hs Hg Hi Ha. destruct (alloced_shape (set_inodes v x) A) as (? & ? & ? & ->). destruct Hs. by split. Qed.

Lemma alloced_maps_eq v x A : v_bitmap (alloced (set_inodes v x) A) = v_bitmap (alloced v A) ∧
  v_refc (alloced (set_inodes v x) A) = v_refc (alloced v A).
Proof. by rewrite alloced_set_inodes. Qed.

Lemma root_in_blocks {R} (leaf_ok : list Z → list R → Prop) int_ok P root kids rs :
  tree leaf_ok int_ok P root kids rs → root ∈ tree_blocks kids root.
Proof.
  intros (_ & _ & _ & _ & [->|[Hk _]]); unfold tree_blocks; [set_solver|]. rewrite (proj2 (Z.ltb_lt _ _)) by lia. set_solver.
Qed.

Section protocol.
Context `{DiskLaws D}.
Context (v : Vol) (d0 : D).
Hypothesis Hok : vol_ok v.
Hypothesis Hdisk : v_nblocks v ≤ disk_nblocks d0.

Let Hmaps : maps_typed v := vk_maps v Hok.
Lemma nb_max : MIN_BLOCKS ≤ v_nblocks v ≤ MAX_BLOCKS.
Proof. exact (su_nblocks _ (vk_super _ Hok)). Qed.
Let Hnb : v_nblocks v ≤ MAX_BLOCKS := proj2 nb_max.

(** The commit stopped on a fault. *)
Definition faulted (s : Vol * D) : Prop := ∃ evs, did d0 evs (snd s) ∧ stage v evs ∧ ¬ good d0.

(** The end of a commit: from a complete tree on. *)
Lemma finish_run A W abuf iroot v1 ikids rs T abno g s :
  tree_written v g A W abno iroot v1 ikids rs T → g = v_generation v + 1 → g < 2 ^ 64 → zlen A ≤ 73 →
  at_run v d0 (next_vol v1 g iroot abno) A (W ++ [(abno, abuf)]) s →
  sealed abuf (alloc_layout (v_nblocks v) g (dropped_maps v A)) → iroot ∈ A → abno ∈ A →
  ewp (flush_disk ?;;
       onvol (super_into_iobuf (g mod 2)) ?;;
       write_iobuf (g mod 2) ?;;
       flush_disk ?;;
       onvol (finish_commit (old_meta v) (nm_of A) (zlen A))) s
    (λ _ s', ∃ sbuf, new_image v A W abuf sbuf iroot v1 ikids rs T abno g ∧
       did d0 (writes (W ++ [(abno, abuf)]) ++ [EFlush; EWrite (g mod 2) sbuf; EFlush]) (snd s') ∧
       fst s' = committed_vol v1 A (dropped_maps v A) g iroot abno sbuf ∧ (good d0 → good (snd s')))
    (λ _, faulted).
Proof.
  intros Htw Hg Hg64 H73 Hat Hab HiA HaA. pose proof Hat as [(buf & Hv & Hl) Hdid Hgood Hfresh Hsub Hnd].
  destruct Hfresh as [HndA HfA] eqn:Efr. clear Efr. pose proof nb_max as [Hmin Hmax].
  change MIN_BLOCKS with 16 in Hmin. change MAX_BLOCKS with 1024 in Hmax.
  assert (Hu32 : ∀ b, b ∈ A → u32 b).
  { intros b Hb. rewrite Forall_forall in HfA. destruct (HfA b Hb). unfold in_width. lia. }
  pose proof Htw as (_ & _ & Hv1 & _). set (W2 := W ++ [(abno, abuf)]) in *.
  assert (Htypes : ∀ buf, super_typed (set_iobuf (next_vol (alloced v1 A) g iroot abno) buf)).
  { intros buf'. rewrite Hv1. apply next_super_typed; [exact (vk_super _ Hok)| |auto|auto].
    pose proof (su_generation _ (vk_super _ Hok)). unfold in_width in *. lia. }
  apply ewp_bind, ewp_flush; cycle 1.
  { intros e d1 Hd1 Hb. exists (writes W2). split_and!; [|apply stage_tree; by apply fresh_writes with (A := A)|tauto].
    rewrite <-(app_nil_r (writes W2)). by eapply did_trans. }
  intros d1 Hd1 Hg1. pose proof (did_trans _ _ _ _ _ Hdid Hd1) as Hdid1. cbn [fst snd].
  apply ewp_bind, ewp_onvol. unfold super_into_iobuf. apply ewp_pbind, wp_get, ewp_pbind, wp_lift.
  rewrite alloced_next in Hv. cbn [fst snd] in *. rewrite Hv. cbn [v_iobuf set_iobuf].
  apply pack_super_spec; [done|apply Htypes|unfold in_width; pose proof (Z.mod_pos_bound g 2); lia|].
  intros sbuf Hsl Hsb Hsc Hsk. rewrite super_layout_alloced in Hsc.
  assert (Himg : new_image v A W abuf sbuf iroot v1 ikids rs T abno g) by (by split).
  apply ewp_pbind, wp_modify, ewp_ok. cbn [fst snd].
  apply ewp_bind, ewp_write; cbn [fst snd].
  { rewrite (did_nblocks _ _ _ Hdid1). pose proof (Z.mod_pos_bound g 2). lia. }
  { done. }
  2: { intros e d2 Hd2 Hb. exists (writes W2 ++ [EFlush; EMaybe (g mod 2) sbuf]).
    split_and!; [|eapply stage_super; [exact Himg|by right|done]|tauto].
    change [EFlush; EMaybe (g mod 2) sbuf] with ([EFlush] ++ [EMaybe (g mod 2) sbuf]). rewrite app_assoc. by eapply did_trans. }
  intros d2 Hd2 Hg2. pose proof (did_trans _ _ _ _ _ Hdid1 Hd2) as Hdid2. cbn [v_iobuf set_iobuf] in Hdid2.
  rewrite <-app_assoc in Hdid2. cbn [app] in Hdid2.
  apply ewp_bind, ewp_flush; cbn [fst snd]; cycle 1.
  { intros e d3 Hd3 Hb. exists (writes W2 ++ [EFlush; EWrite (g mod 2) sbuf]).
    split_and!; [|eapply stage_super; [exact Himg|by left|done]|tauto].
    rewrite <-(app_nil_r (writes W2 ++ _)). by eapply did_trans. }
  intros d3 Hd3 Hg3. pose proof (did_trans _ _ _ _ _ Hdid2 Hd3) as Hdid3. rewrite <-app_assoc in Hdid3. cbn [app] in Hdid3.
  pose proof (vk_lists _ Hok) as [].
  assert (Hsh : v_meta v1 = v_meta v ∧ v_drop v1 = v_drop v ∧ v_ndrop v1 = v_ndrop v) by (by rewrite Hv1).
  destruct Hsh as (Hme & Hdr & Hnd').
  destruct (alloced_maps_eq v (rooted (v_inodes v) (map root_of T)) A) as [Hbm Hrc]. rewrite <-Hv1 in Hbm, Hrc.
  apply ewp_onvol. cbn [fst snd].
  eapply ewp_mono; [apply finish_commit_spec| |done].
  - cbn. destruct (alloced_shape v1 A) as (? & ? & ? & ->). cbn. by rewrite Hme.
  - done.
  - done.
  - cbn. destruct (alloced_shape v1 A) as (? & ? & ? & ->). cbn. rewrite Hdr, Hnd'. change MAX_DROP with 96 in *. zlia.
  - intros _ v' ->. exists sbuf. split_and!; [done|done| |tauto].
    cbn [fst snd]. unfold committed_vol, dropped_maps, dropped. cbn. rewrite Hbm, Hrc.
    destruct (alloced_shape v1 A) as (? & ? & ? & E). rewrite E. cbn. rewrite Hme, Hdr, Hnd', Hv1. done.
Qed.
Lemma alloc_iobuf_spec v2 old (Q : unit → Vol → Prop) X :
  zlen (v_iobuf v2) = BLOCK → MIN_BLOCKS ≤ v_nblocks v2 ≤ MAX_BLOCKS →
  length (v_bitmap v2) = 128%nat → length (v_refc v2) = 1024%nat → bytes_ok (v_bitmap v2) → bytes_ok (v_refc v2) →
  0 ≤ v_ndrop v2 ≤ zlen (v_drop v2) →
  (∀ abuf, sealed abuf (alloc_layout (v_nblocks v2) (v_generation v2)
     (drop_refs (v_nblocks v2) (old ++ dropped v2) (v_bitmap v2, v_refc v2))) → Q tt (set_iobuf v2 abuf)) →
  ewp (alloc_into_iobuf old) v2 Q X.
Proof.
  intros Hl Hn Hb Hr Hb' Hr' Hd HQ. unfold alloc_into_iobuf. apply ewp_pbind, wp_get, ewp_pbind, wp_lift.
  unfold write_alloc_into. rewrite sub_take by done. cbn [obind]. fold (dropped v2).
  apply alloc_into_spec; [done..|]. intros abuf Hab. apply ewp_pbind, wp_modify, ewp_ok. by apply HQ.
Qed.

(** The whole commit. *)
Lemma commit_run :
  1 ≤ count_used_inodes v →
  ewp commit (v, d0)
    (λ _ s', ∃ A W abuf sbuf iroot v1 ikids rs T abno g, new_image v A W abuf sbuf iroot v1 ikids rs T abno g ∧
       did d0 (writes (W ++ [(abno, abuf)]) ++ [EFlush; EWrite (g mod 2) sbuf; EFlush]) (snd s') ∧
       fst s' = committed_vol v1 A (dropped_maps v A) g iroot abno sbuf ∧ (good d0 → good (snd s')) ∧ room v)
    (λ _ s', s' = (v, d0) ∧ ¬ room v ∨ faulted s').
Proof.
  intros Hused. pose proof nb_max as [Hmin Hmax]. pose proof (vk_lists _ Hok) as Hlists.
  unfold commit. apply ewp_pbind, wp_gets. cbn [fst].
  apply ewp_bind, ewp_ret. unfold checked_add. destruct (Z.ltb_spec (v_generation v + 1) (2 ^ 64)) as [Hg|Hg]; cbn [ok_or].
  2: { left. split; [done|]. unfold room. lia. }
  pose proof (write_tree_run v d0 Hmaps Hnb Hdisk (v_generation v + 1) (vk_tables _ Hok) (lt_iobuf _ Hlists) Hused) as Htree.
  unfold room, commit_need. destruct (inode_need (Z.max (count_used_inodes v) 1)) as [ileaves iints].
  set (need := 1 + ileaves + iints + dir_blocks v) in *. change MAX_META with 73.
  apply ewp_bind, ewp_bail; intros Hn. { apply Z.ltb_lt in Hn. left. split; [done|lia]. } apply Z.ltb_ge in Hn.
  apply ewp_pbind, wp_lift. rewrite free_count_ret by done. cbn [owp].
  apply ewp_bind, ewp_bail; intros Hf. { apply Z.ltb_lt in Hf. left. split; [done|lia]. } apply Z.ltb_ge in Hf.
  apply ewp_pbind, wp_lift. pose proof (lt_nmeta _ Hlists) as Hnm. pose proof (lt_meta _ Hlists) as Hml. change MAX_META with 73 in Hnm.
  rewrite sub_take by zlia. cbn [owp]. fold (old_meta v).
  apply ewp_bind. eapply ewp_mono; [apply Htree; lia| |].
  2: { intros e s' (evs & Hd & Hfw & Hng). right. exists evs. split_and!; [done|by apply stage_tree|done]. }
  intros r s1 (A & W & abno & iroot & v1 & ikids & rs & T & -> & Hat & Htw & HlenA).
  pose proof Htw as (HA & HW & Hv1 & _ & Hit & _). pose proof (root_in_blocks _ _ _ _ _ _ Hit) as Hroot.
  pose proof (ar_fresh _ _ _ _ _ _ Hat) as [HndA _].
  apply ewp_pbind, wp_onvol, wp_modify. pose proof (at_run_next v d0 v1 A W s1 (v_generation v + 1) iroot abno Hat) as Hat2.
  pose proof Hat2 as [(buf & Hvol & Hlb) Hdid Hgood Hfresh Hsub Hnd]. cbn [fst snd] in Hvol.
  destruct (alloced_maps_eq v (rooted (v_inodes v) (map root_of T)) A) as [Hbm Hrc]. rewrite <-Hv1 in Hbm, Hrc.
  pose proof (alloced_maps v A Hmaps) as Hma.
  assert (Hfields : v_nblocks (alloced v1 A) = v_nblocks v ∧ v_drop (alloced v1 A) = v_drop v ∧ v_ndrop (alloced v1 A) = v_ndrop v).
  { rewrite Hv1. destruct (alloced_shape (set_inodes v (rooted (v_inodes v) (map root_of T))) A) as (? & ? & ? & ->). done. }
  destruct Hfields as (Fn & Fd & Fnd).
  apply ewp_bind, ewp_onvol. cbn [fst snd].
  change (set_alloc_root (set_inode_root (set_generation (fst s1) (v_generation v + 1)) iroot) abno)
    with (next_vol (fst s1) (v_generation v + 1) iroot abno). rewrite Hvol, alloced_next.
  pose proof (lt_ndrop _ Hlists) as Hndr. pose proof (lt_drop _ Hlists) as Hdl. change MAX_DROP with 96 in Hndr.
  apply alloc_iobuf_spec; cbn [v_iobuf set_iobuf v_nblocks v_bitmap v_refc v_ndrop v_drop v_generation next_vol
    set_alloc_root set_inode_root set_generation]; rewrite ?Fn, ?Fd, ?Fnd, ?Hbm, ?Hrc;
    [done|exact nb_max|by destruct Hma..|zlia|].
  unfold dropped. cbn [v_iobuf set_iobuf v_nblocks v_bitmap v_refc v_ndrop v_drop v_generation next_vol
    set_alloc_root set_inode_root set_generation]. rewrite Fd, Fnd. fold (dropped v). fold (dropped_maps v A).
  intros abuf Hab.
  set (s2 := (set_iobuf (set_iobuf (next_vol (alloced v1 A) (v_generation v + 1) iroot abno) buf) abuf, snd s1)).
  assert (Hat3 : at_run v d0 (next_vol v1 (v_generation v + 1) iroot abno) A W s2).
  { split; cbn [fst snd s2]; [|done..]. exists abuf. split; [by rewrite alloced_next|exact (sl_len _ _ Hab)]. }
  apply ewp_bind. eapply (write_run v d0 Hmaps Hnb Hdisk); [exact Hat3| | | |].
  - rewrite HA. left.
  - rewrite HW. rewrite HA in HndA. by apply NoDup_cons in HndA as [? _].
  - intros s3 _ Hat4. change (v_iobuf (fst s2)) with abuf in Hat4.
    replace (finish_commit (old_meta v) (nm_of A) need) with (finish_commit (old_meta v) (nm_of A) (zlen A)) by (by rewrite HlenA).
    eapply ewp_mono; [eapply finish_run; [exact Htw|done|lia|lia|exact Hat4|exact Hab| |]| |].
    + rewrite HA. right. apply elem_of_app. by left.
    + rewrite HA. left.
    + intros _ s4 (sbuf & Hni & Hd4 & Hv4 & Hg4). exists A, W, abuf, sbuf, iroot, v1, ikids, rs, T, abno, (v_generation v + 1).
      split_and!; [done|done|done|done|lia|lia|lia].
    + intros e s4 Hfl. by right.
  - intros e s3 (evs & Hd & Hfw & Hng). right. exists evs. split_and!; [done|by apply stage_tree|done].
Qed.
End protocol.
