(* ===== verification/VibefsFiles.v ===== *)
(** * vibefs: names, files and references

    What the tables of a volume have to agree on: a name space over unique inode
    numbers, and for every block at least as many references as the tables, the
    metadata list and the drop list hold to it. *)

From stdpp Require Import base strings numbers gmap list sorting.
From S2P Require Import Prelude Bytes Crc Buf FsError Vibefs VibefsCommit VibefsOps VibefsLayout VibefsSort VibefsVol.
From S2P Require Import VibefsBlocks VibefsDisk VibefsTree VibefsInodeTree VibefsProtocol.
Import VibefsOps.

Local Open Scope Z_scope.

Abbreviation used_inodes v := (filter (λ r, i_used r = true) (v_inodes v)).
Abbreviation used_dents v := (filter (λ de, d_used de = true) (v_dents v)).

(** A record without the root of its directory tree, which every commit moves. *)
Definition unrooted (r : Inode) : Inode := with_dir_root r 0.

Lemma with_root_same r root : i_used (with_root r root) = i_used r ∧ i_ino (with_root r root) = i_ino r ∧
  is_dir (with_root r root) = is_dir r ∧ (is_dir r = true → i_dir_root (with_root r root) = root).
Proof. unfold with_root. destruct (is_dir r) eqn:E; [|done]. split_and!; done. Qed.

Lemma is_dir_used r : is_dir r = true → i_used r = true.
Proof. unfold is_dir. by intros [? _]%andb_true_iff. Qed.

Lemma rooted_unrooted inodes roots : length inodes = length roots →
  map unrooted (filter (λ r, i_used r = true) (rooted inodes roots)) = map unrooted (filter (λ r, i_used r = true) inodes).
Proof.
  revert roots. induction inodes as [|r l IH]; intros [|root roots] Hl; [done..|]. injection Hl as Hl.
  unfold rooted. cbn [zip_with]. fold (rooted l roots). destruct (with_root_same r root) as (Hu & _).
  rewrite !filter_cons. destruct (i_used r) eqn:E.
  - rewrite !decide_True by (done || exact Hu). cbn [map]. f_equal; [|by apply IH]. unfold with_root. by destruct (is_dir r).
  - rewrite !decide_False by congruence. by apply IH.
Qed.

(** ** Data blocks *)
Definition ext_blocks (e : Extent) : list Z := range (e_phys e) (e_phys e + e_len e).
Definition data_blocks (r : Inode) : list Z := concat (map ext_blocks (extents_of r)).
Definition all_data (rs : list Inode) : list Z := concat (map data_blocks rs).

Lemma concat_perm {A} (l l' : list (list A)) : l ≡ₚ l' → concat l ≡ₚ concat l'.
Proof. intros Hp. induction Hp; cbn; [done|by f_equiv|rewrite !app_assoc; f_equiv; apply Permutation_app_comm|by etrans]. Qed.

(** What the name space and the references depend on. *)
Definition core (r : Inode) : Z * bool * list Extent := (i_ino r, is_dir r, extents_of r).

Lemma core_unrooted rs : map core (map unrooted rs) = map core rs.
Proof. by rewrite map_map. Qed.
Lemma unrooted_core rs rs' : map unrooted rs ≡ₚ map unrooted rs' → map core rs ≡ₚ map core rs'.
Proof. intros Hp. by rewrite <-(core_unrooted rs), <-(core_unrooted rs'), Hp. Qed.

Lemma all_data_core rs rs' : map core rs ≡ₚ map core rs' → all_data rs ≡ₚ all_data rs'.
Proof.
  intros Hp. assert (E : ∀ rs, all_data rs = concat (map (λ c : Z * bool * list Extent, concat (map ext_blocks c.2)) (map core rs))).
  { intros l. unfold all_data. by rewrite map_map. }
  rewrite !E. apply concat_perm. by rewrite Hp.
Qed.
Lemma all_data_perm rs rs' : map unrooted rs ≡ₚ map unrooted rs' → all_data rs ≡ₚ all_data rs'.
Proof. intros Hp. by apply all_data_core, unrooted_core. Qed.

(** ** The name space *)
Record files_ok (rs : list Inode) (ds : list Dent) (root next : Z) : Prop := {
  fo_inos : NoDup (map i_ino rs);
  fo_next : ∀ r, r ∈ rs → 0 < i_ino r < next;
  fo_root : ∃ r, r ∈ rs ∧ is_dir r = true ∧ i_ino r = root;
  fo_parents : ∀ de, de ∈ ds → ∃ r, r ∈ rs ∧ is_dir r = true ∧ i_ino r = d_parent de;
  fo_targets : ∀ de, de ∈ ds → d_ino de ≠ root ∧ ∃ r, r ∈ rs ∧ i_ino r = d_ino de;
  fo_links : NoDup (map d_ino ds);
  fo_names : NoDup (map (λ de, (d_parent de, name_of de)) ds);
  fo_exts : ∀ r, r ∈ rs → Forall (λ e, e_log e + e_len e ≤ 2 ^ 32) (extents_of r);
}.

Lemma files_ok_core rs rs' ds ds' root next :
  map core rs' ≡ₚ map core rs → ds' ≡ₚ ds → files_ok rs ds root next → files_ok rs' ds' root next.
Proof.
  intros Hr Hd [Fi Fn Fr Fp Ft Fl Fm Fe].
  assert (Hel : ∀ rs rs', map core rs' ≡ₚ map core rs → ∀ r, r ∈ rs → ∃ r', r' ∈ rs' ∧ i_ino r' = i_ino r ∧ is_dir r' = is_dir r ∧ extents_of r' = extents_of r).
  { clear. intros rs rs' Hr r Hin. assert (Hu : core r ∈ map core rs') by (rewrite Hr; apply list_elem_of_fmap; by exists r).
    apply list_elem_of_fmap in Hu as (r' & E & Hin'). unfold core in E. injection E as E1 E2 E3. by exists r'. }
  split.
  - replace (map i_ino rs') with (map (λ c : Z * bool * list Extent, c.1.1) (map core rs')) by (by rewrite map_map). rewrite Hr, map_map. done.
  - intros r Hin. destruct (Hel _ _ (symmetry Hr) r Hin) as (r' & Hin' & <- & _). by apply Fn.
  - destruct Fr as (r & Hin & D & I). destruct (Hel _ _ Hr r Hin) as (r' & Hin' & E1 & E2 & _). exists r'. split_and!; [done|by rewrite E2|by rewrite E1].
  - intros de Hde. rewrite Hd in Hde. destruct (Fp de Hde) as (r & Hin & D & I). destruct (Hel _ _ Hr r Hin) as (r' & Hin' & E1 & E2 & _).
    exists r'. split_and!; [done|by rewrite E2|by rewrite E1].
  - intros de Hde. rewrite Hd in Hde. destruct (Ft de Hde) as (Hne & r & Hin & I). destruct (Hel _ _ Hr r Hin) as (r' & Hin' & E1 & _).
    split; [done|]. exists r'. split; [done|by rewrite E1].
  - by rewrite Hd.
  - by rewrite Hd.
  - intros r Hin. destruct (Hel _ _ (symmetry Hr) r Hin) as (r' & Hin' & _ & _ & E). rewrite <-E. by apply Fe.
Qed.
Lemma files_ok_perm rs rs' ds ds' root next :
  map unrooted rs' ≡ₚ map unrooted rs → ds' ≡ₚ ds → files_ok rs ds root next → files_ok rs' ds' root next.
Proof. intros Hr. by apply files_ok_core, unrooted_core. Qed.

Definition names_ok (v : Vol) : Prop := files_ok (used_inodes v) (used_dents v) (v_root_ino v) (v_next_ino v).

(** ** References *)
Definition occ (b : Z) (l : list Z) : Z := zlen (filter (λ x, x = b) l).
Lemma occ_nil b : occ b [] = 0.
Proof. done. Qed.
Lemma occ_app b l l' : occ b (l ++ l') = occ b l + occ b l'.
Proof. unfold occ. rewrite filter_app. zlia. Qed.
Lemma occ_cons b x l : occ b (x :: l) = (if decide (x = b) then 1 else 0) + occ b l.
Proof. unfold occ. rewrite filter_cons. case_decide; zlia. Qed.
Lemma occ_perm b l l' : l ≡ₚ l' → occ b l = occ b l'.
Proof. intros Hp. unfold occ, zlen. by rewrite Hp. Qed.
Lemma occ_nonneg b l : 0 ≤ occ b l.
Proof. apply zlen_nonneg. Qed.
Lemma occ_elem b l : b ∈ l ↔ 0 < occ b l.
Proof.
  unfold occ. split.
  - intros Hb. assert (Hf : b ∈ filter (λ x, x = b) l) by (by apply list_elem_of_filter).
    destruct (filter _ l); [by apply elem_of_nil in Hf|zlia].
  - destruct (filter (λ x, x = b) l) as [|x l'] eqn:E; [unfold zlen; cbn; lia|]. intros _.
    assert (Hx : x ∈ filter (λ x, x = b) l) by (rewrite E; left). apply list_elem_of_filter in Hx as [-> ?]. done.
Qed.
Lemma occ_nodup b l : NoDup l → occ b l ≤ 1.
Proof.
  induction l as [|x l IH]; intros Hn; [done|]. apply NoDup_cons in Hn as [Hx Hn]. rewrite occ_cons. case_decide as E; [|specialize (IH Hn); lia].
  subst. assert (¬ 0 < occ b l) by (by rewrite <-occ_elem). specialize (IH Hn). lia.
Qed.

(** Whether [b] was allocated since the last commit. *)
Definition txn_of (v : Vol) (b : Z) : bool := Z.testbit (default 0 (v_txn v !! Z.to_nat (b / 8))) (b mod 8).

(** The references to [b] that neither the metadata nor the drop list accounts for. *)
Definition slack (v : Vol) (b : Z) : Z := refc_of v b - occ b (old_meta v) - occ b (dropped v).

(** The volume holds a reference for every occurrence in [l]. *)
Record credit (v : Vol) (l : list Z) : Prop := {
  cr_slack : ∀ b, occ b l ≤ slack v b;
  cr_range : Forall (λ b, 2 ≤ b < v_nblocks v) (old_meta v ++ dropped v ++ l);
  cr_txn : ∀ b, 0 ≤ b → txn_of v b = true → refc_of v b ≤ 1;
}.
Definition refs_ok (v : Vol) : Prop := credit v (all_data (used_inodes v)).

Lemma credit_perm v l l' : l ≡ₚ l' → credit v l → credit v l'.
Proof. intros Hp [Hs Hr Ht]. split; [intros b; by rewrite <-(occ_perm b l l')|by rewrite <-Hp|done]. Qed.

Lemma credit_held v l b : credit v l → b ∈ old_meta v ++ dropped v ++ l → 0 < refc_of v b.
Proof.
  intros [Hs _ _] Hb%occ_elem. rewrite !occ_app in Hb. specialize (Hs b). unfold slack in Hs. lia.
Qed.
