(* ===== verification/VibefsMount.v ===== *)
(** * vibefs: mounting (src/crates/core/src/fs/vibefs/commit.rs, layout.rs)

    Which superblock mount picks, and that it loads back the tables a tree on disk
    holds. *)

From stdpp Require Import base strings numbers gmap list sorting.
From S2P Require Import Prelude Bytes Crc Buf FsError Vibefs VibefsCommit VibefsLayout VibefsSort VibefsVol.
From S2P Require Import VibefsBlocks VibefsDisk VibefsTree VibefsInodeTree VibefsProtocol VibefsFiles.
Import VibefsCommit.

Local Open Scope Z_scope.

(** ** Picking a superblock *)
Lemma sub_total b o n : 0 ≤ o → 0 ≤ n → o + n ≤ zlen b → ∃ s, sub b o n = Ret s.
Proof. intros. unfold sub. rewrite slice_in by done. by eexists. Qed.
Lemma index_total {A} (b : list A) o : 0 ≤ o < zlen b → ∃ x, index b o = Ret x.
Proof.
  intros Ho. destruct (lookup_lt_is_Some_2 b (Z.to_nat o)) as [x Hx]; [zlia|]. exists x. apply index_ret; [lia|done].
Qed.
Lemma load_total n b o : 0 ≤ o → o + Z.of_nat n ≤ zlen b → ∃ x, load n b o = Ret x.
Proof. intros. destruct (load_ret n b o) as (x & ? & _); [done..|]. by exists x. Qed.

(** One read of a whole block, which cannot panic. *)
Ltac total_read :=
  match goal with
  | |- context [load ?n ?b ?o] => destruct (load_total n b o) as [? ->]; [lia|lia|]
  | |- context [index ?b ?o] => destruct (index_total b o) as [? ->]; [lia|]
  | |- context [sub ?b ?o ?n] => destruct (sub_total b o n) as [? ->]; [lia|lia|lia|]
  end; cbn [obind oebind].

Lemma check_crc_total b off : 0 ≤ off → off + 4 ≤ zlen b → ∃ r, check_crc b off = Ret r.
Proof. intros. unfold check_crc, le32. total_read. by eexists. Qed.

Lemma parse_super_total b slot : zlen b = BLOCK → ∃ p, parse_super b slot = Ret p.
Proof.
  intros Hl. unfold BLOCK in Hl. unfold parse_super, le32, le16, le64. change SB_CRC_OFF with 4092.
  destruct (check_crc_total b 4092) as [c ->]; [lia..|]. repeat total_read.
  change (range 0 MAX_SNAPS) with [0; 1; 2; 3]. change (Z.to_nat MAX_SNAPS) with 4%nat. cbn [ofor replicate].
  unfold parse_snap, le64, le32. repeat (total_read || (rewrite store_ret by zlia; cbn [obind insert list_insert Z.to_nat Pos.to_nat])).
  destruct c as [[]|]; cbn [oebind]; repeat case_match; by eexists.
Qed.

Definition pick (p0 p1 : SuperInfo + Error) : SuperInfo + Error :=
  match p0, p1 with
  | inl s0, inl s1 => inl (if sb_generation s0 <? sb_generation s1 then s1 else s0)
  | inl s0, inr _ => inl s0
  | inr _, inl s1 => inl s1
  | inr _, inr _ => inr Corrupt
  end.

Lemma pick_super_spec `{DiskLaws D} (d : D) buf p0 p1 :
  good d → 2 ≤ disk_nblocks d → parse_super (content d 0) 0 = Ret p0 → parse_super (content d 1) 1 = Ret p1 →
  pick_super buf d = Ret (pick p0 p1, content d 1, d).
Proof.
  intros Hg Hn Hp0 Hp1. unfold pick_super. change (range 0 2) with [0; 1]. cbn [pick_slots].
  rewrite (good_read 0 buf d) by (done || lia). rewrite Hp0. cbn [obind].
  rewrite (good_read 1 _ d) by (done || lia). rewrite Hp1. cbn [obind].
  destruct p0 as [s0|e0], p1 as [s1|e1]; cbn [take_super]; [|done..].
  change (1 =? 0) with false. rewrite andb_false_r, orb_false_r. cbn [pick]. by destruct (sb_generation s0 <? sb_generation s1).
Qed.

(** ** A volume while it is being mounted

    Tables filled from the front: [U] and [Ds] loaded so far, [Mt] the metadata
    blocks seen. *)
Definition padded {A} (n : nat) (x : A) (l : list A) : list A := l ++ replicate (n - length l) x.

Lemma store_padded {A} n (x y : A) l : (length l < n)%nat → store (padded n x l) (zlen l) y = Ret (padded n x (l ++ [y])).
Proof.
  intros Hl. unfold padded. replace (n - length l)%nat with (S (n - length (l ++ [y]))) by zlia. cbn [replicate].
  rewrite store_mid by done. by rewrite <-app_assoc.
Qed.

Lemma position_padded {A} (p : A → bool) n x l : ∀ i,
  (length l < n)%nat → Forall (λ y, p y = false) l → p x = true → position_from p (padded n x l) i = Some (i + zlen l).
Proof.
  unfold padded. revert n. induction l as [|y l IH]; intros n i Hn Hl Hx; cbn [app length].
  - destruct n; [cbn in Hn; lia|]. cbn. rewrite Hx. f_equal. zlia.
  - apply Forall_cons in Hl as [Hy Hl]. cbn [position_from]. rewrite Hy. cbn [length] in Hn.
    replace (n - S (length l))%nat with ((n - 1) - length l)%nat by lia. rewrite IH by (done || lia). f_equal. zlia.
Qed.

Lemma holds_drop b o o' bs : 0 ≤ o → 0 ≤ o' → holds b (o + o') bs → holds (drop (Z.to_nat o) b) o' bs.
Proof.
  intros Ho Ho' Hh. pose proof (holds_fits _ _ _ Hh) as [_ Hl]. unfold holds in *.
  rewrite slice_in in Hh by zlia. rewrite slice_in by zlia. rewrite drop_drop.
  by replace (Z.to_nat o + Z.to_nat o')%nat with (Z.to_nat (o + o')) by lia.
Qed.
Lemma carries_drop b o ly :
  0 ≤ o → Forall (λ p : Z * list Z, 0 ≤ p.1) ly → carries b (shift o ly) → carries (drop (Z.to_nat o) b) ly.
Proof.
  intros Ho Hp Hc. unfold carries, shift in *. rewrite Forall_map in Hc. rewrite Forall_forall in *.
  intros p Hin. apply holds_drop; [done|by apply Hp|by apply (Hc p)].
Qed.

Section loading.
Context (sb : SuperInfo) (bm rc : list Z).

Definition mvol (U : list Inode) (Ds : list Dent) (Mt io : list Z) : Vol :=
  let v := set_refc (set_bitmap (from_super sb Vol_new) bm) rc in
  set_iobuf (set_nmeta (set_meta (set_dents (set_inodes v (padded 64 Inode_EMPTY U)) (padded 96 Dent_EMPTY Ds))
    (padded 73 0 Mt)) (zlen Mt)) io.

Lemma mark_meta_mvol U Ds Mt io b (Q : unit → Vol → Prop) X :
  zlen Mt < 73 → Q tt (mvol U Ds (Mt ++ [b]) io) → ewp (mark_meta b) (mvol U Ds Mt io) Q X.
Proof.
  intros Hl HQ. unfold mark_meta. apply ewp_pbind, wp_get. change MAX_META with 73.
  cbn [v_nmeta v_meta mvol set_iobuf set_nmeta set_meta]. rewrite (proj2 (Z.leb_gt 73 (zlen Mt))) by done.
  apply ewp_pbind, wp_lift. rewrite store_padded by zlia. cbn [owp].
  apply ewp_pbind, wp_lift. rewrite addc_ret by (unfold in_width; zlia). cbn [owp].
  apply ewp_pbind, wp_modify, ewp_ok. unfold mvol in *. rewrite (zlen_app Mt [b]) in HQ. exact HQ.
Qed.

Lemma load_inode_mvol U Ds Mt io e r (Q : unit → Vol → Prop) X :
  zlen io = BLOCK → carries io (irec_layout e r) → 0 ≤ e < INODE_PER_LEAF →
  inode_typed r → inode_valid r → i_used r = true → Forall (λ r, i_used r = true) U → zlen U < 64 →
  Q tt (mvol (U ++ [r]) Ds Mt io) → ewp (load_inode e) (mvol U Ds Mt io) Q X.
Proof.
  intros Hio Hc He Ht Hv Hu HU Hl HQ. unfold load_inode. apply ewp_pbind, wp_get.
  change INODE_PER_LEAF with 15 in He. unfold irec_layout, HDR, INODE_REC, BLOCK in *. set (o := 32 + e * 256) in *.
  change (v_iobuf (mvol U Ds Mt io)) with io. change (v_inodes (mvol U Ds Mt io)) with (padded 64 Inode_EMPTY U).
  apply ewp_pbind, wp_lift. unfold sub. rewrite slice_in by lia. cbn [owp].
  rewrite take_ge by (unfold zlen in *; rewrite length_drop; lia). apply ewp_bind, ewp_lift.
  rewrite (unpack_inode_spec _ r); [|apply carries_drop; [lia| |done]|done..].
  2: { unfold inode_layout. destruct (list4 _ (it_extents _ Ht)) as (e0 & e1 & e2 & e3 & ->).
       repeat (apply Forall_cons; split; [cbn; lia|]). by apply Forall_nil. }
  cbn [owp]. apply ewp_bind, ewp_ret. unfold alloc_ino_slot. change (v_inodes (mvol U Ds Mt io)) with (padded 64 Inode_EMPTY U).
  rewrite position_padded; [|zlia|eapply Forall_impl; [exact HU|]; by intros r' ->|done]. cbn [ok_or].
  apply ewp_pbind, wp_lift. rewrite Z.add_0_l, store_padded by zlia. cbn [owp]. apply ewp_pbind, wp_modify, ewp_ok. exact HQ.
Qed.

Lemma load_dent_mvol U Ds Mt io e de (Q : unit → Vol → Prop) X :
  carries io (dent_layout e de) → dent_typed de → dent_valid de → d_used de = true →
  Forall (λ de, d_used de = true) Ds → zlen Ds < 96 →
  Q tt (mvol U (Ds ++ [de]) Mt io) → ewp (load_dent (d_parent de) e) (mvol U Ds Mt io) Q X.
Proof.
  intros Hc Hdt Hv Hu HD Hl HQ. pose proof (dt_name _ Hdt) as Hnm. unfold load_dent. apply ewp_pbind, wp_get.
  change (v_iobuf (mvol U Ds Mt io)) with io. change (v_dents (mvol U Ds Mt io)) with (padded 96 Dent_EMPTY Ds).
  unfold dent_layout in Hc. cbv zeta in Hc. unfold dent_valid in Hv. change MAX_NAME with 64 in *.
  unfold le32. rewrite (index_holds io _ (d_nlen de)) by (by eapply carries_elem; [exact Hc|set_solver]).
  apply ewp_pbind, wp_lift. cbn [owp]. apply ewp_bind, ewp_bail; intros Hb.
  { apply orb_true_iff in Hb as [Hb%Z.ltb_lt|Hb%Z.eqb_eq]; lia. }
  apply ewp_pbind, wp_lift. rewrite (sub_holds io _ 64 (d_name de)); [|by eapply carries_elem; [exact Hc|set_solver]|zlia]. cbn [owp].
  apply ewp_pbind, wp_lift. rewrite (load_holds 4 io _ (d_ino de)); [|by eapply carries_elem; [exact Hc|set_solver]|exact (dt_ino _ Hdt)]. cbn [owp].
  apply ewp_pbind, wp_lift. rewrite (index_holds io _ (d_kind de)) by (by eapply carries_elem; [exact Hc|set_solver]). cbn [owp].
  apply ewp_bind, ewp_ret. unfold alloc_dent. change (v_dents (mvol U Ds Mt io)) with (padded 96 Dent_EMPTY Ds).
  rewrite position_padded; [|zlia|eapply Forall_impl; [exact HD|]; by intros r' ->|done]. cbn [ok_or].
  apply ewp_pbind, wp_lift. rewrite Z.add_0_l, store_padded by zlia. cbn [owp]. apply ewp_pbind, wp_modify, ewp_ok.
  destruct de as [u p i k n nm]. cbn in *. subst u. exact HQ.
Qed.

(** *** Leaves *)
Definition inode_loads (r : Inode) : Prop := inode_typed r ∧ inode_valid r ∧ i_used r = true.
Definition dent_loads (ino : Z) (de : Dent) : Prop :=
  dent_typed de ∧ dent_valid de ∧ d_used de = true ∧ d_parent de = ino.

Lemma load_recs {R} (lay : Z → R → layout) (step : Z → VM unit) (St : list R → Vol) (ok used : R → Prop) io cap per rs :
  (∀ r, ok r → used r) →
  (∀ acc e r, carries io (lay e r) → 0 ≤ e < per → ok r → Forall used acc → zlen acc < cap →
     ewp (step e) (St acc) (λ _ v', v' = St (acc ++ [r])) (λ _ _, False)) →
  ∀ k acc, carries io (recs_layout lay k rs) → 0 ≤ k → k + zlen rs ≤ per → Forall ok rs → Forall used acc →
  zlen acc + zlen rs ≤ cap →
  ewp (efor (range k (k + zlen rs)) step) (St acc) (λ _ v', v' = St (acc ++ rs)) (λ _ _, False).
Proof.
  intros Hou Hstep. induction rs as [|r rs IH]; intros k acc Hc Hk Hper Hok Hacc Hcap.
  - rewrite range_nil by zlia. apply ewp_ok. by rewrite app_nil_r.
  - rewrite range_cons by zlia. cbn [efor]. apply Forall_cons in Hok as [Hr Hok].
    cbn [recs_layout] in Hc. apply carries_app in Hc as [Hc1 Hc].
    apply ewp_bind. eapply ewp_mono; [apply (Hstep acc k r); [done|zlia|done|done|zlia]| |done].
    intros _ v' ->. replace (k + zlen (r :: rs)) with (k + 1 + zlen rs) by zlia.
    replace (acc ++ r :: rs) with ((acc ++ [r]) ++ rs) by (by rewrite <-app_assoc). apply IH; [done|lia|zlia|done| |zlia].
    apply Forall_app. split; [done|]. rewrite Forall_singleton. by apply Hou.
Qed.

Lemma load_inode_leaf_mvol U Ds Mt io g rs :
  inode_leaf_ok g io rs → Forall inode_loads rs → Forall (λ r, i_used r = true) U → zlen U + zlen rs ≤ 64 →
  ewp load_inode_leaf (mvol U Ds Mt io) (λ _ v', v' = mvol (U ++ rs) Ds Mt io) (λ _ _, False).
Proof.
  intros [Hs Hn] Hrs HU H64. change INODE_PER_LEAF with 15 in Hn. unfold load_inode_leaf. apply ewp_pbind, wp_get.
  change (v_iobuf (mvol U Ds Mt io)) with io. pose proof Hs as [Hl _ Hc _].
  unfold inode_leaf_layout in Hs, Hc. apply carries_app in Hc as [_ Hc].
  apply ewp_bind, ewp_lift. erewrite parse_meta_sealed; [|exact Hs|unfold in_width; lia|by compute]. cbn [owp].
  refine (load_recs irec_layout load_inode (λ U, mvol U Ds Mt io) inode_loads (λ r, i_used r = true) io 64 15 rs _ _ 0 U Hc _ _ Hrs HU H64); [| |lia|lia].
  - by intros r (_ & _ & ?).
  - intros acc e r Hce He (Ht & Hv & Hu) Hacc Hcap. by apply load_inode_mvol with (r := r).
Qed.

Lemma load_dir_leaf_mvol U Ds Mt io g ino ds :
  dir_leaf_ok g ino io ds → u32 ino → Forall (dent_loads ino) ds → Forall (λ de, d_used de = true) Ds → zlen Ds + zlen ds ≤ 96 →
  ewp (load_dir_leaf ino) (mvol U Ds Mt io) (λ _ v', v' = mvol U (Ds ++ ds) Mt io) (λ _ _, False).
Proof.
  intros [Hs Hn] Hino Hds HD H96. change DENT_PER_LEAF with 56 in Hn. unfold load_dir_leaf. apply ewp_pbind, wp_get.
  change (v_iobuf (mvol U Ds Mt io)) with io. pose proof Hs as [Hl _ Hc _].
  unfold dir_leaf_layout in Hs, Hc. apply carries_app in Hc as [_ Hc].
  apply ewp_bind, ewp_lift. erewrite parse_meta_sealed; [|exact Hs|unfold in_width; lia|done]. cbn [owp].
  refine (load_recs dent_layout (load_dent ino) (λ Ds, mvol U Ds Mt io) (dent_loads ino) (λ de, d_used de = true) io 96 56 ds _ _ 0 Ds Hc _ _ Hds HD H96); [| |lia|lia].
  - by intros r (_ & _ & ? & _).
  - intros acc e de Hce He (Ht & Hv & Hu & <-) Hacc Hcap. by apply load_dent_mvol with (de := de).
Qed.

(** The maps. *)
Lemma load_alloc_spec v io g maps (Q : unit → Vol → Prop) X :
  v_iobuf v = io → sealed io (alloc_layout (v_nblocks v) g maps) → MIN_BLOCKS ≤ v_nblocks v ≤ MAX_BLOCKS →
  length maps.1 = 128%nat → length maps.2 = 1024%nat →
  v_bitmap v = replicate 128 0 → v_refc v = replicate 1024 0 →
  Q tt (set_refc (set_bitmap v (padded 128 0 (take (Z.to_nat (div_ceil (v_nblocks v) 8)) maps.1)))
                 (padded 1024 0 (take (Z.to_nat (v_nblocks v)) maps.2))) →
  ewp load_alloc v Q X.
Proof.
  intros Hio Hs Hn H1 H2 Hb Hr HQ. change MIN_BLOCKS with 16 in *. change MAX_BLOCKS with 1024 in *.
  destruct (div_ceil_8 (v_nblocks v) ltac:(lia)) as [Hd1 Hd2]. set (nb := div_ceil (v_nblocks v) 8) in *.
  unfold load_alloc. apply ewp_pbind, wp_get. rewrite Hio. fold nb. unfold alloc_layout in Hs. fold nb in Hs. pose proof Hs as [Hl _ Hc _].
  apply carries_app in Hc as [_ Hc]. apply Forall_cons in Hc as [Hc1 Hc]. rewrite Forall_singleton in Hc. cbn [fst snd] in Hc, Hc1.
  apply ewp_bind, ewp_lift. erewrite parse_meta_sealed; [|exact Hs|unfold in_width; lia|by compute]. cbn [owp].
  unfold HDR, BLOCK in *. rewrite (proj2 (Z.ltb_ge 4096 (32 + nb + v_nblocks v))) by lia.
  set (bt := take (Z.to_nat nb) maps.1) in *. set (rt := take (Z.to_nat (v_nblocks v)) maps.2) in *.
  assert (Lb : zlen bt = nb) by (unfold bt; zlia). assert (Lr : zlen rt = v_nblocks v) by (unfold rt; zlia).
  assert (Hspl : ∀ n l, (length l ≤ n)%nat → splice (replicate n 0) 0 l = padded n 0 l).
  { intros n l Hnl. unfold splice, padded. cbn [take app Z.to_nat Nat.add]. by rewrite drop_replicate. }
  apply ewp_pbind, wp_lift. rewrite (sub_holds io 32 nb bt) by done. cbn [owp].
  apply ewp_pbind, wp_lift. rewrite Hb, copy_into_ret by zlia. cbn [owp]. rewrite Hspl by zlia. apply ewp_pbind, wp_modify.
  apply ewp_pbind, wp_lift. rewrite (sub_holds io (32 + nb) _ rt) by done. cbn [owp].
  apply ewp_pbind, wp_lift. rewrite Hr, copy_into_ret by zlia. cbn [owp]. rewrite Hspl by zlia. apply ewp_pbind, wp_modify, ewp_ok.
  exact HQ.
Qed.
End loading.

(** ** Trees *)
(** Block [b] of a volume of [nb] blocks holds [x]. *)
Definition stored (nb : Z) (m : blocks) (b : Z) (x : list Z) : Prop := 2 ≤ b < nb ∧ m b = x.

(** The blocks of a tree, in the order mount meets them. *)
Definition tree_meta (kids : list Z) (root : Z) : list Z := if 1 <? zlen kids then root :: kids else [root].

Section trees.
Context `{DiskLaws D}.
Context (d : D).
Hypothesis Hgood : good d.
Context (nb : Z).
Hypothesis Hnb : nb ≤ disk_nblocks d.
Hypothesis Hmax : nb ≤ MAX_BLOCKS.
Local Abbreviation on_disk := (stored nb (content d)).

Lemma stored_u32 b x : on_disk b x → u32 b.
Proof using Hmax. intros [? _]. change MAX_BLOCKS with 1024 in Hmax. unfold in_width. lia. Qed.
Lemma stored_kids {R} (leaf_ok : list Z → list R → Prop) kids chunks :
  Forall2 (λ b c, ∃ x, on_disk b x ∧ leaf_ok x c) kids chunks → Forall (λ k, u32 k) kids.
Proof using Hmax. intros H2. induction H2 as [|b c kids cs (x & Hx & _) H2 IH]; [by apply Forall_nil|].
  apply Forall_cons. split; [by apply stored_u32 in Hx|done]. Qed.

Lemma content_len b : 0 ≤ b < disk_nblocks d → zlen (content d b) = BLOCK.
Proof using Hgood.
  clear Hnb Hmax nb. intros Hb. pose proof (good_read b (replicate (Z.to_nat BLOCK) 0) d Hgood Hb) as Hr.
  eapply read_len; [exact Hr|lia|]. unfold zlen. by rewrite length_replicate.
Qed.
Lemma ewp_read b v (Q : unit → Vol * D → Prop) X :
  0 ≤ b < disk_nblocks d → Q tt (set_iobuf v (content d b), d) → ewp (read_iobuf b) (v, d) Q X.
Proof. intros Hb HQ. unfold ewp, wp, read_iobuf. cbn [fst snd]. by rewrite good_read. Qed.

Section kids.
Context {R : Type} (St : list R → list Z → list Z → Vol) (leaf : VM unit) (leaf_ok : list Z → list R → Prop).
Context (ok used : R → Prop) (cap : Z).
Hypothesis St_iobuf : ∀ acc Mt io x, set_iobuf (St acc Mt io) x = St acc Mt x.
Hypothesis St_mark : ∀ acc Mt io b (Q : unit → Vol → Prop) X, zlen Mt < 73 → Q tt (St acc (Mt ++ [b]) io) →
  ewp (mark_meta b) (St acc Mt io) Q X.
Hypothesis St_leaf : ∀ acc Mt io c, leaf_ok io c → Forall ok c → Forall used acc → zlen acc + zlen c ≤ cap →
  ewp leaf (St acc Mt io) (λ _ v', v' = St (acc ++ c) Mt io) (λ _ _, False).
Hypothesis ok_used : ∀ r, ok r → used r.

Lemma load_kids todo : ∀ chunks pre rest acc Mt io,
  Forall2 (λ b c, ∃ x, on_disk b x ∧ leaf_ok x c) todo chunks →
  Forall ok (concat chunks) → Forall used acc → zlen acc + zlen (concat chunks) ≤ cap → zlen Mt + zlen todo ≤ 73 →
  zlen io = BLOCK →
  ewp (efor (range (zlen pre) (zlen pre + zlen todo)) (load_kid leaf (pre ++ todo ++ rest))) (St acc Mt io, d)
    (λ _ s, ∃ io', zlen io' = BLOCK ∧ s = (St (acc ++ concat chunks) (Mt ++ todo) io', d)) (λ _ _, False).
Proof.
  induction todo as [|b todo IH]; intros chunks pre rest acc Mt io H2 Hok Hacc Hcap Hmt Hio.
  - apply Forall2_nil_inv_l in H2 as ->. rewrite range_nil by zlia. apply ewp_ok. exists io. split; [done|]. cbn [concat]. by rewrite !app_nil_r.
  - apply Forall2_cons_inv_l in H2 as (c & cs & (x & (Hb & Hx) & Hc) & H2 & ->). cbn [concat] in *.
    apply Forall_app in Hok as [Hok1 Hok]. rewrite range_cons by zlia. cbn [efor]. apply ewp_bind. unfold load_kid.
    apply ewp_pbind, wp_lift. cbn [app]. rewrite index_mid by done. cbn [owp].
    apply ewp_bind, ewp_read; [lia|]. rewrite St_iobuf, Hx. apply ewp_bind, ewp_onvol. cbn [fst snd].
    apply St_mark; [zlia|]. apply ewp_onvol. cbn [fst snd].
    eapply ewp_mono; [apply (St_leaf acc _ x c); [done|done|done|zlia]| |done]. intros _ v' ->.
    specialize (IH cs (pre ++ [b]) rest (acc ++ c) (Mt ++ [b]) x H2 Hok).
    rewrite <-!app_assoc in IH. cbn [app] in IH. replace (zlen (pre ++ [b])) with (zlen pre + 1) in IH by zlia.
    replace (zlen pre + 1 + zlen todo) with (zlen pre + zlen (b :: todo)) in IH by zlia. apply IH; [|zlia|zlia|].
    + apply Forall_app. split; [done|]. eapply Forall_impl; [exact Hok1|done].
    + rewrite <-Hx. apply content_len. lia.
Qed.
End kids.

Context (sb : SuperInfo) (bm rc : list Z).
Local Abbreviation mvol := (mvol sb bm rc).

Lemma u16_zlen8 {A} (l : list A) : zlen l ≤ 8 → u16 (zlen l).
Proof. intros. unfold in_width. zlia. Qed.

Lemma load_inode_tree_mvol g ikids rs Mt io :
  inode_tree g on_disk (sb_inode_root sb) ikids rs → Forall inode_loads rs → zlen rs ≤ 64 →
  2 ≤ sb_inode_root sb < nb →
  zlen Mt + zlen (tree_meta ikids (sb_inode_root sb)) ≤ 73 →
  ewp load_inode_tree (mvol [] [] Mt io, d)
    (λ _ s, ∃ io', zlen io' = BLOCK ∧ s = (mvol rs [] (Mt ++ tree_meta ikids (sb_inode_root sb)) io', d)) (λ _ _, False).
Proof.
  intros (chunks & -> & H2 & Hn & Hr) Hok H64 Hroot Hmt. unfold load_inode_tree. apply ewp_pbind, wp_gets.
  change (v_inode_root (fst (mvol [] [] Mt io, d))) with (sb_inode_root sb). set (root := sb_inode_root sb) in *.
  apply ewp_bind, ewp_read; [lia|]. apply ewp_pbind, wp_gets. cbn [fst snd].
  change (set_iobuf (mvol [] [] Mt io) (content d root)) with (mvol [] [] Mt (content d root)).
  change (v_iobuf (mvol [] [] Mt (content d root))) with (content d root). unfold tree_meta in *.
  apply ewp_pbind, wp_lift. destruct Hr as [Hone|(Hmany & x & (_ & Hx) & Hint)].
  - rewrite Hone in *. apply Forall2_cons_inv_l in H2 as (c & cs & (x & (_ & Hx) & Hleaf) & H2 & ->).
    apply Forall2_nil_inv_l in H2 as ->. cbn [concat] in *. rewrite app_nil_r in *. rewrite Hx.
    change (1 <? zlen [root]) with false in *. pose proof Hleaf as [Hs _].
    rewrite (meta_kind _ _ _ _ _ _ _ Hs). cbn [owp]. rewrite Z.eqb_refl.
    apply ewp_bind, ewp_lift. rewrite (sl_crc _ _ Hs). cbn [owp]. apply ewp_bind, ewp_onvol. cbn [fst snd].
    apply mark_meta_mvol; [zlia|]. apply ewp_onvol. cbn [fst snd].
    eapply ewp_mono; [eapply load_inode_leaf_mvol; [exact Hleaf|done|by apply Forall_nil|zlia]| |done].
    intros _ v' ->. exists x. split; [|done]. rewrite <-Hx. apply content_len. lia.
  - rewrite (proj2 (Z.ltb_lt 1 (zlen ikids))) in * by done. rewrite Hx. unfold inode_int_ok, int_layout in Hint.
    rewrite (meta_kind _ _ _ _ _ _ _ Hint). cbn [owp].
    change (META_INODE_INT =? META_INODE_LEAF) with false. cbn [negb]. rewrite Z.eqb_refl.
    apply ewp_bind, ewp_lift. erewrite parse_meta_sealed; [|exact Hint|apply u16_zlen8; lia|by compute]. cbn [owp].
    apply ewp_bind, ewp_onvol. cbn [fst snd]. apply mark_meta_mvol; [zlia|].
    apply ewp_pbind, wp_lift. rewrite (meta_count _ _ _ _ _ _ _ Hint) by (apply u16_zlen8; lia). cbn [owp].
    apply ewp_pbind, wp_lift. erewrite node_kids_spec; [|exact Hint|lia|by apply stored_kids in H2]. cbn [owp].
    rewrite Z.min_l by lia.
    eapply ewp_mono; [apply (load_kids (λ U Mt io, mvol U [] Mt io) load_inode_leaf (inode_leaf_ok g) inode_loads
      (λ r, i_used r = true) 64 (λ _ _ _ _, eq_refl) (λ U Mt io b Q X, mark_meta_mvol sb bm rc U [] Mt io b Q X)
      (λ U Mt io c, load_inode_leaf_mvol sb bm rc U [] Mt io g c) (λ r Hr, proj2 (proj2 Hr))
      ikids chunks [] _ [] (Mt ++ [root]) x H2 Hok)| |done].
    + by apply Forall_nil.
    + zlia.
    + zlia.
    + rewrite <-Hx. apply content_len. lia.
    + intros _ s (io' & ? & ->). exists io'. by rewrite <-app_assoc.
Qed.

(** *** Directories *)
Definition rec_dir (g : Z) (P : Z → list Z → Prop) (r : Inode) (t : list Z * list Dent) : Prop :=
  let '(kids, ds) := t in
  if is_dir r then dir_tree g P (i_ino r) (i_dir_root r) kids ds ∧ Forall (dent_loads (i_ino r)) ds
  else kids = [] ∧ ds = [].
Definition rec_meta (r : Inode) (t : list Z * list Dent) : list Z :=
  match snd t with [] => [] | _ => tree_meta (fst t) (i_dir_root r) end.

Lemma dent_loads_used ino ds : Forall (dent_loads ino) ds → Forall (λ de, d_used de = true) ds.
Proof. intros Hd. eapply Forall_impl; [exact Hd|]. by intros de (_ & _ & ? & _). Qed.

Lemma load_dir_mvol g dn r todo Ds Mt io t :
  rec_dir g on_disk r t → u32 (i_ino r) → Forall (λ de, d_used de = true) Ds → zlen Ds + zlen t.2 ≤ 96 →
  zlen Mt + zlen (rec_meta r t) ≤ 73 → zlen io = BLOCK →
  ewp (load_dir (zlen dn)) (mvol (dn ++ r :: todo) Ds Mt io, d)
    (λ _ s, ∃ io', zlen io' = BLOCK ∧ s = (mvol (dn ++ r :: todo) (Ds ++ t.2) (Mt ++ rec_meta r t) io', d)) (λ _ _, False).
Proof.
  destruct t as [kids ds]. cbn [snd]. intros Hd Hino HDs H96 Hmt Hio. unfold load_dir. apply ewp_pbind, wp_gets.
  set (U := dn ++ r :: todo) in *. change (v_inodes (fst (mvol U Ds Mt io, d))) with (padded 64 Inode_EMPTY U).
  apply ewp_pbind, wp_lift. unfold padded, U. rewrite <-app_assoc. cbn [app]. rewrite index_mid by done. cbn [owp]. fold U.
  unfold rec_dir in Hd. destruct (is_dir r); cbn [andb].
  2: { destruct Hd as [-> ->]. apply ewp_ok. exists io. split; [done|]. by rewrite !app_nil_r. }
  destruct Hd as ([(-> & -> & ->)|(Hne & chunks & -> & H2 & Hn & Hr)] & Hok).
  { apply ewp_ok. exists io. split; [done|]. by rewrite !app_nil_r. }
  assert (Hm : rec_meta r (kids, concat chunks) = tree_meta kids (i_dir_root r)) by (unfold rec_meta; cbn [fst snd]; by destruct (concat chunks)).
  rewrite Hm in *. set (root := i_dir_root r) in *. unfold tree_meta in *.
  assert (Hroot : 2 ≤ root < nb).
  { destruct Hr as [->|(_ & x & (? & _) & _)]; [|done]. by apply Forall2_cons_inv_l in H2 as (c & cs & (x & (? & _) & _) & _). }
  rewrite (proj2 (Z.eqb_neq root 0)) by lia. cbn [negb].
  apply ewp_bind, ewp_read; [lia|]. apply ewp_pbind, wp_gets. cbn [fst snd].
  change (set_iobuf (mvol U Ds Mt io) (content d root)) with (mvol U Ds Mt (content d root)).
  change (v_iobuf (mvol U Ds Mt (content d root))) with (content d root).
  apply ewp_pbind, wp_lift. destruct Hr as [Hone|(Hmany & x & (_ & Hx) & Hint)].
  - rewrite Hone in *. apply Forall2_cons_inv_l in H2 as (c & cs & (x & (_ & Hx) & Hleaf) & H2 & ->).
    apply Forall2_nil_inv_l in H2 as ->. cbn [concat] in *. rewrite app_nil_r in *. rewrite Hx.
    change (1 <? zlen [root]) with false in *. pose proof Hleaf as [Hs _].
    rewrite (meta_kind _ _ _ _ _ _ _ Hs). cbn [owp]. rewrite Z.eqb_refl.
    apply ewp_bind, ewp_onvol. cbn [fst snd].
    apply mark_meta_mvol; [zlia|]. apply ewp_onvol. cbn [fst snd].
    eapply ewp_mono; [eapply load_dir_leaf_mvol; [exact Hleaf|done..]| |done].
    intros _ v' ->. exists x. split; [|done]. rewrite <-Hx. apply content_len. lia.
  - rewrite (proj2 (Z.ltb_lt 1 (zlen kids))) in * by done. rewrite Hx. unfold dir_int_ok, int_layout in Hint.
    rewrite (meta_kind _ _ _ _ _ _ _ Hint). cbn [owp].
    change (META_DIR_INT =? META_DIR_LEAF) with false. rewrite Z.eqb_refl.
    apply ewp_bind, ewp_lift. erewrite parse_meta_sealed; [|exact Hint|apply u16_zlen8; lia|done]. cbn [owp].
    apply ewp_bind, ewp_onvol. cbn [fst snd]. apply mark_meta_mvol; [zlia|].
    apply ewp_pbind, wp_lift. rewrite (meta_count _ _ _ _ _ _ _ Hint) by (apply u16_zlen8; lia). cbn [owp].
    apply ewp_pbind, wp_lift. erewrite node_kids_spec; [|exact Hint|lia|by apply stored_kids in H2]. cbn [owp].
    rewrite Z.min_l by lia.
    eapply ewp_mono; [apply (load_kids (λ Ds Mt io, mvol U Ds Mt io) (load_dir_leaf (i_ino r)) (dir_leaf_ok g (i_ino r))
      (dent_loads (i_ino r)) (λ de, d_used de = true) 96 (λ _ _ _ _, eq_refl) (λ Ds Mt io b Q X, mark_meta_mvol sb bm rc U Ds Mt io b Q X)
      (λ Ds Mt io c Hc, load_dir_leaf_mvol sb bm rc U Ds Mt io g (i_ino r) c Hc Hino) (λ de Hde, proj1 (proj2 (proj2 Hde)))
      kids chunks [] _ Ds (Mt ++ [root]) x H2 Hok HDs)| |done].
    + done.
    + zlia.
    + rewrite <-Hx. apply content_len. lia.
    + intros _ s (io' & ? & ->). exists io'. by rewrite <-app_assoc.
Qed.

Lemma load_dirs_mvol g todo : ∀ T dn Ds Mt io,
  Forall2 (rec_dir g on_disk) todo T → Forall (λ r, u32 (i_ino r)) todo → zlen dn + zlen todo ≤ 64 →
  Forall (λ de, d_used de = true) Ds → zlen Ds + zlen (concat (map snd T)) ≤ 96 →
  zlen Mt + zlen (concat (zip_with rec_meta todo T)) ≤ 73 → zlen io = BLOCK →
  ewp (efor (range (zlen dn) 64) load_dir) (mvol (dn ++ todo) Ds Mt io, d)
    (λ _ s, ∃ io', zlen io' = BLOCK ∧ s = (mvol (dn ++ todo) (Ds ++ concat (map snd T)) (Mt ++ concat (zip_with rec_meta todo T)) io', d))
    (λ _ _, False).
Proof.
  induction todo as [|r todo IH]; intros T dn Ds Mt io H2 Hu Hl HDs H96 Hmt Hio.
  - apply Forall2_nil_inv_l in H2 as ->. cbn [zip_with concat map]. rewrite !app_nil_r.
    assert (Hrest : ∀ n k, 64 - k = Z.of_nat n → zlen dn ≤ k →
      ewp (efor (range k 64) load_dir) (mvol dn Ds Mt io, d) (λ _ s, s = (mvol dn Ds Mt io, d)) (λ _ _, False)).
    { induction n as [|n IHn]; intros k Hk Hdk; [rewrite range_nil by lia; by apply ewp_ok|].
      rewrite range_cons by lia. cbn [efor]. apply ewp_bind. unfold load_dir. apply ewp_pbind, wp_gets.
      change (v_inodes (fst (mvol dn Ds Mt io, d))) with (padded 64 Inode_EMPTY dn).
      apply ewp_pbind, wp_lift. rewrite (index_ret _ _ Inode_EMPTY); [|zlia|].
      2: { unfold padded. rewrite lookup_app_r, lookup_replicate by zlia. split; [done|zlia]. }
      cbn [owp]. apply ewp_ok, IHn; lia. }
    eapply ewp_mono; [apply (Hrest (Z.to_nat (64 - zlen dn))); zlia| |done]. intros _ s ->. by exists io.
  - apply Forall2_cons_inv_l in H2 as (t & T' & Ht & H2 & ->). cbn [zip_with concat map] in *.
    apply Forall_cons in Hu as [Hur Hu]. rewrite range_cons by zlia. cbn [efor]. apply ewp_bind.
    eapply ewp_mono; [eapply (load_dir_mvol g); [exact Ht|done|done|zlia|zlia|done]| |done]. intros _ s (io' & Hio' & ->).
    specialize (IH T' (dn ++ [r]) (Ds ++ t.2) (Mt ++ rec_meta r t) io' H2 Hu).
    rewrite <-!app_assoc in IH. cbn [app] in IH. replace (zlen (dn ++ [r])) with (zlen dn + 1) in IH by zlia.
    apply IH; [zlia| |zlia|zlia|done]. apply Forall_app. split; [done|]. destruct t as [kids ds]. cbn [snd]. unfold rec_dir in Ht.
    destruct (is_dir r); [destruct Ht as [_ Ht]; by apply (dent_loads_used (i_ino r))|]. destruct Ht as [_ ->]. by apply Forall_nil.
Qed.
End trees.

(** ** An image

    What the blocks [m] hold below the superblock [sb]: the allocation map [maps],
    the inode records [rs], and for each its directory's entries, with the blocks
    they lie in. *)
Definition image_meta (sb : SuperInfo) (ikids : list Z) (rs : list Inode) (T : list (list Z * list Dent)) : list Z :=
  sb_alloc_root sb :: tree_meta ikids (sb_inode_root sb) ++ concat (zip_with rec_meta rs T).

Record image (m : blocks) (sb : SuperInfo) (maps : list Z * list Z) (ikids : list Z) (rs : list Inode)
    (T : list (list Z * list Dent)) : Prop := {
  im_super : ∃ v, sb = super_of v ∧ super_typed v ∧ snaps_packed (v_snaps v);
  im_alloc : ∃ x, stored (sb_nblocks sb) m (sb_alloc_root sb) x ∧ sealed x (alloc_layout (sb_nblocks sb) (sb_generation sb) maps);
  im_bitmap : length maps.1 = 128%nat;
  im_refc : length maps.2 = 1024%nat;
  im_maps : bytes_ok maps.1 ∧ bytes_ok maps.2;
  im_inodes : inode_tree (sb_generation sb) (stored (sb_nblocks sb) m) (sb_inode_root sb) ikids rs;
  im_loads : Forall inode_loads rs;
  im_inodes_fit : zlen rs ≤ MAX_INODES;
  im_dirs : Forall2 (rec_dir (sb_generation sb) (stored (sb_nblocks sb) m)) rs T;
  im_dents_fit : zlen (concat (map snd T)) ≤ MAX_DENTS;
  im_meta_fit : zlen (image_meta sb ikids rs T) ≤ MAX_META;
  im_files : files_ok rs (concat (map snd T)) (sb_root_ino sb) (sb_next_ino sb);
  im_refs : ∀ b, occ b (image_meta sb ikids rs T ++ all_data rs) ≤ default 0 (maps.2 !! Z.to_nat b);
  im_range : Forall (λ b, 2 ≤ b < sb_nblocks sb) (all_data rs);
}.

Lemma image_nblocks m sb maps ikids rs T : image m sb maps ikids rs T → MIN_BLOCKS ≤ sb_nblocks sb ≤ MAX_BLOCKS.
Proof. intros []. destruct im_super0 as (v & -> & [] & _). done. Qed.

(** The volume in memory once it is mounted. *)
Definition mounted (sb : SuperInfo) (maps : list Z * list Z) (ikids : list Z) (rs : list Inode)
    (T : list (list Z * list Dent)) (io : list Z) : Vol :=
  mvol sb (padded 128 0 (take (Z.to_nat (div_ceil (sb_nblocks sb) 8)) maps.1))
    (padded 1024 0 (take (Z.to_nat (sb_nblocks sb)) maps.2)) rs (concat (map snd T)) (image_meta sb ikids rs T) io.

Lemma tree_root_stored {R} (leaf_ok : list Z → list R → Prop) int_ok nb m root kids rs :
  tree leaf_ok int_ok (stored nb m) root kids rs → 2 ≤ root < nb.
Proof.
  intros (chunks & _ & H2 & _ & [->|(_ & x & (? & _) & _)]); [|done].
  by apply Forall2_cons_inv_l in H2 as (c & cs & (x & (? & _) & _) & _).
Qed.

Lemma inode_slot_found v ino : (∃ r, r ∈ v_inodes v ∧ i_used r = true ∧ i_ino r = ino) → ∃ k, inode_slot v ino = inl k.
Proof.
  intros (r & Hr & Hu & Hi). unfold inode_slot. generalize 0. induction (v_inodes v) as [|x l IH]; intros k; [by apply elem_of_nil in Hr|].
  cbn [position_from]. destruct (i_used x && (i_ino x =? ino)) eqn:E; [by exists k|].
  apply elem_of_cons in Hr as [->|Hr]; [|by apply IH]. by rewrite Hu, Hi, Z.eqb_refl in E.
Qed.

Lemma mount_image `{DiskLaws D} v0 (d : D) sb maps ikids rs T p0 p1 :
  good d → sb_nblocks sb ≤ disk_nblocks d →
  parse_super (content d 0) 0 = Ret p0 → parse_super (content d 1) 1 = Ret p1 → pick p0 p1 = inl sb →
  image (content d) sb maps ikids rs T →
  ewp mount (v0, d) (λ _ s, ∃ io, zlen io = BLOCK ∧ s = (mounted sb maps ikids rs T io, d)) (λ _ _, False).
Proof.
  intros Hg Hnd Hp0 Hp1 Hpick Him. pose proof (image_nblocks _ _ _ _ _ _ Him) as im_nblocks0. destruct Him.
  pose proof (proj2 im_nblocks0) as Hmx. change MIN_BLOCKS with 16 in *. change MAX_BLOCKS with 1024 in *.
  change MAX_INODES with 64 in *. change MAX_DENTS with 96 in *. change MAX_META with 73 in *.
  destruct im_alloc0 as (ax & (Har & Hax) & Hal). pose proof (tree_root_stored _ _ _ _ _ _ _ im_inodes0) as Hir.
  unfold mount. apply ewp_pbind, wp_onvol. cbn [fst snd]. apply wp_put.
  apply ewp_bind. unfold pick_super_iobuf, ewp at 1, wp. cbn [fst snd].
  rewrite (pick_super_spec d _ p0 p1) by (done || lia). cbn [obind]. rewrite Hpick.
  apply ewp_pbind, wp_get. cbn [fst snd]. apply ewp_bind, ewp_bail; intros Hb.
  { apply andb_true_iff in Hb as [_ Hb%Z.ltb_lt]. lia. } clear Hb.
  apply ewp_pbind, wp_onvol, wp_modify. cbn [fst snd].
  apply ewp_bind, (ewp_read d Hg); [lia|]. apply ewp_bind, ewp_onvol. cbn [fst snd].
  eapply load_alloc_spec with (maps := maps) (g := sb_generation sb); [reflexivity|by rewrite Hax|done|done|done|reflexivity|reflexivity|].
  apply ewp_bind, ewp_onvol. cbn [fst snd].
  set (bm := padded 128 0 _). set (rc := padded 1024 0 _). unfold image_meta in im_meta_fit0.
  apply (mark_meta_mvol sb bm rc [] [] [] (content d (sb_alloc_root sb))); [by compute|].
  cbn [app]. apply ewp_bind. eapply ewp_mono; [apply (load_inode_tree_mvol d Hg (sb_nblocks sb) Hnd Hmx) with (g := sb_generation sb) (rs := rs) (ikids := ikids)| |done];
    [done|done|done|lia|zlia|].
  intros _ s (io1 & Hio1 & ->). apply ewp_bind. change MAX_INODES with 64.
  eapply ewp_mono; [apply (load_dirs_mvol d Hg (sb_nblocks sb) Hnd Hmx) with (g := sb_generation sb) (dn := []) (T := T)| |done].
  - done.
  - eapply Forall_impl; [exact im_loads0|]. intros r ([] & _). done.
  - zlia.
  - by apply Forall_nil.
  - zlia.
  - zlia.
  - done.
  - intros _ s (io2 & Hio2 & ->). apply ewp_pbind, wp_gets. cbn [app]. apply ewp_ret. cbn [fst].
    set (v := mvol _ _ _ _ _ _ _). destruct (inode_slot_found v (v_root_ino v)) as [k ->].
    + destruct (fo_root _ _ _ _ im_files0) as (r & Hr & _ & Hi). exists r. split_and!; [|rewrite Forall_forall in im_loads0; by apply im_loads0|done].
      change (v_inodes v) with (padded 64 Inode_EMPTY rs). apply elem_of_app. by left.
    + exists io2. done.
Qed.
