(* ===== verification/VibefsImage.v ===== *)
(** * vibefs: what a commit leaves on disk

    The blocks a commit writes are an image: mount loads from them the inodes and
    the names the volume had in memory. *)

From stdpp Require Import base strings numbers gmap list sorting.
From S2P Require Import Prelude Bytes Crc Buf FsError Vibefs VibefsCommit VibefsLayout VibefsSort VibefsVol.
From S2P Require Import VibefsBlocks VibefsDisk VibefsTree VibefsInodeTree VibefsProtocol VibefsFiles VibefsMount.
Import VibefsCommit.

Local Open Scope Z_scope.

(** ** Entries by directory *)
Lemma split_by_dir (l : list Dent) ks :
  NoDup ks →
  concat (map (λ k, filter (λ de, in_dir k de = true) l) ks) ≡ₚ filter (λ de, d_used de = true ∧ d_parent de ∈ ks) l.
Proof.
  induction ks as [|k ks IH]; intros Hnd; cbn [map concat].
  - symmetry. apply Permutation_nil_r. induction l as [|de l IHl]; [done|].
    rewrite filter_cons_False; [done|]. set_solver.
  - apply NoDup_cons in Hnd as [Hk Hnd]. rewrite IH by done. clear IH.
    induction l as [|de l IHl]; [done|]. rewrite !filter_cons. unfold in_dir in *.
    destruct (d_used de); cbn [andb].
    + destruct (Z.eqb_spec (d_parent de) k) as [<-|Hne].
      * rewrite decide_True by done. rewrite decide_False by tauto. rewrite decide_True by (split; [done|left]).
        cbn [app]. by rewrite IHl.
      * rewrite (decide_False (P := false = true)) by done. destruct (decide (d_parent de ∈ ks)) as [Hin|Hni].
        -- rewrite decide_True by done. rewrite decide_True by (split; [done|by right]). by rewrite <-Permutation_middle, IHl.
        -- rewrite decide_False by tauto. rewrite decide_False by (intros [_ [?|?]%elem_of_cons]; tauto). done.
    + rewrite (decide_False (P := false = true)) by done. rewrite decide_False by (by intros [? _]).
      rewrite decide_False by (by intros [? _]). done.
Qed.

Lemma concat_perm2 {A} (l l' : list (list A)) : Forall2 (≡ₚ) l l' → concat l ≡ₚ concat l'.
Proof. intros H2. induction H2; cbn; [done|by f_equiv]. Qed.

(** ** A record with its directory *)
Abbreviation entry := (Inode * (list Z * list Dent))%type.
Definition entry_of (r : Inode) (t : Z * list Z * list Dent) : entry := (with_root r (root_of t), (t.1.2, t.2)).
Definition entry_used (e : entry) : bool := i_used e.1.

Lemma tree_meta_perm {R} (leaf_ok : list Z → list R → Prop) int_ok P root kids rs :
  tree leaf_ok int_ok P root kids rs → tree_meta kids root ≡ₚ tree_blocks kids root.
Proof.
  unfold tree_meta, tree_blocks. intros (_ & _ & _ & _ & [->|[Hk _]]); [done|].
  rewrite (proj2 (Z.ltb_lt _ _)) by done. apply Permutation_cons_append.
Qed.

Section entries.
Context (v : Vol) (g : Z) (P : Z → list Z → Prop).
Hypothesis Htables : tables_typed v.

Lemma in_dir_loads ino ds : ds ≡ₚ filter (λ de, in_dir ino de = true) (v_dents v) → Forall (dent_loads ino) ds.
Proof.
  intros Hp. apply Forall_forall. intros de Hde. rewrite Hp in Hde. apply list_elem_of_filter in Hde as [Hi Hde].
  apply andb_true_iff in Hi as [Hu Hi%Z.eqb_eq]. split_and!; [|by apply (tt_dents_valid _ Htables)|done|done].
  pose proof (tt_dents_ok _ Htables) as Hok. rewrite Forall_forall in Hok. by apply Hok.
Qed.

Lemma entry_rec_dir r t : dir_entry v g P r t → let e := entry_of r t in rec_dir g P e.1 e.2.
Proof.
  destruct t as [[root kids] ds]. unfold dir_entry, entry_of, root_of, rec_dir. cbn [fst snd].
  destruct (with_root_same r root) as (_ & -> & -> & Hroot). destruct (is_dir r); [|by intros (_ & -> & ->)].
  rewrite Hroot by done. intros (Hd & Hp & _). split; [done|by apply in_dir_loads].
Qed.

Lemma entry_meta_perm r t : dir_entry v g P r t → let e := entry_of r t in rec_meta e.1 e.2 ≡ₚ entry_blocks t.
Proof.
  destruct t as [[root kids] ds]. unfold dir_entry, entry_of, root_of, rec_meta, entry_blocks. cbn [fst snd].
  destruct (with_root_same r root) as (_ & _ & _ & Hroot). destruct (is_dir r); [|by intros (_ & _ & ->)].
  rewrite Hroot by done. intros ([(-> & _)|(Hne & Ht)] & _); [done|]. destruct ds; [done|]. by eapply tree_meta_perm.
Qed.

Definition entries (l : list Inode) (T : list (Z * list Z * list Dent)) : list entry := zip_with entry_of l T.

Lemma entries_fst l T : map fst (entries l T) = rooted l (map root_of T).
Proof. unfold entries, rooted. revert T. induction l as [|r l IH]; intros [|t T]; cbn; [done..|]. by rewrite IH. Qed.

Context (l : list Inode) (T : list (Z * list Z * list Dent)).
Hypothesis Hl : Forall2 (dir_entry v g P) l T.

Lemma entries_rec_dir : Forall (λ e, rec_dir g P e.1 e.2) (entries l T).
Proof using Hl Htables.
  unfold entries. induction Hl as [|r t l' T' He H2 IH]; cbn [zip_with]; [by apply Forall_nil|]. apply Forall_cons.
  split; [by apply entry_rec_dir|by apply IH].
Qed.

(** Entries of free records hold nothing. *)
Lemma unused_empty e : rec_dir g P e.1 e.2 → entry_used e = false → rec_meta e.1 e.2 = [] ∧ e.2.2 = [].
Proof using.
  destruct e as [r [kids ds]]. unfold rec_dir, entry_used, rec_meta. cbn [fst snd]. intros Hd Hu.
  destruct (is_dir r) eqn:E; [apply is_dir_used in E; congruence|]. by destruct Hd as [-> ->].
Qed.

Lemma concat_used {A} (f : entry → list A) es :
  (∀ e, rec_dir g P e.1 e.2 → entry_used e = false → f e = []) → Forall (λ e, rec_dir g P e.1 e.2) es →
  concat (map f (filter (λ e, entry_used e = true) es)) = concat (map f es).
Proof using.
  intros Hf Hes. induction Hes as [|e es He Hes IH]; [done|]. rewrite filter_cons. cbn [map concat].
  destruct (entry_used e) eqn:E; [rewrite decide_True by done|rewrite decide_False by done]; cbn [map concat].
  - by rewrite IH.
  - by rewrite Hf.
Qed.

Lemma entries_blocks : concat (map (λ e, rec_meta e.1 e.2) (entries l T)) ≡ₚ all_blocks T.
Proof using Hl Htables.
  unfold all_blocks, entries. apply concat_perm2. induction Hl as [|r t l' T' He H2 IH]; cbn [zip_with map]; constructor.
  - by apply entry_meta_perm.
  - by apply IH.
Qed.

Lemma entries_dents :
  concat (map (λ e : entry, e.2.2) (entries l T)) ≡ₚ
  concat (map (λ k, filter (λ de, in_dir k de = true) (v_dents v)) (map i_ino (filter (λ r, is_dir r = true) l))).
Proof using Hl Htables.
  unfold entries. induction Hl as [|r [[root kids] ds] l' T' He H2 IH]; cbn [zip_with map concat]; [done|].
  rewrite filter_cons. unfold dir_entry in He. unfold entry_of. cbn [fst snd]. destruct (is_dir r).
  - rewrite decide_True by done. cbn [map concat]. destruct He as (_ & Hp & _). by rewrite Hp, IH.
  - rewrite decide_False by done. destruct He as (_ & _ & ->). by apply IH.
Qed.
End entries.

(** ** The image of a commit *)
Lemma zlen_perm {A} (l l' : list A) : l ≡ₚ l' → zlen l = zlen l'.
Proof. intros Hp. unfold zlen. by rewrite Hp. Qed.

Lemma filter_same {A} (P Q : A → Prop) `{!∀ x, Decision (P x), !∀ x, Decision (Q x)} (l : list A) :
  (∀ x, x ∈ l → P x ↔ Q x) → filter P l = filter Q l.
Proof.
  induction l as [|x l IH]; intros Hl; [done|]. rewrite !filter_cons, IH by (intros y Hy; apply Hl; by right).
  destruct (Hl x ltac:(left)) as [H1 H2]. repeat case_decide; tauto.
Qed.

Lemma dirs_nodup v : NoDup (map i_ino (used_inodes v)) → NoDup (map i_ino (filter (λ r, is_dir r = true) (v_inodes v))).
Proof.
  intros Hnd. eapply sublist_NoDup; [exact Hnd|]. clear. induction (v_inodes v) as [|r l IH]; [done|]. rewrite !filter_cons.
  destruct (i_used r) eqn:Hu.
  - rewrite (decide_True (P := true = true)) by done.
    destruct (is_dir r); [rewrite decide_True by done; by apply sublist_skip|rewrite decide_False by done; by apply sublist_cons].
  - destruct (is_dir r) eqn:E; [apply is_dir_used in E; congruence|]. by rewrite !decide_False by done.
Qed.

Lemma rooted_elem l roots r : length l = length roots → r ∈ l → ∃ root, with_root r root ∈ rooted l roots.
Proof.
  intros Hl Hr. apply list_elem_of_lookup in Hr as [i Hi].
  destruct (lookup_lt_is_Some_2 roots i) as [root Hroot]; [rewrite <-Hl; by eapply lookup_lt_Some|].
  exists root. apply list_elem_of_lookup. exists i. unfold rooted. rewrite lookup_zip_with, Hi, Hroot. done.
Qed.

Lemma dropped_maps_shape v A : maps_typed v →
  length (dropped_maps v A).1 = 128%nat ∧ length (dropped_maps v A).2 = 1024%nat ∧
  bytes_ok (dropped_maps v A).1 ∧ bytes_ok (dropped_maps v A).2.
Proof.
  intros Hm. unfold dropped_maps. pose proof (alloced_maps v A Hm) as [].
  destruct (drop_refs_shape (v_nblocks v) (old_meta v ++ dropped v) (v_bitmap (alloced v A), v_refc (alloced v A)))
    as (-> & -> & ? & ?); done.
Qed.

Lemma drop_ref_other nb b b' m : b ≠ b' → 0 ≤ b → (drop_ref nb b' m).2 !! Z.to_nat b = m.2 !! Z.to_nat b.
Proof.
  intros Hne Hb. destruct m as [bm rc]. unfold drop_ref. destruct (Z.ltb_spec b' 2), (Z.leb_spec nb b'); cbn [orb snd]; try done.
  destruct (rc !! Z.to_nat b') as [r|]; [|done]. destruct (r =? 0); [done|].
  assert (<[Z.to_nat b':=r - 1]> rc !! Z.to_nat b = rc !! Z.to_nat b) as E by (apply list_lookup_insert_ne; lia).
  destruct (r - 1 =? 0); [|exact E]. destruct (bm !! _); exact E.
Qed.
Lemma drop_refs_other nb b bs m : b ∉ bs → 0 ≤ b → (drop_refs nb bs m).2 !! Z.to_nat b = m.2 !! Z.to_nat b.
Proof.
  unfold drop_refs. revert m. induction bs as [|b' bs IH]; intros m Hb H0; [done|]. cbn [fold_left].
  rewrite IH by set_solver. apply drop_ref_other; set_solver.
Qed.

(** As many references go as the list holds. *)
Lemma drop_refs_count nb b bs m :
  2 ≤ b < nb → occ b bs ≤ default 0 (m.2 !! Z.to_nat b) →
  default 0 ((drop_refs nb bs m).2 !! Z.to_nat b) = default 0 (m.2 !! Z.to_nat b) - occ b bs.
Proof.
  unfold drop_refs. intros Hb. revert m. induction bs as [|b' bs IH]; intros m Ho; cbn [fold_left]; [rewrite occ_nil; lia|].
  rewrite occ_cons in *. pose proof (occ_nonneg b bs). case_decide as E.
  - subst b'. assert (Hd : default 0 ((drop_ref nb b m).2 !! Z.to_nat b) = default 0 (m.2 !! Z.to_nat b) - 1).
    { destruct m as [bm rc]. cbn [snd] in *. unfold drop_ref. destruct (Z.ltb_spec b 2), (Z.leb_spec nb b); try lia. cbn [orb].
      destruct (rc !! Z.to_nat b) as [r|] eqn:Er; cbn [from_option id] in *; [|lia]. destruct (Z.eqb_spec r 0); [lia|].
      assert (Hi : default 0 (<[Z.to_nat b:=r - 1]> rc !! Z.to_nat b) = r - 1).
      { rewrite list_lookup_insert_eq by (by eapply lookup_lt_Some). done. }
      destruct (r - 1 =? 0); [destruct (bm !! _)|]; exact Hi. }
    rewrite IH by lia. lia.
  - rewrite IH by (rewrite drop_ref_other by (done || lia); lia). rewrite drop_ref_other by (done || lia). lia.
Qed.

(** The counts a commit leaves. *)
Lemma dropped_refc v A b :
  maps_typed v → v_nblocks v ≤ MAX_BLOCKS → fresh v A → refs_ok v → 2 ≤ b < v_nblocks v →
  default 0 ((dropped_maps v A).2 !! Z.to_nat b) =
  (if decide (b ∈ A) then 1 else refc_of v b) - occ b (old_meta v) - occ b (dropped v).
Proof.
  intros Hm Hn Hf [Hs _ _] Hb. specialize (Hs b). unfold slack in Hs. pose proof (occ_nonneg b (all_data (used_inodes v))).
  pose proof (refc_alloced v A b Hm Hn Hf ltac:(lia)) as Hrc. unfold refc_of at 1 in Hrc.
  pose proof (occ_nonneg b (old_meta v)). pose proof (occ_nonneg b (dropped v)).
  unfold dropped_maps. rewrite drop_refs_count; cbn [snd].
  - rewrite Hrc, occ_app. lia.
  - done.
  - rewrite Hrc, occ_app. case_decide as Hin; [|lia]. destruct Hf as [_ Hfr]. rewrite Forall_forall in Hfr. destruct (Hfr b Hin). lia.
Qed.

Lemma credit_free v l b : credit v l → is_free v b → occ b l = 0 ∧ occ b (old_meta v) = 0 ∧ occ b (dropped v) = 0.
Proof.
  intros [Hs _ _] [_ Hr]. specialize (Hs b). unfold slack in Hs.
  pose proof (occ_nonneg b l). pose proof (occ_nonneg b (old_meta v)). pose proof (occ_nonneg b (dropped v)). lia.
Qed.

Lemma occ_range v b l : Forall (λ b, 2 ≤ b < v_nblocks v) l → ¬ 2 ≤ b < v_nblocks v → occ b l = 0.
Proof.
  intros Hl Hb. pose proof (occ_nonneg b l). destruct (decide (0 < occ b l)) as [Ho%occ_elem|]; [|lia].
  rewrite Forall_forall in Hl. by destruct (Hb (Hl b Ho)).
Qed.

(** Enough for the new metadata and all data. *)
Lemma dropped_enough v A b :
  maps_typed v → v_nblocks v ≤ MAX_BLOCKS → fresh v A → refs_ok v →
  occ b (A ++ all_data (used_inodes v)) ≤ default 0 ((dropped_maps v A).2 !! Z.to_nat b).
Proof.
  intros Hm Hn Hf Hr. pose proof Hf as [Hnd Hfr]. pose proof (cr_range _ _ Hr) as Hrg. rewrite Forall_forall in Hfr.
  rewrite occ_app. destruct (decide (2 ≤ b < v_nblocks v)) as [Hb|Hb].
  - rewrite dropped_refc by done. pose proof (cr_slack _ _ Hr b) as Hs. unfold slack in Hs. case_decide as Hin.
    + destruct (credit_free _ _ _ Hr (Hfr b Hin)) as (E1 & E2 & E3). pose proof (occ_nodup b A Hnd). lia.
    + rewrite occ_elem in Hin. pose proof (occ_nonneg b A). lia.
  - assert (HA : Forall (λ b, 2 ≤ b < v_nblocks v) A) by (apply Forall_forall; intros x Hx; by destruct (Hfr x Hx)).
    apply Forall_app in Hrg as [_ Hrg]. apply Forall_app in Hrg as [_ Hrg].
    rewrite (occ_range v b A), (occ_range v b (all_data (used_inodes v))) by done.
    destruct (dropped_maps_shape v A Hm) as (_ & _ & _ & Hby).
    destruct ((dropped_maps v A).2 !! Z.to_nat b) as [r|] eqn:E; cbn; [|lia].
    apply (Forall_lookup_1 _ _ _ _ Hby) in E. unfold is_byte in E. lia.
Qed.

Lemma rooted_inos inodes roots : length inodes = length roots →
  map i_ino (filter (λ r, i_used r = true) (rooted inodes roots)) = map i_ino (filter (λ r, i_used r = true) inodes).
Proof.
  revert roots. induction inodes as [|r l IH]; intros [|root roots] Hl; [done..|]. injection Hl as Hl.
  unfold rooted. cbn [zip_with]. fold (rooted l roots). destruct (with_root_same r root) as (Hu & Hi & _).
  rewrite !filter_cons. destruct (i_used r) eqn:E.
  - rewrite !decide_True by (done || exact Hu). cbn [map]. f_equal; [exact Hi|by apply IH].
  - rewrite !decide_False by congruence. by apply IH.
Qed.

Section committed.
Context (v v1 : Vol) (A : list Z) (W : wlist) (abuf sbuf : list Z) (iroot abno g : Z) (ikids : list Z) (rs : list Inode)
  (T : list (Z * list Z * list Dent)).
Hypothesis Hok : vol_ok v.
Hypothesis Hnames : names_ok v.
Hypothesis Hrefs : refs_ok v.
Hypothesis Hnew : new_image v A W abuf sbuf iroot v1 ikids rs T abno g.
Local Abbreviation sb := (super_of (next_vol v1 g iroot abno)).

(** The entries on disk, in the inode tree's order. *)
Lemma sorted_entries P :
  (∀ b x, (b, x) ∈ W → P b x) →
  ∃ T', Forall2 (rec_dir g P) rs T' ∧ concat (map snd T') ≡ₚ used_dents v ∧
    concat (zip_with rec_meta rs T') ≡ₚ all_blocks T.
Proof using Hok Hnames Hnew.
  intros HP. pose proof (ni_tree _ _ _ _ _ _ _ _ _ _ _ _ Hnew) as (_ & _ & Hv1 & Hd & _ & Hrs & _).
  assert (Hl : Forall2 (dir_entry v g P) (v_inodes v) T).
  { eapply Forall2_impl; [exact Hd|]. intros r t. by apply dir_entry_mono. }
  pose proof (vk_tables _ Hok) as Ht. set (es := entries (v_inodes v) T).
  pose proof (entries_rec_dir v g P Ht _ _ Hl) as Hrec. fold es in Hrec.
  assert (Hfst : filter (λ r, i_used r = true) (v_inodes v1) = map fst (filter (λ e, entry_used e = true) es)).
  { rewrite Hv1. cbn [v_inodes set_inodes]. rewrite <-entries_fst. fold es. clear. induction es as [|e es IH]; [done|].
    cbn [map]. rewrite !filter_cons. destruct (i_used e.1) eqn:E.
    - rewrite !decide_True by (done || exact E). cbn [map]. by rewrite IH.
    - rewrite !decide_False by (done || unfold entry_used; congruence). done. }
  rewrite Hfst in Hrs. apply Permutation_map_inv in Hrs as (es' & -> & Hp).
  assert (Hc : ∀ {X} (f : entry → list X), (∀ e, rec_dir g P e.1 e.2 → entry_used e = false → f e = []) →
    concat (map f es') ≡ₚ concat (map f es)).
  { intros X f Hf. rewrite <-(concat_used g P f es) by done. apply concat_perm. by rewrite <-Hp. }
  exists (map snd es'). split_and!.
  - apply Forall2_fmap, Forall_Forall2_diag. apply Forall_forall. intros e He. rewrite <-Hp in He.
    apply list_elem_of_filter in He as [_ He]. rewrite Forall_forall in Hrec. by apply (Hrec e).
  - rewrite map_map, (Hc _ (λ e, e.2.2)) by (intros e He Hu; by apply (unused_empty g P)).
    unfold es. rewrite (entries_dents v g P Ht _ _ Hl), split_by_dir by (apply dirs_nodup; exact (fo_inos _ _ _ _ Hnames)).
    rewrite (filter_same _ (λ de, d_used de = true)); [done|]. intros de Hde. split; [by intros [? _]|]. intros Hu. split; [done|].
    destruct (fo_parents _ _ _ _ Hnames de) as (r & Hr & Hdir & Hpar); [by apply list_elem_of_filter|].
    apply list_elem_of_filter in Hr as [_ Hr]. apply list_elem_of_fmap. exists r. split; [by symmetry|by apply list_elem_of_filter].
  - rewrite <-(entries_blocks v g P Ht _ _ Hl). fold es. rewrite <-(Hc _ (λ e, rec_meta e.1 e.2)) by (intros e He Hu; by apply (unused_empty g P)).
    assert (zip_with rec_meta (map fst es') (map snd es') = map (λ e, rec_meta e.1 e.2) es') as ->; [|done].
    clear. induction es' as [|e es' IH]; cbn; [done|by rewrite IH].
Qed.

Lemma rs_loads : Forall inode_loads rs.
Proof using Hok Hnew.
  clear Hnames Hrefs. pose proof (ni_tree _ _ _ _ _ _ _ _ _ _ _ _ Hnew) as (HA & _ & Hv1 & Hd & _ & Hrs & _).
  pose proof (vk_tables _ Hok) as Ht.
  assert (Hsub : all_blocks T ⊆ A) by (rewrite HA; set_solver).
  destruct (rooted_typed v (proj2 (su_nblocks _ (vk_super _ Hok))) A W g (v_inodes v) T (ni_fresh _ _ _ _ _ _ _ _ _ _ _ _ Hnew) Hd Hsub (tt_inodes_ok _ Ht)
    (tt_inodes_valid _ Ht)) as [Hty Hva].
  apply Forall_forall. intros r Hr. rewrite Hrs in Hr. apply list_elem_of_filter in Hr as [Hu Hr].
  rewrite Hv1 in Hr. cbn [v_inodes set_inodes] in Hr. rewrite Forall_forall in Hty. split_and!; auto.
Qed.

Lemma new_block_u32 b : b ∈ A → u32 b.
Proof using Hok Hnew.
  clear Hnames Hrefs. intros Hb. pose proof (ni_fresh _ _ _ _ _ _ _ _ _ _ _ _ Hnew) as [_ Hfr].
  rewrite Forall_forall in Hfr. destruct (Hfr b Hb) as [? _]. pose proof (su_nblocks _ (vk_super _ Hok)) as Hn.
  change MAX_BLOCKS with 1024 in Hn. unfold in_width. lia.
Qed.

Lemma next_typed : super_typed (next_vol v1 g iroot abno).
Proof using Hok Hnew.
  clear Hnames Hrefs. pose proof (ni_gen64 _ _ _ _ _ _ _ _ _ _ _ _ Hnew) as Hg. pose proof (ni_tree _ _ _ _ _ _ _ _ _ _ _ _ Hnew) as (HA & _ & Hv1 & _ & Hit & _).
  pose proof (ni_gen _ _ _ _ _ _ _ _ _ _ _ _ Hnew) as Hgen. pose proof (vk_super _ Hok) as Hsu.
  pose proof (su_generation _ Hsu) as Hg0.
  assert (u32 iroot) by (apply new_block_u32; rewrite HA; right; apply elem_of_app; left; by eapply root_in_blocks).
  assert (u32 abno) by (apply new_block_u32; rewrite HA; left).
  rewrite Hv1. destruct Hsu. split; try assumption. unfold in_width in *. cbn. lia.
Qed.

Lemma rs_unrooted : map unrooted rs ≡ₚ map unrooted (used_inodes v).
Proof using Hnew.
  clear Hok Hnames Hrefs. pose proof (ni_tree _ _ _ _ _ _ _ _ _ _ _ _ Hnew) as (_ & _ & Hv1 & Hd & _ & Hrs & _).
  rewrite Hrs, Hv1. cbn [v_inodes set_inodes]. rewrite rooted_unrooted; [done|]. rewrite length_map. by apply Forall2_length in Hd.
Qed.

Theorem new_image_image m :
  (∀ b x, (b, x) ∈ W ++ [(abno, abuf)] → m b = x) →
  ∃ T', image m sb (dropped_maps v A) ikids rs T' ∧ image_meta sb ikids rs T' ≡ₚ A ∧
    concat (map snd T') ≡ₚ used_dents v.
Proof using Hok Hnames Hrefs Hnew.
  intros Hm. pose proof (ni_tree _ _ _ _ _ _ _ _ _ _ _ _ Hnew) as (HA & HW & Hv1 & Hd & Hit & Hrs & _).
  pose proof (vk_super _ Hok) as Hsu. pose proof (vk_tables _ Hok) as Ht. pose proof (vk_maps _ Hok) as Hmt.
  pose proof (ni_fresh _ _ _ _ _ _ _ _ _ _ _ _ Hnew) as [_ Hfr].
  set (P := stored (v_nblocks v) m).
  assert (Hst : ∀ b x, (b, x) ∈ W ++ [(abno, abuf)] → P b x).
  { intros b x Hb. split; [|by apply Hm]. rewrite Forall_forall in Hfr. apply (Hfr b). rewrite HA.
    apply elem_of_app in Hb as [Hb|Hb%list_elem_of_singleton]; [|injection Hb as -> ->; left]. right.
    rewrite <-HW. apply list_elem_of_fmap. by exists (b, x). }
  destruct (sorted_entries P) as (T' & Hdirs & Hde & Hme); [intros b x Hb; apply Hst, elem_of_app; by left|].
  assert (Hmeta : image_meta sb ikids rs T' ≡ₚ A).
  { unfold image_meta. change (sb_alloc_root sb) with abno. change (sb_inode_root sb) with iroot.
    rewrite HA, Hme. by rewrite (tree_meta_perm _ _ _ _ _ _ Hit). }
  assert (Hnb : sb_nblocks sb = v_nblocks v) by (rewrite Hv1; done).
  exists T'. split_and!; [|done|done]. split; rewrite ?Hnb.
  - exists (next_vol v1 g iroot abno). split_and!; [done|exact next_typed|]. rewrite Hv1. exact (vk_snaps _ Hok).
  - exists abuf. split; [apply Hst, elem_of_app; right; by left|]. exact (ni_alloc _ _ _ _ _ _ _ _ _ _ _ _ Hnew).
  - by apply dropped_maps_shape.
  - by apply dropped_maps_shape.
  - by apply dropped_maps_shape.
  - eapply tree_mono; [|exact Hit]. intros b x Hb. apply Hst, elem_of_app. by left.
  - exact rs_loads.
  - rewrite (zlen_perm _ _ Hrs). pose proof (length_filter_zlen (λ r, i_used r = true) (v_inodes v1)) as Hlf.
    assert (zlen (v_inodes v1) ≤ 64) as Hl64; [|change MAX_INODES with 64; lia].
    rewrite Hv1. cbn [v_inodes set_inodes]. unfold zlen, rooted. rewrite length_zip_with, (tt_inodes _ Ht). lia.
  - exact Hdirs.
  - rewrite (zlen_perm _ _ Hde). pose proof (length_filter_zlen (λ de, d_used de = true) (v_dents v)) as Hlf.
    change MAX_DENTS with 96. unfold zlen in *. rewrite (tt_dents _ Ht) in Hlf. lia.
  - rewrite (zlen_perm _ _ Hmeta). exact (ni_fit _ _ _ _ _ _ _ _ _ _ _ _ Hnew).
  - eapply files_ok_perm; [exact rs_unrooted|exact Hde|]. rewrite Hv1. exact Hnames.
  - intros b. rewrite (occ_perm b _ (A ++ all_data (used_inodes v))) by (rewrite Hmeta; f_equiv; apply all_data_perm, rs_unrooted).
    apply dropped_enough; [done|exact (proj2 (su_nblocks _ Hsu))|exact (ni_fresh _ _ _ _ _ _ _ _ _ _ _ _ Hnew)|done].
  - pose proof (cr_range _ _ Hrefs) as Hrg. apply Forall_app in Hrg as [_ Hrg]. apply Forall_app in Hrg as [_ Hrg].
    by rewrite (all_data_perm rs (used_inodes v) rs_unrooted).
Qed.
End committed.
