(* ===== verification/VibefsDurable.v ===== *)
(** * vibefs: durable state

    When the blocks on disk hold the last state a volume committed, what mount
    reads from them, and that a commit that succeeds leaves its own state there. *)

From stdpp Require Import base strings numbers gmap list sorting.
From S2P Require Import Prelude Bytes Crc Buf FsError Vibefs VibefsCommit VibefsLayout VibefsSort VibefsVol.
From S2P Require Import VibefsBlocks VibefsDisk VibefsTree VibefsInodeTree VibefsProtocol VibefsFiles VibefsMount VibefsImage.
Import VibefsCommit.

Local Open Scope Z_scope.

(** ** The live superblock *)

(** Slot [g mod 2] holds [sb], of generation [g]; the other slot holds nothing, an
    older superblock, or the same one. *)
Record live_super (m : blocks) (sb : SuperInfo) : Prop := {
  ls_slot : parse_super (m (sb_generation sb mod 2)) (sb_generation sb mod 2) = Ret (inl sb);
  ls_other : ∀ s, parse_super (m ((sb_generation sb + 1) mod 2)) ((sb_generation sb + 1) mod 2) = Ret (inl s) →
    sb_generation s < sb_generation sb ∨ s = sb;
  ls_len : zlen (m 0) = BLOCK ∧ zlen (m 1) = BLOCK;
}.

Lemma parity g : g mod 2 = 0 ∧ (g + 1) mod 2 = 1 ∨ g mod 2 = 1 ∧ (g + 1) mod 2 = 0.
Proof. dlia. Qed.

Lemma live_pick m sb : live_super m sb →
  ∃ p0 p1, parse_super (m 0) 0 = Ret p0 ∧ parse_super (m 1) 1 = Ret p1 ∧ pick p0 p1 = inl sb.
Proof.
  intros [Hs Ho [Hl0 Hl1]]. destruct (parse_super_total (m 0) 0 Hl0) as [p0 H0], (parse_super_total (m 1) 1 Hl1) as [p1 H1].
  exists p0, p1. split_and!; [done|done|].
  destruct (parity (sb_generation sb)) as [[E0 E1]|[E1 E0]]; rewrite E0, E1 in *.
  - rewrite H0 in Hs. injection Hs as ->. destruct p1 as [s|e]; [|done]. cbn [pick].
    destruct (Ho s H1) as [Hlt| ->]; [|by destruct (_ <? _)]. by rewrite (proj2 (Z.ltb_ge _ _)) by lia.
  - rewrite H1 in Hs. injection Hs as ->. destruct p0 as [s|e]; [|done]. cbn [pick].
    destruct (Ho s H0) as [Hlt| ->]; [|by destruct (_ <? _)]. by rewrite (proj2 (Z.ltb_lt _ _)) by lia.
Qed.

(** ** A mounted volume *)
Lemma tree_meta_range {R} (leaf_ok : list Z → list R → Prop) int_ok nb m root kids rs b :
  tree leaf_ok int_ok (stored nb m) root kids rs → b ∈ tree_meta kids root → 2 ≤ b < nb.
Proof.
  intros Ht. pose proof (tree_root_stored _ _ _ _ _ _ _ Ht) as Hroot. destruct Ht as (chunks & _ & H2 & _).
  assert (Hk : Forall (λ k, 2 ≤ k < nb) kids).
  { clear -H2. induction H2 as [|k c kids cs (x & [? _] & _) H2 IH]; [by apply Forall_nil|by apply Forall_cons]. }
  rewrite Forall_forall in Hk. unfold tree_meta. destruct (1 <? zlen kids).
  - intros [->|Hb]%elem_of_cons; [done|by apply Hk].
  - intros ->%list_elem_of_singleton. done.
Qed.

Lemma inode_empty_typed : inode_typed Inode_EMPTY.
Proof.
  split; try (by compute); [|apply Forall_replicate; unfold is_byte; lia].
  apply Forall_replicate. split; by compute.
Qed.
Lemma dent_empty_typed : dent_typed Dent_EMPTY.
Proof. split; try (by compute). apply Forall_replicate. unfold is_byte. lia. Qed.
Lemma Forall_padded {A} (p : A → Prop) n x l : Forall p l → p x → Forall p (padded n x l).
Proof. intros Hl Hx. apply Forall_app. split; [done|by apply Forall_replicate]. Qed.

Section mounted.
Context (m : blocks) (sb : SuperInfo) (maps : list Z * list Z) (ikids : list Z) (rs : list Inode) (T : list (list Z * list Dent)).
Hypothesis Him : image m sb maps ikids rs T.
Context (io : list Z).
Hypothesis Hio : zlen io = BLOCK.
Local Abbreviation vm := (mounted sb maps ikids rs T io).

Lemma mounted_super : super_of vm = sb.
Proof using. clear Him. by destruct sb. Qed.

Lemma filter_padded {A} (p : A → Prop) `{!∀ x, Decision (p x)} n x l :
  Forall p l → ¬ p x → filter p (padded n x l) = l.
Proof using.
  intros Hl Hx. unfold padded. rewrite filter_app.
  assert (filter p l = l) as -> by (clear -Hl; induction Hl; [done|]; rewrite filter_cons_True by done; by f_equal).
  replace (filter p (replicate _ x)) with (@nil A); [by rewrite app_nil_r|].
  generalize (n - length l)%nat. clear -Hx. intros k. induction k as [|k IH]; [done|]. cbn [replicate]. by rewrite filter_cons_False.
Qed.

Lemma mounted_inodes : used_inodes vm = rs.
Proof using Him.
  change (v_inodes vm) with (padded 64 Inode_EMPTY rs). apply filter_padded; [|done].
  eapply Forall_impl; [exact (im_loads _ _ _ _ _ _ Him)|]. by intros r (_ & _ & ?).
Qed.

Lemma image_dents_load : Forall (λ de, ∃ r, r ∈ rs ∧ is_dir r = true ∧ dent_loads (i_ino r) de) (concat (map snd T)).
Proof using Him.
  pose proof (im_dirs _ _ _ _ _ _ Him) as Hd. clear -Hd. induction Hd as [|r [kids ds] rs T Hr H2 IH]; [by apply Forall_nil|]. cbn [map concat snd].
  apply Forall_app. split.
  - unfold rec_dir in Hr. destruct (is_dir r) eqn:E; [|destruct Hr as [_ ->]; by apply Forall_nil].
    destruct Hr as [_ Hr]. eapply Forall_impl; [exact Hr|]. intros de Hde. exists r. split_and!; [left|done|done].
  - eapply Forall_impl; [exact IH|]. intros de (r' & ? & ?). exists r'. split; [by right|done].
Qed.

Lemma mounted_dents : used_dents vm = concat (map snd T).
Proof using Him.
  change (v_dents vm) with (padded 96 Dent_EMPTY (concat (map snd T))). apply filter_padded; [|done].
  eapply Forall_impl; [exact image_dents_load|]. by intros de (r & _ & _ & _ & _ & ? & _).
Qed.

Lemma mounted_meta : old_meta vm = image_meta sb ikids rs T ∧ dropped vm = [].
Proof using.
  split; [|done]. unfold old_meta. change (v_nmeta vm) with (zlen (image_meta sb ikids rs T)).
  change (v_meta vm) with (padded 73 0 (image_meta sb ikids rs T)). unfold padded, zlen. by rewrite Nat2Z.id, take_app_length.
Qed.

Lemma mounted_refc b : 0 ≤ b < sb_nblocks sb → refc_of vm b = default 0 (maps.2 !! Z.to_nat b).
Proof using Him.
  clear Hio. intros Hb. pose proof (im_refc _ _ _ _ _ _ Him) as Hl. pose proof (image_nblocks _ _ _ _ _ _ Him) as Hn.
  change MAX_BLOCKS with 1024 in Hn. unfold refc_of. f_equal.
  change (v_refc vm) with (padded 1024 0 (take (Z.to_nat (sb_nblocks sb)) maps.2)). unfold padded.
  rewrite lookup_app_l by (rewrite length_take; lia). apply lookup_take_lt. lia.
Qed.

Lemma bytes_padded n l : bytes_ok l → bytes_ok (padded n 0 l).
Proof using.
  intros Hl. apply Forall_app. split; [done|]. apply Forall_replicate. unfold is_byte. lia.
Qed.
Lemma length_padded {A} n (x : A) l : (length l ≤ n)%nat → length (padded n x l) = n.
Proof using. intros. unfold padded. rewrite length_app, length_replicate. lia. Qed.

Lemma mounted_ok : vol_ok vm.
Proof using Him Hio.
  pose proof (image_nblocks _ _ _ _ _ _ Him) as Hn. change MIN_BLOCKS with 16 in Hn. change MAX_BLOCKS with 1024 in Hn.
  destruct (div_ceil_8 (sb_nblocks sb) ltac:(lia)) as [_ Hd]. pose proof Him as
    [im_super0 im_alloc0 im_bitmap0 im_refc0 im_maps0 im_inodes0 im_loads0 im_inodes_fit0 im_dirs0 im_dents_fit0 im_meta_fit0 im_files0 im_refs0 im_range0].
  split.
  - destruct im_super0 as (v & Hsb & [] & _). split; rewrite ?Hsb; done.
  - destruct im_super0 as (v & Hsb & _ & Hp). change (v_snaps vm) with (sb_snaps sb). by rewrite Hsb.
  - destruct im_maps0 as [Hb1 Hb2]. split.
    + apply length_padded. rewrite length_take. lia.
    + apply bytes_padded. by apply Forall_take.
    + apply length_padded. rewrite length_take. lia.
    + apply bytes_padded. by apply Forall_take.
    + done.
    + apply Forall_replicate. by compute.
  - change MAX_INODES with 64 in *. change MAX_DENTS with 96 in *.
    change (v_inodes vm) with (padded 64 Inode_EMPTY rs). change (v_dents vm) with (padded 96 Dent_EMPTY (concat (map snd T))).
    pose proof image_dents_load as Hde. rewrite Forall_forall in im_loads0. rewrite Forall_forall in Hde. split.
    + apply length_padded. zlia.
    + apply Forall_padded; [|exact inode_empty_typed]. apply Forall_forall. intros r Hr. by apply im_loads0.
    + intros r [Hr|[-> _]%elem_of_replicate]%elem_of_app; [|done]. intros _. by apply im_loads0.
    + apply length_padded. zlia.
    + apply Forall_padded; [|exact dent_empty_typed]. apply Forall_forall. intros de Hd'. by destruct (Hde de Hd') as (r & _ & _ & ? & _).
    + intros de [Hd'|[-> _]%elem_of_replicate]%elem_of_app; [|done]. intros _. by destruct (Hde de Hd') as (r & _ & _ & _ & ? & _).
  - change MAX_META with 73 in *. split; try done.
    + apply length_padded. zlia.
Qed.

Lemma mounted_names : names_ok vm.
Proof using Him.
  unfold names_ok. rewrite mounted_inodes, mounted_dents. exact (im_files _ _ _ _ _ _ Him).
Qed.

Lemma image_meta_range b : b ∈ image_meta sb ikids rs T → 2 ≤ b < sb_nblocks sb.
Proof using Him.
  unfold image_meta. intros [->|[Hb|Hb]%elem_of_app]%elem_of_cons.
  - by destruct (im_alloc _ _ _ _ _ _ Him) as (x & [? _] & _).
  - by eapply tree_meta_range, Hb; apply (im_inodes _ _ _ _ _ _ Him).
  - pose proof (im_dirs _ _ _ _ _ _ Him) as Hd. clear -Hd Hb. induction Hd as [|r [kids ds] rs T Hr H2 IH]; cbn [zip_with concat] in Hb.
    { by apply elem_of_nil in Hb. }
    apply elem_of_app in Hb as [Hb|Hb]; [|by apply IH]. unfold rec_dir, rec_meta in *. cbn [fst snd] in Hb.
    destruct (is_dir r); [|destruct Hr as [_ ->]; by apply elem_of_nil in Hb].
    destruct Hr as [[(-> & _)|(Hne & Ht)] _]; [by apply elem_of_nil in Hb|]. destruct ds; [done|]. by eapply tree_meta_range.
Qed.

Lemma mounted_held b : occ b (image_meta sb ikids rs T ++ all_data rs) ≤ refc_of vm b.
Proof using Him.
  clear Hio. destruct (decide (2 ≤ b < sb_nblocks sb)) as [Hb|Hb].
  - rewrite mounted_refc by lia. apply (im_refs _ _ _ _ _ _ Him).
  - assert (Hr : Forall (λ b, 2 ≤ b < sb_nblocks sb) (image_meta sb ikids rs T ++ all_data rs)).
    { apply Forall_app. split; [|exact (im_range _ _ _ _ _ _ Him)]. apply Forall_forall. intros x. apply image_meta_range. }
    rewrite (occ_range vm b _ Hr Hb). pose proof (im_maps _ _ _ _ _ _ Him) as [_ Hm]. unfold refc_of.
    change (v_refc vm) with (padded 1024 0 (take (Z.to_nat (sb_nblocks sb)) maps.2)).
    destruct (_ !! Z.to_nat b) as [r|] eqn:E; cbn; [|lia]. assert (is_byte r) as [? _]; [|done].
    eapply (Forall_lookup_1 _ _ _ _ (bytes_padded 1024 _ (Forall_take _ _ _ Hm)) E).
Qed.

Lemma mounted_txn b : txn_of vm b = false.
Proof using.
  clear Him Hio. unfold txn_of. change (v_txn vm) with (replicate 128 0). destruct (replicate 128 0 !! Z.to_nat (b / 8)) as [x|] eqn:E; cbn.
  - apply lookup_replicate in E as [-> _]. apply Z.bits_0.
  - apply Z.bits_0.
Qed.

Lemma mounted_kept : Forall (λ b, 0 < refc_of vm b ∧ txn_of vm b = false) (image_meta sb ikids rs T ++ all_data rs).
Proof using Him.
  clear Hio. apply Forall_forall. intros b Hb. split; [|apply mounted_txn]. apply occ_elem in Hb. pose proof (mounted_held b). lia.
Qed.

Lemma mounted_refs : refs_ok vm.
Proof using Him.
  clear Hio. unfold refs_ok. rewrite mounted_inodes. destruct mounted_meta as [Em Ed]. split.
  - intros b. unfold slack. rewrite Em, Ed, occ_nil. pose proof (mounted_held b) as Hh. rewrite occ_app in Hh. lia.
  - rewrite Em, Ed. cbn [app]. apply Forall_app. split; [|exact (im_range _ _ _ _ _ _ Him)]. apply Forall_forall. intros x. apply image_meta_range.
  - intros b _. by rewrite mounted_txn.
Qed.
End mounted.

(** ** An image lies in its blocks *)
Lemma tree_agree {R} (leaf_ok : list Z → list R → Prop) int_ok (P P' : Z → list Z → Prop) root kids rs :
  tree leaf_ok int_ok P root kids rs → (∀ b x, b ∈ tree_meta kids root → P b x → P' b x) →
  tree leaf_ok int_ok P' root kids rs.
Proof.
  intros (chunks & -> & H2 & Hn & Hr) HP. exists chunks. split_and!; [done| |lia|lia|].
  - assert (Hk : ∀ b, b ∈ kids → b ∈ tree_meta kids root).
    { unfold tree_meta. destruct Hr as [->|[Hk _]]; [done|]. rewrite (proj2 (Z.ltb_lt _ _)) by done. intros b Hb. by right. }
    clear Hr Hn. revert Hk. generalize (tree_meta kids root) HP. clear HP. intros M HP Hk.
    induction H2 as [|b c kids cs (x & Hx & Hc) H2 IH]; constructor; [|apply IH; set_solver].
    exists x. split; [|done]. apply HP; [|done]. apply Hk. left.
  - destruct Hr as [->|(Hk & x & Hx & Hi)]; [by left|right]. split; [done|]. exists x. split; [|done]. apply HP; [|done].
    unfold tree_meta. rewrite (proj2 (Z.ltb_lt _ _)) by done. left.
Qed.

Lemma image_agree m m' sb maps ikids rs T :
  image m sb maps ikids rs T → (∀ b, b ∈ image_meta sb ikids rs T → m' b = m b) → image m' sb maps ikids rs T.
Proof.
  intros Him Hag. pose proof Him as
    [im_super0 im_alloc0 im_bitmap0 im_refc0 im_maps0 im_inodes0 im_loads0 im_inodes_fit0 im_dirs0 im_dents_fit0 im_meta_fit0 im_files0 im_refs0 im_range0].
  assert (Hst : ∀ b x, b ∈ image_meta sb ikids rs T → stored (sb_nblocks sb) m b x → stored (sb_nblocks sb) m' b x).
  { intros b x Hb [Hr Hx]. split; [done|]. by rewrite Hag. }
  split; try done.
  - destruct im_alloc0 as (x & Hx & Hs). exists x. split; [|done]. apply Hst; [left|done].
  - eapply tree_agree; [done|]. intros b x Hb. apply Hst. right. apply elem_of_app. by left.
  - assert (Hsub : concat (zip_with rec_meta rs T) ⊆ image_meta sb ikids rs T) by (unfold image_meta; set_solver).
    clear -im_dirs0 Hst Hsub. revert Hst Hsub. generalize (image_meta sb ikids rs T). intros M Hst Hsub.
    induction im_dirs0 as [|r [kids ds] rs T Hr H2 IH]; constructor; cbn [zip_with concat] in Hsub; [|apply IH; set_solver].
    unfold rec_dir in *. destruct (is_dir r); [|done]. destruct Hr as [[Hr|(Hne & Ht)] Hl]; (split; [|done]); [by left|right].
    split; [done|]. eapply tree_agree; [exact Ht|]. intros b x Hb. apply Hst, Hsub, elem_of_app. left.
    unfold rec_meta. cbn [fst snd]. by destruct ds.
Qed.

(** ** Durable state

    The disk holds the image of generation [v_generation v], and [v] still
    references every block of it and of the files in it, none of them as a block
    allocated since. *)
Record durable (v : Vol) (m : blocks) (sb : SuperInfo) (maps : list Z * list Z) (ikids : list Z) (rs : list Inode)
    (T : list (list Z * list Dent)) : Prop := {
  du_live : live_super m sb;
  du_image : image m sb maps ikids rs T;
  du_gen : sb_generation sb = v_generation v;
  du_nblocks : sb_nblocks sb = v_nblocks v;
  du_kept : Forall (λ b, 0 < refc_of v b ∧ txn_of v b = false) (image_meta sb ikids rs T ++ all_data rs);
}.

(** The invariant of a volume in memory. *)
Record fs_ok (v : Vol) : Prop := {
  fk_vol : vol_ok v;
  fk_names : names_ok v;
  fk_refs : refs_ok v;
}.

Lemma mounted_durable m sb maps ikids rs T io :
  zlen io = BLOCK → live_super m sb → image m sb maps ikids rs T →
  fs_ok (mounted sb maps ikids rs T io) ∧ durable (mounted sb maps ikids rs T io) m sb maps ikids rs T.
Proof.
  intros Hio Hl Him. split; split; try done.
  - by eapply mounted_ok.
  - by eapply mounted_names.
  - by eapply mounted_refs.
  - by eapply mounted_kept.
Qed.

(** A medium that differs only in blocks the volume does not reference, and perhaps
    in the other slot, where nothing newer parses. *)
Lemma durable_agree v m m' sb maps ikids rs T :
  let g := v_generation v in
  durable v m sb maps ikids rs T →
  (∀ b, 2 ≤ b → 0 < refc_of v b → m' b = m b) → m' (g mod 2) = m (g mod 2) →
  zlen (m' ((g + 1) mod 2)) = BLOCK →
  m' ((g + 1) mod 2) = m ((g + 1) mod 2) ∨ (∃ e, parse_super (m' ((g + 1) mod 2)) ((g + 1) mod 2) = Ret (inr e)) →
  durable v m' sb maps ikids rs T.
Proof.
  intros g [Hl Him Hg Hn Hk] Hag Hs Hlen Ho. subst g. split; try done.
  - destruct Hl as [Hp Hp' [Hl0 Hl1]]. rewrite Hg in *. split; rewrite ?Hg.
    + by rewrite Hs.
    + intros s Hps. destruct Ho as [Ho|(e & Ho)]; [rewrite Ho in Hps; by apply Hp'|congruence].
    + destruct (parity (v_generation v)) as [[E0 E1]|[E1 E0]]; rewrite E0, E1 in *; by rewrite Hs.
  - apply (image_agree m); [done|]. intros b Hb. pose proof (image_meta_range _ _ _ _ _ _ Him b Hb). apply Hag; [lia|].
    rewrite Forall_forall in Hk. apply Hk, elem_of_app. by left.
Qed.

(** ** After a commit *)
Section after.
Context (v v1 : Vol) (A : list Z) (W : wlist) (abuf sbuf : list Z) (iroot abno g : Z) (ikids : list Z) (rs : list Inode)
  (T : list (Z * list Z * list Dent)).
Hypothesis Hfs : fs_ok v.
Hypothesis Hnew : new_image v A W abuf sbuf iroot v1 ikids rs T abno g.
Local Abbreviation maps := (dropped_maps v A).
Local Abbreviation v' := (committed_vol v1 A maps g iroot abno sbuf).
Local Abbreviation sb' := (super_of (next_vol v1 g iroot abno)).

Lemma committed_super : super_of v' = sb'.
Proof using. unfold committed_vol. destruct (alloced_shape v1 A) as (? & ? & ? & ->). done. Qed.
Lemma committed_inodes : v_inodes v' = v_inodes v1 ∧ v_dents v' = v_dents v1.
Proof using. unfold committed_vol. destruct (alloced_shape v1 A) as (? & ? & ? & ->). done. Qed.
Lemma committed_meta : old_meta v' = A ∧ dropped v' = [].
Proof using.
  split; [|done]. unfold old_meta. change (v_nmeta v') with (zlen A).
  change (v_meta v') with (A ++ drop (length A) (v_meta v1)). unfold zlen. by rewrite Nat2Z.id, take_app_length.
Qed.

Lemma committed_rooted : v_inodes v1 = rooted (v_inodes v) (map root_of T) ∧ v_dents v1 = v_dents v ∧
  length (v_inodes v) = length (map root_of T) ∧ v_root_ino v1 = v_root_ino v ∧ v_snaps v1 = v_snaps v ∧
  v_meta v1 = v_meta v ∧ v_drop v1 = v_drop v ∧ v_now v1 = v_now v ∧ v_nblocks v1 = v_nblocks v.
Proof using Hnew.
  clear Hfs. pose proof (ni_tree _ _ _ _ _ _ _ _ _ _ _ _ Hnew) as (_ & _ & -> & Hd & _). cbn. split_and!; try done.
  rewrite length_map. by apply Forall2_length in Hd.
Qed.

Lemma committed_vol_ok : vol_ok v'.
Proof using Hfs Hnew.
  pose proof (fk_vol _ Hfs) as Hok. destruct committed_rooted as (Hi & Hde & Hlr & _ & Hsn & Hme & Hdr & Hnow & _).
  pose proof (next_typed v v1 A W abuf sbuf iroot abno g ikids rs T Hok Hnew) as Hsu.
  pose proof (ni_tree _ _ _ _ _ _ _ _ _ _ _ _ Hnew) as (HA & _ & _ & Hd & _).
  destruct (dropped_maps_shape v A (vk_maps _ Hok)) as (Hb & Hr & Hb' & Hr').
  pose proof (vk_lists _ Hok) as [Lm _ Ld _ _ Ln]. pose proof (ni_fit _ _ _ _ _ _ _ _ _ _ _ _ Hnew) as H73.
  destruct committed_inodes as [Ei Ed]. split.
  - eapply super_frame; [..|exact Hsu]; unfold committed_vol; destruct (alloced_shape v1 A) as (? & ? & ? & ->); reflexivity.
  - pose proof (f_equal sb_snaps committed_super : v_snaps v' = v_snaps v1) as ->. rewrite Hsn. exact (vk_snaps _ Hok).
  - split; try done. apply Forall_replicate. by compute.
  - pose proof (vk_tables _ Hok) as Ht.
    assert (Hsub : all_blocks T ⊆ A) by (rewrite HA; set_solver).
    destruct (rooted_typed v (proj2 (su_nblocks _ (vk_super _ Hok))) A W g (v_inodes v) T (ni_fresh _ _ _ _ _ _ _ _ _ _ _ _ Hnew) Hd Hsub
      (tt_inodes_ok _ Ht) (tt_inodes_valid _ Ht)) as [Hty Hva].
    split; rewrite ?Ei, ?Ed, ?Hi, ?Hde; try done; try by destruct Ht.
    unfold rooted. rewrite length_zip_with, <-Hlr, (tt_inodes _ Ht). done.
  - assert (Hlists : v_drop v' = v_drop v1 ∧ v_now v' = v_now v1).
    { unfold committed_vol. destruct (alloced_shape v1 A) as (? & ? & ? & ->). done. }
    destruct Hlists as [E1 E2]. split.
    + change (v_meta v') with (A ++ drop (length A) (v_meta v1)). rewrite Hme. rewrite length_app, length_drop. unfold zlen in H73. lia.
    + change (v_nmeta v') with (zlen A). change MAX_META with 73. pose proof (zlen_nonneg A). lia.
    + by rewrite E1, Hdr.
    + done.
    + exact (ni_slen _ _ _ _ _ _ _ _ _ _ _ _ Hnew).
    + by rewrite E2, Hnow.
Qed.

Lemma committed_unrooted : map unrooted (used_inodes v') = map unrooted (used_inodes v).
Proof using Hnew.
  clear Hfs. destruct committed_rooted as (Hi & _ & Hlr & _). destruct committed_inodes as [Ei _]. rewrite Ei, Hi. by apply rooted_unrooted.
Qed.

Lemma committed_names : names_ok v'.
Proof using Hfs Hnew.
  destruct committed_rooted as (_ & Hde & _ & Hri & _). destruct committed_inodes as [_ Ed]. unfold names_ok.
  pose proof (f_equal sb_root_ino committed_super : v_root_ino v' = v_root_ino v1) as ->.
  pose proof (f_equal sb_next_ino committed_super : v_next_ino v' = v_next_ino v1) as ->. rewrite Ed, Hde, Hri.
  pose proof (ni_tree _ _ _ _ _ _ _ _ _ _ _ _ Hnew) as (_ & _ & Hv1 & _).
  replace (v_next_ino v1) with (v_next_ino v) by (by rewrite Hv1).
  eapply files_ok_perm; [|done|exact (fk_names _ Hfs)]. by rewrite committed_unrooted.
Qed.

Lemma committed_held b : occ b (A ++ all_data (used_inodes v')) ≤ refc_of v' b.
Proof using Hfs Hnew.
  rewrite (occ_perm b _ (A ++ all_data (used_inodes v))) by (f_equiv; apply all_data_perm; by rewrite committed_unrooted).
  unfold refc_of. change (v_refc v') with maps.2. pose proof (fk_vol _ Hfs) as Hok.
  apply dropped_enough; [exact (vk_maps _ Hok)|exact (proj2 (su_nblocks _ (vk_super _ Hok)))| |exact (fk_refs _ Hfs)].
  exact (ni_fresh _ _ _ _ _ _ _ _ _ _ _ _ Hnew).
Qed.

Lemma committed_txn b : txn_of v' b = false.
Proof using.
  unfold txn_of. change (v_txn v') with (replicate 128 0). destruct (replicate 128 0 !! Z.to_nat (b / 8)) as [x|] eqn:E; cbn.
  - apply lookup_replicate in E as [-> _]. apply Z.bits_0.
  - apply Z.bits_0.
Qed.

Lemma committed_kept : Forall (λ b, 0 < refc_of v' b ∧ txn_of v' b = false) (A ++ all_data (used_inodes v')).
Proof using Hfs Hnew.
  apply Forall_forall. intros b Hb. split; [apply occ_elem in Hb; pose proof (committed_held b); lia|apply committed_txn].
Qed.

Lemma committed_refs : refs_ok v'.
Proof using Hfs Hnew.
  destruct committed_meta as [Em Ed]. destruct committed_rooted as (_ & _ & _ & _ & _ & _ & _ & _ & Hnb).
  pose proof (f_equal sb_nblocks committed_super : v_nblocks v' = v_nblocks v1) as Hnv. split.
  - intros b. unfold slack. rewrite Em, Ed, occ_nil. pose proof (committed_held b) as Hh. rewrite occ_app in Hh. lia.
  - rewrite Em, Ed, Hnv, Hnb. cbn [app]. pose proof (cr_range _ _ (fk_refs _ Hfs)) as Hr.
    apply Forall_app in Hr as [_ Hr]. apply Forall_app in Hr as [_ Hr]. apply Forall_app. split.
    + pose proof (ni_fresh _ _ _ _ _ _ _ _ _ _ _ _ Hnew) as [_ Hf]. eapply Forall_impl; [exact Hf|]. by intros x [? _].
    + rewrite (all_data_perm (used_inodes v') (used_inodes v)); [done|]. by rewrite committed_unrooted.
  - intros b _. by rewrite committed_txn.
Qed.

Lemma committed_fs_ok : fs_ok v'.
Proof using Hfs Hnew. split; [exact committed_vol_ok|exact committed_names|exact committed_refs]. Qed.

(** On any medium that holds the new blocks, and in the other slot nothing newer
    than the volume was. *)
Lemma committed_durable m' :
  (∀ b x, (b, x) ∈ W ++ [(abno, abuf)] → m' b = x) → m' (g mod 2) = sbuf →
  (∀ s, parse_super (m' ((g + 1) mod 2)) ((g + 1) mod 2) = Ret (inl s) → sb_generation s < g) →
  zlen (m' ((g + 1) mod 2)) = BLOCK →
  ∃ T', durable v' m' sb' maps ikids rs T' ∧ image_meta sb' ikids rs T' ≡ₚ A ∧ concat (map snd T') ≡ₚ used_dents v' ∧
    rs ≡ₚ used_inodes v'.
Proof using Hfs Hnew.
  intros Hm Hs Ho Hl. pose proof (fk_vol _ Hfs) as Hok.
  destruct (new_image_image v v1 A W abuf sbuf iroot abno g ikids rs T Hok (fk_names _ Hfs) (fk_refs _ Hfs) Hnew m' Hm)
    as (T' & Him & Hmeta & Hde).
  destruct committed_rooted as (Hi & Ede & _ & _ & Hsn & _). destruct committed_inodes as [Ei Ed].
  pose proof (ni_tree _ _ _ _ _ _ _ _ _ _ _ _ Hnew) as (_ & _ & _ & _ & _ & Hrs & _).
  exists T'. split_and!; [|done|by rewrite Ed, Ede|by rewrite Ei]. split.
  - change (sb_generation sb') with g. split; change (sb_generation sb') with g.
    + rewrite Hs. apply parse_super_spec.
      * exact (ni_super _ _ _ _ _ _ _ _ _ _ _ _ Hnew).
      * exact (ni_crc _ _ _ _ _ _ _ _ _ _ _ _ Hnew).
      * exact (next_typed v v1 A W abuf sbuf iroot abno g ikids rs T Hok Hnew).
      * cbn. rewrite Hsn. exact (vk_snaps _ Hok).
    + intros s Hp. left. by apply Ho.
    + pose proof (ni_slen _ _ _ _ _ _ _ _ _ _ _ _ Hnew) as Hsl.
      destruct (parity g) as [[E0 E1]|[E1 E0]]; rewrite E0, E1 in *; by rewrite Hs.
  - exact Him.
  - by rewrite <-committed_super.
  - by rewrite <-committed_super.
  - rewrite Hmeta, (all_data_perm rs (used_inodes v')); [exact committed_kept|]. by rewrite Ei, Hrs.
Qed.
End after.
