(* ===== verification/VibefsSpace.v ===== *)
(** * vibefs: blocks and table slots taken and dropped (src/crates/core/src/fs/vibefs/vol.rs)

    The allocator's two operations against the references the tables hold:
    [alloc_block] grants a reference, [pending_drop] gives one back, and neither
    touches a block the last commit left referenced.  Then the inode and name
    tables: what their searches find, what an update of one slot does to the records
    in use, and the volume's names as a map from directory and name to inode
    number. *)

From stdpp Require Import base strings numbers gmap list sorting.
From S2P Require Import Prelude Bytes Crc Buf FsError Vibefs VibefsCommit VibefsOps VibefsLayout VibefsSort VibefsVol.
From S2P Require Import VibefsBlocks VibefsDisk VibefsTree VibefsInodeTree VibefsProtocol VibefsFiles VibefsMount VibefsImage VibefsDurable.
Import VibefsOps.

Local Open Scope Z_scope.

(** ** Bits *)
Definition bit_off (m : list Z) (i : Z) : list Z :=
  alter (λ x, Z.land x (notw 8 (Z.shiftl 1 (i mod 8)))) (Z.to_nat (i / 8)) m.
Definition bit_at (m : list Z) (b : Z) : bool := Z.testbit (default 0 (m !! Z.to_nat (b / 8))) (b mod 8).

Lemma notw_bit i k : 0 ≤ i < 8 → 0 ≤ k < 8 → Z.testbit (notw 8 (Z.shiftl 1 i)) k = negb (bool_decide (k = i)).
Proof.
  intros Hi Hk. assert (Hc : ∀ i k, (i < 8)%nat → (k < 8)%nat →
    Z.testbit (notw 8 (Z.shiftl 1 (Z.of_nat i))) (Z.of_nat k) = negb (bool_decide (Z.of_nat k = Z.of_nat i))).
  { clear. intros i k Hi Hk. do 8 (destruct i as [|i]; [do 8 (destruct k as [|k]; [reflexivity|]); lia|]). lia. }
  specialize (Hc (Z.to_nat i) (Z.to_nat k)). rewrite !Z2Nat.id in Hc by lia. apply Hc; lia.
Qed.

Lemma bit_pos b b' : 0 ≤ b → 0 ≤ b' → b / 8 = b' / 8 → b mod 8 = b' mod 8 → b = b'.
Proof. intros. dlia. Qed.

Lemma bit_at_on m i b : 0 ≤ i < 8 * zlen m → 0 ≤ b → bit_at (bit_on m i) b = if decide (b = i) then true else bit_at m b.
Proof.
  intros Hi Hb. unfold bit_at, bit_on. destruct (decide (Z.to_nat (b / 8) = Z.to_nat (i / 8))) as [E|E].
  - rewrite E, list_lookup_alter_eq.
    destruct (lookup_lt_is_Some_2 m (Z.to_nat (i / 8))) as [x Hx]; [unfold zlen in *; dlia|]. rewrite Hx. cbn [fmap option_fmap option_map from_option id].
    rewrite Z.lor_spec, Z.shiftl_1_l, Z.pow2_bits_eqb by dlia. case_decide as Eb; [subst; by rewrite Z.eqb_refl, orb_true_r|].
    destruct (Z.eqb_spec (i mod 8) (b mod 8)); [|by rewrite orb_false_r]. destruct Eb. apply bit_pos; [lia|lia|dlia|lia].
  - rewrite list_lookup_alter_ne by done. case_decide as Eb; [by subst|done].
Qed.
Lemma bit_at_off m i b : 0 ≤ i → 0 ≤ b → bit_at (bit_off m i) b = if decide (b = i) then false else bit_at m b.
Proof.
  intros Hi Hb. unfold bit_at, bit_off. destruct (decide (Z.to_nat (b / 8) = Z.to_nat (i / 8))) as [E|E].
  - rewrite E, list_lookup_alter_eq. destruct (m !! Z.to_nat (i / 8)) as [x|]; cbn [fmap option_fmap option_map from_option id];
      [|rewrite Z.bits_0; by case_decide]. rewrite Z.land_spec, notw_bit by dlia. case_decide as Eb.
    + subst. rewrite bool_decide_eq_true_2 by done. by rewrite andb_false_r.
    + rewrite bool_decide_eq_false_2; [by rewrite andb_true_r|]. intros Em. apply Eb, bit_pos; [lia|lia|dlia|done].
  - rewrite list_lookup_alter_ne by done. case_decide as Eb; [by subst|done].
Qed.

Lemma bit_get_ret m i : 0 ≤ i < 8 * zlen m → bit_get m i = Ret (bit_at m i).
Proof.
  intros Hi. unfold bit_get, bit_at. destruct (lookup_lt_is_Some_2 m (Z.to_nat (i / 8))) as [x Hx]; [unfold zlen in *; dlia|].
  rewrite (index_ret _ _ x) by (done || dlia). cbn [obind]. rewrite Hx. cbn [from_option id]. f_equal.
  rewrite Z.testbit_odd. generalize (Z.shiftr x (i mod 8)). intros y. change 1 with (Z.ones 1). rewrite Z.land_ones by lia. change (2 ^ 1) with 2.
  rewrite Zmod_odd. by destruct (Z.odd y).
Qed.
Lemma bit_off_ret m i : 0 ≤ i < 8 * zlen m → bit_set m i false = Ret (bit_off m i).
Proof.
  intros Hi. unfold bit_set, bit_off. destruct (lookup_lt_is_Some_2 m (Z.to_nat (i / 8))) as [x Hx]; [unfold zlen in *; dlia|].
  rewrite (index_ret _ _ x) by (done || dlia). cbn [obind]. rewrite store_ret by (unfold zlen in *; dlia). f_equal.
  apply list_eq. intros k. destruct (decide (k = Z.to_nat (i / 8))) as [->|Hne].
  - rewrite list_lookup_insert_eq, list_lookup_alter_eq, Hx by (by eapply lookup_lt_Some). done.
  - by rewrite list_lookup_insert_ne, list_lookup_alter_ne by done.
Qed.
Lemma bit_off_bytes m i : bytes_ok m → bytes_ok (bit_off m i).
Proof. intros Hm. unfold bit_off. apply Forall_alter; [done|]. intros x _ Hx. by apply is_byte_land. Qed.

(** ** What the operations keep *)

(** Blocks that were referenced at the last commit stay as they are. *)
Definition keeps (v v' : Vol) : Prop :=
  ∀ b, 0 ≤ b → 0 < refc_of v b → txn_of v b = false → refc_of v' b = refc_of v b ∧ txn_of v' b = false.

(** Only the maps and the drop list change. *)
Definition space_only (v v' : Vol) : Prop :=
  ∃ dr nd rc bm tx, v' = set_txn (set_bitmap (set_refc (set_ndrop (set_drop v dr) nd) rc) bm) tx.

Lemma kept_refl v : keeps v v.
Proof. done. Qed.
Lemma kept_trans v v' v'' : keeps v v' → keeps v' v'' → keeps v v''.
Proof.
  intros H1 H2 b Hb Hr Ht. destruct (H1 b Hb Hr Ht) as [E1 E2]. destruct (H2 b Hb) as [E3 E4]; [lia|done|]. split; [lia|done].
Qed.
Lemma space_refl v : space_only v v.
Proof. by exists (v_drop v), (v_ndrop v), (v_refc v), (v_bitmap v), (v_txn v). Qed.
Lemma space_trans v v' v'' : space_only v v' → space_only v' v'' → space_only v v''.
Proof. intros (? & ? & ? & ? & ? & ->) (dr & nd & rc & bm & tx & ->). by exists dr, nd, rc, bm, tx. Qed.

(** A volume that holds a reference for every occurrence in [l]. *)
Record ready (v : Vol) (l : list Z) : Prop := {
  rd_vol : vol_ok v;
  rd_credit : credit v l;
}.
Lemma ready_perm v l l' : l ≡ₚ l' → ready v l → ready v l'.
Proof. intros Hp [Hv Hc]. split; [done|by eapply credit_perm]. Qed.

Lemma space_vol_ok v v' :
  space_only v v' → vol_ok v → maps_typed v' → length (v_drop v') = 96%nat → 0 ≤ v_ndrop v' ≤ MAX_DROP → vol_ok v'.
Proof.
  intros (dr & nd & rc & bm & tx & ->) [Hs Hp Hm Ht Hl] Hm' Hd Hn. split; [vol_frame Hs|done|done|vol_frame Ht|].
  destruct Hl. by split.
Qed.

Lemma ready_max v l : ready v l → v_nblocks v ≤ 1024.
Proof. intros [Hv _]. exact (proj2 (su_nblocks _ (vk_super _ Hv))). Qed.

(** ** Allocation *)
Lemma alloc_ready v l (Q : Z → Vol → Prop) X :
  ready v l →
  (∀ b, is_free v b → b ∉ l → ready (with_alloc v b) (b :: l) → keeps v (with_alloc v b) → space_only v (with_alloc v b) →
     txn_of (with_alloc v b) b = true → Q b (with_alloc v b)) →
  X NoSpace v → ewp alloc_block v Q X.
Proof.
  intros Hr HQ HX. pose proof (ready_max v l Hr) as Hmax. pose proof Hr as [Hv [Hs Hrg Ht]]. pose proof (vk_maps _ Hv) as Hm.
  apply alloc_block_spec; [done|done| |done]. intros b Hb. pose proof Hb as [Hb2 Hb0].
  destruct (credit_free v l b (rd_credit _ _ Hr) Hb) as (E1 & E2 & E3).
  assert (Hrc : ∀ x, 0 ≤ x → refc_of (with_alloc v b) x = if decide (x = b) then 1 else refc_of v x) by (intros x Hx; apply refc_with_alloc; [done|lia|lia]).
  assert (Htx : ∀ x, 0 ≤ x → txn_of (with_alloc v b) x = if decide (x = b) then true else txn_of v x).
  { intros x Hx. apply (bit_at_on (v_txn v) b x); [|done]. unfold zlen. rewrite (mt_txn _ Hm). lia. }
  assert (Hsp : space_only v (with_alloc v b)) by (unfold with_alloc; by exists (v_drop v), (v_ndrop v), (<[Z.to_nat b:=1]> (v_refc v)), (bit_on (v_bitmap v) b), (bit_on (v_txn v) b)).
  assert (Hrange : Forall (λ b, 2 ≤ b < v_nblocks v) (old_meta v ++ dropped v ++ b :: l)).
  { rewrite <-!Permutation_middle. apply Forall_cons. by split. }
  apply HQ; [done|rewrite occ_elem; lia| |intros x Hx Hr' Ht'|done|by rewrite Htx, decide_True by lia].
  - split.
    + eapply space_vol_ok; [exact Hsp|done|by apply with_alloc_maps|exact (lt_drop _ (vk_lists _ Hv))|exact (lt_ndrop _ (vk_lists _ Hv))].
    + split; [|exact Hrange|].
      * intros x. specialize (Hs x). unfold slack in *. change (old_meta (with_alloc v b)) with (old_meta v).
        change (dropped (with_alloc v b)) with (dropped v). rewrite occ_cons. destruct (decide (0 ≤ x)) as [Hx|Hx].
        -- rewrite Hrc by done. destruct (decide (x = b)) as [->|Hne]; [rewrite decide_True by done|rewrite decide_False by done]; lia.
        -- rewrite decide_False by lia. apply Forall_app in Hrg as [R1 R2]. apply Forall_app in R2 as [R2 R3].
           assert (Hz : ∀ k, Forall (λ b, 2 ≤ b < v_nblocks v) k → occ x k = 0) by (intros k Hk; apply (occ_range v); [done|lia]).
           rewrite !Hz by done. unfold refc_of. pose proof (with_alloc_maps v b Hm) as [_ _ _ Hby _ _].
           destruct (v_refc (with_alloc v b) !! Z.to_nat x) as [r|] eqn:E; cbn; [|lia].
           apply (Forall_lookup_1 _ _ _ _ Hby) in E. unfold is_byte in E. lia.
      * intros x Hx. rewrite Htx, Hrc by done. case_decide; [lia|]. by apply Ht.
  - rewrite Hrc, Htx by done. rewrite !decide_False by (intros ->; lia). done.
Qed.

(** ** Drops *)
Definition freed (v : Vol) (b : Z) : Vol :=
  let r := refc_of v b - 1 in
  let v := set_refc v (<[Z.to_nat b := r]> (v_refc v)) in
  let v := if r =? 0 then set_bitmap v (bit_off (v_bitmap v) b) else v in
  set_txn v (bit_off (v_txn v) b).
Definition queued (v : Vol) (b : Z) : Vol :=
  set_ndrop (set_drop v (<[Z.to_nat (v_ndrop v) := b]> (v_drop v))) (v_ndrop v + 1).
Definition dropped_one (v : Vol) (b : Z) : Vol := if txn_of v b then freed v b else queued v b.

(** The drops still to be queued for the blocks [l]. *)
Definition pending (v : Vol) (l : list Z) : Z := zlen (filter (λ b, txn_of v b = false) l).

Lemma pending_cons v b l : pending v (b :: l) = (if txn_of v b then 0 else 1) + pending v l.
Proof. unfold pending. rewrite filter_cons. destruct (txn_of v b); [rewrite decide_False by done|rewrite decide_True by done]; zlia. Qed.
Lemma pending_app v l l' : pending v (l ++ l') = pending v l + pending v l'.
Proof. unfold pending. rewrite filter_app. zlia. Qed.
Lemma pending_nonneg v l : 0 ≤ pending v l.
Proof. apply zlen_nonneg. Qed.

Lemma dropped_space v b : space_only v (dropped_one v b).
Proof.
  unfold dropped_one, freed, queued. destruct (txn_of v b).
  - exists (v_drop v), (v_ndrop v), (<[Z.to_nat b:=refc_of v b - 1]> (v_refc v)),
      (if refc_of v b - 1 =? 0 then bit_off (v_bitmap v) b else v_bitmap v), (bit_off (v_txn v) b). by destruct (refc_of v b - 1 =? 0).
  - by exists (<[Z.to_nat (v_ndrop v):=b]> (v_drop v)), (v_ndrop v + 1), (v_refc v), (v_bitmap v), (v_txn v).
Qed.

Section drop_one.
Context (v : Vol) (b : Z) (l : list Z).
Hypothesis Hr : ready v (b :: l).
Hypothesis Hroom : v_ndrop v + (if txn_of v b then 0 else 1) ≤ 96.

Lemma drop_range : 2 ≤ b < v_nblocks v ∧ v_nblocks v ≤ 1024.
Proof using Hr.
  split; [|exact (ready_max _ _ Hr)]. pose proof (cr_range _ _ (rd_credit _ _ Hr)) as Hrg.
  apply Forall_app in Hrg as [_ Hrg]. apply Forall_app in Hrg as [_ Hrg]. by apply Forall_cons in Hrg as [? _].
Qed.
Lemma drop_held : 1 ≤ refc_of v b < 256.
Proof using Hr.
  clear Hroom. split.
  - pose proof (credit_held v (b :: l) b (rd_credit _ _ Hr)) as Hh. assert (0 < refc_of v b); [|lia]. apply Hh. set_solver.
  - unfold refc_of. pose proof (mt_refc_ok _ (vk_maps _ (rd_vol _ _ Hr))) as Hby.
    destruct (v_refc v !! Z.to_nat b) as [r|] eqn:E; cbn; [|lia]. apply (Forall_lookup_1 _ _ _ _ Hby) in E. by destruct E.
Qed.

Lemma pending_drop_ret : pending_drop b v = Ret (inl tt, dropped_one v b).
Proof using Hr Hroom.
  destruct drop_range as [Hb Hmax]. pose proof drop_held as Hh. pose proof (vk_maps _ (rd_vol _ _ Hr)) as Hm. pose proof (vk_lists _ (rd_vol _ _ Hr)) as Hli.
  assert (Ltx : zlen (v_txn v) = 128) by (unfold zlen; by rewrite (mt_txn _ Hm)).
  unfold pending_drop. rewrite (proj2 (Z.ltb_ge b 2)) by lia. cbv [bind get lift gets modify ret ok ebind err].
  cbn [obind]. rewrite bit_get_ret by lia. cbn [obind]. change (bit_at (v_txn v) b) with (txn_of v b). unfold dropped_one.
  destruct (txn_of v b) eqn:Et; cbv beta iota in Hroom.
  - rewrite refc_index by (done || lia). cbn [obind]. rewrite (proj2 (Z.ltb_lt 0 (refc_of v b))) by lia.
    rewrite store_ret by (unfold zlen; rewrite (mt_refc _ Hm); lia). cbn [obind]. unfold freed.
    destruct (refc_of v b - 1 =? 0).
    + cbv [bind get lift gets modify ret ok]. rewrite bit_off_ret by (unfold zlen; rewrite (mt_bitmap _ Hm); lia).
      cbn [obind v_txn set_refc set_bitmap]. rewrite bit_off_ret by lia. done.
    + cbv [bind get lift gets modify ret ok]. cbn [obind v_txn set_refc]. rewrite bit_off_ret by lia. done.
  - change MAX_DROP with 96. rewrite (proj2 (Z.leb_gt 96 (v_ndrop v))) by lia.
    pose proof (lt_ndrop _ Hli). rewrite store_ret by (unfold zlen; rewrite (lt_drop _ Hli); lia). cbn [obind].
    rewrite addc_ret by (unfold in_width; lia). done.
Qed.

Lemma dropped_refc_of x : 0 ≤ x → refc_of (dropped_one v b) x = if decide (x = b) then (if txn_of v b then refc_of v b - 1 else refc_of v b) else refc_of v x.
Proof using Hr.
  clear Hroom. intros Hx. destruct drop_range as [Hb Hmax]. pose proof (mt_refc _ (vk_maps _ (rd_vol _ _ Hr))) as Hl.
  unfold dropped_one. destruct (txn_of v b); [|case_decide; by subst]. unfold freed.
  assert (E : ∀ vv, v_refc vv = <[Z.to_nat b:=refc_of v b - 1]> (v_refc v) → refc_of vv x = if decide (x = b) then refc_of v b - 1 else refc_of v x).
  { intros vv Ev. unfold refc_of at 1. rewrite Ev. case_decide as Ex; [subst; rewrite list_lookup_insert_eq by lia; done|]. by rewrite list_lookup_insert_ne by lia. }
  apply E. by destruct (refc_of v b - 1 =? 0).
Qed.
Lemma dropped_txn_of x : 0 ≤ x → txn_of (dropped_one v b) x = if decide (x = b) then false else txn_of v x.
Proof using Hr.
  clear Hroom. intros Hx. destruct drop_range as [Hb Hmax]. unfold dropped_one. destruct (txn_of v b) eqn:Et; [|case_decide; by subst].
  assert (E : v_txn (freed v b) = bit_off (v_txn v) b) by (unfold freed; by destruct (refc_of v b - 1 =? 0)).
  unfold txn_of at 1. rewrite E. apply (bit_at_off (v_txn v) b x); lia.
Qed.

Lemma dropped_list : old_meta (dropped_one v b) = old_meta v ∧
  dropped (dropped_one v b) = dropped v ++ (if txn_of v b then [] else [b]) ∧
  v_ndrop (dropped_one v b) = v_ndrop v + (if txn_of v b then 0 else 1).
Proof using Hr Hroom.
  pose proof (vk_lists _ (rd_vol _ _ Hr)) as Hli. pose proof (lt_ndrop _ Hli) as Hn. pose proof (lt_drop _ Hli) as Hd.
  unfold dropped_one. destruct (txn_of v b); cbv beta iota in Hroom.
  - unfold freed. rewrite app_nil_r. destruct (refc_of v b - 1 =? 0); split_and!; try done; cbn; lia.
  - split_and!; [done| |done]. unfold dropped. cbn [v_drop v_ndrop queued set_ndrop set_drop].
    rewrite Z2Nat.inj_add by lia. change (Z.to_nat 1) with 1%nat. rewrite Nat.add_1_r.
    rewrite (take_S_r _ _ b) by (rewrite list_lookup_insert_eq by lia; done). by rewrite take_insert_ge by lia.
Qed.

Lemma dropped_ready : ready (dropped_one v b) l ∧ keeps v (dropped_one v b) ∧
  (∀ x, x ∈ l → txn_of (dropped_one v b) x = txn_of v x).
Proof using Hr Hroom.
  destruct drop_range as [Hb Hmax]. pose proof drop_held as Hh. destruct dropped_list as (Em & Ed & En). pose proof Hr as [Hv [Hs Hrg Ht]].
  pose proof (vk_lists _ Hv) as Hli. pose proof (lt_ndrop _ Hli) as Hn. pose proof (vk_maps _ Hv) as Hm.
  pose proof (dropped_space v b) as Hsp.
  assert (Hnb : v_nblocks (dropped_one v b) = v_nblocks v) by (destruct Hsp as (? & ? & ? & ? & ? & ->); done).
  assert (Hone : txn_of v b = true → b ∉ l).
  { intros Et Hin. specialize (Ht b ltac:(lia) Et). specialize (Hs b). rewrite occ_cons, decide_True in Hs by done. apply occ_elem in Hin.
    unfold slack in Hs. pose proof (occ_nonneg b (old_meta v)). pose proof (occ_nonneg b (dropped v)). lia. }
  split_and!.
  - split.
    + eapply space_vol_ok; [exact Hsp|done| | |].
      * unfold dropped_one. destruct (txn_of v b); [|vol_frame Hm]. unfold freed. destruct Hm.
        destruct (refc_of v b - 1 =? 0); split; cbn; first [done|by apply bit_off_bytes|by rewrite length_insert|
          by (unfold bit_off; rewrite length_alter)|(apply Forall_insert; [done|]; unfold is_byte; lia)].
      * unfold dropped_one, freed, queued. destruct (txn_of v b); [destruct (_ =? 0)|]; cbn; rewrite ?length_insert; exact (lt_drop _ Hli).
      * rewrite En. change MAX_DROP with 96. destruct (txn_of v b); lia.
    + split.
      * intros x. specialize (Hs x). rewrite occ_cons in Hs. unfold slack in *. rewrite Em, Ed, occ_app.
        destruct (decide (0 ≤ x)) as [Hx|Hx].
        -- rewrite dropped_refc_of by done. destruct (decide (b = x)) as [<-|Hne].
           ++ rewrite decide_True by done. destruct (txn_of v b); rewrite ?occ_cons, ?decide_True, ?occ_nil by done; lia.
           ++ rewrite decide_False by congruence. destruct (txn_of v b); rewrite ?occ_cons, ?(decide_False (P := b = x)), ?occ_nil by done; lia.
        -- apply Forall_app in Hrg as [R1 R2]. apply Forall_app in R2 as [R2 R3]. apply Forall_cons in R3 as [_ R3].
           assert (Hz : ∀ k, Forall (λ b, 2 ≤ b < v_nblocks v) k → occ x k = 0) by (intros k Hk; apply (occ_range v); [done|lia]).
           rewrite !Hz by first [done|destruct (txn_of v b); [by apply Forall_nil|by apply Forall_singleton]].
           rewrite decide_False in Hs by lia. rewrite !Hz in Hs by done.
           assert (Hxr : refc_of (dropped_one v b) x = refc_of v x ∨ 0 ≤ refc_of (dropped_one v b) x).
           { unfold dropped_one. destruct (txn_of v b); [right|by left]. unfold refc_of.
             assert (Hby : bytes_ok (v_refc (freed v b))).
             { unfold freed. destruct (_ =? 0); cbn; (apply Forall_insert; [exact (mt_refc_ok _ Hm)|unfold is_byte; lia]). }
             destruct (v_refc (freed v b) !! Z.to_nat x) as [r|] eqn:E; cbn; [|lia]. apply (Forall_lookup_1 _ _ _ _ Hby) in E. unfold is_byte in E. lia. }
           lia.
      * rewrite Em, Ed, Hnb. apply Forall_app in Hrg as [R1 R2]. apply Forall_app in R2 as [R2 R3]. apply Forall_cons in R3 as [Rb R3].
        apply Forall_app. split; [done|]. apply Forall_app. split; [|done]. apply Forall_app. split; [done|].
        destruct (txn_of v b); [by apply Forall_nil|by apply Forall_singleton].
      * intros x Hx. rewrite dropped_txn_of, dropped_refc_of by done. case_decide; [done|]. by apply Ht.
  - intros x Hx Hrx Htx. rewrite dropped_refc_of, dropped_txn_of by done. case_decide as E; [|done]. subst. by rewrite Htx.
  - intros x Hx. assert (0 ≤ x).
    { apply Forall_app in Hrg as [_ R2]. apply Forall_app in R2 as [_ R3]. apply Forall_cons in R3 as [_ R3]. rewrite Forall_forall in R3. specialize (R3 x Hx). lia. }
    rewrite dropped_txn_of by done. case_decide as E; [|done]. subst. destruct (txn_of v b) eqn:Et; [|done]. by destruct (Hone eq_refl).
Qed.
End drop_one.

(** ** Drops in a row *)

(** From [v] the blocks [l] were dropped, and [rest] is still held. *)
Record drops (v : Vol) (l rest : list Z) (v' : Vol) : Prop := {
  dr_ready : ready v' rest;
  dr_keeps : keeps v v';
  dr_space : space_only v v';
  dr_ndrop : v_ndrop v' = v_ndrop v + pending v l;
  dr_txn : ∀ x, x ∈ rest → txn_of v' x = txn_of v x;
}.

Lemma pending_ext v v' l : (∀ x, x ∈ l → txn_of v' x = txn_of v x) → pending v' l = pending v l.
Proof.
  induction l as [|x l IH]; intros Hl; [done|]. rewrite !pending_cons, IH by (intros y Hy; apply Hl; by right).
  by rewrite (Hl x) by left.
Qed.

Lemma drops_nil v rest : ready v rest → drops v [] rest v.
Proof. intros Hr. split; [done|done|apply space_refl|unfold pending; cbn; zlia|done]. Qed.
Lemma drops_trans v l l' rest v' v'' : drops v l (l' ++ rest) v' → drops v' l' rest v'' → drops v (l ++ l') rest v''.
Proof.
  intros [R1 K1 S1 N1 T1] [R2 K2 S2 N2 T2]. split.
  - done.
  - by eapply kept_trans.
  - by eapply space_trans.
  - rewrite N2, N1, pending_app, (pending_ext v v' l'); [lia|]. intros x Hx. apply T1, elem_of_app. by left.
  - intros x Hx. rewrite T2 by done. apply T1, elem_of_app. by right.
Qed.

Lemma pending_drop_run v b rest (Q : unit → Vol → Prop) X :
  ready v (b :: rest) → v_ndrop v + pending v [b] ≤ 96 → (∀ v', drops v [b] rest v' → Q tt v') → ewp (pending_drop b) v Q X.
Proof.
  intros Hr Hroom HQ. rewrite pending_cons in Hroom. change (pending v []) with 0 in Hroom.
  assert (Hroom' : v_ndrop v + (if txn_of v b then 0 else 1) ≤ 96) by lia.
  unfold ewp, wp. rewrite (pending_drop_ret v b rest Hr Hroom'). apply HQ.
  destruct (dropped_ready v b rest Hr Hroom') as (R & K & T). destruct (dropped_list v b rest Hr Hroom') as (_ & _ & N).
  split; [done|done|apply dropped_space| |done]. rewrite N, pending_cons. change (pending v []) with 0. lia.
Qed.

Lemma efor_drops {A} (f : A → VM unit) (g : A → Z) l : ∀ v rest,
  (∀ x, x ∈ l → 2 ≤ g x < 1024 → f x = pending_drop (g x)) →
  ready v (map g l ++ rest) → v_ndrop v + pending v (map g l) ≤ 96 →
  ewp (efor l f) v (λ _ v', drops v (map g l) rest v') (λ _ _, False).
Proof.
  induction l as [|x l IH]; intros v rest Hf Hr Hroom; cbn [efor map] in *; [apply ewp_ok; by apply drops_nil|].
  assert (Hx : 2 ≤ g x < 1024).
  { destruct (drop_range v (g x) (map g l ++ rest) Hr). lia. }
  rewrite pending_cons in Hroom. apply ewp_bind. rewrite (Hf x) by (by left || done).
  apply (pending_drop_run v (g x) (map g l ++ rest)); [done| |].
  { rewrite pending_cons. change (pending v []) with 0. pose proof (pending_nonneg v (map g l)). lia. }
  intros v1 Hd. pose proof Hd as [R1 K1 S1 N1 T1].
  assert (Hp : pending v1 (map g l) = pending v (map g l)) by (apply pending_ext; intros y Hy; apply T1, elem_of_app; by left).
  eapply ewp_mono; [apply (IH v1 rest)| |done].
  - intros y Hy. apply Hf. by right.
  - done.
  - rewrite Hp, N1, pending_cons. change (pending v []) with 0. lia.
  - intros [] v2 Hd2. change (g x :: map g l) with ([g x] ++ map g l). by eapply drops_trans.
Qed.

Lemma range_map phys from len : map (λ b, phys + b) (range from len) = range (phys + from) (phys + len).
Proof.
  unfold range. apply list_eq. intros i. destruct (decide (Z.of_nat i < len - from)) as [Hi|Hi].
  - rewrite list_lookup_fmap, !lookup_seqZ_lt by lia. cbn. f_equal. lia.
  - rewrite list_lookup_fmap, !lookup_seqZ_ge by lia. done.
Qed.

Lemma drop_extent_run v phys from len rest :
  ready v (range (phys + from) (phys + len) ++ rest) → v_ndrop v + pending v (range (phys + from) (phys + len)) ≤ 96 → 0 ≤ phys →
  ewp (drop_extent phys from len) v (λ _ v', drops v (range (phys + from) (phys + len)) rest v') (λ _ _, False).
Proof.
  intros Hr Hn Hp. unfold drop_extent. rewrite <-range_map in *. apply efor_drops; [|done|done].
  intros b _ Hb. unfold bind, lift. rewrite addc_ret by (unfold in_width; lia). done.
Qed.
Lemma drop_checked_run v phys from len rest :
  ready v (range (phys + from) (phys + len) ++ rest) → v_ndrop v + pending v (range (phys + from) (phys + len)) ≤ 96 → 0 ≤ phys →
  ewp (drop_checked phys from len) v (λ _ v', drops v (range (phys + from) (phys + len)) rest v') (λ _ _, False).
Proof.
  intros Hr Hn Hp. unfold drop_checked. rewrite <-range_map in *. apply efor_drops; [|done|done].
  intros b _ Hb. unfold checked_add. rewrite (proj2 (Z.ltb_lt (phys + b) (2 ^ 32))) by lia. done.
Qed.

(** The count the code makes beforehand. *)
Lemma drops_needed_ret v phys len :
  maps_typed v → v_nblocks v ≤ 1024 → Forall (λ b, 2 ≤ b < v_nblocks v) (range phys (phys + len)) → 0 ≤ len →
  drops_needed v phys len = Ret (pending v (range phys (phys + len))).
Proof.
  intros Hm Hmax Hrg Hl. unfold drops_needed. pose proof (mt_txn _ Hm) as Ltx.
  assert (Hgen : ∀ k n, 0 ≤ k ≤ len → ofor (range k len) (λ b n, match checked_add 32 phys b with None => Ret n
    | Some bno => if 2 <=? bno then t <~ bit_get (v_txn v) bno ;; Ret (if (t : bool) then n else n + 1) else Ret n end) n =
    Ret (n + pending v (range (phys + k) (phys + len)))).
  { intros k n Hk. remember (Z.to_nat (len - k)) as f eqn:Hf. revert k n Hk Hf. induction f as [|f IH]; intros k n Hk Hf.
    - rewrite !range_nil by lia. cbn [ofor]. change (pending v []) with 0. f_equal. lia.
    - rewrite (range_cons k), (range_cons (phys + k)) by lia. cbn [ofor].
      assert (Hb : 2 ≤ phys + k < v_nblocks v) by (rewrite Forall_forall in Hrg; apply Hrg, elem_of_range; lia).
      unfold checked_add at 1. rewrite (proj2 (Z.ltb_lt (phys + k) (2 ^ 32))), (proj2 (Z.leb_le 2 (phys + k))) by lia.
      rewrite bit_get_ret by (unfold zlen; lia). cbn [obind]. rewrite IH by lia. rewrite pending_cons. f_equal.
      change (bit_at (v_txn v) (phys + k)) with (txn_of v (phys + k)). replace (phys + (k + 1)) with (phys + k + 1) by lia.
      destruct (txn_of v (phys + k)); lia. }
  rewrite Hgen by lia. f_equal. rewrite Z.add_0_r. lia.
Qed.

(** ** One slot of a table *)
Definition only {A} (P : A → Prop) `{!∀ x, Decision (P x)} (x : A) : list A := if decide (P x) then [x] else [].

Lemma filter_slot {A} (P : A → Prop) `{!∀ x, Decision (P x)} (l : list A) i x :
  l !! i = Some x → ∃ k, filter P l ≡ₚ only P x ++ k ∧ ∀ y, filter P (<[i:=y]> l) ≡ₚ only P y ++ k.
Proof.
  intros Hi. exists (filter P (take i l) ++ filter P (drop (S i) l)).
  assert (Hone : ∀ y a b, filter P (a ++ y :: b) ≡ₚ only P y ++ filter P a ++ filter P b).
  { intros y a b. rewrite filter_app, filter_cons. unfold only. case_decide; [|done]. by rewrite <-Permutation_middle. }
  split.
  - rewrite <-(take_drop_middle l i x Hi) at 1. apply Hone.
  - intros y. rewrite insert_take_drop by (by eapply lookup_lt_Some). apply Hone.
Qed.

Definition inode_good (r : Inode) : Prop := inode_typed r ∧ (i_used r = true → inode_valid r).
Definition dent_good (de : Dent) : Prop := dent_typed de ∧ (d_used de = true → dent_valid de).

Lemma tables_good v : tables_typed v ↔ length (v_inodes v) = 64%nat ∧ Forall inode_good (v_inodes v) ∧
  length (v_dents v) = 96%nat ∧ Forall dent_good (v_dents v).
Proof.
  rewrite !Forall_forall. split.
  - intros [L1 T1 V1 L2 T2 V2]. rewrite Forall_forall in T1. rewrite Forall_forall in T2. split_and!; [done| |done|]; intros x Hx; split; auto.
  - intros (L1 & G1 & L2 & G2). split; [done| | |done| |]; try (apply Forall_forall; intros x Hx; by apply (G1 x) || by apply (G2 x)).
    + intros r Hr. by apply (G1 r).
    + intros de Hde. by apply (G2 de).
Qed.

Lemma zero_bytes n : bytes_ok (replicate n 0).
Proof. apply Forall_replicate. unfold is_byte. lia. Qed.
Lemma zero_extents n : Forall extent_ok (replicate n Extent_EMPTY).
Proof. apply Forall_replicate. by repeat split. Qed.
Lemma inode_empty_good : inode_good Inode_EMPTY.
Proof. split; [exact inode_empty_typed|done]. Qed.
Lemma dent_empty_good : dent_good Dent_EMPTY.
Proof. split; [exact dent_empty_typed|done]. Qed.

Lemma nodup_map_eq {A B} (f : A → B) (l : list A) x y : NoDup (map f l) → x ∈ l → y ∈ l → f x = f y → x = y.
Proof.
  intros Hn [i Hi]%list_elem_of_lookup_1 [j Hj]%list_elem_of_lookup_1 E.
  assert (i = j); [|congruence]. eapply NoDup_lookup; [exact Hn| |]; rewrite list_lookup_fmap, ?Hi, ?Hj; cbn; [done|by rewrite E].
Qed.

(** The tables replaced; the maps and lists stay. *)
Definition retab (v : Vol) (n : Z) (is_ : list Inode) (ds : list Dent) : Vol := set_dents (set_inodes (set_next_ino v n) is_) ds.

Lemma retab_ok v n is_ ds :
  vol_ok v → credit v (all_data (filter (λ r, i_used r = true) is_)) → u32 n →
  length is_ = 64%nat → Forall inode_good is_ → length ds = 96%nat → Forall dent_good ds →
  files_ok (filter (λ r, i_used r = true) is_) (filter (λ de, d_used de = true) ds) (v_root_ino v) n →
  fs_ok (retab v n is_ ds).
Proof.
  intros [Hs Hp Hm Ht Hl] Hc Hn L1 G1 L2 G2 Hf. split; [|done|by destruct Hc; split].
  split; [|done|vol_frame Hm|by apply tables_good|vol_frame Hl]. destruct Hs. by split.
Qed.

Lemma fs_now v x : fs_ok v → fs_ok (set_dirty v x).
Proof.
  intros [[Hs Hp Hm Ht Hl] Hf [? ? ?]]. split; [|done|by split].
  split; [vol_frame Hs|done|vol_frame Hm|vol_frame Ht|vol_frame Hl].
Qed.

(** ** Searches *)
Lemma table_search {A} (p : A → bool) l : ∀ i,
  match position_from p l i with
  | Some j => i ≤ j ∧ ∃ x, l !! Z.to_nat (j - i) = Some x ∧ p x = true
  | None => ∀ x, x ∈ l → p x = false
  end.
Proof.
  induction l as [|x l IH]; intros i; cbn [position_from]; [intros x Hx; by apply elem_of_nil in Hx|].
  destruct (p x) eqn:Hx; [split; [lia|]; exists x; by rewrite Z.sub_diag|]. specialize (IH (i + 1)).
  destruct (position_from p l (i + 1)) as [j|].
  - destruct IH as (Hj & y & Hy & Hp). split; [lia|]. exists y. split; [|done].
    replace (Z.to_nat (j - i)) with (S (Z.to_nat (j - (i + 1)))) by lia. done.
  - intros y [->|Hy]%elem_of_cons; [done|by apply IH].
Qed.

(** The record at [s] is in use and numbered [ino]. *)
Definition slot_of (v : Vol) (ino s : Z) (r : Inode) : Prop :=
  0 ≤ s ∧ v_inodes v !! Z.to_nat s = Some r ∧ i_used r = true ∧ i_ino r = ino.

Lemma slot_in v ino s r : slot_of v ino s r → r ∈ used_inodes v.
Proof. intros (_ & Hs & Hu & _). apply list_elem_of_filter. split; [done|]. by eapply list_elem_of_lookup_2. Qed.

Lemma inode_slot_spec v ino :
  match inode_slot v ino with
  | inl s => ∃ r, slot_of v ino s r
  | inr e => e = NotFound ∧ ∀ r, r ∈ used_inodes v → i_ino r ≠ ino
  end.
Proof.
  unfold inode_slot. pose proof (table_search (λ r, i_used r && (i_ino r =? ino)) (v_inodes v) 0) as Hp.
  destruct (position_from _ _ _) as [s|]; cbn [ok_or].
  - destruct Hp as (Hs & r & Hr & Hb). rewrite Z.sub_0_r in Hr. apply andb_true_iff in Hb as [Hu Hi%Z.eqb_eq]. by exists r.
  - split; [done|]. intros r [Hu Hin]%list_elem_of_filter Hi. specialize (Hp r Hin). cbn beta in Hp. apply andb_false_iff in Hp as [Hp|Hp%Z.eqb_neq]; congruence.
Qed.

Lemma inode_slot_eq v ino r : names_ok v → r ∈ used_inodes v → i_ino r = ino → ∃ s, inode_slot v ino = inl s ∧ slot_of v ino s r.
Proof.
  intros Hn Hr Hi. pose proof (inode_slot_spec v ino) as Hs. destruct (inode_slot v ino) as [s|e].
  - destruct Hs as (r' & Hs'). exists s. split; [done|].
    replace r with r'; [done|]. pose proof (slot_in _ _ _ _ Hs') as Hr'. destruct Hs' as (_ & _ & _ & Hi').
    by apply (nodup_map_eq i_ino (used_inodes v)); [exact (fo_inos _ _ _ _ Hn)|..|congruence].
  - destruct Hs as [_ Hs]. by destruct (Hs r Hr).
Qed.

(** The entry at [e] is [name] in directory [dir]. *)
Definition entry_of (v : Vol) (dir : Z) (name : list Z) (e : Z) (de : Dent) : Prop :=
  0 ≤ e ∧ v_dents v !! Z.to_nat e = Some de ∧ d_used de = true ∧ d_parent de = dir ∧ name_of de = name.

Lemma entry_in v dir name e de : entry_of v dir name e de → de ∈ used_dents v.
Proof. intros (_ & He & Hu & _). apply list_elem_of_filter. split; [done|]. by eapply list_elem_of_lookup_2. Qed.

Lemma find_dent_spec v dir name (Q : Z + Error → Prop) :
  tables_typed v → (∀ e de, entry_of v dir name e de → Q (inl e)) →
  ((∀ de, de ∈ used_dents v → d_parent de = dir → name_of de ≠ name) → Q (inr NotFound)) →
  owp (find_dent v dir name) Q.
Proof.
  intros Ht HQ HN. unfold find_dent.
  assert (Hgen : ∀ l i, 0 ≤ i → (∀ k, drop (Z.to_nat i) (v_dents v) !! k = l !! k) →
    ((∀ de, de ∈ l → d_used de = true → d_parent de = dir → name_of de ≠ name) → Q (inr NotFound)) →
    owp (find_dent_from dir name l i) Q).
  { induction l as [|de l IH]; intros i Hi Hd Hq; cbn [find_dent_from].
    { apply owp_ret, Hq. intros de Hde. by apply elem_of_nil in Hde. }
    assert (Hde : v_dents v !! Z.to_nat i = Some de) by (specialize (Hd O); rewrite lookup_drop, Nat.add_0_r in Hd; done).
    assert (Hnext : (d_used de = true → d_parent de = dir → name_of de ≠ name) → owp (find_dent_from dir name l (i + 1)) Q).
    { intros Hne. apply IH; [lia| |].
      - intros k. specialize (Hd (S k)). rewrite lookup_drop in *. replace (Z.to_nat (i + 1) + k)%nat with (Z.to_nat i + S k)%nat by lia. done.
      - intros Hl. apply Hq. intros x [->|Hx]%elem_of_cons; [done|by apply Hl]. }
    destruct (d_used de) eqn:Hu; cbn [andb]; [|by apply Hnext].
    destruct (Z.eqb_spec (d_parent de) dir) as [Hp|Hp]; [|by apply Hnext].
    rewrite (dent_name_ret v de) by (done || by eapply list_elem_of_lookup_2). cbn [obind].
    case_bool_decide as Hn; [|apply Hnext; by intros]. apply owp_ret. apply (HQ i de). by split_and!. }
  apply Hgen; [lia|done|]. intros Hl. apply HN. intros de [Hu Hin]%list_elem_of_filter. by apply Hl.
Qed.

(** ** The names as a map *)
Definition entry (de : Dent) : (Z * list Z) * Z := ((d_parent de, name_of de), d_ino de).
Definition names_in (ds : list Dent) : gmap (Z * list Z) Z := list_to_map (map entry ds).
Definition names (v : Vol) : gmap (Z * list Z) Z := names_in (used_dents v).

Lemma entry_keys ds : (map entry ds).*1 = map (λ de, (d_parent de, name_of de)) ds.
Proof. exact (map_map entry fst ds). Qed.

Lemma names_perm ds ds' : NoDup (map (λ de, (d_parent de, name_of de)) ds) → ds ≡ₚ ds' → names_in ds = names_in ds'.
Proof. intros Hn Hp. apply list_to_map_proper; [by rewrite (entry_keys ds)|by rewrite Hp]. Qed.

Lemma names_cons de ds : names_in (de :: ds) = <[(d_parent de, name_of de) := d_ino de]> (names_in ds).
Proof. done. Qed.

Lemma names_absent ds dir name :
  (∀ de, de ∈ ds → d_parent de = dir → name_of de ≠ name) ↔ names_in ds !! (dir, name) = None.
Proof.
  unfold names_in. rewrite <-not_elem_of_list_to_map, entry_keys. split.
  - intros Hno (de & E & Hde)%list_elem_of_fmap. injection E as -> ->. by destruct (Hno de Hde).
  - intros Hno de Hde <- <-. apply Hno, list_elem_of_fmap. by exists de.
Qed.

Lemma names_present v dir name e de : names_ok v → entry_of v dir name e de → names v !! (dir, name) = Some (d_ino de).
Proof.
  intros Hn He. pose proof (entry_in _ _ _ _ _ He) as Hin. destruct He as (_ & _ & _ & <- & <-).
  apply elem_of_list_to_map; [rewrite (entry_keys (used_dents v)); exact (fo_names _ _ _ _ Hn)|].
  apply list_elem_of_fmap. by exists de.
Qed.

(** An entry taken out of the table. *)
Lemma names_without v e de k :
  names_ok v → v_dents v !! e = Some de → used_dents v ≡ₚ de :: k → names_in k = delete (d_parent de, name_of de) (names v).
Proof.
  intros Hn He Hk. unfold names. pose proof (fo_names _ _ _ _ Hn) as Hnd. rewrite (names_perm _ _ Hnd Hk), names_cons, delete_insert_id; [done|].
  apply names_absent. intros x Hx E1 E2. rewrite Hk in Hnd. apply NoDup_cons in Hnd as [Hnd _]. apply Hnd, list_elem_of_fmap. exists x. by rewrite E1, E2.
Qed.

(** ** Time stamps *)

(** The record but for its times. *)
Definition body (r : Inode) : Inode := set_times r 0 0.
Definition bodies (v : Vol) : list Inode := map body (used_inodes v).

(** Some records have new times, and the volume is dirty. *)
Definition stamped (v v' : Vol) : Prop :=
  ∃ is_, map body is_ = map body (v_inodes v) ∧ Forall inode_good is_ ∧ v' = set_dirty (set_inodes v is_) true.

Lemma filter_body is_ : filter (λ r, i_used r = true) (map body is_) = map body (filter (λ r, i_used r = true) is_).
Proof.
  induction is_ as [|r is_ IH]; [done|]. cbn [map]. rewrite !filter_cons, IH. change (i_used (body r)) with (i_used r). by case_decide.
Qed.
Lemma bodies_core rs rs' : map body rs ≡ₚ map body rs' → map core rs ≡ₚ map core rs'.
Proof. intros Hp. assert (E : ∀ l, map core l = map core (map body l)) by (intros l; by rewrite map_map). by rewrite (E rs), (E rs'), Hp. Qed.

Lemma stamped_bodies v v' : stamped v v' → bodies v' = bodies v.
Proof. intros (is_ & E & _ & ->). unfold bodies. cbn [v_inodes set_inodes set_dirty]. by rewrite <-!filter_body, E. Qed.

Lemma stamped_ok v v' : fs_ok v → stamped v v' → fs_ok v'.
Proof.
  intros Hfs Hst. pose proof (stamped_bodies _ _ Hst) as Hb. destruct Hst as (is_ & E & Hg & ->). apply fs_now.
  pose proof Hfs as [Hv Hn Hc]. pose proof Hv as [Hs Hp Hm Ht Hl]. apply tables_good in Ht as (L1 & G1 & L2 & G2).
  assert (Hcore : map core (filter (λ r, i_used r = true) is_) ≡ₚ map core (used_inodes v)) by (apply bodies_core, Permutation_refl'; exact Hb).
  apply (retab_ok v (v_next_ino v) is_ (v_dents v)); try done.
  - eapply credit_perm; [|exact Hc]. symmetry. by apply all_data_core.
  - exact (su_next_ino _ Hs).
  - apply (f_equal length) in E. rewrite !length_map in E. by rewrite E.
  - by apply (files_ok_core (used_inodes v) _ (used_dents v)).
Qed.

Lemma stamped_keeps v v' : stamped v v' → keeps v v'.
Proof. intros (is_ & _ & _ & ->). by intros b. Qed.

Lemma stamped_trans v v' v'' : stamped v v' → stamped v' v'' → stamped v v''.
Proof. intros (i1 & E1 & G1 & ->) (i2 & E2 & G2 & ->). exists i2. split_and!; [|done|done]. cbn in E2. by rewrite E2, E1. Qed.

Lemma put_inode_run v s r0 r (Q : unit → Vol → Prop) :
  0 ≤ s → v_inodes v !! Z.to_nat s = Some r0 → Q tt (set_inodes v (<[Z.to_nat s := r]> (v_inodes v))) → wp (put_inode s r) v Q.
Proof.
  intros Hs Hl HQ. unfold put_inode. apply wp_bind, wp_get, wp_bind, wp_lift.
  rewrite store_ret by (apply lookup_lt_Some in Hl; zlia). by apply owp_ret, wp_modify.
Qed.
Lemma put_dent_run v e de0 de (Q : unit → Vol → Prop) :
  0 ≤ e → v_dents v !! Z.to_nat e = Some de0 → Q tt (set_dents v (<[Z.to_nat e := de]> (v_dents v))) → wp (put_dent_at e de) v Q.
Proof.
  intros Hs Hl HQ. unfold put_dent_at. apply wp_bind, wp_get, wp_bind, wp_lift.
  rewrite store_ret by (apply lookup_lt_Some in Hl; zlia). by apply owp_ret, wp_modify.
Qed.

Lemma slot_stamped v s r m c : tables_typed v → 0 ≤ s → v_inodes v !! Z.to_nat s = Some r → u64 m → u64 c →
  stamped v (set_dirty (set_inodes v (<[Z.to_nat s := set_times r m c]> (v_inodes v))) true).
Proof.
  intros (_ & G1 & _ & _)%tables_good Hs Hl Hm Hc. eexists. split_and!; [| |done].
  - rewrite (list_fmap_insert body (v_inodes v)). apply list_insert_id. rewrite list_lookup_fmap, Hl. done.
  - apply Forall_insert; [done|]. apply (Forall_lookup_1 _ _ _ _ G1) in Hl as [[] Hv]. split; [by split|exact Hv].
Qed.

Lemma dirty_stamped v : tables_typed v → stamped v (set_dirty v true).
Proof. intros (_ & G1 & _ & _)%tables_good. by exists (v_inodes v). Qed.

Lemma bump_mtime_run v ino (Q : unit → Vol → Prop) :
  tables_typed v → u64 (v_now v) → (∀ v', stamped v v' → Q tt v') → wp (bump_mtime ino) v Q.
Proof.
  intros Ht Hnow HQ. unfold bump_mtime. apply wp_bind, wp_get, wp_bind. pose proof (inode_slot_spec v ino) as Hs.
  destruct (inode_slot v ino) as [s|e]; [|apply wp_ret, wp_modify, HQ; by apply dirty_stamped].
  destruct Hs as (r & Hs & Hl & _). apply wp_bind, wp_lift. rewrite (index_ret _ _ r) by done. cbn [owp].
  apply (put_inode_run _ _ r); [done|done|]. apply wp_modify, HQ.
  assert (Hu : u64 (if negb (v_now v =? 0) then v_now v else saturating_add 64 (i_mtime r) 1)).
  { pose proof Ht as (_ & G1 & _ & _)%tables_good. apply (Forall_lookup_1 _ _ _ _ G1) in Hl as [[] _].
    destruct (negb _); [done|]. unfold u64, in_width, saturating_add in *. lia. }
  by apply slot_stamped.
Qed.

Lemma bump_ctime_run v ino (Q : unit → Vol → Prop) :
  tables_typed v → u64 (v_now v) → (∀ v', stamped v v' → Q tt v') → wp (bump_ctime ino) v Q.
Proof.
  intros Ht Hnow HQ. unfold bump_ctime. apply wp_bind, wp_get, wp_bind.
  destruct (negb _); [|apply wp_ret, wp_modify, HQ; by apply dirty_stamped].
  pose proof (inode_slot_spec v ino) as Hs.
  destruct (inode_slot v ino) as [s|e]; [|apply wp_ret, wp_modify, HQ; by apply dirty_stamped].
  destruct Hs as (r & Hs & Hl & _). apply wp_bind, wp_lift. rewrite (index_ret _ _ r) by done. cbn [owp].
  apply (put_inode_run _ _ r); [done|done|]. apply wp_modify, HQ, slot_stamped; [done..| |done].
  pose proof Ht as (_ & G1 & _ & _)%tables_good. by apply (Forall_lookup_1 _ _ _ _ G1) in Hl as [[] _].
Qed.
