(* ===== verification/VibefsNames.v ===== *)
(** * vibefs: create, unlink and rename (src/crates/core/src/fs/vibefs/ops.rs)

    The name operations against the map of names: what each does to the map, why
    each refuses, that a refusal changes nothing, and that the volume's invariant
    and the blocks of the last commit survive. *)

From stdpp Require Import base strings numbers gmap list sorting.
From S2P Require Import Prelude Bytes Crc Buf FsError Vibefs VibefsCommit VibefsOps VibefsLayout VibefsSort VibefsVol.
From S2P Require Import VibefsBlocks VibefsDisk VibefsTree VibefsInodeTree VibefsProtocol VibefsFiles VibefsMount VibefsImage VibefsDurable VibefsSpace.
Import VibefsOps.

Local Open Scope Z_scope.

(** ** What no operation between commits changes *)
Record moves (v v' : Vol) : Prop := {
  mv_keeps : keeps v v';
  mv_super : super_of (set_next_ino v' 0) = super_of (set_next_ino v 0);
}.
Lemma moves_refl v : moves v v.
Proof. split; [apply kept_refl|done]. Qed.
Lemma moves_trans v v' v'' : moves v v' → moves v' v'' → moves v v''.
Proof. intros [K1 S1] [K2 S2]. split; [by eapply kept_trans|congruence]. Qed.
Lemma stamped_moves v v' : stamped v v' → moves v v'.
Proof. intros Hs. split; [by apply stamped_keeps|]. by destruct Hs as (? & _ & _ & ->). Qed.
Lemma space_moves v v' : keeps v v' → space_only v v' → moves v v'.
Proof. intros Hk (? & ? & ? & ? & ? & ->). by split. Qed.
Lemma retab_moves v n is_ ds : moves v (retab v n is_ ds).
Proof. split; [by intros b|done]. Qed.

(** ** Names and directories *)
Lemma name_ok_len name : name_ok name = inl () → 1 ≤ zlen name ≤ 64.
Proof.
  unfold name_ok. destruct (Z.eqb_spec (zlen name) 0); [done|]. cbn [refuse_if].
  destruct (Z.ltb_spec MAX_NAME (zlen name)) as [|Hl]; [done|]. intros _. change MAX_NAME with 64 in Hl. zlia.
Qed.

Definition new_dent (dir ino kind : Z) (name : list Z) : Dent :=
  mkDent true dir ino kind (zlen name) (splice (replicate 64 0) 0 name).

Lemma new_dent_good dir ino kind name :
  u32 dir → u32 ino → u8 kind → bytes_ok name → 1 ≤ zlen name ≤ 64 →
  dent_good (new_dent dir ino kind name) ∧ name_of (new_dent dir ino kind name) = name ∧
  name_array name = Ret (d_name (new_dent dir ino kind name)) ∧ wrap 8 (zlen name) = zlen name.
Proof.
  intros Hd Hi Hk Hb Hl. assert (Hz : zlen (replicate 64 0) = 64) by done. split_and!.
  - split; [|done]. split; try done; cbn.
    + unfold u8, in_width. lia.
    + pose proof (zlen_splice (replicate 64 0) 0 name ltac:(lia) ltac:(lia)). zlia.
    + apply splice_bytes; [exact (zero_bytes 64)|done].
  - unfold name_of, new_dent, splice. cbn [d_nlen d_name]. change (take (Z.to_nat 0) (replicate 64 0)) with (@nil Z). cbn [app].
    replace (Z.to_nat (zlen name)) with (length name) by zlia. apply take_app_length.
  - unfold name_array. apply copy_into_ret; change (zlen (replicate (Z.to_nat MAX_NAME) 0)) with 64; lia.
  - apply Z.mod_small. lia.
Qed.

Lemma dir_slot_spec v dir (Q : Z → Vol → Prop) X :
  (∀ s r, slot_of v dir s r → is_dir r = true → Q s v) →
  ((∀ r, r ∈ used_inodes v → i_ino r ≠ dir) → X NotFound v) →
  (∀ r, r ∈ used_inodes v → i_ino r = dir → is_dir r = false → X NotDir v) →
  ewp (dir_slot dir) v Q X.
Proof.
  intros HQ HN HD. unfold dir_slot. apply ewp_pbind, wp_get, ewp_bind, ewp_ret. pose proof (inode_slot_spec v dir) as Hs.
  destruct (inode_slot v dir) as [s|e]; [|destruct Hs as [-> Hs]; by apply HN].
  destruct Hs as (r & Hs). pose proof Hs as (H0 & Hl & Hu & Hi). apply ewp_pbind. unfold inode_at. apply wp_bind, wp_get, wp_lift.
  rewrite (index_ret _ _ r) by done. cbn [owp]. apply ewp_bind, ewp_bail.
  - intros Hk%negb_true_iff. apply (HD r); [by eapply slot_in|done|]. unfold is_dir. by rewrite Hk, andb_false_r.
  - intros Hk%negb_false_iff. apply ewp_ok. apply (HQ s r Hs). unfold is_dir. by rewrite Hu, Hk.
Qed.

Lemma kind_of_valid r : inode_valid r → ∃ k, kind_of (i_kind r) = inl k.
Proof.
  intros [[H1 H2] _]. change KIND_REG with 1 in *. change KIND_LNK with 3 in *. unfold kind_of.
  assert (i_kind r = 1 ∨ i_kind r = 2 ∨ i_kind r = 3) as [->|[->| ->]] by lia; by eexists.
Qed.

Lemma node_from_spec v r name (Q : Node + Error → Prop) :
  fs_ok v → r ∈ used_inodes v →
  (∀ n k, n_ino n = i_ino r → n_kind n = k → kind_of (i_kind r) = inl k → n_size n = i_size r → Q (inl n)) →
  owp (node_from v (i_ino r) name) Q.
Proof.
  intros Hfs Hr HQ. unfold node_from. destruct (inode_slot_eq v (i_ino r) r (fk_names _ Hfs) Hr eq_refl) as (s & -> & Hs0 & Hl & Hu & _).
  cbn [oebind obind]. rewrite (index_ret _ _ r) by done. cbn [obind].
  destruct (kind_of_valid r) as (k & Hk); [exact (tt_inodes_valid _ (vk_tables _ (fk_vol _ Hfs)) r (list_elem_of_lookup_2 _ _ _ Hl) Hu)|].
  rewrite Hk. cbn [oebind obind]. change MAX_NAME with 64.
  rewrite sub_take by zlia. cbn [obind]. rewrite copy_into_ret; [|lia|].
  - cbn [obind]. apply owp_ret. by apply (HQ _ k).
  - change (zlen (replicate (Z.to_nat 64) 0)) with 64. zlia.
Qed.

(** ** Lookup *)
Lemma lookup_run v dir name (Q : Node → Vol → Prop) X :
  fs_ok v →
  (∀ n, name_ok name = inl tt → names v !! (dir, name) = Some (n_ino n) → Q n v) →
  (∀ e, name_ok name = inr e ∨ names v !! (dir, name) = None ∧ (e = NotFound ∨ e = NotDir) → X e v) →
  ewp (lookup dir name) v Q X.
Proof.
  intros Hfs HQ HX. pose proof Hfs as [Hv Hn _]. pose proof (vk_tables _ Hv) as Ht. unfold lookup. apply ewp_bind, ewp_ret.
  destruct (name_ok name) as [[]|e] eqn:Hname; [|apply HX; by left].
  assert (Hdir : (∀ r, r ∈ used_inodes v → i_ino r = dir → is_dir r = false) → names v !! (dir, name) = None).
  { intros Hnd. apply names_absent. intros de Hde Hp. destruct (fo_parents _ _ _ _ Hn de Hde) as (r & Hr & Hd & Hi).
    rewrite (Hnd r Hr) in Hd; [done|congruence]. }
  apply ewp_bind, dir_slot_spec; [|intros Hno; apply HX; right; split; [apply Hdir; intros r Hr Hi; by destruct (Hno r Hr)|by left]|].
  2:{ intros r Hr Hi Hd. apply HX. right. split; [|by right]. apply Hdir. intros r' Hr' Hi'.
      by rewrite (nodup_map_eq i_ino _ r' r (fo_inos _ _ _ _ Hn) Hr' Hr) by congruence. }
  intros _ _ _ _. apply ewp_pbind, wp_get, ewp_bind, ewp_lift. apply find_dent_spec; [done| |].
  - intros e de He. pose proof (names_present _ _ _ _ _ Hn He) as Hname'. destruct (fo_targets _ _ _ _ Hn de (entry_in _ _ _ _ _ He)) as (_ & r & Hr & Hi).
    destruct He as (He0 & Hl & _). apply ewp_pbind, wp_lift. rewrite (index_ret _ _ de) by done. cbn [owp]. rewrite <-Hi.
    apply ewp_lift, node_from_spec; [done|done|]. intros n k E _ _ _. apply HQ; [done|congruence].
  - intros Hno. apply HX. right. split; [by apply names_absent|by left].
Qed.

(** ** Create *)

(** Why [create] refuses. *)
Inductive create_refused (v : Vol) (dir : Z) (name : list Z) (kind : InodeKind) (target : option (list Z)) : Error → Prop :=
  | create_name e : name_ok name = inr e → create_refused v dir name kind target e
  | create_no_dir : (∀ r, r ∈ used_inodes v → i_ino r ≠ dir) → create_refused v dir name kind target NotFound
  | create_not_dir r : r ∈ used_inodes v → i_ino r = dir → is_dir r = false → create_refused v dir name kind target NotDir
  | create_exists ino : names v !! (dir, name) = Some ino → create_refused v dir name kind target Exists
  | create_target e : link_target kind target = inr e → create_refused v dir name kind target e
  | create_kind : kind = Chr ∨ kind = Blk → create_refused v dir name kind target Perm
  | create_numbers : v_next_ino v = 2 ^ 32 - 1 → create_refused v dir name kind target NoSpace
  | create_inodes : zlen (used_inodes v) = MAX_INODES → create_refused v dir name kind target NoSpace
  | create_dents : zlen (used_dents v) = MAX_DENTS → create_refused v dir name kind target NoSpace.

(** The new file, and its name in the map. *)
Record created (v : Vol) (dir : Z) (name : list Z) (kind : InodeKind) (mode : Z) (target : option (list Z)) (n : Node) (v' : Vol) : Prop := {
  cd_fs : fs_ok v';
  cd_moves : moves v v';
  cd_dir : ∃ p, p ∈ used_inodes v ∧ is_dir p = true ∧ i_ino p = dir;
  cd_absent : names v !! (dir, name) = None;
  cd_names : names v' = <[(dir, name) := v_next_ino v]> (names v);
  cd_next : v_next_ino v' = v_next_ino v + 1;
  cd_files : ∃ r t, link_target kind target = inl t ∧ new_inode v (v_next_ino v) kind mode t = Ret r ∧ bodies v' ≡ₚ body r :: bodies v;
  cd_node : n_ino n = v_next_ino v ∧ n_kind n = kind;
}.

Lemma new_inode_ret v ino kind mode t :
  u32 ino → u16 mode → u64 (v_now v) → match t with Some t => bytes_ok t ∧ zlen t ≤ 128 | None => True end →
  ∃ r, new_inode v ino kind mode t = Ret r ∧ inode_good r ∧ i_used r = true ∧ i_ino r = ino ∧ i_kind r = kind_to kind ∧ extents_of r = [].
Proof.
  intros Hi Hm Hnow Ht.
  assert (Hgood : ∀ flags size len data, u8 flags → u64 size → 0 ≤ len ≤ 128 → length data = 128%nat → bytes_ok data →
    inode_good (mkInode true ino (kind_to kind) flags mode 1 0 0 size (v_now v) (v_now v) (v_now v) 0 0 len (i_extents Inode_EMPTY) data)).
  { intros flags size len data Hf Hs Hl Hd Hb. split.
    - split; try done; cbn; try (unfold u8, in_width; by destruct kind).
      + unfold u8, in_width. lia.
      + exact (zero_extents 4).
    - intros _. split; [by destruct kind|]. split; [by compute|]. cbn. change INLINE with 128. lia. }
  assert (Hf : u8 (if bool_decide (kind = Dir) then 0 else F_INLINE)) by (by case_bool_decide).
  unfold new_inode. destruct t as [t|].
  - destruct Ht as [Hb Hl]. cbn [i_inline_data]. rewrite copy_into_ret; [|lia|change (zlen (i_inline_data Inode_EMPTY)) with 128; lia].
    cbn [obind]. eexists. split_and!; [done| |done..]. unfold i_with_inline, i_with_size.
    cbn [i_used i_ino i_kind i_flags i_mode i_nlink i_uid i_gid i_size i_atime i_mtime i_ctime i_dir_root i_n_ext i_inline_len i_extents i_inline_data].
    assert (Hz : zlen (i_inline_data Inode_EMPTY) = 128) by done.
    apply Hgood; [done| | | |].
    + unfold u64, in_width. zlia.
    + unfold wrap. rewrite Z.mod_small; zlia.
    + pose proof (zlen_splice (i_inline_data Inode_EMPTY) 0 t ltac:(lia) ltac:(lia)). zlia.
    + apply splice_bytes; [exact (zero_bytes 128)|done].
  - eexists. split_and!; [done| |done..]. by apply Hgood; try exact (zero_bytes 128).
Qed.

Lemma files_add rs ds root next r de :
  files_ok rs ds root next → 0 < next → i_ino r = next → extents_of r = [] → d_ino de = next →
  (∃ p, p ∈ rs ∧ is_dir p = true ∧ i_ino p = d_parent de) →
  (∀ x, x ∈ ds → d_parent x = d_parent de → name_of x ≠ name_of de) →
  files_ok (r :: rs) (de :: ds) root (next + 1).
Proof.
  intros [Fi Fn Fr Fp Ft Fl Fm Fe] H0 Hr He Hd (p & Hp & Hpd & Hpi) Hno. split.
  - cbn [map]. apply NoDup_cons. split; [|done]. intros (x & E & Hx)%list_elem_of_fmap. specialize (Fn x Hx). lia.
  - intros x [->|Hx]%elem_of_cons; [lia|]. specialize (Fn x Hx). lia.
  - destruct Fr as (x & Hx & ? & ?). exists x. split_and!; [by right|done|done].
  - intros x [->|Hx]%elem_of_cons; [exists p; split_and!; [by right|done|done]|].
    destruct (Fp x Hx) as (y & Hy & ? & ?). exists y. split_and!; [by right|done|done].
  - intros x [->|Hx]%elem_of_cons.
    + split; [|exists r; split; [by left|congruence]]. destruct Fr as (y & Hy & _ & <-). specialize (Fn y Hy). lia.
    + destruct (Ft x Hx) as (? & y & Hy & ?). split; [done|]. exists y. split; [by right|done].
  - cbn [map]. apply NoDup_cons. split; [|done]. intros (x & E & Hx)%list_elem_of_fmap.
    destruct (Ft x Hx) as (_ & y & Hy & Hy'). specialize (Fn y Hy). lia.
  - cbn [map]. apply NoDup_cons. split; [|done]. intros (x & E & Hx)%list_elem_of_fmap. injection E as E1 E2. by destruct (Hno x Hx).
  - intros x [->|Hx]%elem_of_cons; [by rewrite He|by apply Fe].
Qed.

Lemma full_used {A} (P : A → Prop) `{!∀ x, Decision (P x)} (l : list A) : (∀ x, x ∈ l → P x) → filter P l = l.
Proof. induction l as [|x l IH]; intros Hl; [done|]. rewrite filter_cons, decide_True by (apply Hl; by left). rewrite IH; [done|]. intros y Hy. apply Hl. by right. Qed.

(** The tables once the new record and entry are in. *)
Lemma create_tables v dir name kind slot e r0 de0 r de p :
  fs_ok v → v_inodes v !! slot = Some r0 → i_used r0 = false → v_dents v !! e = Some de0 → d_used de0 = false →
  inode_good r → i_used r = true → i_ino r = v_next_ino v → extents_of r = [] → u32 (v_next_ino v + 1) →
  de = new_dent dir (v_next_ino v) kind name → dent_good de → name_of de = name →
  p ∈ used_inodes v → is_dir p = true → i_ino p = dir → names v !! (dir, name) = None →
  let v1 := retab v (v_next_ino v + 1) (<[slot:=r]> (v_inodes v)) (<[e:=de]> (v_dents v)) in
  fs_ok v1 ∧ names v1 = <[(dir, name) := v_next_ino v]> (names v) ∧ bodies v1 ≡ₚ body r :: bodies v.
Proof.
  intros Hfs Hs Hs0 He He0 Gr Ur Ir Er Hu -> Gd Nd Hp Hpd Hpi Hno v1. pose proof Hfs as [Hv Hn Hc].
  pose proof (vk_tables _ Hv) as (L1 & G1 & L2 & G2)%tables_good.
  destruct (filter_slot (λ r, i_used r = true) _ _ _ Hs) as (k & Ek & Ek'). specialize (Ek' r).
  destruct (filter_slot (λ de, d_used de = true) _ _ _ He) as (k2 & Ed & Ed'). specialize (Ed' (new_dent dir (v_next_ino v) kind name)).
  unfold only in *. rewrite decide_False in Ek by congruence. rewrite decide_True in Ek' by done.
  rewrite decide_False in Ed by congruence. rewrite decide_True in Ed' by done. cbn [app] in *. rewrite <-Ek in Ek'. rewrite <-Ed in Ed'.
  assert (Hd : all_data (r :: used_inodes v) = all_data (used_inodes v)) by (unfold all_data; cbn [map concat]; unfold data_blocks at 1; by rewrite Er).
  assert (Hf : files_ok (r :: used_inodes v) (new_dent dir (v_next_ino v) kind name :: used_dents v) (v_root_ino v) (v_next_ino v + 1)).
  { apply files_add; try done; [specialize (fo_next _ _ _ _ Hn p Hp); lia|by exists p|]. rewrite Nd. by apply names_absent. }
  split_and!.
  - apply retab_ok; try done; rewrite ?length_insert; try done.
    + eapply credit_perm; [|exact Hc]. rewrite <-Hd. apply all_data_core. by rewrite Ek'.
    + by apply Forall_insert.
    + by apply Forall_insert.
    + eapply files_ok_core; [..|exact Hf]; [by rewrite Ek'|by rewrite Ed'].
  - unfold names. transitivity (names_in (new_dent dir (v_next_ino v) kind name :: used_dents v)); [|by rewrite names_cons, Nd].
    symmetry. apply names_perm; [exact (fo_names _ _ _ _ Hf)|by symmetry].
  - exact (Permutation_map body Ek').
Qed.

Lemma link_target_fit kind target t :
  link_target kind target = inl t → match target with Some x => bytes_ok x | None => True end →
  match t with Some x => bytes_ok x ∧ zlen x ≤ 128 | None => True end.
Proof.
  destruct kind; cbn [link_target]; try by intros [= <-].
  destruct target as [x|]; [|done]. destruct (_ || _) eqn:E; [done|]. intros [= <-] Hb. split; [done|].
  apply orb_false_iff in E as [_ E%Z.ltb_ge]. exact E.
Qed.

Lemma create_run v dir name kind mode target :
  fs_ok v → u32 dir → u16 mode → bytes_ok name → match target with Some t => bytes_ok t | None => True end →
  ewp (create dir name kind mode target) v (created v dir name kind mode target)
    (λ e v', v' = v ∧ create_refused v dir name kind target e).
Proof.
  intros Hfs Hdir Hmode Hbytes Htarget. pose proof Hfs as [Hv Hn Hc]. pose proof (vk_tables _ Hv) as Ht. unfold create.
  apply ewp_bind, ewp_ret. destruct (name_ok name) as [[]|e] eqn:Hname; [|split; [done|by constructor]].
  apply ewp_bind, dir_slot_spec; [|intros Hno; split; [done|by constructor]|intros r Hr Hi Hd; split; [done|by eapply create_not_dir]].
  intros ds p Hp Hpd. pose proof (slot_in _ _ _ _ Hp) as Hpin. apply ewp_pbind, wp_get, ewp_pbind, wp_lift.
  apply find_dent_spec; [done| |].
  { intros e de He. apply ewp_bind, ewp_bail; [|done]. intros _. split; [done|]. eapply create_exists. by eapply names_present. }
  intros Hno%names_absent. apply ewp_bind, ewp_bail; [done|]. intros _.
  apply ewp_bind, ewp_ret. destruct (link_target kind target) as [t|e] eqn:Hlt; [|split; [done|by constructor]].
  apply ewp_bind, ewp_bail; [intros Hk%orb_true_iff; split; [done|]; apply create_kind; by rewrite !bool_decide_eq_true in Hk|].
  intros [Hk1%bool_decide_eq_false Hk2%bool_decide_eq_false]%orb_false_iff.
  pose proof (fo_next _ _ _ _ Hn p Hpin) as Hnext. pose proof (su_next_ino _ (vk_super _ Hv)) as Hu32. unfold u32, in_width in Hu32.
  apply ewp_bind, ewp_ret. unfold checked_add. destruct (Z.ltb_spec (v_next_ino v + 1) (2 ^ 32)) as [Hlt32|Hge];
    cbn [ok_or]; [|split; [done|]; apply create_numbers; lia].
  apply ewp_bind, ewp_bail; [lia|]. intros _.
  apply ewp_bind, ewp_ret. unfold alloc_ino_slot. pose proof (table_search (λ r, negb (i_used r)) (v_inodes v) 0) as Hs.
  destruct (position_from _ (v_inodes v) 0) as [s|]; cbn [ok_or].
  2:{ split; [done|]. apply create_inodes. rewrite full_used by (intros r Hr; by apply negb_false_iff, Hs). pose proof (tt_inodes _ Ht). by change MAX_INODES with 64; zlia. }
  apply ewp_bind, ewp_ret. unfold alloc_dent. pose proof (table_search (λ r, negb (d_used r)) (v_dents v) 0) as He.
  destruct (position_from _ (v_dents v) 0) as [e|]; cbn [ok_or].
  2:{ split; [done|]. apply create_dents. rewrite full_used by (intros r Hr; by apply negb_false_iff, He). pose proof (tt_dents _ Ht). by change MAX_DENTS with 96; zlia. }
  destruct Hs as (Hs0 & r0 & Hs & Hr0%negb_true_iff). destruct He as (He0 & de0 & He & Hde0%negb_true_iff). rewrite Z.sub_0_r in *.
  apply ewp_pbind, wp_modify, ewp_pbind, wp_lift.
  destruct (new_inode_ret v (v_next_ino v) kind mode t) as (r & Hr & Gr & Ur & Ir & Kr & Er); [done|done|exact (lt_now _ (vk_lists _ Hv))|by eapply link_target_fit|].
  rewrite Hr. cbn [owp]. apply ewp_pbind. apply (put_inode_run _ _ r0); [done|exact Hs|].
  destruct (new_dent_good dir (v_next_ino v) (i_kind r) name) as (Gd & Nd & Ea & Ew); [done|done|exact (it_kind _ (proj1 Gr))|done|by apply name_ok_len|].
  apply ewp_pbind, wp_lift. rewrite Ea. cbn [owp]. rewrite Ew. apply ewp_pbind. apply (put_dent_run _ _ de0); [done|exact He|].
  destruct (create_tables v dir name (i_kind r) (Z.to_nat s) (Z.to_nat e) r0 de0 r (new_dent dir (v_next_ino v) (i_kind r) name) p)
    as (Hfs1 & Hnm1 & Hb1); try done; [split; lia|by destruct Hp as (_ & _ & _ & ?)|].
  set (v1 := retab v _ _ _) in *. apply ewp_pbind. change (wp (bump_mtime dir) v1
    (λ _ s', ewp (v0 <- get ;; lift (node_from v0 (v_next_ino v) name)) s' (created v dir name kind mode target) (λ e v', v' = v ∧ create_refused v dir name kind target e))).
  apply bump_mtime_run; [exact (vk_tables _ (fk_vol _ Hfs1))|exact (lt_now _ (vk_lists _ Hv))|]. intros v2 Hst.
  pose proof (stamped_ok _ _ Hfs1 Hst) as Hfs2. pose proof (stamped_bodies _ _ Hst) as Hb2.
  assert (Hr2 : body r ∈ bodies v2) by (rewrite Hb2, Hb1; by left). apply list_elem_of_fmap in Hr2 as (r2 & Eb & Hr2).
  assert (Ei : i_ino r2 = v_next_ino v) by (transitivity (i_ino (body r2)); [done|by rewrite <-Eb]).
  assert (Ekd : i_kind r2 = kind_to kind) by (transitivity (i_kind (body r2)); [done|by rewrite <-Eb]).
  apply ewp_pbind, wp_get. rewrite <-Ei. apply ewp_lift, node_from_spec; [done|done|].
  intros n k En Ekn Ekk _. split; try done.
  - eapply moves_trans; [apply retab_moves|by apply stamped_moves].
  - exists p. split_and!; [done|done|apply Hp].
  - rewrite <-Hnm1. by destruct Hst as (? & _ & _ & ->).
  - by destruct Hst as (? & _ & _ & ->).
  - exists r, t. split_and!; [done|done|]. by rewrite Hb2.
  - split; [congruence|]. rewrite Ekd in Ekk. destruct kind; cbn in Ekk; congruence.
Qed.

(** ** Unlink *)
Lemma range_len v phys len : Forall (λ b, 2 ≤ b < v_nblocks v) (range phys (phys + len)) → v_nblocks v ≤ 1024 → len ≤ 1024.
Proof.
  intros Hf Hn. destruct (decide (0 < len)) as [Hl|]; [|lia]. rewrite Forall_forall in Hf.
  pose proof (Hf phys ltac:(apply elem_of_range; lia)). pose proof (Hf (phys + len - 1) ltac:(apply elem_of_range; lia)). lia.
Qed.

Lemma count_drops_ret v es : ∀ acc,
  maps_typed v → v_nblocks v ≤ 1024 → Forall (λ b, 2 ≤ b < v_nblocks v) (concat (map ext_blocks es)) →
  Forall (λ e, 0 ≤ e_len e) es → 0 ≤ acc → acc + 1024 * zlen es < 2 ^ 64 →
  ofor es (λ e drops, n <~ drops_needed v (e_phys e) (e_len e) ;; addc 64 drops n) acc = Ret (acc + pending v (concat (map ext_blocks es))).
Proof.
  induction es as [|e es IH]; intros acc Hm Hn Hf Hl Ha Hb; [cbn; change (pending v []) with 0; f_equal; lia|].
  cbn [map concat] in *. apply Forall_app in Hf as [Hf1 Hf2]. apply Forall_cons in Hl as [Hl1 Hl2]. cbn [ofor].
  unfold ext_blocks in Hf1 at 1. rewrite drops_needed_ret by done. cbn [obind]. pose proof (range_len _ _ _ Hf1 Hn).
  assert (pending v (range (e_phys e) (e_phys e + e_len e)) ≤ e_len e).
  { unfold pending. etransitivity; [apply (length_filter_zlen (λ b, txn_of v b = false))|]. unfold zlen, range. rewrite length_seqZ. lia. }
  pose proof (pending_nonneg v (range (e_phys e) (e_phys e + e_len e))).
  rewrite addc_ret by (unfold in_width; zlia). cbn [obind]. rewrite IH; try done; try zlia. rewrite pending_app. f_equal. unfold ext_blocks. lia.
Qed.

Lemma drop_extents_run es : ∀ v rest,
  Forall (λ e, 0 ≤ e_phys e) es → ready v (concat (map ext_blocks es) ++ rest) → v_ndrop v + pending v (concat (map ext_blocks es)) ≤ 96 →
  ewp (efor es (λ e, drop_extent (e_phys e) 0 (e_len e))) v (λ _ v', drops v (concat (map ext_blocks es)) rest v') (λ _ _, False).
Proof.
  induction es as [|e es IH]; intros v rest Hp Hr Hn; cbn [map concat efor] in *; [apply ewp_ok; by apply drops_nil|].
  apply Forall_cons in Hp as [Hp1 Hp2]. rewrite <-app_assoc in Hr. rewrite pending_app in Hn. pose proof (pending_nonneg v (concat (map ext_blocks es))).
  assert (Hx : ext_blocks e = range (e_phys e + 0) (e_phys e + e_len e)) by (by rewrite Z.add_0_r).
  apply ewp_bind. eapply ewp_mono; [apply drop_extent_run; [rewrite <-Hx; exact Hr|rewrite <-Hx; lia|done]| |done].
  rewrite <-Hx. intros [] v1 Hd. pose proof Hd as [R1 _ _ N1 T1].
  assert (Hpe : pending v1 (concat (map ext_blocks es)) = pending v (concat (map ext_blocks es))) by (apply pending_ext; intros y Hy; apply T1, elem_of_app; by left).
  eapply ewp_mono; [apply (IH v1 rest); [done|done|lia]| |done]. intros [] v2 Hd2. by eapply drops_trans.
Qed.

Lemma used_exts v r : fs_ok v → r ∈ used_inodes v → Forall extent_ok (extents_of r) ∧ zlen (extents_of r) ≤ 4.
Proof.
  intros Hfs [Hu Hin]%list_elem_of_filter. pose proof (vk_tables _ (fk_vol _ Hfs)) as (_ & G & _ & _)%tables_good.
  rewrite Forall_forall in G. destruct (G r Hin) as [[] _]. split; [by apply Forall_take|].
  unfold extents_of, zlen. rewrite length_take. lia.
Qed.

Lemma free_data_run v ino s r rest :
  fs_ok v → inode_slot v ino = inl s → slot_of v ino s r → all_data (used_inodes v) ≡ₚ data_blocks r ++ rest →
  ewp (free_inode_data ino) v (λ _ v', drops v (data_blocks r) rest v')
    (λ e v', v' = v ∧ e = NoSpace ∧ MAX_DROP < v_ndrop v + pending v (data_blocks r)).
Proof.
  intros Hfs Hslot Hs Hall. pose proof Hfs as [Hv Hn Hc]. destruct (used_exts v r Hfs (slot_in _ _ _ _ Hs)) as [Hex Hlen].
  pose proof (proj2 (su_nblocks _ (vk_super _ Hv))) as Hmax. destruct Hs as (Hs0 & Hl & _). unfold free_inode_data.
  assert (Hr : ready v (data_blocks r ++ rest)) by (split; [done|by eapply credit_perm]).
  assert (Hrg : Forall (λ b, 2 ≤ b < v_nblocks v) (data_blocks r)).
  { pose proof (cr_range _ _ (rd_credit _ _ Hr)) as Hrg. rewrite !Forall_app in Hrg. tauto. }
  apply ewp_pbind, wp_get, ewp_bind, ewp_ret. rewrite Hslot. apply ewp_pbind. unfold inode_at at 1. apply wp_bind, wp_get, wp_lift.
  rewrite (index_ret _ _ r) by done. cbn [owp]. apply ewp_pbind, wp_lift. unfold count_drops.
  rewrite count_drops_ret; [|exact (vk_maps _ Hv)|exact Hmax|exact Hrg| |lia|lia].
  2:{ eapply Forall_impl; [exact Hex|]. intros e []. unfold u32, in_width in *. lia. }
  cbn [owp]. apply ewp_bind, ewp_ret. unfold drop_room, refuse_if. fold (data_blocks r). rewrite Z.add_0_l. destruct (Z.ltb_spec MAX_DROP (v_ndrop v + pending v (data_blocks r))) as [|Hroom]; [done|].
  eapply ewp_mono; [apply (drop_extents_run (extents_of r) v rest)| |done].
  - eapply Forall_impl; [exact Hex|]. intros e []. unfold u32, in_width in *. lia.
  - exact Hr.
  - exact Hroom.
  - done.
Qed.

(** Why [unlink] refuses. *)
Inductive unlink_refused (v : Vol) (dir : Z) (name : list Z) (rmdir : bool) : Error → Prop :=
  | unlink_name e : name_ok name = inr e → unlink_refused v dir name rmdir e
  | unlink_no_dir : (∀ r, r ∈ used_inodes v → i_ino r ≠ dir) → unlink_refused v dir name rmdir NotFound
  | unlink_not_dir r : r ∈ used_inodes v → i_ino r = dir → is_dir r = false → unlink_refused v dir name rmdir NotDir
  | unlink_absent : names v !! (dir, name) = None → unlink_refused v dir name rmdir NotFound
  | unlink_file r : names v !! (dir, name) = Some (i_ino r) → r ∈ used_inodes v → rmdir = true → is_dir r = false → unlink_refused v dir name rmdir NotDir
  | unlink_full r sub x : names v !! (dir, name) = Some (i_ino r) → r ∈ used_inodes v → rmdir = true → names v !! (i_ino r, sub) = Some x →
      unlink_refused v dir name rmdir NotEmpty
  | unlink_dir r : names v !! (dir, name) = Some (i_ino r) → r ∈ used_inodes v → rmdir = false → is_dir r = true → unlink_refused v dir name rmdir IsDir
  | unlink_room r : names v !! (dir, name) = Some (i_ino r) → r ∈ used_inodes v → MAX_DROP < v_ndrop v + pending v (data_blocks r) →
      unlink_refused v dir name rmdir NoSpace.

(** The record of an inode that has lost a name. *)
Definition less_link (r : Inode) : list Inode := if i_nlink r <=? 1 then [] else [i_with_nlink r (i_nlink r - 1)].

Record unlinked (v : Vol) (dir : Z) (name : list Z) (rmdir : bool) (v' : Vol) : Prop := {
  ul_fs : fs_ok v';
  ul_moves : moves v v';
  ul_names : names v' = delete (dir, name) (names v);
  ul_next : v_next_ino v' = v_next_ino v;
  ul_files : ∃ r k, names v !! (dir, name) = Some (i_ino r) ∧ r ∈ used_inodes v ∧ is_dir r = rmdir ∧ (∀ sub, names v !! (i_ino r, sub) = None) ∧
    bodies v ≡ₚ body r :: k ∧ bodies v' ≡ₚ map body (less_link r) ++ k;
}.

Lemma files_del r rs de ds root next :
  files_ok (r :: rs) (de :: ds) root next → d_ino de = i_ino r → (∀ x, x ∈ ds → d_parent x ≠ i_ino r) → files_ok rs ds root next.
Proof.
  intros [Fi Fn Fr Fp Ft Fl Fm Fe] Hd Hno. cbn [map] in *. apply NoDup_cons in Fi as [_ Fi].
  pose proof Fl as [Fl1 Fl2]%NoDup_cons. apply NoDup_cons in Fm as [_ Fm]. split; try done.
  - intros x Hx. apply Fn. by right.
  - destruct Fr as (x & [->|Hx]%elem_of_cons & ? & ?); [|by exists x]. destruct (Ft de (list_elem_of_here _ _)) as [Hne _]. congruence.
  - intros x Hx. destruct (Fp x (list_elem_of_further _ _ _ Hx)) as (y & [->|Hy]%elem_of_cons & ? & ?); [|by exists y]. by destruct (Hno x Hx).
  - intros x Hx. destruct (Ft x (list_elem_of_further _ _ _ Hx)) as (? & y & [->|Hy]%elem_of_cons & ?); [|by eauto].
    destruct Fl1. apply list_elem_of_fmap. exists x. split; [congruence|done].
  - intros x Hx. apply Fe. by right.
Qed.
Lemma files_unname rs de ds root next : files_ok rs (de :: ds) root next → files_ok rs ds root next.
Proof.
  intros [Fi Fn Fr Fp Ft Fl Fm Fe]. cbn [map] in *. apply NoDup_cons in Fl as [_ Fl]. apply NoDup_cons in Fm as [_ Fm].
  split; try done; intros x Hx; [apply Fp|apply Ft]; by right.
Qed.

Lemma less_link_good r : inode_good r → Forall inode_good (less_link r).
Proof.
  intros [Ht Hv]. unfold less_link. destruct (Z.leb_spec (i_nlink r) 1); [by apply Forall_nil|]. rewrite Forall_singleton. split; [|exact Hv].
  destruct Ht. split; try done. cbn. unfold u32, in_width in *. lia.
Qed.

(** The tables once the entry is out and the record has lost a link. *)
Lemma unlink_tables v v1 dir name s e r de :
  fs_ok v → slot_of v (d_ino de) s r → entry_of v dir name e de → (∀ x, x ∈ used_dents v → d_parent x ≠ i_ino r) → space_only v v1 →
  (if i_nlink r <=? 1 then ∀ k, all_data (used_inodes v) ≡ₚ data_blocks r ++ k → ready v1 k else v1 = v) →
  let v2 := retab v1 (v_next_ino v) (<[Z.to_nat s := default Inode_EMPTY (head (less_link r))]> (v_inodes v)) (<[Z.to_nat e := Dent_EMPTY]> (v_dents v)) in
  fs_ok v2 ∧ names v2 = delete (dir, name) (names v) ∧ ∃ k, bodies v ≡ₚ body r :: k ∧ bodies v2 ≡ₚ map body (less_link r) ++ k.
Proof.
  intros Hfs (Hs0 & Hs & Hu & Hi) He Hno Hsp Hv1 v2. pose proof Hfs as [Hv Hn Hc]. destruct He as (He0 & He & Hud & Hpar & Hnm).
  pose proof (vk_tables _ Hv) as (L1 & G1 & L2 & G2)%tables_good. assert (Hroot : v_root_ino v1 = v_root_ino v) by (by destruct Hsp as (? & ? & ? & ? & ? & ->)).
  destruct (filter_slot (λ r, i_used r = true) _ _ _ Hs) as (k & Ek & Ek'). specialize (Ek' (default Inode_EMPTY (head (less_link r)))).
  destruct (filter_slot (λ de, d_used de = true) _ _ _ He) as (k2 & Ed & Ed'). specialize (Ed' Dent_EMPTY).
  unfold only in Ek, Ed, Ed'. rewrite decide_True in Ek by done. rewrite decide_True in Ed by done. rewrite decide_False in Ed' by done. cbn [app] in *.
  assert (El : only (λ r, i_used r = true) (default Inode_EMPTY (head (less_link r))) = less_link r).
  { unfold less_link, only. destruct (i_nlink r <=? 1); [done|]. cbn. by rewrite Hu. }
  rewrite El in Ek'. clear El. pose proof (Forall_lookup_1 _ _ _ _ G1 Hs) as Gr. pose proof (less_link_good r Gr) as Gl.
  assert (Hf : files_ok (r :: k) (de :: k2) (v_root_ino v) (v_next_ino v)) by (eapply files_ok_core; [..|exact Hn]; [by rewrite Ek|by rewrite Ed]).
  assert (Hdata : all_data (used_inodes v) ≡ₚ data_blocks r ++ all_data k) by (apply (all_data_core _ (r :: k)); by rewrite Ek).
  assert (Hfl : files_ok (less_link r ++ k) k2 (v_root_ino v) (v_next_ino v) ∧ ready v1 (all_data (less_link r ++ k))).
  { unfold less_link. destruct (i_nlink r <=? 1).
    - split; [|by apply Hv1]. apply (files_del r k de k2); [done|done|]. intros x Hx. apply Hno. rewrite Ed. by right.
    - subst v1. split; [apply (files_unname _ de); exact (files_ok_core (r :: k) (i_with_nlink r (i_nlink r - 1) :: k) (de :: k2) _ _ _ (Permutation_refl _) (Permutation_refl _) Hf)|].
      split; [done|]. exact (credit_perm _ _ _ Hdata Hc). }
  destruct Hfl as [Hfl [Hv1' Hc1]]. split_and!.
  - apply retab_ok; try done; rewrite ?length_insert; try done.
    + eapply credit_perm; [|exact Hc1]. apply all_data_core. by rewrite Ek'.
    + exact (su_next_ino _ (vk_super _ Hv)).
    + apply Forall_insert; [done|]. destruct (less_link r) as [|x l]; [exact inode_empty_good|]. by apply Forall_cons in Gl as [? _].
    + apply Forall_insert; [done|exact dent_empty_good].
    + rewrite Hroot. eapply files_ok_core; [..|exact Hfl]; [by rewrite Ek'|by rewrite Ed'].
  - rewrite <-Hpar, <-Hnm, <-(names_without v (Z.to_nat e) de k2 Hn He Ed). symmetry. apply names_perm; [|by symmetry].
    apply (fo_names _ _ _ _ Hfl).
  - exists (map body k). split; [exact (Permutation_map body Ek)|]. rewrite <-map_app. exact (Permutation_map body Ek').
Qed.

Lemma dir_count_zero v ino : dir_count v ino = 0 ↔ ∀ x, x ∈ used_dents v → d_parent x ≠ ino.
Proof.
  unfold dir_count. split.
  - intros Hz x [Hu Hx]%list_elem_of_filter Hp.
    assert (Hin : x ∈ filter (λ de, d_used de && (d_parent de =? ino) = true) (v_dents v)) by (apply list_elem_of_filter; split; [by rewrite Hu, Hp, Z.eqb_refl|done]).
    destruct (filter _ _); [by apply elem_of_nil in Hin|zlia].
  - intros Hno. destruct (filter (λ de, d_used de && (d_parent de =? ino) = true) (v_dents v)) as [|x l] eqn:E; [done|].
    assert (Hin : x ∈ filter (λ de, d_used de && (d_parent de =? ino) = true) (v_dents v)) by (rewrite E; by left).
    apply list_elem_of_filter in Hin as [[Hu Hp%Z.eqb_eq]%andb_true_iff Hx]. by destruct (Hno x ltac:(by apply list_elem_of_filter)).
Qed.
Lemma no_subs v ino : names_ok v → (∀ x, x ∈ used_dents v → d_parent x ≠ ino) → ∀ sub, names v !! (ino, sub) = None.
Proof. intros Hn Hno sub. apply names_absent. intros de Hde Hp. by destruct (Hno de Hde). Qed.

Lemma upd_inode_run v s r f (Q : unit → Vol → Prop) :
  0 ≤ s → v_inodes v !! Z.to_nat s = Some r → Q tt (set_inodes v (<[Z.to_nat s := f r]> (v_inodes v))) → wp (upd_inode s f) v Q.
Proof.
  intros Hs Hl HQ. unfold upd_inode, inode_at. apply wp_bind, wp_bind, wp_get, wp_lift. rewrite (index_ret _ _ r) by done. cbn [owp].
  by apply (put_inode_run _ _ r).
Qed.

(** The steps of [unlink] after its checks. *)
Lemma unlink_steps v v1 dir name s e r de (X : Error → Vol → Prop) :
  fs_ok v → slot_of v (d_ino de) s r → entry_of v dir name e de → (∀ x, x ∈ used_dents v → d_parent x ≠ i_ino r) → space_only v v1 → keeps v v1 →
  (if i_nlink r <=? 1 then ∀ k, all_data (used_inodes v) ≡ₚ data_blocks r ++ k → ready v1 k else v1 = v) →
  let nlink := saturating_sub (i_nlink r) 1 in
  ewp (put_dent_at e Dent_EMPTY ;;
       upd_inode s (λ r, i_with_nlink r nlink) ;;
       (if nlink =? 0 then upd_inode s (λ _, Inode_EMPTY) else bump_ctime (d_ino de)) ;;
       bump_mtime dir ;;
       ok tt) v1
    (λ _ v', unlinked v dir name (is_dir r) v' ∧ v_dents v' = <[Z.to_nat e := Dent_EMPTY]> (v_dents v)) X.
Proof.
  intros Hfs Hslot Hent Hno Hsp Hk Hv1 nlink. pose proof (unlink_tables v v1 dir name s e r de Hfs Hslot Hent Hno Hsp Hv1) as (Hfs2 & Hnm2 & k & Hb & Hb2).
  pose proof Hfs as [Hv Hn _]. pose proof (slot_in _ _ _ _ Hslot) as Hin. destruct Hslot as (Hs0 & Hs & Hu & Hi). pose proof (names_present _ _ _ _ _ Hn Hent) as Hpres.
  destruct Hent as (He0 & He & _).
  assert (E1 : v_inodes v1 = v_inodes v ∧ v_dents v1 = v_dents v ∧ v_next_ino v1 = v_next_ino v ∧ v_now v1 = v_now v) by (by destruct Hsp as (? & ? & ? & ? & ? & ->)).
  destruct E1 as (Ei & Ed & En & Enow). pose proof (lt_now _ (vk_lists _ Hv)) as Hnow.
  set (v2 := retab v1 _ _ _) in *.
  assert (Hlast : ∀ v3, v3 = v2 ∨ stamped v2 v3 → ewp (bump_mtime dir ;; ok tt) v3
    (λ _ v', unlinked v dir name (is_dir r) v' ∧ v_dents v' = <[Z.to_nat e := Dent_EMPTY]> (v_dents v)) X).
  { intros v3 Hv3. assert (Hfs3 : fs_ok v3) by (destruct Hv3 as [->|Hst]; [done|by eapply stamped_ok]).
    assert (Hnow3 : u64 (v_now v3)) by (destruct Hv3 as [->|(? & _ & _ & ->)]; cbn; by rewrite Enow).
    apply ewp_pbind, bump_mtime_run; [exact (vk_tables _ (fk_vol _ Hfs3))|done|]. intros v4 Hst4. apply ewp_ok.
    assert (Hst : stamped v2 v4) by (destruct Hv3 as [->|Hst]; [done|by eapply stamped_trans]).
    assert (Ev4 : v_dents v4 = <[Z.to_nat e := Dent_EMPTY]> (v_dents v) ∧ v_next_ino v4 = v_next_ino v ∧ names v4 = names v2) by (by destruct Hst as (? & _ & _ & ->)).
    destruct Ev4 as (Ed4 & En4 & Enm4). split; [|done]. split; [by eapply stamped_ok| |by rewrite Enm4|done|].
    - apply (moves_trans v v1); [by apply space_moves|]. apply (moves_trans v1 v2); [apply retab_moves|by apply stamped_moves].
    - exists r, k. split_and!; [congruence|done|done|by apply no_subs|done|]. by rewrite (stamped_bodies _ _ Hst). }
  apply ewp_pbind, (put_dent_run _ _ de); [done|by rewrite Ed|]. rewrite Ed. apply ewp_pbind, (upd_inode_run _ _ r); [done|cbn; by rewrite Ei|].
  cbn [v_inodes set_dents]. rewrite Ei. apply ewp_pbind. unfold saturating_sub in nlink. pose proof (Z.leb_spec (i_nlink r) 1) as Hle. unfold less_link in v2, Hb2.
  destruct (i_nlink r <=? 1); inversion_clear Hle.
  - replace (nlink =? 0) with true by (symmetry; apply Z.eqb_eq; lia).
    eapply (upd_inode_run _ _ (i_with_nlink r nlink)); [done|cbn; rewrite list_lookup_insert_eq; [done|by eapply lookup_lt_Some]|].
    cbn [v_inodes set_inodes]. rewrite list_insert_insert_eq. apply Hlast. left. unfold v2, retab. cbn [head default]. rewrite <-En. done.
  - replace (nlink =? 0) with false by (symmetry; apply Z.eqb_neq; lia). replace nlink with (i_nlink r - 1) by lia.
    match goal with |- wp _ ?s _ => replace s with v2 by (unfold v2, retab; rewrite <-En; done) end.
    apply bump_ctime_run; [exact (vk_tables _ (fk_vol _ Hfs2))|cbn; by rewrite Enow|]. intros v3 Hst. apply Hlast. by right.
Qed.

Lemma unlink_go v dir name s e r de :
  fs_ok v → inode_slot v (d_ino de) = inl s → slot_of v (d_ino de) s r → entry_of v dir name e de → (∀ x, x ∈ used_dents v → d_parent x ≠ i_ino r) →
  let nlink := saturating_sub (i_nlink r) 1 in
  ewp ((if nlink =? 0 then free_inode_data (d_ino de) else ok tt) ?;;
       put_dent_at e Dent_EMPTY ;;
       upd_inode s (λ r, i_with_nlink r nlink) ;;
       (if nlink =? 0 then upd_inode s (λ _, Inode_EMPTY) else bump_ctime (d_ino de)) ;;
       bump_mtime dir ;;
       ok tt) v
    (λ _ v', unlinked v dir name (is_dir r) v' ∧ v_dents v' = <[Z.to_nat e := Dent_EMPTY]> (v_dents v))
    (λ e v', v' = v ∧ unlink_refused v dir name (is_dir r) e).
Proof.
  intros Hfs Es Hs He Hno nlink. pose proof Hfs as [Hv Hn Hc]. pose proof (names_present _ _ _ _ _ Hn He) as Hpres.
  assert (Hz : (nlink =? 0) = (i_nlink r <=? 1)) by (unfold nlink, saturating_sub; destruct (Z.eqb_spec (Z.max 0 (i_nlink r - 1)) 0), (Z.leb_spec (i_nlink r) 1); lia).
  pose proof (λ v1, unlink_steps v v1 dir name s e r de (λ e v', v' = v ∧ unlink_refused v dir name (is_dir r) e) Hfs Hs He Hno) as Hsteps.
  cbv zeta in Hsteps. fold nlink in Hsteps. rewrite Hz in *. apply ewp_bind. destruct (i_nlink r <=? 1).
  - destruct (filter_slot (λ r, i_used r = true) _ _ _ (proj1 (proj2 Hs))) as (k & Ek & _).
    unfold only in Ek. rewrite decide_True in Ek by (apply Hs).
    assert (Hdata : all_data (used_inodes v) ≡ₚ data_blocks r ++ all_data k) by (apply (all_data_core _ (r :: k)); by rewrite Ek).
    eapply ewp_mono; [apply (free_data_run v (d_ino de) s r (all_data k) Hfs Es Hs Hdata)| |].
    + intros [] v1 [R1 K1 S1 _ _]. apply (Hsteps v1 S1 K1).
      intros k' Hk'. eapply ready_perm; [|exact R1]. apply (Permutation_app_inv_l (data_blocks r)). by rewrite <-Hdata.
    + intros er v1 (-> & -> & Hroom). split; [done|]. apply (unlink_room v dir name _ r); [|by eapply slot_in|done].
      rewrite Hpres. f_equal. symmetry. apply Hs.
  - apply ewp_ok. exact (Hsteps v (space_refl v) (kept_refl v) eq_refl).
Qed.

Lemma unlink_run v dir name rmdir :
  fs_ok v →
  ewp (unlink dir name rmdir) v
    (λ _ v', unlinked v dir name rmdir v' ∧ ∃ e de, entry_of v dir name e de ∧ v_dents v' = <[Z.to_nat e := Dent_EMPTY]> (v_dents v))
    (λ e v', v' = v ∧ unlink_refused v dir name rmdir e).
Proof.
  intros Hfs. pose proof Hfs as [Hv Hn Hc]. pose proof (vk_tables _ Hv) as Ht. unfold unlink.
  apply ewp_bind, ewp_ret. destruct (name_ok name) as [[]|er] eqn:Hname; [|split; [done|by constructor]].
  apply ewp_bind, dir_slot_spec; [|intros Hno; split; [done|by constructor]|intros r Hr Hi Hd; split; [done|by eapply unlink_not_dir]].
  intros _ _ _ _. apply ewp_pbind, wp_get, ewp_bind, ewp_lift. apply find_dent_spec; [done| |intros Hno%names_absent; split; [done|by apply unlink_absent]].
  intros e de He. pose proof (names_present _ _ _ _ _ Hn He) as Hpres. apply ewp_pbind, wp_lift.
  rewrite (index_ret _ _ de) by (apply He). cbn [owp].
  destruct (fo_targets _ _ _ _ Hn de (entry_in _ _ _ _ _ He)) as (_ & r & Hr & Hi).
  destruct (inode_slot_eq v (d_ino de) r Hn Hr Hi) as (s & Es & Hs). rewrite <-Hi in Hpres.
  assert (Hisd : is_dir r = (i_kind r =? KIND_DIR)) by (destruct Hs as (_ & _ & Hu & _); unfold is_dir; by rewrite Hu).
  apply ewp_bind, ewp_ret. rewrite Es. apply ewp_pbind. unfold inode_at at 1. apply wp_bind, wp_get, wp_lift.
  rewrite (index_ret _ _ r) by (apply Hs). cbn [owp]. rewrite <-Hisd. apply ewp_bind.
  assert (Hgo := unlink_go v dir name s e r de Hfs Es Hs He).
  destruct rmdir.
  - apply ewp_bind, ewp_bail; [intros Hd%negb_true_iff; split; [done|by apply (unlink_file v dir name _ r)]|]. intros Hd%negb_false_iff.
    apply ewp_bail; [intros Hz%negb_true_iff|intros Hz%negb_false_iff].
    + apply Z.eqb_neq in Hz. split; [done|]. destruct (decide (List.Exists (λ x, d_parent x = d_ino de) (used_dents v))) as [Hex|Hno].
      * apply Exists_exists in Hex as (x & Hx & Hp). eapply (unlink_full v dir name _ r (name_of x) (d_ino x)); [done|done|done|].
        rewrite Hi, <-Hp. apply elem_of_list_to_map; [rewrite (entry_keys (used_dents v)); exact (fo_names _ _ _ _ Hn)|].
        apply list_elem_of_fmap. by exists x.
      * destruct Hz. apply dir_count_zero. intros x Hx Hp. apply Hno, Exists_exists. by exists x.
    + apply Z.eqb_eq in Hz. rewrite dir_count_zero in Hz. rewrite Hd in Hgo. eapply ewp_mono; [apply Hgo; by rewrite Hi| |done].
      intros [] v' [Hul Hde]. split; [done|by exists e, de].
  - apply ewp_bail; [intros Hd; split; [done|by apply (unlink_dir v dir name _ r)]|]. intros Hd. rewrite Hd in Hgo.
    eapply ewp_mono; [apply Hgo| |done]; [|intros [] v' [Hul Hde]; split; [done|by exists e, de]].
    intros x Hx Hp. destruct (fo_parents _ _ _ _ Hn x Hx) as (y & Hy & Hyd & Hyi).
    rewrite (nodup_map_eq i_ino _ y r (fo_inos _ _ _ _ Hn) Hy Hr) in Hyd by congruence. congruence.
Qed.
