(* ===== verification/VibefsRename.v ===== *)
(** * vibefs: rename and the directory tree (src/crates/core/src/fs/vibefs/ops.rs)

    A rename moves one name of the map and replaces what it lands on.  Every file
    stays reachable from the root: [in_subtree] refuses the moves that would cut a
    directory off. *)

From stdpp Require Import base strings numbers gmap list sorting.
From S2P Require Import Prelude Bytes Crc Buf FsError Vibefs VibefsCommit VibefsOps VibefsLayout VibefsSort VibefsVol.
From S2P Require Import VibefsBlocks VibefsDisk VibefsTree VibefsInodeTree VibefsProtocol VibefsFiles VibefsMount VibefsImage VibefsDurable VibefsSpace.
From S2P Require Import VibefsNames.
Import VibefsOps.

Local Open Scope Z_scope.

Abbreviation Names := (gmap (Z * list Z) Z).

(** ** Paths to the root *)
Inductive climbs (N : Names) (root : Z) : Z → Prop :=
  | climbs_root : climbs N root root
  | climbs_up dir name x : N !! (dir, name) = Some x → climbs N root dir → climbs N root x.

(** [x] is [top] or lies below it. *)
Inductive under (N : Names) (top : Z) : Z → Prop :=
  | under_here : under N top top
  | under_up dir name x : N !! (dir, name) = Some x → under N top dir → under N top x.

(** Every file has one link and a path from the root. *)
Definition tree (v : Vol) : Prop :=
  ∀ r, r ∈ used_inodes v → i_nlink r = 1 ∧ climbs (names v) (v_root_ino v) (i_ino r).

Lemma climbs_mono (N N' : Names) root x : N ⊆ N' → climbs N root x → climbs N' root x.
Proof. intros Hs. induction 1 as [|dir name x Hn _ IH]; [constructor|]. eapply climbs_up; [|exact IH]. by eapply lookup_weaken. Qed.

Lemma climbs_delete (N : Names) root k x y :
  N !! k = Some x → (∀ sub, N !! (x, sub) = None) → climbs N root y → y ≠ x → climbs (delete k N) root y.
Proof.
  intros Hk Hno. induction 1 as [|dir name y Hn _ IH]; intros Hy; [constructor|]. apply (climbs_up _ _ dir name).
  - rewrite lookup_delete_ne; [done|]. intros ->. congruence.
  - apply IH. intros ->. by rewrite Hno in Hn.
Qed.

(** The entry [src] of [ino] moved to the free name [dst], in a directory that
    climbs without [src]. *)
Lemma climbs_move (N : Names) root src dd dn ino y :
  N !! src = Some ino → N !! (dd, dn) = None → climbs (delete src N) root dd → climbs N root y →
  climbs (<[(dd, dn) := ino]> (delete src N)) root y.
Proof.
  intros Hs Hd Hdd. assert (Hnew : climbs (<[(dd, dn) := ino]> (delete src N)) root ino).
  { apply (climbs_up _ _ dd dn); [by rewrite lookup_insert_eq|]. eapply climbs_mono; [|exact Hdd]. apply insert_subseteq.
    rewrite lookup_delete_ne; [done|congruence]. }
  induction 1 as [|dir name y Hn _ IH]; [constructor|]. destruct (decide ((dir, name) = src)) as [<-|Hne]; [by replace y with ino by congruence|].
  apply (climbs_up _ _ dir name); [|done]. rewrite lookup_insert_ne by congruence. by rewrite lookup_delete_ne.
Qed.

(** ** The search of [in_subtree] *)
Lemma names_inj v k k' x : names_ok v → names v !! k = Some x → names v !! k' = Some x → k = k'.
Proof.
  intros Hn Hk%elem_of_list_to_map_2 Hk'%elem_of_list_to_map_2. apply list_elem_of_fmap in Hk as (de & E & Hde), Hk' as (de' & E' & Hde').
  unfold entry in *. replace de' with de in *; [congruence|]. apply (nodup_map_eq d_ino _ _ _ (fo_links _ _ _ _ Hn)); congruence.
Qed.
Lemma names_entry v de : names_ok v → de ∈ used_dents v → names v !! (d_parent de, name_of de) = Some (d_ino de).
Proof.
  intros Hn Hde. apply elem_of_list_to_map; [rewrite (entry_keys (used_dents v)); exact (fo_names _ _ _ _ Hn)|]. apply list_elem_of_fmap. by exists de.
Qed.

Section search.
Context (v : Vol) (top : Z).
Hypothesis Hn : names_ok v.

(** The entry that names [cur]. *)
Lemma search_up cur :
  match list_find (λ de, d_used de && (d_ino de =? cur) = true) (v_dents v) with
  | Some (_, up) => names v !! (d_parent up, name_of up) = Some cur
  | None => ∀ k, names v !! k ≠ Some cur
  end.
Proof using Hn.
  destruct (list_find _ _) as [[i up]|] eqn:E.
  - apply list_find_Some in E as (Hl & [Hu Hi%Z.eqb_eq]%andb_true_iff & _). subst cur. apply (names_entry v up Hn), list_elem_of_filter.
    split; [done|]. by eapply list_elem_of_lookup_2.
  - intros k Hk%elem_of_list_to_map_2. apply list_elem_of_fmap in Hk as (de & Ek & Hde). apply list_elem_of_filter in Hde as [Hu Hde].
    apply list_find_None in E. rewrite Forall_forall in E. apply (E de Hde). unfold entry in Ek. injection Ek as _ ->. by rewrite Hu, Z.eqb_refl.
Qed.

Lemma subtree_no steps src : names v !! src = Some top → ∀ cur,
  in_subtree_from v steps top cur = inl false → climbs (delete src (names v)) (v_root_ino v) cur.
Proof using Hn.
  intros Hsrc. induction steps as [|steps IH]; intros cur; cbn [in_subtree_from]; (destruct (Z.eqb_spec cur top); [done|]);
    (destruct (Z.eqb_spec cur (v_root_ino v)) as [->|]; [constructor|]); [done|].
  pose proof (search_up cur) as Hup. destruct (list_find _ _) as [[i up]|]; [|done]. intros Hs. apply (climbs_up _ _ (d_parent up) (name_of up)); [|by apply IH].
  rewrite lookup_delete_ne; [done|]. intros ->. congruence.
Qed.

Lemma subtree_yes steps : ∀ cur, in_subtree_from v steps top cur = inl true → under (names v) top cur.
Proof using Hn.
  induction steps as [|steps IH]; intros cur; cbn [in_subtree_from]; (destruct (Z.eqb_spec cur top) as [->|]; [constructor|]);
    (destruct (Z.eqb_spec cur (v_root_ino v)); [done|]); [done|].
  pose proof (search_up cur) as Hup. destruct (list_find _ _) as [[i up]|]; [|done]. intros Hs. apply (under_up _ _ (d_parent up) (name_of up)); [done|by apply IH].
Qed.

(** A path to the root, from its lower end. *)
Fixpoint chain (l : list Z) : Prop :=
  match l with
  | [] => False
  | x :: l => match l with [] => x = v_root_ino v | d :: _ => (∃ name, names v !! (d, name) = Some x) ∧ chain l end
  end.

Lemma chain_suffix l1 x l2 : chain (l1 ++ x :: l2) → chain (x :: l2).
Proof using. induction l1 as [|y l1 IH]; [done|]. cbn [app]. destruct l1 as [|z l1]; intros [_ Hc]; by apply IH. Qed.

Lemma climbs_chain x : climbs (names v) (v_root_ino v) x → ∃ l, chain (x :: l) ∧ NoDup (x :: l).
Proof using.
  induction 1 as [|dir name x Hx _ (l & Hc & Hnd)]; [exists []; split; [done|by apply NoDup_singleton]|].
  destruct (decide (x ∈ dir :: l)) as [Hin|Hni].
  - apply list_elem_of_split in Hin as (l1 & l2 & E). rewrite E in *. exists l2. split; [by eapply chain_suffix|]. by apply NoDup_app in Hnd as (_ & _ & ?).
  - exists (dir :: l). split; [|by apply NoDup_cons]. split; [by exists name|done].
Qed.

Lemma chain_inos l : chain l → Forall (λ x, x ∈ map i_ino (used_inodes v)) l.
Proof using Hn.
  induction l as [|x l IH]; [done|]. intros Hc. destruct l as [|d l].
  - cbn in Hc. subst x. rewrite Forall_singleton. destruct (fo_root _ _ _ _ Hn) as (r & Hr & _ & <-). apply list_elem_of_fmap. by exists r.
  - destruct Hc as [(name & Hx) Hc]. apply Forall_cons. split; [|by apply IH].
    apply elem_of_list_to_map_2, list_elem_of_fmap in Hx as (de & E & Hde). injection E as _ _ ->.
    destruct (fo_targets _ _ _ _ Hn de Hde) as (_ & r & Hr & <-). apply list_elem_of_fmap. by exists r.
Qed.

Lemma subtree_chain steps : ∀ cur l, chain (cur :: l) → (length l ≤ steps)%nat → ∃ b, in_subtree_from v steps top cur = inl b.
Proof using Hn.
  induction steps as [|steps IH]; intros cur l Hc Hl; cbn [in_subtree_from]; (destruct (Z.eqb_spec cur top); [by eexists|]).
  - destruct l; [|cbn in Hl; lia]. cbn in Hc. subst cur. rewrite Z.eqb_refl. by eexists.
  - destruct (Z.eqb_spec cur (v_root_ino v)) as [|Hr]; [by eexists|]. destruct l as [|d l]; [done|]. destruct Hc as [(name & Hx) Hc].
    pose proof (search_up cur) as Hup. destruct (list_find _ _) as [[i up]|]; [|by destruct (Hup (d, name))].
    pose proof (names_inj v _ _ _ Hn Hup Hx) as E. injection E as -> _. apply (IH d l Hc). cbn in Hl. lia.
Qed.
End search.

Lemma subtree_found v top cur :
  fs_ok v → climbs (names v) (v_root_ino v) cur → ∃ b, in_subtree v top cur = inl b.
Proof.
  intros Hfs (l & Hc & Hnd)%climbs_chain. pose proof Hfs as [Hv Hn _]. apply (subtree_chain v top Hn _ _ l Hc).
  pose proof (chain_inos v Hn _ Hc) as Hin. rewrite Forall_forall in Hin. apply (NoDup_submseteq _ _ Hnd) in Hin. apply submseteq_length in Hin.
  rewrite length_map in Hin. pose proof (length_filter (λ r, i_used r = true) (v_inodes v)). pose proof (tt_inodes _ (vk_tables _ Hv)).
  cbn [length] in Hin. change (Z.to_nat MAX_INODES) with 64%nat. lia.
Qed.

(** ** Rename *)
Inductive rename_refused (v : Vol) (sd : Z) (sn : list Z) (dd : Z) (dn : list Z) : Error → Prop :=
  | rename_src_name e : name_ok sn = inr e → rename_refused v sd sn dd dn e
  | rename_dst_name e : name_ok dn = inr e → rename_refused v sd sn dd dn e
  | rename_absent : names v !! (sd, sn) = None → rename_refused v sd sn dd dn NotFound
  | rename_no_dir : (∀ r, r ∈ used_inodes v → i_ino r ≠ dd) → rename_refused v sd sn dd dn NotFound
  | rename_not_dir r : r ∈ used_inodes v → i_ino r = dd → is_dir r = false → rename_refused v sd sn dd dn NotDir
  | rename_below ino : names v !! (sd, sn) = Some ino → under (names v) ino dd → rename_refused v sd sn dd dn Inval
  | rename_target r e x : names v !! (sd, sn) = Some (i_ino r) → r ∈ used_inodes v → names v !! (dd, dn) = Some x → x ≠ i_ino r →
      unlink_refused v dd dn (is_dir r) e → rename_refused v sd sn dd dn e.

Record renamed (v : Vol) (sd : Z) (sn : list Z) (dd : Z) (dn : list Z) (v' : Vol) : Prop := {
  rn_fs : fs_ok v';
  rn_moves : moves v v';
  rn_next : v_next_ino v' = v_next_ino v;
  rn_files : ∃ r, names v !! (sd, sn) = Some (i_ino r) ∧ r ∈ used_inodes v ∧
    names v' = <[(dd, dn) := i_ino r]> (delete (sd, sn) (names v)) ∧
    match names v !! (dd, dn) with
    | Some x => if decide (x = i_ino r) then v' = v else ∃ t k, x = i_ino t ∧ t ∈ used_inodes v ∧ is_dir t = is_dir r ∧
        (∀ sub, names v !! (x, sub) = None) ∧ bodies v ≡ₚ body t :: k ∧ bodies v' ≡ₚ map body (less_link t) ++ k
    | None => bodies v' ≡ₚ bodies v
    end;
  rn_tree : tree v';
}.

Lemma files_move rs de de' ds root next :
  files_ok rs (de :: ds) root next → d_ino de' = d_ino de →
  (∃ p, p ∈ rs ∧ is_dir p = true ∧ i_ino p = d_parent de') →
  (∀ x, x ∈ ds → d_parent x = d_parent de' → name_of x ≠ name_of de') → files_ok rs (de' :: ds) root next.
Proof.
  intros [Fi Fn Fr Fp Ft Fl Fm Fe] Ei Hp Hno. cbn [map] in *. apply NoDup_cons in Fm as [_ Fm]. split; try done.
  - intros x [->|Hx]%elem_of_cons; [done|]. apply Fp. by right.
  - intros x [->|Hx]%elem_of_cons; [rewrite Ei; apply Ft; by left|]. apply Ft. by right.
  - cbn [map]. by rewrite Ei.
  - cbn [map]. apply NoDup_cons. split; [|done]. intros (x & E & Hx)%list_elem_of_fmap. injection E as E1 E2. by destruct (Hno x Hx).
Qed.

Lemma rename_tables v e de dd dn kind p :
  fs_ok v → v_dents v !! e = Some de → d_used de = true → p ∈ used_inodes v → is_dir p = true → i_ino p = dd →
  names v !! (dd, dn) = None → let de' := new_dent dd (d_ino de) kind dn in dent_good de' → name_of de' = dn →
  let v' := retab v (v_next_ino v) (v_inodes v) (<[e := de']> (v_dents v)) in
  fs_ok v' ∧ names v' = <[(dd, dn) := d_ino de]> (delete (d_parent de, name_of de) (names v)).
Proof.
  intros Hfs He Hu Hp Hpd Hpi Hno de' Gd Nd v'. pose proof Hfs as [Hv Hn Hc]. pose proof (vk_tables _ Hv) as (L1 & G1 & L2 & G2)%tables_good.
  destruct (filter_slot (λ de, d_used de = true) _ _ _ He) as (k2 & Ed & Ed'). specialize (Ed' de').
  unfold only in *. rewrite decide_True in Ed by done. rewrite decide_True in Ed' by done. cbn [app] in *.
  assert (Hf : files_ok (used_inodes v) (de' :: k2) (v_root_ino v) (v_next_ino v)).
  { apply (files_move _ de); [eapply files_ok_core; [..|exact Hn]; [done|by rewrite Ed]|done|by exists p|].
    rewrite Nd. intros x Hx. apply (proj2 (names_absent (used_dents v) dd dn) Hno). rewrite Ed. by right. }
  split.
  - apply retab_ok; try done; rewrite ?length_insert; try done.
    + exact (su_next_ino _ (vk_super _ Hv)).
    + by apply Forall_insert.
    + eapply files_ok_core; [..|exact Hf]; [done|by rewrite Ed'].
  - rewrite <-(names_without v e de k2 Hn He Ed). transitivity (names_in (de' :: k2)); [|by rewrite names_cons, Nd].
    symmetry. apply names_perm; [exact (fo_names _ _ _ _ Hf)|by symmetry].
Qed.

(** The moved entry: [name_array], the new entry and the stamps. *)
Lemma rename_steps v e de sd dd dn ss p (Q : unit → Vol → Prop) X :
  fs_ok v → 0 ≤ e → v_dents v !! Z.to_nat e = Some de → d_used de = true → p ∈ used_inodes v → is_dir p = true → i_ino p = dd →
  names v !! (dd, dn) = None → u32 dd → bytes_ok dn → 1 ≤ zlen dn ≤ 64 →
  (∀ v', fs_ok v' → moves v v' → v_next_ino v' = v_next_ino v → bodies v' = bodies v →
     names v' = <[(dd, dn) := d_ino de]> (delete (d_parent de, name_of de) (names v)) → Q tt v') →
  ewp (nm <- lift (name_array dn) ;;
       v <- get ;;
       de <- lift (index (v_dents v) e) ;;
       put_dent_at e (mkDent (d_used de) dd (d_ino de) (d_kind de) (wrap 8 (zlen dn)) nm) ;;
       bump_mtime sd ;;
       bump_mtime dd ;;
       bump_ctime ss ;;
       ok tt) v Q X.
Proof.
  intros Hfs He0 He Hu Hp Hpd Hpi Hno Hdd Hdn Hlen HQ. pose proof Hfs as [Hv Hn Hc].
  pose proof (vk_tables _ Hv) as (_ & _ & _ & G2)%tables_good. pose proof (Forall_lookup_1 _ _ _ _ G2 He) as [Td _].
  destruct (new_dent_good dd (d_ino de) (d_kind de) dn Hdd (dt_ino _ Td) (dt_kind _ Td) Hdn Hlen) as (Gd & Nd & Ea & Ew).
  pose proof (rename_tables v (Z.to_nat e) de dd dn (d_kind de) p Hfs He Hu Hp Hpd Hpi Hno Gd Nd) as [Hfs1 Hnm1]. set (v1 := retab _ _ _ _) in *.
  apply ewp_pbind, wp_lift. rewrite Ea. cbn [owp]. apply ewp_pbind, wp_get, ewp_pbind, wp_lift. rewrite (index_ret _ _ de) by done. cbn [owp].
  rewrite Hu, Ew. apply ewp_pbind, (put_dent_run _ _ de); [done|done|].
  pose proof (lt_now _ (vk_lists _ Hv)) as Hnow. pose proof (λ w Hw, vk_tables _ (fk_vol _ (stamped_ok v1 w Hfs1 Hw))) as Htab.
  assert (Hnow' : ∀ w, stamped v1 w → u64 (v_now w)) by (by intros w (? & _ & _ & ->)).
  apply ewp_pbind, bump_mtime_run; [exact (vk_tables _ (fk_vol _ Hfs1))|exact Hnow|]. intros v2 S2.
  apply ewp_pbind, bump_mtime_run; [by apply Htab|by apply Hnow'|]. intros v3 S3. assert (S3' : stamped v1 v3) by (by eapply stamped_trans).
  apply ewp_pbind, bump_ctime_run; [by apply Htab|by apply Hnow'|]. intros v4 S4. assert (S4' : stamped v1 v4) by (by eapply stamped_trans).
  apply ewp_ok, HQ.
  - by eapply stamped_ok.
  - eapply moves_trans; [apply retab_moves|by apply stamped_moves].
  - by destruct S4' as (? & _ & _ & ->).
  - by rewrite (stamped_bodies _ _ S4').
  - rewrite <-Hnm1. by destruct S4' as (? & _ & _ & ->).
Qed.

(** A directory other than the file whose last name went is still there. *)
Lemma unlinked_dir v dd dn isd v1 p x :
  unlinked v dd dn isd v1 → p ∈ used_inodes v → is_dir p = true → names v !! (i_ino p, x) ≠ None →
  ∃ p', p' ∈ used_inodes v1 ∧ is_dir p' = true ∧ i_ino p' = i_ino p.
Proof.
  intros [_ _ _ _ (t & k & _ & _ & _ & Hsub & Hb & Hb1)] Hp Hd Hx.
  assert (Hin : body p ∈ body t :: k) by (rewrite <-Hb; apply list_elem_of_fmap; by exists p).
  apply elem_of_cons in Hin as [E|Hin].
  - destruct Hx. assert (Ei : i_ino p = i_ino t) by exact (f_equal i_ino E). rewrite Ei. apply Hsub.
  - assert (Hin1 : body p ∈ bodies v1) by (rewrite Hb1; apply elem_of_app; by right). apply list_elem_of_fmap in Hin1 as (p' & E & Hp').
    exists p'. split_and!; [done| |exact (f_equal i_ino (eq_sym E))]. rewrite <-Hd. exact (f_equal is_dir (eq_sym E)).
Qed.

Lemma moves_root v v' : moves v v' → v_root_ino v' = v_root_ino v.
Proof. intros [_ Hs]. exact (f_equal sb_root_ino Hs). Qed.

(** The files of [v'] are among those of [v], and those that climbed still do. *)
Lemma tree_carry v v' :
  tree v → (∀ b, b ∈ bodies v' → b ∈ bodies v) → v_root_ino v' = v_root_ino v →
  (∀ r, r ∈ used_inodes v' → climbs (names v) (v_root_ino v) (i_ino r) → climbs (names v') (v_root_ino v) (i_ino r)) → tree v'.
Proof.
  intros Ht Hb Hr Hc r Hin. assert (Hbr : body r ∈ bodies v) by (apply Hb, list_elem_of_fmap; by exists r).
  apply list_elem_of_fmap in Hbr as (r' & E & Hin'). destruct (Ht r' Hin') as [Hl Hcl].
  assert (El : i_nlink r = i_nlink r') by exact (f_equal i_nlink E). assert (Ei : i_ino r = i_ino r') by exact (f_equal i_ino E).
  split; [congruence|]. rewrite Hr. apply Hc; [done|congruence].
Qed.

(** In a tree the file that loses its name goes. *)
Lemma unlinked_tree v dir name rmdir v' : tree v → fs_ok v → unlinked v dir name rmdir v' → tree v'.
Proof.
  intros Ht Hfs [Hfs' Hm Hnm _ (t & k & Ht1 & Hin & _ & Hsub & Hb & Hb')]. destruct (Ht t Hin) as [Hl _].
  unfold less_link in Hb'. rewrite (proj2 (Z.leb_le _ _)) in Hb' by lia. cbn [map app] in Hb'.
  apply (tree_carry v); [done| |by apply moves_root|].
  - intros b Hbk. rewrite Hb. right. by rewrite <-Hb'.
  - intros r Hr Hc. rewrite Hnm. apply (climbs_delete _ _ _ (i_ino t)); [done|done|done|]. intros E.
    assert (Hnd : NoDup (map i_ino (body t :: k))).
    { rewrite <-Hb. unfold bodies. rewrite map_map. exact (fo_inos _ _ _ _ (fk_names _ Hfs)). }
    apply NoDup_cons in Hnd as [Hnd _]. apply Hnd, list_elem_of_fmap. exists (body r). split; [exact (eq_sym E)|].
    rewrite <-Hb'. apply list_elem_of_fmap. by exists r.
Qed.

Lemma new_inode_links v ino kind mode t r : new_inode v ino kind mode t = Ret r → i_nlink r = 1 ∧ i_ino r = ino.
Proof.
  unfold new_inode. destruct t as [t|]; [|by intros [= <-]]. destruct (copy_into _ _ _); try done. cbn [obind]. by intros [= <-].
Qed.

Lemma created_tree v dir name kind mode target n v' : tree v → created v dir name kind mode target n v' → tree v'.
Proof.
  intros Ht [Hfs' Hm (p & Hp & _ & Hpi) Hab Hnm Hnx (r & t & _ & (Hl & Hi)%new_inode_links & Hb) _] x Hx. rewrite (moves_root _ _ Hm).
  assert (Hsub : names v ⊆ names v') by (rewrite Hnm; by apply insert_subseteq).
  assert (Hbx : body x ∈ body r :: bodies v) by (rewrite <-Hb; apply list_elem_of_fmap; by exists x).
  apply elem_of_cons in Hbx as [E|Hin].
  - assert (El : i_nlink x = i_nlink r) by exact (f_equal i_nlink E). assert (Ei : i_ino x = i_ino r) by exact (f_equal i_ino E).
    split; [congruence|]. rewrite Ei, Hi. apply (climbs_up _ _ dir name); [by rewrite Hnm, lookup_insert_eq|].
    rewrite <-Hpi. eapply climbs_mono; [done|]. by apply Ht.
  - apply list_elem_of_fmap in Hin as (r' & E & Hin'). destruct (Ht r' Hin') as [Hl' Hcl].
    assert (El : i_nlink x = i_nlink r') by exact (f_equal i_nlink E). assert (Ei : i_ino x = i_ino r') by exact (f_equal i_ino E).
    split; [congruence|]. rewrite Ei. by eapply climbs_mono.
Qed.

(** The name a file has elsewhere in the map is untouched by the removal of [(dd, dn)]. *)
Lemma rename_finish v v1 e de sd dd dn r p (Q : unit → Vol → Prop) X :
  fs_ok v1 → moves v v1 → v_next_ino v1 = v_next_ino v → names v1 = delete (dd, dn) (names v) → tree v1 →
  0 ≤ e → v_dents v1 !! Z.to_nat e = Some de → d_used de = true → names v !! (d_parent de, name_of de) = Some (i_ino r) → d_ino de = i_ino r →
  (d_parent de, name_of de) ≠ (dd, dn) → climbs (delete (dd, dn) (delete (d_parent de, name_of de) (names v))) (v_root_ino v) dd →
  p ∈ used_inodes v1 → is_dir p = true → i_ino p = dd → u32 dd → bytes_ok dn → 1 ≤ zlen dn ≤ 64 →
  (∀ v', fs_ok v' → moves v v' → v_next_ino v' = v_next_ino v → bodies v' = bodies v1 →
     names v' = <[(dd, dn) := i_ino r]> (delete (d_parent de, name_of de) (names v)) → tree v' → Q tt v') →
  ewp (nm <- lift (name_array dn) ;;
       v <- get ;;
       de <- lift (index (v_dents v) e) ;;
       put_dent_at e (mkDent (d_used de) dd (d_ino de) (d_kind de) (wrap 8 (zlen dn)) nm) ;;
       bump_mtime sd ;;
       bump_mtime dd ;;
       bump_ctime (i_ino r) ;;
       ok tt) v1 Q X.
Proof.
  intros Hfs1 Hm1 Hnx1 Hnm1 Ht1 He0 He Hu Hsrc Hino Hne Hcl Hp Hpd Hpi Hdd Hdn Hlen HQ.
  assert (Hno : names v1 !! (dd, dn) = None) by (by rewrite Hnm1, lookup_delete_eq).
  apply (rename_steps v1 e de sd dd dn (i_ino r) p); try done. intros v' Hfs' Hm' Hnx' Hb' Hnm'.
  assert (Hmv : moves v v') by (by eapply moves_trans). pose proof (moves_root _ _ Hm1) as Hr1.
  apply HQ; [done|done|congruence|done| |].
  - rewrite Hnm', Hnm1, Hino, delete_delete. by rewrite insert_delete_eq.
  - apply (tree_carry v1); [done|by rewrite Hb'|by apply moves_root|]. intros x _ Hc. rewrite Hnm', Hino. apply climbs_move; [|done| |done].
    + by rewrite Hnm1, lookup_delete_ne.
    + by rewrite Hnm1, Hr1, delete_delete.
Qed.

(** The destination climbs without the source. *)
Lemma rename_apart v sd sn r dd p :
  fs_ok v → tree v → names v !! (sd, sn) = Some (i_ino r) → r ∈ used_inodes v → p ∈ used_inodes v → is_dir p = true → i_ino p = dd →
  (if is_dir r then in_subtree v (i_ino r) dd = inl false else True) →
  climbs (delete (sd, sn) (names v)) (v_root_ino v) dd.
Proof.
  intros Hfs Ht Hsrc Hr Hp Hpd Hpi Hsub. pose proof (fk_names _ Hfs) as Hn. destruct (is_dir r) eqn:Hd; [by eapply subtree_no|].
  assert (Hne : ∀ q, q ∈ used_inodes v → is_dir q = true → i_ino q ≠ i_ino r).
  { intros q Hq Hqd E. rewrite (nodup_map_eq i_ino _ q r (fo_inos _ _ _ _ Hn) Hq Hr E) in Hqd. congruence. }
  apply (climbs_delete _ _ _ (i_ino r)); [done| |rewrite <-Hpi; by apply Ht|rewrite <-Hpi; by apply Hne].
  apply no_subs; [done|]. intros x Hx E. destruct (fo_parents _ _ _ _ Hn x Hx) as (q & Hq & Hqd & Hqi). apply (Hne q Hq Hqd). congruence.
Qed.

Lemma rename_run v sd sn dd dn :
  fs_ok v → tree v → u32 dd → bytes_ok dn →
  ewp (rename sd sn dd dn) v (λ _ v', renamed v sd sn dd dn v') (λ e v', v' = v ∧ rename_refused v sd sn dd dn e).
Proof.
  intros Hfs Htree Hdd Hbytes. pose proof Hfs as [Hv Hn Hc]. pose proof (vk_tables _ Hv) as Ht. unfold rename.
  apply ewp_bind, ewp_ret. destruct (name_ok sn) as [[]|er] eqn:Hsn; [|split; [done|by apply rename_src_name]].
  apply ewp_bind, ewp_ret. destruct (name_ok dn) as [[]|er] eqn:Hdn; [|split; [done|by apply rename_dst_name]].
  apply ewp_pbind, wp_get, ewp_bind, ewp_lift. apply find_dent_spec; [done| |intros Hno%names_absent; split; [done|by apply rename_absent]].
  intros e de He. pose proof (names_present _ _ _ _ _ Hn He) as Hsrc. pose proof (entry_in _ _ _ _ _ He) as Hde.
  destruct (fo_targets _ _ _ _ Hn de Hde) as (_ & r & Hr & Hi). rewrite <-Hi in Hsrc.
  destruct He as (He0 & He & Hu & <- & <-). set (src := (d_parent de, name_of de)) in *.
  destruct ((d_parent de =? dd) && bool_decide (name_of de = dn)) eqn:Hsame.
  { apply andb_true_iff in Hsame as [<-%Z.eqb_eq <-%bool_decide_eq_true]. apply ewp_ok. split; [done|apply moves_refl|done| |done].
    exists r. split_and!; [done|done|by rewrite insert_delete_id|]. fold src. rewrite Hsrc. by rewrite decide_True. }
  assert (Hne : src ≠ (dd, dn)).
  { unfold src. intros [= E1 E2]. rewrite E1, E2, Z.eqb_refl, bool_decide_eq_true_2 in Hsame by done. done. }
  apply ewp_bind, dir_slot_spec; [|intros Hno; split; [done|by apply rename_no_dir]|intros q Hq Hqi Hqd; split; [done|by eapply rename_not_dir]].
  intros ds p Hps Hpd. pose proof (slot_in _ _ _ _ Hps) as Hp. assert (Hpi : i_ino p = dd) by apply Hps.
  apply ewp_pbind, wp_lift. rewrite (index_ret _ _ de) by done. cbn [owp]. rewrite <-Hi.
  destruct (inode_slot_eq v (i_ino r) r Hn Hr eq_refl) as (s & Es & Hs). apply ewp_bind, ewp_ret. rewrite Es.
  apply ewp_pbind. unfold inode_at at 1. apply wp_bind, wp_get, wp_lift. rewrite (index_ret _ _ r) by (apply Hs). cbn [owp].
  assert (Hisd : (i_kind r =? KIND_DIR) = is_dir r) by (destruct Hs as (_ & _ & Hur & _); unfold is_dir; by rewrite Hur). rewrite Hisd.
  apply ewp_bind. assert (Hbelow : ∀ (k : bool → VM unit) Q X, (in_subtree v (i_ino r) dd = inl true → X Inval v) →
    ((if is_dir r then in_subtree v (i_ino r) dd = inl false else True) → ewp (k false) v Q X) →
    ewp (if is_dir r then ret (in_subtree v (i_ino r) dd) else ok false) v (λ b v', ewp (bail_if b Inval ?;; k b) v' Q X) X).
  { intros k Q X H1 H2. destruct (is_dir r); [|apply ewp_ok, ewp_bind, ewp_bail; [done|by intros; apply H2]].
    destruct (subtree_found v (i_ino r) dd Hfs) as (b & Eb); [rewrite <-Hpi; by apply Htree|]. rewrite Eb in *. apply ewp_ret.
    apply ewp_bind, ewp_bail; destruct b; intros; try done; auto. }
  apply (Hbelow (λ _, _)); [intros Hb; split; [done|]; eapply rename_below; [done|by eapply subtree_yes]|]. clear Hbelow. intros Hsub.
  pose proof (rename_apart v _ _ r dd p Hfs Htree Hsrc Hr Hp Hpd Hpi Hsub) as Hcl. pose proof (name_ok_len _ Hdn) as Hlen.
  apply ewp_pbind, wp_lift. apply find_dent_spec; [done| |].
  - intros t td Htd. pose proof (names_present _ _ _ _ _ Hn Htd) as Hdst. apply ewp_bind, ewp_pbind, wp_lift.
    rewrite (index_ret _ _ td) by (apply Htd). cbn [owp]. destruct (Z.eqb_spec (d_ino td) (i_ino r)) as [E|Hnt].
    { destruct Hne. eapply (names_inj v); [done|done|by rewrite Hdst, E]. }
    apply ewp_bind. eapply ewp_mono; [apply unlink_run; done| |].
    2:{ intros er v1 [-> Href]. split; [done|]. by eapply rename_target. }
    intros [] v1 [Hul (t' & td' & Ht' & Hdents)]. apply ewp_ok. pose proof Hul as [Hfs1 Hm1 Hnm1 Hnx1 (x & k & Hx & Hxin & Hxd & Hxs & Hb & Hb1)].
    destruct (unlinked_dir v dd dn _ v1 p dn Hul Hp Hpd) as (p' & Hp' & Hpd' & Hpi'); [by rewrite Hpi, Hdst|].
    assert (Ex : i_ino x = d_ino td) by congruence.
    apply (rename_finish v v1 e de (d_parent de) dd dn r p'); try done; [by eapply unlinked_tree| | |congruence|].
    + rewrite Hdents. rewrite list_lookup_insert_ne; [done|]. intros E. destruct Ht' as (_ & Ht'l & _ & Ht'p & Ht'n). rewrite E, He in Ht'l.
      injection Ht'l as <-. destruct Hne. unfold src. congruence.
    + apply (climbs_delete _ _ _ (i_ino x)); [|intros sub; rewrite lookup_delete_None; right; apply Hxs|done|].
      * rewrite lookup_delete_ne by done. congruence.
      * intros E. specialize (Hxs dn). rewrite <-E, Hdst in Hxs. done.
    + intros v' Hfs' Hm' Hnx' Hb' Hnm' Ht''. split; try done. exists r. split_and!; try done. rewrite Hdst, decide_False by done.
      exists x, k. split_and!; try done; [by rewrite <-Ex|by rewrite Hb'].
  - intros Hno%names_absent. apply ewp_bind, ewp_ok.
    assert (Hnm : names v = delete (dd, dn) (names v)) by (by rewrite delete_id).
    apply (rename_finish v v e de (d_parent de) dd dn r p); try done.
    + rewrite delete_id; [done|]. rewrite lookup_delete_None. by right.
    + intros v' Hfs' Hm' Hnx' Hb' Hnm' Ht''. split; try done. exists r. split_and!; try done. change (names v !! (dd, dn) = None) in Hno. by rewrite Hno, Hb'.
Qed.
