(* ===== verification/VibefsCrash.v ===== *)
(** * vibefs: commits are atomic

    A commit on a disk without faults makes the volume's state the one mount reads
    back.  On a device whose calls may fail, and which may lose power after any of
    them, mount finds the state before the commit or the state after it. *)

From stdpp Require Import base strings numbers gmap list sorting.
From S2P Require Import Prelude Bytes Crc Buf FsError Vibefs VibefsCommit VibefsLayout VibefsSort VibefsVol.
From S2P Require Import VibefsBlocks VibefsDisk VibefsTree VibefsInodeTree VibefsProtocol VibefsFiles VibefsMount VibefsImage VibefsDurable.
Import VibefsCommit.

Local Open Scope Z_scope.

#[local] Opaque fit.

(** ** Writing lists of blocks *)
Lemma put_blocks_snoc W b x m b' : put_blocks (W ++ [(b, x)]) m b' = put_block (put_blocks W m) b x b'.
Proof. unfold put_blocks. by rewrite fold_left_app. Qed.
Lemma put_blocks_app W W' m : put_blocks (W ++ W') m = put_blocks W' (put_blocks W m).
Proof. unfold put_blocks. by rewrite fold_left_app. Qed.
Lemma put_blocks_out W m b : b ∉ map fst W → put_blocks W m b = m b.
Proof.
  induction W as [|[b' x] W IH] using rev_ind; intros Hb; [done|]. rewrite put_blocks_snoc. unfold put_block.
  rewrite map_app in Hb. destruct (Z.eqb_spec b b') as [->|]; [set_solver|]. apply IH. set_solver.
Qed.
Lemma put_blocks_in W m b x : NoDup (map fst W) → (b, x) ∈ W → put_blocks W m b = x.
Proof.
  induction W as [|[b' y] W IH] using rev_ind; intros Hn Hb; [by apply elem_of_nil in Hb|]. rewrite put_blocks_snoc. unfold put_block.
  rewrite map_app in Hn. apply NoDup_app in Hn as (Hn & Hd & _). apply elem_of_app in Hb as [Hb|[= -> ->]%list_elem_of_singleton].
  - destruct (Z.eqb_spec b b') as [->|]; [|by apply IH]. exfalso. apply (Hd b'); [|left]. apply list_elem_of_fmap. by exists (b', x).
  - by rewrite Z.eqb_refl.
Qed.
Lemma apply_writes W m : apply_events (writes W) m = put_blocks W m.
Proof. unfold apply_events, put_blocks, writes. revert m. induction W as [|w W IH]; intros m; [done|]. cbn. by rewrite IH. Qed.

Lemma new_blocks_nodup v A W abuf sbuf iroot v1 ikids rs T abno g :
  new_image v A W abuf sbuf iroot v1 ikids rs T abno g →
  NoDup (map fst (W ++ [(abno, abuf)])) ∧ map fst (W ++ [(abno, abuf)]) ⊆ A.
Proof.
  intros Hnew. pose proof (ni_tree _ _ _ _ _ _ _ _ _ _ _ _ Hnew) as (HA & HW & _).
  pose proof (ni_fresh _ _ _ _ _ _ _ _ _ _ _ _ Hnew) as [Hnd _]. rewrite map_app. cbn [map fst].
  rewrite HW, <-Permutation_cons_append, <-HA. done.
Qed.

(** ** What the commit keeps *)

(** The volume [v'] is [v] one generation on: the same names and files, and data
    blocks with the same reference counts. *)
Record next_state (v v' : Vol) : Prop := {
  ns_generation : v_generation v' = v_generation v + 1;
  ns_nblocks : v_nblocks v' = v_nblocks v;
  ns_next_ino : v_next_ino v' = v_next_ino v;
  ns_root_ino : v_root_ino v' = v_root_ino v;
  ns_flags : v_flags v' = v_flags v;
  ns_uuid : v_uuid v' = v_uuid v;
  ns_label : v_label v' = v_label v;
  ns_snaps : v_snaps v' = v_snaps v;
  ns_inodes : map unrooted (used_inodes v') ≡ₚ map unrooted (used_inodes v);
  ns_dents : used_dents v' ≡ₚ used_dents v;
  ns_refc : ∀ b, 2 ≤ b < v_nblocks v → b ∉ old_meta v ++ dropped v → b ∉ old_meta v' → refc_of v' b = refc_of v b;
}.

(** The volume [b] is [a] as far as its state on disk goes. *)
Record same_fs (a b : Vol) : Prop := {
  sf_super : super_of b = super_of a;
  sf_inodes : used_inodes b ≡ₚ used_inodes a;
  sf_dents : used_dents b ≡ₚ used_dents a;
  sf_meta : old_meta b ≡ₚ old_meta a;
  sf_refc : ∀ i, 0 ≤ i < v_nblocks a → refc_of b i = refc_of a i;
  sf_bitmap : take (Z.to_nat (div_ceil (v_nblocks a) 8)) (v_bitmap b) = take (Z.to_nat (div_ceil (v_nblocks a) 8)) (v_bitmap a);
}.

Section states.
Context (v v1 : Vol) (A : list Z) (W : wlist) (abuf sbuf : list Z) (iroot abno g : Z) (ikids : list Z) (rs : list Inode)
  (T : list (Z * list Z * list Dent)).
Hypothesis Hfs : fs_ok v.
Hypothesis Hnew : new_image v A W abuf sbuf iroot v1 ikids rs T abno g.
Local Abbreviation v' := (committed_vol v1 A (dropped_maps v A) g iroot abno sbuf).

Lemma committed_next : next_state v v'.
Proof using Hfs Hnew.
  pose proof (ni_tree _ _ _ _ _ _ _ _ _ _ _ _ Hnew) as (_ & _ & Hv1 & Hd & _). destruct (committed_inodes v v1 A sbuf iroot abno g) as [Ei Ed].
  assert (Hsh : ∃ rc bm tx, alloced v1 A = set_txn (set_bitmap (set_refc v1 rc) bm) tx) by apply alloced_shape.
  split; try (unfold committed_vol; destruct Hsh as (? & ? & ? & ->); rewrite Hv1; reflexivity).
  - exact (ni_gen _ _ _ _ _ _ _ _ _ _ _ _ Hnew).
  - rewrite Ei, Hv1. cbn [v_inodes set_inodes]. rewrite rooted_unrooted; [done|]. rewrite length_map. by apply Forall2_length in Hd.
  - intros b Hb Hni Hnew'. destruct (committed_meta v v1 A sbuf iroot abno g) as [Hm _]. rewrite Hm in Hnew'.
    unfold refc_of. change (v_refc v') with (dropped_maps v A).2. unfold dropped_maps. rewrite drop_refs_other by (done || lia). cbn [snd].
    pose proof (fk_vol _ Hfs) as Hok. pose proof (refc_alloced v A b (vk_maps _ Hok) (proj2 (su_nblocks _ (vk_super _ Hok)))
      (ni_fresh _ _ _ _ _ _ _ _ _ _ _ _ Hnew) ltac:(lia)) as Hrc. by rewrite decide_False in Hrc.
Qed.

(** What mount reads of the new image. *)
Lemma mounted_new m T' io :
  image m (super_of (next_vol v1 g iroot abno)) (dropped_maps v A) ikids rs T' →
  image_meta (super_of (next_vol v1 g iroot abno)) ikids rs T' ≡ₚ A → concat (map snd T') ≡ₚ used_dents v' → rs ≡ₚ used_inodes v' →
  same_fs v' (mounted (super_of (next_vol v1 g iroot abno)) (dropped_maps v A) ikids rs T' io).
Proof using Hfs Hnew.
  intros Him Hmeta Hde Hrs. pose proof (committed_super v v1 A sbuf iroot abno g) as Hsup.
  assert (Hnb : sb_nblocks (super_of (next_vol v1 g iroot abno)) = v_nblocks v') by (by rewrite <-Hsup).
  split.
  - by rewrite mounted_super, Hsup.
  - by rewrite (mounted_inodes _ _ _ _ _ _ Him).
  - by rewrite (mounted_dents _ _ _ _ _ _ Him).
  - destruct (mounted_meta (super_of (next_vol v1 g iroot abno)) (dropped_maps v A) ikids rs T' io) as [-> _].
    rewrite Hmeta. destruct (committed_meta v v1 A sbuf iroot abno g) as [-> _]. done.
  - intros i Hi. rewrite (mounted_refc _ _ _ _ _ _ Him) by (rewrite Hnb; lia). done.
  - rewrite <-Hnb. set (n := Z.to_nat _). change (v_bitmap (mounted _ _ _ _ _ _)) with (padded 128 0 (take n (dropped_maps v A).1)).
    change (v_bitmap v') with (dropped_maps v A).1. unfold padded.
    pose proof (image_nblocks _ _ _ _ _ _ Him) as Hn. change MIN_BLOCKS with 16 in Hn. change MAX_BLOCKS with 1024 in Hn.
    destruct (div_ceil_8 (sb_nblocks (super_of (next_vol v1 g iroot abno))) ltac:(lia)) as [_ Hd].
    pose proof (im_bitmap _ _ _ _ _ _ Him) as Hb. rewrite take_app_le, take_take by (rewrite length_take; unfold n; lia). f_equal. lia.
Qed.
End states.

Lemma some_inode v : names_ok v → 1 ≤ count_used_inodes v.
Proof.
  intros Hn. destruct (fo_root _ _ _ _ Hn) as (r & Hr & _). unfold count_used_inodes. destruct (used_inodes v); [by apply elem_of_nil in Hr|zlia].
Qed.

(** ** On a disk without faults *)
Section good_disk.
Context `{DiskLaws D}.

Lemma done_content (d d' : D) W b x b' y :
  did d (writes W ++ [EFlush; EWrite b x; EFlush]) d' → 0 ≤ b' → 0 ≤ b → b ∉ map fst W → NoDup (map fst W) →
  (b' = b → content d' b' = x) ∧ ((b', y) ∈ W → content d' b' = y) ∧ (b' ≠ b → b' ∉ map fst W → content d' b' = content d b').
Proof.
  intros Hd Hb' Hb Hni Hnd. rewrite (did_content _ _ _ b' Hd); [|apply Forall_app; split; [unfold writes; rewrite Forall_map; by apply Forall_true|apply Forall_cons; split; [done|]; apply Forall_cons; split; [done|]; by apply Forall_singleton]|done].
  rewrite apply_events_app, apply_writes. cbn. unfold put_block. split_and!.
  - intros ->. by rewrite Z.eqb_refl.
  - intros Hin. destruct (Z.eqb_spec b' b) as [->|]; [|by apply put_blocks_in].
    destruct Hni. apply list_elem_of_fmap. by exists (b, y).
  - intros Hne Hw. rewrite (proj2 (Z.eqb_neq b' b)) by done. by apply put_blocks_out.
Qed.

Lemma mount_durable v m (d : D) sb maps ikids rs T v0 :
  good d → v_nblocks v ≤ disk_nblocks d → (∀ b, 0 ≤ b → content d b = m b) → durable v m sb maps ikids rs T →
  ∃ io, zlen io = BLOCK ∧ mount (v0, d) = Ret (inl tt, (mounted sb maps ikids rs T io, d)).
Proof.
  intros Hg Hn Hm [Hl Him Hgen Hnb Hk]. destruct (live_pick _ _ Hl) as (p0 & p1 & Hp0 & Hp1 & Hp).
  assert (Hd : ewp mount (v0, d) (λ _ s, ∃ io, zlen io = BLOCK ∧ s = (mounted sb maps ikids rs T io, d)) (λ _ _, False)).
  { apply (mount_image v0 d sb maps ikids rs T p0 p1); [done|lia|by rewrite Hm|by rewrite Hm|done|].
    apply (image_agree m); [done|]. intros b Hb. pose proof (image_meta_range _ _ _ _ _ _ Him b Hb). apply Hm. lia. }
  unfold ewp, wp in Hd. destruct (mount (v0, d)) as [[[[]|e] s]| | |]; [|done..]. destruct Hd as (io & ? & ->). by exists io.
Qed.

Lemma slot_range g : 0 ≤ g mod 2 < 2.
Proof. pose proof (Z.mod_pos_bound g 2). lia. Qed.

(** A commit that succeeded, seen from the disk it leaves. *)
Lemma done_durable v (d d' : D) sb maps ikids0 rs0 T0 A W abuf sbuf iroot v1 ikids rs T abno g :
  fs_ok v → durable v (content d) sb maps ikids0 rs0 T0 →
  new_image v A W abuf sbuf iroot v1 ikids rs T abno g →
  did d (writes (W ++ [(abno, abuf)]) ++ [EFlush; EWrite (g mod 2) sbuf; EFlush]) d' →
  let v' := committed_vol v1 A (dropped_maps v A) g iroot abno sbuf in
  let sb' := super_of (next_vol v1 g iroot abno) in
  ∃ T', durable v' (content d') sb' (dropped_maps v A) ikids rs T' ∧
    image_meta sb' ikids rs T' ≡ₚ A ∧ concat (map snd T') ≡ₚ used_dents v' ∧ rs ≡ₚ used_inodes v'.
Proof.
  intros Hfs [Hl _ Hg _ _] Hnew Hd v' sb'. destruct (new_blocks_nodup _ _ _ _ _ _ _ _ _ _ _ _ Hnew) as [Hnd Hsub].
  pose proof (ni_fresh _ _ _ _ _ _ _ _ _ _ _ _ Hnew) as [_ Hfr]. rewrite Forall_forall in Hfr.
  pose proof (ni_gen _ _ _ _ _ _ _ _ _ _ _ _ Hnew) as Hgen.
  assert (Hslot : ∀ k, k mod 2 ∉ map fst (W ++ [(abno, abuf)])).
  { intros k Hin. destruct (Hfr _ (Hsub _ Hin)) as [? _]. pose proof (slot_range k). lia. }
  pose proof (λ b y, done_content d d' _ (g mod 2) sbuf b y Hd) as Hc.
  assert (Hother : content d' ((g + 1) mod 2) = content d ((g + 1) mod 2)).
  { pose proof (slot_range (g + 1)). pose proof (slot_range g).
    apply (Hc ((g + 1) mod 2) []); [lia|lia|done|done|destruct (parity g) as [[-> ->]|[-> ->]]; lia|done]. }
  replace ((g + 1) mod 2) with (v_generation v mod 2) in Hother by (rewrite Hgen; dlia).
  apply (committed_durable v v1 A W abuf sbuf iroot abno g ikids rs T Hfs Hnew).
  - intros b x Hb. assert (Hin : b ∈ A) by (apply Hsub, list_elem_of_fmap; by exists (b, x)).
    destruct (Hfr _ Hin) as [? _]. pose proof (slot_range g). apply (Hc b x); [lia|lia|done|done|done].
  - pose proof (slot_range g). apply (Hc (g mod 2) []); [lia|lia|done|done|done].
  - replace ((g + 1) mod 2) with (v_generation v mod 2) by (rewrite Hgen; dlia). rewrite Hother.
    intros s Hs. destruct Hl as [Hp _ _]. rewrite Hg in Hp. rewrite Hp in Hs. injection Hs as <-. lia.
  - replace ((g + 1) mod 2) with (v_generation v mod 2) by (rewrite Hgen; dlia). rewrite Hother.
    destruct Hl as [_ _ [Hl0 Hl1]]. destruct (parity (v_generation v)) as [[-> _]|[-> _]]; done.
Qed.
End good_disk.

(** ** Power loss *)
Definition stable (v : Vol) (m : blocks) : Prop := ∃ sb maps ikids rs T, durable v m sb maps ikids rs T.

(** Nothing is in flight: no call failed, and the last write was flushed. *)
Definition flushed (L : list event) : Prop := Forall sure L ∧ (L = [] ∨ ∃ L', L = L' ++ [EFlush]).
Definition written (L : list event) : wlist := omap (λ ev, match ev with EWrite b x => Some (b, x) | _ => None end) L.

Lemma flushed_cons ev L : flushed (ev :: L) → flushed L ∧ (L = [] → ev = EFlush) ∧ sure ev.
Proof.
  intros [Hs [?|(L' & HL)]]; [done|]. apply Forall_cons in Hs as [He Hs]. destruct L' as [|ev' L']; injection HL as -> ->.
  - split_and!; [split; [done|by left]|done|done].
  - split_and!; [split; [done|right; by exists L']|by destruct L'|done].
Qed.

Lemma flushed_has L : flushed L → L ≠ [] → EFlush ∈ L.
Proof. intros [_ [?|(L' & ->)]] Hne; [done|]. apply elem_of_app. right. by left. Qed.

Lemma reached_flushed L evs ws : flushed L → reached (L ++ evs) ws → ∃ ws', ws = written L ++ ws' ∧ reached evs ws'.
Proof.
  revert ws. induction L as [|ev L IH]; intros ws Hf Hr; [by exists ws|].
  apply flushed_cons in Hf as (Hf & Hlast & Hs). cbn [app] in Hr.
  assert (Hfl : L ≠ [] → EFlush ∈ L ++ evs) by (intros Hne; apply elem_of_app; left; by apply flushed_has).
  destruct ev as [b x|b x|]; [|done|].
  - assert (HL : L ≠ []) by (intros E; by apply Hlast in E). 
    inversion Hr as [| |b1 x1 evs1 ws1 Hr1|b1 x1 evs1 ws1 Hr1 Hn1|b1 x1 y1 evs1 ws1 Hr1 Hn1 Ht1| | |]; subst; [|by destruct Hn1; apply Hfl..].
    destruct (IH _ Hf Hr1) as (ws' & -> & ?). by exists ws'.
  - inversion Hr as [|evs1 ws1 Hr1| | | | | | ]; subst. destruct (IH _ Hf Hr1) as (ws' & -> & ?). by exists ws'.
Qed.

Lemma written_writes W : written (writes W) = W.
Proof. unfold written, writes. induction W as [|[b x] W IH]; [done|]. cbn. by rewrite IH. Qed.
Lemma written_app L L' : written (L ++ L') = written L ++ written L'.
Proof. apply omap_app. Qed.
Lemma put_written L m : Forall sure L → put_blocks (written L) m = apply_events L m.
Proof.
  unfold apply_events, put_blocks, written. revert m. induction L as [|ev L IH]; intros m Hs; [done|].
  apply Forall_cons in Hs as [He Hs]. destruct ev; cbn; [|done|]; by rewrite IH.
Qed.

Lemma reached_len evs ws : reached evs ws → Forall ev_len evs → Forall (λ w : Z * list Z, zlen w.2 = BLOCK) ws.
Proof.
  intros Hr. induction Hr as [|evs ws Hr IH|b x evs ws Hr IH|b x evs ws Hr IH Hn|b x y evs ws Hr IH Hn [Ht _]|b x evs ws Hr IH
    |b x evs ws Hr IH|b x y evs ws Hr IH [Ht _]]; intros Hl; [by apply Forall_nil|..]; apply Forall_cons in Hl as [Hx Hl];
    try (by apply IH); (apply Forall_cons; split; [done|by apply IH]).
Qed.
Lemma fit_put ws m b : Forall (λ w : Z * list Z, zlen w.2 = BLOCK) ws → fit (put_blocks ws m) b = put_blocks ws (fit m) b.
Proof.
  induction ws as [|[b' x] ws IH] using rev_ind; intros Hl; [done|]. apply Forall_app in Hl as [Hl Hx]. rewrite Forall_singleton in Hx.
  rewrite put_blocks_snoc. unfold put_block. destruct (b =? b') eqn:E.
  - rewrite fit_full; rewrite put_blocks_snoc; unfold put_block; by rewrite E.
  - rewrite <-IH by done. apply fit_ext. rewrite put_blocks_snoc. unfold put_block. by rewrite E.
Qed.

(** What reaches the medium of writes to free blocks. *)
Definition free_event (v : Vol) (ev : event) : Prop := fresh_write v ev ∨ ev = EFlush.
Lemma reached_free v evs ws : reached evs ws → Forall (free_event v) evs → Forall (λ w : Z * list Z, is_free v w.1) ws.
Proof.
  assert (Hb : ∀ b x, free_event v (EWrite b x) ∨ free_event v (EMaybe b x) → is_free v b).
  { intros b x [[(b' & x' & [[= -> ->]|?] & ?)|?]|[(b' & x' & [?|[= -> ->]] & ?)|?]]; done. }
  intros Hr. induction Hr as [|evs ws Hr IH|b x evs ws Hr IH|b x evs ws Hr IH Hn|b x y evs ws Hr IH Hn Ht|b x evs ws Hr IH
    |b x evs ws Hr IH|b x y evs ws Hr IH Ht]; intros Hl; [by apply Forall_nil|..]; apply Forall_cons in Hl as [Hx Hl];
    try (by apply IH); (apply Forall_cons; split; [cbn [fst]; apply (Hb b x); by (left + right)|by apply IH]).
Qed.

Lemma put_free v ws m b : Forall (λ w : Z * list Z, is_free v w.1) ws → ¬ is_free v b → put_blocks ws m b = m b.
Proof.
  intros Hw Hb. apply put_blocks_out. intros Hin. apply list_elem_of_fmap in Hin as (w & -> & Hin).
  rewrite Forall_forall in Hw. by apply Hb, Hw.
Qed.

Lemma durable_free v m sb maps ikids rs T ws :
  durable v m sb maps ikids rs T → Forall (λ w : Z * list Z, is_free v w.1) ws → durable v (put_blocks ws m) sb maps ikids rs T.
Proof.
  intros Hdu Hw. pose proof (du_live _ _ _ _ _ _ _ Hdu) as [_ _ [Hl0 Hl1]].
  assert (Hs : ∀ k, put_blocks ws m (k mod 2) = m (k mod 2)).
  { intros k. apply (put_free v); [done|]. intros [? _]. pose proof (slot_range k). lia. }
  apply (durable_agree v m); [done| |apply Hs| |left; apply Hs].
  - intros b Hb Hr. apply (put_free v); [done|]. intros [_ ?]. lia.
  - rewrite Hs. by destruct (parity (v_generation v)) as [[_ ->]|[_ ->]].
Qed.

Lemma next_same v v' vm : next_state v v' → same_fs v' vm → next_state v vm.
Proof.
  intros [] []. pose proof sf_super0 as Hs. unfold super_of in Hs. injection Hs as E1 E2 E3 E4 E5 E6 E7 E8 E9 E10.
  split; try congruence.
  - by rewrite sf_inodes0.
  - by rewrite sf_dents0.
  - intros b Hb Hni Hnm. rewrite sf_refc0 by lia. apply ns_refc0; [done|done|]. by rewrite <-sf_meta0.
Qed.

Lemma fresh_free v A W : fresh v A → map fst W ⊆ A → Forall (free_event v) (writes W ++ [EFlush]).
Proof.
  intros Hf Hs. apply Forall_app. split; [|by apply Forall_singleton; right].
  eapply Forall_impl; [by apply (fresh_writes v A)|]. intros ev. by left.
Qed.

(** A commit stopped between calls is at a stage of its own. *)
Lemma stage_prefix v evs evs' : stage v evs → evs' `prefix_of` evs → stage v evs'.
Proof.
  assert (Htree : ∀ A W, fresh v A → map fst W ⊆ A → ∀ e, e `prefix_of` writes W → stage v e).
  { intros A W Hf Hs e [k Hk]. apply stage_tree. pose proof (fresh_writes v A W Hf Hs) as Hw. rewrite Hk in Hw. by apply Forall_app in Hw as [? _]. }
  assert (Hsnoc : ∀ (l : list event) x e, e `prefix_of` l ++ [x] → e `prefix_of` l ∨ e = l ++ [x]).
  { intros l x e [k Hk]. destruct k as [|y k _] using rev_ind; [right; by rewrite app_nil_r in Hk|].
    rewrite app_assoc in Hk. apply app_inj_tail in Hk as [-> _]. left. by exists k. }
  intros Hst. destruct Hst as [Hf|A W abuf sbuf iroot v1 ikids rs T abno g Hn ->|A W abuf sbuf iroot v1 ikids rs T abno g ev Hn Hev ->
    |A W abuf sbuf iroot v1 ikids rs T abno g Hn ->].
  - intros [k ->]. apply stage_tree. by apply Forall_app in Hf as [? _].
  - pose proof (new_blocks_nodup _ _ _ _ _ _ _ _ _ _ _ _ Hn) as [_ Hs]. pose proof (ni_fresh _ _ _ _ _ _ _ _ _ _ _ _ Hn) as Hfr.
    intros [Hp| ->]%Hsnoc; [by eapply Htree|]. by eapply stage_flushed.
  - pose proof (new_blocks_nodup _ _ _ _ _ _ _ _ _ _ _ _ Hn) as [_ Hs]. pose proof (ni_fresh _ _ _ _ _ _ _ _ _ _ _ _ Hn) as Hfr.
    change [EFlush; ev] with ([EFlush] ++ [ev]). rewrite app_assoc.
    intros [[Hp| ->]%Hsnoc| ->]%Hsnoc; [by eapply Htree|by eapply stage_flushed|]. eapply stage_super; [exact Hn|exact Hev|by rewrite <-app_assoc].
  - pose proof (new_blocks_nodup _ _ _ _ _ _ _ _ _ _ _ _ Hn) as [_ Hs]. pose proof (ni_fresh _ _ _ _ _ _ _ _ _ _ _ _ Hn) as Hfr.
    change [EFlush; EWrite (g mod 2) sbuf; EFlush] with ([EFlush] ++ [EWrite (g mod 2) sbuf] ++ [EFlush]). rewrite !app_assoc.
    intros [[[Hp| ->]%Hsnoc| ->]%Hsnoc| ->]%Hsnoc; [by eapply Htree|by eapply stage_flushed| |].
    + eapply stage_super; [exact Hn|by left|by rewrite <-app_assoc].
    + eapply stage_done; [exact Hn|by rewrite <-!app_assoc].
Qed.

(** The superblock write, and the states it may leave. *)
Lemma reached_super ev slot sbuf ws :
  ev = EWrite slot sbuf ∨ ev = EMaybe slot sbuf → reached [ev] ws →
  ws = [] ∨ ws = [(slot, sbuf)] ∨ ∃ y, ws = [(slot, y)] ∧ torn slot y.
Proof.
  assert (Hn : ∀ ws, reached [] ws → ws = []) by (intros ws' H'; by inversion H').
  intros [->| ->] Hr; inversion Hr as [| |b1 x1 e1 ws1 Hr1|b1 x1 e1 ws1 Hr1 _|b1 x1 y1 e1 ws1 Hr1 _ Ht1|b1 x1 e1 ws1 Hr1|b1 x1 e1 ws1 Hr1
    |b1 x1 y1 e1 ws1 Hr1 Ht1]; subst; apply Hn in Hr1 as ->; eauto 6.
Qed.

(** Whether mount finds the new state. *)
Definition next_on (v : Vol) (m : blocks) : Prop :=
  ∃ v' sb maps ikids rs T, fs_ok v' ∧ next_state v v' ∧ durable v' m sb maps ikids rs T ∧
    ∀ io, same_fs v' (mounted sb maps ikids rs T io).

Section crash.
Context (v : Vol) (m : blocks) (sb : SuperInfo) (maps : list Z * list Z) (ikids : list Z) (rs : list Inode)
  (T : list (list Z * list Dent)).
Hypothesis Hfs : fs_ok v.
Hypothesis Hdu : durable v m sb maps ikids rs T.

(** The new superblock and all it refers to are on the medium. *)
Lemma crash_new A W abuf sbuf iroot v1 ik rs' T' abno g :
  new_image v A W abuf sbuf iroot v1 ik rs' T' abno g →
  next_on v (put_blocks (W ++ [(abno, abuf)] ++ [(g mod 2, sbuf)]) m).
Proof using Hfs Hdu.
  intros Hn. destruct (new_blocks_nodup _ _ _ _ _ _ _ _ _ _ _ _ Hn) as [Hnd Hsub].
  pose proof (ni_fresh _ _ _ _ _ _ _ _ _ _ _ _ Hn) as [_ Hfr]. rewrite Forall_forall in Hfr.
  pose proof (ni_gen _ _ _ _ _ _ _ _ _ _ _ _ Hn) as Hgen. set (W2 := W ++ [(abno, abuf)]) in *. rewrite app_assoc. fold W2.
  assert (Hslot : ∀ k, k mod 2 ∉ map fst W2).
  { intros k Hin. destruct (Hfr _ (Hsub _ Hin)) as [? _]. pose proof (slot_range k). lia. }
  set (m' := put_blocks (W2 ++ [(g mod 2, sbuf)]) m).
  assert (Hother : m' ((g + 1) mod 2) = m (v_generation v mod 2)).
  { unfold m'. rewrite put_blocks_snoc. unfold put_block. rewrite (proj2 (Z.eqb_neq _ _)) by (destruct (parity g) as [[-> ->]|[-> ->]]; done).
    rewrite put_blocks_out by apply Hslot. f_equal. rewrite Hgen. dlia. }
  destruct (du_live _ _ _ _ _ _ _ Hdu) as [Hp _ [Hl0 Hl1]]. rewrite (du_gen _ _ _ _ _ _ _ Hdu) in Hp.
  destruct (committed_durable v v1 A W abuf sbuf iroot abno g ik rs' T' Hfs Hn m') as (T2 & Hdu2 & Hme & Hde & Hrs).
  - intros b x Hb. unfold m'. rewrite put_blocks_snoc. unfold put_block.
    assert (Hin : b ∈ map fst W2) by (apply list_elem_of_fmap; by exists (b, x)).
    destruct (Z.eqb_spec b (g mod 2)) as [->|]; [by destruct (Hslot g)|by apply put_blocks_in].
  - unfold m'. rewrite put_blocks_snoc. unfold put_block. by rewrite Z.eqb_refl.
  - rewrite Hother. replace ((g + 1) mod 2) with (v_generation v mod 2) by (rewrite Hgen; dlia). rewrite Hp. intros s [= <-].
    rewrite (du_gen _ _ _ _ _ _ _ Hdu). lia.
  - rewrite Hother. by destruct (parity (v_generation v)) as [[-> _]|[-> _]].
  - do 6 eexists. split_and!; [|by eapply committed_next|exact Hdu2|].
    + by eapply committed_fs_ok.
    + intros io. eapply mounted_new; try done. by destruct Hdu2.
Qed.

Lemma flushed_image A W abuf sbuf iroot v1 ik rs' T' abno g L ws :
  new_image v A W abuf sbuf iroot v1 ik rs' T' abno g →
  reached ((writes (W ++ [(abno, abuf)]) ++ [EFlush]) ++ L) ws →
  ∃ ws', ws = (W ++ [(abno, abuf)]) ++ ws' ∧ reached L ws' ∧ Forall (λ w : Z * list Z, is_free v w.1) (W ++ [(abno, abuf)]).
Proof using.
  clear. intros Hn Hr.
  pose proof (new_blocks_nodup _ _ _ _ _ _ _ _ _ _ _ _ Hn) as [_ Hs]. pose proof (ni_fresh _ _ _ _ _ _ _ _ _ _ _ _ Hn) as [_ Hfr].
  apply reached_flushed in Hr as (ws2 & -> & Hr2).
  - exists ws2. rewrite written_app, written_writes. cbn [written omap list_omap]. rewrite app_nil_r. split_and!; [done|done|].
    apply Forall_forall. intros w Hw. rewrite Forall_forall in Hfr. apply Hfr, Hs, list_elem_of_fmap. by exists w.
  - split; [|right; by eexists]. apply Forall_app. split; [|by apply Forall_singleton].
    unfold writes. rewrite Forall_map. by apply Forall_true.
Qed.

Lemma crash_done A W abuf sbuf iroot v1 ik rs' T' abno g ws :
  new_image v A W abuf sbuf iroot v1 ik rs' T' abno g →
  reached (writes (W ++ [(abno, abuf)]) ++ [EFlush; EWrite (g mod 2) sbuf; EFlush]) ws → next_on v (put_blocks ws m).
Proof using Hfs Hdu.
  intros Hn Hr. change [EFlush; EWrite (g mod 2) sbuf; EFlush] with ([EFlush] ++ [EWrite (g mod 2) sbuf; EFlush]) in Hr.
  rewrite app_assoc in Hr. eapply flushed_image in Hr as (ws' & -> & Hr & _); [|exact Hn].
  apply (reached_flushed [EWrite (g mod 2) sbuf; EFlush] []) in Hr as (ws2 & -> & Hr).
  - inversion Hr. cbn [written omap list_omap]. rewrite <-app_assoc. by eapply crash_new.
  - split; [apply Forall_cons; split; [done|by apply Forall_singleton]|right; by exists [EWrite (g mod 2) sbuf]].
Qed.

Lemma crash_stage evs ws :
  stage v evs → reached evs ws →
  durable v (put_blocks ws m) sb maps ikids rs T ∨ next_on v (put_blocks ws m).
Proof using Hfs Hdu.
  intros Hst Hr. destruct Hst as [Hf|A W abuf sbuf iroot v1 ik rs' T' abno g Hn ->|A W abuf sbuf iroot v1 ik rs' T' abno g ev Hn Hev ->
    |A W abuf sbuf iroot v1 ik rs' T' abno g Hn ->].
  - left. apply durable_free; [done|]. eapply reached_free; [exact Hr|]. eapply Forall_impl; [exact Hf|]. intros ev. by left.
  - left. rewrite <-(app_nil_r (writes _ ++ _)) in Hr. eapply flushed_image in Hr as (ws' & -> & Hr & Hw); [|exact Hn].
    inversion Hr. rewrite app_nil_r. by apply durable_free.
  - change [EFlush; ev] with ([EFlush] ++ [ev]) in Hr. rewrite app_assoc in Hr. eapply flushed_image in Hr as (ws' & -> & Hr & Hw); [|exact Hn].
    destruct (reached_super _ _ _ _ Hev Hr) as [->|[->|(y & -> & Hy & Ht)]].
    + left. rewrite app_nil_r. by apply durable_free.
    + right. rewrite <-app_assoc. by eapply crash_new.
    + left. pose proof (durable_free _ _ _ _ _ _ _ _ Hdu Hw) as Hd2. pose proof (ni_gen _ _ _ _ _ _ _ _ _ _ _ _ Hn) as Hgen.
      pose proof (slot_range g). pose proof (slot_range (v_generation v)).
      assert (Hsl : g mod 2 ≠ v_generation v mod 2) by (rewrite Hgen; dlia).
      assert (Hpb : ∀ b, put_blocks ((W ++ [(abno, abuf)]) ++ [(g mod 2, y)]) m b =
        if b =? g mod 2 then y else put_blocks (W ++ [(abno, abuf)]) m b) by (intros b; apply put_blocks_snoc).
      assert (Hg1 : v_generation v + 1 = g) by lia.
      apply (durable_agree v _ _ _ _ _ _ _ Hd2); rewrite ?Hg1, ?Hpb, ?Z.eqb_refl.
      * intros b Hb _. rewrite Hpb, (proj2 (Z.eqb_neq _ _)) by lia. done.
      * by rewrite (proj2 (Z.eqb_neq _ _)) by lia.
      * done.
      * right. apply Ht. lia.
  - right. by eapply crash_done.
Qed.

Lemma reached_blocks evs ws b : reached evs ws → b ∈ map fst ws → Some b ∈ map ev_block evs.
Proof using.
  clear. intros Hr. induction Hr; cbn [map ev_block fst]; intros Hb; [by apply elem_of_nil in Hb| | | | | | |];
    try (right; by apply IHHr); (apply elem_of_cons in Hb as [->|Hb]; [left|right; by apply IHHr]).
Qed.

(** No stage touches a block the volume references. *)
Lemma stage_kept evs b : stage v evs → 2 ≤ b → 0 < refc_of v b → Some b ∉ map ev_block evs.
Proof using.
  clear. intros Hst Hb Hr.
  assert (Hfree : ∀ L, Forall (free_event v) L → Some b ∉ map ev_block L).
  { intros L HL Hin. apply list_elem_of_fmap in Hin as (ev & He & Hin). rewrite Forall_forall in HL.
    destruct (HL _ Hin) as [(b' & x & [->| ->] & _ & ?)| ->]; [injection He as ->; lia..|done]. }
  assert (Hs : ∀ A W abuf sbuf iroot v1 ik rs' T' abno g, new_image v A W abuf sbuf iroot v1 ik rs' T' abno g →
    Some b ∉ map ev_block (writes (W ++ [(abno, abuf)]) ++ [EFlush])).
  { intros A W abuf sbuf iroot v1 ik rs' T' abno g Hn. apply Hfree.
    pose proof (new_blocks_nodup _ _ _ _ _ _ _ _ _ _ _ _ Hn) as [_ Hs]. eapply fresh_free; [|exact Hs]. exact (ni_fresh _ _ _ _ _ _ _ _ _ _ _ _ Hn). }
  assert (Hne : ∀ k, Some b ≠ Some (k mod 2)) by (intros k [= ->]; pose proof (slot_range k); lia).
  destruct Hst as [Hf|A W abuf sbuf iroot v1 ik rs' T' abno g Hn ->|A W abuf sbuf iroot v1 ik rs' T' abno g ev Hn Hev ->
    |A W abuf sbuf iroot v1 ik rs' T' abno g Hn ->].
  - apply Hfree. eapply Forall_impl; [exact Hf|]. intros ev. by left.
  - by eapply Hs.
  - specialize (Hs _ _ _ _ _ _ _ _ _ _ _ Hn). rewrite map_app in *. intros [Hx|Hx]%elem_of_app; [apply Hs, elem_of_app; by left|].
    destruct Hev as [->| ->]; cbn in Hx; apply elem_of_cons in Hx as [?|Hx]; [done| |done|];
      apply list_elem_of_singleton in Hx; by destruct (Hne g).
  - specialize (Hs _ _ _ _ _ _ _ _ _ _ _ Hn). rewrite map_app in *. intros [Hx|Hx]%elem_of_app; [apply Hs, elem_of_app; by left|].
    cbn in Hx. apply elem_of_cons in Hx as [?|Hx]; [done|]. apply elem_of_cons in Hx as [Hx|Hx]; [by destruct (Hne g)|].
    by apply list_elem_of_singleton in Hx.
Qed.
End crash.

(** ** Atomicity *)

(** The state of a device as the program sees it, cut off from the log. *)
Definition settled (d : Dev) : Dev := reboot (dv_n d) (content d).

(** The log of a commit, whatever faults it met. *)
Lemma commit_log v (d : Dev) :
  fs_ok v → v_nblocks v ≤ dv_n d →
  ∃ r v1 d1 L, commit (v, d) = Ret (r, (v1, d1)) ∧ dv_log d1 = dv_log d ++ L ∧ Forall ev_len L ∧ stage v L ∧
    (r = inl tt → ∃ A W abuf sbuf iroot v2 ik rs T abno g, new_image v A W abuf sbuf iroot v2 ik rs T abno g ∧
      L = writes (W ++ [(abno, abuf)]) ++ [EFlush; EWrite (g mod 2) sbuf; EFlush]).
Proof.
  intros Hfs Hn. pose proof (commit_run v d (fk_vol _ Hfs) Hn (some_inode _ (fk_names _ Hfs))) as Hrun.
  unfold ewp, wp in Hrun. destruct (commit (v, d)) as [[[[]|e] [v1 d1]]| | |]; [| |done..].
  - destruct Hrun as (A & W & abuf & sbuf & iroot & v2 & ik & rs' & T' & abno & g & Hnew & (_ & _ & Hlog & Hlen) & _).
    do 4 eexists. split_and!; [done|exact Hlog|done|by eapply stage_done|]. intros _. by do 11 eexists.
  - destruct Hrun as [[[= -> ->] _]|(evs & (_ & _ & Hlog & Hlen) & Hs & _)].
    + exists (inr e), v, d, []. rewrite app_nil_r. split_and!; [done|done|by apply Forall_nil|apply stage_tree; by apply Forall_nil|done].
    + exists (inr e), v1, d1, evs. by split_and!.
Qed.

(** A disk that holds a durable state mounts, and to a volume as good as the one
    that was lost. *)
Lemma remount v (d : Dev) sb maps ikids rs T v0 :
  good d → v_nblocks v ≤ dv_n d → durable v (content d) sb maps ikids rs T →
  ∃ io, mount (v0, d) = Ret (inl tt, (mounted sb maps ikids rs T io, d)) ∧ fs_ok (mounted sb maps ikids rs T io) ∧
    stable (mounted sb maps ikids rs T io) (content d).
Proof.
  intros Hg Hn Hd. destruct (mount_durable v (content d) d sb maps ikids rs T v0 Hg Hn (λ _ _, eq_refl) Hd) as (io & Hio & Hm).
  exists io. split; [done|].
  destruct (mounted_durable (content d) sb maps ikids rs T io Hio (du_live _ _ _ _ _ _ _ Hd) (du_image _ _ _ _ _ _ _ Hd)).
  split; [done|]. by do 5 eexists.
Qed.

Lemma durable_ext v m m' sb maps ikids rs T :
  (∀ b, m' b = m b) → durable v m sb maps ikids rs T → durable v m' sb maps ikids rs T.
Proof.
  intros Hm [[Hs1 Hs2 Hs3] Him ???]. split; try done; [split; by rewrite ?Hm|]. by apply (image_agree m).
Qed.

(** The content after a power loss. *)
Lemma crash_content (d : Dev) L ws :
  flushed (dv_log d) → reached L ws → Forall ev_len L →
  ∀ b, content (reboot (dv_n d) (put_blocks (written (dv_log d) ++ ws) (dv_medium d))) b = put_blocks ws (content d) b.
Proof.
  intros Hfl Hr Hl b. change (content (reboot _ ?m) b) with (fit m b).
  rewrite put_blocks_app, put_written by (by destruct Hfl). rewrite fit_put; [done|]. by eapply reached_len.
Qed.
