(* ===== verification/VibefsMkfs.v ===== *)
(** * vibefs: a new volume (src/crates/core/src/fs/vibefs/mkfs.rs)

    What mkfs leaves on a disk without faults is a durable state, and mount reads
    the empty volume back from it. *)

From stdpp Require Import base strings numbers gmap list sorting.
From S2P Require Import Prelude Bytes Crc Buf FsError Vibefs VibefsCommit VibefsLayout VibefsSort VibefsVol.
From S2P Require Import VibefsBlocks VibefsDisk VibefsTree VibefsInodeTree VibefsProtocol VibefsFiles VibefsMount VibefsImage VibefsDurable VibefsCrash.
Import VibefsCommit.

Local Open Scope Z_scope.

(** ** The volume *)
Definition mkfs_bitmap : list Z := 15 :: replicate 127 0.
Definition mkfs_refc : list Z := replicate 4 1 ++ replicate 1020 0.

Definition mkfs_label (label : list Z) : list Z := splice (replicate 32 0) 0 (take 32 label).
Definition mkfs_uuid (nblocks : Z) : list Z := [0x76; 0x31; 0; 0] ++ le_bytes 4 nblocks ++ replicate 8 0.

Definition new_vol (nblocks : Z) (label : list Z) : Vol :=
  let v := set_root_ino (set_flags (set_generation (set_nblocks Vol_new nblocks) 1) FLAG_DATA_CRC) ROOT_INO in
  let v := set_bitmap (set_refc (set_uuid (set_label (set_next_ino v 2) (mkfs_label label)) (mkfs_uuid nblocks)) mkfs_refc) mkfs_bitmap in
  set_inodes (set_inode_root (set_alloc_root v 2) 3) (padded 64 Inode_EMPTY [mkfs_root]).

Lemma mkfs_vol_ret nblocks label : mkfs_vol nblocks label = Ret (new_vol nblocks label).
Proof.
  unfold mkfs_vol. cbn [v_label v_uuid v_refc v_bitmap v_inodes set_next_ino set_root_ino set_flags set_generation set_nblocks Vol_new].
  rewrite sub_take by zlia. cbn [obind].
  replace (take (Z.to_nat (zlen label `min` 32)) label) with (take 32 label).
  2: { destruct (Z.min_spec (zlen label) 32) as [[? ->]|[? ->]]; [|done]. rewrite !take_ge; [done|zlia..]. }
  rewrite copy_into_ret by zlia. cbn [obind]. change (splice (replicate 32 0) 0 (take 32 label)) with (mkfs_label label).
  change (store (replicate 16 0) 0 118) with (Ret (118 :: replicate 15 0)). cbn [obind].
  change (store (118 :: replicate 15 0) 1 49) with (Ret (118 :: 49 :: replicate 14 0)). cbn [obind].
  unfold put32. rewrite save_ret by (try change (zlen (118 :: 49 :: replicate 14 0)) with 16; lia). cbn [obind].
  change (splice (118 :: 49 :: replicate 14 0) 4 (le_bytes 4 nblocks)) with (mkfs_uuid nblocks).
  change (ofor (range 0 4) _ _) with (Ret (A := list Z * list Z) (mkfs_refc, mkfs_bitmap)). cbn [obind fst snd].
  change (store (replicate (Z.to_nat MAX_INODES) Inode_EMPTY) 0 mkfs_root) with (Ret (padded 64 Inode_EMPTY [mkfs_root])).
  cbn [obind]. done.
Qed.

Lemma mkfs_root_loads : inode_loads mkfs_root.
Proof.
  split_and!; [|by compute|done]. split; try (by compute); [|apply Forall_replicate; unfold is_byte; lia].
  apply Forall_replicate. split; by compute.
Qed.

Lemma mkfs_label_ok label : bytes_ok label → length (mkfs_label label) = 32%nat ∧ bytes_ok (mkfs_label label).
Proof.
  intros Hl. unfold mkfs_label. split.
  - assert (Hz : zlen (splice (replicate 32 0) 0 (take 32 label)) = 32) by (rewrite zlen_splice; zlia). unfold zlen in Hz. lia.
  - apply splice_bytes; [apply Forall_replicate; by compute|by apply Forall_take].
Qed.

(** Three fallible computations in a row. *)
Lemma lift_chain3 {S X A B C} (o1 : outcome A) (o2 : A → outcome B) (o3 : B → outcome C) (k : C → M S (X + Error)) s
    (P : C → Prop) (Q : X → S → Prop) R :
  owp (x <~ o1 ;; y <~ o2 x ;; o3 y) P → (∀ z, P z → ewp (k z) s Q R) →
  ewp (x <- lift o1 ;; y <- lift (o2 x) ;; z <- lift (o3 y) ;; k z) s Q R.
Proof.
  intros Ho Hk. destruct o1 as [x| | |]; [|done..]. cbn [obind] in Ho. apply ewp_pbind, wp_lift. cbn [owp].
  destruct (o2 x) as [y| | |]; [|done..]. cbn [obind] in Ho. apply ewp_pbind, wp_lift. cbn [owp].
  destruct (o3 y) as [z| | |]; [|done..]. apply ewp_pbind, wp_lift. cbn [owp]. by apply Hk.
Qed.

Lemma root_rec_spec b :
  filled BLOCK b (hdr_layout META_INODE_LEAF 0 1 1 0) 24 →
  owp (tail <~ sub b HDR (zlen b - HDR) ;; tail <~ pack_inode tail mkfs_root ;; copy_into b HDR tail)
    (λ b', filled BLOCK b' (inode_leaf_layout 1 [mkfs_root]) (HDR + 256)).
Proof.
  intros F. pose proof (put_inode_rec_spec (new_vol 0 []) [0] 0 0 mkfs_root b _ 24 F) as Hp.
  unfold put_inode_rec in Hp. change (index [0] (0 + 0)) with (Ret 0) in Hp. cbn [obind] in Hp.
  change (index (v_inodes (new_vol 0 [])) 0) with (Ret mkfs_root) in Hp. cbn [obind] in Hp.
  change (HDR + 0 * INODE_REC) with HDR in Hp. eapply owp_mono; [apply Hp; [by compute..|apply mkfs_root_loads|]|].
  - by exists 0.
  - intros b' F'. cbv beta in *. exact F'.
Qed.

Section new.
Context (nblocks : Z) (label : list Z).
Hypothesis Hn : MIN_BLOCKS ≤ nblocks ≤ MAX_BLOCKS.
Hypothesis Hlabel : bytes_ok label.
Local Abbreviation v := (new_vol nblocks label).

Lemma new_vol_super : super_typed v.
Proof using Hn Hlabel.
  destruct (mkfs_label_ok label Hlabel) as [Hl1 Hl2]. split; try (by compute); try done.
  apply Forall_app. split; [repeat (apply Forall_cons; split; [by compute|]); by apply Forall_nil|].
  { apply Forall_app. split; [apply le_bytes_ok|apply Forall_replicate; by compute]. }
  apply Forall_replicate. split; try (by compute). apply Forall_replicate. by compute.
Qed.

Lemma new_vol_snaps : snaps_packed (v_snaps v).
Proof using.
  intros i s Hi. change (v_snaps v) with (replicate 4 Snap_EMPTY) in *. apply lookup_replicate in Hi as [-> _].
  split; [|done]. change (count_used_snaps (replicate 4 Snap_EMPTY)) with 0. rewrite bool_decide_eq_false_2; [done|lia].
Qed.

Lemma new_maps : bytes_ok mkfs_bitmap ∧ bytes_ok mkfs_refc.
Proof using.
  split.
  - apply Forall_cons. split; [by compute|]. apply Forall_replicate. by compute.
  - apply Forall_app. split; apply Forall_replicate; by compute.
Qed.

Lemma mkfs_files : files_ok [mkfs_root] [] ROOT_INO 2.
Proof using.
  assert (Hin : ∀ r, r ∈ [mkfs_root] → r = mkfs_root) by (intros r; apply list_elem_of_singleton).
  split; try (intros de Hde; by apply elem_of_nil in Hde).
  - by apply NoDup_singleton.
  - intros r ->%Hin. by compute.
  - exists mkfs_root. split; [by left|done].
  - by apply NoDup_nil.
  - by apply NoDup_nil.
  - intros r ->%Hin. by apply Forall_nil.
Qed.
Lemma mkfs_refs b : occ b [2; 3] ≤ default 0 (mkfs_refc !! Z.to_nat b).
Proof using.
  rewrite !occ_cons, occ_nil. destruct (decide (2 = b)) as [E2|], (decide (3 = b)) as [E3|]; try (by subst b); try (subst b; by vm_compute).
  destruct (mkfs_refc !! Z.to_nat b) as [r|] eqn:E; cbn; [|lia]. apply (Forall_lookup_1 _ _ _ _ (proj2 new_maps)) in E.
  unfold is_byte in E. lia.
Qed.

(** The blocks mkfs writes. *)
Record mkfs_blocks (ib ab s0 s1 : list Z) : Prop := {
  mb_inodes : sealed ib (inode_leaf_layout 1 [mkfs_root]);
  mb_alloc : sealed ab (alloc_layout nblocks 1 (mkfs_bitmap, mkfs_refc));
  mb_super0 : parse_super s0 0 = Ret (inl (super_of v)) ∧ zlen s0 = BLOCK;
  mb_super1 : parse_super s1 1 = Ret (inl (super_of v)) ∧ zlen s1 = BLOCK;
}.

Lemma mkfs_image m ib ab s0 s1 :
  mkfs_blocks ib ab s0 s1 → m 3 = ib → m 2 = ab → m 0 = s0 → m 1 = s1 →
  live_super m (super_of v) ∧ image m (super_of v) (mkfs_bitmap, mkfs_refc) [3] [mkfs_root] [([], [])].
Proof using Hn Hlabel.
  intros [Hi Ha [Hp0 Hl0] [Hp1 Hl1]] H3 H2 H0 H1. pose proof Hn as Hn'. change MIN_BLOCKS with 16 in Hn'. split.
  - split; change (sb_generation (super_of v)) with 1; change (1 mod 2) with 1; change ((1 + 1) mod 2) with 0.
    + by rewrite H1.
    + rewrite H0, Hp0. intros s [= <-]. by right.
    + by rewrite H0, H1.
  - assert (Hst : ∀ b x, 2 ≤ b < 4 → m b = x → stored nblocks m b x) by (intros b x Hb Hx; split; [lia|done]).
    split; change (sb_nblocks (super_of v)) with nblocks; change (sb_generation (super_of v)) with 1;
      change (sb_alloc_root (super_of v)) with 2; change (sb_inode_root (super_of v)) with 3.
    + exists v. split_and!; [done|exact new_vol_super|exact new_vol_snaps].
    + exists ab. split; [apply Hst; [lia|done]|done].
    + done.
    + done.
    + exact new_maps.
    + exists [[mkfs_root]]. split_and!; [done| |by compute..|by left]. constructor; [|constructor].
      exists ib. split; [apply Hst; [lia|done]|]. split; [done|by compute].
    + apply Forall_singleton. exact mkfs_root_loads.
    + by compute.
    + constructor; [|constructor]. unfold rec_dir. change (is_dir mkfs_root) with true. cbv iota. split; [|by apply Forall_nil]. by left.
    + by compute.
    + by compute.
    + exact mkfs_files.
    + intros b. change (image_meta (super_of v) [3] [mkfs_root] [([], [])] ++ all_data [mkfs_root]) with [2; 3]. exact (mkfs_refs b).
    + by apply Forall_nil.
Qed.

Lemma write_alloc_new io (Q : list Z → Prop) :
  (∀ b, sealed b (alloc_layout nblocks 1 (mkfs_bitmap, mkfs_refc)) → Q b) →
  owp (write_alloc_into (set_iobuf v io) [] (replicate (Z.to_nat BLOCK) 0)) Q.
Proof using Hn.
  intros HQ. unfold write_alloc_into. change (sub (v_drop (set_iobuf v io)) 0 (v_ndrop (set_iobuf v io))) with (Ret (@nil Z)). cbn [obind].
  apply alloc_into_spec; [by compute|done|by compute..|apply new_maps|apply new_maps|exact HQ].
Qed.
Lemma super_iobuf v0 io : super_typed v0 → super_typed (set_iobuf v0 io).
Proof using. intros []. by split. Qed.

(** mkfs on a disk that fails no call. *)
Lemma mkfs_run `{DiskLaws D} v0 (d : D) :
  nblocks = disk_nblocks d → good d →
  ewp (mkfs label) (v0, d) (λ _ s, ∃ ib ab s0 s1, mkfs_blocks ib ab s0 s1 ∧ good (snd s) ∧
     did d (writes [(3, ib); (2, ab); (0, s0); (1, s1)] ++ [EFlush]) (snd s)) (λ _ _, False).
Proof using Hn Hlabel.
  intros Hd Hg. pose proof Hn as Hn'. unfold mkfs. apply ewp_pbind, wp_get. cbn [snd]. rewrite <-Hd. apply ewp_bind, ewp_bail; intros Hb.
  { apply orb_true_iff in Hb as [Hb%Z.ltb_lt|Hb%Z.ltb_lt]; lia. } clear Hb.
  apply ewp_pbind, wp_lift. rewrite mkfs_vol_ret. cbn [owp]. apply ewp_pbind, wp_onvol. cbn [fst snd]. apply wp_put.
  change (v_iobuf v) with (replicate 4096 0). apply ewp_pbind, wp_lift.
  apply (meta_hdr_spec (replicate 4096 0) META_INODE_LEAF 0 1 1 0); [by compute..|]. intros b0 F0.
  apply ewp_pbind, wp_lift. change (index (v_inodes v) 0) with (Ret mkfs_root). cbn [owp].
  eapply lift_chain3; [apply (root_rec_spec b0 F0)|]. intros b1 F1. cbv beta in F1.
  apply ewp_pbind, wp_lift. eapply finish_meta_spec; [exact F1|apply off_crc_inode_leaf|]. intros ib Hib.
  apply ewp_pbind, wp_onvol. cbn [fst snd]. apply wp_modify.
  apply ewp_bind, ewp_write; cbn [fst snd v_iobuf set_iobuf]; [change MIN_BLOCKS with 16 in Hn; lia|exact (sl_len _ _ Hib)| |intros e d' _ Hng; by destruct Hng].
  intros d1 Hd1 Hg1. apply ewp_pbind, wp_gets. cbn [fst snd].
  apply ewp_pbind, wp_lift, write_alloc_new. intros ab Hab.
  change MIN_BLOCKS with 16 in Hn'. pose proof (did_nblocks _ _ _ Hd1) as N1.
  apply ewp_bind, ewp_write_buf; cbn [fst snd]; [lia|exact (sl_len _ _ Hab)| |intros e d' _ Hng; destruct Hng; tauto].
  intros d2 Hd2 Hg2. pose proof (did_trans _ _ _ _ _ Hd1 Hd2) as Hd12. pose proof (did_nblocks _ _ _ Hd12) as N2.
  apply ewp_pbind, wp_lift. apply pack_super_spec; [exact (sl_len _ _ Hab)|apply super_iobuf, new_vol_super|by compute|].
  intros s0 Hl0 Hb0 Hc0 Hk0. apply ewp_bind, ewp_write_buf; cbn [fst snd]; [lia|done| |intros e d' _ Hng; destruct Hng; tauto].
  intros d3 Hd3 Hg3. pose proof (did_trans _ _ _ _ _ Hd12 Hd3) as Hd13. pose proof (did_nblocks _ _ _ Hd13) as N3.
  apply ewp_pbind, wp_lift. apply pack_super_spec; [done|apply super_iobuf, new_vol_super|by compute|].
  intros s1 Hl1 Hb1 Hc1 Hk1. apply ewp_bind, ewp_write_buf; cbn [fst snd]; [lia|done| |intros e d' _ Hng; destruct Hng; tauto].
  intros d4 Hd4 Hg4. pose proof (did_trans _ _ _ _ _ Hd13 Hd4) as Hd14.
  apply ewp_flush; cbn [fst snd]; [|intros e d' _ Hng; destruct Hng; tauto]. intros d5 Hd5 Hg5.
  pose proof (did_trans _ _ _ _ _ Hd14 Hd5) as Hd15. exists ib, ab, s0, s1. split_and!; [|tauto|exact Hd15].
  split; [done|done|split; [|done]..].
  - rewrite (parse_super_spec s0 _ 0 Hc0 Hk0); [done|apply super_iobuf, new_vol_super|exact new_vol_snaps].
  - rewrite (parse_super_spec s1 _ 1 Hc1 Hk1); [done|apply super_iobuf, new_vol_super|exact new_vol_snaps].
Qed.
End new.

Lemma mkfs_free nblocks label io : MIN_BLOCKS ≤ nblocks ≤ MAX_BLOCKS →
  let vm := mounted (super_of (new_vol nblocks label)) (mkfs_bitmap, mkfs_refc) [3] [mkfs_root] [([], [])] io in
  ∀ b, is_free vm b ↔ 4 ≤ b < nblocks.
Proof.
  intros Hn vm b. change MIN_BLOCKS with 16 in Hn. change MAX_BLOCKS with 1024 in Hn. unfold is_free. change (v_nblocks vm) with nblocks.
  assert (Hrc : 2 ≤ b < nblocks → refc_of vm b = if b <? 4 then 1 else 0).
  { intros Hb. unfold refc_of. change (v_refc vm) with (padded 1024 0 (take (Z.to_nat nblocks) mkfs_refc)). unfold padded, mkfs_refc.
    rewrite lookup_app_l by (rewrite length_take, length_app, !length_replicate; lia). rewrite lookup_take_lt by lia.
    destruct (Z.ltb_spec b 4).
    - rewrite lookup_app_l by (rewrite length_replicate; lia). rewrite lookup_replicate_2 by lia. done.
    - rewrite lookup_app_r by (rewrite length_replicate; lia). rewrite length_replicate, lookup_replicate_2 by lia. done. }
  split.
  - intros [Hb Hr]. rewrite Hrc in Hr by done. destruct (Z.ltb_spec b 4); lia.
  - intros Hb. split; [lia|]. rewrite Hrc by lia. by rewrite (proj2 (Z.ltb_ge b 4)) by lia.
Qed.

(** What mkfs leaves behind. *)
Lemma mkfs_leaves `{DiskLaws D} v0 (d : D) label :
  good d → MIN_BLOCKS ≤ disk_nblocks d ≤ MAX_BLOCKS → bytes_ok label →
  let sb := super_of (new_vol (disk_nblocks d) label) in
  ∃ v d' W, mkfs label (v0, d) = Ret (inl tt, (v, d')) ∧ good d' ∧ disk_nblocks d' = disk_nblocks d ∧
    did d (writes W ++ [EFlush]) d' ∧ live_super (content d') sb ∧
    image (content d') sb (mkfs_bitmap, mkfs_refc) [3] [mkfs_root] [([], [])].
Proof.
  intros Hg Hn Hl sb. pose proof (mkfs_run (disk_nblocks d) label Hn Hl v0 d eq_refl Hg) as Hrun.
  unfold ewp, wp in Hrun. destruct (mkfs label (v0, d)) as [[[[]|e] [v d']]| | |]; [|done..].
  destruct Hrun as (ib & ab & s0 & s1 & Hb & Hg' & Hd). cbn [snd] in *. exists v, d', [(3, ib); (2, ab); (0, s0); (1, s1)].
  pose proof (did_nblocks _ _ _ Hd) as Hnb. split; [done|]. split; [done|]. split; [done|]. split; [done|].
  assert (Hc : ∀ b x, (b, x) ∈ [(3, ib); (2, ab); (0, s0); (1, s1)] → content d' b = x).
  { intros b x Hin. rewrite (did_content _ _ _ b Hd).
    - rewrite apply_events_app, apply_writes. cbn. unfold put_block. rewrite !elem_of_cons in Hin.
      by destruct Hin as [[= -> ->]|[[= -> ->]|[[= -> ->]|[[= -> ->]|Hin%elem_of_nil]]]].
    - apply Forall_app. split; [unfold writes; rewrite Forall_map; by apply Forall_true|by apply Forall_singleton].
    - rewrite !elem_of_cons in Hin. by destruct Hin as [[= -> ->]|[[= -> ->]|[[= -> ->]|[[= -> ->]|Hin%elem_of_nil]]]]. }
  apply (mkfs_image (disk_nblocks d) label Hn Hl (content d') ib ab s0 s1 Hb); apply Hc; set_solver.
Qed.

(** Any durable state below a live superblock mounts. *)
Lemma image_mounts `{DiskLaws D} (d : D) sb maps ikids rs T v1 :
  good d → sb_nblocks sb ≤ disk_nblocks d → live_super (content d) sb → image (content d) sb maps ikids rs T →
  ∃ io, mount (v1, d) = Ret (inl tt, (mounted sb maps ikids rs T io, d)) ∧ fs_ok (mounted sb maps ikids rs T io) ∧
    durable (mounted sb maps ikids rs T io) (content d) sb maps ikids rs T.
Proof.
  intros Hg Hn Hlive Him.
  destruct (mounted_durable (content d) _ _ _ _ _ (replicate (Z.to_nat BLOCK) 0) ltac:(by compute) Hlive Him) as [_ Hdu].
  set (vd := mounted _ _ _ _ _ _) in Hdu. assert (Hnd : v_nblocks vd ≤ disk_nblocks d) by exact Hn.
  destruct (mount_durable vd (content d) d _ _ _ _ _ v1 Hg Hnd (λ _ _, eq_refl) Hdu) as (io & Hio & Hm).
  exists io. split; [exact Hm|]. exact (mounted_durable (content d) _ _ _ _ _ io Hio Hlive Him).
Qed.

(** C36: On a disk of 16 to 1024 blocks that fails no call, mkfs makes an empty
    volume that mounts: generation 1, the root directory and no name, every block
    from the fifth on free, and the invariants of a volume that commits rely on. *)
Theorem mkfs_mount `{DiskLaws D} v0 (d : D) label :
  good d → MIN_BLOCKS ≤ disk_nblocks d ≤ MAX_BLOCKS → bytes_ok label →
  ∃ v d', mkfs label (v0, d) = Ret (inl tt, (v, d')) ∧ good d' ∧ disk_nblocks d' = disk_nblocks d ∧
    ∀ v1, ∃ vm, mount (v1, d') = Ret (inl tt, (vm, d')) ∧ fs_ok vm ∧ stable vm (content d') ∧
      super_of vm = super_of (new_vol (disk_nblocks d) label) ∧ used_inodes vm = [mkfs_root] ∧ used_dents vm = [] ∧
      ∀ b, is_free vm b ↔ 4 ≤ b < disk_nblocks d.
Proof.
  intros Hg Hn Hl. destruct (mkfs_leaves v0 d label Hg Hn Hl) as (v & d' & W & Hmk & Hg' & Hnb & _ & Hlive & Him).
  exists v, d'. split_and!; [done|done|done|]. intros v1.
  destruct (image_mounts d' (super_of (new_vol (disk_nblocks d) label)) _ _ _ _ v1 Hg' (Z.eq_le_incl _ _ (eq_sym Hnb)) Hlive Him) as (io & Hm & Hfs & Hdu).
  eexists. split; [exact Hm|].
  split_and!; [done|by do 5 eexists|apply mounted_super|by rewrite (mounted_inodes _ _ _ _ _ _ Him)|by rewrite (mounted_dents _ _ _ _ _ _ Him)|].
  by apply mkfs_free.
Qed.

(** An empty device of 16 blocks. *)
Definition blank : Dev := reboot 16 (λ _, replicate (Z.to_nat BLOCK) 0).
Lemma mkfs_mount_witness : ∃ v d', mkfs [86; 49] (Vol_new, blank) = Ret (inl tt, (v, d')).
Proof.
  destruct (mkfs_mount Vol_new blank [86; 49]) as (v & d' & Hm & _).
  - reflexivity.
  - by compute.
  - apply Forall_cons. split; [by compute|]. apply Forall_singleton. by compute.
  - exists v, d'. exact Hm.
Defined.
