(* ===== verification/VibefsAtomic.v ===== *)
(** * vibefs: commits are durable and atomic

    The contract of [Vol::commit] on a disk without faults, and on a device that
    fails calls and loses power; and runs that show two limits docs/VIBEFS.md
    records as not yet met: a commit retried after a failed one overwrites the
    newest superblock (section 10), and a file cut inside a block shows its old
    bytes when it grows again (section 9). *)

From stdpp Require Import base strings numbers gmap list sorting.
From S2P Require Import Prelude Bytes Crc Buf FsError Vibefs VibefsCommit VibefsOps VibefsLayout VibefsSort VibefsVol.
From S2P Require Import VibefsBlocks VibefsDisk VibefsTree VibefsInodeTree VibefsProtocol VibefsFiles VibefsMount VibefsImage VibefsDurable VibefsCrash VibefsMkfs.
Import VibefsOps.

Local Open Scope Z_scope.

(** C2: On a disk that fails no call, a commit of a volume in a durable state
    succeeds whenever there is room, keeps every invariant, leaves the same names
    and files a generation on, and what mount then reads back is exactly that
    volume; without room it changes nothing. *)
Theorem commit_mount `{DiskLaws D} v (d : D) :
  fs_ok v → good d → v_nblocks v ≤ disk_nblocks d → stable v (content d) →
  (∃ e, ¬ room v ∧ commit (v, d) = Ret (inr e, (v, d))) ∨
  room v ∧ ∃ v' d', commit (v, d) = Ret (inl tt, (v', d')) ∧ fs_ok v' ∧ next_state v v' ∧ good d' ∧
    stable v' (content d') ∧
    ∀ v0, ∃ vm, mount (v0, d') = Ret (inl tt, (vm, d')) ∧ same_fs v' vm.
Proof.
  intros Hfs Hg Hn (sb & maps & ikids & rs & T & Hdu). pose proof (commit_run v d (fk_vol _ Hfs) Hn (some_inode _ (fk_names _ Hfs))) as Hrun.
  unfold ewp, wp in Hrun. destruct (commit (v, d)) as [[[[]|e] [v' d']]| | |]; [right|left|done..].
  2: { destruct Hrun as [[[= -> ->] Hnr]|(evs & _ & _ & Hng)]; [by exists e|done]. }
  destruct Hrun as (A & W & abuf & sbuf & iroot & v1 & ik & rs' & T' & abno & g & Hnew & Hd & Hv & Hgd & Hroom). cbn [fst snd] in *. split; [done|].
  destruct (done_durable v d d' sb maps ikids rs T A W abuf sbuf iroot v1 ik rs' T' abno g Hfs Hdu Hnew Hd) as (T2 & Hdu2 & Hm & Hde & Hrs).
  rewrite <-Hv in *. exists v', d'. split_and!; [done|..].
  - rewrite Hv. by eapply committed_fs_ok.
  - rewrite Hv. by eapply committed_next.
  - by apply Hgd.
  - by do 5 eexists.
  - intros v0. assert (Hnb : v_nblocks v' ≤ disk_nblocks d').
    { rewrite (did_nblocks _ _ _ Hd). assert (Hns : next_state v v') by (rewrite Hv; by eapply committed_next).
      rewrite (ns_nblocks _ _ Hns). done. }
    destruct (mount_durable v' (content d') d' _ _ _ _ _ v0 (Hgd Hg) Hnb (λ _ _, eq_refl) Hdu2) as (io & _ & Hmo).
    eexists. split; [exact Hmo|]. rewrite Hv. eapply mounted_new; try done; [|by rewrite <-Hv..]. by destruct Hdu2.
Qed.


(** A blank device, formatted and mounted. *)
Lemma formatted : ∃ d vm, good d ∧ flushed (dv_log d) ∧ dv_n d = 16 ∧ v_nblocks vm = 16 ∧ fs_ok vm ∧ stable vm (content d) ∧ room vm.
Proof.
  assert (Hl : bytes_ok []) by (by apply Forall_nil). assert (Hgb : good blank) by reflexivity.
  destruct (mkfs_leaves Vol_new blank [] Hgb ltac:(by compute) Hl) as (v & d & W & _ & Hg & Hn & (_ & _ & Hlog & _) & Hlive & Him).
  assert (Hnb : sb_nblocks (super_of (new_vol (disk_nblocks blank) [])) ≤ disk_nblocks d) by (rewrite Hn; done).
  destruct (image_mounts d _ _ _ _ _ Vol_new Hg Hnb Hlive Him) as (io & _ & Hfs & Hdu).
  eexists d, _. split_and!; [exact Hg| |exact Hn| |exact Hfs|by do 5 eexists|].
  - rewrite Hlog. cbn [dv_log blank reboot app]. split; [|right; by eexists]. apply Forall_app.
    split; [unfold writes; rewrite Forall_map; by apply Forall_true|by apply Forall_singleton].
  - done.
  - unfold room. split_and!; by vm_compute.
Qed.

Lemma commit_mount_witness : ∃ (v : Vol) (d : Dev) v' d', commit (v, d) = Ret (inl tt, (v', d')).
Proof.
  destruct formatted as (d & v & Hg & _ & Hn & Hnv & Hfs & Hst & Hroom).
  destruct (commit_mount v d Hfs Hg) as [(e & Hnr & _)|(_ & v' & d' & Hc & _)].
  - change (disk_nblocks d) with (dv_n d). lia.
  - exact Hst.
  - destruct (Hnr Hroom).
  - exists v, d, v', d'. exact Hc.
Defined.


Definition result_of {A S} (o : outcome ((A + Error) * S)) : option (A + Error) := match o with Ret (r, _) => Some r | _ => None end.

(** ** The retry of a failed commit *)

(** [s]'s device, whose coming calls fail as [f] says. *)
Definition with_faults (f : list bool) (s : Vol * Dev) : Vol * Dev :=
  (s.1, mkDev (dv_n s.2) (dv_medium s.2) (dv_log s.2) f).

Definition slot_written (ev : event) : option Z := match ev with EWrite b _ => Some b | _ => None end.

(** The power fails while block [b], the last but one event, is being written. *)
Definition torn_at (b : Z) (d : Dev) : Dev :=
  reboot (dv_n d) (put_block (apply_events (take (length (dv_log d) - 2) (dv_log d)) (dv_medium d)) b (replicate (Z.to_nat BLOCK) 0)).

(** A device is formatted, mounted and committed; the next commit fails at its
    second call, the write of the allocation map; the commit is retried, the power
    fails at its superblock, and the volume is mounted again.  The generations after
    the first commit, the failed one and the last mount, and the slot of the retry. *)
Definition retry_story : option (Z * Z * Z * Z) :=
  match (mkfs [] ?;; mount ?;; commit) (Vol_new, blank) with
  | Ret (inl _, s2) =>
      match commit (with_faults [false; true] s2) with
      | Ret (inr Io, s3) =>
          match commit s3 with
          | Ret (inl _, s4) =>
              match (dv_log s4.2 !! (length (dv_log s4.2) - 2)%nat) ≫= slot_written with
              | Some slot =>
                  match mount (Vol_new, torn_at slot s4.2) with
                  | Ret (inl _, s5) => Some (v_generation s2.1, v_generation s3.1, slot, v_generation s5.1)
                  | _ => None
                  end
              | None => None
              end
          | _ => None
          end
      | _ => None
      end
  | _ => None
  end.

(** Generation 2 was committed and flushed; the commit that failed left the
    generation at 3 in memory, so the retry wrote slot 0, where generation 2 was, and
    power lost then takes the volume back to generation 1. *)
Lemma retry_loses_commit : retry_story = Some (2, 3, 0, 1).
Proof. vm_compute. reflexivity. Qed.

(** ** The tail of a cut file *)
Definition small_disk : MemDisk := mkMemDisk (replicate (Z.to_nat (16 * BLOCK)) 0).

Definition cut_and_grow : M (Vol * MemDisk) ((list Z) + Error) :=
  mkfs [] ?;;
  mount ?;;
  n <-? onvol (create ROOT_INO [97] Reg 420 None) ;;
  write (n_ino n) 0 (replicate 200 7) ?;;
  truncate (n_ino n) 150 ?;;
  truncate (n_ino n) 152 ?;;
  r <- read (n_ino n) 148 (replicate 4 0) ;;
  ret (match r.1 with inl _ => inl r.2 | inr e => inr e end).

(** Bytes 150 and 151 were cut off, and read back as written, not as zeros. *)
Lemma truncate_shows_tail : result_of (cut_and_grow (Vol_new, small_disk)) = Some (inl [7; 7; 7; 7]).
Proof. vm_compute. reflexivity. Qed.
