(* ===== verification/VibefsNameProps.v ===== *)
(** * vibefs: the contract of the name operations

    Lookup, create, unlink and rename on a volume that satisfies the invariants:
    each returns, does to the map of names exactly what its name says or refuses for
    a stated reason and changes nothing, and keeps the state of the last commit on
    disk intact. *)

From stdpp Require Import base strings numbers gmap list sorting.
From S2P Require Import Prelude Bytes Crc Buf FsError Vibefs VibefsCommit VibefsOps VibefsLayout VibefsSort VibefsVol.
From S2P Require Import VibefsBlocks VibefsDisk VibefsTree VibefsInodeTree VibefsProtocol VibefsFiles VibefsMount VibefsImage VibefsDurable VibefsSpace.
From S2P Require Import VibefsNames VibefsRename VibefsCrash VibefsMkfs.
Import VibefsOps.

Local Open Scope Z_scope.

(** ** The state of the last commit *)
Lemma durable_moves v v' m sb maps ikids rs T :
  moves v v' → durable v m sb maps ikids rs T → durable v' m sb maps ikids rs T.
Proof.
  intros [Hk Hs] [Hl Him Hg Hn Hkept]. split; [done|done| | |].
  - rewrite Hg. exact (f_equal sb_generation (eq_sym Hs)).
  - rewrite Hn. exact (f_equal sb_nblocks (eq_sym Hs)).
  - assert (Hr : ∀ b, b ∈ image_meta sb ikids rs T ++ all_data rs → 2 ≤ b).
    { intros b [Hb|Hb]%elem_of_app; [by destruct (image_meta_range _ _ _ _ _ _ Him b Hb)|].
      pose proof (im_range _ _ _ _ _ _ Him) as Hrg. rewrite Forall_forall in Hrg. specialize (Hrg b Hb). lia. }
    rewrite Forall_forall in *. intros b Hb. destruct (Hkept b Hb) as [H1 H2]. specialize (Hr b Hb).
    destruct (Hk b ltac:(lia) H1 H2) as [E1 E2]. by rewrite E1, E2.
Qed.
Lemma stable_moves v v' m : moves v v' → stable v m → stable v' m.
Proof. intros Hm (sb & maps & ikids & rs & T & Hd). exists sb, maps, ikids, rs, T. by eapply durable_moves. Qed.

(** C40: On a volume that satisfies the invariants, [lookup] changes nothing and
    finds exactly the names of the map: the inode number of a name that is there,
    and an error for one that is not or that no file may have. *)
Theorem lookup_exact v dir name :
  fs_ok v →
  ∃ r, lookup dir name v = Ret (r, v) ∧
    match r with
    | inl n => name_ok name = inl tt ∧ names v !! (dir, name) = Some (n_ino n)
    | inr e => name_ok name = inr e ∨ names v !! (dir, name) = None ∧ (e = NotFound ∨ e = NotDir)
    end.
Proof.
  intros Hfs. assert (Hrun : ewp (lookup dir name) v (λ n v', v' = v ∧ name_ok name = inl tt ∧ names v !! (dir, name) = Some (n_ino n))
    (λ e v', v' = v ∧ (name_ok name = inr e ∨ names v !! (dir, name) = None ∧ (e = NotFound ∨ e = NotDir)))).
  { apply lookup_run; [done|by intros n -> |naive_solver]. }
  apply ewp_run in Hrun as (r & v' & E & Hr). exists r. destruct r as [n|e]; destruct Hr as [-> Hr]; by split.
Qed.

(** C34: On a volume that satisfies the invariants, [create] either adds exactly the
    one name, for a new file with the next inode number, the given kind, mode and
    link target and no other file changed but for its directory's times, or refuses
    for a stated reason and leaves the volume as it was; every file can still be
    reached from the root, and the disk still holds the last commit. *)
Theorem create_adds v dir name kind mode target :
  fs_ok v → tree v → u32 dir → u16 mode → bytes_ok name → match target with Some t => bytes_ok t | None => True end →
  ∃ r v', create dir name kind mode target v = Ret (r, v') ∧ (∀ m, stable v m → stable v' m) ∧
    match r with
    | inl n => created v dir name kind mode target n v' ∧ tree v'
    | inr e => v' = v ∧ create_refused v dir name kind target e
    end.
Proof.
  intros Hfs Ht Hd Hm Hb Htg. pose proof (create_run v dir name kind mode target Hfs Hd Hm Hb Htg) as Hrun.
  apply ewp_run in Hrun as (r & v' & E & Hr). exists r, v'. split; [done|]. destruct r as [n|e].
  - split; [intros m; apply stable_moves, (cd_moves _ _ _ _ _ _ _ _ Hr)|]. split; [done|]. by eapply created_tree.
  - destruct Hr as [-> Hr]. by split_and!.
Qed.

(** C35: On a volume that satisfies the invariants, [unlink] either removes exactly
    the one name, with the file when it was the last, a directory only when asked
    to and when it is empty, or refuses for a stated reason and leaves the volume
    as it was; every file can still be reached from the root, and no block the disk
    needs for the last commit is given up. *)
Theorem unlink_removes v dir name rmdir :
  fs_ok v → tree v →
  ∃ r v', unlink dir name rmdir v = Ret (r, v') ∧ (∀ m, stable v m → stable v' m) ∧
    match r with
    | inl _ => unlinked v dir name rmdir v' ∧ tree v'
    | inr e => v' = v ∧ unlink_refused v dir name rmdir e
    end.
Proof.
  intros Hfs Ht. pose proof (unlink_run v dir name rmdir Hfs) as Hrun. apply ewp_run in Hrun as (r & v' & E & Hr). exists r, v'.
  split; [done|]. destruct r as [n|e].
  - destruct Hr as [Hr _]. split; [intros m; apply stable_moves, (ul_moves _ _ _ _ _ Hr)|]. split; [done|]. by eapply unlinked_tree.
  - destruct Hr as [-> Hr]. by split_and!.
Qed.

(** C3: On a volume that satisfies the invariants, [rename] either moves exactly
    the one name, replacing a file of the same kind the new name had, or refuses for
    a stated reason and leaves the volume as it was.  No rename cuts a file off: one
    that would put a directory below itself is refused, and every file can still be
    reached from the root. *)
Theorem rename_moves v sd sn dd dn :
  fs_ok v → tree v → u32 dd → bytes_ok dn →
  ∃ r v', rename sd sn dd dn v = Ret (r, v') ∧ (∀ m, stable v m → stable v' m) ∧
    match r with
    | inl _ => renamed v sd sn dd dn v'
    | inr e => v' = v ∧ rename_refused v sd sn dd dn e
    end.
Proof.
  intros Hfs Ht Hd Hb. pose proof (rename_run v sd sn dd dn Hfs Ht Hd Hb) as Hrun. apply ewp_run in Hrun as (r & v' & E & Hr). exists r, v'.
  split; [done|]. destruct r as [n|e].
  - split; [intros m; apply stable_moves, (rn_moves _ _ _ _ _ _ Hr)|done].
  - destruct Hr as [-> Hr]. by split_and!.
Qed.

(** ** An empty volume, and one with a file *)
Definition empty_vol : Vol :=
  mounted (super_of (new_vol 16 [])) (mkfs_bitmap, mkfs_refc) [3] [mkfs_root] [([], [])] (replicate (Z.to_nat BLOCK) 0).

Lemma empty_vol_ok : fs_ok empty_vol ∧ tree empty_vol.
Proof.
  assert (Hl : bytes_ok []) by (by apply Forall_nil). assert (Hgb : good blank) by reflexivity.
  destruct (mkfs_leaves Vol_new blank [] Hgb ltac:(by compute) Hl) as (v & d & W & _ & _ & _ & _ & Hlive & Him).
  destruct (mounted_durable (content d) _ _ _ _ _ (replicate (Z.to_nat BLOCK) 0) ltac:(by compute) Hlive Him) as [Hfs _].
  split; [exact Hfs|]. intros r Hr. assert (E : r = mkfs_root).
  { assert (Hu : used_inodes empty_vol = [mkfs_root]) by (by vm_compute). rewrite Hu in Hr. by apply list_elem_of_singleton. }
  subst r. split; [done|]. apply climbs_root.
Qed.

Definition one_file : Vol :=
  match create ROOT_INO [97] Reg 420 None empty_vol with Ret (_, v) => v | _ => empty_vol end.
Lemma one_file_ok : fs_ok one_file ∧ tree one_file ∧ names one_file = {[ (ROOT_INO, [97]) := 2 ]}.
Proof.
  destruct empty_vol_ok as [Hfs Ht]. assert (Hb : bytes_ok [97]) by (apply Forall_singleton; by compute).
  pose proof (create_run empty_vol ROOT_INO [97] Reg 420 None Hfs ltac:(by compute) ltac:(by compute) Hb I) as Hrun.
  apply ewp_run in Hrun as (r & v' & E & Hr). unfold one_file. rewrite E. destruct r as [n|e].
  - split_and!; [exact (cd_fs _ _ _ _ _ _ _ _ Hr)|by eapply created_tree|]. rewrite (cd_names _ _ _ _ _ _ _ _ Hr). by vm_compute.
  - vm_compute in E. discriminate.
Qed.

Lemma lookup_exact_witness : ∃ n, lookup ROOT_INO [97] one_file = Ret (inl n, one_file) ∧ n_ino n = 2.
Proof.
  destruct one_file_ok as (Hfs & _ & Hn). destruct (lookup_exact one_file ROOT_INO [97] Hfs) as (r & E & Hr). destruct r as [n|e].
  - exists n. split; [exact E|]. destruct Hr as [_ Hr]. rewrite Hn, lookup_singleton_eq in Hr. congruence.
  - destruct Hr as [Hr|[Hr _]]; [vm_compute in Hr; discriminate|]. rewrite Hn, lookup_singleton_eq in Hr. discriminate.
Defined.

Lemma create_adds_witness : ∃ n v', create ROOT_INO [98] Dir 493 None one_file = Ret (inl n, v') ∧ tree v'.
Proof.
  destruct one_file_ok as (Hfs & Ht & _).
  destruct (create_adds one_file ROOT_INO [98] Dir 493 None Hfs Ht ltac:(by compute) ltac:(by compute)) as (r & v' & E & _ & Hr).
  - apply Forall_singleton. by compute.
  - exact I.
  - destruct r as [n|e]; [exists n, v'; split; [exact E|apply Hr]|]. vm_compute in E. discriminate.
Defined.

Lemma unlink_removes_witness : ∃ v', unlink ROOT_INO [97] false one_file = Ret (inl tt, v') ∧ names v' = ∅.
Proof.
  destruct one_file_ok as (Hfs & Ht & Hn). destruct (unlink_removes one_file ROOT_INO [97] false Hfs Ht) as (r & v' & E & _ & Hr).
  destruct r as [[]|e]; [exists v'; split; [exact E|]|vm_compute in E; discriminate].
  destruct Hr as [Hr _]. rewrite (ul_names _ _ _ _ _ Hr), Hn. by vm_compute.
Defined.

Lemma rename_moves_witness : ∃ v', rename ROOT_INO [97] ROOT_INO [98] one_file = Ret (inl tt, v') ∧ tree v'.
Proof.
  destruct one_file_ok as (Hfs & Ht & Hn). destruct (rename_moves one_file ROOT_INO [97] ROOT_INO [98] Hfs Ht) as (r & v' & E & _ & Hr).
  - by compute.
  - apply Forall_singleton. by compute.
  - destruct r as [[]|e]; [exists v'; split; [exact E|exact (rn_tree _ _ _ _ _ _ Hr)]|vm_compute in E; discriminate].
Defined.
